(* ===== verification/_CoqProject ===== *)
-Q . S2P
Prelude.v
Bytes.v
Buffer.v
Codec.v
RoomStateMachine.v
GameState.v
Protocol.v
Connection.v
Checkpoint.v
CheckpointCodec.v
Room.v
RoomManager.v
Session.v
SessionManager.v
RoomService.v
ServiceInvariant.v
StaleSession.v
Dispatch.v
IoThread.v
IoOutput.v
Network.v
EventLoop.v
LoopWakeup.v
EventLoopThreads.v
Files.v
SimFiles.v
CheckpointStore.v
StoreThreads.v
TickTimer.v
ShutdownSignal.v
PersistenceService.v
TcpServer.v
ServerMain.v
ServerLoop.v
Http.v
Router.v
ThreadPool.v
Logger.v
