(* ===== verification/Prelude.v ===== *)
(** * A verification library for the L-W game server

    L-W is a multiplayer room server in C++17: a base thread with an event loop
    owns the game (rooms, sessions, ticks, checkpoints), I/O threads with event
    loops of their own own the TCP connections, and a background thread writes
    checkpoints to disk. This library translates the code under src/src,
    src/include and src/main into executable definitions and proves what the
    code promises. Names are those of the C++ code wherever possible; a member
    [x_] of a class is the field [x_] of a record, a member function is a
    definition that takes the record and returns it, an enum of results is an
    inductive type in a two-letter module, an early return is an [if].

    ** The files

    Data and wire formats:
    - Prelude: machine integers, bytes, the [result] monad, tactics and hint
      databases, sorting, and hash tables ([HashOrder]: the order in which an
      [unordered_map] is iterated is arbitrary but fixed).
    - Bytes: integers as bytes in both orders (the [htonl] family).
    - Buffer (buffer.cpp): the growable buffer; it implements [ByteQueue].
    - Codec (codec.cpp): length-prefixed frames over any [ByteQueue].
    - Protocol (protocol.cpp, protocol.h): requests, replies, events.
    - Checkpoint, CheckpointCodec (checkpoint.h, checkpoint_codec.cpp): the
      checkpoint and its binary file format with checksum.

    The game, in the base thread:
    - RoomStateMachine, GameState (room_state_machine.cpp, game_state.cpp): the
      life cycle of a room and the authoritative match.
    - Room, RoomManager (room.cpp, game_command.h, room_manager.cpp).
    - Session, SessionManager (session.cpp, session_manager.cpp): players by
      token, bindings by connection, deadlines for coming back.
    - RoomService (room_service.cpp): every handler, over a [World] of rooms,
      sessions, connection objects and tasks posted to connection loops.
    - ServiceInvariant: the service as a transition system ([step],
      [reachable]), its invariant, and what clients can rely on. The parameter
      [late] says whether frames of a connection may run after its close
      report, which no test in the handlers excludes: [true] for everything the
      code does, [false] for the runs in which the loops of the connections
      keep the order.

    Connections, in the I/O threads:
    - Connection (connection.cpp): the life of a connection; the write budget
      that any thread reserves from by compare-exchange.
    - Dispatch: from the bytes of a peer to requests posted to the base loop.
    - IoThread: the two together, with the close callback: everything that a
      connection queues in the base loop, in order. StaleSession: what a join
      does that arrives after the close report.
    - IoOutput: the same connection seen by its client: what it receives.
    - Network: the service of ServiceInvariant together with such a connection for
      every client; each handler's effect on a connection is a run of that
      connection, and the whole makes steps of the service only.

    Loops, threads and the process:
    - EventLoop (event_loop.cpp): the loop as an object, run in a world of
      callbacks; LoopWakeup: the same loop against posting threads and eventfd.
    - EventLoopThreads (event_loop_thread.cpp, event_loop_thread_pool.cpp).
    - TcpServer (tcp_server.cpp): listening, accepting, the connection table.
    - TickTimer, ShutdownSignal (tick_timer.cpp, shutdown_signal.cpp).
    - ServerMain (main/server.cpp): the parts put together; ServerLoop: the
      running server refines the transition system of ServiceInvariant, for either
      [late]. The end of [main] is part of it: main never stops the TCP server,
      its destructor closes the listening socket and the connections
      ([exit_main], [ts_destroy]).
    - Logger (logger.cpp): the log file.
    - Http, Router, ThreadPool (http.cpp, router.cpp, thread_pool.cpp): code of
      an earlier HTTP server, kept in the tree and not linked by the game server.

    Durability:
    - Files: the system calls on files as an interface with their documented
      laws, programs of calls that a crash may cut off anywhere, and a logic for
      them; SimFiles: an instance, which shows that the laws can hold.
    - CheckpointStore (checkpoint_store.cpp): committing and loading a file as
      such programs; StoreThreads: its background thread against its clients.
    - PersistenceService (persistence_service.cpp): loading, periodic saving,
      stopping, and the path of the data through all of the above.

    ** How the parts interact

    The base thread and the I/O threads only share the queues of their loops and
    the atomic members of [Connection]. So the base thread is one sequence of
    handlers ([ServiceInvariant.step], arbitrary in order, with other threads'
    effects on a connection object as a step of their own), calls across loops
    are posted tasks that are recorded in order, and the truly concurrent pieces
    are separate step relations in which threads interleave freely: the functor
    queue with eventfd, the compare-exchange loops of the write budget, the
    start of a loop thread, the checkpoint store with its condition variables,
    and the thread pool. In Connection, IoThread and Network one step is coarser: a
    task of the loop, an event with all the handlers do about it, or a whole
    [send] of another thread, reservation and posting together; that the
    reservations behave as if made one at a time is [budget_linearizable]. The
    events the kernel watches a socket for are part of the state ([io_events]):
    delivering one uses the watch up ([EPOLLONESHOT]), and the handlers arm it
    again with [need_events]. ServerMain runs the handlers as the callbacks of the
    base loop of EventLoop, with what the I/O threads queue and change before
    each call as an input, and ServerLoop shows that all of it together only
    makes steps of [ServiceInvariant.step]; PersistenceService runs the service, the store's
    threads and the file system side by side.

    ** What the theorems show

    - Consistency: rooms and sessions stay in lockstep, with late frames as well,
      and without them only open connections are bound
      ([service_consistent]); joins are atomic, reconnecting resumes, time-outs
      remove exactly the expired ([join_atomic], [reconnect_resumes],
      [timeouts_exact]); rooms, session tables and matches keep their invariants
      in every run, restorations included, where health stays out of the
      negative only if what is restored are multiples of ten; the manager
      refines its rooms, and the running server the service
      ([main_loop_refines_service]).
    - Formats: codecs are exact and unambiguous, streams may be cut anywhere, a
      damaged file is refused unless only its generation is damaged
      ([codec_exact], [feed_frames], [requests_exact],
      [reply_unambiguous], [decode_detects_damage]); replies fit into frames and
      every field of a checkpoint into its type.
    - Connections: the write budget is exact and linearizable, bytes reach the
      wire in order, a socket is watched for writability while there are bytes to
      write, a close is reported once ([connection_accounts],
      [budget_linearizable], [connections_closed_once]); the base loop gets
      exactly the requests of a client, in order, and then the close report
      ([requests_reach_base], [close_report_last]); a failed read closes the
      connection and drops what the same event has read. With the service in the
      middle, every client gets what the service has sent to it, whole, in order
      and without a gap ([network_serves_clients]). The exception is a bug: when
      the answer to a heartbeat cannot be written, requests follow the report
      ([requests_after_close]), and a join among them makes a player that is
      never removed, unless a leave of the same client follows the join
      ([late_join_stays]).
    - Loops: posted functors run once, in order, and no wake-up is lost
      ([posted_tasks_in_order], [posted_task_runs]); a termination signal ends
      the loop, and otherwise only a failure at the signal descriptor or of
      [epoll_wait] does ([signal_ends_server]); a start either succeeds with
      every part registered or is rolled back but for the TCP server, which the
      destructors close ([startup_serves]).
    - Durability: whatever is reported as committed survives a crash at any
      moment, and a restart restores the rooms and sessions of a checkpoint at
      least that new ([crash_keeps_committed], [crash_recovery]); flushing and
      stopping are durable and never hang ([flush_is_durable],
      [stop_keeps_last_save], [store_never_stalls]).
    - The older code: HTTP requests and responses round-trip, each request is
      answered, each task of the pool is executed once.

    ** The environment

    Results of system calls are arguments: a list per descriptor, handed out one
    per call (a list that runs out stands for [EAGAIN] where the descriptor does
    not block), a record of answers, or a function from the number of the call.
    Nothing is assumed of them unless a theorem says so. [ServerLoop.peers_ok]
    says of the I/O threads that each connection queues what a run of IoThread
    queues, with [late = false] one in which no answer to a heartbeat closes
    it. Two interfaces carry
    assumptions, each with an instance: [Files] (open, write, fsync, rename and
    so on, with crashes) and [LoopWakeup.EventFd]. Clocks are arguments [now];
    [getrandom] is a list of results. Closures are data or abstract functions.

    ** Bounds and fuel

    Integers are [Z] within the range of their C++ type; wrap-around is written
    out where the code can reach it ([wrap32], [wrap64]) and excluded by an
    invariant elsewhere. [Codec.decode_loop] takes as fuel the number of readable
    bytes, and every frame takes at least six, so it never runs out
    ([decode_total]). The loops over results of system calls recurse on the
    list of results. The loops of Files that repeat interrupted calls take as
    fuel the number of calls before the machine stops, so running out is the
    crash; [returns] says that some number is enough, and [commit_returns] and
    [load_file_outcome] prove it. Everything else is structural. Progress of
    the threads is proved as strong normalisation of their own steps, together
    with what holds when none is left.

    ** Not modelled

    - The calls of the logger in the other files: nothing reads the log.
    - src/benchmarks: load generators and clients, which are outside the server.
    - src/tests: test programs. The concrete runs of the witnesses take their
      place.
    - Running out of memory ([std::bad_alloc]), which several functions report
      as failure, and exceptions of user callbacks, which are caught where they
      are called.
    - A server without I/O threads, in which base and connection loops coincide:
      main always starts four.
    - The end of the I/O threads when [main] is left: the destructor of the TCP
      server posts the closing of every connection, then the pool quits and
      joins its threads ([quit_request], [StepFinish] in EventLoopThreads).
    - The interleaving of individual memory accesses inside critical sections and
      the C++ memory model: in LoopWakeup, StoreThreads, ThreadPool, EventLoopThreads and the
      budget of Connection a critical section, an atomic operation and a system
      call are each one step. *)

From Stdlib Require Export ZArith Lia.
From Stdlib Require Export Init.Byte.
From stdpp Require Export base gmap sets list sorting.

#[export] Set Default Goal Selector "!".
#[export] Unset Mangle Names.
Open Scope Z_scope.

(** * Machine integers *)

(** Unsigned [w]-bit ranges and the wrap-around of the C++ unsigned types;
    signed 32-bit values are plain [Z]s in [i32_range]. *)
Definition u8_range (z : Z) : Prop := 0 <= z < 2 ^ 8.
Definition u16_range (z : Z) : Prop := 0 <= z < 2 ^ 16.
Definition u32_range (z : Z) : Prop := 0 <= z < 2 ^ 32.
Definition u64_range (z : Z) : Prop := 0 <= z < 2 ^ 64.
Definition i32_range (z : Z) : Prop := - 2 ^ 31 <= z < 2 ^ 31.

Definition wrap8 (z : Z) : Z := z mod 2 ^ 8.
Definition wrap16 (z : Z) : Z := z mod 2 ^ 16.
Definition wrap32 (z : Z) : Z := z mod 2 ^ 32.
Definition wrap64 (z : Z) : Z := z mod 2 ^ 64.

(** The number of elements of a container, as the C++ [size_t] it is. *)
Definition zlen {A} (l : list A) : Z := Z.of_nat (length l).

Lemma zlen_nonneg {A} (l : list A) : 0 <= zlen l.
Proof. unfold zlen. lia. Qed.

Lemma zlen_app {A} (l k : list A) : zlen (l ++ k) = zlen l + zlen k.
Proof. unfold zlen. rewrite length_app. lia. Qed.

Lemma zlen_pos {A} (l : list A) : l ≠ [] → 0 < zlen l.
Proof. unfold zlen. destruct l; [done|cbn; lia]. Qed.

(** * Bytes *)

(** A [char] or [unsigned char] cell; a [std::string] is a list of bytes. *)
Abbreviation bytes := (list byte).

Definition byte_to_Z (b : byte) : Z := Z.of_N (Byte.to_N b).
Definition byte_of_Z (z : Z) : byte :=
  match Byte.of_N (Z.to_N (z mod 2 ^ 8)) with Some b => b | None => x00 end.

#[export] Instance byte_eq_dec : EqDecision byte := Byte.byte_eq_dec.

Lemma byte_of_to_N (b : byte) : Byte.of_N (Byte.to_N b) = Some b.
Proof. apply Byte.of_to_N. Qed.

#[export] Instance byte_countable : Countable byte :=
  inj_countable Byte.to_N Byte.of_N byte_of_to_N.

Lemma byte_to_Z_range (b : byte) : u8_range (byte_to_Z b).
Proof. unfold u8_range, byte_to_Z. destruct b; cbn; lia. Qed.

Lemma byte_of_to_Z (b : byte) : byte_of_Z (byte_to_Z b) = b.
Proof. destruct b; reflexivity. Qed.

Lemma byte_to_of_Z (z : Z) : byte_to_Z (byte_of_Z z) = z mod 2 ^ 8.
Proof.
  unfold byte_of_Z, byte_to_Z.
  assert (Hm : 0 <= z mod 2 ^ 8 < 2 ^ 8) by (apply Z.mod_pos_bound; lia).
  destruct (Byte.of_N (Z.to_N (z mod 2 ^ 8))) as [b|] eqn:E.
  - apply Byte.to_of_N in E. rewrite E. lia.
  - apply Byte.of_N_None_iff in E. lia.
Qed.

Lemma byte_to_Z_inj (a b : byte) : byte_to_Z a = byte_to_Z b → a = b.
Proof. intros H. by rewrite <-(byte_of_to_Z a), H, byte_of_to_Z. Qed.

(** * Outcomes of fallible operations *)

(** [Ok] carries the value, [Err] the error state the C++ function returns. *)
Inductive result (E A : Type) : Type :=
| Ok (a : A)
| Err (e : E).
Arguments Ok {E A} a.
Arguments Err {E A} e.

#[export] Instance result_ret {E} : MRet (result E) := λ A a, Ok a.
#[export] Instance result_bind {E} : MBind (result E) := λ A B f m,
  match m with Ok a => f a | Err e => Err e end.

(** [ensure b e]: the early return [if (!b) return e;]. *)
Definition ensure {E} (b : bool) (e : E) : result E unit :=
  if b then Ok tt else Err e.

(** [orelse o e]: the early return of a callee that reports failure by [false]. *)
Definition orelse {E A} (o : option A) (e : E) : result E A :=
  match o with Some a => Ok a | None => Err e end.

Lemma ensure_Ok {E} (b : bool) (e : E) u : ensure b e = Ok u ↔ b = true.
Proof. destruct b, u; cbn; split; congruence. Qed.

Lemma orelse_Ok {E A} (o : option A) (e : E) a : orelse o e = Ok a ↔ o = Some a.
Proof. destruct o; cbn; split; congruence. Qed.

Lemma result_bind_Ok {E A B} (m : result E A) (f : A → result E B) b :
  m ≫= f = Ok b ↔ ∃ a, m = Ok a ∧ f a = Ok b.
Proof.
  destruct m as [a|e]; cbn; split; [eauto | | done |].
  - by intros (? & [= ->] & ?).
  - by intros (? & ? & ?).
Qed.

(** A relation along which a number falls ends. *)
Lemma measure_ends {A} (R : A → A → Prop) (m : A → nat) :
  (∀ x y, R x y → (m y < m x)%nat) → ∀ x, Acc (flip R) x.
Proof.
  intros Hm x. remember (m x) as n eqn:Hn. revert x Hn.
  induction n as [n IH] using lt_wf_ind. intros x ->. constructor. intros y Hxy.
  eapply IH; [|reflexivity]. by apply Hm.
Qed.

(** * Automation *)

Create HintDb lw discriminated.
Create HintDb lw_wf.
Create Rewrite HintDb lw_norm.

(** Splits the boolean tests of the code and turns them into propositions. *)
Ltac to_prop :=
  repeat match goal with
  | H : (_ && _)%bool = true |- _ => apply andb_true_iff in H as [? ?]
  | H : (_ && _)%bool = false |- _ => apply andb_false_iff in H
  | H : (_ || _)%bool = false |- _ => apply orb_false_iff in H as [? ?]
  | H : (_ || _)%bool = true |- _ => apply orb_true_iff in H
  | H : negb _ = true |- _ => apply negb_true_iff in H
  | H : negb _ = false |- _ => apply negb_false_iff in H
  | H : (_ <? _) = true |- _ => apply Z.ltb_lt in H
  | H : (_ <? _) = false |- _ => apply Z.ltb_ge in H
  | H : (_ <=? _) = true |- _ => apply Z.leb_le in H
  | H : (_ <=? _) = false |- _ => apply Z.leb_gt in H
  | H : (_ =? _) = true |- _ => apply Z.eqb_eq in H
  | H : (_ =? _) = false |- _ => apply Z.eqb_neq in H
  | H : bool_decide _ = true |- _ => apply bool_decide_eq_true in H
  | H : bool_decide _ = false |- _ => apply bool_decide_eq_false in H
  end.

(** One early return of the code: case on the innermost test of the goal. *)
Ltac step_match :=
  match goal with
  | |- context [match ?x with _ => _ end] =>
      lazymatch x with
      | context [match _ with _ => _ end] => fail
      | _ => destruct x eqn:?
      end
  end.
Ltac step_match_in H :=
  match type of H with
  | context [match ?x with _ => _ end] =>
      lazymatch x with
      | context [match _ with _ => _ end] => fail
      | _ => destruct x eqn:?
      end
  end.
Tactic Notation "case_test" ident(H) :=
  match goal with
  | |- context [if ?b then _ else _] =>
      lazymatch b with
      | context [if _ then _ else _] => fail
      | _ => destruct b eqn:H
      end
  end.
Ltac branches := repeat (step_match; try done).
Ltac branches_in H := repeat (step_match_in H; try discriminate H; simplify_eq).

(** Inverts a successful run of a computation in the [result] monad. *)
Ltac result_inv H :=
  repeat match type of H with
  | _ ≫= _ = Ok _ =>
      let a := fresh "v" in let H1 := fresh "Hr" in
      apply result_bind_Ok in H as (a & H1 & H);
      first [apply ensure_Ok in H1 | apply orelse_Ok in H1 | idtac]
  | Ok _ = Ok _ => injection H as H
  | mret _ = Ok _ => injection H as H
  | Err _ = Ok _ => discriminate H
  end.

(** * Sorting *)

(** [std::sort] with a comparison of keys. The code sorts records whose keys
    are distinct, where every correct sort gives the same vector
    ([sort_on_unique]); the model uses stdpp's merge sort. *)
Section sort_on.
Context {A K : Type} (key : A → K) (le : relation K) `{!RelDecision le}.

Definition key_le : relation A := λ a b, le (key a) (key b).

#[export] Instance key_le_dec : RelDecision key_le :=
  λ a b, decide (le (key a) (key b)).

Definition sort_on (l : list A) : list A := merge_sort key_le l.

Lemma sort_on_perm l : sort_on l ≡ₚ l.
Proof. apply merge_sort_Permutation. Qed.

Lemma sort_on_length l : length (sort_on l) = length l.
Proof. apply Permutation_length, sort_on_perm. Qed.

Lemma sort_on_elem x l : x ∈ sort_on l ↔ x ∈ l.
Proof. by rewrite sort_on_perm. Qed.

Context `{!Transitive le, !Total le, !AntiSymm (=) le}.

Lemma sort_on_sorted l : StronglySorted key_le (sort_on l).
Proof.
  apply StronglySorted_merge_sort.
  - intros a b c. unfold key_le. by transitivity (key b).
  - intros a b. apply (total le).
Qed.

Lemma key_inj_on l a b :
  NoDup (key <$> l) → a ∈ l → b ∈ l → key a = key b → a = b.
Proof.
  intros Hnd (i & Hi)%list_elem_of_lookup (j & Hj)%list_elem_of_lookup Hk.
  assert (i = j) as ->.
  { apply (NoDup_lookup _ i j (key a) Hnd).
    - by rewrite list_lookup_fmap, Hi.
    - by rewrite list_lookup_fmap, Hj, Hk. }
  congruence.
Qed.

Lemma sort_on_unique l l' :
  NoDup (key <$> l) → l' ≡ₚ l → StronglySorted key_le l' → l' = sort_on l.
Proof.
  intros Hnd Hp Hs.
  apply (StronglySorted_unique_strong key_le); [|done|apply sort_on_sorted|].
  - intros a b Ha Hb Hab Hba. apply (key_inj_on l); [done| | |].
    + by rewrite <-Hp.
    + by rewrite sort_on_elem in Hb.
    + by apply (anti_symm le).
  - by rewrite Hp, sort_on_perm.
Qed.

Lemma sort_on_perm_eq l l' :
  NoDup (key <$> l) → l ≡ₚ l' → sort_on l = sort_on l'.
Proof.
  intros Hnd Hp. symmetry. apply sort_on_unique; [done| |apply sort_on_sorted].
  by rewrite sort_on_perm.
Qed.

Lemma sort_on_id l :
  NoDup (key <$> l) → StronglySorted key_le l → sort_on l = l.
Proof. intros Hnd Hs. symmetry. by apply sort_on_unique. Qed.
End sort_on.

#[export] Instance Z_le_trans : Transitive Z.le.
Proof. intros ???. apply Z.le_trans. Qed.
#[export] Instance Z_le_total : Total Z.le.
Proof. intros x y. lia. Qed.

(** [std::string]'s [operator<]: unsigned bytes, lexicographically. *)
Fixpoint bytes_leb (a b : bytes) : bool :=
  match a, b with
  | [], _ => true
  | _ :: _, [] => false
  | x :: a, y :: b =>
      if byte_to_Z x <? byte_to_Z y then true
      else if byte_to_Z y <? byte_to_Z x then false else bytes_leb a b
  end.
Definition bytes_le : relation bytes := λ a b, bytes_leb a b = true.

#[export] Instance bytes_le_dec : RelDecision bytes_le := λ a b, decide (_ = true).

#[export] Instance bytes_le_total : Total bytes_le.
Proof.
  unfold bytes_le. intros a. induction a as [|x a IH]; intros [|y b]; cbn; auto.
  destruct (Z.ltb_spec (byte_to_Z x) (byte_to_Z y)),
    (Z.ltb_spec (byte_to_Z y) (byte_to_Z x)); auto.
Qed.

#[export] Instance bytes_le_antisymm : AntiSymm (=) bytes_le.
Proof.
  unfold bytes_le. intros a. induction a as [|x a IH]; intros [|y b]; cbn; try done.
  destruct (Z.ltb_spec (byte_to_Z x) (byte_to_Z y)),
    (Z.ltb_spec (byte_to_Z y) (byte_to_Z x)); try done; [lia|].
  intros. f_equal; [apply byte_to_Z_inj; lia | auto].
Qed.

#[export] Instance bytes_le_trans : Transitive bytes_le.
Proof.
  unfold bytes_le. intros a. induction a as [|x a IH]; intros [|y b] [|z c]; cbn; try done.
  destruct (Z.ltb_spec (byte_to_Z x) (byte_to_Z y)),
    (Z.ltb_spec (byte_to_Z y) (byte_to_Z x)),
    (Z.ltb_spec (byte_to_Z y) (byte_to_Z z)),
    (Z.ltb_spec (byte_to_Z z) (byte_to_Z y)),
    (Z.ltb_spec (byte_to_Z x) (byte_to_Z z)),
    (Z.ltb_spec (byte_to_Z z) (byte_to_Z x)); try done; try lia.
  apply IH.
Qed.

(** * Hash tables *)

(** A [std::unordered_map] is a [gmap]; what a range-based [for] over it visits
    is some permutation of its entries, unspecified by the language. An
    instance of [HashOrder] is one such choice, and every definition that
    iterates over a hash table takes it as an argument, so that the theorems
    hold whatever order the table yields. *)
Class HashOrder : Type := {
  hash_iter : ∀ {K : Type} `{Countable K} {V : Type}, gmap K V → list (K * V);
  hash_iter_perm : ∀ {K : Type} `{Countable K} {V : Type} (m : gmap K V),
    hash_iter m ≡ₚ map_to_list m
}.

(** The order of [map_to_list], for concrete runs. *)
Definition canonical_order : HashOrder :=
  {| hash_iter := λ K _ _ V m, map_to_list m;
     hash_iter_perm := λ K _ _ V m, reflexivity _ |}.

Section hash_iter.
Context {ho : HashOrder} `{Countable K} {V : Type}.
Implicit Types m : gmap K V.

Definition hash_values (m : gmap K V) : list V := snd <$> hash_iter m.

Lemma elem_of_hash_iter m k v : (k, v) ∈ hash_iter m ↔ m !! k = Some v.
Proof. by rewrite hash_iter_perm, elem_of_map_to_list. Qed.

Lemma elem_of_hash_values m v : v ∈ hash_values m ↔ ∃ k, m !! k = Some v.
Proof.
  unfold hash_values. rewrite list_elem_of_fmap. split.
  - intros ([k w] & -> & Hin%elem_of_hash_iter). by exists k.
  - intros (k & Hk). exists (k, v). by rewrite elem_of_hash_iter.
Qed.

Lemma hash_iter_NoDup_fst m : NoDup (hash_iter m).*1.
Proof. rewrite hash_iter_perm. apply NoDup_fst_map_to_list. Qed.

Lemma hash_iter_NoDup m : NoDup (hash_iter m).
Proof. rewrite hash_iter_perm. apply NoDup_map_to_list. Qed.

Lemma hash_iter_length m : length (hash_iter m) = size m.
Proof. rewrite hash_iter_perm. apply length_map_to_list. Qed.

Lemma hash_values_length m : length (hash_values m) = size m.
Proof. unfold hash_values. by rewrite length_fmap, hash_iter_length. Qed.

(** Tables whose values carry their own key. *)
Definition self_keyed (key : V → K) (m : gmap K V) : Prop :=
  ∀ k v, m !! k = Some v → key v = k.

Lemma hash_values_keys key m :
  self_keyed key m → key <$> hash_values m = (hash_iter m).*1.
Proof.
  intros Hk. unfold hash_values. rewrite <-list_fmap_compose.
  apply list_fmap_ext. intros i [k v] Hi. cbn. apply Hk.
  apply elem_of_hash_iter. by eapply list_elem_of_lookup_2.
Qed.

Lemma hash_values_NoDup_key key m :
  self_keyed key m → NoDup (key <$> hash_values m).
Proof. intros Hk. rewrite (hash_values_keys key m Hk). apply hash_iter_NoDup_fst. Qed.

Lemma self_keyed_insert key m k v :
  self_keyed key m → key v = k → self_keyed key (<[k:=v]> m).
Proof.
  intros Hm Hk k' v' [(-> & ->)|(? & ?)]%lookup_insert_Some; auto.
Qed.

Lemma self_keyed_delete key m k : self_keyed key m → self_keyed key (delete k m).
Proof. intros Hm k' v' [? ?]%lookup_delete_Some. auto. Qed.

Lemma self_keyed_empty key : self_keyed key ∅.
Proof. intros k v. by rewrite lookup_empty. Qed.
End hash_iter.

#[export] Hint Resolve self_keyed_insert self_keyed_delete self_keyed_empty : lw_wf.

(** A key that occurs twice. *)
Lemma fmap_dup {A K} (f : A → K) l a k :
  f a ∈ f <$> l → ¬ NoDup (f <$> ((l ++ [a]) ++ k)).
Proof.
  intros Hin. rewrite !fmap_app. intros [[_ [Hd _]]%NoDup_app _]%NoDup_app.
  apply (Hd (f a) Hin). cbn. by apply list_elem_of_singleton.
Qed.

Lemma fmap_snoc_NoDup {A K} (f : A → K) l a :
  NoDup (f <$> l) → f a ∉ f <$> l → NoDup (f <$> (l ++ [a])).
Proof.
  intros Hnd Hn. rewrite fmap_app. apply NoDup_app. split_and!; [done| |apply NoDup_singleton].
  intros x Hx Hin. apply list_elem_of_singleton in Hin. by subst.
Qed.

(** Rebuilding a self-keyed table from a list of its values. *)
Definition index_by `{Countable K} {V} (key : V → K) (l : list V) : gmap K V :=
  list_to_map ((λ v, (key v, v)) <$> l).

Section index_by.
Context `{Countable K} {V : Type} (key : V → K).

Lemma index_by_keys (l : list V) : ((λ v, (key v, v)) <$> l).*1 = key <$> l.
Proof. by rewrite <-list_fmap_compose. Qed.

Lemma index_by_lookup l k v :
  NoDup (key <$> l) → index_by key l !! k = Some v ↔ v ∈ l ∧ key v = k.
Proof.
  intros Hnd. unfold index_by.
  rewrite <-elem_of_list_to_map by (by rewrite index_by_keys).
  rewrite list_elem_of_fmap. naive_solver.
Qed.

Lemma index_by_perm l l' :
  NoDup (key <$> l) → l ≡ₚ l' → index_by key l = index_by key l'.
Proof.
  intros Hnd Hp. apply list_to_map_proper; [by rewrite index_by_keys|].
  by rewrite Hp.
Qed.

Lemma index_by_snoc l v :
  key v ∉ key <$> l → index_by key (l ++ [v]) = <[key v := v]> (index_by key l).
Proof.
  intros Hv. unfold index_by. rewrite fmap_app, list_to_map_app.
  cbn. rewrite insert_empty, <-insert_union_singleton_r; [done|].
  apply not_elem_of_list_to_map_1. by rewrite index_by_keys.
Qed.

Lemma index_by_lookup_is_Some l k :
  is_Some (index_by key l !! k) ↔ k ∈ key <$> l.
Proof.
  rewrite <-(index_by_keys l). split.
  - intros Hs. destruct (decide (k ∈ ((λ v, (key v, v)) <$> l).*1)) as [|Hn]; [done|].
    apply not_elem_of_list_to_map_1 in Hn. unfold index_by in Hs.
    rewrite Hn in Hs. by destruct Hs.
  - intros Hk. destruct (index_by key l !! k) eqn:E; [done|].
    by apply not_elem_of_list_to_map_2 in E.
Qed.

Lemma index_by_hash_values `{HashOrder} (m : gmap K V) :
  self_keyed key m → index_by key (hash_values m) = m.
Proof.
  intros Hm. apply map_eq. intros k. apply option_eq. intros v.
  rewrite index_by_lookup by (by apply hash_values_NoDup_key).
  rewrite elem_of_hash_values. split.
  - intros [(k' & Hk') <-]. by rewrite (Hm _ _ Hk').
  - intros Hk. split; [by exists k|by apply Hm].
Qed.

Lemma index_by_values_perm `{HashOrder} l :
  NoDup (key <$> l) → hash_values (index_by key l) ≡ₚ l.
Proof.
  intros Hnd. apply NoDup_Permutation.
  - eapply (NoDup_fmap_1 key). apply hash_values_NoDup_key.
    intros k v Hv. by apply index_by_lookup in Hv as [_ ?].
  - by apply NoDup_fmap_1 in Hnd.
  - intros v. rewrite elem_of_hash_values. setoid_rewrite index_by_lookup; [|done..].
    naive_solver.
Qed.

Lemma index_by_size l : NoDup (key <$> l) → size (index_by key l) = length l.
Proof.
  intros Hnd. rewrite <-length_map_to_list. unfold index_by.
  rewrite map_to_list_to_map by (by rewrite index_by_keys). by rewrite length_fmap.
Qed.
End index_by.
