(* ===== verification/Bytes.v ===== *)
(** Integers as bytes: the big-endian representation that the wire format and
    the checkpoint file use, the host's little-endian memory image, and the
    POSIX conversions [htons], [htonl], [ntohs], [ntohl] between them. *)

From S2P Require Import Prelude.

(** * Definitions *)

(** The [n] bytes of [v], most significant first. *)
Fixpoint be_bytes (n : nat) (v : Z) : bytes :=
  match n with
  | O => []
  | S m => byte_of_Z (Z.shiftr v (8 * Z.of_nat m)) :: be_bytes m v
  end.

(** The number whose bytes, most significant first, are [bs]. *)
Definition be_push (acc : Z) (b : byte) : Z := acc * 2 ^ 8 + byte_to_Z b.
Definition be_value (bs : bytes) : Z := fold_left be_push bs 0.

(** Storing a number to memory and loading it back ([std::memcpy] between an
    integer and a [char] array) on the little-endian host. *)
Definition mem_store (n : nat) (v : Z) : bytes := rev (be_bytes n v).
Definition mem_load (bs : bytes) : Z := be_value (rev bs).

(** Byte swaps: an integer whose memory image is the reverse. *)
Definition byte_swap (n : nat) (v : Z) : Z := mem_load (rev (mem_store n v)).
Definition htons (v : Z) : Z := byte_swap 2 v.
Definition htonl (v : Z) : Z := byte_swap 4 v.
Definition ntohs (v : Z) : Z := byte_swap 2 v.
Definition ntohl (v : Z) : Z := byte_swap 4 v.

(** Reinterpreting the bits of a 32-bit word as signed or unsigned. *)
Definition to_u32 (v : Z) : Z := wrap32 v.
Definition to_i32 (v : Z) : Z := if v <? 2 ^ 31 then v else v - 2 ^ 32.

(** * Lengths *)

Lemma be_bytes_length n v : length (be_bytes n v) = n.
Proof. induction n as [|n IH]; cbn; [done|]. by rewrite IH. Qed.

Lemma mem_store_length n v : length (mem_store n v) = n.
Proof. unfold mem_store. by rewrite length_rev, be_bytes_length. Qed.

#[export] Hint Rewrite be_bytes_length mem_store_length : lw_norm.

(** * Values *)

Lemma be_push_range acc b n :
  0 <= n → 0 <= acc < 2 ^ (8 * n) → 0 <= be_push acc b < 2 ^ (8 * (n + 1)).
Proof.
  intros Hn Ha. unfold be_push. pose proof (byte_to_Z_range b) as Hb.
  unfold u8_range in Hb. replace (8 * (n + 1)) with (8 * n + 8) by lia.
  rewrite Z.pow_add_r by lia. nia.
Qed.

Lemma fold_be_push_acc bs acc :
  fold_left be_push bs acc = acc * 2 ^ (8 * zlen bs) + be_value bs.
Proof.
  unfold be_value. revert acc. induction bs as [|b bs IH]; intros acc; cbn [fold_left].
  - unfold zlen. cbn. lia.
  - rewrite IH, (IH (be_push 0 b)). unfold be_push.
    replace (8 * zlen (b :: bs)) with (8 * zlen bs + 8) by (unfold zlen; cbn; lia).
    rewrite Z.pow_add_r by (unfold zlen; lia). ring.
Qed.

Lemma be_value_cons b bs :
  be_value (b :: bs) = byte_to_Z b * 2 ^ (8 * zlen bs) + be_value bs.
Proof.
  unfold be_value at 1. cbn [fold_left]. rewrite fold_be_push_acc. unfold be_push. ring.
Qed.

Lemma be_value_app bs cs :
  be_value (bs ++ cs) = be_value bs * 2 ^ (8 * zlen cs) + be_value cs.
Proof. unfold be_value. rewrite fold_left_app, fold_be_push_acc. done. Qed.

Lemma be_value_range bs : 0 <= be_value bs < 2 ^ (8 * zlen bs).
Proof.
  induction bs as [|b bs IH]; [unfold be_value, zlen; cbn; lia|].
  rewrite be_value_cons. pose proof (byte_to_Z_range b) as Hb. unfold u8_range in Hb.
  replace (8 * zlen (b :: bs)) with (8 * zlen bs + 8) by (unfold zlen; cbn; lia).
  rewrite Z.pow_add_r by (unfold zlen; lia). nia.
Qed.

Lemma be_value_bytes n v : be_value (be_bytes n v) = v mod 2 ^ (8 * Z.of_nat n).
Proof.
  induction n as [|n IH]; cbn [be_bytes].
  - cbn. by rewrite Z.mod_1_r.
  - rewrite be_value_cons, IH, byte_to_of_Z, Z.shiftr_div_pow2 by lia.
    unfold zlen. rewrite be_bytes_length.
    replace (8 * Z.of_nat (S n)) with (8 * Z.of_nat n + 8) by lia.
    rewrite Z.pow_add_r by lia. rewrite Z.rem_mul_r by lia. lia.
Qed.

Lemma be_value_bytes_small n v :
  0 <= v < 2 ^ (8 * Z.of_nat n) → be_value (be_bytes n v) = v.
Proof. intros Hv. rewrite be_value_bytes. by apply Z.mod_small. Qed.

(** Only the low [n] bytes of the number matter. *)
Lemma be_bytes_add_high n u w : be_bytes n (u * 2 ^ (8 * Z.of_nat n) + w) = be_bytes n w.
Proof.
  revert u w. induction n as [|n IH]; intros u w; cbn [be_bytes]; [done|].
  replace (8 * Z.of_nat (S n)) with (8 + 8 * Z.of_nat n) by lia.
  rewrite Z.pow_add_r, Z.mul_assoc by lia. f_equal; [|apply IH].
  apply byte_to_Z_inj. rewrite !byte_to_of_Z, !Z.shiftr_div_pow2 by lia.
  by rewrite Z.div_add_l, Z.add_comm, Z.mod_add by lia.
Qed.

Lemma be_bytes_value bs : be_bytes (length bs) (be_value bs) = bs.
Proof.
  induction bs as [|b bs IH]; cbn [length be_bytes]; [done|].
  rewrite be_value_cons. pose proof (be_value_range bs) as Hr. unfold zlen in Hr |- *.
  f_equal; [|by rewrite be_bytes_add_high].
  apply byte_to_Z_inj. rewrite byte_to_of_Z, Z.shiftr_div_pow2 by lia.
  rewrite Z.div_add_l, (Z.div_small (be_value bs)) by lia.
  pose proof (byte_to_Z_range b) as Hb. unfold u8_range in Hb.
  rewrite Z.add_0_r. apply Z.mod_small. lia.
Qed.

Lemma be_bytes_inj n v w :
  0 <= v < 2 ^ (8 * Z.of_nat n) → 0 <= w < 2 ^ (8 * Z.of_nat n) →
  be_bytes n v = be_bytes n w → v = w.
Proof.
  intros Hv Hw He. by rewrite <-(be_value_bytes_small n v), He, be_value_bytes_small.
Qed.

(** * Host and network order *)

Lemma mem_load_store n v : mem_load (mem_store n v) = v mod 2 ^ (8 * Z.of_nat n).
Proof. unfold mem_load, mem_store. by rewrite rev_involutive, be_value_bytes. Qed.

Lemma mem_store_load bs : mem_store (length bs) (mem_load bs) = bs.
Proof.
  unfold mem_load, mem_store. rewrite <-length_rev, be_bytes_value. apply rev_involutive.
Qed.

(** The memory image of [hton v] is [v] in network byte order. *)
Lemma mem_store_swap n v : mem_store n (byte_swap n v) = be_bytes n v.
Proof.
  unfold byte_swap. rewrite <-(mem_store_load (be_bytes n v)), be_bytes_length.
  unfold mem_store at 2. by rewrite rev_involutive.
Qed.

(** Loading bytes and applying [ntoh] reads a big-endian number. *)
Lemma swap_mem_load n bs : length bs = n → byte_swap n (mem_load bs) = be_value bs.
Proof.
  intros <-. unfold byte_swap. rewrite mem_store_load. unfold mem_load.
  by rewrite rev_involutive.
Qed.

#[export] Hint Rewrite mem_store_swap : lw_norm.

(** * Signed words *)

Lemma to_i32_range v : u32_range v → i32_range (to_i32 v).
Proof.
  unfold u32_range, i32_range, to_i32. intros Hv.
  destruct (Z.ltb_spec v (2 ^ 31)); lia.
Qed.

Lemma to_u32_range v : u32_range (to_u32 v).
Proof. unfold u32_range, to_u32, wrap32. apply Z.mod_pos_bound. lia. Qed.

Lemma to_i32_u32 v : i32_range v → to_i32 (to_u32 v) = v.
Proof.
  unfold i32_range, to_i32, to_u32, wrap32. intros Hv.
  destruct (Z.ltb_spec (v mod 2 ^ 32) (2 ^ 31)); Z.div_mod_to_equations; lia.
Qed.

Lemma to_u32_i32 v : u32_range v → to_u32 (to_i32 v) = v.
Proof.
  unfold u32_range, to_i32, to_u32, wrap32. intros Hv.
  destruct (Z.ltb_spec v (2 ^ 31)); Z.div_mod_to_equations; lia.
Qed.

(** * Prefix codes *)

(** An encoder whose output can be recognised at the front of any string. *)
Definition prefix_code {A} (P : A → Prop) (enc : A → bytes) : Prop :=
  ∀ a b r s, P a → P b → enc a ++ r = enc b ++ s → a = b ∧ r = s.

Lemma be_bytes_prefix n :
  prefix_code (λ v, 0 <= v < 2 ^ (8 * Z.of_nat n)) (be_bytes n).
Proof.
  intros v w r s Hv Hw He. apply app_inj_1 in He as [He ->].
  - split; [|done]. by apply (be_bytes_inj n).
  - by rewrite !be_bytes_length.
Qed.

(** A length-prefixed string. *)
Definition sized_bytes (n : nat) (s : bytes) : bytes := be_bytes n (zlen s) ++ s.

Lemma sized_bytes_prefix n :
  prefix_code (λ s, zlen s < 2 ^ (8 * Z.of_nat n)) (sized_bytes n).
Proof.
  intros s t r u Hs Ht. unfold sized_bytes. rewrite <-!app_assoc. intros He.
  apply be_bytes_prefix in He as [Hl He]; [|unfold zlen in *; lia..].
  apply app_inj_1 in He; [done|]. unfold zlen in Hl. lia.
Qed.

(** A counted sequence of records. *)
Lemma concat_prefix {A} (P : A → Prop) (enc : A → bytes) l k r s :
  prefix_code P enc → Forall P l → Forall P k → length l = length k →
  concat (enc <$> l) ++ r = concat (enc <$> k) ++ s → l = k ∧ r = s.
Proof.
  intros Henc Hl. revert k. induction Hl as [|a l Ha _ IH]; intros [|b k] Hk Hlen; try done.
  apply Forall_cons in Hk as [Hb Hk]. cbn in Hlen |- *. rewrite <-!app_assoc. intros He.
  apply Henc in He as [-> He]; [|done..]. apply IH in He as [-> ->]; [done..|lia].
Qed.

(** Of two sequences at the front of one string the shorter begins the longer. *)
Lemma concat_prefix_shorter {A} (P : A → Prop) (enc : A → bytes) l k r s :
  prefix_code P enc → Forall P l → Forall P k → (length l <= length k)%nat →
  concat (enc <$> l) ++ r = concat (enc <$> k) ++ s →
  ∃ k', k = l ++ k' ∧ r = concat (enc <$> k') ++ s.
Proof.
  intros Henc Hl. revert k. induction Hl as [|a l Ha _ IH]; intros k Hk Hlen He; [by exists k|].
  destruct k as [|b k]; cbn in Hlen; [lia|]. apply Forall_cons in Hk as [Hb Hk].
  cbn in He. rewrite <-!app_assoc in He. apply Henc in He as [-> He]; [|done..].
  destruct (IH k Hk) as (k' & -> & ->); [lia|done|]. by exists k'.
Qed.

(** Reading back what was stored at the front. *)
Lemma be_value_prefix n v r :
  0 <= v < 2 ^ (8 * Z.of_nat n) → be_value (take n (be_bytes n v ++ r)) = v.
Proof.
  intros Hv. rewrite take_app_length' by (by rewrite be_bytes_length).
  by apply be_value_bytes_small.
Qed.

(** Any string of [n] bytes is the representation of its value. *)
Lemma be_bytes_take n bs :
  (n <= length bs)%nat → be_bytes n (be_value (take n bs)) = take n bs.
Proof.
  intros Hn. rewrite <-(be_bytes_value (take n bs)) at 2. rewrite length_take.
  by rewrite Nat.min_l.
Qed.

Lemma be_value_take_range n bs :
  (n <= length bs)%nat → 0 <= be_value (take n bs) < 2 ^ (8 * Z.of_nat n).
Proof.
  intros Hn. pose proof (be_value_range (take n bs)) as Hr. unfold zlen in Hr.
  rewrite length_take, Nat.min_l in Hr by done. done.
Qed.

(** The string is its first [n] bytes and the rest. *)
Lemma split_front n (bs : bytes) :
  (n <= length bs)%nat → bs = be_bytes n (be_value (take n bs)) ++ drop n bs.
Proof. intros Hn. by rewrite be_bytes_take, take_drop. Qed.

(** * Words in two halves *)

Lemma be_bytes_mod n v : be_bytes n (v mod 2 ^ (8 * Z.of_nat n)) = be_bytes n v.
Proof.
  rewrite <-(be_bytes_add_high n (v / 2 ^ (8 * Z.of_nat n))). f_equal.
  rewrite Z.mul_comm. symmetry. apply Z.div_mod, Z.pow_nonzero; lia.
Qed.

Lemma be_bytes_split n m v :
  be_bytes (n + m) v = be_bytes n (Z.shiftr v (8 * Z.of_nat m)) ++ be_bytes m v.
Proof.
  induction n as [|n IH]; cbn [Nat.add be_bytes app]; [done|]. rewrite IH. f_equal.
  rewrite Z.shiftr_shiftr by lia. do 2 f_equal. lia.
Qed.

Lemma lor_shiftl_add a b n : 0 <= n → 0 <= b < 2 ^ n → Z.lor (Z.shiftl a n) b = a * 2 ^ n + b.
Proof.
  intros Hn Hb.
  assert (Hd : Z.land (Z.shiftl a n) b = 0).
  { apply Z.bits_inj'. intros i Hi. rewrite Z.land_spec, Z.shiftl_spec, Z.bits_0 by lia.
    destruct (Z.lt_ge_cases i n).
    - by rewrite (Z.testbit_neg_r a) by lia.
    - rewrite <-(Z.mod_small b (2 ^ n)), Z.mod_pow2_bits_high by lia. apply andb_false_r. }
  by rewrite <-Z.lxor_lor, <-Z.add_nocarry_lxor, Z.shiftl_mul_pow2 by done.
Qed.

#[global] Arguments be_bytes : simpl never.
#[global] Arguments be_value : simpl never.
#[global] Arguments sized_bytes : simpl never.
#[global] Arguments byte_swap : simpl never.
#[global] Arguments mem_load : simpl never.
#[global] Arguments mem_store : simpl never.
