(* ===== verification/Buffer.v ===== *)
(** [src/src/buffer.cpp]: the growable byte buffer of a connection, as the
    vector, read position and write position the class keeps; the interface
    [ByteQueue] that its clients use; and the proof that the class is a FIFO
    queue of bytes. *)

From S2P Require Import Prelude.

Local Open Scope nat_scope.

(** * Definitions *)

Record Buffer : Type := MkBuffer {
  buffer_ : bytes;
  read_pos_ : nat;
  write_pos_ : nat
}.

(** [Buffer::Buffer(initial_size)]: a zero-filled vector. *)
Definition Buffer_new (initial_size : nat) : Buffer :=
  MkBuffer (replicate initial_size x00) 0 0.

Definition readable_bytes (b : Buffer) : nat := write_pos_ b - read_pos_ b.
Definition writeable_bytes (b : Buffer) : nat := length (buffer_ b) - write_pos_ b.
Definition prependable_bytes (b : Buffer) : nat := read_pos_ b.
Definition empty (b : Buffer) : bool := read_pos_ b =? write_pos_ b.

(** The pointer [peek] returns, as the storage that starts there. *)
Definition peek (b : Buffer) : bytes := drop (read_pos_ b) (buffer_ b).

Definition retrieve_all (b : Buffer) : Buffer := MkBuffer (buffer_ b) 0 0.

(** [None] is the failed [assert]. *)
Definition retrieve (b : Buffer) (len : nat) : option Buffer :=
  if len <=? readable_bytes b then
    if len <? readable_bytes b
    then Some (MkBuffer (buffer_ b) (read_pos_ b + len) (write_pos_ b))
    else Some (retrieve_all b)
  else None.

Definition retrieve_all_as_string (b : Buffer) : bytes * Buffer :=
  (take (readable_bytes b) (peek b), retrieve_all b).

(** [std::copy] of [data] to the storage position [pos]. *)
Definition copy_into (storage : bytes) (pos : nat) (data : bytes) : bytes :=
  take pos storage ++ data ++ drop (pos + length data) storage.

(** [std::vector::resize]: truncates or extends with zeros. *)
Definition vector_resize (storage : bytes) (n : nat) : bytes :=
  take n storage ++ replicate (n - length storage) x00.

Definition make_space (b : Buffer) (len : nat) : Buffer :=
  if writeable_bytes b + prependable_bytes b <? len then
    MkBuffer (vector_resize (buffer_ b) (write_pos_ b + len)) (read_pos_ b) (write_pos_ b)
  else
    let readable := readable_bytes b in
    MkBuffer
      (copy_into (buffer_ b) 0
         (take (write_pos_ b - read_pos_ b) (drop (read_pos_ b) (buffer_ b))))
      0 readable.

Definition ensure_writable_bytes (b : Buffer) (len : nat) : Buffer :=
  if len <=? writeable_bytes b then b else make_space b len.

Definition append (b : Buffer) (data : bytes) : Buffer :=
  let b := ensure_writable_bytes b (length data) in
  MkBuffer (copy_into (buffer_ b) (write_pos_ b) data)
    (read_pos_ b) (write_pos_ b + length data).

(** ** Specification *)

(** The class invariant, and the queue of bytes a buffer stands for. *)
Definition buffer_wf (b : Buffer) : Prop :=
  read_pos_ b <= write_pos_ b <= length (buffer_ b).
Definition contents (b : Buffer) : bytes :=
  take (readable_bytes b) (drop (read_pos_ b) (buffer_ b)).

(** What the users of a buffer rely on: a FIFO queue of bytes whose front can
    be inspected and consumed and whose back can be extended. *)
Class ByteQueue (B : Type) : Type := {
  bq_wf : B → Prop;
  bq_contents : B → bytes;
  bq_readable : B → nat;
  bq_peek : B → bytes;
  bq_retrieve : B → nat → option B;
  bq_append : B → bytes → B;
  bq_readable_spec b : bq_wf b → bq_readable b = length (bq_contents b);
  bq_peek_spec b n : bq_wf b → n <= bq_readable b →
    take n (bq_peek b) = take n (bq_contents b);
  bq_retrieve_spec b n : bq_wf b → n <= bq_readable b →
    ∃ b', bq_retrieve b n = Some b' ∧ bq_wf b' ∧ bq_contents b' = drop n (bq_contents b);
  bq_append_spec b data : bq_wf b →
    bq_wf (bq_append b data) ∧ bq_contents (bq_append b data) = bq_contents b ++ data
}.

(** * Proofs *)

Lemma Buffer_new_wf n : buffer_wf (Buffer_new n).
Proof. unfold buffer_wf. cbn. lia. Qed.

Lemma Buffer_new_contents n : contents (Buffer_new n) = [].
Proof. done. Qed.

Lemma contents_length b : buffer_wf b → length (contents b) = readable_bytes b.
Proof.
  unfold buffer_wf, contents, readable_bytes. intros ?.
  rewrite length_take, length_drop. lia.
Qed.

Lemma peek_contents b n :
  n <= readable_bytes b → take n (peek b) = take n (contents b).
Proof. unfold contents, peek. intros ?. by rewrite take_take, Nat.min_l. Qed.

Lemma copy_into_length s pos data :
  pos + length data <= length s → length (copy_into s pos data) = length s.
Proof.
  intros ?. unfold copy_into. rewrite !length_app, length_take, length_drop. lia.
Qed.

Lemma vector_resize_length s n : length (vector_resize s n) = n.
Proof. unfold vector_resize. rewrite length_app, length_take, length_replicate. lia. Qed.

Lemma vector_resize_take s n k : k <= n → k <= length s → take k (vector_resize s n) = take k s.
Proof.
  intros ??. unfold vector_resize.
  rewrite take_app_le by (rewrite length_take; lia). by rewrite take_take, Nat.min_l.
Qed.

(** A window of the storage below [pos] is not touched by a write at [pos]. *)
Lemma window_app s k pos data :
  k <= pos → pos <= length s →
  take (pos + length data - k) (drop k (copy_into s pos data)) = take (pos - k) (drop k s) ++ data.
Proof.
  intros Hk Hp. unfold copy_into.
  rewrite drop_app_le by (rewrite length_take; lia).
  rewrite skipn_firstn_comm, app_assoc. apply take_app_length'.
  rewrite length_app, length_take, length_drop. lia.
Qed.

Lemma make_space_spec b len :
  buffer_wf b →
  let b' := make_space b len in
  buffer_wf b' ∧ contents b' = contents b ∧
  (writeable_bytes b < len → len <= writeable_bytes b').
Proof.
  unfold buffer_wf, make_space, contents, readable_bytes, writeable_bytes, prependable_bytes.
  intros Hwf. case_eq (length (buffer_ b) - write_pos_ b + read_pos_ b <? len); intros E; cbn.
  - apply Nat.ltb_lt in E. rewrite vector_resize_length. split_and!; [lia|lia| |lia].
    rewrite !take_drop_commute, vector_resize_take by lia. done.
  - apply Nat.ltb_ge in E.
    set (win := take (write_pos_ b - read_pos_ b) (drop (read_pos_ b) (buffer_ b))).
    assert (Hwin : length win = write_pos_ b - read_pos_ b).
    { unfold win. rewrite length_take, length_drop. lia. }
    rewrite copy_into_length by lia. split_and!; [lia|lia| |lia].
    unfold copy_into. rewrite take_0, app_nil_l, drop_0, Nat.sub_0_r.
    by apply take_app_length'.
Qed.

Lemma ensure_writable_bytes_spec b len :
  buffer_wf b →
  let b' := ensure_writable_bytes b len in
  buffer_wf b' ∧ contents b' = contents b ∧ len <= writeable_bytes b'.
Proof.
  intros Hwf. unfold ensure_writable_bytes.
  destruct (Nat.leb_spec len (writeable_bytes b)); cbn; [done|].
  destruct (make_space_spec b len Hwf) as (? & ? & ?). auto.
Qed.

Lemma append_spec b data :
  buffer_wf b → buffer_wf (append b data) ∧ contents (append b data) = contents b ++ data.
Proof.
  intros Hwf. destruct (ensure_writable_bytes_spec b (length data) Hwf) as (Hwf' & Hc & Hw).
  unfold append. set (b' := ensure_writable_bytes b (length data)) in *.
  rewrite <-Hc. unfold buffer_wf, contents, readable_bytes, writeable_bytes in *. cbn.
  rewrite copy_into_length by lia. split; [lia|]. apply window_app; lia.
Qed.

Lemma retrieve_spec b n :
  buffer_wf b → n <= readable_bytes b →
  ∃ b', retrieve b n = Some b' ∧ buffer_wf b' ∧ contents b' = drop n (contents b).
Proof.
  unfold retrieve. intros Hwf Hn. pose proof (contents_length b Hwf) as Hl.
  destruct (Nat.leb_spec n (readable_bytes b)); [|lia].
  destruct (Nat.ltb_spec n (readable_bytes b)); eexists; (split; [done|]).
  - unfold buffer_wf, readable_bytes, contents in *. cbn. split; [lia|].
    by rewrite skipn_firstn_comm, drop_drop, Nat.sub_add_distr.
  - split; [unfold buffer_wf; cbn; lia|].
    rewrite drop_ge by lia. done.
Qed.

(** An over-long [retrieve] trips the assertion. *)
Lemma retrieve_assert b n : readable_bytes b < n → retrieve b n = None.
Proof. intros. unfold retrieve. by destruct (Nat.leb_spec n (readable_bytes b)); [lia|]. Qed.

#[export] Instance Buffer_queue : ByteQueue Buffer := {|
  bq_wf := buffer_wf;
  bq_contents := contents;
  bq_readable := readable_bytes;
  bq_peek := peek;
  bq_retrieve := retrieve;
  bq_append := append;
  bq_readable_spec b H := eq_sym (contents_length b H);
  bq_peek_spec b n _ H := peek_contents b n H;
  bq_retrieve_spec := retrieve_spec;
  bq_append_spec := append_spec
|}.
