(* ===== verification/Codec.v ===== *)
(** [src/src/codec.cpp]: length-prefixed frames. [encode] packs one frame,
    [decode] takes complete frames off the front of a byte queue and hands
    them to a callback. The decoder is written against the [ByteQueue]
    interface and refines a parser of byte strings; from it follow
    termination, the absence of assertion failures, and independence of how
    the stream is cut into reads. *)

From S2P Require Import Prelude Bytes Buffer.

(** * Definitions *)

Definition LENGTH_FIELD_SIZE : Z := 4.
Definition TYPE_FIELD_SIZE : Z := 2.
Definition MIN_FRAME_LENGTH : Z := 2.
Definition MAX_FRAME_LENGTH : Z := 64 * 1024.

(** [Codec::encode]: [None] is the result [false], with [frame] left empty. *)
Definition encode (type : Z) (payload : bytes) : option bytes :=
  if MAX_FRAME_LENGTH - TYPE_FIELD_SIZE <? zlen payload then None
  else
    let frame_length := wrap32 (TYPE_FIELD_SIZE + zlen payload) in
    let network_length := htonl frame_length in
    let network_type := htons type in
    Some (mem_store 4 network_length ++ mem_store 2 network_type ++ payload).

(** The callback threads the state [S] of whatever it closes over; its boolean
    result says whether to go on. *)
Definition FrameCallback (S : Type) : Type := S → Z → bytes → S * bool.

(** One outcome of the decoding loop: the callback's state, the buffer and the
    value returned. [None] is a failed assertion or exhausted fuel. *)
Fixpoint decode_loop {B S} `{!ByteQueue B} (fuel : nat) (callback : FrameCallback S)
    (s : S) (buffer : B) : option (S * B * bool) :=
  match fuel with
  | O => None
  | Datatypes.S fuel =>
    let readable := Z.of_nat (bq_readable buffer) in
    if readable <? LENGTH_FIELD_SIZE then Some (s, buffer, true)
    else
      let net_len := mem_load (take 4 (bq_peek buffer)) in
      let frame_len := ntohl net_len in
      if (frame_len <? MIN_FRAME_LENGTH) || (MAX_FRAME_LENGTH <? frame_len)
      then Some (s, buffer, false)
      else if readable <? frame_len + LENGTH_FIELD_SIZE then Some (s, buffer, true)
      else
        let net_type := mem_load (take 2 (drop 4 (bq_peek buffer))) in
        let net_type := ntohs net_type in
        let net_payload :=
          take (Z.to_nat (frame_len - TYPE_FIELD_SIZE)) (drop 6 (bq_peek buffer)) in
        match bq_retrieve buffer (Z.to_nat (frame_len + LENGTH_FIELD_SIZE)) with
        | None => None
        | Some buffer =>
            let '(s, go_on) := callback s net_type net_payload in
            if negb go_on then Some (s, buffer, false)
            else decode_loop fuel callback s buffer
        end
  end.

(** [Codec::decode]; every round consumes at least six bytes, so one more
    round than there are readable bytes is enough fuel. *)
Definition decode {B S} `{!ByteQueue B} (buffer : B) (callback : option (FrameCallback S))
    (s : S) : option (S * B * bool) :=
  match callback with
  | None => Some (s, buffer, false)
  | Some callback => decode_loop (1 + bq_readable buffer) callback s buffer
  end.

(** ** Specification *)

(** What the first bytes of a stream are. *)
Inductive frame_view : Type :=
| NeedMore
| BadLength
| Frame (type : Z) (payload : bytes) (rest : bytes).

Definition split_frame (bs : bytes) : frame_view :=
  if zlen bs <? 4 then NeedMore
  else
    let len := be_value (take 4 bs) in
    if (len <? MIN_FRAME_LENGTH) || (MAX_FRAME_LENGTH <? len) then BadLength
    else if zlen bs <? len + 4 then NeedMore
    else Frame (be_value (take 2 (drop 4 bs)))
           (take (Z.to_nat (len - 2)) (drop 6 bs)) (drop (Z.to_nat (len + 4)) bs).

Fixpoint parse_loop {S} (fuel : nat) (callback : FrameCallback S) (s : S) (bs : bytes)
    : option (S * bytes * bool) :=
  match fuel with
  | O => None
  | Datatypes.S fuel =>
    match split_frame bs with
    | NeedMore => Some (s, bs, true)
    | BadLength => Some (s, bs, false)
    | Frame type payload rest =>
        let '(s, go_on) := callback s type payload in
        if negb go_on then Some (s, rest, false) else parse_loop fuel callback s rest
    end
  end.
Definition parse {S} (callback : FrameCallback S) (s : S) (bs : bytes) :=
  parse_loop (1 + length bs) callback s bs.

(** The callback that records the frames it is given. *)
Definition collect : FrameCallback (list (Z * bytes)) :=
  λ frames type payload, (frames ++ [(type, payload)], true).

(** A connection's reads: each chunk is appended to the buffer, which is then
    decoded; an unsuccessful decode ends the connection. *)
Fixpoint feed {B S} `{!ByteQueue B} (callback : FrameCallback S) (s : S) (buffer : B)
    (chunks : list bytes) : option (S * B * bool) :=
  match chunks with
  | [] => Some (s, buffer, true)
  | chunk :: chunks =>
      match decode (bq_append buffer chunk) (Some callback) s with
      | Some (s, buffer, true) => feed callback s buffer chunks
      | r => r
      end
  end.

(** The frames a peer can send, and their bytes. *)
Definition frame_ok (f : Z * bytes) : Prop :=
  u16_range f.1 ∧ zlen f.2 <= MAX_FRAME_LENGTH - TYPE_FIELD_SIZE.
Definition frame_bytes (f : Z * bytes) : bytes :=
  be_bytes 4 (2 + zlen f.2) ++ be_bytes 2 f.1 ++ f.2.

(** * Proofs *)

Lemma encode_spec type payload :
  encode type payload =
    if zlen payload <=? MAX_FRAME_LENGTH - TYPE_FIELD_SIZE
    then Some (frame_bytes (type, payload)) else None.
Proof.
  unfold encode, frame_bytes, htonl, htons. rewrite !mem_store_swap. cbn [fst snd].
  destruct (Z.ltb_spec (MAX_FRAME_LENGTH - TYPE_FIELD_SIZE) (zlen payload)),
    (Z.leb_spec (zlen payload) (MAX_FRAME_LENGTH - TYPE_FIELD_SIZE)); try lia; [done|].
  unfold wrap32. rewrite Z.mod_small; [done|].
  unfold MAX_FRAME_LENGTH, TYPE_FIELD_SIZE, zlen in *. lia.
Qed.

Lemma split_frame_rest bs type payload rest :
  split_frame bs = Frame type payload rest →
  ∃ len, 2 <= len <= MAX_FRAME_LENGTH ∧ len + 4 <= zlen bs ∧
    rest = drop (Z.to_nat (len + 4)) bs ∧ (length rest + 6 <= length bs)%nat.
Proof.
  unfold split_frame. intros H. branches_in H. to_prop.
  eexists; split_and!; [eassumption..|lia|done|].
  rewrite length_drop. unfold MIN_FRAME_LENGTH, zlen in *. lia.
Qed.

Lemma split_frame_app bs more :
  split_frame (bs ++ more) =
    match split_frame bs with
    | NeedMore => split_frame (bs ++ more)
    | BadLength => BadLength
    | Frame type payload rest => Frame type payload (rest ++ more)
    end.
Proof.
  unfold split_frame. destruct (Z.ltb_spec (zlen bs) 4) as [|H4]; [done|].
  assert (Hl : zlen (bs ++ more) = zlen bs + zlen more)
    by (unfold zlen; rewrite length_app; lia).
  assert (0 <= zlen more) by (unfold zlen; lia).
  destruct (Z.ltb_spec (zlen (bs ++ more)) 4); [lia|].
  rewrite take_app_le by (unfold zlen in *; lia).
  case_match eqn:Hb; [done|]. to_prop. unfold MIN_FRAME_LENGTH, zlen in *.
  destruct (Z.ltb_spec (Z.of_nat (length bs)) (be_value (take 4 bs) + 4)); [done|].
  destruct (Z.ltb_spec (Z.of_nat (length (bs ++ more))) (be_value (take 4 bs) + 4)); [lia|].
  rewrite !drop_app_le by lia.
  rewrite !take_app_le by (rewrite length_drop; lia). done.
Qed.

Lemma split_frame_bytes f more :
  frame_ok f → split_frame (frame_bytes f ++ more) = Frame f.1 f.2 more.
Proof.
  destruct f as [type payload]. unfold frame_ok, frame_bytes, u16_range. cbn [fst snd].
  unfold MAX_FRAME_LENGTH, TYPE_FIELD_SIZE. intros [Ht Hp].
  set (l4 := be_bytes 4 (2 + zlen payload)). set (l2 := be_bytes 2 type).
  assert (H4 : length l4 = 4%nat) by apply be_bytes_length.
  assert (H2 : length l2 = 2%nat) by apply be_bytes_length.
  assert (H0 : 0 <= zlen payload) by (unfold zlen; lia).
  assert (Hv : be_value l4 = 2 + zlen payload) by (apply be_value_bytes_small; lia).
  unfold split_frame. rewrite <-!app_assoc.
  rewrite (take_app_length' l4) by lia. rewrite (drop_app_length' l4) by lia.
  rewrite Hv. unfold MIN_FRAME_LENGTH, MAX_FRAME_LENGTH.
  assert (Hz : zlen (l4 ++ l2 ++ payload ++ more) = 6 + zlen payload + zlen more).
  { unfold zlen. rewrite !length_app. lia. }
  assert (0 <= zlen more) by (unfold zlen; lia).
  rewrite Hz, !(proj2 (Z.ltb_ge _ _)) by lia. cbn [orb].
  rewrite (take_app_length' l2) by lia. f_equal.
  - apply be_value_bytes_small. lia.
  - rewrite (app_assoc l4), (drop_app_length' (l4 ++ l2)) by (rewrite length_app; lia).
    apply take_app_length'. unfold zlen in *. lia.
  - rewrite (app_assoc l4), app_assoc. apply drop_app_length'.
    rewrite !length_app. unfold zlen in *. lia.
Qed.

(** ** The parser *)

Section parse.
Context {S : Type} (callback : FrameCallback S).

(** Any fuel above the length of the input gives the same result. *)
Lemma parse_loop_fuel n s bs : (length bs < n)%nat → parse_loop n callback s bs = parse callback s bs.
Proof.
  unfold parse. remember (1 + length bs)%nat as m eqn:Hm.
  assert (Hb : (length bs < m)%nat) by lia. clear Hm. intros Hn.
  revert m s bs Hn Hb. induction n as [|n IH]; intros [|m] s bs Hn Hb; try lia.
  cbn. destruct (split_frame bs) as [| |type payload rest] eqn:E; [done..|].
  destruct (split_frame_rest _ _ _ _ E) as (_ & _ & _ & _ & Hr).
  destruct (callback s type payload) as [s' []]; cbn; [|done].
  apply IH; lia.
Qed.

Lemma parse_total s bs : ∃ r, parse callback s bs = Some r.
Proof.
  revert s. induction bs as [bs IH] using (induction_ltof1 _ (@length byte)); intros s.
  unfold parse, ltof in *. cbn.
  destruct (split_frame bs) as [| |type payload rest] eqn:E; [by eexists..|].
  destruct (split_frame_rest _ _ _ _ E) as (_ & _ & _ & _ & Hr).
  destruct (callback s type payload) as [s' []]; cbn; [|by eexists].
  rewrite parse_loop_fuel by lia. apply IH. lia.
Qed.

Lemma parse_frame s bs type payload rest :
  split_frame bs = Frame type payload rest →
  parse callback s bs =
    let '(s, go_on) := callback s type payload in
    if negb go_on then Some (s, rest, false) else parse callback s rest.
Proof.
  intros E. unfold parse at 1. cbn. rewrite E.
  destruct (split_frame_rest _ _ _ _ E) as (_ & _ & _ & _ & Hr).
  destruct (callback s type payload) as [s' []]; cbn; [|done].
  apply parse_loop_fuel. lia.
Qed.

(** Parsing a prefix first and the rest of the stream later is the same as
    parsing the whole stream. *)
Lemma parse_app s bs more s' rest :
  parse callback s bs = Some (s', rest, true) →
  parse callback s (bs ++ more) = parse callback s' (rest ++ more).
Proof.
  revert s. induction bs as [bs IH] using (induction_ltof1 _ (@length byte)); intros s.
  unfold ltof in IH. intros H. pose proof (split_frame_app bs more) as Ha.
  destruct (split_frame bs) as [| |type payload rest'] eqn:E.
  - unfold parse in H. cbn in H. rewrite E in H. by simplify_eq.
  - unfold parse in H. cbn in H. rewrite E in H. by simplify_eq.
  - rewrite (parse_frame _ _ _ _ _ E) in H. rewrite (parse_frame _ _ _ _ _ Ha).
    destruct (callback s type payload) as [s1 []]; cbn in *; [|done].
    apply IH; [|done]. apply split_frame_rest in E as (_ & _ & _ & _ & ?). lia.
Qed.

(** A stream refused early is refused whole. *)
Lemma parse_app_false s bs more s' rest :
  parse callback s bs = Some (s', rest, false) →
  ∃ rest', parse callback s (bs ++ more) = Some (s', rest', false).
Proof.
  revert s. induction bs as [bs IH] using (induction_ltof1 _ (@length byte)); intros s.
  unfold ltof in IH. intros H. pose proof (split_frame_app bs more) as Ha.
  destruct (split_frame bs) as [| |type payload rest'] eqn:E.
  - unfold parse in H. cbn in H. rewrite E in H. by simplify_eq.
  - unfold parse in H |- *. cbn in H |- *. rewrite E in H. rewrite Ha.
    simplify_eq. by eexists.
  - rewrite (parse_frame _ _ _ _ _ E) in H. rewrite (parse_frame _ _ _ _ _ Ha).
    destruct (callback s type payload) as [s1 []]; cbn in *; [|simplify_eq; by eexists].
    apply IH; [|done]. apply split_frame_rest in E as (_ & _ & _ & _ & ?). lia.
Qed.

Lemma parse_rest s bs s' rest :
  parse callback s bs = Some (s', rest, true) → split_frame rest = NeedMore.
Proof.
  revert s. induction bs as [bs IH] using (induction_ltof1 _ (@length byte)); intros s H.
  unfold ltof in IH. destruct (split_frame bs) as [| |type payload rest'] eqn:E.
  - unfold parse in H. cbn in H. rewrite E in H. by simplify_eq.
  - unfold parse in H. cbn in H. rewrite E in H. by simplify_eq.
  - rewrite (parse_frame _ _ _ _ _ E) in H.
    destruct (callback s type payload) as [s1 []]; cbn in *; [|done].
    eapply IH; [|done]. apply split_frame_rest in E as (_ & _ & _ & _ & ?). lia.
Qed.

Lemma parse_needs_more s bs :
  split_frame bs = NeedMore → parse callback s bs = Some (s, bs, true).
Proof. intros E. unfold parse. cbn. by rewrite E. Qed.
End parse.

Lemma parse_frames fs tail acc :
  Forall frame_ok fs → split_frame tail = NeedMore →
  parse collect acc (concat (frame_bytes <$> fs) ++ tail) = Some (acc ++ fs, tail, true).
Proof.
  intros Hf Ht. revert acc. induction Hf as [|f fs Hf _ IH]; intros acc; cbn [fmap list_fmap concat].
  - rewrite app_nil_l, app_nil_r. by apply parse_needs_more.
  - rewrite <-app_assoc. rewrite (parse_frame _ _ _ _ _ _ (split_frame_bytes _ _ Hf)).
    cbn [collect negb]. rewrite IH. destruct f. by rewrite <-app_assoc.
Qed.

(** ** The decoder refines the parser *)

Section refinement.
Context `{!ByteQueue B} {S : Type} (callback : FrameCallback S).

(** One round of the loop looks at the front of the queue exactly as
    [split_frame] does. *)
Lemma decode_round fuel s b :
  bq_wf b →
  match split_frame (bq_contents b) with
  | NeedMore => decode_loop (Datatypes.S fuel) callback s b = Some (s, b, true)
  | BadLength => decode_loop (Datatypes.S fuel) callback s b = Some (s, b, false)
  | Frame type payload rest =>
      ∃ b', bq_wf b' ∧ bq_contents b' = rest ∧
        decode_loop (Datatypes.S fuel) callback s b =
          let '(s, go_on) := callback s type payload in
          if negb go_on then Some (s, b', false) else decode_loop fuel callback s b'
  end.
Proof.
  intros Hwf. pose proof (bq_readable_spec b Hwf) as Hlen.
  unfold split_frame, zlen. rewrite <-Hlen. cbn [decode_loop].
  unfold LENGTH_FIELD_SIZE, TYPE_FIELD_SIZE, ntohl, ntohs.
  destruct (Z.ltb_spec (Z.of_nat (bq_readable b)) 4) as [|H4]; [done|].
  assert (Hpk4 : take 4 (bq_peek b) = take 4 (bq_contents b)) by (apply bq_peek_spec; [done|lia]).
  rewrite Hpk4.
  rewrite swap_mem_load by (rewrite length_take; lia).
  set (len := be_value (take 4 (bq_contents b))).
  destruct ((len <? MIN_FRAME_LENGTH) || (MAX_FRAME_LENGTH <? len)) eqn:Hb; [done|].
  to_prop. unfold MIN_FRAME_LENGTH, MAX_FRAME_LENGTH in *.
  destruct (Z.ltb_spec (Z.of_nat (bq_readable b)) (len + 4)) as [|Hr]; [done|].
  destruct (bq_retrieve_spec b (Z.to_nat (len + 4)) Hwf) as (b' & Hret & Hwf' & Hc'); [lia|].
  exists b'. split_and!; [done..|].
  assert (Hpk : ∀ i n, (i + n <= Z.to_nat (len + 4))%nat →
            take n (drop i (bq_peek b)) = take n (drop i (bq_contents b))).
  { intros i n Hin. rewrite !take_drop_commute. f_equal. apply bq_peek_spec; [done|lia]. }
  rewrite Hret, !Hpk by lia.
  rewrite swap_mem_load by (rewrite length_take, length_drop; lia). done.
Qed.

(** Over any byte queue, decoding is parsing the queue's contents: the same
    calls of the callback, the same result, and the unparsed rest is left. *)
Lemma decode_loop_refines fuel s b :
  bq_wf b → (length (bq_contents b) < fuel)%nat →
  ∃ s' b' ok, decode_loop fuel callback s b = Some (s', b', ok) ∧ bq_wf b' ∧
    parse callback s (bq_contents b) = Some (s', bq_contents b', ok).
Proof.
  revert s b. induction fuel as [|fuel IH]; intros s b Hwf Hf; [lia|].
  pose proof (decode_round fuel s b Hwf) as Hround.
  destruct (split_frame (bq_contents b)) as [| |type payload rest] eqn:E.
  - exists s, b, true. by rewrite parse_needs_more.
  - exists s, b, false. unfold parse. cbn. by rewrite E.
  - destruct Hround as (b' & Hwf' & Hc' & ->). rewrite (parse_frame _ _ _ _ _ _ E), <-Hc'.
    destruct (callback s type payload) as [s' []]; cbn; [|by exists s', b', false].
    apply IH; [done|]. rewrite Hc'. apply split_frame_rest in E as (_ & _ & _ & _ & ?). lia.
Qed.

Lemma decode_refines_parse s b :
  bq_wf b →
  ∃ s' b' ok, decode b (Some callback) s = Some (s', b', ok) ∧ bq_wf b' ∧
    parse callback s (bq_contents b) = Some (s', bq_contents b', ok).
Proof.
  intros Hwf. cbn [decode]. apply decode_loop_refines; [done|].
  rewrite (bq_readable_spec b Hwf). lia.
Qed.

(** Feeding a stream in pieces is parsing it whole. *)
Lemma feed_refines_parse chunks s b :
  bq_wf b → split_frame (bq_contents b) = NeedMore →
  ∃ s' b' ok rest, feed callback s b chunks = Some (s', b', ok) ∧ bq_wf b' ∧
    parse callback s (bq_contents b ++ concat chunks) = Some (s', rest, ok) ∧
    (ok = true → bq_contents b' = rest).
Proof.
  revert s b. induction chunks as [|c chunks IH]; intros s b Hwf Hid; cbn [feed concat].
  - rewrite app_nil_r. exists s, b, true, (bq_contents b). by rewrite parse_needs_more.
  - destruct (bq_append_spec b c Hwf) as [Hwa Hca].
    destruct (decode_refines_parse s (bq_append b c) Hwa) as (s1 & b1 & ok & -> & Hwf1 & Hp1).
    rewrite Hca in Hp1. rewrite app_assoc. destruct ok.
    + rewrite (parse_app _ _ _ _ _ _ Hp1). apply IH; [done|]. by eapply parse_rest.
    + destruct (parse_app_false _ _ _ (concat chunks) _ _ Hp1) as [rest' ->].
      by exists s1, b1, false, rest'.
Qed.
End refinement.

(** * Properties *)

(** C35: The decoder always returns, whatever the bytes and the callback: it needs
    no more rounds than its fuel and its [retrieve] never trips the assertion;
    the buffer it leaves is well formed. *)
Theorem decode_total {S} (callback : option (FrameCallback S)) (s : S) (b : Buffer) :
  buffer_wf b → ∃ s' b' ok, decode b callback s = Some (s', b', ok) ∧ buffer_wf b'.
Proof.
  intros Hwf. destruct callback as [callback|]; [|by exists s, b, false].
  destruct (decode_refines_parse callback s b) as (s' & b' & ok & ? & ? & _); [exact Hwf|].
  by exists s', b', ok.
Qed.

Lemma decode_total_witness :
  ∃ s' b' ok, decode (append (Buffer_new 4) [x00; x01]) (Some collect) [] = Some (s', b', ok)
    ∧ buffer_wf b'.
Proof. apply decode_total. vm_compute. lia. Defined.

(** C25: Frames survive the wire: however the bytes of a sequence of frames are cut
    into reads, the decoder delivers exactly those frames, in order, accepts
    every read, and keeps the bytes of the unfinished frame that follows. *)
Theorem feed_frames (fs : list (Z * bytes)) (tail : bytes) (chunks : list bytes) n :
  Forall frame_ok fs → split_frame tail = NeedMore →
  concat chunks = concat (frame_bytes <$> fs) ++ tail →
  ∃ b', feed collect [] (Buffer_new n) chunks = Some (fs, b', true) ∧ contents b' = tail.
Proof.
  intros Hfs Ht Hc.
  destruct (feed_refines_parse (B:=Buffer) collect chunks [] (Buffer_new n))
    as (s' & b' & ok & rest & Hf & _ & Hp & Hok).
  { apply Buffer_new_wf. }
  { done. }
  cbn [bq_contents Buffer_queue] in *. rewrite Buffer_new_contents, app_nil_l, Hc in Hp.
  rewrite (parse_frames fs tail [] Hfs Ht) in Hp. injection Hp as <- <- <-.
  exists b'. split; [done|]. by apply Hok.
Qed.

Lemma feed_frames_witness :
  ∃ b', feed collect [] (Buffer_new 4)
          [[x00; x00; x00]; [x03; x00; x06; x41; x00]; [x00; x00; x02; x00]]
        = Some ([(6, [x41])], b', true) ∧ contents b' = [x00; x00; x00; x02; x00].
Proof.
  apply (feed_frames [(6, [x41])]); [|reflexivity|reflexivity].
  repeat constructor; vm_compute; discriminate.
Defined.

(** Every frame that [encode] produces is one the decoder gives back, and
    [encode] refuses exactly the payloads that do not fit a frame. *)
Theorem encode_split type payload more :
  u16_range type →
  match encode type payload with
  | Some frame => split_frame (frame ++ more) = Frame type payload more
  | None => MAX_FRAME_LENGTH - TYPE_FIELD_SIZE < zlen payload
  end.
Proof.
  intros Ht. rewrite encode_spec.
  destruct (Z.leb_spec (zlen payload) (MAX_FRAME_LENGTH - TYPE_FIELD_SIZE)); [|lia].
  by apply (split_frame_bytes (type, payload)).
Qed.

Lemma encode_split_witness :
  match encode 6 [x41; x42] with
  | Some frame => split_frame (frame ++ [x00]) = Frame 6 [x41; x42] [x00]
  | None => MAX_FRAME_LENGTH - TYPE_FIELD_SIZE < zlen [x41; x42]
  end.
Proof. apply (encode_split 6 [x41; x42] [x00]). vm_compute. split; [discriminate|reflexivity]. Defined.
