(* ===== verification/RoomStateMachine.v ===== *)
(** [src/src/room_state_machine.cpp]: the life cycle of a room, from waiting
    for players to running to finished. *)

From S2P Require Import Prelude.

Module RSM.
Inductive States : Type := waiting | running | finished.
Inductive Transitionstates : Type := success | invalid_state | condition_not_met.

#[global] Instance States_eq_dec : EqDecision States.
Proof. solve_decision. Defined.
#[global] Instance Transitionstates_eq_dec : EqDecision Transitionstates.
Proof. solve_decision. Defined.
End RSM.

(** * Definitions *)

Record Roomstatemachine : Type := MkRoomstatemachine { state_ : RSM.States }.

Definition Roomstatemachine_new : Roomstatemachine := MkRoomstatemachine RSM.waiting.

Definition state (m : Roomstatemachine) : RSM.States := state_ m.

Definition can_join (m : Roomstatemachine) : bool := bool_decide (state_ m = RSM.waiting).

Definition start (m : Roomstatemachine) (ready_to_start : bool)
    : RSM.Transitionstates * Roomstatemachine :=
  if negb (bool_decide (state_ m = RSM.waiting)) then (RSM.invalid_state, m)
  else if negb ready_to_start then (RSM.condition_not_met, m)
  else (RSM.success, MkRoomstatemachine RSM.running).

Definition finish (m : Roomstatemachine) (should_finish : bool)
    : RSM.Transitionstates * Roomstatemachine :=
  if negb (bool_decide (state_ m = RSM.running)) then (RSM.invalid_state, m)
  else if negb should_finish then (RSM.condition_not_met, m)
  else (RSM.success, MkRoomstatemachine RSM.finished).

(** ** Specification: the two transitions of the life cycle *)

Inductive transition : RSM.States → RSM.States → Prop :=
| transition_start : transition RSM.waiting RSM.running
| transition_finish : transition RSM.running RSM.finished.

(** * Proofs *)

Lemma start_spec m ready :
  (start m ready).1 = RSM.success ↔ state_ m = RSM.waiting ∧ ready = true.
Proof. destruct m as [[]], ready; cbn; naive_solver. Qed.

Lemma finish_spec m ready :
  (finish m ready).1 = RSM.success ↔ state_ m = RSM.running ∧ ready = true.
Proof. destruct m as [[]], ready; cbn; naive_solver. Qed.

(** Each operation either reports success and makes one transition of the life
    cycle, or reports why not and leaves the machine alone; and it reports
    success whenever the transition is possible and requested. *)
Theorem machine_refines_life_cycle m flag :
  (let '(r, m') := start m flag in
   if bool_decide (r = RSM.success) then transition (state m) (state m') else m' = m) ∧
  (let '(r, m') := finish m flag in
   if bool_decide (r = RSM.success) then transition (state m) (state m') else m' = m) ∧
  (∀ s, transition (state m) s →
     (start m true).2 = MkRoomstatemachine s ∨ (finish m true).2 = MkRoomstatemachine s).
Proof.
  destruct m as [[]], flag; (split_and!; [done || constructor..|]);
    intros s Hs; inversion Hs; auto.
Qed.
