(* ===== verification/GameState.v ===== *)
(** [src/src/game_state.cpp]: the authoritative state of a running match:
    position and health of every player, moves, attacks, the sorted snapshot
    and its restoration. *)

From S2P Require Import Prelude.

Module GS.
Inductive States : Type :=
| success
| empty_players
| invalid_player_id
| duplicate_player
| too_many_players
| player_not_found
| invalid_move
| out_of_bounds
| invalid_target
| attacker_not_found
| target_not_found
| attacker_dead
| target_dead
| target_out_of_range.

#[global] Instance States_eq_dec : EqDecision States.
Proof. solve_decision. Defined.
End GS.

(** * Definitions *)

Record PlayerGameState : Type := MkPlayerGameState {
  pg_player_id : Z;   (* std::uint64_t *)
  pg_x : Z;           (* std::int32_t *)
  pg_y : Z;
  pg_hp : Z
}.

#[export] Instance PlayerGameState_eq_dec : EqDecision PlayerGameState.
Proof. solve_decision. Defined.

Record Gamestate : Type := MkGamestate { players_ : gmap Z PlayerGameState }.

Record Attackresult : Type := MkAttackresult {
  ar_state : GS.States;
  ar_attacker_id : Z;
  ar_target_player_id : Z;
  ar_remaining_hp : Z;
  ar_target_eliminated : bool
}.

Definition INITIAL_HP : Z := 100.
Definition MIN_POSITION : Z := 0.
Definition MAX_POSITION : Z := 100.
Definition ATTACK_DAMAGE : Z := 10.
Definition MAX_PLAYERS : Z := 101.

Definition Gamestate_new : Gamestate := MkGamestate ∅.

Definition player_count (g : Gamestate) : Z := Z.of_nat (size (players_ g)).

Definition contains (g : Gamestate) (player_id : Z) : bool :=
  match players_ g !! player_id with None => false | Some _ => true end.

(** The first loop of [initialize]: [Some] is the error it returns. *)
Fixpoint check_player_ids (player_ids : list Z) (check : gmap Z bool) : option GS.States :=
  match player_ids with
  | [] => None
  | id :: ids =>
      if id =? 0 then Some GS.invalid_player_id
      else match check !! id with
           | Some _ => Some GS.duplicate_player
           | None => check_player_ids ids (<[id := true]> check)
           end
  end.

(** The second loop: the players in ascending order along the x axis. *)
Fixpoint place_players (temp_ : list Z) (location : Z) (temp_players : gmap Z PlayerGameState)
    : gmap Z PlayerGameState :=
  match temp_ with
  | [] => temp_players
  | id :: ids =>
      place_players ids (location + 1)
        (<[id := MkPlayerGameState id location 0 INITIAL_HP]> temp_players)
  end.

Definition initialize (g : Gamestate) (player_ids : list Z) : GS.States * Gamestate :=
  if bool_decide (player_ids = []) then (GS.empty_players, g)
  else if MAX_PLAYERS <? zlen player_ids then (GS.too_many_players, g)
  else match check_player_ids player_ids ∅ with
       | Some error => (error, g)
       | None =>
           let temp_ := sort_on (λ id, id) Z.le player_ids in
           (GS.success, MkGamestate (place_players temp_ 0 ∅))
       end.

Definition remove_player (g : Gamestate) (player_id : Z) : GS.States * Gamestate :=
  if player_id =? 0 then (GS.invalid_player_id, g)
  else match players_ g !! player_id with
       | None => (GS.player_not_found, g)
       | Some _ => (GS.success, MkGamestate (delete player_id (players_ g)))
       end.

Definition move_player (g : Gamestate) (player_id dx dy : Z) : GS.States * Gamestate :=
  if player_id =? 0 then (GS.invalid_player_id, g)
  else match players_ g !! player_id with
  | None => (GS.player_not_found, g)
  | Some p =>
      let valid_x_move := ((dx =? 1) || (dx =? -1)) && (dy =? 0) in
      let valid_y_move := ((dy =? 1) || (dy =? -1)) && (dx =? 0) in
      if negb valid_x_move && negb valid_y_move then (GS.invalid_move, g)
      else
        let new_x := pg_x p + dx in
        let new_y := pg_y p + dy in
        if (new_x <? MIN_POSITION) || (MAX_POSITION <? new_x)
           || (new_y <? MIN_POSITION) || (MAX_POSITION <? new_y)
        then (GS.out_of_bounds, g)
        else (GS.success,
              MkGamestate (<[player_id :=
                MkPlayerGameState (pg_player_id p) new_x new_y (pg_hp p)]> (players_ g)))
  end.

Definition player_state (g : Gamestate) (player_id : Z) : option PlayerGameState :=
  players_ g !! player_id.

Definition attack_player (g : Gamestate) (attacker_id target_player_id : Z)
    : Attackresult * Gamestate :=
  let failed state := (MkAttackresult state attacker_id target_player_id 0 false, g) in
  if (attacker_id =? 0) || (target_player_id =? 0) then failed GS.invalid_player_id
  else if attacker_id =? target_player_id then failed GS.invalid_target
  else match players_ g !! attacker_id with
  | None => failed GS.attacker_not_found
  | Some attacker =>
    match players_ g !! target_player_id with
    | None => failed GS.target_not_found
    | Some target =>
      if pg_hp attacker <=? 0 then failed GS.attacker_dead
      else if pg_hp target <=? 0 then failed GS.target_dead
      else
        let distance :=
          Z.abs (pg_x attacker - pg_x target) + Z.abs (pg_y attacker - pg_y target) in
        if 1 <? distance then failed GS.target_out_of_range
        else
          let hp := pg_hp target - ATTACK_DAMAGE in
          (MkAttackresult GS.success attacker_id target_player_id hp (hp <=? 0),
           MkGamestate (<[target_player_id :=
             MkPlayerGameState (pg_player_id target) (pg_x target) (pg_y target) hp]>
             (players_ g)))
    end
  end.

(** The loop of [restore]; [None] is the early [return false]. *)
Fixpoint restore_loop (states : list PlayerGameState) (temp_players : gmap Z PlayerGameState)
    : option (gmap Z PlayerGameState) :=
  match states with
  | [] => Some temp_players
  | state :: states =>
      if pg_player_id state =? 0 then None
      else match temp_players !! pg_player_id state with
      | Some _ => None
      | None =>
          if (pg_x state <? MIN_POSITION) || (MAX_POSITION <? pg_x state)
             || (pg_y state <? MIN_POSITION) || (MAX_POSITION <? pg_y state) then None
          else if (pg_hp state <? 0) || (INITIAL_HP <? pg_hp state) then None
          else restore_loop states (<[pg_player_id state := state]> temp_players)
      end
  end.

Definition restore (g : Gamestate) (states : list PlayerGameState) : bool * Gamestate :=
  if MAX_PLAYERS <? zlen states then (false, g)
  else match restore_loop states ∅ with
       | None => (false, g)
       | Some temp_players => (true, MkGamestate temp_players)
       end.

Definition snapshot {ho : HashOrder} (g : Gamestate) : list PlayerGameState :=
  sort_on pg_player_id Z.le (hash_values (players_ g)).

(** ** Specification *)

(** A player as the rules of the game allow it. Health is lost ten points at a
    time from a hundred, so it stays a multiple of [ATTACK_DAMAGE]. *)
Record player_ok (p : PlayerGameState) : Prop := {
  player_ok_id : 0 < pg_player_id p < 2 ^ 64;
  player_ok_x : MIN_POSITION <= pg_x p <= MAX_POSITION;
  player_ok_y : MIN_POSITION <= pg_y p <= MAX_POSITION;
  player_ok_hp : 0 <= pg_hp p <= INITIAL_HP;
  player_ok_tens : pg_hp p mod ATTACK_DAMAGE = 0
}.

(** A player of a match that may have been restored: [restore] admits any
    health from 0 to 100, so the last attack can take it below zero, by less
    than [ATTACK_DAMAGE]. *)
Record player_bounds (p : PlayerGameState) : Prop := {
  player_bounds_id : 0 < pg_player_id p < 2 ^ 64;
  player_bounds_x : MIN_POSITION <= pg_x p <= MAX_POSITION;
  player_bounds_y : MIN_POSITION <= pg_y p <= MAX_POSITION;
  player_bounds_hp : - ATTACK_DAMAGE < pg_hp p <= INITIAL_HP
}.

(** A match all of whose players are [P]. *)
Record game_of (P : PlayerGameState → Prop) (g : Gamestate) : Prop := {
  game_inv_keyed : self_keyed pg_player_id (players_ g);
  game_inv_players : map_Forall (λ _ p, P p) (players_ g);
  game_inv_size : player_count g <= MAX_PLAYERS
}.
#[global] Arguments game_inv_players {P} g _.

Definition game_inv : Gamestate → Prop := game_of player_ok.
Definition game_bounds : Gamestate → Prop := game_of player_bounds.

(** The operations that change a match, and a run of them. *)
Inductive game_op : Type :=
| Initialize (player_ids : list Z)
| Remove (player_id : Z)
| Move (player_id dx dy : Z)
| Attack (attacker_id target_player_id : Z)
| Restore (states : list PlayerGameState).

(** Ids are 64-bit numbers. *)
Definition game_op_ok (op : game_op) : Prop :=
  match op with
  | Initialize ids => Forall u64_range ids
  | Restore states => Forall (λ p, u64_range (pg_player_id p)) states
  | _ => True
  end.
(** Restored health is as the rules leave it. *)
Definition restores_tens (op : game_op) : Prop :=
  match op with Restore states => Forall (λ p, pg_hp p mod ATTACK_DAMAGE = 0) states | _ => True end.

Definition apply_op (g : Gamestate) (op : game_op) : Gamestate :=
  match op with
  | Initialize ids => (initialize g ids).2
  | Remove id => (remove_player g id).2
  | Move id dx dy => (move_player g id dx dy).2
  | Attack a t => (attack_player g a t).2
  | Restore states => (restore g states).2
  end.
Definition run_ops (g : Gamestate) (ops : list game_op) : Gamestate := fold_left apply_op ops g.

(** The rank of a player among [ids]. *)
Definition rank (ids : list Z) (id : Z) : Z := zlen (filter (λ j, j < id) ids).

(** [n] attacks in a row, with the last result. *)
Fixpoint attack_times (n : nat) (g : Gamestate) (a t : Z) : option Attackresult * Gamestate :=
  match n with
  | O => (None, g)
  | S n => let '(_, g) := attack_times n g a t in
           let '(r, g) := attack_player g a t in (Some r, g)
  end.

(** * Proofs *)

(** ** Initialisation *)

Lemma check_player_ids_None ids check :
  check_player_ids ids check = None ↔
    Forall (λ id, id ≠ 0) ids ∧ NoDup ids ∧ Forall (λ id, check !! id = None) ids.
Proof.
  revert check. induction ids as [|id ids IH]; intros check; cbn.
  - split; [|done]. by repeat constructor.
  - rewrite !Forall_cons, NoDup_cons. destruct (Z.eqb_spec id 0); [naive_solver|].
    destruct (check !! id) eqn:E; [naive_solver|]. rewrite IH, !Forall_forall.
    split.
    + intros (H1 & H2 & H3). split_and!; try done.
      * intros Hin. specialize (H3 id Hin). by rewrite lookup_insert_eq in H3.
      * intros j Hj. specialize (H3 j Hj). by apply lookup_insert_None in H3 as [? _].
    + intros ((_ & H1) & (Hid & H2) & (_ & H3)). split_and!; try done.
      intros j Hj. rewrite lookup_insert_ne by (intros ->; done). auto.
Qed.

Lemma check_player_ids_empty ids :
  check_player_ids ids ∅ = None ↔ Forall (λ id, id ≠ 0) ids ∧ NoDup ids.
Proof.
  rewrite check_player_ids_None. split; [naive_solver|]. intros [? ?]. split_and!; try done.
  apply Forall_forall. intros id _. apply lookup_empty.
Qed.

(** The errors of the first loop are not successes. *)
Lemma check_player_ids_error ids check : check_player_ids ids check ≠ Some GS.success.
Proof. revert check. induction ids as [|id ids IH]; intros check; cbn; branches; done || apply IH. Qed.

Lemma place_players_other ids loc temp id :
  id ∉ ids → place_players ids loc temp !! id = temp !! id.
Proof.
  revert loc temp. induction ids as [|j ids IH]; intros loc temp Hid; cbn; [done|].
  apply not_elem_of_cons in Hid as [? ?]. rewrite IH by done. by rewrite lookup_insert_ne.
Qed.

Lemma place_players_lookup ids loc temp i id :
  NoDup ids → ids !! i = Some id →
  place_players ids loc temp !! id =
    Some (MkPlayerGameState id (loc + Z.of_nat i) 0 INITIAL_HP).
Proof.
  revert loc temp i. induction ids as [|j ids IH]; intros loc temp i; cbn; [done|].
  intros [Hj Hnd]%NoDup_cons Hi. destruct i as [|i]; cbn in Hi.
  - simplify_eq. rewrite place_players_other, lookup_insert_eq by done. by rewrite Z.add_0_r.
  - rewrite (IH _ _ i) by done. do 2 f_equal. lia.
Qed.

Lemma place_players_dom ids loc temp :
  dom (place_players ids loc temp) = list_to_set ids ∪ dom temp.
Proof.
  revert loc temp. induction ids as [|j ids IH]; intros loc temp; cbn.
  - by rewrite (left_id_L ∅ (∪)).
  - rewrite IH, dom_insert_L. set_solver.
Qed.

Lemma rank_perm ids ids' id : ids ≡ₚ ids' → rank ids id = rank ids' id.
Proof. intros Hp. unfold rank, zlen. by rewrite Hp. Qed.

Lemma rank_sorted l i id :
  StronglySorted (key_le (λ id, id) Z.le) l → NoDup l → l !! i = Some id →
  rank l id = Z.of_nat i.
Proof.
  unfold rank, zlen. intros Hs Hnd. revert i. induction Hs as [|j l Hs IH Hj]; intros i; [done|].
  apply NoDup_cons in Hnd as [Hn Hnd]. rewrite Forall_forall in Hj. unfold key_le in Hj.
  destruct i as [|i]; intros Hi; cbn in Hi.
  - simplify_eq. rewrite filter_cons_False by lia.
    assert (filter (λ j, j < id) l = []) as ->; [|done].
    apply list_eq. intros k. rewrite lookup_nil.
    destruct (filter (λ j, j < id) l !! k) as [z|] eqn:E; [|done].
    apply list_elem_of_lookup_2, list_elem_of_filter in E as [? Hz]. specialize (Hj z Hz). lia.
  - assert (Hin : id ∈ l) by (by eapply list_elem_of_lookup_2).
    assert (j ≠ id) by (intros ->; done). specialize (Hj id Hin).
    rewrite filter_cons_True by lia. cbn [length]. rewrite !Nat2Z.inj_succ, (IH Hnd i Hi). lia.
Qed.

Lemma initialize_success g ids g' :
  initialize g ids = (GS.success, g') ↔
    ids ≠ [] ∧ zlen ids <= MAX_PLAYERS ∧ NoDup ids ∧ Forall (λ id, id ≠ 0) ids ∧
    g' = MkGamestate (place_players (sort_on (λ id, id) Z.le ids) 0 ∅).
Proof.
  unfold initialize. case_bool_decide; [naive_solver|].
  destruct (Z.ltb_spec MAX_PLAYERS (zlen ids)); [naive_solver lia|].
  pose proof (check_player_ids_empty ids) as Hc.
  destruct (check_player_ids ids ∅) as [e|] eqn:E; [|naive_solver].
  split; [|naive_solver]. intros [= -> _]. by apply check_player_ids_error in E.
Qed.

(** ** The invariant *)

(** What the operations need of a property of players to keep it. *)
Class player_rules (P : PlayerGameState → Prop) : Prop := {
  rules_ok p : player_ok p → P p;
  rules_move p x y : P p → MIN_POSITION <= x <= MAX_POSITION →
    MIN_POSITION <= y <= MAX_POSITION → P (MkPlayerGameState (pg_player_id p) x y (pg_hp p));
  rules_attack p : P p → 0 < pg_hp p →
    P (MkPlayerGameState (pg_player_id p) (pg_x p) (pg_y p) (pg_hp p - ATTACK_DAMAGE))
}.

#[export] Instance player_ok_rules : player_rules player_ok.
Proof.
  split; [done| |].
  - intros p x y [???? ?] ??. split; cbn; (lia || done).
  - intros p [??? ? Ht] Hpos. apply Z.mod_divide in Ht as [k Hk]; [|done].
    split; cbn; try done; unfold ATTACK_DAMAGE, INITIAL_HP in *; [lia|].
    rewrite Hk. replace (k * 10 - 10) with ((k - 1) * 10) by lia. apply Z.mod_mul. lia.
Qed.

#[export] Instance player_bounds_rules : player_rules player_bounds.
Proof.
  split.
  - intros p [???? ?]. split; unfold ATTACK_DAMAGE; (done || lia).
  - intros p x y [????] ??. split; cbn; done.
  - intros p [????] Hpos. split; cbn; try done; unfold ATTACK_DAMAGE in *; lia.
Qed.

Section game_of.
Context (P : PlayerGameState → Prop) `{HP : !player_rules P}.

Lemma Gamestate_new_of : game_of P Gamestate_new.
Proof using P.
  split; cbn; [apply self_keyed_empty|apply map_Forall_empty|].
  unfold player_count. cbn. rewrite map_size_empty. done.
Qed.

(** What [initialize] leaves is within the rules; what it refuses is kept. *)
Lemma initialize_of g ids :
  game_of P g → Forall u64_range ids → game_of P (initialize g ids).2.
Proof using HP.
  intros Hg Hids. destruct (initialize g ids) as [st g'] eqn:E.
  destruct (decide (st = GS.success)) as [->|Hne].
  2: { unfold initialize in E. branches_in E; by simplify_eq. }
  apply initialize_success in E as (_ & Hlen & Hnd & Hnz & ->).
  set (l := sort_on (λ id, id) Z.le ids).
  assert (Hl : l ≡ₚ ids) by apply sort_on_perm.
  assert (Hndl : NoDup l) by (by rewrite Hl).
  assert (Hlk : ∀ id p, place_players l 0 ∅ !! id = Some p →
            ∃ i, l !! i = Some id ∧ p = MkPlayerGameState id (Z.of_nat i) 0 INITIAL_HP).
  { intros id p Hp. destruct (decide (id ∈ l)) as [Hin|Hout].
    - apply list_elem_of_lookup in Hin as [i Hi]. exists i. split; [done|].
      rewrite (place_players_lookup _ _ _ i) in Hp by done. by simplify_eq.
    - by rewrite place_players_other, lookup_empty in Hp. }
  assert (Hsize : zlen l <= MAX_PLAYERS) by (unfold zlen in *; by rewrite Hl).
  unfold zlen, MAX_PLAYERS in Hsize.
  rewrite Forall_forall in Hids, Hnz. split; cbn.
  - intros id p (i & _ & ->)%Hlk. done.
  - intros id p (i & Hi & ->)%Hlk. apply rules_ok.
    pose proof (lookup_lt_Some _ _ _ Hi) as Hb.
    apply list_elem_of_lookup_2 in Hi. rewrite Hl in Hi.
    specialize (Hids id Hi). specialize (Hnz id Hi). unfold u64_range in Hids.
    split; cbn; unfold MIN_POSITION, MAX_POSITION, INITIAL_HP; (lia || done).
  - unfold player_count, MAX_PLAYERS. cbn.
    rewrite <-size_dom, place_players_dom, dom_empty_L, (right_id_L ∅ (∪)).
    rewrite size_list_to_set by done. lia.
Qed.

Lemma update_player_of g id p q :
  game_of P g → players_ g !! id = Some p → pg_player_id q = pg_player_id p → (P p → P q) →
  game_of P (MkGamestate (<[id := q]> (players_ g))).
Proof using P.
  intros [Hk Hp Hs] Hid Hq Hok. split; cbn.
  - apply self_keyed_insert; [done|]. rewrite Hq. by apply Hk.
  - apply map_Forall_insert_2; [|done]. exact (Hok (Hp _ _ Hid)).
  - unfold player_count in *. cbn. rewrite map_size_insert_Some by done. done.
Qed.

Lemma remove_player_of g id : game_of P g → game_of P (remove_player g id).2.
Proof using P.
  intros Hg. unfold remove_player. branches. destruct Hg as [Hk Hp Hs]. split; cbn.
  - by apply self_keyed_delete.
  - by apply map_Forall_delete.
  - unfold player_count in *. cbn. rewrite map_size_delete_Some by done. lia.
Qed.

Lemma move_player_of g id dx dy : game_of P g → game_of P (move_player g id dx dy).2.
Proof using HP.
  intros Hg. unfold move_player. branches. to_prop. cbn [snd].
  eapply update_player_of; [done..|]. intros Hok. apply rules_move; (done || lia).
Qed.

Lemma attack_player_of g a t : game_of P g → game_of P (attack_player g a t).2.
Proof using HP.
  intros Hg. unfold attack_player. branches. to_prop. cbn [snd].
  eapply update_player_of; [done..|]. intros Hok. apply rules_attack; (done || lia).
Qed.
End game_of.

Lemma Gamestate_new_inv : game_inv Gamestate_new.
Proof. apply Gamestate_new_of. Qed.
Lemma initialize_inv g ids :
  game_inv g → Forall u64_range ids → game_inv (initialize g ids).2.
Proof. apply (initialize_of player_ok). Qed.
Lemma remove_player_inv g id : game_inv g → game_inv (remove_player g id).2.
Proof. apply remove_player_of. Qed.
Lemma move_player_inv g id dx dy : game_inv g → game_inv (move_player g id dx dy).2.
Proof. apply (move_player_of player_ok). Qed.
Lemma attack_player_inv g a t : game_inv g → game_inv (attack_player g a t).2.
Proof. apply (attack_player_of player_ok). Qed.

Lemma game_inv_bounds g : game_inv g → game_bounds g.
Proof.
  intros [Hk Hp Hs]. split; [done| |done]. intros id p Hid.
  by apply rules_ok, (Hp id).
Qed.

(** Who plays. *)
Lemma initialize_dom g ids g' :
  initialize g ids = (GS.success, g') → dom (players_ g') = list_to_set ids.
Proof.
  intros (_ & _ & _ & _ & ->)%initialize_success. cbn.
  rewrite place_players_dom, dom_empty_L, (right_id_L ∅ (∪)). apply list_to_set_perm_L, sort_on_perm.
Qed.

Lemma update_dom (m : gmap Z PlayerGameState) id p q :
  m !! id = Some p → dom (<[id := q]> m) = dom m.
Proof. intros Hid. apply dom_insert_lookup_L. by eexists. Qed.

Lemma move_player_dom g id dx dy : dom (players_ (move_player g id dx dy).2) = dom (players_ g).
Proof. unfold move_player. branches. cbn. by eapply update_dom. Qed.

Lemma attack_player_dom g a t : dom (players_ (attack_player g a t).2) = dom (players_ g).
Proof. unfold attack_player. branches. cbn. by eapply update_dom. Qed.

Lemma remove_player_member g id :
  id ≠ 0 → id ∈ dom (players_ g) →
  remove_player g id = (GS.success, MkGamestate (delete id (players_ g))).
Proof.
  intros Hid [p Hp]%elem_of_dom. unfold remove_player. rewrite Hp.
  by rewrite (proj2 (Z.eqb_neq _ _)).
Qed.

#[export] Hint Resolve Gamestate_new_inv initialize_inv remove_player_inv
  move_player_inv attack_player_inv : lw_wf.

(** ** Functional behaviour *)

(** Where [initialize] puts every player. *)
Lemma initialize_lookup g ids g' id :
  initialize g ids = (GS.success, g') →
  players_ g' !! id =
    if bool_decide (id ∈ ids) then Some (MkPlayerGameState id (rank ids id) 0 INITIAL_HP) else None.
Proof.
  intros (_ & _ & Hnd & _ & ->)%initialize_success. cbn.
  pose proof (sort_on_perm (λ id, id) Z.le ids) as Hl.
  assert (Hndl : NoDup (sort_on (λ id, id) Z.le ids)) by (by rewrite Hl).
  case_bool_decide as Hin.
  - rewrite <-Hl in Hin. apply list_elem_of_lookup in Hin as [i Hi].
    rewrite (place_players_lookup _ _ _ i) by done. rewrite <-(rank_perm _ _ _ Hl).
    pose proof (sort_on_sorted (λ id, id) Z.le ids) as Hs. by rewrite (rank_sorted _ i).
  - rewrite place_players_other, lookup_empty; [done|]. by rewrite Hl.
Qed.

(** [initialize] succeeds exactly on a non-empty list of at most 101 distinct
    non-zero ids, whatever the previous state; the player with the [k]-th
    smallest id then stands at [(k, 0)] with full health, and nobody else
    plays. On failure the state is untouched. *)
Theorem initialize_spec (g : Gamestate) (ids : list Z) :
  let '(st, g') := initialize g ids in
  (st = GS.success ↔ ids ≠ [] ∧ zlen ids <= MAX_PLAYERS ∧ NoDup ids ∧ 0 ∉ ids) ∧
  (if bool_decide (st = GS.success) then
     ∀ id, players_ g' !! id =
       if bool_decide (id ∈ ids) then Some (MkPlayerGameState id (rank ids id) 0 INITIAL_HP)
       else None
   else g' = g).
Proof.
  destruct (initialize g ids) as [st g'] eqn:E.
  assert (Hz : Forall (λ id, id ≠ 0) ids ↔ 0 ∉ ids).
  { rewrite Forall_forall. naive_solver. }
  split.
  - rewrite <-Hz. split.
    + intros ->. apply initialize_success in E. tauto.
    + intros (? & ? & ? & ?).
      assert (initialize g ids = (GS.success, MkGamestate (place_players (sort_on (λ id, id) Z.le ids) 0 ∅)))
        as Hs by (by apply initialize_success).
      congruence.
  - case_bool_decide as Hst; [|unfold initialize in E; branches_in E; by simplify_eq].
    subst st. intros id. by apply (initialize_lookup g).
Qed.

(** A move succeeds exactly when the player plays, the step is one cell up,
    down, left or right and stays on the board; then the player is one cell
    further and nothing else changes. Otherwise nothing changes at all. *)
Theorem move_player_spec (g : Gamestate) (id dx dy : Z) :
  let '(st, g') := move_player g id dx dy in
  (st = GS.success ↔ id ≠ 0 ∧ Z.abs dx + Z.abs dy = 1 ∧ ∃ p, players_ g !! id = Some p ∧
     MIN_POSITION <= pg_x p + dx <= MAX_POSITION ∧ MIN_POSITION <= pg_y p + dy <= MAX_POSITION) ∧
  (if bool_decide (st = GS.success) then
     ∃ p, players_ g !! id = Some p ∧
       players_ g' = <[id := MkPlayerGameState (pg_player_id p) (pg_x p + dx) (pg_y p + dy) (pg_hp p)]>
                       (players_ g)
   else g' = g).
Proof.
  unfold move_player. destruct (Z.eqb_spec id 0); [naive_solver|].
  destruct (players_ g !! id) as [p|] eqn:Hp; [|naive_solver].
  case_test Hv.
  { split; [|done]. split; [done|]. intros (_ & Hd & _). exfalso. to_prop. lia. }
  case_test Hb.
  { split; [|done]. split; [done|]. intros (_ & _ & q & Hq & ?). simplify_eq. exfalso.
    to_prop. lia. }
  split; [|by exists p]. split; [intros _|done]. to_prop.
  split_and!; [done| |exists p; split_and!; [done|lia..]].
  lia.
Qed.

(** The attacker and the target of an attack that lands. *)
Definition in_reach (p q : PlayerGameState) : Prop :=
  Z.abs (pg_x p - pg_x q) + Z.abs (pg_y p - pg_y q) <= 1.
Definition attack_lands (g : Gamestate) (a t : Z) (p q : PlayerGameState) : Prop :=
  a ≠ 0 ∧ t ≠ 0 ∧ a ≠ t ∧ players_ g !! a = Some p ∧ players_ g !! t = Some q ∧
  0 < pg_hp p ∧ 0 < pg_hp q ∧ in_reach p q.
Definition set_hp (q : PlayerGameState) (hp : Z) : PlayerGameState :=
  MkPlayerGameState (pg_player_id q) (pg_x q) (pg_y q) hp.

Lemma attack_player_lands g a t p q :
  attack_lands g a t p q →
  attack_player g a t =
    (MkAttackresult GS.success a t (pg_hp q - ATTACK_DAMAGE) (pg_hp q - ATTACK_DAMAGE <=? 0),
     MkGamestate (<[t := set_hp q (pg_hp q - ATTACK_DAMAGE)]> (players_ g))).
Proof.
  intros (Ha & Ht & Hat & Hp & Hq & Hlp & Hlq & Hr). unfold attack_player, in_reach in *.
  rewrite (proj2 (Z.eqb_neq a 0)), (proj2 (Z.eqb_neq t 0)), (proj2 (Z.eqb_neq a t)) by done.
  cbn [orb]. rewrite Hp, Hq, !(proj2 (Z.leb_gt _ 0)) by done.
  destruct (Z.ltb_spec 1 (Z.abs (pg_x p - pg_x q) + Z.abs (pg_y p - pg_y q))); [lia|done].
Qed.

Lemma attack_player_cases g a t :
  (∃ p q, attack_lands g a t p q) ∨
  (∃ st, st ≠ GS.success ∧ attack_player g a t = (MkAttackresult st a t 0 false, g)
     ∧ ∀ p q, ¬ attack_lands g a t p q).
Proof.
  assert (Hfail : ∀ st, st ≠ GS.success → attack_player g a t = (MkAttackresult st a t 0 false, g) →
    (∃ st, st ≠ GS.success ∧ attack_player g a t = (MkAttackresult st a t 0 false, g)
     ∧ ∀ p q, ¬ attack_lands g a t p q)).
  { intros st Hst He. exists st. split_and!; [done..|]. intros p q Hl.
    rewrite (attack_player_lands _ _ _ _ _ Hl) in He. congruence. }
  unfold attack_player at 1 in Hfail.
  destruct (Z.eqb_spec a 0); [right; by (eapply Hfail; [|reflexivity])|].
  destruct (Z.eqb_spec t 0); [right; by (eapply Hfail; [|reflexivity])|].
  destruct (Z.eqb_spec a t); [right; by (eapply Hfail; [|reflexivity])|]. cbn [orb] in Hfail.
  destruct (players_ g !! a) as [p|] eqn:Hp; [|right; by (eapply Hfail; [|reflexivity])].
  destruct (players_ g !! t) as [q|] eqn:Hq; [|right; by (eapply Hfail; [|reflexivity])].
  destruct (Z.leb_spec (pg_hp p) 0); [right; by (eapply Hfail; [|reflexivity])|].
  destruct (Z.leb_spec (pg_hp q) 0); [right; by (eapply Hfail; [|reflexivity])|].
  destruct (Z.ltb_spec 1 (Z.abs (pg_x p - pg_x q) + Z.abs (pg_y p - pg_y q)));
    [right; by (eapply Hfail; [|reflexivity])|].
  left. exists p, q. unfold attack_lands, in_reach. split_and!; done || lia.
Qed.

(** An attack succeeds exactly when attacker and target are two different
    players, both alive, on the same or on neighbouring cells. Then the target
    alone loses ten points, the result reports what is left and whether that
    eliminates it. In every other case nothing changes and the result carries
    no damage. *)
Theorem attack_player_spec (g : Gamestate) (a t : Z) :
  let '(r, g') := attack_player g a t in
  ar_attacker_id r = a ∧ ar_target_player_id r = t ∧
  (ar_state r = GS.success ↔ ∃ p q, attack_lands g a t p q) ∧
  (if bool_decide (ar_state r = GS.success) then
     ∃ q, players_ g !! t = Some q ∧
       players_ g' = <[t := set_hp q (pg_hp q - ATTACK_DAMAGE)]> (players_ g) ∧
       ar_remaining_hp r = pg_hp q - ATTACK_DAMAGE ∧
       (ar_target_eliminated r = true ↔ pg_hp q <= ATTACK_DAMAGE)
   else g' = g ∧ ar_remaining_hp r = 0 ∧ ar_target_eliminated r = false).
Proof.
  destruct (attack_player_cases g a t) as [(p & q & Hl)|(st & Hst & -> & Hno)].
  - rewrite (attack_player_lands _ _ _ _ _ Hl). cbn. split_and!; [done..| |].
    + split; [intros _; by exists p, q|done].
    + exists q. split_and!; [apply Hl|done..|]. rewrite Z.leb_le. unfold ATTACK_DAMAGE. lia.
  - cbn. split_and!; [done..| |].
    + split; [done|]. intros (p & q & Hl). by apply Hno in Hl.
    + by rewrite bool_decide_false.
Qed.

Lemma attack_lands_again g a t p q hp :
  attack_lands g a t p q → 0 < hp →
  attack_lands (MkGamestate (<[t := set_hp q hp]> (players_ g))) a t p (set_hp q hp).
Proof.
  intros (? & ? & ? & ? & ? & ? & ? & ?) ?. unfold attack_lands. cbn.
  rewrite lookup_insert_eq, lookup_insert_ne by done. done.
Qed.

(** A target with [hp] points left takes one more attack. *)
Lemma attack_player_again g a t p q hp :
  attack_lands g a t p q →
  attack_player (MkGamestate (<[t := set_hp q hp]> (players_ g))) a t =
    if 0 <? hp
    then (MkAttackresult GS.success a t (hp - ATTACK_DAMAGE) (hp - ATTACK_DAMAGE <=? 0),
          MkGamestate (<[t := set_hp q (hp - ATTACK_DAMAGE)]> (players_ g)))
    else (MkAttackresult GS.target_dead a t 0 false,
          MkGamestate (<[t := set_hp q hp]> (players_ g))).
Proof.
  intros Hl. destruct (Z.ltb_spec 0 hp) as [Hhp|Hhp].
  - rewrite (attack_player_lands _ _ _ _ _ (attack_lands_again _ _ _ _ _ _ Hl Hhp)). cbn.
    by rewrite insert_insert_eq.
  - destruct Hl as (Ha & Ht & Hat & Hp & Hq & Hlp & Hlq & Hr). unfold attack_player. cbn.
    rewrite (proj2 (Z.eqb_neq a 0)), (proj2 (Z.eqb_neq t 0)), (proj2 (Z.eqb_neq a t)) by done.
    rewrite lookup_insert_ne, Hp, lookup_insert_eq by done. cbn.
    rewrite (proj2 (Z.leb_gt _ 0)), (proj2 (Z.leb_le hp 0)) by done. done.
Qed.

(** A player with [10 k] health points in reach of a living attacker survives
    [k - 1] attacks, is eliminated by exactly the [k]-th, and cannot be
    attacked any further. *)
Theorem attack_eliminates (g : Gamestate) (a t : Z) (p q : PlayerGameState) (k : Z) (n : nat) :
  attack_lands g a t p q → pg_hp q = ATTACK_DAMAGE * k → (0 < n)%nat →
  attack_times n g a t =
    (Some (if Z.of_nat n <=? k
           then MkAttackresult GS.success a t (ATTACK_DAMAGE * (k - Z.of_nat n)) (Z.of_nat n =? k)
           else MkAttackresult GS.target_dead a t 0 false),
     MkGamestate (<[t := set_hp q (ATTACK_DAMAGE * Z.max 0 (k - Z.of_nat n))]> (players_ g))).
Proof.
  intros Hl Hk Hn. destruct n as [|m]; [lia|]. clear Hn. unfold ATTACK_DAMAGE in *.
  assert (Hkpos : 0 < k) by (destruct Hl as (_ & _ & _ & _ & _ & _ & ? & _); lia).
  assert (Hst : (attack_times m g a t).2 =
    MkGamestate (<[t := set_hp q (10 * Z.max 0 (k - Z.of_nat m))]> (players_ g))).
  { induction m as [|m IH].
    - rewrite Z.sub_0_r, Z.max_r, <-Hk by lia. destruct q. cbn.
      rewrite insert_id by apply Hl. by destruct g.
    - cbn [attack_times]. destruct (attack_times m g a t) as [r g1]. cbn in IH. subst g1.
      rewrite (attack_player_again _ _ _ _ _ _ Hl). unfold ATTACK_DAMAGE.
      destruct (Z.ltb_spec 0 (10 * Z.max 0 (k - Z.of_nat m))); cbn [snd]; do 3 f_equal; lia. }
  cbn [attack_times]. destruct (attack_times m g a t) as [r g1]. cbn in Hst. subst g1.
  rewrite (attack_player_again _ _ _ _ _ _ Hl). unfold ATTACK_DAMAGE.
  destruct (Z.ltb_spec 0 (10 * Z.max 0 (k - Z.of_nat m))),
    (Z.leb_spec (Z.of_nat (S m)) k); try lia.
  - replace (10 * Z.max 0 (k - Z.of_nat m) - 10) with (10 * (k - Z.of_nat (S m))) by lia.
    rewrite (Z.max_r 0 (k - Z.of_nat (S m))) by lia. do 3 f_equal.
    destruct (Z.leb_spec (10 * (k - Z.of_nat (S m))) 0), (Z.eqb_spec (Z.of_nat (S m)) k);
      (done || lia).
  - by rewrite !Z.max_l by lia.
Qed.

Definition duel : Gamestate := (initialize Gamestate_new [1; 2]).2.

Lemma attack_eliminates_witness :
  ∃ r g, attack_times 10 duel 1 2 = (Some r, g) ∧ ar_target_eliminated r = true.
Proof.
  eexists _, _. split.
  - eapply (attack_eliminates duel 1 2 (MkPlayerGameState 1 0 0 100)
      (MkPlayerGameState 2 1 0 100) 10 10); [|reflexivity|lia].
    unfold attack_lands, in_reach. cbn. split_and!; (reflexivity || lia).
  - reflexivity.
Defined.

(** ** Snapshot and restoration *)

(** What [restore] accepts of one player. *)
Definition restorable (p : PlayerGameState) : Prop :=
  pg_player_id p ≠ 0 ∧ MIN_POSITION <= pg_x p <= MAX_POSITION ∧
  MIN_POSITION <= pg_y p <= MAX_POSITION ∧ 0 <= pg_hp p <= INITIAL_HP.

Lemma restore_loop_spec states pre m :
  NoDup (pg_player_id <$> pre) →
  restore_loop states (index_by pg_player_id pre) = Some m ↔
    Forall restorable states ∧ NoDup (pg_player_id <$> (pre ++ states)) ∧
    m = index_by pg_player_id (pre ++ states).
Proof.
  revert pre. induction states as [|p states IH]; intros pre Hpre; cbn [restore_loop].
  - rewrite app_nil_r. naive_solver.
  - rewrite Forall_cons. replace (pre ++ p :: states) with ((pre ++ [p]) ++ states)
      by (by rewrite <-app_assoc).
    pose proof (fmap_dup pg_player_id pre p states) as Hdup.
    pose proof (index_by_lookup_is_Some pg_player_id pre (pg_player_id p)) as Hin.
    unfold restorable at 1. destruct (Z.eqb_spec (pg_player_id p) 0); [naive_solver|].
    destruct (index_by pg_player_id pre !! pg_player_id p) eqn:Hl.
    { split; [done|]. intros (_ & Hnd & _). exfalso. apply Hdup; [|done]. by apply Hin. }
    case_test Hpos; [split; [done|]; intros [[Hr _] _]; exfalso; to_prop; lia|].
    case_test Hhp; [split; [done|]; intros [[Hr _] _]; exfalso; to_prop; lia|].
    assert (Hnin : pg_player_id p ∉ pg_player_id <$> pre).
    { rewrite <-Hin. by intros [? ?]. }
    rewrite <-index_by_snoc by done. rewrite IH.
    + to_prop. split; [|naive_solver]. intros (? & ? & ?). split_and!; (done || lia).
    + by apply fmap_snoc_NoDup.
Qed.

(** [restore] is all or nothing: it accepts exactly the lists of at most 101
    players with distinct non-zero ids, positions on the board and a health
    between 0 and 100, and then the game consists of exactly these players;
    any other list leaves the game as it was. *)
Theorem restore_spec (g : Gamestate) (states : list PlayerGameState) :
  let '(ok, g') := restore g states in
  (ok = true ↔ zlen states <= MAX_PLAYERS ∧ Forall restorable states ∧
     NoDup (pg_player_id <$> states)) ∧
  (if ok then ∀ id p, players_ g' !! id = Some p ↔ p ∈ states ∧ pg_player_id p = id
   else g' = g).
Proof.
  unfold restore. destruct (Z.ltb_spec MAX_PLAYERS (zlen states)).
  { split; [|done]. split; [done|]. lia. }
  destruct (restore_loop states ∅) as [m|] eqn:E.
  - apply (restore_loop_spec states [] m) in E as (? & Hnd & ->); [|by constructor].
    split; [done|]. intros id p. by apply index_by_lookup.
  - split; [|done]. split; [done|]. intros (_ & Hr & Hnd).
    assert (restore_loop states ∅ = Some (index_by pg_player_id states)) as Hs.
    { apply (restore_loop_spec states []); [by constructor|done]. }
    congruence.
Qed.

(** What [restore] accepts is as good as the players it is given. *)
Lemma restore_of (P : PlayerGameState → Prop) g states :
  game_of P g → (∀ p, p ∈ states → restorable p → P p) → game_of P (restore g states).2.
Proof.
  intros Hg Hst. unfold restore. destruct (Z.ltb_spec MAX_PLAYERS (zlen states)); [done|].
  destruct (restore_loop states ∅) as [m|] eqn:E; [|done]. cbn.
  apply (restore_loop_spec states [] m) in E as (Hr & Hnd & ->); [|by constructor]. cbn [app] in *.
  assert (Hlk : ∀ id p, index_by pg_player_id states !! id = Some p →
    p ∈ states ∧ pg_player_id p = id) by (intros id p; by apply index_by_lookup).
  rewrite Forall_forall in Hr. split; cbn.
  - by intros id p [_ ?]%Hlk.
  - intros id p [Hin _]%Hlk. apply Hst; [done|by apply Hr].
  - unfold player_count, zlen in *. cbn. rewrite index_by_size by done. done.
Qed.

Lemma restorable_bounds p : u64_range (pg_player_id p) → restorable p → player_bounds p.
Proof.
  unfold u64_range, restorable, ATTACK_DAMAGE. intros ? (? & ? & ? & ?).
  split; unfold ATTACK_DAMAGE; lia.
Qed.

Lemma restorable_ok p :
  u64_range (pg_player_id p) → pg_hp p mod ATTACK_DAMAGE = 0 → restorable p → player_ok p.
Proof. unfold u64_range, restorable. intros ? ? (? & ? & ? & ?). split; (done || lia). Qed.

Lemma apply_op_of P `{!player_rules P} op g :
  game_op_ok op →
  (∀ states p, op = Restore states → p ∈ states → restorable p → P p) →
  game_of P g → game_of P (apply_op g op).
Proof.
  intros Hop Hre Hg. destruct op; cbn in *.
  - by apply initialize_of.
  - by apply remove_player_of.
  - by apply move_player_of.
  - by apply attack_player_of.
  - apply restore_of; [done|]. intros p. by apply Hre.
Qed.

(** C32: Whatever the game is asked to do, in whatever order, restoring included,
    every player stays on the board with a health above [-10] and at most 100,
    ids stay non-zero 64-bit numbers that agree with their keys, and there are
    at most 101 players: none of the 32-bit coordinates or health values
    overflows. When every restored health is a multiple of the damage of one
    attack, as it is in every snapshot of a match that was never restored from
    anything else, health also never goes below zero and stays such a
    multiple. *)
Theorem run_ops_inv (ops : list game_op) (g : Gamestate) :
  Forall game_op_ok ops →
  (game_bounds g → game_bounds (run_ops g ops)) ∧
  (game_inv g → Forall restores_tens ops → game_inv (run_ops g ops)).
Proof.
  intros Hops. unfold run_ops. revert g.
  induction Hops as [|op ops Hop _ IH]; intros g; cbn; [done|]. specialize (IH (apply_op g op)).
  destruct IH as [IHb IHi]. split; intros Hg.
  - apply IHb, apply_op_of; [apply _|done| |done].
    intros states p -> Hin Hr. apply restorable_bounds; [|done].
    cbn in Hop. rewrite Forall_forall in Hop. by apply Hop.
  - intros [Ht Hts]%Forall_cons. apply IHi; [|done].
    apply apply_op_of; [apply _|done| |done].
    intros states p -> Hin Hr. cbn in Hop, Ht. rewrite Forall_forall in Hop, Ht.
    by apply restorable_ok; [apply Hop|apply Ht|].
Qed.

(** A restored health of 5, hit once, is within the wide bounds only. *)
Definition odd_health : list game_op :=
  [Initialize [7; 3]; Attack 3 7;
   Restore [MkPlayerGameState 1 0 0 5; MkPlayerGameState 2 1 0 100]; Attack 2 1].

Lemma run_ops_inv_witness :
  game_inv (run_ops Gamestate_new [Initialize [7; 3]; Attack 3 7; Move 7 1 0; Remove 3;
    Restore [MkPlayerGameState 5 1 2 30]; Attack 5 7]) ∧
  game_bounds (run_ops Gamestate_new odd_health) ∧
  pg_hp <$> player_state (run_ops Gamestate_new odd_health) 1 = Some (-5).
Proof.
  split_and!.
  - apply run_ops_inv; [|apply Gamestate_new_inv|];
      repeat constructor; vm_compute; (reflexivity || discriminate).
  - apply run_ops_inv; [|apply game_inv_bounds, Gamestate_new_inv];
      repeat constructor; vm_compute; (reflexivity || discriminate).
  - reflexivity.
Defined.

Section snapshot.
Context {ho : HashOrder}.

Lemma snapshot_perm g : snapshot g ≡ₚ hash_values (players_ g).
Proof. apply sort_on_perm. Qed.

Lemma elem_of_snapshot g p :
  self_keyed pg_player_id (players_ g) →
  p ∈ snapshot g ↔ players_ g !! pg_player_id p = Some p.
Proof.
  intros Hk. rewrite snapshot_perm, elem_of_hash_values. split; [|by eexists].
  intros [k Hp]. by rewrite (Hk _ _ Hp).
Qed.

Lemma snapshot_length g : zlen (snapshot g) = player_count g.
Proof. unfold zlen, snapshot, player_count. by rewrite sort_on_length, hash_values_length. Qed.

Lemma snapshot_NoDup g :
  self_keyed pg_player_id (players_ g) → NoDup (pg_player_id <$> snapshot g).
Proof. intros Hk. rewrite snapshot_perm. by apply hash_values_NoDup_key. Qed.

Lemma snapshot_restorable g :
  map_Forall (λ _ p, restorable p) (players_ g) → Forall restorable (snapshot g).
Proof.
  intros Hg. apply Forall_forall. intros p. rewrite snapshot_perm, elem_of_hash_values.
  intros [k Hk]. by apply (Hg k).
Qed.

Lemma restore_loop_snapshot g :
  self_keyed pg_player_id (players_ g) → map_Forall (λ _ p, restorable p) (players_ g) →
  restore_loop (snapshot g) ∅ = Some (players_ g).
Proof.
  intros Hk Hr. apply (restore_loop_spec (snapshot g) []); [by constructor|].
  split_and!; [by apply snapshot_restorable|by apply snapshot_NoDup|]. cbn [app].
  rewrite (index_by_perm _ _ _ (snapshot_NoDup g Hk) (snapshot_perm g)).
  by rewrite index_by_hash_values.
Qed.

Lemma player_ok_restorable p : player_ok p → restorable p.
Proof. intros [? ? ? ? _]. unfold restorable. split_and!; lia. Qed.

Lemma game_inv_restorable g : game_inv g → map_Forall (λ _ p, restorable p) (players_ g).
Proof. intros [_ Hp _] k p Hk. by apply player_ok_restorable, (Hp k). Qed.

(** Restoring the snapshot of any reachable game gives that game back, whatever
    was there before and in whatever order the hash table yields its players;
    the snapshot lists every player once, in ascending order of ids. *)
Theorem restore_snapshot (g g0 : Gamestate) :
  game_inv g →
  restore g0 (snapshot g) = (true, g) ∧
  StronglySorted (key_le pg_player_id Z.le) (snapshot g) ∧
  (∀ p, p ∈ snapshot g ↔ players_ g !! pg_player_id p = Some p).
Proof.
  intros Hg. pose proof Hg as [Hk Hp Hs]. split_and!.
  - unfold restore. rewrite snapshot_length, (proj2 (Z.ltb_ge _ _)) by done.
    rewrite restore_loop_snapshot by (done || by apply game_inv_restorable). by destruct g.
  - apply (sort_on_sorted pg_player_id Z.le).
  - intros p. by apply elem_of_snapshot.
Qed.
End snapshot.

Lemma restore_snapshot_witness :
  restore Gamestate_new (@snapshot canonical_order duel) = (true, duel).
Proof.
  apply (@restore_snapshot canonical_order duel Gamestate_new).
  apply initialize_inv; [apply Gamestate_new_inv|].
  repeat constructor; vm_compute; (reflexivity || discriminate).
Defined.

(** Health that is not a multiple of the damage, which [restore] admits, ends
    below zero, where no later [restore] admits it. *)
Example restored_health_underflows :
  let g := (restore Gamestate_new [MkPlayerGameState 1 0 0 5; MkPlayerGameState 2 1 0 100]).2 in
  let g' := (attack_player g 2 1).2 in
  pg_hp <$> player_state g' 1 = Some (-5) ∧
  (restore Gamestate_new (snapshot (ho := canonical_order) g')).1 = false.
Proof. vm_compute. done. Qed.
