(* ===== verification/Protocol.v ===== *)
(** [src/src/protocol.cpp] and [src/include/protocol.h]: message types, error
    codes, the decoders of client requests and the encoders of server replies
    and events. *)

From S2P Require Import Prelude Bytes Buffer Codec GameState RoomStateMachine.

Module MessageType.
Inductive t : Type :=
| join | leave | chat | move | attack | heartbeat | resume
| join_ok | player_joined | leave_ok | player_left | chat_event
| state_snapshot | error | heartbeat_ack | resume_ok.

#[global] Instance t_eq_dec : EqDecision t.
Proof. solve_decision. Defined.

(** The underlying [std::uint16_t]. *)
Definition value (m : t) : Z :=
  match m with
  | join => 1 | leave => 2 | chat => 3 | move => 4 | attack => 5 | heartbeat => 6
  | resume => 7 | join_ok => 101 | player_joined => 102 | leave_ok => 103
  | player_left => 104 | chat_event => 105 | state_snapshot => 106 | error => 107
  | heartbeat_ack => 108 | resume_ok => 109
  end.

Definition all : list t :=
  [join; leave; chat; move; attack; heartbeat; resume; join_ok; player_joined; leave_ok;
   player_left; chat_event; state_snapshot; error; heartbeat_ack; resume_ok].

(** [static_cast<MessageType>(type)], with [None] for a number that names no
    enumerator and so reaches the [default] of every [switch]. *)
Definition of_value (z : Z) : option t := list_find (λ m, value m = z) all ≫= λ '(_, m), Some m.
End MessageType.

Module ErrorCode.
Inductive t : Type :=
| room_not_found | room_full | already_in_room | not_in_room | invalid_player_name
| invalid_message | player_id_exhausted | room_not_joinable | room_not_running
| already_submitted | invalid_token | session_online | session_expired | resume_failed.

#[global] Instance t_eq_dec : EqDecision t.
Proof. solve_decision. Defined.

Definition value (e : t) : Z :=
  match e with
  | room_not_found => 1 | room_full => 2 | already_in_room => 3 | not_in_room => 4
  | invalid_player_name => 5 | invalid_message => 6 | player_id_exhausted => 7
  | room_not_joinable => 8 | room_not_running => 9 | already_submitted => 10
  | invalid_token => 11 | session_online => 12 | session_expired => 13
  | resume_failed => 14
  end.
End ErrorCode.

(** * Definitions *)

Record JoinRequest : Type := MkJoinRequest { jr_room_id : Z; jr_player_name : bytes }.
Record ChatRequest : Type := MkChatRequest { cr_message : bytes }.
Record MoveRequest : Type := MkMoveRequest { mr_dx : Z; mr_dy : Z }.
Record AttackRequest : Type := MkAttackRequest { ar_target : Z }.
Record HeartbeatRequest : Type := MkHeartbeatRequest { hr_seq : Z }.
Record ResumeRequest : Type := MkResumeRequest { rr_token : bytes }.
Record MemberInfo : Type := MkMemberInfo { mi_player_id : Z; mi_player_name : bytes }.

#[export] Instance MemberInfo_eq_dec : EqDecision MemberInfo.
Proof. solve_decision. Defined.

Definition MAX_PLAYER_NAME_SIZE : Z := 32.
Definition MAX_CHAT_MESSAGE_SIZE : Z := 1024.
Definition MAX_TOKEN_SIZE : Z := 128.

(** ** Reading and writing integers *)

(** [offset > data.size() || data.size() - offset < n] *)
Definition out_of_range (data : bytes) (offset n : nat) : bool :=
  ((length data <? offset) || (length data - offset <? n))%nat.

Definition read_u16 (data : bytes) (offset : nat) : option Z :=
  if out_of_range data offset 2 then None
  else Some (ntohs (mem_load (take 2 (drop offset data)))).

Definition read_u32 (data : bytes) (offset : nat) : option Z :=
  if out_of_range data offset 4 then None
  else Some (ntohl (mem_load (take 4 (drop offset data)))).

Definition read_i32 (data : bytes) (offset : nat) : option Z :=
  raw_value ← read_u32 data offset;
  if raw_value <=? 2 ^ 31 - 1 then Some raw_value
  else let magnitude := 2 ^ 32 - 1 - raw_value in Some (-1 - magnitude).

Definition read_u64 (data : bytes) (offset : nat) : option Z :=
  if out_of_range data offset 8 then None
  else
    high ← read_u32 data offset;
    low ← read_u32 data (offset + 4);
    Some (Z.lor (wrap64 (Z.shiftl high 32)) low).

Definition append_u16 (data : bytes) (value : Z) : bytes := data ++ mem_store 2 (htons value).
Definition append_u32 (data : bytes) (value : Z) : bytes := data ++ mem_store 4 (htonl value).
Definition append_u64 (data : bytes) (value : Z) : bytes :=
  let high := wrap32 (Z.shiftr value 32) in
  let low := wrap32 (Z.land value 0xffffffff) in
  append_u32 (append_u32 data high) low.
Definition append_i32 (data : bytes) (value : Z) : bytes :=
  data ++ mem_store 4 (htonl (to_u32 value)).

(** ** Requests; [None] is the result [false], which leaves [request] alone *)

Definition decode_join_request (payload : bytes) : option JoinRequest :=
  room_id ← read_u32 payload 0;
  name_size ← read_u16 payload 4;
  let offest := 6%nat in
  if negb (Z.of_nat (length payload - offest) =? name_size) then None
  else Some (MkJoinRequest room_id (take (Z.to_nat name_size) (drop offest payload))).

Definition decode_leave_request (payload : bytes) : bool := bool_decide (payload = []).

Definition decode_chat_request (payload : bytes) : option ChatRequest :=
  message_size ← read_u16 payload 0;
  let offest := 2%nat in
  if negb (Z.of_nat (length payload - offest) =? message_size) then None
  else Some (MkChatRequest (take (Z.to_nat message_size) (drop offest payload))).

Definition decode_move_request (payload : bytes) : option MoveRequest :=
  if negb (zlen payload =? 8) then None
  else
    dx ← read_i32 payload 0;
    dy ← read_i32 payload 4;
    Some (MkMoveRequest dx dy).

Definition decode_attack_request (payload : bytes) : option AttackRequest :=
  if negb (zlen payload =? 8) then None
  else target_player_id ← read_u64 payload 0; Some (MkAttackRequest target_player_id).

Definition decode_heartbeat_request (payload : bytes) : option HeartbeatRequest :=
  if negb (zlen payload =? 8) then None
  else seq ← read_u64 payload 0; Some (MkHeartbeatRequest seq).

Definition decode_resume_request (payload : bytes) : option ResumeRequest :=
  token_size ← read_u16 payload 0;
  let offset := 2%nat in
  if (token_size =? 0) || (MAX_TOKEN_SIZE <? token_size)
     || negb (Z.of_nat (length payload - offset) =? token_size) then None
  else Some (MkResumeRequest (take (Z.to_nat token_size) (drop offset payload))).

(** ** Replies and events; [None] is the result [false] with an empty [payload] *)

(** The test of a name (or of a message) against its maximum length. *)
Definition bad_size (s : bytes) (max : Z) : bool := bool_decide (s = []) || (max <? zlen s).

Definition members_ok (members : list MemberInfo) : bool :=
  forallb (λ member, negb (bad_size (mi_player_name member) MAX_PLAYER_NAME_SIZE)) members.
Definition states_ok (states : list PlayerGameState) : bool :=
  forallb (λ state, negb (pg_player_id state =? 0)) states.

Fixpoint append_members (temp_ : bytes) (members : list MemberInfo) : bytes :=
  match members with
  | [] => temp_
  | member :: members =>
      let temp_ := append_u64 temp_ (mi_player_id member) in
      let temp_ := append_u16 temp_ (wrap16 (zlen (mi_player_name member))) in
      append_members (temp_ ++ mi_player_name member) members
  end.

Fixpoint append_states (temp_ : bytes) (states : list PlayerGameState) : bytes :=
  match states with
  | [] => temp_
  | state :: states =>
      let temp_ := append_u64 temp_ (pg_player_id state) in
      let temp_ := append_i32 temp_ (pg_x state) in
      let temp_ := append_i32 temp_ (pg_y state) in
      append_states (append_i32 temp_ (pg_hp state)) states
  end.

Definition encode_join_ok (room_id self_player_id : Z) (token : bytes)
    (members : list MemberInfo) : option bytes :=
  if bad_size token MAX_TOKEN_SIZE then None
  else if 2 ^ 16 - 1 <? zlen members then None
  else if negb (members_ok members) then None
  else
    let temp_ := append_u32 [] room_id in
    let temp_ := append_u64 temp_ self_player_id in
    let temp_ := append_u16 temp_ (wrap16 (zlen token)) in
    let temp_ := temp_ ++ token in
    let temp_ := append_u16 temp_ (wrap16 (zlen members)) in
    Some (append_members temp_ members).

Definition room_state_value (s : RSM.States) : Z :=
  match s with RSM.waiting => 0 | RSM.running => 1 | RSM.finished => 2 end.

Definition encode_resume_ok (room_id self_player_id : Z) (room_state : RSM.States) (tick_id : Z)
    (members : list MemberInfo) (states : list PlayerGameState) : option bytes :=
  if (2 ^ 16 - 1 <? zlen members) || (2 ^ 16 - 1 <? zlen states) then None
  else if negb (members_ok members) then None
  else if negb (states_ok states) then None
  else
    let temp_ := append_u32 [] room_id in
    let temp_ := append_u64 temp_ self_player_id in
    let temp_ := append_u16 temp_ (room_state_value room_state) in
    let temp_ := append_u64 temp_ tick_id in
    let temp_ := append_u16 temp_ (wrap16 (zlen members)) in
    let temp_ := append_members temp_ members in
    let temp_ := append_u16 temp_ (wrap16 (zlen states)) in
    Some (append_states temp_ states).

Definition encode_player_joined (room_id player_id : Z) (player_name : bytes) : option bytes :=
  if bad_size player_name MAX_PLAYER_NAME_SIZE then None
  else
    let temp_ := append_u32 [] room_id in
    let temp_ := append_u64 temp_ player_id in
    let temp_ := append_u16 temp_ (wrap16 (zlen player_name)) in
    Some (temp_ ++ player_name).

Definition encode_leave_ok (room_id : Z) : option bytes := Some (append_u32 [] room_id).

Definition encode_player_left (room_id player_id : Z) : option bytes :=
  Some (append_u64 (append_u32 [] room_id) player_id).

Definition encode_chat_event (room_id player_id : Z) (message : bytes) : option bytes :=
  if bad_size message MAX_CHAT_MESSAGE_SIZE then None
  else
    let temp_ := append_u32 [] room_id in
    let temp_ := append_u64 temp_ player_id in
    let temp_ := append_u16 temp_ (wrap16 (zlen message)) in
    Some (temp_ ++ message).

Definition encode_error (request_type : MessageType.t) (error_code : ErrorCode.t) : option bytes :=
  match request_type with
  | MessageType.join | MessageType.leave | MessageType.chat | MessageType.move
  | MessageType.attack | MessageType.resume =>
      let temp_ := append_u16 [] (MessageType.value request_type) in
      Some (append_u16 temp_ (ErrorCode.value error_code))
  | _ => None
  end.

Definition encode_heartbeat_ack (seq : Z) : option bytes := Some (append_u64 [] seq).

Definition encode_state_snapshot (room_id tick_id : Z) (states : list PlayerGameState)
    : option bytes :=
  if 2 ^ 16 - 1 <? zlen states then None
  else if negb (states_ok states) then None
  else
    let temp_ := append_u32 [] room_id in
    let temp_ := append_u64 temp_ tick_id in
    let temp_ := append_u16 temp_ (wrap16 (zlen states)) in
    Some (append_states temp_ states).

(** ** Specification: the layouts of docs/protocol.md *)

Definition join_request_bytes (r : JoinRequest) : bytes :=
  be_bytes 4 (jr_room_id r) ++ sized_bytes 2 (jr_player_name r).
Definition chat_request_bytes (r : ChatRequest) : bytes := sized_bytes 2 (cr_message r).
Definition move_request_bytes (r : MoveRequest) : bytes :=
  be_bytes 4 (to_u32 (mr_dx r)) ++ be_bytes 4 (to_u32 (mr_dy r)).
Definition resume_request_bytes (r : ResumeRequest) : bytes := sized_bytes 2 (rr_token r).

Definition member_bytes (m : MemberInfo) : bytes :=
  be_bytes 8 (mi_player_id m) ++ sized_bytes 2 (mi_player_name m).
Definition state_bytes (p : PlayerGameState) : bytes :=
  be_bytes 8 (pg_player_id p) ++ be_bytes 4 (to_u32 (pg_x p)) ++
  be_bytes 4 (to_u32 (pg_y p)) ++ be_bytes 4 (to_u32 (pg_hp p)).

(** Members and players as the server holds them. *)
Definition member_ok (m : MemberInfo) : Prop :=
  u64_range (mi_player_id m) ∧ 1 <= zlen (mi_player_name m) <= MAX_PLAYER_NAME_SIZE.
Definition state_ok (p : PlayerGameState) : Prop :=
  0 < pg_player_id p < 2 ^ 64 ∧ i32_range (pg_x p) ∧ i32_range (pg_y p) ∧ i32_range (pg_hp p).

(** Everything the server sends, with the encoder it goes through. *)
Inductive reply : Type :=
| JoinOk (room_id self_player_id : Z) (token : bytes) (members : list MemberInfo)
| ResumeOk (room_id self_player_id : Z) (room_state : RSM.States) (tick_id : Z)
    (members : list MemberInfo) (states : list PlayerGameState)
| PlayerJoined (room_id player_id : Z) (player_name : bytes)
| LeaveOk (room_id : Z)
| PlayerLeft (room_id player_id : Z)
| ChatEvent (room_id player_id : Z) (message : bytes)
| ErrorReply (request_type : MessageType.t) (error_code : ErrorCode.t)
| HeartbeatAck (seq : Z)
| StateSnapshot (room_id tick_id : Z) (states : list PlayerGameState).

Definition reply_type (r : reply) : MessageType.t :=
  match r with
  | JoinOk _ _ _ _ => MessageType.join_ok
  | ResumeOk _ _ _ _ _ _ => MessageType.resume_ok
  | PlayerJoined _ _ _ => MessageType.player_joined
  | LeaveOk _ => MessageType.leave_ok
  | PlayerLeft _ _ => MessageType.player_left
  | ChatEvent _ _ _ => MessageType.chat_event
  | ErrorReply _ _ => MessageType.error
  | HeartbeatAck _ => MessageType.heartbeat_ack
  | StateSnapshot _ _ _ => MessageType.state_snapshot
  end.

Definition encode_reply (r : reply) : option bytes :=
  match r with
  | JoinOk room self token members => encode_join_ok room self token members
  | ResumeOk room self st tick members states => encode_resume_ok room self st tick members states
  | PlayerJoined room player name => encode_player_joined room player name
  | LeaveOk room => encode_leave_ok room
  | PlayerLeft room player => encode_player_left room player
  | ChatEvent room player message => encode_chat_event room player message
  | ErrorReply type code => encode_error type code
  | HeartbeatAck seq => encode_heartbeat_ack seq
  | StateSnapshot room tick states => encode_state_snapshot room tick states
  end.

(** A client request that can be answered with an error. *)
Definition request_type_ok (m : MessageType.t) : bool :=
  match m with
  | MessageType.join | MessageType.leave | MessageType.chat | MessageType.move
  | MessageType.attack | MessageType.resume => true
  | _ => false
  end.

Definition reply_ok (r : reply) : Prop :=
  match r with
  | JoinOk room self token members =>
      u32_range room ∧ u64_range self ∧ 1 <= zlen token <= MAX_TOKEN_SIZE ∧
      Forall member_ok members ∧ zlen members < 2 ^ 16
  | ResumeOk room self _ tick members states =>
      u32_range room ∧ u64_range self ∧ u64_range tick ∧
      Forall member_ok members ∧ zlen members < 2 ^ 16 ∧
      Forall state_ok states ∧ zlen states < 2 ^ 16
  | PlayerJoined room player name =>
      u32_range room ∧ u64_range player ∧ 1 <= zlen name <= MAX_PLAYER_NAME_SIZE
  | LeaveOk room => u32_range room
  | PlayerLeft room player => u32_range room ∧ u64_range player
  | ChatEvent room player message =>
      u32_range room ∧ u64_range player ∧ 1 <= zlen message <= MAX_CHAT_MESSAGE_SIZE
  | ErrorReply type _ => request_type_ok type = true
  | HeartbeatAck seq => u64_range seq
  | StateSnapshot room tick states =>
      u32_range room ∧ u64_range tick ∧ Forall state_ok states ∧ zlen states < 2 ^ 16
  end.

(** The payload of a reply. *)
Definition reply_bytes (r : reply) : bytes :=
  match r with
  | JoinOk room self token members =>
      be_bytes 4 room ++ be_bytes 8 self ++ sized_bytes 2 token ++
      be_bytes 2 (zlen members) ++ concat (member_bytes <$> members)
  | ResumeOk room self st tick members states =>
      be_bytes 4 room ++ be_bytes 8 self ++ be_bytes 2 (room_state_value st) ++
      be_bytes 8 tick ++ be_bytes 2 (zlen members) ++ concat (member_bytes <$> members) ++
      be_bytes 2 (zlen states) ++ concat (state_bytes <$> states)
  | PlayerJoined room player name => be_bytes 4 room ++ be_bytes 8 player ++ sized_bytes 2 name
  | LeaveOk room => be_bytes 4 room
  | PlayerLeft room player => be_bytes 4 room ++ be_bytes 8 player
  | ChatEvent room player message =>
      be_bytes 4 room ++ be_bytes 8 player ++ sized_bytes 2 message
  | ErrorReply type code => be_bytes 2 (MessageType.value type) ++ be_bytes 2 (ErrorCode.value code)
  | HeartbeatAck seq => be_bytes 8 seq
  | StateSnapshot room tick states =>
      be_bytes 4 room ++ be_bytes 8 tick ++ be_bytes 2 (zlen states) ++
      concat (state_bytes <$> states)
  end.

(** The largest match: as many members and players as a game has room for. *)
Definition reply_small (r : reply) : Prop :=
  match r with
  | JoinOk _ _ _ members => zlen members <= MAX_PLAYERS
  | ResumeOk _ _ _ _ members states => zlen members <= MAX_PLAYERS ∧ zlen states <= MAX_PLAYERS
  | StateSnapshot _ _ states => zlen states <= MAX_PLAYERS
  | _ => True
  end.

(** * Proofs *)

(** ** Integers *)

Lemma append_u16_bytes d v : append_u16 d v = d ++ be_bytes 2 v.
Proof. unfold append_u16, htons. by rewrite mem_store_swap. Qed.
Lemma append_u32_bytes d v : append_u32 d v = d ++ be_bytes 4 v.
Proof. unfold append_u32, htonl. by rewrite mem_store_swap. Qed.
Lemma append_i32_bytes d v : append_i32 d v = d ++ be_bytes 4 (to_u32 v).
Proof. unfold append_i32, htonl. by rewrite mem_store_swap. Qed.
Lemma append_u64_bytes d v : append_u64 d v = d ++ be_bytes 8 v.
Proof.
  unfold append_u64. rewrite !append_u32_bytes, <-app_assoc.
  change (be_bytes 8 v) with (be_bytes (4 + 4) v). rewrite be_bytes_split. unfold wrap32. change (2 ^ 32) with (2 ^ (8 * Z.of_nat 4)).
  rewrite be_bytes_mod. change (8 * Z.of_nat 4) with 32. do 2 f_equal.
  change 0xffffffff with (Z.ones 32). rewrite Z.land_ones by lia.
  change 32 with (8 * Z.of_nat 4). by rewrite Z.mod_mod, be_bytes_mod.
Qed.

#[export] Hint Rewrite append_u16_bytes append_u32_bytes append_i32_bytes append_u64_bytes : lw_norm.

Lemma out_of_range_spec d off n : out_of_range d off n = negb (off + n <=? length d)%nat.
Proof.
  unfold out_of_range.
  destruct (Nat.ltb_spec (length d) off), (Nat.ltb_spec (length d - off) n),
    (Nat.leb_spec (off + n) (length d)); cbn; (done || lia).
Qed.

Lemma read_u16_spec d off :
  read_u16 d off = if (off + 2 <=? length d)%nat then Some (be_value (take 2 (drop off d))) else None.
Proof.
  unfold read_u16, ntohs. rewrite out_of_range_spec. destruct (Nat.leb_spec (off + 2) (length d)); cbn [negb]; [|done].
  rewrite swap_mem_load; [done|]. rewrite length_take, length_drop. lia.
Qed.

Lemma read_u32_spec d off :
  read_u32 d off = if (off + 4 <=? length d)%nat then Some (be_value (take 4 (drop off d))) else None.
Proof.
  unfold read_u32, ntohl. rewrite out_of_range_spec. destruct (Nat.leb_spec (off + 4) (length d)); cbn [negb]; [|done].
  rewrite swap_mem_load; [done|]. rewrite length_take, length_drop. lia.
Qed.

Lemma read_u64_spec d off :
  read_u64 d off = if (off + 8 <=? length d)%nat then Some (be_value (take 8 (drop off d))) else None.
Proof.
  unfold read_u64. rewrite out_of_range_spec, !read_u32_spec.
  destruct (Nat.leb_spec (off + 8) (length d)) as [Hl|]; cbn [negb]; [|done].
  rewrite !(proj2 (Nat.leb_le _ _)) by lia. cbn. f_equal.
  assert (Hd : take 8 (drop off d) = take 4 (drop off d) ++ take 4 (drop (off + 4) d)).
  { rewrite <-drop_drop.
    by rewrite <-(take_drop 4 (take 8 (drop off d))), take_take, skipn_firstn_comm. }
  pose proof (be_value_take_range 4 (drop off d)) as Hh.
  pose proof (be_value_take_range 4 (drop (off + 4) d)) as Hlo.
  rewrite !length_drop in *. change (8 * Z.of_nat 4) with 32 in *.
  rewrite Hd, be_value_app. unfold zlen. rewrite length_take, length_drop, Nat.min_l by lia.
  change (8 * Z.of_nat 4) with 32. unfold wrap64.
  rewrite Z.mod_small by (rewrite Z.shiftl_mul_pow2; lia).
  apply lor_shiftl_add; [lia|]. apply Hlo. lia.
Qed.

Lemma read_i32_spec d off : read_i32 d off = to_i32 <$> read_u32 d off.
Proof.
  unfold read_i32, to_i32. destruct (read_u32 d off) as [v|]; cbn; [|done].
  destruct (Z.leb_spec v (2 ^ 31 - 1)), (Z.ltb_spec v (2 ^ 31)); try lia; f_equal; lia.
Qed.

(** ** Requests *)

(** Solves a goal about what a fixed-size read finds in a concrete layout. *)
Ltac layout := repeat first
  [ rewrite app_nil_l | rewrite <-!app_assoc
  | rewrite take_app_length' by (rewrite ?be_bytes_length; done)
  | rewrite drop_app_length' by (rewrite ?be_bytes_length; done) ].

(** A 16-bit length and the whole rest of the payload. *)
Lemma sized_rest off (payload : bytes) :
  (off + 2 <= length payload)%nat →
  Z.of_nat (length payload - (off + 2)) = be_value (take 2 (drop off payload)) →
  drop off payload = sized_bytes 2 (drop (off + 2) payload) ∧
  take (Z.to_nat (be_value (take 2 (drop off payload)))) (drop (off + 2) payload) =
    drop (off + 2) payload.
Proof.
  intros Hl He. split.
  - unfold sized_bytes, zlen. rewrite length_drop, He, be_bytes_take by (rewrite length_drop; lia).
    by rewrite <-drop_drop, take_drop.
  - rewrite <-He, Nat2Z.id. apply take_ge. rewrite length_drop. lia.
Qed.

Lemma sized_read_length n s :
  zlen s < 2 ^ (8 * Z.of_nat n) → be_value (take n (sized_bytes n s)) = zlen s.
Proof. intros Hs. unfold sized_bytes. apply be_value_prefix. unfold zlen in *. lia. Qed.

Lemma sized_drop n s : drop n (sized_bytes n s) = s.
Proof. unfold sized_bytes. apply drop_app_length'. by rewrite be_bytes_length. Qed.

Lemma sized_length n s : length (sized_bytes n s) = (n + length s)%nat.
Proof. unfold sized_bytes. by rewrite length_app, be_bytes_length. Qed.

Lemma read_u16_Some d off v :
  read_u16 d off = Some v ↔ (off + 2 <= length d)%nat ∧ v = be_value (take 2 (drop off d)).
Proof. rewrite read_u16_spec. destruct (Nat.leb_spec (off + 2) (length d)); naive_solver lia. Qed.

Lemma read_u32_Some d off v :
  read_u32 d off = Some v ↔ (off + 4 <= length d)%nat ∧ v = be_value (take 4 (drop off d)).
Proof. rewrite read_u32_spec. destruct (Nat.leb_spec (off + 4) (length d)); naive_solver lia. Qed.

Lemma read_u64_Some d off v :
  read_u64 d off = Some v ↔ (off + 8 <= length d)%nat ∧ v = be_value (take 8 (drop off d)).
Proof. rewrite read_u64_spec. destruct (Nat.leb_spec (off + 8) (length d)); naive_solver lia. Qed.

Lemma read_i32_Some d off v :
  read_i32 d off = Some v ↔
    (off + 4 <= length d)%nat ∧ v = to_i32 (be_value (take 4 (drop off d))).
Proof. rewrite read_i32_spec, fmap_Some. setoid_rewrite read_u32_Some. naive_solver. Qed.

(** A JOIN payload is accepted exactly when it is laid out as the protocol
    says, byte for byte, and it is then read as what was written. *)
Lemma decode_join_request_iff payload r :
  decode_join_request payload = Some r ↔
    payload = join_request_bytes r ∧ u32_range (jr_room_id r) ∧ zlen (jr_player_name r) < 2 ^ 16.
Proof.
  unfold decode_join_request, join_request_bytes. rewrite bind_Some. setoid_rewrite bind_Some.
  setoid_rewrite read_u32_Some. setoid_rewrite read_u16_Some. split.
  - intros (room & (_ & ->) & size & (Hl & ->) & H). revert H.
    case_test Ht; [done|]. to_prop. intros [= <-]. cbn [jr_room_id jr_player_name].
    destruct (sized_rest 4 payload Hl Ht) as [Hd Htk]. cbn [Nat.add] in Htk. rewrite Htk, drop_0.
    pose proof (be_value_take_range 4 payload) as Hr4.
    pose proof (be_value_take_range 2 (drop 4 payload)) as Hr2.
    rewrite length_drop in Hr2. unfold u32_range, zlen. rewrite length_drop.
    split_and!; [|apply Hr4; lia|apply Hr4; lia|rewrite Ht; apply Hr2; lia].
    rewrite be_bytes_take by lia. cbn [Nat.add] in Hd. by rewrite <-Hd, take_drop.
  - intros (-> & Hr & Hn). destruct r as [room name]. cbn [jr_room_id jr_player_name] in *.
    assert (Hlen : length (be_bytes 4 room ++ sized_bytes 2 name) = (6 + length name)%nat).
    { by rewrite length_app, sized_length, be_bytes_length. }
    exists room. split; [split; [lia|]; by rewrite drop_0, be_value_prefix|].
    exists (zlen name). rewrite (drop_app_length' (be_bytes 4 room)) by (by rewrite be_bytes_length).
    split; [split; [lia|]; by rewrite sized_read_length|].
    rewrite Hlen, (proj2 (Z.eqb_eq _ _)) by (unfold zlen; lia). cbn [negb].
    change 6%nat with (4 + 2)%nat. rewrite <-drop_drop.
    rewrite drop_app_length' by (by rewrite be_bytes_length). rewrite sized_drop.
    unfold zlen. by rewrite Nat2Z.id, firstn_all.
Qed.

Lemma decode_chat_request_iff payload r :
  decode_chat_request payload = Some r ↔
    payload = chat_request_bytes r ∧ zlen (cr_message r) < 2 ^ 16.
Proof.
  unfold decode_chat_request, chat_request_bytes. rewrite bind_Some.
  setoid_rewrite read_u16_Some. split.
  - intros (size & (Hl & ->) & H). revert H. case_test Ht; [done|]. to_prop.
    intros [= <-]. cbn [cr_message]. destruct (sized_rest 0 payload Hl Ht) as [Hd Htk].
    cbn [Nat.add] in Hd, Htk. rewrite drop_0 in Hd. rewrite Htk. split; [done|].
    pose proof (be_value_take_range 2 payload) as Hr2. unfold zlen. rewrite length_drop.
    rewrite drop_0 in Ht. rewrite Ht. apply Hr2. lia.
  - intros (-> & Hn). destruct r as [message]. cbn [cr_message] in *.
    exists (zlen message). rewrite drop_0, sized_read_length, sized_length by done.
    split; [split; [lia|done]|].
    rewrite (proj2 (Z.eqb_eq _ _)) by (unfold zlen; lia). cbn [negb]. rewrite sized_drop.
    unfold zlen. by rewrite Nat2Z.id, firstn_all.
Qed.

Lemma decode_resume_request_iff payload r :
  decode_resume_request payload = Some r ↔
    payload = resume_request_bytes r ∧ 1 <= zlen (rr_token r) <= MAX_TOKEN_SIZE.
Proof.
  unfold decode_resume_request, resume_request_bytes, MAX_TOKEN_SIZE. rewrite bind_Some.
  setoid_rewrite read_u16_Some. split.
  - intros (size & (Hl & ->) & H). revert H. case_test Ht; [done|].
    apply orb_false_iff in Ht as [Ht He]. to_prop.
    intros [= <-]. cbn [rr_token]. destruct (sized_rest 0 payload Hl He) as [Hd Htk].
    cbn [Nat.add] in Hd, Htk. rewrite drop_0 in Hd. rewrite Htk. split; [done|].
    pose proof (be_value_take_range 2 payload) as Hr2. unfold zlen. rewrite length_drop.
    rewrite drop_0 in *. lia.
  - intros (-> & Hn). destruct r as [token]. cbn [rr_token] in *.
    exists (zlen token). rewrite drop_0, sized_read_length, sized_length by (cbn; lia).
    split; [split; [lia|done]|].
    rewrite (proj2 (Z.eqb_eq (Z.of_nat _) _)) by (unfold zlen; lia).
    rewrite (proj2 (Z.eqb_neq _ _)), (proj2 (Z.ltb_ge _ _)) by lia. cbn [negb orb].
    rewrite sized_drop. unfold zlen. by rewrite Nat2Z.id, firstn_all.
Qed.

(** An eight-byte payload read as one number. *)
Lemma read_whole_u64 payload v :
  zlen payload = 8 ∧ read_u64 payload 0 = Some v ↔ payload = be_bytes 8 v ∧ u64_range v.
Proof.
  rewrite read_u64_Some, drop_0. unfold zlen. split.
  - intros (Hl & _ & ->). rewrite be_bytes_take by lia. split; [by rewrite take_ge by lia|].
    apply (be_value_take_range 8). lia.
  - intros (-> & Hr). rewrite be_bytes_length. split_and!; [done|lia|].
    rewrite <-(app_nil_r (be_bytes 8 v)). by rewrite be_value_prefix.
Qed.

Lemma decode_attack_request_iff payload r :
  decode_attack_request payload = Some r ↔
    payload = be_bytes 8 (ar_target r) ∧ u64_range (ar_target r).
Proof.
  rewrite <-read_whole_u64. unfold decode_attack_request.
  destruct (Z.eqb_spec (zlen payload) 8); cbn [negb]; [|naive_solver].
  rewrite bind_Some. destruct r. naive_solver.
Qed.

Lemma decode_heartbeat_request_iff payload r :
  decode_heartbeat_request payload = Some r ↔
    payload = be_bytes 8 (hr_seq r) ∧ u64_range (hr_seq r).
Proof.
  rewrite <-read_whole_u64. unfold decode_heartbeat_request.
  destruct (Z.eqb_spec (zlen payload) 8); cbn [negb]; [|naive_solver].
  rewrite bind_Some. destruct r. naive_solver.
Qed.

Lemma decode_move_request_iff payload r :
  decode_move_request payload = Some r ↔
    payload = move_request_bytes r ∧ i32_range (mr_dx r) ∧ i32_range (mr_dy r).
Proof.
  unfold decode_move_request, move_request_bytes, zlen. split.
  - case_test Hl; [done|]. to_prop.
    intros (dx & (_ & ->)%read_i32_Some & (dy & (_ & ->)%read_i32_Some & [= <-])%bind_Some)%bind_Some.
    cbn [mr_dx mr_dy].
    pose proof (be_value_take_range 4 payload) as Hx.
    pose proof (be_value_take_range 4 (drop 4 payload)) as Hy.
    rewrite length_drop in Hy. rewrite drop_0.
    rewrite !to_u32_i32 by (unfold u32_range; lia).
    rewrite !be_bytes_take by (rewrite ?length_drop; lia).
    rewrite (take_ge (drop 4 payload)) in * by (rewrite length_drop; lia).
    rewrite take_drop. split_and!; [done|apply to_i32_range; unfold u32_range; lia..].
  - destruct r as [dx dy]. cbn [mr_dx mr_dy]. intros (-> & Hx & Hy).
    rewrite length_app, !be_bytes_length. cbn [Nat.add Z.of_nat Pos.of_succ_nat Pos.succ Z.eqb Pos.eqb negb].
    pose proof (to_u32_range dx). pose proof (to_u32_range dy).
    apply bind_Some. exists dx. split.
    { apply read_i32_Some. rewrite length_app, !be_bytes_length. split; [lia|].
      by rewrite drop_0, be_value_prefix, to_i32_u32. }
    apply bind_Some. exists dy. split; [|done].
    apply read_i32_Some. rewrite length_app, !be_bytes_length. split; [lia|].
    rewrite drop_app_length' by (by rewrite be_bytes_length).
    rewrite <-(app_nil_r (be_bytes 4 (to_u32 dy))). by rewrite be_value_prefix, to_i32_u32.
Qed.

(** C28: The request decoders accept exactly the layouts of the protocol, and read
    back exactly what was written: a payload is accepted as a JOIN, CHAT, MOVE,
    ATTACK, HEARTBEAT or RESUME iff it is, byte for byte, the encoding of the
    request returned, with its fields in range; a LEAVE payload is empty. Any
    truncated payload, wrong length field or trailing byte is refused. *)
Theorem requests_exact (payload : bytes) :
  (∀ r, decode_join_request payload = Some r ↔
     payload = join_request_bytes r ∧ u32_range (jr_room_id r) ∧ zlen (jr_player_name r) < 2 ^ 16) ∧
  (decode_leave_request payload = true ↔ payload = []) ∧
  (∀ r, decode_chat_request payload = Some r ↔
     payload = chat_request_bytes r ∧ zlen (cr_message r) < 2 ^ 16) ∧
  (∀ r, decode_move_request payload = Some r ↔
     payload = move_request_bytes r ∧ i32_range (mr_dx r) ∧ i32_range (mr_dy r)) ∧
  (∀ r, decode_attack_request payload = Some r ↔
     payload = be_bytes 8 (ar_target r) ∧ u64_range (ar_target r)) ∧
  (∀ r, decode_heartbeat_request payload = Some r ↔
     payload = be_bytes 8 (hr_seq r) ∧ u64_range (hr_seq r)) ∧
  (∀ r, decode_resume_request payload = Some r ↔
     payload = resume_request_bytes r ∧ 1 <= zlen (rr_token r) <= MAX_TOKEN_SIZE).
Proof.
  split_and!; try intros r.
  - apply decode_join_request_iff.
  - apply bool_decide_eq_true.
  - apply decode_chat_request_iff.
  - apply decode_move_request_iff.
  - apply decode_attack_request_iff.
  - apply decode_heartbeat_request_iff.
  - apply decode_resume_request_iff.
Qed.

(** ** Replies *)

Lemma append_members_bytes d members :
  Forall member_ok members →
  append_members d members = d ++ concat (member_bytes <$> members).
Proof.
  intros Hm. revert d. induction Hm as [|m members [_ Hn] _ IH]; intros d.
  - by rewrite app_nil_r.
  - cbn [append_members fmap list_fmap concat]. rewrite IH. unfold member_bytes, sized_bytes, wrap16.
    unfold MAX_PLAYER_NAME_SIZE in Hn.
    rewrite Z.mod_small by lia. autorewrite with lw_norm. by rewrite <-!app_assoc.
Qed.

Lemma append_states_bytes d states :
  append_states d states = d ++ concat (state_bytes <$> states).
Proof.
  revert d. induction states as [|p states IH]; intros d.
  - by rewrite app_nil_r.
  - cbn [append_states fmap list_fmap concat]. rewrite IH. unfold state_bytes.
    autorewrite with lw_norm. by rewrite <-!app_assoc.
Qed.

Lemma bad_size_false s max : bad_size s max = false ↔ 1 <= zlen s <= max.
Proof.
  unfold bad_size, zlen. rewrite orb_false_iff, bool_decide_eq_false, Z.ltb_ge.
  destruct s; cbn [length]; split; intros; (split || idtac); try lia; (done || naive_solver lia).
Qed.

Lemma members_ok_true members : Forall member_ok members → members_ok members = true.
Proof.
  intros Hm. apply forallb_True, Forall_true || idtac. unfold members_ok.
  induction Hm as [|m members [_ Hn] _ IH]; cbn; [done|].
  rewrite (proj2 (bad_size_false _ _)) by done. done.
Qed.

Lemma states_ok_true states : Forall state_ok states → states_ok states = true.
Proof.
  unfold states_ok. induction 1 as [|p states Hp _ IH]; cbn; [done|].
  destruct Hp as [Hp _]. rewrite (proj2 (Z.eqb_neq _ _)) by lia. done.
Qed.

(** The encoders write the documented layouts. *)
Lemma encode_reply_bytes r : reply_ok r → encode_reply r = Some (reply_bytes r).
Proof.
  destruct r; cbn [reply_ok encode_reply reply_bytes]; intros Hr; destruct_and? Hr.
  - unfold encode_join_ok. rewrite (proj2 (bad_size_false _ _)) by done.
    rewrite (proj2 (Z.ltb_ge _ _)), members_ok_true by (done || lia). cbn [negb].
    rewrite append_members_bytes by done. unfold sized_bytes, wrap16, MAX_TOKEN_SIZE, zlen in *.
    rewrite !Z.mod_small by lia. autorewrite with lw_norm. by rewrite <-!app_assoc.
  - unfold encode_resume_ok. rewrite !(proj2 (Z.ltb_ge _ _)), members_ok_true, states_ok_true
      by (done || lia). cbn [negb orb].
    rewrite append_states_bytes, append_members_bytes by done. unfold wrap16, zlen in *.
    rewrite !Z.mod_small by lia. autorewrite with lw_norm. by rewrite <-!app_assoc.
  - unfold encode_player_joined. rewrite (proj2 (bad_size_false _ _)) by done.
    unfold sized_bytes, wrap16, MAX_PLAYER_NAME_SIZE, zlen in *. rewrite Z.mod_small by lia.
    autorewrite with lw_norm. by rewrite <-!app_assoc.
  - unfold encode_leave_ok. by autorewrite with lw_norm.
  - unfold encode_player_left. by autorewrite with lw_norm.
  - unfold encode_chat_event. rewrite (proj2 (bad_size_false _ _)) by done.
    unfold sized_bytes, wrap16, MAX_CHAT_MESSAGE_SIZE, zlen in *. rewrite Z.mod_small by lia.
    autorewrite with lw_norm. by rewrite <-!app_assoc.
  - unfold encode_error. destruct request_type; try done; by autorewrite with lw_norm.
  - unfold encode_heartbeat_ack. by autorewrite with lw_norm.
  - unfold encode_state_snapshot. rewrite (proj2 (Z.ltb_ge _ _)), states_ok_true by (done || lia).
    cbn [negb]. rewrite append_states_bytes. unfold wrap16, zlen in *.
    rewrite !Z.mod_small by lia. autorewrite with lw_norm. by rewrite <-!app_assoc.
Qed.

Lemma member_bytes_prefix : prefix_code member_ok member_bytes.
Proof.
  intros [i n] [j k] r s [Hi Hn] [Hj Hk]. unfold member_bytes. cbn in *.
  rewrite <-!app_assoc. intros He. unfold MAX_PLAYER_NAME_SIZE in *.
  apply be_bytes_prefix in He as [-> He]; [|done..].
  by apply sized_bytes_prefix in He as [-> ->]; [|cbn; lia..].
Qed.

Lemma to_u32_inj v w : i32_range v → i32_range w → to_u32 v = to_u32 w → v = w.
Proof. intros Hv Hw He. by rewrite <-(to_i32_u32 v), He, to_i32_u32. Qed.

Lemma state_bytes_prefix : prefix_code state_ok state_bytes.
Proof.
  intros [i x y h] [j x' y' h'] r s (Hi & Hx & Hy & Hh) (Hj & Hx' & Hy' & Hh').
  unfold state_bytes. cbn in *. rewrite <-!app_assoc. intros He.
  apply be_bytes_prefix in He as [-> He]; [|lia..].
  apply be_bytes_prefix in He as [Ex%to_u32_inj He]; [|done|done|apply to_u32_range..].
  apply be_bytes_prefix in He as [Ey%to_u32_inj He]; [|done|done|apply to_u32_range..].
  apply be_bytes_prefix in He as [Eh%to_u32_inj He]; [|done|done|apply to_u32_range..].
  by subst.
Qed.

(** Peels one field off the front of an equation between layouts. *)
Ltac peel He :=
  first
  [ apply be_bytes_prefix in He as [? He]; [|unfold zlen in *; lia..]
  | apply sized_bytes_prefix in He as [? He];
      [|unfold MAX_TOKEN_SIZE, MAX_PLAYER_NAME_SIZE, MAX_CHAT_MESSAGE_SIZE in *; cbn; lia..]
  | apply (concat_prefix _ _ _ _ _ _ member_bytes_prefix) in He as [? He];
      [|done|done|unfold zlen in *; lia]
  | apply (concat_prefix _ _ _ _ _ _ state_bytes_prefix) in He as [? He];
      [|done|done|unfold zlen in *; lia] ].

(** No two different replies of one type look the same on the wire, so a client
    that knows the type recovers every field: identities, token, member list,
    life-cycle state, tick number and the signed coordinates and health. *)
Theorem reply_unambiguous (r1 r2 : reply) (payload : bytes) :
  reply_ok r1 → reply_ok r2 → reply_type r1 = reply_type r2 →
  encode_reply r1 = Some payload → encode_reply r2 = Some payload → r1 = r2.
Proof.
  intros H1 H2 Ht. rewrite !encode_reply_bytes by done. intros [= <-] [= He].
  apply (f_equal (λ l, l ++ [])) in He.
  destruct r1, r2; try discriminate Ht; cbn [reply_ok reply_bytes] in *;
    destruct_and? H1; destruct_and? H2; rewrite <-?app_assoc in He;
    unfold u32_range, u64_range in *.
  - repeat peel He. congruence.
  - peel He. peel He.
    apply be_bytes_prefix in He as [Hst He]; [|destruct room_state, room_state0; cbn; lia..].
    assert (room_state0 = room_state) by (destruct room_state, room_state0; cbn in Hst; congruence).
    repeat peel He. congruence.
  - repeat peel He. congruence.
  - repeat peel He. congruence.
  - repeat peel He. congruence.
  - repeat peel He. congruence.
  - apply be_bytes_prefix in He as [Hty He]; [|destruct request_type, request_type0; cbn; lia..].
    apply be_bytes_prefix in He as [Hec He]; [|destruct error_code, error_code0; cbn; lia..].
    f_equal.
    + destruct request_type, request_type0; cbn in Hty; congruence.
    + destruct error_code, error_code0; cbn in Hec; congruence.
  - repeat peel He. congruence.
  - repeat peel He. congruence.
Qed.

Lemma reply_unambiguous_witness :
  ErrorReply MessageType.join ErrorCode.room_full = ErrorReply MessageType.join ErrorCode.room_full.
Proof.
  eapply (reply_unambiguous _ _ [x00; x01; x00; x02]); reflexivity.
Defined.

Lemma concat_length_bound {A} (enc : A → bytes) (P : A → Prop) (n : nat) l :
  (∀ a, P a → (length (enc a) <= n)%nat) → Forall P l →
  (length (concat (enc <$> l)) <= n * length l)%nat.
Proof.
  intros Henc. induction 1 as [|a l Ha _ IH]; cbn [fmap list_fmap concat length]; [lia|].
  rewrite length_app. specialize (Henc a Ha). lia.
Qed.

Lemma payload_members_length members :
  Forall member_ok members →
  (length (concat (member_bytes <$> members)) <= 42 * length members)%nat.
Proof.
  apply concat_length_bound. intros m [_ Hn]. unfold member_bytes, MAX_PLAYER_NAME_SIZE, zlen in *.
  rewrite length_app, sized_length, be_bytes_length. lia.
Qed.

Lemma states_length states :
  (length (concat (state_bytes <$> states)) <= 20 * length states)%nat.
Proof.
  apply (concat_length_bound _ (λ _, True)); [|by apply Forall_true].
  intros p _. unfold state_bytes. by rewrite !length_app, !be_bytes_length.
Qed.

(** C34: Every well-formed reply about a match of at most 101 players is encoded,
    fits one frame, and is delivered whole by the decoder: the server never
    drops such a reply for its size. *)
Theorem reply_fits (r : reply) :
  reply_ok r → reply_small r →
  ∃ payload frame, encode_reply r = Some payload ∧
    Codec.encode (MessageType.value (reply_type r)) payload = Some frame ∧
    ∀ more, split_frame (frame ++ more) = Frame (MessageType.value (reply_type r)) payload more.
Proof.
  intros Hok Hsm. exists (reply_bytes r). rewrite encode_reply_bytes by done.
  assert (Hl : zlen (reply_bytes r) <= MAX_FRAME_LENGTH - TYPE_FIELD_SIZE).
  { unfold zlen, MAX_FRAME_LENGTH, TYPE_FIELD_SIZE, reply_small, MAX_PLAYERS in *.
    destruct r; cbn [reply_ok reply_bytes] in *; destruct_and? Hok; destruct_and? Hsm;
      rewrite ?length_app, ?sized_length, ?be_bytes_length;
      unfold MAX_TOKEN_SIZE, MAX_PLAYER_NAME_SIZE, MAX_CHAT_MESSAGE_SIZE, zlen in *;
      try pose proof (payload_members_length members ltac:(done));
      try pose proof (states_length states); lia. }
  assert (Ht : u16_range (MessageType.value (reply_type r))) by (unfold u16_range; destruct r; cbn; lia).
  rewrite encode_spec, (proj2 (Z.leb_le _ _)) by done.
  eexists. split_and!; [done..|]. intros more.
  by apply (split_frame_bytes (_, _)).
Qed.

(** The largest replies of a match: 101 members with the longest names, after a
    join with the longest token and after a resume. *)
Definition full_members : list MemberInfo :=
  (λ i, MkMemberInfo (i + 1) (replicate 32 x61)) <$> seqZ 0 101.
Definition full_states : list PlayerGameState :=
  (λ i, MkPlayerGameState (i + 1) i 0 100) <$> seqZ 0 101.
Definition full_join : reply := JoinOk 1 101 (replicate 64 x62) full_members.
Definition full_resume : reply := ResumeOk 1 101 RSM.running 7 full_members full_states.

Lemma full_members_ok : Forall member_ok full_members.
Proof.
  apply Forall_fmap, Forall_forall. intros i [? ?]%elem_of_seqZ. cbn.
  unfold member_ok, u64_range, zlen, MAX_PLAYER_NAME_SIZE. cbn. lia.
Qed.
Lemma full_states_ok : Forall state_ok full_states.
Proof.
  apply Forall_fmap, Forall_forall. intros i [? ?]%elem_of_seqZ. cbn.
  unfold state_ok, u64_range, i32_range. cbn. lia.
Qed.

Lemma reply_fits_witness :
  (∃ payload frame, encode_reply full_join = Some payload ∧
    Codec.encode (MessageType.value MessageType.join_ok) payload = Some frame ∧
    ∀ more, split_frame (frame ++ more) = Frame (MessageType.value MessageType.join_ok) payload more) ∧
  ∃ payload frame, encode_reply full_resume = Some payload ∧
    Codec.encode (MessageType.value MessageType.resume_ok) payload = Some frame ∧
    ∀ more, split_frame (frame ++ more) = Frame (MessageType.value MessageType.resume_ok) payload more.
Proof.
  split.
  - apply (reply_fits full_join); [|done].
    split_and!; try apply full_members_ok; done.
  - apply (reply_fits full_resume); [|done].
    split_and!; try apply full_members_ok; try apply full_states_ok; done.
Defined.
