(* ===== verification/Connection.v ===== *)
(** [src/src/connection.cpp]: a TCP connection as its I/O loop drives it: the
    connection's life cycle, reading, the write buffer with its byte budget,
    sending from any thread, closing and timeouts. System calls are lists of
    results that the kernel hands out, one per call. *)

From S2P Require Import Prelude Buffer.

Module CS.
Inductive State : Type := Connecting | Connected | Disconnecting | Disconnected.

#[global] Instance State_eq_dec : EqDecision State.
Proof. solve_decision. Defined.
End CS.

(** * Definitions *)

(** ** References *)

(** A connection object is known by its address. A [ConnectionPtr] is a
    [std::shared_ptr], [None] being null; a [WeakPtr] may outlive its object,
    and [lock] needs the set of objects that still exist. *)
Abbreviation Conn := Z (only parsing).
Abbreviation ConnectionPtr := (option Conn) (only parsing).
Abbreviation WeakPtr := (option Conn) (only parsing).

Definition lock (live : gset Conn) (w : WeakPtr) : ConnectionPtr :=
  match w with
  | Some c => if bool_decide (c ∈ live) then Some c else None
  | None => None
  end.

(** ** Objects *)

Definition WRITE_HIGH_WATER_MARK : Z := 512 * 1024.
Definition WRITE_HARD_LIMIT : Z := 1024 * 1024.

Definition EPOLLIN : Z := 1.
Definition EPOLLOUT : Z := 4.
Definition EPOLLERR : Z := 8.
Definition EPOLLHUP : Z := 16.
Definition EPOLLRDHUP : Z := 8192.
Definition EPOLLONESHOT : Z := 2 ^ 30.
Definition EPOLLET : Z := 2 ^ 31.
Definition has (events mask : Z) : bool := negb (Z.land events mask =? 0).

Record Connection : Type := MkConnection {
  state_ : CS.State;
  registered_ : bool;
  close_ : bool;
  read_buffer_ : Buffer;
  write_buffer_ : Buffer;
  pending_write_bytes_ : Z;
  last_peer_activity_time_ : Z;
  peer_eof_ : bool
}.

Definition Connection_new (now : Z) : Connection :=
  MkConnection CS.Connecting false false (Buffer_new 4096) (Buffer_new 4096) 0 now false.

(** [read] returns between 1 and 4096 bytes, end of file, or an error;
    [write] takes between 1 and all of the bytes offered, nothing, or fails. *)
Inductive read_result : Type :=
| ReadData (first : byte) (more : bytes)
| ReadEof
| ReadEintr
| ReadAgain
| ReadError.
Inductive write_result : Type :=
| Wrote (n : nat)
| WroteZero
| WriteEintr
| WriteAgain
| WriteError.

(** A connection and its surroundings: what the next system calls will return,
    the bytes the kernel has accepted for the peer, how often the close
    callback has run, and the events that the kernel watches the socket for.
    A list that runs out stands for [EAGAIN], and for a successful
    [epoll_ctl]. *)
Record Io : Type := MkIo {
  io_conn : Connection;
  io_reads : list read_result;
  io_writes : list write_result;
  io_epoll : list bool;
  io_wire : bytes;
  io_close_calls : nat;
  io_events : Z
}.

Definition on_conn (f : Connection → Connection) (io : Io) : Io :=
  MkIo (f (io_conn io)) (io_reads io) (io_writes io) (io_epoll io) (io_wire io) (io_close_calls io) (io_events io).
Definition set_reads (rs : list read_result) (io : Io) : Io :=
  MkIo (io_conn io) rs (io_writes io) (io_epoll io) (io_wire io) (io_close_calls io) (io_events io).
Definition set_writes (ws : list write_result) (io : Io) : Io :=
  MkIo (io_conn io) (io_reads io) ws (io_epoll io) (io_wire io) (io_close_calls io) (io_events io).
Definition on_wire (data : bytes) (io : Io) : Io :=
  MkIo (io_conn io) (io_reads io) (io_writes io) (io_epoll io) (io_wire io ++ data) (io_close_calls io)
    (io_events io).
Definition call_close_callback (io : Io) : Io :=
  MkIo (io_conn io) (io_reads io) (io_writes io) (io_epoll io) (io_wire io) (S (io_close_calls io))
    (io_events io).
Definition watch (events : Z) (io : Io) : Io :=
  MkIo (io_conn io) (io_reads io) (io_writes io) (io_epoll io) (io_wire io) (io_close_calls io) events.

(** [loop_->add_fd], [loop_->update_fd]: the next [epoll_ctl] result. On success
    the kernel watches for [events]. *)
Definition epoll_ctl (events : Z) (io : Io) : bool * Io :=
  match io_epoll io with
  | [] => (true, watch events io)
  | ok :: rest =>
      (ok, MkIo (io_conn io) (io_reads io) (io_writes io) rest (io_wire io) (io_close_calls io)
             (if ok then events else io_events io))
  end.

(** The kernel delivers an event of a descriptor that is watched with
    [EPOLLONESHOT]: it watches for nothing any more. *)
Definition delivered (io : Io) : Io := watch 0 io.

(** The events the handlers ask for. *)
Definition BASE_EVENTS : Z := Z.lor (Z.lor (Z.lor EPOLLIN EPOLLET) EPOLLONESHOT) EPOLLRDHUP.
Definition need_events (c : Connection) : Z :=
  if negb (empty (write_buffer_ c)) then Z.lor BASE_EVENTS EPOLLOUT else BASE_EVENTS.

Definition set_state (s : CS.State) (c : Connection) : Connection :=
  MkConnection s (registered_ c) (close_ c) (read_buffer_ c) (write_buffer_ c)
    (pending_write_bytes_ c) (last_peer_activity_time_ c) (peer_eof_ c).
Definition set_registered (b : bool) (c : Connection) : Connection :=
  MkConnection (state_ c) b (close_ c) (read_buffer_ c) (write_buffer_ c)
    (pending_write_bytes_ c) (last_peer_activity_time_ c) (peer_eof_ c).
Definition set_read_buffer (b : Buffer) (c : Connection) : Connection :=
  MkConnection (state_ c) (registered_ c) (close_ c) b (write_buffer_ c)
    (pending_write_bytes_ c) (last_peer_activity_time_ c) (peer_eof_ c).
Definition set_write_buffer (b : Buffer) (c : Connection) : Connection :=
  MkConnection (state_ c) (registered_ c) (close_ c) (read_buffer_ c) b
    (pending_write_bytes_ c) (last_peer_activity_time_ c) (peer_eof_ c).
Definition set_pending (n : Z) (c : Connection) : Connection :=
  MkConnection (state_ c) (registered_ c) (close_ c) (read_buffer_ c) (write_buffer_ c)
    n (last_peer_activity_time_ c) (peer_eof_ c).
Definition set_activity (now : Z) (c : Connection) : Connection :=
  MkConnection (state_ c) (registered_ c) (close_ c) (read_buffer_ c) (write_buffer_ c)
    (pending_write_bytes_ c) now (peer_eof_ c).
Definition set_peer_eof (c : Connection) : Connection :=
  MkConnection (state_ c) (registered_ c) (close_ c) (read_buffer_ c) (write_buffer_ c)
    (pending_write_bytes_ c) (last_peer_activity_time_ c) true.

Definition close_connection (c : Connection) : Connection :=
  if close_ c then c
  else MkConnection (state_ c) (registered_ c) true (read_buffer_ c) (write_buffer_ c)
         (pending_write_bytes_ c) (last_peer_activity_time_ c) (peer_eof_ c).

(** ** The byte budget, one successful compare-and-swap at a time *)

Definition reserve_write_bytes (len : Z) (c : Connection) : bool * Connection :=
  if len =? 0 then (false, c)
  else
    let cur := pending_write_bytes_ c in
    if (WRITE_HARD_LIMIT <? cur) || (WRITE_HARD_LIMIT - cur <? len) then (false, c)
    else (true, set_pending (cur + len) c).

(** The second test is the error the code logs. *)
Definition release_write_bytes (len : Z) (c : Connection) : Connection :=
  if len =? 0 then c
  else
    let cur := pending_write_bytes_ c in
    if cur <? len then c else set_pending (cur - len) c.

Definition under_backpressure (c : Connection) : bool :=
  WRITE_HIGH_WATER_MARK <=? pending_write_bytes_ c.

(** ** Operations of the loop thread

    [in_loop] is [loop_ && loop_->is_in_loop_thread()]. *)

Definition refresh_peer_activity (in_loop : bool) (now : Z) (c : Connection) : Connection :=
  if negb in_loop then c
  else if negb (bool_decide (state_ c = CS.Connected)) then c
  else set_activity now c.

Definition clear_write_buffer_in_loop (in_loop : bool) (c : Connection) : Connection :=
  if negb in_loop then c
  else
    let release := readable_bytes (write_buffer_ c) in
    if (release =? 0)%nat then c
    else release_write_bytes (Z.of_nat release)
           (set_write_buffer (retrieve_all (write_buffer_ c)) c).

Definition handle_close (in_loop : bool) (io : Io) : Io :=
  if negb in_loop then io
  else if bool_decide (state_ (io_conn io) = CS.Disconnecting)
          || bool_decide (state_ (io_conn io) = CS.Disconnected) then io
  else
    let io := on_conn (set_state CS.Disconnecting) io in
    let io := on_conn (clear_write_buffer_in_loop in_loop) io in
    call_close_callback io.

Definition check_timeout_in_loop (in_loop : bool) (now timeout : Z) (io : Io) : Io :=
  if negb in_loop then io
  else if negb (bool_decide (state_ (io_conn io) = CS.Connected)) then io
  else if timeout <=? now - last_peer_activity_time_ (io_conn io) then handle_close in_loop io
  else io.

Definition connect_established (in_loop : bool) (io : Io) : Io :=
  if negb in_loop then io
  else if negb (bool_decide (state_ (io_conn io) = CS.Connecting)) then io
  else if registered_ (io_conn io) then io
  else
    let '(added, io) := epoll_ctl BASE_EVENTS io in
    if added then on_conn (λ c, set_state CS.Connected (set_registered true c)) io
    else handle_close in_loop io.

Definition connect_destroyed (in_loop : bool) (io : Io) : Io :=
  if negb in_loop then io
  else if bool_decide (state_ (io_conn io) = CS.Disconnected) then io
  else
    let io := if registered_ (io_conn io) then on_conn (set_registered false) (watch 0 io) else io in
    let io := on_conn (clear_write_buffer_in_loop in_loop) io in
    let io := on_conn close_connection io in
    on_conn (set_state CS.Disconnected) io.

(** The reading loop. *)
Fixpoint read_from_socket_loop (reads : list read_result) (io : Io) : bool * Io :=
  match reads with
  | [] => (true, set_reads [] io)
  | r :: reads =>
      match r with
      | ReadData first more =>
          let data := first :: take 4095 more in
          read_from_socket_loop reads
            (on_conn (λ c, set_read_buffer (append (read_buffer_ c) data) c) io)
      | ReadEof => (true, set_reads reads (on_conn set_peer_eof io))
      | ReadEintr => read_from_socket_loop reads io
      | ReadAgain => (true, set_reads reads io)
      | ReadError => (false, set_reads reads io)
      end
  end.
Definition read_from_socket (io : Io) : bool * Io := read_from_socket_loop (io_reads io) io.

(** The writing loop; [retrieve] is in range, so the assertion cannot fail. *)
Fixpoint write_to_socket_loop (writes : list write_result) (io : Io) : bool * Io :=
  let c := io_conn io in
  if empty (write_buffer_ c) then (true, set_writes writes io)
  else match writes with
  | [] => (true, set_writes [] io)
  | w :: writes =>
      match w with
      | Wrote n =>
          let n := Nat.min (S n) (readable_bytes (write_buffer_ c)) in
          let io := on_wire (take n (peek (write_buffer_ c))) io in
          match retrieve (write_buffer_ c) n with
          | None => (false, io)
          | Some b =>
              write_to_socket_loop writes
                (on_conn (λ c, release_write_bytes (Z.of_nat n) (set_write_buffer b c)) io)
          end
      | WroteZero => (false, set_writes writes io)
      | WriteEintr => write_to_socket_loop writes io
      | WriteAgain => (true, set_writes writes io)
      | WriteError => (false, set_writes writes io)
      end
  end.
Definition write_to_socket (in_loop : bool) (io : Io) : bool * Io :=
  if negb in_loop then (false, io) else write_to_socket_loop (io_writes io) io.

Definition send_in_loop (in_loop : bool) (data : bytes) (io : Io) : Io :=
  if negb in_loop then on_conn (release_write_bytes (zlen data)) io
  else if negb (bool_decide (state_ (io_conn io) = CS.Connected)) || bool_decide (data = [])
  then on_conn (release_write_bytes (zlen data)) io
  else
    let io := on_conn (λ c, set_write_buffer (append (write_buffer_ c) data) c) io in
    let '(ok, io) := write_to_socket in_loop io in
    if negb ok then handle_close in_loop io
    else
      let '(updated, io) := epoll_ctl (need_events (io_conn io)) io in
      if negb updated then handle_close in_loop io else io.

(** [message_callback_], absent or a function of the connection. *)
Definition MessageCallback : Type := option (Io → bool * Io).

(** The part of [handle_event] after a readable event. *)
Definition handle_event_rest (in_loop : bool) (events : Z) (io : Io) : Io :=
  let '(connection_success, io) :=
    if has events EPOLLOUT then write_to_socket in_loop io else (true, io) in
  if negb connection_success || has events (Z.lor EPOLLERR EPOLLHUP) then handle_close in_loop io
  else if peer_eof_ (io_conn io) && empty (write_buffer_ (io_conn io))
  then handle_close in_loop io
  else
    let '(updated, io) := epoll_ctl (need_events (io_conn io)) io in
    if negb updated then handle_close in_loop io else io.

Definition handle_event (in_loop : bool) (message_callback : MessageCallback) (events : Z) (io : Io) : Io :=
  if negb in_loop then io
  else if negb (bool_decide (state_ (io_conn io) = CS.Connected)) then io
  else if has events (Z.lor EPOLLIN EPOLLRDHUP) then
    let '(ok, io) := read_from_socket io in
    if negb ok then handle_close in_loop io
    else match message_callback with
    | None => handle_close in_loop io
    | Some callback =>
        let '(ok, io) := callback io in
        if negb ok then handle_close in_loop io
        else if negb (bool_decide (state_ (io_conn io) = CS.Connected)) then io
        else handle_event_rest in_loop events io
    end
  else handle_event_rest in_loop events io.

(** ** Operations of any thread *)

(** What another thread posts to the loop of the connection. *)
Inductive LoopTask : Type :=
| SendInLoop (data : bytes)
| HandleClose
| CheckTimeout (timeout : Z)
| ConnectEstablished
| ConnectDestroyed.

(** [Connection::send] from another thread: the task to post, or a refusal. *)
Definition send (data : bytes) (c : Connection) : bool * list LoopTask * Connection :=
  if bool_decide (data = []) then (false, [], c)
  else
    let '(reserved, c) := reserve_write_bytes (zlen data) c in
    if negb reserved then (false, [], c) else (true, [SendInLoop data], c).

(** [Connection::send] from the loop thread, where [run_in_loop] runs the task
    at once. *)
Definition send_here (data : bytes) (io : Io) : bool * Io :=
  if bool_decide (data = []) then (false, io)
  else
    let '(reserved, c) := reserve_write_bytes (zlen data) (io_conn io) in
    if negb reserved then (false, io)
    else (true, send_in_loop true data (on_conn (λ _, c) io)).

Definition request_close : list LoopTask := [HandleClose].
Definition check_timeout (timeout : Z) : list LoopTask :=
  if timeout <=? 0 then [] else [CheckTimeout timeout].

(** The loop runs a posted task at time [now]. *)
Definition run_task (now : Z) (t : LoopTask) (io : Io) : Io :=
  match t with
  | SendInLoop data => send_in_loop true data io
  | HandleClose => handle_close true io
  | CheckTimeout timeout => check_timeout_in_loop true now timeout io
  | ConnectEstablished => connect_established true io
  | ConnectDestroyed => connect_destroyed true io
  end.

(** ** Whole runs *)

(** What the message callback may do with its connection. *)
Inductive Action : Type :=
| ASend (data : bytes)
| AConsume (n : nat)
| ARefresh (now : Z)
| AClose.

(** The chunk a send moves to the write buffer. *)
Definition appended (data : bytes) (io : Io) : list bytes :=
  if bool_decide (state_ (io_conn io) = CS.Connected) && negb (bool_decide (data = []))
  then [data] else [].

(** Runs one action and tells which chunks entered the write buffer. *)
Definition act (a : Action) (io : Io) : list bytes * Io :=
  match a with
  | ASend data =>
      let '(ok, io') := send_here data io in
      (if ok then appended data io else [], io')
  | AConsume n =>
      match retrieve (read_buffer_ (io_conn io)) n with
      | Some b => ([], on_conn (set_read_buffer b) io)
      | None => ([], io)
      end
  | ARefresh now => ([], on_conn (refresh_peer_activity true now) io)
  | AClose => ([], handle_close true io)
  end.
Fixpoint run_actions (acts : list Action) (io : Io) : list bytes * Io :=
  match acts with
  | [] => ([], io)
  | a :: acts =>
      let '(sent, io) := act a io in
      let '(more, io) := run_actions acts io in
      (sent ++ more, io)
  end.

(** A connection with the tasks posted to its loop, and the chunks that have
    entered its write buffer so far. *)
Record Link : Type := MkLink {
  lk_io : Io;
  lk_tasks : list LoopTask;
  lk_sent : list bytes
}.
Definition Link_new (now : Z) (reads : list read_result) (writes : list write_result) (epoll : list bool) : Link :=
  MkLink (MkIo (Connection_new now) reads writes epoll [] 0 0) [] [].

(** Sends and close requests of other threads; the loop running its next task,
    acting by itself, or delivering an event whose message callback performs
    some actions and returns [ok]. Each is one step, with the reservation of a
    send and its posting together; [thread_step] takes the reservations apart. *)
Inductive Step : Type :=
| ThreadSend (data : bytes)
| ThreadClose
| ThreadCheck (timeout : Z)
| ThreadConnect
| ThreadDestroy
| LoopTaskStep (now : Z)
| LoopAct (a : Action)
| LoopEvent (events : Z) (acts : list Action) (ok : bool).

Definition post (tasks : list LoopTask) (l : Link) : Link :=
  MkLink (lk_io l) (lk_tasks l ++ tasks) (lk_sent l).

(** The chunks that the message callback sends during [handle_event]. *)
Definition event_sends (events : Z) (acts : list Action) (io : Io) : list bytes :=
  if negb (bool_decide (state_ (io_conn io) = CS.Connected)) then []
  else if has events (Z.lor EPOLLIN EPOLLRDHUP) then
    let '(ok, io) := read_from_socket io in
    if ok then (run_actions acts io).1 else []
  else [].

Definition link_step (s : Step) (l : Link) : Link :=
  match s with
  | ThreadSend data =>
      let '(_, tasks, c) := send data (io_conn (lk_io l)) in
      post tasks (MkLink (on_conn (λ _, c) (lk_io l)) (lk_tasks l) (lk_sent l))
  | ThreadClose => post request_close l
  | ThreadCheck timeout => post (check_timeout timeout) l
  | ThreadConnect => post [ConnectEstablished] l
  | ThreadDestroy => post [ConnectDestroyed] l
  | LoopTaskStep now =>
      match lk_tasks l with
      | [] => l
      | t :: rest =>
          MkLink (run_task now t (lk_io l)) rest
            (lk_sent l ++ match t with SendInLoop data => appended data (lk_io l) | _ => [] end)
      end
  | LoopAct a =>
      let '(sent, io) := act a (lk_io l) in
      MkLink io (lk_tasks l) (lk_sent l ++ sent)
  | LoopEvent events acts ok =>
      MkLink
        (handle_event true (Some (λ io, (ok, (run_actions acts io).2))) events (delivered (lk_io l)))
        (lk_tasks l) (lk_sent l ++ event_sends events acts (delivered (lk_io l)))
  end.
Definition run_link (steps : list Step) (l : Link) : Link := foldl (λ l s, link_step s l) l steps.

(** The chunks that other threads were allowed to send during a run. *)
Fixpoint accepted_sends (steps : list Step) (l : Link) : list bytes :=
  match steps with
  | [] => []
  | s :: steps =>
      match s with
      | ThreadSend data => if (send data (io_conn (lk_io l))).1.1 then [data] else []
      | _ => []
      end ++ accepted_sends steps (link_step s l)
  end.

(** The loop itself sends nothing in this step. *)
Definition silent (s : Step) : Prop :=
  let quiet a := match a with ASend _ => False | _ => True end in
  match s with
  | LoopAct a => quiet a
  | LoopEvent _ acts _ => Forall quiet acts
  | _ => True
  end.

Definition queued_chunks (tasks : list LoopTask) : list bytes :=
  omap (λ t, match t with SendInLoop data => Some data | _ => None end) tasks.

(** Connections only move forward through their life cycle. *)
Definition stage (s : CS.State) : nat :=
  match s with
  | CS.Connecting => 0 | CS.Connected => 1 | CS.Disconnecting => 2 | CS.Disconnected => 3
  end.
Definition io_stage (io : Io) : nat := stage (state_ (io_conn io)).

(** ** The byte budget under concurrency

    [reserve_write_bytes] and [release_write_bytes] as the threads run them: a
    load, the test of the loaded value, and a weak compare-and-swap that may
    also fail by itself, each an atomic step on the shared counter. *)
Inductive Call : Type :=
| Reserve (len : Z)
| Release (len : Z).
Inductive Pc : Type :=
| Start
| Swap (cur : Z)
| Done (ok : bool).
Definition Thread : Type := Call * Pc.

(** The test after [load], or after a failed swap has reloaded [cur]. *)
Definition test_loaded (call : Call) (cur : Z) : Pc :=
  match call with
  | Reserve len =>
      if (WRITE_HARD_LIMIT <? cur) || (WRITE_HARD_LIMIT - cur <? len) then Done false else Swap cur
  | Release len => if cur <? len then Done false else Swap cur
  end.
Definition desired (call : Call) (cur : Z) : Z :=
  match call with Reserve len => cur + len | Release len => cur - len end.
Definition call_len (call : Call) : Z := match call with Reserve len | Release len => len end.

(** A step of one thread: its next program point and the counter's new value. *)
Inductive thread_step (counter : Z) (call : Call) : Pc → Pc → Z → Prop :=
| step_zero : call_len call = 0 →
    thread_step counter call Start
      (Done (match call with Reserve _ => false | Release _ => true end)) counter
| step_load : call_len call ≠ 0 →
    thread_step counter call Start (test_loaded call counter) counter
| step_swap :
    thread_step counter call (Swap counter) (Done true) (desired call counter)
| step_reload cur :
    thread_step counter call (Swap cur) (test_loaded call counter) counter.

(** The interleaving of all threads; the index tells which one moved. *)
Inductive budget_step : Z * list Thread → nat → Z * list Thread → Prop :=
| Budget_step counter ts i call pc pc' counter' :
    ts !! i = Some (call, pc) →
    thread_step counter call pc pc' counter' →
    budget_step (counter, ts) i (counter', <[i := (call, pc')]> ts).
Inductive budget_run : Z * list Thread → Z * list Thread → Prop :=
| run_refl s : budget_run s s
| run_step s i s' s'' : budget_run s s' → budget_step s' i s'' → budget_run s s''.

(** One call done at once: the sequential definitions above. *)
Definition call_atomically (call : Call) (c : Connection) : bool * Connection :=
  match call with
  | Reserve len => reserve_write_bytes len c
  | Release len =>
      (negb (pending_write_bytes_ c <? len) || (len =? 0), release_write_bytes len c)
  end.
Fixpoint calls_in_order (order : list (Call * bool)) (c : Connection) : option Connection :=
  match order with
  | [] => Some c
  | (call, ok) :: order =>
      let '(ok', c) := call_atomically call c in
      if bool_decide (ok = ok') then calls_in_order order c else None
  end.

(** Every thread about to swap has loaded a value that passed its test. *)
Definition thread_ok (t : Thread) : Prop :=
  match t with
  | (call, Swap cur) => call_len call ≠ 0 ∧ test_loaded call cur = Swap cur
  | _ => True
  end.

(** The calls that have returned, with their results. *)
Definition returned (ts : list Thread) : list (Call * bool) :=
  omap (λ '(call, pc), match pc with Done ok => Some (call, ok) | _ => None end) ts.

(** ** Specification *)

(** The bytes that posted sends have reserved and not yet used. *)
Definition task_bytes (t : LoopTask) : Z :=
  match t with SendInLoop data => zlen data | _ => 0 end.
Definition queued_bytes (tasks : list LoopTask) : Z := foldr (λ t n, task_bytes t + n) 0 tasks.

Definition closing (s : CS.State) : bool :=
  match s with CS.Disconnecting | CS.Disconnected => true | _ => false end.

(** Every byte is accounted for: the counter covers the write buffer and [q]
    queued bytes and stays in its limit; what the peer has been given and what
    is still buffered are the chunks [sent], in order and without a gap, until
    the connection closes; and the close callback has run at most once. *)
Record io_inv (q : Z) (sent : list bytes) (io : Io) : Prop := {
  io_write_wf : buffer_wf (write_buffer_ (io_conn io));
  io_read_wf : buffer_wf (read_buffer_ (io_conn io));
  io_pending : pending_write_bytes_ (io_conn io) = zlen (contents (write_buffer_ (io_conn io))) + q;
  io_queued : 0 <= q;
  io_limit : pending_write_bytes_ (io_conn io) <= WRITE_HARD_LIMIT;
  io_prefix : io_wire io ++ contents (write_buffer_ (io_conn io)) `prefix_of` concat sent;
  io_stream : state_ (io_conn io) = CS.Connected →
    io_wire io ++ contents (write_buffer_ (io_conn io)) = concat sent;
  io_idle : state_ (io_conn io) ≠ CS.Connected → contents (write_buffer_ (io_conn io)) = [];
  io_early : state_ (io_conn io) = CS.Connecting → sent = [];
  io_closed_once : (io_close_calls io <= if closing (state_ (io_conn io)) then 1 else 0)%nat
}.

Definition link_inv (l : Link) : Prop :=
  io_inv (queued_bytes (lk_tasks l)) (lk_sent l) (lk_io l).

(** * Proofs *)

#[local] Arguments zlen : simpl never.
#[local] Arguments contents : simpl never.
#[local] Arguments clear_write_buffer_in_loop : simpl never.
#[local] Arguments release_write_bytes : simpl never.
#[local] Arguments handle_close : simpl never.

Lemma Link_new_inv now reads writes epoll : link_inv (Link_new now reads writes epoll).
Proof.
  split; cbn; try done; try lia; try apply Buffer_new_wf.
Qed.

Lemma contents_empty b : buffer_wf b → empty b = true ↔ contents b = [].
Proof.
  intros Hwf. pose proof (contents_length b Hwf) as Hl. unfold empty.
  rewrite Nat.eqb_eq. unfold buffer_wf, readable_bytes in *. split.
  - intros. apply length_zero_iff_nil. lia.
  - intros Hc. rewrite Hc in Hl. cbn in Hl. lia.
Qed.

Lemma readable_zlen b : buffer_wf b → Z.of_nat (readable_bytes b) = zlen (contents b).
Proof. intros. unfold zlen. by rewrite contents_length. Qed.

Lemma reserve_write_bytes_spec len c :
  0 < len → 0 <= pending_write_bytes_ c →
  reserve_write_bytes len c =
    if pending_write_bytes_ c + len <=? WRITE_HARD_LIMIT
    then (true, set_pending (pending_write_bytes_ c + len) c) else (false, c).
Proof.
  intros Hl Hp. unfold reserve_write_bytes.
  destruct (Z.eqb_spec len 0); [lia|].
  destruct (Z.ltb_spec WRITE_HARD_LIMIT (pending_write_bytes_ c)),
    (Z.ltb_spec (WRITE_HARD_LIMIT - pending_write_bytes_ c) len),
    (Z.leb_spec (pending_write_bytes_ c + len) WRITE_HARD_LIMIT); cbn; done || lia.
Qed.

(** Giving back what was reserved never reaches the error branch. *)
Lemma release_write_bytes_spec len c :
  0 <= len <= pending_write_bytes_ c →
  release_write_bytes len c = set_pending (pending_write_bytes_ c - len) c.
Proof.
  intros Hl. unfold release_write_bytes.
  destruct (Z.eqb_spec len 0) as [->|].
  - rewrite Z.sub_0_r. by destruct c.
  - destruct (Z.ltb_spec (pending_write_bytes_ c) len); [lia|done].
Qed.

(** The fields of the surroundings an update leaves alone. *)
Ltac io_solve :=
  cbn in *; try done; try lia; try (intros; congruence).

Lemma io_inv_pending_nonneg q sent io : io_inv q sent io → 0 <= pending_write_bytes_ (io_conn io).
Proof. intros [? ? -> ?]. pose proof (zlen_nonneg (contents (write_buffer_ (io_conn io)))). lia. Qed.

Lemma io_inv_reads q sent io rs : io_inv q sent io → io_inv q sent (set_reads rs io).
Proof. by intros []. Qed.
Lemma io_inv_writes q sent io ws : io_inv q sent io → io_inv q sent (set_writes ws io).
Proof. by intros []. Qed.
Lemma io_inv_peer_eof q sent io : io_inv q sent io → io_inv q sent (on_conn set_peer_eof io).
Proof. by intros []. Qed.
Lemma io_inv_registered q sent io b : io_inv q sent io → io_inv q sent (on_conn (set_registered b) io).
Proof. by intros []. Qed.
Lemma io_inv_close q sent io : io_inv q sent io → io_inv q sent (on_conn close_connection io).
Proof.
  intros []. unfold on_conn, close_connection. cbn.
  destruct (close_ (io_conn io)) eqn:?; by split; cbn.
Qed.
Lemma io_inv_read_buffer q sent io b :
  buffer_wf b → io_inv q sent io → io_inv q sent (on_conn (set_read_buffer b) io).
Proof. by intros ? []. Qed.
Lemma io_inv_refresh q sent io b now :
  io_inv q sent io → io_inv q sent (on_conn (refresh_peer_activity b now) io).
Proof.
  intros []. unfold on_conn, refresh_peer_activity.
  destruct b, (bool_decide (state_ (io_conn io) = CS.Connected)); by split; cbn.
Qed.
Lemma io_inv_watch q sent io events : io_inv q sent io → io_inv q sent (watch events io).
Proof. by intros []. Qed.
Lemma io_inv_epoll q sent io events : io_inv q sent io → io_inv q sent (epoll_ctl events io).2.
Proof. intros []. unfold epoll_ctl. destruct (io_epoll io); by split; cbn. Qed.
#[local] Hint Resolve io_inv_reads io_inv_writes io_inv_peer_eof io_inv_registered io_inv_close
  io_inv_read_buffer io_inv_refresh io_inv_watch io_inv_epoll : lw_wf.

Lemma clear_write_buffer_spec q sent io :
  io_inv q sent io →
  clear_write_buffer_in_loop true (io_conn io) =
    if (readable_bytes (write_buffer_ (io_conn io)) =? 0)%nat then io_conn io
    else set_pending q (set_write_buffer (retrieve_all (write_buffer_ (io_conn io))) (io_conn io)).
Proof.
  intros []. unfold clear_write_buffer_in_loop. cbn.
  destruct (Nat.eqb_spec (readable_bytes (write_buffer_ (io_conn io))) 0); [done|].
  rewrite readable_zlen by done.
  pose proof (zlen_nonneg (contents (write_buffer_ (io_conn io)))).
  rewrite release_write_bytes_spec by (cbn; lia).
  cbn. f_equal. lia.
Qed.

(** Leaving the connected state discards what is buffered and its budget. *)
Lemma io_inv_leave q sent io s n :
  io_inv q sent io → s ≠ CS.Connected → s ≠ CS.Connecting →
  (n <= if closing s then 1 else 0)%nat →
  io_inv q sent (MkIo (set_state s (clear_write_buffer_in_loop true (io_conn io)))
    (io_reads io) (io_writes io) (io_epoll io) (io_wire io) n (io_events io)).
Proof.
  intros Hinv Hs Hs' Hn. rewrite (clear_write_buffer_spec q sent io Hinv). destruct Hinv.
  destruct (Nat.eqb_spec (readable_bytes (write_buffer_ (io_conn io))) 0) as [E|E];
    rewrite <-(contents_length _ io_write_wf0) in E.
  - apply length_zero_iff_nil in E. split; try done.
  - split; io_solve; try by (intros; destruct Hs').
    + unfold buffer_wf. cbn. lia.
    + pose proof (zlen_nonneg (contents (write_buffer_ (io_conn io)))). lia.
    + change (contents _) with (@nil byte) at 1. rewrite app_nil_r.
      etrans; [by eexists|done].
Qed.

Lemma clear_set_state b s c :
  clear_write_buffer_in_loop b (set_state s c) = set_state s (clear_write_buffer_in_loop b c).
Proof.
  unfold clear_write_buffer_in_loop, release_write_bytes. cbn. branches.
Qed.

Lemma handle_close_inv q sent io : io_inv q sent io → io_inv q sent (handle_close true io).
Proof.
  intros Hinv. unfold handle_close. cbn. case_test E; [done|]. to_prop.
  assert (Hc : io_close_calls io = 0%nat).
  { destruct Hinv. destruct (state_ (io_conn io)); io_solve; by destruct_or!. }
  unfold on_conn, call_close_callback. cbn. rewrite clear_set_state, Hc.
  by apply io_inv_leave.
Qed.

Lemma handle_close_state io : state_ (io_conn (handle_close true io)) ≠ CS.Connected.
Proof.
  unfold handle_close. cbn. case_test E; to_prop.
  - destruct E as [E|E]; to_prop; by rewrite E.
  - unfold on_conn, call_close_callback. cbn. by rewrite clear_set_state.
Qed.

Lemma connect_destroyed_inv q sent io : io_inv q sent io → io_inv q sent (connect_destroyed true io).
Proof.
  intros Hinv. unfold connect_destroyed. cbn. case_test E; [done|]. to_prop.
  set (io1 := if registered_ (io_conn io) then _ else io).
  assert (H1 : io_inv q sent io1) by (unfold io1; destruct (registered_ _); auto with lw_wf).
  pose proof (io_inv_leave q sent io1 CS.Disconnected (io_close_calls io1) H1) as H2.
  specialize (H2 ltac:(done) ltac:(done)). cbn in H2.
  apply io_inv_close in H2; [|destruct H1; destruct (closing _); lia].
  unfold on_conn in *. cbn in *. unfold close_connection in *. cbn in *.
  destruct (close_ _); done.
Qed.

Lemma connect_established_inv q sent io : io_inv q sent io → io_inv q sent (connect_established true io).
Proof.
  intros Hinv. unfold connect_established. cbn. case_test E; [done|]. case_test E'; [done|].
  destruct (epoll_ctl BASE_EVENTS io) as [added io'] eqn:Hio.
  pose proof (io_inv_epoll q sent io BASE_EVENTS Hinv) as H'. rewrite Hio in H'. cbn in H'.
  destruct added; [|by apply handle_close_inv].
  assert (state_ (io_conn io') = CS.Connecting) as Hst.
  { unfold epoll_ctl in Hio. to_prop. destruct (io_epoll io); simplify_eq; done. }
  destruct H'. split; io_solve.
  - intros _. rewrite io_early0 in * by done. cbn in *. by apply prefix_nil_inv in io_prefix0.
  - destruct (state_ (io_conn io')); done.
Qed.

Lemma check_timeout_inv q sent io now timeout :
  io_inv q sent io → io_inv q sent (check_timeout_in_loop true now timeout io).
Proof.
  intros Hinv. unfold check_timeout_in_loop. cbn. branches.
  by apply handle_close_inv.
Qed.

Lemma read_from_socket_inv q sent io : io_inv q sent io → io_inv q sent (read_from_socket io).2.
Proof.
  unfold read_from_socket. generalize (io_reads io) at 1. intros rs. revert io.
  induction rs as [|r rs IH]; intros io Hinv; cbn [read_from_socket_loop].
  - by apply io_inv_reads.
  - destruct r; cbn [snd]; try (by auto with lw_wf).
    apply IH. destruct Hinv. split; io_solve. by apply append_spec.
Qed.

Lemma read_from_socket_state io : state_ (io_conn (read_from_socket io).2) = state_ (io_conn io).
Proof.
  unfold read_from_socket. generalize (io_reads io) at 1. intros rs. revert io.
  induction rs as [|r rs IH]; intros io; cbn [read_from_socket_loop]; [done|].
  destruct r; cbn [snd]; try done; by rewrite IH.
Qed.

Lemma write_to_socket_loop_inv q sent ws io :
  io_inv q sent io → io_inv q sent (write_to_socket_loop ws io).2.
Proof.
  revert io. induction ws as [|w ws IH]; intros io Hinv; cbn [write_to_socket_loop].
  { destruct (empty _); by apply io_inv_writes. }
  destruct (empty (write_buffer_ (io_conn io))) eqn:Hempty; [by apply io_inv_writes|].
  destruct w; cbn [snd]; try (by auto with lw_wf).
  destruct Hinv. set (b := write_buffer_ (io_conn io)) in *.
  assert (Hkb : (Nat.min (S n) (readable_bytes b) <= readable_bytes b)%nat) by lia.
  revert Hkb. generalize (Nat.min (S n) (readable_bytes b)). intros k Hkb.
  destruct (retrieve_spec b k io_write_wf0 ltac:(lia)) as (b' & -> & Hwf & Hc).
  assert (Hk : (k <= length (contents b))%nat) by (rewrite contents_length by done; lia).
  assert (Hz : zlen (contents b') = zlen (contents b) - Z.of_nat k).
  { rewrite Hc. unfold zlen. rewrite length_drop. lia. }
  assert (Hw : (io_wire io ++ take k (peek b)) ++ contents b' = io_wire io ++ contents b).
  { rewrite Hc, peek_contents, <-app_assoc, take_drop by lia. done. }
  apply IH. unfold on_conn, on_wire. cbn.
  rewrite release_write_bytes_spec by (cbn; unfold zlen in *; lia).
  split; io_solve; try (by rewrite Hw).
  intros Hs. rewrite Hc, io_idle0 by done. by rewrite drop_nil.
Qed.

Lemma write_to_socket_inv q sent io : io_inv q sent io → io_inv q sent (write_to_socket true io).2.
Proof. apply write_to_socket_loop_inv. Qed.
#[local] Hint Resolve handle_close_inv connect_destroyed_inv connect_established_inv
  check_timeout_inv read_from_socket_inv write_to_socket_inv : lw_wf.

#[local] Arguments write_to_socket : simpl never.
#[local] Arguments read_from_socket : simpl never.

(** The end of every handler that may have left something to write. *)
Lemma io_inv_rearm q sent io :
  io_inv q sent io →
  io_inv q sent (let '(updated, io) := epoll_ctl (need_events (io_conn io)) io in
                 if negb updated then handle_close true io else io).
Proof.
  intros Hinv. pose proof (io_inv_epoll q sent io (need_events (io_conn io)) Hinv).
  destruct (epoll_ctl _ io) as [[] io']; cbn in *; auto with lw_wf.
Qed.

Lemma io_inv_append q sent data io :
  state_ (io_conn io) = CS.Connected → io_inv (q + zlen data) sent io → 0 <= q →
  io_inv q (sent ++ [data])
    (on_conn (λ c, set_write_buffer (append (write_buffer_ c) data) c) io).
Proof.
  intros Hs [] Hq. destruct (append_spec (write_buffer_ (io_conn io)) data io_write_wf0) as [Hwf Hc].
  split; io_solve; rewrite ?Hc, ?zlen_app, ?concat_app, ?app_assoc, ?io_stream0 by done; cbn.
  - lia.
  - by rewrite app_nil_r.
  - by rewrite app_nil_r.
Qed.

Lemma io_inv_release q sent n io :
  io_inv (q + n) sent io → 0 <= q → 0 <= n →
  io_inv q sent (on_conn (release_write_bytes n) io).
Proof.
  intros [] Hq Hn. pose proof (zlen_nonneg (contents (write_buffer_ (io_conn io)))).
  unfold on_conn. rewrite release_write_bytes_spec by lia. split; io_solve.
Qed.

Lemma send_in_loop_inv q sent data io :
  io_inv (q + zlen data) sent io → 0 <= q →
  io_inv q (sent ++ appended data io) (send_in_loop true data io).
Proof.
  intros Hinv Hq. pose proof (zlen_nonneg data). unfold send_in_loop, appended. cbn [negb].
  destruct (decide (state_ (io_conn io) = CS.Connected)) as [Hs|Hs];
    [rewrite bool_decide_true by done|rewrite bool_decide_false by done]; cbn [negb orb andb].
  - destruct (decide (data = [])) as [Hd|Hd];
      [rewrite bool_decide_true by done|rewrite bool_decide_false by done]; cbn [negb].
    + rewrite app_nil_r. by apply io_inv_release.
    + pose proof (io_inv_append q sent data io Hs Hinv Hq) as H1.
      apply write_to_socket_inv in H1.
      destruct (write_to_socket true _) as [[] io']; cbn in H1 |- *; [|auto with lw_wf].
      by apply io_inv_rearm.
  - rewrite app_nil_r. by apply io_inv_release.
Qed.

Lemma send_here_inv q sent data io :
  io_inv q sent io →
  io_inv q (sent ++ if (send_here data io).1 then appended data io else []) (send_here data io).2.
Proof.
  intros Hinv. pose proof (io_inv_pending_nonneg _ _ _ Hinv). unfold send_here.
  case_bool_decide as Hd; [by rewrite app_nil_r|].
  pose proof (zlen_pos data Hd). rewrite reserve_write_bytes_spec by done.
  destruct (Z.leb_spec (pending_write_bytes_ (io_conn io) + zlen data) WRITE_HARD_LIMIT); cbn [negb fst snd];
    [|by rewrite app_nil_r].
  set (io' := on_conn _ io). change (appended data io) with (appended data io').
  apply send_in_loop_inv; [|by destruct Hinv].
  destruct Hinv. split; io_solve.
Qed.

Lemma act_inv q sent a io :
  io_inv q sent io → io_inv q (sent ++ (act a io).1) (act a io).2.
Proof.
  intros Hinv. destruct a; cbn.
  - pose proof (send_here_inv q sent data io Hinv). by destruct (send_here data io).
  - destruct (retrieve _ _) as [b|] eqn:Hb; cbn; rewrite app_nil_r; [|done].
    apply io_inv_read_buffer; [|done]. destruct Hinv.
    destruct (decide (n <= readable_bytes (read_buffer_ (io_conn io)))%nat) as [Hn|Hn].
    + destruct (retrieve_spec _ n io_read_wf0 Hn) as (? & ? & ? & ?). by simplify_eq.
    + rewrite retrieve_assert in Hb by lia. done.
  - rewrite app_nil_r. auto with lw_wf.
  - rewrite app_nil_r. auto with lw_wf.
Qed.

Lemma run_actions_inv q sent acts io :
  io_inv q sent io → io_inv q (sent ++ (run_actions acts io).1) (run_actions acts io).2.
Proof.
  revert sent io. induction acts as [|a acts IH]; intros sent io Hinv; cbn.
  - by rewrite app_nil_r.
  - apply (act_inv q sent a) in Hinv. destruct (act a io) as [s io1]; cbn in *.
    apply IH in Hinv. destruct (run_actions acts io1); cbn in *. by rewrite app_assoc.
Qed.

Lemma handle_event_rest_inv q sent events io :
  io_inv q sent io → io_inv q sent (handle_event_rest true events io).
Proof.
  intros Hinv. unfold handle_event_rest.
  set (r := if has events EPOLLOUT then write_to_socket true io else (true, io)).
  assert (Hr : io_inv q sent r.2) by (unfold r; destruct (has events EPOLLOUT); auto with lw_wf).
  destruct r as [ok io']; cbn [snd] in Hr.
  case_test E; [auto with lw_wf|]. case_test E'; [auto with lw_wf|].
  by apply io_inv_rearm.
Qed.

Lemma handle_event_inv q sent events acts ok io :
  io_inv q sent io →
  io_inv q (sent ++ event_sends events acts io)
    (handle_event true (Some (λ io, (ok, (run_actions acts io).2))) events io).
Proof.
  intros Hinv. unfold handle_event, event_sends. cbn [negb].
  case_test E; [by rewrite app_nil_r|].
  case_test E'; [|rewrite app_nil_r; by apply handle_event_rest_inv].
  pose proof (read_from_socket_inv q sent io Hinv) as H1.
  destruct (read_from_socket io) as [[] io1]; cbn in H1 |- *;
    [|rewrite app_nil_r; auto with lw_wf].
  apply (run_actions_inv q sent acts) in H1.
  case_test E2; [by auto with lw_wf|]. case_test E3; [done|].
  by apply handle_event_rest_inv.
Qed.

Lemma queued_bytes_app ts us : queued_bytes (ts ++ us) = queued_bytes ts + queued_bytes us.
Proof. unfold queued_bytes. induction ts; cbn; lia. Qed.

Lemma queued_bytes_nonneg ts : 0 <= queued_bytes ts.
Proof.
  unfold queued_bytes. induction ts as [|t ts IH]; cbn; [done|].
  destruct t; cbn; try lia. pose proof (zlen_nonneg data). lia.
Qed.

Lemma post_inv tasks l : queued_bytes tasks = 0 → link_inv l → link_inv (post tasks l).
Proof. intros Ht. unfold link_inv. cbn. by rewrite queued_bytes_app, Ht, Z.add_0_r. Qed.

Lemma run_task_inv q sent now t io :
  io_inv (task_bytes t + q) sent io → 0 <= q →
  io_inv q (sent ++ match t with SendInLoop data => appended data io | _ => [] end)
    (run_task now t io).
Proof.
  intros Hinv Hq. destruct t; cbn [task_bytes run_task] in *;
    rewrite ?Z.add_0_l in Hinv; rewrite ?app_nil_r; try (by auto with lw_wf).
  apply send_in_loop_inv; [|done]. by rewrite Z.add_comm.
Qed.

Lemma send_spec data c :
  0 <= pending_write_bytes_ c →
  send data c =
    if negb (bool_decide (data = [])) && (pending_write_bytes_ c + zlen data <=? WRITE_HARD_LIMIT)
    then (true, [SendInLoop data], set_pending (pending_write_bytes_ c + zlen data) c)
    else (false, [], c).
Proof.
  intros Hp. unfold send. case_bool_decide as Hd; [done|].
  rewrite reserve_write_bytes_spec by (done || by apply zlen_pos). cbn.
  by destruct (pending_write_bytes_ c + zlen data <=? WRITE_HARD_LIMIT).
Qed.

Lemma link_step_inv s l : link_inv l → link_inv (link_step s l).
Proof.
  intros Hinv. destruct s; cbn.
  - unfold link_inv in *. rewrite send_spec by (by eapply io_inv_pending_nonneg).
    destruct (negb _ && _) eqn:E; cbn; rewrite queued_bytes_app; cbn;
      [|rewrite Z.add_0_r; by destruct Hinv].
    to_prop. pose proof (zlen_nonneg data). destruct Hinv. split; io_solve.
  - by apply post_inv.
  - apply post_inv; [|done]. unfold check_timeout. by destruct (timeout <=? 0).
  - by apply post_inv.
  - by apply post_inv.
  - unfold link_inv in *. destruct (lk_tasks l) as [|t rest] eqn:Ht; [by rewrite Ht|].
    cbn in Hinv |- *. apply run_task_inv; [done|]. apply queued_bytes_nonneg.
  - pose proof (act_inv _ _ a _ Hinv). unfold link_inv. by destruct (act a (lk_io l)).
  - exact (handle_event_inv _ _ events acts ok (delivered (lk_io l)) (io_inv_watch _ _ _ 0 Hinv)).
Qed.

Lemma run_link_inv steps l : link_inv l → link_inv (run_link steps l).
Proof.
  unfold run_link. revert l. induction steps as [|s steps IH]; intros l Hl; cbn; [done|].
  by apply IH, link_step_inv.
Qed.

(** *** The life cycle moves forward *)

Lemma release_state n c : state_ (release_write_bytes n c) = state_ c.
Proof. unfold release_write_bytes. branches. Qed.

Lemma clear_state c : state_ (clear_write_buffer_in_loop true c) = state_ c.
Proof.
  unfold clear_write_buffer_in_loop. cbn. case_test E; [done|]. by rewrite release_state.
Qed.

Lemma handle_close_stage io : (io_stage io <= io_stage (handle_close true io))%nat.
Proof.
  unfold handle_close, io_stage. cbn. case_test E; [done|]. to_prop.
  unfold on_conn, call_close_callback. cbn. rewrite clear_set_state. cbn.
  destruct (state_ (io_conn io)); cbn; done || lia.
Qed.

Lemma write_to_socket_stage io : io_stage (write_to_socket true io).2 = io_stage io.
Proof.
  unfold write_to_socket, io_stage. cbn. generalize (io_writes io) at 1. intros ws. revert io.
  induction ws as [|w ws IH]; intros io; cbn [write_to_socket_loop]; case_test E; try done.
  destruct w; cbn [snd]; try (by rewrite ?IH).
  destruct (retrieve _ _); [|done]. rewrite IH. cbn. by rewrite release_state.
Qed.

Lemma rearm_stage io :
  (io_stage io <= io_stage (let '(updated, io) := epoll_ctl (need_events (io_conn io)) io in
                 if negb updated then handle_close true io else io))%nat.
Proof.
  unfold epoll_ctl. destruct (io_epoll io) as [|[] rest]; cbn; [done..|].
  etrans; [|apply handle_close_stage]. done.
Qed.

Lemma send_in_loop_stage data io : (io_stage io <= io_stage (send_in_loop true data io))%nat.
Proof.
  unfold send_in_loop. cbn [negb]. case_test E.
  { unfold io_stage. cbn. by rewrite release_state. }
  set (io1 := on_conn _ io). change (io_stage io) with (io_stage io1).
  rewrite <-(write_to_socket_stage io1).
  destruct (write_to_socket true io1) as [[] io2]; cbn [snd negb];
    [apply rearm_stage|apply handle_close_stage].
Qed.

#[local] Arguments send_in_loop : simpl never.

Lemma act_stage a io : (io_stage io <= io_stage (act a io).2)%nat.
Proof.
  destruct a; cbn.
  - unfold send_here, reserve_write_bytes. case_bool_decide; [done|].
    repeat (step_match; cbn; try done); simplify_eq; try done;
      (etrans; [|apply send_in_loop_stage]; done).
  - by destruct (retrieve _ _).
  - unfold refresh_peer_activity, io_stage. cbn. by case_bool_decide.
  - apply handle_close_stage.
Qed.

Lemma run_actions_stage acts io : (io_stage io <= io_stage (run_actions acts io).2)%nat.
Proof.
  revert io. induction acts as [|a acts IH]; intros io; cbn; [done|].
  pose proof (act_stage a io) as H. destruct (act a io) as [sent io1]; cbn in H.
  specialize (IH io1). destruct (run_actions acts io1); cbn in *. lia.
Qed.

Lemma handle_event_rest_stage events io :
  (io_stage io <= io_stage (handle_event_rest true events io))%nat.
Proof.
  unfold handle_event_rest.
  set (r := if has events EPOLLOUT then write_to_socket true io else (true, io)).
  assert (Hr : io_stage r.2 = io_stage io).
  { unfold r. destruct (has events EPOLLOUT); [apply write_to_socket_stage|done]. }
  destruct r as [ok io']; cbn [snd] in Hr. rewrite <-Hr.
  case_test E; [apply handle_close_stage|]. case_test E'; [apply handle_close_stage|].
  apply rearm_stage.
Qed.

Lemma handle_event_stage callback events io :
  (∀ io, io_stage io <= io_stage (callback io).2)%nat →
  (io_stage io <= io_stage (handle_event true (Some callback) events io))%nat.
Proof.
  intros Hcb. unfold handle_event. cbn [negb]. case_test E; [done|].
  case_test E'; [|apply handle_event_rest_stage].
  assert (Hr : io_stage (read_from_socket io).2 = io_stage io).
  { unfold io_stage. by rewrite read_from_socket_state. }
  destruct (read_from_socket io) as [[] io1]; cbn [negb snd] in *; rewrite <-Hr;
    [|apply handle_close_stage].
  specialize (Hcb io1). destruct (callback io1) as [ok io2]; cbn [snd] in Hcb.
  etrans; [exact Hcb|].
  case_test E1; [apply handle_close_stage|]. case_test E2; [done|].
  apply handle_event_rest_stage.
Qed.

Lemma run_task_stage now t io : (io_stage io <= io_stage (run_task now t io))%nat.
Proof.
  destruct t; cbn [run_task].
  - apply send_in_loop_stage.
  - apply handle_close_stage.
  - unfold check_timeout_in_loop. cbn [negb]. branches. apply handle_close_stage.
  - unfold connect_established, epoll_ctl. cbn [negb]. branches; simplify_eq; to_prop.
    + unfold io_stage. rewrite Heqb. cbn. lia.
    + unfold io_stage. rewrite Heqb. cbn. lia.
    + etrans; [|apply handle_close_stage]. done.
  - unfold connect_destroyed, io_stage. cbn [negb]. case_test E; [done|].
    unfold on_conn. cbn. destruct (state_ (io_conn io)); cbn; done || lia.
Qed.

#[local] Arguments handle_event : simpl never.
#[local] Arguments run_task : simpl never.

Lemma link_step_stage s l : (io_stage (lk_io l) <= io_stage (lk_io (link_step s l)))%nat.
Proof.
  destruct s; cbn; try done.
  - unfold send, reserve_write_bytes. case_bool_decide; [done|].
    repeat (step_match; cbn; try done); by simplify_eq.
  - destruct (lk_tasks l) as [|t rest]; [done|]. apply run_task_stage.
  - pose proof (act_stage a (lk_io l)). by destruct (act a (lk_io l)).
  - change (io_stage (lk_io l)) with (io_stage (delivered (lk_io l))).
    apply handle_event_stage. intros io'. apply run_actions_stage.
Qed.

Lemma run_link_stage steps l : (io_stage (lk_io l) <= io_stage (lk_io (run_link steps l)))%nat.
Proof.
  unfold run_link. revert l. induction steps as [|s steps IH]; intros l; cbn; [done|].
  etrans; [apply link_step_stage|apply IH].
Qed.

Lemma io_stage_connected io : state_ (io_conn io) = CS.Connected ↔ io_stage io = 1%nat.
Proof. unfold io_stage. by destruct (state_ (io_conn io)). Qed.

(** *** What the kernel watches for *)

(** While the connection is up, the kernel watches its socket, and for
    writability exactly while bytes are buffered. *)
Definition watched (io : Io) : Prop :=
  state_ (io_conn io) = CS.Connected → io_events io = need_events (io_conn io).

Lemma watched_down io : state_ (io_conn io) ≠ CS.Connected → watched io.
Proof. by intros ? ?. Qed.

Lemma watched_same io io' :
  state_ (io_conn io') = state_ (io_conn io) → write_buffer_ (io_conn io') = write_buffer_ (io_conn io) →
  io_events io' = io_events io → watched io → watched io'.
Proof. unfold watched, need_events. intros -> -> ->. done. Qed.

Lemma watched_close io : watched (handle_close true io).
Proof. apply watched_down, handle_close_state. Qed.

(** Whatever was watched before. *)
Lemma watched_rearm io :
  watched (let '(updated, io) := epoll_ctl (need_events (io_conn io)) io in
           if negb updated then handle_close true io else io).
Proof.
  unfold epoll_ctl. destruct (io_epoll io) as [|[] rest]; cbn [negb]; [done|done|apply watched_close].
Qed.

Lemma release_write n c : write_buffer_ (release_write_bytes n c) = write_buffer_ c.
Proof. unfold release_write_bytes. branches. Qed.

Lemma watched_release n io : watched io → watched (on_conn (release_write_bytes n) io).
Proof. apply watched_same; cbn; [apply release_state|apply release_write|done]. Qed.

Lemma watched_send_in_loop data io : watched io → watched (send_in_loop true data io).
Proof.
  intros Hio. unfold send_in_loop. cbn [negb]. case_test E; [by apply watched_release|].
  destruct (write_to_socket true _) as [[] io']; cbn [negb]; [apply watched_rearm|apply watched_close].
Qed.

Lemma watched_act a io : watched io → watched (act a io).2.
Proof.
  intros Hio. destruct a; cbn [act].
  - unfold send_here. case_bool_decide; [done|].
    destruct (reserve_write_bytes (zlen data) (io_conn io)) as [reserved c] eqn:Hr. destruct reserved; [|done]. cbn.
    apply watched_send_in_loop. apply (watched_same io); [..|done|done]; cbn;
      unfold reserve_write_bytes in Hr; branches_in Hr; by simplify_eq.
  - destruct (retrieve _ _); [|done]. by apply (watched_same io).
  - apply (watched_same io); [..|done|done]; cbn; unfold refresh_peer_activity; branches.
  - apply watched_close.
Qed.

Lemma watched_event_rest events io : watched (handle_event_rest true events io).
Proof.
  unfold handle_event_rest. destruct (if has events EPOLLOUT then _ else _) as [ok io'].
  case_test E; [apply watched_close|]. case_test E'; [apply watched_close|]. apply watched_rearm.
Qed.

(** The handler watches again whatever its callback does. *)
Lemma watched_event callback events io : watched (handle_event true callback events io).
Proof.
  unfold handle_event. cbn [negb]. case_test E; [apply watched_down; by to_prop|].
  case_test E'; [|apply watched_event_rest].
  destruct (read_from_socket io) as [[] io1]; cbn [negb]; [|apply watched_close].
  destruct callback as [f|]; [|apply watched_close]. destruct (f io1) as [[] io2]; cbn [negb]; [|apply watched_close].
  case_test E2; [apply watched_down; by to_prop|apply watched_event_rest].
Qed.

Lemma watched_task q sent now t io : io_inv q sent io → watched io → watched (run_task now t io).
Proof.
  intros Hinv Hio. destruct t; unfold run_task.
  - by apply watched_send_in_loop.
  - apply watched_close.
  - unfold check_timeout_in_loop. cbn [negb]. branches. apply watched_close.
  - unfold connect_established. cbn [negb]. case_test E; [done|]. case_test E'; [done|]. to_prop.
    assert (Hempty : empty (write_buffer_ (io_conn io)) = true).
    { apply contents_empty; [apply Hinv|]. apply (io_idle _ _ _ Hinv). by rewrite E. }
    unfold epoll_ctl. destruct (io_epoll io) as [|[] rest]; [..|apply watched_close];
      intros _; unfold need_events; cbn; by rewrite Hempty.
  - unfold connect_destroyed. cbn [negb]. case_test E; [done|by apply watched_down].
Qed.

Lemma watched_step s l : link_inv l → watched (lk_io l) → watched (lk_io (link_step s l)).
Proof.
  intros Hinv Hio. destruct s; cbn [link_step]; try done.
  - rewrite send_spec by (by eapply io_inv_pending_nonneg). destruct (_ && _); [|done]. by apply (watched_same (lk_io l)).
  - destruct (lk_tasks l) as [|t rest]; [done|]. by eapply watched_task.
  - pose proof (watched_act a (lk_io l) Hio). by destruct (act a (lk_io l)).
  - apply watched_event.
Qed.

Lemma watched_run steps l : link_inv l → watched (lk_io l) → watched (lk_io (run_link steps l)).
Proof.
  unfold run_link. revert l. induction steps as [|s steps IH]; intros l Hl Hio; [done|].
  by apply IH; [apply link_step_inv|apply watched_step].
Qed.

(** *** The order of the sends of other threads *)

Lemma queued_chunks_app ts us : queued_chunks (ts ++ us) = queued_chunks ts ++ queued_chunks us.
Proof. apply omap_app. Qed.

Lemma silent_act a io : silent (LoopAct a) → (act a io).1 = [].
Proof. destruct a; cbn; try done. by destruct (retrieve _ _). Qed.

Lemma silent_actions acts io :
  Forall (λ a, silent (LoopAct a)) acts → (run_actions acts io).1 = [].
Proof.
  intros Hs. revert io. induction Hs as [|a acts Ha _ IH]; intros io; cbn; [done|].
  pose proof (silent_act a io Ha). destruct (act a io) as [sent io1]; cbn in *.
  specialize (IH io1). destruct (run_actions acts io1); cbn in *. by subst.
Qed.

Lemma silent_step_flow s l :
  silent s → state_ (io_conn (lk_io l)) = CS.Connected →
  concat (lk_sent (link_step s l) ++ queued_chunks (lk_tasks (link_step s l))) =
    concat (lk_sent l ++ queued_chunks (lk_tasks l) ++ accepted_sends [s] l).
Proof.
  intros Hs Hc. destruct s; cbn -[concat]; rewrite ?queued_chunks_app, ?app_nil_r; try done.
  - destruct (send data (io_conn (lk_io l))) as [[ok tasks] c] eqn:E. cbn -[concat].
    rewrite queued_chunks_app. do 3 f_equal. revert E. unfold send, reserve_write_bytes.
    case_bool_decide; [by intros; simplify_eq|].
    do 2 (step_match; cbn [negb]; try (by intros; simplify_eq)).
  - unfold check_timeout. by destruct (timeout <=? 0); rewrite ?app_nil_r.
  - destruct (lk_tasks l) as [|t rest] eqn:Ht; cbn -[concat]; [by rewrite Ht|].
    destruct t; cbn -[concat]; rewrite ?app_nil_r; try done.
    unfold appended. rewrite bool_decide_true by done. case_bool_decide as Hd; cbn -[concat].
    + subst. by rewrite !concat_app, app_nil_r.
    + by rewrite <-app_assoc.
  - pose proof (silent_act a (lk_io l) Hs) as H. destruct (act a (lk_io l)); cbn -[concat] in *.
    subst. by rewrite app_nil_r.
  - unfold event_sends. do 2 (step_match; rewrite ?app_nil_r; try done).
    destruct (read_from_socket (delivered (lk_io l))) as [[] io1]; rewrite ?app_nil_r; [|done].
    by rewrite silent_actions, app_nil_r.
Qed.

Lemma silent_run_flow steps l :
  Forall silent steps → state_ (io_conn (lk_io l)) = CS.Connected →
  state_ (io_conn (lk_io (run_link steps l))) = CS.Connected →
  concat (lk_sent (run_link steps l) ++ queued_chunks (lk_tasks (run_link steps l))) =
    concat (lk_sent l ++ queued_chunks (lk_tasks l) ++ accepted_sends steps l).
Proof.
  intros Hs. revert l. induction Hs as [|s steps Hs _ IH]; intros l Hl Hend.
  { cbn -[concat]. by rewrite app_nil_r. }
  change (run_link (s :: steps) l) with (run_link steps (link_step s l)) in *.
  assert (Hm : state_ (io_conn (lk_io (link_step s l))) = CS.Connected).
  { rewrite io_stage_connected in *. pose proof (link_step_stage s l).
    pose proof (run_link_stage steps (link_step s l)). lia. }
  rewrite (IH _ Hm Hend), app_assoc, concat_app, silent_step_flow by done.
  cbn [accepted_sends]. by rewrite app_nil_r, <-concat_app, <-!app_assoc.
Qed.

Lemma calls_in_order_snoc order call ok c c1 :
  calls_in_order order c = Some c1 →
  calls_in_order (order ++ [(call, ok)]) c =
    (let '(ok', c2) := call_atomically call c1 in
     if bool_decide (ok = ok') then Some c2 else None).
Proof.
  revert c. induction order as [|[call' ok'] order IH]; intros c; cbn.
  - intros [= ->]. by destruct (call_atomically call c1).
  - destruct (call_atomically call' c) as [ok2 c2]. by case_bool_decide; [apply IH|].
Qed.

Lemma returned_insert ts i call pc pc' :
  ts !! i = Some (call, pc) → (∀ ok, pc ≠ Done ok) →
  returned (<[i := (call, pc')]> ts) ≡ₚ
    returned ts ++ match pc' with Done ok => [(call, ok)] | _ => [] end.
Proof.
  intros Hi Hpc. rewrite insert_take_drop by (by eapply lookup_lt_Some).
  rewrite <-(take_drop_middle ts i (call, pc)) at 3 by done.
  unfold returned. rewrite !omap_app. cbn.
  assert (match pc with Done ok => Some (call, ok) | _ => None end = None) as ->.
  { destruct pc; [done|done|by destruct (Hpc ok)]. }
  destruct pc'; cbn; rewrite ?app_nil_r; [done..|].
  by rewrite Permutation_cons_append, app_assoc.
Qed.

Lemma set_pending_same c : set_pending (pending_write_bytes_ c) c = c.
Proof. by destruct c. Qed.

Lemma call_atomically_loaded call c :
  call_len call ≠ 0 →
  call_atomically call c =
    match test_loaded call (pending_write_bytes_ c) with
    | Swap cur => (true, set_pending (desired call cur) c)
    | _ => (false, c)
    end.
Proof.
  intros Hl. destruct call; cbn in *.
  - unfold reserve_write_bytes. destruct (Z.eqb_spec len 0); [done|]. by destruct (_ || _).
  - unfold release_write_bytes. destruct (Z.eqb_spec len 0); [done|].
    by destruct (Z.ltb_spec (pending_write_bytes_ c) len).
Qed.

Lemma test_loaded_ok call cur : call_len call ≠ 0 → thread_ok (call, test_loaded call cur).
Proof.
  intros Hl. destruct (test_loaded call cur) as [|cur'|] eqn:E; try done.
  assert (cur' = cur) as -> by (destruct call; cbn in E; branches_in E; by simplify_eq).
  by split.
Qed.

(** A call takes effect exactly when it returns. *)
Lemma thread_step_atomic counter call pc pc' counter' c :
  thread_step counter call pc pc' counter' → thread_ok (call, pc) →
  pending_write_bytes_ c = counter →
  thread_ok (call, pc') ∧ (∀ ok, pc ≠ Done ok) ∧
  match pc' with
  | Done ok => call_atomically call c = (ok, set_pending counter' c)
  | _ => counter' = counter
  end.
Proof.
  assert (Htest : call_len call ≠ 0 → match test_loaded call (pending_write_bytes_ c) with
    | Done ok => call_atomically call c = (ok, set_pending (pending_write_bytes_ c) c)
    | _ => pending_write_bytes_ c = pending_write_bytes_ c end).
  { intros Hl. rewrite set_pending_same, call_atomically_loaded by done.
    destruct call; cbn; by case_test E. }
  intros Hstep Hok <-. destruct Hstep as [Hz|Hz| |cur].
  - split_and!; [done..|]. rewrite set_pending_same. destruct call; cbn in *; subst.
    + done.
    + unfold release_write_bytes. cbn. by rewrite orb_true_r.
  - split_and!; [by apply test_loaded_ok|done|exact (Htest Hz)].
  - destruct Hok as [Hl Ht]. split_and!; [done..|].
    by rewrite call_atomically_loaded, Ht by done.
  - destruct Hok as [Hl Ht]. split_and!; [by apply test_loaded_ok|done|exact (Htest Hl)].
Qed.

Lemma budget_step_atomic s i s' c order :
  budget_step s i s' → Forall thread_ok s.2 →
  order ≡ₚ returned s.2 → calls_in_order order c = Some (set_pending s.1 c) →
  Forall thread_ok s'.2 ∧
  ∃ order', order' ≡ₚ returned s'.2 ∧ calls_in_order order' c = Some (set_pending s'.1 c).
Proof.
  intros [counter ts j call pc pc' counter' Hj Hstep] Hok Hp Hrun. cbn [fst snd] in *.
  pose proof (proj1 (Forall_lookup _ _) Hok j _ Hj) as Hokj.
  destruct (thread_step_atomic _ _ _ _ _ (set_pending counter c) Hstep Hokj eq_refl)
    as (Hok' & Hnd & Hat).
  split; [by apply Forall_insert|].
  exists (order ++ match pc' with Done ok => [(call, ok)] | _ => [] end).
  split; [by rewrite (returned_insert ts j call pc pc' Hj Hnd), Hp|].
  destruct pc' as [| |ok]; rewrite ?app_nil_r; [by rewrite Hat..|].
  rewrite (calls_in_order_snoc _ _ _ _ _ Hrun), Hat, bool_decide_true by done. done.
Qed.

(** * Properties *)

(** C8: Whatever the interleaving of sends and close requests from other
    threads with the loop's tasks, events and own sends, and whatever the
    system calls return, the byte counter of a connection equals the buffered
    plus the queued bytes and never exceeds the hard limit; the peer receives a
    prefix of the chunks that entered the write buffer, with nothing lost,
    duplicated or reordered while the connection is up; the close callback
    runs at most once; and while the connection is up the kernel watches its
    socket for input and, exactly while bytes are buffered, for writability, so
    that what is buffered goes on being written. *)
Theorem connection_accounts (steps : list Step) (now : Z)
    (reads : list read_result) (writes : list write_result) (epoll : list bool) :
  let l := run_link steps (Link_new now reads writes epoll) in
  let c := io_conn (lk_io l) in
  let buffered := contents (write_buffer_ c) in
  pending_write_bytes_ c = zlen buffered + queued_bytes (lk_tasks l) ∧
  pending_write_bytes_ c <= WRITE_HARD_LIMIT ∧
  io_wire (lk_io l) `prefix_of` concat (lk_sent l) ∧
  (state_ c = CS.Connected → io_wire (lk_io l) ++ buffered = concat (lk_sent l)) ∧
  (state_ c ≠ CS.Connected → buffered = []) ∧
  (io_close_calls (lk_io l) <= 1)%nat ∧
  (state_ c = CS.Connected → io_events (lk_io l) = if bool_decide (buffered = []) then BASE_EVENTS
                                                   else Z.lor BASE_EVENTS EPOLLOUT).
Proof.
  cbv zeta. assert (Hw : watched (lk_io (run_link steps (Link_new now reads writes epoll))))
    by (apply watched_run; [apply Link_new_inv|by apply watched_down]).
  destruct (run_link_inv steps _ (Link_new_inv now reads writes epoll)).
  split_and!; try done.
  - etrans; [by eexists|done].
  - destruct (closing _); lia.
  - intros Hs. rewrite (Hw Hs). unfold need_events.
    pose proof (contents_empty _ io_write_wf0) as He. case_bool_decide as Hb.
    + by rewrite (proj2 He Hb).
    + destruct (empty _); [|done]. destruct Hb. by apply He.
Qed.

(** C26: The compare-and-swap loops of the byte counter are linearizable: after
    any interleaving of any number of threads that reserve and release bytes,
    the counter and the results of the calls that have returned are those of
    running these calls one after the other in some order. *)
Theorem budget_linearizable (c : Connection) (calls : list Call)
    (counter : Z) (ts : list Thread) :
  budget_run (pending_write_bytes_ c, (λ call, (call, Start)) <$> calls) (counter, ts) →
  ∃ order, order ≡ₚ returned ts ∧ calls_in_order order c = Some (set_pending counter c).
Proof.
  intros Hrun.
  assert (Hgen : ∀ s s', budget_run s s' →
    Forall thread_ok s.2 → returned s.2 = [] → s.1 = pending_write_bytes_ c →
    Forall thread_ok s'.2 ∧
    ∃ order, order ≡ₚ returned s'.2 ∧ calls_in_order order c = Some (set_pending s'.1 c)).
  { clear. induction 1 as [s|s i s' s'' _ IH Hstep]; intros Hok Hret Hc.
    - split; [done|]. exists []. rewrite Hret, Hc. cbn. by rewrite set_pending_same.
    - destruct (IH Hok Hret Hc) as (Hok' & order & Hp & Ho).
      by eapply budget_step_atomic. }
  apply (Hgen _ _ Hrun); [| |done].
  - by apply Forall_fmap, Forall_true.
  - unfold returned. cbn. clear. by induction calls.
Qed.

Lemma budget_linearizable_witness :
  ∃ order, order ≡ₚ [(Reserve 1048576, true); (Reserve 1, false)] ∧
    calls_in_order order (Connection_new 0) = Some (set_pending 1048576 (Connection_new 0)).
Proof.
  apply (budget_linearizable (Connection_new 0) [Reserve 1048576; Reserve 1] 1048576
           [(Reserve 1048576, Done true); (Reserve 1, Done false)]).
  set (big := Reserve 1048576). set (one := Reserve 1).
  apply (run_step _ 1 (1048576, [(big, Done true); (one, Swap 0)])).
  { apply (run_step _ 0 (0, [(big, Swap 0); (one, Swap 0)])).
    { apply (run_step _ 1 (0, [(big, Swap 0); (one, Start)])).
      { apply (run_step _ 0 (0, [(big, Start); (one, Start)])); [apply run_refl|].
        refine (Budget_step 0 [(big, Start); (one, Start)] 0 big Start (Swap 0) 0 eq_refl _).
        apply (step_load 0 big). discriminate. }
      refine (Budget_step 0 [(big, Swap 0); (one, Start)] 1 one Start (Swap 0) 0 eq_refl _).
      apply (step_load 0 one). discriminate. }
    refine (Budget_step 0 [(big, Swap 0); (one, Swap 0)] 0 big (Swap 0) (Done true) 1048576 eq_refl _).
    apply (step_swap 0 big). }
  refine (Budget_step 1048576 [(big, Done true); (one, Swap 0)] 1 one (Swap 0) (Done false) 1048576 eq_refl _).
  apply (step_reload 1048576 one 0).
Defined.

(** As long as a connection stays up and the loop itself sends nothing,
    the chunks that other threads managed to send are delivered in the order
    of their sends: the bytes on the wire, then those in the write buffer, then
    those of the tasks still queued, are exactly the accepted chunks, appended
    to what was under way before. *)
Theorem thread_sends_in_order (steps : list Step) (l : Link) :
  link_inv l → Forall silent steps →
  state_ (io_conn (lk_io l)) = CS.Connected →
  let l' := run_link steps l in
  let in_flight l := io_wire (lk_io l) ++ contents (write_buffer_ (io_conn (lk_io l))) ++
                     concat (queued_chunks (lk_tasks l)) in
  state_ (io_conn (lk_io l')) = CS.Connected →
  in_flight l' = in_flight l ++ concat (accepted_sends steps l).
Proof.
  intros Hinv Hs Hl l' in_flight Hl'. unfold in_flight.
  pose proof (run_link_inv steps l Hinv) as Hinv'. fold l' in Hinv'.
  pose proof (silent_run_flow steps l Hs Hl Hl') as Hflow. fold l' in Hflow.
  rewrite !concat_app, <-(io_stream _ _ _ Hinv Hl), <-(io_stream _ _ _ Hinv' Hl') in Hflow.
  by rewrite <-!app_assoc in *.
Qed.

Lemma thread_sends_in_order_witness :
  let steps := [ThreadSend [x41; x42]; ThreadSend [x43]; LoopTaskStep 0] in
  let start := run_link [ThreadConnect; LoopTaskStep 0] (Link_new 0 [] [Wrote 0; WriteAgain] []) in
  io_wire (lk_io (run_link steps start)) = [x41] ∧
  io_wire (lk_io (run_link steps start)) ++
    contents (write_buffer_ (io_conn (lk_io (run_link steps start)))) ++
    concat (queued_chunks (lk_tasks (run_link steps start))) =
  [] ++ [x41; x42; x43].
Proof.
  intros steps start. split; [vm_compute; reflexivity|].
  refine (thread_sends_in_order steps start _ _ _ _).
  - apply run_link_inv, Link_new_inv.
  - unfold steps. repeat constructor.
  - vm_compute. reflexivity.
  - vm_compute. reflexivity.
Defined.
