(* ===== verification/Checkpoint.v ===== *)
(** [src/include/checkpoint.h]: what a checkpoint of the server records. *)

From S2P Require Import Prelude GameState RoomStateMachine.

(** * Definitions *)

Record CheckpointMember : Type := MkCheckpointMember {
  cm_player_id : Z;
  cm_player_name : bytes
}.

Record RoomCheckpoint : Type := MkRoomCheckpoint {
  rc_room_id : Z;
  rc_capacity : Z;
  rc_next_player_id : Z;
  rc_state : RSM.States;
  rc_tick_id : Z;
  rc_members : list CheckpointMember;
  rc_game_states : list PlayerGameState
}.

Record SessionCheckpoint : Type := MkSessionCheckpoint {
  sc_token : bytes;
  sc_room_id : Z;
  sc_player_id : Z
}.

Record ServerCheckpoint : Type := MkServerCheckpoint {
  svc_generation : Z;
  svc_rooms : list RoomCheckpoint;
  svc_sessions : list SessionCheckpoint
}.

#[export] Instance CheckpointMember_eq_dec : EqDecision CheckpointMember.
Proof. solve_decision. Defined.
#[export] Instance RoomCheckpoint_eq_dec : EqDecision RoomCheckpoint.
Proof. solve_decision. Defined.
#[export] Instance SessionCheckpoint_eq_dec : EqDecision SessionCheckpoint.
Proof. solve_decision. Defined.
#[export] Instance ServerCheckpoint_eq_dec : EqDecision ServerCheckpoint.
Proof. solve_decision. Defined.

(** The values the C++ types can hold. *)
Definition member_typed (m : CheckpointMember) : Prop := u64_range (cm_player_id m).
Definition player_typed (p : PlayerGameState) : Prop :=
  u64_range (pg_player_id p) ∧ i32_range (pg_x p) ∧ i32_range (pg_y p) ∧ i32_range (pg_hp p).
Definition room_typed (r : RoomCheckpoint) : Prop :=
  u32_range (rc_room_id r) ∧ u64_range (rc_capacity r) ∧ u64_range (rc_next_player_id r) ∧
  u64_range (rc_tick_id r) ∧ Forall member_typed (rc_members r) ∧
  Forall player_typed (rc_game_states r).
Definition session_typed (s : SessionCheckpoint) : Prop :=
  u32_range (sc_room_id s) ∧ u64_range (sc_player_id s).
Definition checkpoint_typed (c : ServerCheckpoint) : Prop :=
  u64_range (svc_generation c) ∧ Forall room_typed (svc_rooms c) ∧
  Forall session_typed (svc_sessions c).
