(* ===== verification/CheckpointCodec.v ===== *)
(** [src/src/checkpoint_codec.cpp]: the binary format of checkpoint files: a
    40-byte header with magic, version, generation, counts, payload size and
    FNV-1a checksum, then rooms and sessions. Both directions are exact: the
    decoder accepts precisely what the encoder produces. Failure to allocate
    memory, which both functions report as [too_large], is not modelled. *)

From S2P Require Import Prelude Bytes GameState RoomStateMachine Checkpoint.

Module CK.
Inductive States : Type :=
| success
| invalid_checkpoint
| malformed_data
| unsupported_version
| checksum_mismatch
| too_large.

#[global] Instance States_eq_dec : EqDecision States.
Proof. solve_decision. Defined.
End CK.

(** * Definitions *)

Definition CHECKPOINT_HEADER_SIZE : nat := 40.
Definition MAX_CHECKPOINT_FILE_SIZE : Z := 64 * 1024 * 1024.
Definition MAX_PAYLOAD_SIZE : Z := MAX_CHECKPOINT_FILE_SIZE - Z.of_nat CHECKPOINT_HEADER_SIZE.
Definition CHECKPOINT_VERSION : Z := 1.
Definition CHECKPOINT_MAGIC : bytes := [x4c; x57; x43; x50].
Definition FNV_OFFSET_BASIS : Z := 14695981039346656037.
Definition FNV_PRIME : Z := 1099511628211.
Definition MIN_ROOM_RECORD_SIZE : Z := 37.
Definition MIN_MEMBER_RECORD_SIZE : Z := 12.
Definition GAME_STATE_RECORD_SIZE : Z := 20.
Definition MIN_SESSION_RECORD_SIZE : Z := 16.
Definition SESSION_TOKEN_SIZE : Z := 32.

(** ** Validity of keys *)

Definition is_lower_hex (ch : byte) : bool :=
  let z := byte_to_Z ch in ((48 <=? z) && (z <=? 57)) || ((97 <=? z) && (z <=? 102)).
Definition valid_session_token (token : bytes) : bool :=
  if negb (zlen token =? SESSION_TOKEN_SIZE) then false else forallb is_lower_hex token.

(** [std::set::insert(x).second] for every element in turn. *)
Fixpoint room_keys_fresh (rooms : list RoomCheckpoint) (room_ids : gset Z) : bool :=
  match rooms with
  | [] => true
  | room :: rooms =>
      if bool_decide (rc_room_id room ∈ room_ids) then false
      else room_keys_fresh rooms ({[rc_room_id room]} ∪ room_ids)
  end.
Fixpoint session_keys_fresh (sessions : list SessionCheckpoint)
    (tokens : gset bytes) (identities : gset (Z * Z)) : bool :=
  match sessions with
  | [] => true
  | s :: sessions =>
      if negb (valid_session_token (sc_token s))
         || bool_decide (sc_token s ∈ tokens)
         || bool_decide ((sc_room_id s, sc_player_id s) ∈ identities)
      then false
      else session_keys_fresh sessions ({[sc_token s]} ∪ tokens)
             ({[(sc_room_id s, sc_player_id s)]} ∪ identities)
  end.
Definition valid_checkpoint_keys (checkpoint : ServerCheckpoint) : bool :=
  if room_keys_fresh (svc_rooms checkpoint) ∅
  then session_keys_fresh (svc_sessions checkpoint) ∅ ∅ else false.

(** ** Appending under a limit; [None] is the result [false] *)

Definition can_append (data : bytes) (size limit : Z) : bool :=
  (size <=? limit) && (zlen data <=? limit - size).

Definition append_bytes (data source : bytes) (limit : Z) : option bytes :=
  if negb (can_append data (zlen source) limit) then None else Some (data ++ source).

Definition append_u8 (data : bytes) (value limit : Z) : option bytes :=
  if negb (can_append data 1 limit) then None else Some (data ++ [byte_of_Z value]).

Fixpoint append_shifted (data : bytes) (value : Z) (shifts : list Z) (limit : Z) : option bytes :=
  match shifts with
  | [] => Some data
  | shift :: shifts =>
      match append_u8 data (Z.land (Z.shiftr value shift) 0xff) limit with
      | None => None
      | Some data => append_shifted data value shifts limit
      end
  end.
Definition append_u32 (data : bytes) (value limit : Z) : option bytes :=
  append_shifted data value [24; 16; 8; 0] limit.
Definition append_u64 (data : bytes) (value limit : Z) : option bytes :=
  append_shifted data value [56; 48; 40; 32; 24; 16; 8; 0] limit.

Definition fits_u32 (value : Z) : bool := value <=? 2 ^ 32 - 1.

Definition room_state_to_byte (state : RSM.States) : option Z :=
  match state with
  | RSM.waiting => Some 0
  | RSM.running => Some 1
  | RSM.finished => Some 2
  end.
Definition byte_to_room_state (value : Z) : option RSM.States :=
  if value =? 0 then Some RSM.waiting
  else if value =? 1 then Some RSM.running
  else if value =? 2 then Some RSM.finished
  else None.

Definition int32_to_bits (value : Z) : Z := to_u32 value.
Definition bits_to_int32 (bits : Z) : Z := to_i32 bits.

Definition fnv_step (hash : Z) (b : byte) : Z :=
  wrap64 (Z.lxor hash (byte_to_Z b) * FNV_PRIME).
(** [size] bytes of [data] from [begin] on. *)
Definition checksum (data : bytes) (begin size : nat) : Z :=
  foldl fnv_step FNV_OFFSET_BASIS (take size (drop begin data)).

(** ** The reader *)

Record Reader : Type := MkReader { data_ : bytes; position_ : nat; end_ : nat }.

Definition remaining (r : Reader) : Z := Z.of_nat (end_ r - position_ r).
Definition finished (r : Reader) : bool := (position_ r =? end_ r)%nat.
Definition advance (n : nat) (r : Reader) : Reader := MkReader (data_ r) (position_ r + n) (end_ r).
Definition at_position (r : Reader) : byte := default x00 (data_ r !! position_ r).

(** A reading step: [None] is the result [false]. *)
Definition parser (A : Type) : Type := Reader → option (A * Reader).
#[export] Instance parser_ret : MRet parser := λ A a r, Some (a, r).
#[export] Instance parser_bind : MBind parser := λ A B f p r,
  match p r with Some (a, r) => f a r | None => None end.

(** Gives up with [malformed_data] when the test fails. *)
Definition check (test : Reader → bool) : parser unit :=
  λ r, if test r then Some (tt, r) else None.
Definition lift_option {A} (o : option A) : parser A :=
  λ r, match o with Some a => Some (a, r) | None => None end.

Definition read_u8 : parser Z := λ r,
  if remaining r <? 1 then None
  else Some (byte_to_Z (at_position r), advance 1 r).

(** The accumulation loop, for a [w]-bit [value]. *)
Fixpoint read_be (w : Z) (n : nat) (value : Z) (r : Reader) : Z * Reader :=
  match n with
  | O => (value, r)
  | S n =>
      let value := Z.shiftl value 8 mod 2 ^ w in
      let value := Z.lor value (byte_to_Z (at_position r)) in
      read_be w n value (advance 1 r)
  end.
Definition read_u32 : parser Z := λ r,
  if remaining r <? 4 then None else Some (read_be 32 4 0 r).
Definition read_u64 : parser Z := λ r,
  if remaining r <? 8 then None else Some (read_be 64 8 0 r).
Definition read_string (size : Z) : parser bytes := λ r,
  if remaining r <? size then None
  else Some (take (Z.to_nat size) (drop (position_ r) (data_ r)), advance (Z.to_nat size) r).

(** A [for] loop that appends one record per round. *)
Fixpoint read_records {A} (read_record : parser A) (n : nat) : parser (list A) :=
  match n with
  | O => mret []
  | S n => a ← read_record; l ← read_records read_record n; mret (a :: l)
  end.

(** ** Encoding *)

Definition encode_member (payload : bytes) (member : CheckpointMember) : result CK.States bytes :=
  _ ← ensure (fits_u32 (zlen (cm_player_name member))) CK.too_large;
  orelse
    (d ← append_u64 payload (cm_player_id member) MAX_PAYLOAD_SIZE;
     d ← append_u32 d (zlen (cm_player_name member)) MAX_PAYLOAD_SIZE;
     append_bytes d (cm_player_name member) MAX_PAYLOAD_SIZE) CK.too_large.

Definition encode_player (payload : bytes) (player : PlayerGameState) : result CK.States bytes :=
  orelse
    (d ← append_u64 payload (pg_player_id player) MAX_PAYLOAD_SIZE;
     d ← append_u32 d (int32_to_bits (pg_x player)) MAX_PAYLOAD_SIZE;
     d ← append_u32 d (int32_to_bits (pg_y player)) MAX_PAYLOAD_SIZE;
     append_u32 d (int32_to_bits (pg_hp player)) MAX_PAYLOAD_SIZE) CK.too_large.

(** A [for] loop over records that stops at the first error. *)
Fixpoint encode_each {A} (f : bytes → A → result CK.States bytes)
    (payload : bytes) (l : list A) : result CK.States bytes :=
  match l with
  | [] => Ok payload
  | a :: l => payload ← f payload a; encode_each f payload l
  end.

Definition encode_room (payload : bytes) (room : RoomCheckpoint) : result CK.States bytes :=
  _ ← ensure (fits_u32 (zlen (rc_members room)) && fits_u32 (zlen (rc_game_states room))) CK.too_large;
  room_state ← orelse (room_state_to_byte (rc_state room)) CK.invalid_checkpoint;
  payload ← orelse
    (d ← append_u32 payload (rc_room_id room) MAX_PAYLOAD_SIZE;
     d ← append_u64 d (rc_capacity room) MAX_PAYLOAD_SIZE;
     d ← append_u64 d (rc_next_player_id room) MAX_PAYLOAD_SIZE;
     d ← append_u8 d room_state MAX_PAYLOAD_SIZE;
     d ← append_u64 d (rc_tick_id room) MAX_PAYLOAD_SIZE;
     append_u32 d (zlen (rc_members room)) MAX_PAYLOAD_SIZE) CK.too_large;
  payload ← encode_each encode_member payload (rc_members room);
  payload ← orelse (append_u32 payload (zlen (rc_game_states room)) MAX_PAYLOAD_SIZE) CK.too_large;
  encode_each encode_player payload (rc_game_states room).

Definition encode_session (payload : bytes) (session : SessionCheckpoint) : result CK.States bytes :=
  _ ← ensure (fits_u32 (zlen (sc_token session))) CK.too_large;
  orelse
    (d ← append_u32 payload (zlen (sc_token session)) MAX_PAYLOAD_SIZE;
     d ← append_bytes d (sc_token session) MAX_PAYLOAD_SIZE;
     d ← append_u32 d (sc_room_id session) MAX_PAYLOAD_SIZE;
     append_u64 d (sc_player_id session) MAX_PAYLOAD_SIZE) CK.too_large.

(** [CheckpointCodec::encode]; an error leaves [data] alone. *)
Definition encode (checkpoint : ServerCheckpoint) : result CK.States bytes :=
  let F := MAX_CHECKPOINT_FILE_SIZE in
  _ ← ensure (negb (svc_generation checkpoint =? 0)) CK.invalid_checkpoint;
  _ ← ensure (fits_u32 (zlen (svc_rooms checkpoint)) && fits_u32 (zlen (svc_sessions checkpoint)))
        CK.too_large;
  _ ← ensure (valid_checkpoint_keys checkpoint) CK.invalid_checkpoint;
  payload ← encode_each encode_room [] (svc_rooms checkpoint);
  payload ← encode_each encode_session payload (svc_sessions checkpoint);
  let payload_checksum := checksum payload 0 (length payload) in
  orelse
    (d ← append_bytes [] CHECKPOINT_MAGIC F;
     d ← append_u32 d CHECKPOINT_VERSION F;
     d ← append_u64 d (svc_generation checkpoint) F;
     d ← append_u32 d (zlen (svc_rooms checkpoint)) F;
     d ← append_u32 d (zlen (svc_sessions checkpoint)) F;
     d ← append_u64 d (zlen payload) F;
     d ← append_u64 d payload_checksum F;
     append_bytes d payload F) CK.too_large.

(** ** Decoding *)

Definition count_fits (count each : Z) (r : Reader) : bool := negb (remaining r / each <? count).

Definition decode_member : parser CheckpointMember :=
  player_id ← read_u64;
  name_size ← read_u32;
  player_name ← read_string name_size;
  mret (MkCheckpointMember player_id player_name).

Definition decode_player : parser PlayerGameState :=
  player_id ← read_u64;
  x_bits ← read_u32;
  y_bits ← read_u32;
  hp_bits ← read_u32;
  mret (MkPlayerGameState player_id (bits_to_int32 x_bits) (bits_to_int32 y_bits) (bits_to_int32 hp_bits)).

Definition decode_room : parser RoomCheckpoint :=
  room_id ← read_u32;
  capacity ← read_u64;
  next_player_id ← read_u64;
  state_value ← read_u8;
  tick_id ← read_u64;
  member_count ← read_u32;
  state ← lift_option (byte_to_room_state state_value);
  _ ← check (λ r, negb (remaining r <? 4));
  _ ← check (λ r, negb ((remaining r - 4) / MIN_MEMBER_RECORD_SIZE <? member_count));
  members ← read_records decode_member (Z.to_nat member_count);
  game_state_count ← read_u32;
  _ ← check (count_fits game_state_count GAME_STATE_RECORD_SIZE);
  game_states ← read_records decode_player (Z.to_nat game_state_count);
  mret (MkRoomCheckpoint room_id capacity next_player_id state tick_id members game_states).

Definition decode_session : parser SessionCheckpoint :=
  token_size ← read_u32;
  token ← read_string token_size;
  room_id ← read_u32;
  player_id ← read_u64;
  mret (MkSessionCheckpoint token room_id player_id).

Record Header : Type := MkHeader {
  h_version : Z;
  h_generation : Z;
  h_room_count : Z;
  h_session_count : Z;
  h_payload_size : Z;
  h_checksum : Z
}.
Definition decode_header : parser Header :=
  version ← read_u32;
  generation ← read_u64;
  room_count ← read_u32;
  session_count ← read_u32;
  payload_size ← read_u64;
  stored_checksum ← read_u64;
  _ ← check finished;
  mret (MkHeader version generation room_count session_count payload_size stored_checksum).

Definition decode_body (generation room_count session_count : Z) : parser ServerCheckpoint :=
  _ ← check (count_fits room_count MIN_ROOM_RECORD_SIZE);
  rooms ← read_records decode_room (Z.to_nat room_count);
  _ ← check (count_fits session_count MIN_SESSION_RECORD_SIZE);
  sessions ← read_records decode_session (Z.to_nat session_count);
  _ ← check finished;
  mret (MkServerCheckpoint generation rooms sessions).

(** [CheckpointCodec::decode]; an error leaves [checkpoint] alone. *)
Definition decode (data : bytes) : result CK.States ServerCheckpoint :=
  let H := CHECKPOINT_HEADER_SIZE in
  _ ← ensure (negb (MAX_CHECKPOINT_FILE_SIZE <? zlen data)) CK.too_large;
  _ ← ensure (negb (length data <? H)%nat) CK.malformed_data;
  _ ← ensure (bool_decide (take (length CHECKPOINT_MAGIC) data = CHECKPOINT_MAGIC)) CK.malformed_data;
  header ← orelse (fst <$> decode_header (MkReader data (length CHECKPOINT_MAGIC) H)) CK.malformed_data;
  _ ← ensure (h_version header =? CHECKPOINT_VERSION) CK.unsupported_version;
  _ ← ensure (negb (h_generation header =? 0)) CK.invalid_checkpoint;
  let actual_payload_size := (length data - H)%nat in
  _ ← ensure (h_payload_size header =? Z.of_nat actual_payload_size) CK.malformed_data;
  let actual_checksum := checksum data H actual_payload_size in
  _ ← ensure (h_checksum header =? actual_checksum) CK.checksum_mismatch;
  temp ← orelse (fst <$> decode_body (h_generation header) (h_room_count header) (h_session_count header)
                   (MkReader data H (length data))) CK.malformed_data;
  _ ← ensure (valid_checkpoint_keys temp) CK.invalid_checkpoint;
  Ok temp.

(** ** Specification: the layout of a file *)

Definition state_byte (s : RSM.States) : byte :=
  match s with RSM.waiting => x00 | RSM.running => x01 | RSM.finished => x02 end.
Definition counted {A} (enc : A → bytes) (l : list A) : bytes :=
  be_bytes 4 (zlen l) ++ concat (enc <$> l).

Definition member_record (m : CheckpointMember) : bytes :=
  be_bytes 8 (cm_player_id m) ++ sized_bytes 4 (cm_player_name m).
Definition player_record (p : PlayerGameState) : bytes :=
  be_bytes 8 (pg_player_id p) ++ be_bytes 4 (to_u32 (pg_x p)) ++
  be_bytes 4 (to_u32 (pg_y p)) ++ be_bytes 4 (to_u32 (pg_hp p)).
Definition room_record (r : RoomCheckpoint) : bytes :=
  be_bytes 4 (rc_room_id r) ++ be_bytes 8 (rc_capacity r) ++ be_bytes 8 (rc_next_player_id r) ++
  [state_byte (rc_state r)] ++ be_bytes 8 (rc_tick_id r) ++
  counted member_record (rc_members r) ++ counted player_record (rc_game_states r).
Definition session_record (s : SessionCheckpoint) : bytes :=
  sized_bytes 4 (sc_token s) ++ be_bytes 4 (sc_room_id s) ++ be_bytes 8 (sc_player_id s).
Definition payload_of (c : ServerCheckpoint) : bytes :=
  concat (room_record <$> svc_rooms c) ++ concat (session_record <$> svc_sessions c).
Definition header_bytes (h : Header) : bytes :=
  be_bytes 4 (h_version h) ++ be_bytes 8 (h_generation h) ++ be_bytes 4 (h_room_count h) ++
  be_bytes 4 (h_session_count h) ++ be_bytes 8 (h_payload_size h) ++ be_bytes 8 (h_checksum h).
Definition header_typed (h : Header) : Prop :=
  u32_range (h_version h) ∧ u64_range (h_generation h) ∧ u32_range (h_room_count h) ∧
  u32_range (h_session_count h) ∧ u64_range (h_payload_size h) ∧ u64_range (h_checksum h).
Definition file_header (c : ServerCheckpoint) (payload : bytes) : Header :=
  MkHeader CHECKPOINT_VERSION (svc_generation c) (zlen (svc_rooms c)) (zlen (svc_sessions c))
    (zlen payload) (checksum payload 0 (length payload)).
Definition header_of (c : ServerCheckpoint) (payload : bytes) : bytes :=
  header_bytes (file_header c payload).
Definition file_of (c : ServerCheckpoint) : bytes :=
  CHECKPOINT_MAGIC ++ header_of c (payload_of c) ++ payload_of c.

(** Keys as the code wants them: rooms, tokens and identities distinct, tokens
    32 lower-case hexadecimal digits. *)
Definition session_identity (s : SessionCheckpoint) : Z * Z := (sc_room_id s, sc_player_id s).
Definition keys_valid (c : ServerCheckpoint) : Prop :=
  NoDup (rc_room_id <$> svc_rooms c) ∧ NoDup (sc_token <$> svc_sessions c) ∧
  NoDup (session_identity <$> svc_sessions c) ∧
  Forall (λ s, valid_session_token (sc_token s) = true) (svc_sessions c).

(** * Proofs *)

#[local] Arguments zlen : simpl never.

Lemma zlen_be_bytes n v : zlen (be_bytes n v) = Z.of_nat n.
Proof. unfold zlen. by rewrite be_bytes_length. Qed.

(** ** Keys *)

Lemma room_keys_fresh_spec rooms ids :
  room_keys_fresh rooms ids = true ↔
    NoDup (rc_room_id <$> rooms) ∧ (∀ r, r ∈ rooms → rc_room_id r ∉ ids).
Proof.
  revert ids. induction rooms as [|r rooms IH]; intros ids; cbn.
  { split; [|done]. intros _. split; [constructor|]. intros r Hr. by apply not_elem_of_nil in Hr. }
  rewrite NoDup_cons, list_elem_of_fmap. setoid_rewrite elem_of_cons.
  case_bool_decide as Hin.
  - split; [done|]. intros [_ H]. destruct (H r); auto.
  - rewrite IH. set_solver.
Qed.

Lemma session_keys_fresh_spec sessions tokens ids :
  session_keys_fresh sessions tokens ids = true ↔
    NoDup (sc_token <$> sessions) ∧ NoDup (session_identity <$> sessions) ∧
    Forall (λ s, valid_session_token (sc_token s) = true) sessions ∧
    (∀ s, s ∈ sessions → (sc_token s ∉ tokens) ∧ (session_identity s ∉ ids)).
Proof.
  revert tokens ids. induction sessions as [|s sessions IH]; intros tokens ids; cbn.
  { split; [|done]. intros _. split_and!; try constructor; set_solver. }
  rewrite !NoDup_cons, !list_elem_of_fmap, Forall_cons. setoid_rewrite elem_of_cons.
  change (sc_room_id s, sc_player_id s) with (session_identity s).
  destruct (valid_session_token (sc_token s)); cbn; [|naive_solver].
  case_bool_decide as Ht; cbn; [split; [done|]; intros (_ & _ & _ & H); destruct (H s); auto|].
  case_bool_decide as Hi; cbn; [split; [done|]; intros (_ & _ & _ & H); destruct (H s); auto|].
  rewrite IH. clear IH. split.
  - intros (H1 & H2 & H3 & H4). split; [split; [|done]|split; [split; [|done]|split; [done|]]].
    + intros (x & E & Hx). destruct (H4 x Hx) as [Hn _]. rewrite <-E in Hn. by apply Hn, elem_of_union_l, elem_of_singleton.
    + intros (x & E & Hx). destruct (H4 x Hx) as [_ Hn]. rewrite <-E in Hn. by apply Hn, elem_of_union_l, elem_of_singleton.
    + intros x [->|Hx]; [done|]. destruct (H4 x Hx) as [Hn Hn'].
      apply not_elem_of_union in Hn, Hn'. tauto.
  - intros ((H1 & H1') & (H2 & H2') & (_ & H3) & H4). split_and!; try done.
    intros x Hx. destruct (H4 x (or_intror Hx)).
    split; apply not_elem_of_union; (split; [|done]); apply not_elem_of_singleton; eauto.
Qed.

Lemma valid_checkpoint_keys_spec c : valid_checkpoint_keys c = true ↔ keys_valid c.
Proof.
  unfold valid_checkpoint_keys, keys_valid.
  assert (room_keys_fresh (svc_rooms c) ∅ = true ↔ NoDup (rc_room_id <$> svc_rooms c)) as Hr.
  { rewrite room_keys_fresh_spec. set_solver. }
  destruct (room_keys_fresh (svc_rooms c) ∅).
  - rewrite session_keys_fresh_spec. set_solver.
  - split; [done|]. intros [H _]. by apply Hr in H.
Qed.

(** ** Appending *)

(** [f] appends [e] as long as the limit allows. *)
Definition appends (limit : Z) (f : bytes → option bytes) (e : bytes) : Prop :=
  ∀ d, zlen d <= limit →
    f d = if zlen d + zlen e <=? limit then Some (d ++ e) else None.
Definition appends_or_too_large (f : bytes → result CK.States bytes) (e : bytes) : Prop :=
  ∀ d, zlen d <= MAX_PAYLOAD_SIZE →
    f d = if zlen d + zlen e <=? MAX_PAYLOAD_SIZE then Ok (d ++ e) else Err CK.too_large.

Lemma appends_nil limit : appends limit Some [].
Proof.
  intros d Hd. rewrite app_nil_r. change (zlen []) with 0. rewrite (proj2 (Z.leb_le _ _)) by lia. done.
Qed.

Lemma appends_app limit f g e e' :
  appends limit f e → appends limit g e' → appends limit (λ d, f d ≫= g) (e ++ e').
Proof.
  intros Hf Hg d Hd. rewrite Hf by done. rewrite zlen_app.
  pose proof (zlen_nonneg e'). destruct (Z.leb_spec (zlen d + zlen e) limit); cbn.
  - rewrite Hg, zlen_app, Z.add_assoc, app_assoc by (rewrite zlen_app; lia). done.
  - by rewrite (proj2 (Z.leb_gt _ _)) by lia.
Qed.

Lemma appends_bytes limit s : appends limit (λ d, append_bytes d s limit) s.
Proof.
  intros d _. unfold append_bytes, can_append. pose proof (zlen_nonneg d).
  destruct (Z.leb_spec (zlen s) limit), (Z.leb_spec (zlen d) (limit - zlen s)),
    (Z.leb_spec (zlen d + zlen s) limit); cbn; done || lia.
Qed.

Lemma byte_of_Z_mod z : byte_of_Z (z mod 2 ^ 8) = byte_of_Z z.
Proof. apply byte_to_Z_inj. by rewrite !byte_to_of_Z, Z.mod_mod. Qed.

Lemma appends_u8 limit v : appends limit (λ d, append_u8 d v limit) [byte_of_Z v].
Proof. exact (appends_bytes limit [byte_of_Z v]). Qed.

Lemma appends_shifted limit v n :
  appends limit (λ d, append_shifted d v (map (λ i, 8 * Z.of_nat i) (rev (seq 0 n))) limit)
    (be_bytes n v).
Proof.
  induction n as [|n IH]; [apply appends_nil|].
  rewrite seq_S, rev_app_distr. cbn [map rev app append_shifted Nat.add].
  assert (Hb : appends limit (λ d, append_u8 d (Z.land (Z.shiftr v (8 * Z.of_nat n)) 255) limit)
                 [byte_of_Z (Z.shiftr v (8 * Z.of_nat n))]).
  { rewrite <-byte_of_Z_mod. change 255 with (Z.ones 8). rewrite Z.land_ones by lia.
    apply appends_u8. }
  intros d Hd. pose proof (appends_app _ _ _ _ _ Hb IH d Hd) as H. exact H.
Qed.

Lemma appends_u32 limit v : appends limit (λ d, append_u32 d v limit) (be_bytes 4 v).
Proof. exact (appends_shifted limit v 4). Qed.
Lemma appends_u64 limit v : appends limit (λ d, append_u64 d v limit) (be_bytes 8 v).
Proof. exact (appends_shifted limit v 8). Qed.

(** A chain of appends, one field after the other. *)
Ltac append_chain :=
  repeat lazymatch goal with
  | |- appends _ (λ d, append_u32 d _ _) _ => apply appends_u32
  | |- appends _ (λ d, append_u64 d _ _) _ => apply appends_u64
  | |- appends _ (λ d, append_u8 d _ _) _ => apply appends_u8
  | |- appends _ (λ d, append_bytes d _ _) _ => apply appends_bytes
  | |- appends ?limit (λ d, mbind ?g (@?f d)) (?e ++ ?e') => refine (appends_app limit f g e e' _ _)
  end.

Lemma appends_orelse f e :
  appends MAX_PAYLOAD_SIZE f e → appends_or_too_large (λ d, orelse (f d) CK.too_large) e.
Proof.
  intros Hf d Hd. rewrite Hf by done. by destruct (zlen d + zlen e <=? MAX_PAYLOAD_SIZE).
Qed.

Lemma appends_bind f g e e' :
  appends_or_too_large f e → appends_or_too_large g e' →
  appends_or_too_large (λ d, f d ≫= g) (e ++ e').
Proof.
  intros Hf Hg d Hd. rewrite Hf by done. rewrite zlen_app.
  pose proof (zlen_nonneg e'). destruct (Z.leb_spec (zlen d + zlen e) MAX_PAYLOAD_SIZE); cbn.
  - rewrite Hg, zlen_app, Z.add_assoc, app_assoc by (rewrite zlen_app; lia). done.
  - by rewrite (proj2 (Z.leb_gt _ _)) by lia.
Qed.

(** A count that does not fit its field belongs to records that are too large. *)
Lemma appends_ensure f e b :
  appends_or_too_large f e → (b = false → MAX_PAYLOAD_SIZE < zlen e) →
  appends_or_too_large (λ d, _ ← ensure b CK.too_large; f d) e.
Proof.
  intros Hf Hb d Hd. pose proof (zlen_nonneg d). destruct b; cbn; [by apply Hf|].
  by rewrite (proj2 (Z.leb_gt _ _)) by (specialize (Hb eq_refl); lia).
Qed.

Lemma appends_each {A} (f : bytes → A → result CK.States bytes) (enc : A → bytes) l :
  (∀ a, appends_or_too_large (λ d, f d a) (enc a)) →
  appends_or_too_large (λ d, encode_each f d l) (concat (enc <$> l)).
Proof.
  intros Hf. induction l as [|a l IH]; cbn.
  - intros d Hd. rewrite app_nil_r. change (zlen []) with 0.
    by rewrite (proj2 (Z.leb_le _ _)) by lia.
  - exact (appends_bind _ _ _ _ (Hf a) IH).
Qed.

Lemma fits_u32_false n : fits_u32 n = false → MAX_PAYLOAD_SIZE < n.
Proof. unfold fits_u32, MAX_PAYLOAD_SIZE, MAX_CHECKPOINT_FILE_SIZE. intros. to_prop. cbn. lia. Qed.

(** Records of at least [k] bytes each. *)
Lemma concat_records_length {A} (enc : A → bytes) k l :
  0 <= k → (∀ a, k <= zlen (enc a)) → k * zlen l <= zlen (concat (enc <$> l)).
Proof.
  intros Hk Henc. induction l as [|a l IH]; cbn; [change (zlen []) with 0; lia|].
  rewrite zlen_app. change (zlen (a :: l)) with (zlen ([a] ++ l)). rewrite zlen_app.
  specialize (Henc a). change (zlen [a]) with 1. lia.
Qed.

Ltac zlen_facts :=
  let learn l := lazymatch goal with
    | _ : 0 <= zlen l |- _ => fail | _ => pose proof (zlen_nonneg l) end in
  repeat match goal with
  | |- context [zlen ?l] => learn l
  | _ : context [zlen ?l] |- _ => learn l
  end.
Ltac record_length :=
  unfold member_record, player_record, room_record, session_record, sized_bytes, counted;
  rewrite ?zlen_app, ?zlen_be_bytes; zlen_facts; try lia.

Lemma member_record_length m : 12 <= zlen (member_record m).
Proof. record_length. Qed.
Lemma member_name_le m : zlen (cm_player_name m) <= zlen (member_record m).
Proof. record_length. Qed.
Lemma session_token_le s : zlen (sc_token s) <= zlen (session_record s).
Proof. record_length. Qed.
Lemma player_record_length p : zlen (player_record p) = 20.
Proof. record_length. Qed.
Lemma room_record_length r : 37 <= zlen (room_record r).
Proof. record_length. change (zlen [state_byte (rc_state r)]) with 1 in *. lia. Qed.
Lemma session_record_length s : 16 <= zlen (session_record s).
Proof. record_length. Qed.

(** ** The encoder produces the layout *)

Lemma appends_member m : appends_or_too_large (λ d, encode_member d m) (member_record m).
Proof.
  unfold encode_member, member_record, sized_bytes. apply appends_ensure.
  - apply appends_orelse. append_chain.
  - intros Hf%fits_u32_false. rewrite !zlen_app, !zlen_be_bytes. lia.
Qed.

Lemma appends_player p : appends_or_too_large (λ d, encode_player d p) (player_record p).
Proof. unfold encode_player, player_record. apply appends_orelse. append_chain. Qed.

Lemma appends_session s : appends_or_too_large (λ d, encode_session d s) (session_record s).
Proof.
  unfold encode_session, session_record, sized_bytes. rewrite <-app_assoc. apply appends_ensure.
  - apply appends_orelse. append_chain.
  - intros Hf%fits_u32_false. rewrite !zlen_app, !zlen_be_bytes. lia.
Qed.

Lemma room_state_to_byte_spec st : 
  room_state_to_byte st = Some (byte_to_Z (state_byte st)).
Proof. by destruct st. Qed.

Lemma members_length r :
  12 * zlen (rc_members r) <= zlen (concat (member_record <$> rc_members r)).
Proof. apply concat_records_length; [done|]. apply member_record_length. Qed.
Lemma players_length r :
  20 * zlen (rc_game_states r) <= zlen (concat (player_record <$> rc_game_states r)).
Proof. apply concat_records_length; [done|]. intros p. by rewrite player_record_length. Qed.
Lemma rooms_length rooms : 37 * zlen rooms <= zlen (concat (room_record <$> rooms)).
Proof. apply concat_records_length; [done|]. apply room_record_length. Qed.
Lemma sessions_length sessions : 16 * zlen sessions <= zlen (concat (session_record <$> sessions)).
Proof. apply concat_records_length; [done|]. apply session_record_length. Qed.

Lemma appends_room r : appends_or_too_large (λ d, encode_room d r) (room_record r).
Proof.
  unfold encode_room, room_record, counted. rewrite room_state_to_byte_spec.
  apply appends_ensure.
  - cbn [orelse mbind result_bind].
    match goal with |- appends_or_too_large _ ?e =>
      replace e with (
        (be_bytes 4 (rc_room_id r) ++ be_bytes 8 (rc_capacity r) ++ be_bytes 8 (rc_next_player_id r) ++
         [byte_of_Z (byte_to_Z (state_byte (rc_state r)))] ++ be_bytes 8 (rc_tick_id r) ++
         be_bytes 4 (zlen (rc_members r))) ++
        (concat (member_record <$> rc_members r) ++
        (be_bytes 4 (zlen (rc_game_states r)) ++ concat (player_record <$> rc_game_states r))))
      by (rewrite byte_of_to_Z, <-!app_assoc; done) end.
    apply appends_bind; [apply appends_orelse; append_chain|].
    apply appends_bind; [apply appends_each, appends_member|].
    apply appends_bind; [apply appends_orelse, appends_u32|].
    apply appends_each, appends_player.
  - pose proof (members_length r) as Hm. pose proof (players_length r) as Hp.
    rewrite !zlen_app, !zlen_be_bytes. pose proof (zlen_nonneg (rc_game_states r)).
    pose proof (zlen_nonneg (rc_members r)). change (zlen [_]) with 1.
    intros Hf. apply andb_false_iff in Hf.
    destruct Hf as [Hf|Hf]; apply fits_u32_false in Hf; lia.
Qed.

Lemma header_of_length c payload : zlen (header_of c payload) = 36.
Proof. unfold header_of, header_bytes. rewrite !zlen_app, !zlen_be_bytes. done. Qed.

Lemma result_bind_assoc {E A B C} (m : result E A) (f : A → result E B) (g : B → result E C) :
  (m ≫= λ a, f a ≫= g) = (m ≫= f) ≫= g.
Proof. by destruct m. Qed.

(** The encoder in closed form. *)
Lemma encode_closed c :
  encode c =
    if svc_generation c =? 0 then Err CK.invalid_checkpoint
    else if negb (fits_u32 (zlen (svc_rooms c)) && fits_u32 (zlen (svc_sessions c)))
    then Err CK.too_large
    else if negb (valid_checkpoint_keys c) then Err CK.invalid_checkpoint
    else if MAX_PAYLOAD_SIZE <? zlen (payload_of c) then Err CK.too_large
    else Ok (file_of c).
Proof.
  unfold encode. destruct (svc_generation c =? 0); [done|].
  destruct (fits_u32 _ && fits_u32 _); [|done].
  destruct (valid_checkpoint_keys c); [|done]. cbn [negb ensure mbind result_bind].
  rewrite result_bind_assoc.
  assert (Hf : appends_or_too_large (λ d, encode_each encode_room d (svc_rooms c)
      ≫= λ d, encode_each encode_session d (svc_sessions c)) (payload_of c)).
  { apply appends_bind; apply appends_each; [apply appends_room|apply appends_session]. }
  rewrite (Hf [] ltac:(done)), Z.leb_antisym. change (zlen [] + zlen (payload_of c)) with (zlen (payload_of c)).
  destruct (Z.ltb_spec MAX_PAYLOAD_SIZE (zlen (payload_of c))) as [|Hs]; [done|].
  cbn [negb mbind result_bind app]. clear Hf.
  assert (Ho : appends MAX_CHECKPOINT_FILE_SIZE
    (λ d, d ← append_bytes d CHECKPOINT_MAGIC MAX_CHECKPOINT_FILE_SIZE;
     d ← append_u32 d CHECKPOINT_VERSION MAX_CHECKPOINT_FILE_SIZE;
     d ← append_u64 d (svc_generation c) MAX_CHECKPOINT_FILE_SIZE;
     d ← append_u32 d (zlen (svc_rooms c)) MAX_CHECKPOINT_FILE_SIZE;
     d ← append_u32 d (zlen (svc_sessions c)) MAX_CHECKPOINT_FILE_SIZE;
     d ← append_u64 d (zlen (payload_of c)) MAX_CHECKPOINT_FILE_SIZE;
     d ← append_u64 d (checksum (payload_of c) 0 (length (payload_of c))) MAX_CHECKPOINT_FILE_SIZE;
     append_bytes d (payload_of c) MAX_CHECKPOINT_FILE_SIZE) (file_of c)).
  { unfold file_of, header_of, header_bytes. rewrite <-!app_assoc. append_chain. }
  etransitivity; [exact (f_equal (λ o, orelse o CK.too_large) (Ho [] ltac:(done)))|].
  rewrite (proj2 (Z.leb_le _ _)); [done|]. unfold file_of.
  rewrite !zlen_app, header_of_length. unfold MAX_PAYLOAD_SIZE in Hs.
  change (zlen []) with 0. change (zlen CHECKPOINT_MAGIC) with 4.
  unfold MAX_CHECKPOINT_FILE_SIZE, CHECKPOINT_HEADER_SIZE in *. lia.
Qed.

(** ** The decoder recognises the layout *)

Definition reader_wf (r : Reader) : Prop := (position_ r <= end_ r <= length (data_ r))%nat.
Definition rest (r : Reader) : bytes := take (end_ r - position_ r) (drop (position_ r) (data_ r)).

(** [p] reads exactly the encodings of the values that satisfy [P]. *)
Definition parses {A} (p : parser A) (P : A → Prop) (enc : A → bytes) : Prop :=
  ∀ r v r', reader_wf r →
    p r = Some (v, r') ↔
      P v ∧ enc v `prefix_of` rest r ∧ r' = advance (length (enc v)) r.

Lemma rest_length r : reader_wf r → length (rest r) = (end_ r - position_ r)%nat.
Proof. unfold reader_wf, rest. intros. rewrite length_take, length_drop. lia. Qed.

Lemma remaining_rest r : reader_wf r → remaining r = zlen (rest r).
Proof. intros. unfold remaining, zlen. by rewrite rest_length. Qed.

Lemma rest_advance n r : rest (advance n r) = drop n (rest r).
Proof.
  unfold rest. cbn. rewrite skipn_firstn_comm, drop_drop. f_equal. lia.
Qed.

Lemma advance_wf n r : reader_wf r → (n <= length (rest r))%nat → reader_wf (advance n r).
Proof. intros Hwf Hn. rewrite rest_length in Hn by done. unfold reader_wf in *. cbn. lia. Qed.

Lemma advance_advance n m r : advance n (advance m r) = advance (m + n) r.
Proof. unfold advance. cbn. f_equal. lia. Qed.

Lemma advance_0 r : advance 0 r = r.
Proof. destruct r. unfold advance. cbn. f_equal. lia. Qed.

Lemma prefix_length_le (k l : bytes) : k `prefix_of` l → (length k <= length l)%nat.
Proof. apply prefix_length. Qed.

Lemma rest_advance_prefix e e' r :
  e `prefix_of` rest r →
  e' `prefix_of` rest (advance (length e) r) ↔ (e ++ e') `prefix_of` rest r.
Proof.
  intros [s Hs]. rewrite rest_advance, Hs, drop_app_length. split.
  - by apply prefix_app.
  - by intros ?%prefix_app_inv.
Qed.

Lemma prefix_of_app_l (e e' l : bytes) : e ++ e' `prefix_of` l → e `prefix_of` l.
Proof. intros [s ->]. rewrite <-app_assoc. by eexists. Qed.

(** One field: [C] is what the fields before it have fixed about the record,
    [Q] what this field requires, [R] what the later ones require. *)
Lemma parses_step {A B} (p : parser A) P enc (π : B → A) f (C Q R : B → Prop) encr :
  parses p P enc →
  (∀ b, C b → P (π b) ↔ Q b) →
  (∀ a, P a → parses (f a) (λ b, (C b ∧ π b = a) ∧ R b) encr) →
  parses (p ≫= f) (λ b, C b ∧ (Q b ∧ R b)) (λ b, enc (π b) ++ encr b).
Proof.
  intros Hp HQ Hf r b r' Hwf. unfold mbind, parser_bind. split.
  - destruct (p r) as [[a r1]|] eqn:Hr; [|done]. apply Hp in Hr as (Ha & Hpre & ->); [|done].
    intros Hb. apply Hf in Hb as (((HC & <-) & HR) & Hpre' & ->); [|done|].
    + split_and!; [done|by apply HQ|done|by apply rest_advance_prefix|].
      by rewrite advance_advance, length_app.
    + by apply advance_wf, prefix_length_le.
  - intros ((HC & Hq & HR) & Hpre & ->).
    assert (Ha : P (π b)) by (by apply HQ). pose proof (prefix_of_app_l _ _ _ Hpre) as Hpre1.
    rewrite (proj2 (Hp r (π b) (advance (length (enc (π b))) r) Hwf)) by done.
    apply Hf; [done|by apply advance_wf, prefix_length_le|].
    split_and!; [done..|by apply rest_advance_prefix|].
    by rewrite advance_advance, length_app.
Qed.

Lemma parses_ret {B} (x : B) (R : B → Prop) :
  (∀ b, R b ↔ b = x) → parses (mret x) R (λ _, []).
Proof.
  intros HR r b r' _. unfold mret, parser_ret. cbn. rewrite advance_0, HR. split.
  - intros [= -> ->]. split_and!; [done|apply prefix_nil|done].
  - by intros (-> & _ & ->).
Qed.

Lemma parses_check {B} test (p : parser B) R enc :
  (∀ r b, reader_wf r → R b → enc b `prefix_of` rest r → test r = true) →
  parses p R enc → parses (_ ← check test; p) R enc.
Proof.
  intros Ht Hp r b r' Hwf. unfold mbind, parser_bind, check. split.
  - destruct (test r); [by apply Hp|done].
  - intros (HR & Hpre & ->). rewrite (Ht r b) by done. by apply Hp.
Qed.

Lemma parses_iff {B} (p : parser B) R R' enc enc' :
  parses p R enc → (∀ b, R b ↔ R' b) → (∀ b, enc b = enc' b) → parses p R' enc'.
Proof. intros Hp HR He r b r' Hwf. by rewrite <-HR, <-He, (Hp r b r' Hwf). Qed.

Lemma parses_lift {A} (o : option A) : parses (lift_option o) (λ a, o = Some a) (λ _, []).
Proof.
  intros r a r' _. unfold lift_option. cbn. rewrite advance_0. destruct o; [|naive_solver].
  split.
  - intros [= -> ->]. split_and!; [done|apply prefix_nil|done].
  - by intros ([= ->] & _ & ->).
Qed.

(** *** Numbers and strings *)

Lemma at_position_rest r b s : reader_wf r → rest r = b :: s → at_position r = b.
Proof.
  unfold at_position, rest, reader_wf. intros Hwf Hr.
  destruct (end_ r - position_ r)%nat as [|n] eqn:Hn; [done|].
  destruct (drop (position_ r) (data_ r)) as [|b' l] eqn:Hd; [done|].
  cbn in Hr. injection Hr as -> _.
  by rewrite <-(Nat.add_0_r (position_ r)), <-lookup_drop, Hd.
Qed.

Lemma read_be_spec w n acc r :
  reader_wf r → (n <= length (rest r))%nat → 0 <= acc →
  (acc + 1) * 2 ^ (8 * Z.of_nat n) <= 2 ^ w →
  read_be w n acc r = (acc * 2 ^ (8 * Z.of_nat n) + be_value (take n (rest r)), advance n r).
Proof.
  revert acc r. induction n as [|n IH]; intros acc r Hwf Hn Ha Hb; cbn [read_be].
  { rewrite advance_0. change (acc * 2 ^ (8 * Z.of_nat 0) + be_value (take 0 (rest r))) with (acc * 1 + 0). f_equal. lia. }
  destruct (rest r) as [|b s] eqn:Hr; [cbn in Hn; lia|].
  pose proof (byte_to_Z_range b) as Hbr. unfold u8_range in Hbr.
  assert (Hpow : 2 ^ (8 * Z.of_nat (S n)) = 2 ^ 8 * 2 ^ (8 * Z.of_nat n)).
  { rewrite <-Z.pow_add_r by lia. f_equal. lia. }
  rewrite Hpow in Hb. assert (0 < 2 ^ (8 * Z.of_nat n)) by lia.
  assert (Hsmall : acc * 2 ^ 8 < 2 ^ w) by nia.
  rewrite (at_position_rest r b s Hwf Hr), Z.shiftl_mul_pow2, Z.mod_small by lia.
  rewrite <-Z.shiftl_mul_pow2, lor_shiftl_add by lia.
  assert (Hrest : rest (advance 1 r) = s) by (by rewrite rest_advance, Hr).
  rewrite IH, Hrest, advance_advance.
  - cbn [take]. rewrite be_value_cons, Hpow. unfold zlen. rewrite length_take, Nat.min_l by (cbn in Hn; lia).
    f_equal. lia.
  - apply advance_wf; [done|]. rewrite Hr. cbn. lia.
  - rewrite Hrest. cbn in Hn. lia.
  - lia.
  - nia.
Qed.

(** A fixed-width number. *)
Lemma parses_be (p : parser Z) w n :
  8 * Z.of_nat n <= w → (0 < n)%nat →
  (∀ r, p r = if remaining r <? Z.of_nat n then None else Some (read_be w n 0 r)) →
  parses p (λ v, 0 <= v < 2 ^ (8 * Z.of_nat n)) (be_bytes n).
Proof.
  intros Hw Hn Hp r v r' Hwf. rewrite Hp, remaining_rest by done. rewrite be_bytes_length. unfold zlen.
  destruct (Z.ltb_spec (Z.of_nat (length (rest r))) (Z.of_nat n)) as [Hl|Hl].
  - split; [done|]. intros (_ & Hpre%prefix_length & _). rewrite be_bytes_length in Hpre. lia.
  - rewrite read_be_spec by (done || lia || (rewrite Z.mul_1_l; apply Z.pow_le_mono_r; lia)).
    rewrite Z.mul_0_l, Z.add_0_l. split.
    + intros [= <- <-]. split; [apply be_value_take_range; lia|]. split; [|done].
      rewrite be_bytes_take by lia. exists (drop n (rest r)). by rewrite take_drop.
    + intros (Hv & [s Hs] & ->). rewrite Hs, be_value_prefix by done. done.
Qed.

Lemma parses_u32 : parses read_u32 u32_range (be_bytes 4).
Proof. apply (parses_be read_u32 32 4); [lia..|done]. Qed.
Lemma parses_u64 : parses read_u64 u64_range (be_bytes 8).
Proof. apply (parses_be read_u64 64 8); [lia..|done]. Qed.
Lemma parses_u8 : parses read_u8 u8_range (be_bytes 1).
Proof.
  apply (parses_be read_u8 8 1); [lia..|]. intros r. unfold read_u8. cbn. by rewrite Z.lor_0_l.
Qed.

Lemma parses_string size : 0 <= size → parses (read_string size) (λ s, zlen s = size) (λ s, s).
Proof.
  intros Hs r v r' Hwf. unfold read_string. rewrite remaining_rest by done. unfold zlen.
  destruct (Z.ltb_spec (Z.of_nat (length (rest r))) size) as [Hl|Hl].
  - split; [done|]. intros (Hv & Hpre%prefix_length & _). lia.
  - assert (Hd : take (Z.to_nat size) (drop (position_ r) (data_ r)) = take (Z.to_nat size) (rest r)).
    { rewrite rest_length in Hl by done. unfold rest. rewrite take_take, Nat.min_l by lia. done. }
    rewrite Hd. split.
    + intros [= <- <-]. rewrite length_take, Nat.min_l by lia. split_and!; [lia| |f_equal; lia].
      exists (drop (Z.to_nat size) (rest r)). by rewrite take_drop.
    + intros (Hv & [s Hr] & ->). rewrite Hr, take_app_length' by lia. do 3 f_equal. lia.
Qed.

Lemma parses_records {A} (p : parser A) P enc n :
  parses p P enc →
  parses (read_records p n) (λ l, length l = n ∧ Forall P l) (λ l, concat (enc <$> l)).
Proof.
  intros Hp. induction n as [|n IH]; cbn [read_records].
  - intros r l r' _. unfold mret, parser_ret. split.
    + intros [= <- <-]. cbn. rewrite advance_0. split_and!; [done|constructor|apply prefix_nil|done].
    + intros ((Hl & _) & _ & ->). apply length_zero_iff_nil in Hl as ->. cbn. by rewrite advance_0.
  - intros r l r' Hwf. unfold mbind, parser_bind, mret, parser_ret. split.
    + destruct (p r) as [[a r1]|] eqn:Hr; [|done]. apply Hp in Hr as (Ha & Hpre & ->); [|done].
      assert (Hwf1 : reader_wf (advance (length (enc a)) r)) by (by apply advance_wf, prefix_length_le).
      destruct (read_records p n _) as [[l1 r2]|] eqn:Hr; [|done].
      apply IH in Hr as ((Hl & Hall) & Hpre1 & ->); [|done]. intros [= <- <-]. cbn.
      rewrite advance_advance, length_app. split_and!; [lia|by constructor| |done].
      by apply rest_advance_prefix.
    + intros ((Hl & Hall) & Hpre & ->). destruct l as [|a l]; [done|].
      apply Forall_cons in Hall as [Ha Hall]. cbn in Hpre, Hl |- *.
      pose proof (prefix_of_app_l _ _ _ Hpre) as Hpre1.
      rewrite (proj2 (Hp r a (advance (length (enc a)) r) Hwf)) by done.
      assert (Hwf1 : reader_wf (advance (length (enc a)) r)) by (by apply advance_wf, prefix_length_le).
      rewrite (proj2 (IH (advance (length (enc a)) r) l
        (advance (length (concat (enc <$> l))) (advance (length (enc a)) r)) Hwf1)).
      * by rewrite advance_advance, length_app.
      * split_and!; [lia|done|by apply rest_advance_prefix|done].
Qed.

(** *** Records *)

Definition member_ok (m : CheckpointMember) : Prop :=
  member_typed m ∧ u32_range (zlen (cm_player_name m)).
Definition room_ok (r : RoomCheckpoint) : Prop :=
  u32_range (rc_room_id r) ∧ u64_range (rc_capacity r) ∧ u64_range (rc_next_player_id r) ∧
  u64_range (rc_tick_id r) ∧
  u32_range (zlen (rc_members r)) ∧ Forall member_ok (rc_members r) ∧
  u32_range (zlen (rc_game_states r)) ∧ Forall player_typed (rc_game_states r).
Definition session_ok (s : SessionCheckpoint) : Prop :=
  session_typed s ∧ u32_range (zlen (sc_token s)).

Ltac field proj Q := eapply (parses_step _ _ _ proj _ _ Q); [|cbn; tauto|].

Lemma parses_member : parses decode_member member_ok member_record.
Proof.
  refine (parses_iff _ (λ m, True ∧ (u64_range (cm_player_id m) ∧
    (u32_range (zlen (cm_player_name m)) ∧ (True ∧ True)))) _
    (λ m, be_bytes 8 (cm_player_id m) ++ be_bytes 4 (zlen (cm_player_name m)) ++
          cm_player_name m ++ []) _ _ _ _).
  - apply (parses_step _ _ _ cm_player_id _ _ (λ m, u64_range (cm_player_id m)) _ _ parses_u64); [done|].
    intros id Hid.
    apply (parses_step _ _ _ (λ m, zlen (cm_player_name m)) _ _
             (λ m, u32_range (zlen (cm_player_name m))) _ _ parses_u32); [done|].
    intros size [Hsize _].
    apply (parses_step _ _ _ cm_player_name _ _ (λ _, True) _ _ (parses_string size Hsize)); [naive_solver|].
    intros name Hname. apply parses_ret. intros [id' name']. cbn. naive_solver.
  - intros m. unfold member_ok, member_typed. tauto.
  - intros m. unfold member_record, sized_bytes. by rewrite app_nil_r.
Qed.

Lemma parses_session : parses decode_session session_ok session_record.
Proof.
  refine (parses_iff _ (λ s, True ∧ (u32_range (zlen (sc_token s)) ∧ (True ∧
    (u32_range (sc_room_id s) ∧ (u64_range (sc_player_id s) ∧ True))))) _
    (λ s, be_bytes 4 (zlen (sc_token s)) ++ sc_token s ++ be_bytes 4 (sc_room_id s) ++
          be_bytes 8 (sc_player_id s) ++ []) _ _ _ _).
  - apply (parses_step _ _ _ (λ s, zlen (sc_token s)) _ _ (λ s, u32_range (zlen (sc_token s)))
             _ _ parses_u32); [done|]. intros size [Hsize _].
    apply (parses_step _ _ _ sc_token _ _ (λ _, True) _ _ (parses_string size Hsize)); [naive_solver|].
    intros token Htoken.
    apply (parses_step _ _ _ sc_room_id _ _ (λ s, u32_range (sc_room_id s)) _ _ parses_u32); [done|].
    intros room _.
    apply (parses_step _ _ _ sc_player_id _ _ (λ s, u64_range (sc_player_id s)) _ _ parses_u64); [done|].
    intros player _. apply parses_ret. intros [t r q]. cbn. naive_solver.
  - intros s. unfold session_ok, session_typed. tauto.
  - intros s. unfold session_record, sized_bytes. by rewrite app_nil_r, <-app_assoc.
Qed.

Lemma bits_to_int32_iff v w : u32_range v → i32_range w ∧ to_u32 w = v ↔ w = bits_to_int32 v.
Proof.
  intros Hv. unfold bits_to_int32. split.
  - intros [Hw <-]. by rewrite to_i32_u32.
  - intros ->. split; [by apply to_i32_range|by apply to_u32_i32].
Qed.

Lemma parses_player : parses decode_player player_typed player_record.
Proof.
  refine (parses_iff _ (λ p, True ∧ (u64_range (pg_player_id p) ∧
    (u32_range (to_u32 (pg_x p)) ∧ (u32_range (to_u32 (pg_y p)) ∧ (u32_range (to_u32 (pg_hp p)) ∧
    (i32_range (pg_x p) ∧ i32_range (pg_y p) ∧ i32_range (pg_hp p))))))) _
    (λ p, be_bytes 8 (pg_player_id p) ++ be_bytes 4 (to_u32 (pg_x p)) ++
          be_bytes 4 (to_u32 (pg_y p)) ++ be_bytes 4 (to_u32 (pg_hp p)) ++ []) _ _ _ _).
  - apply (parses_step _ _ _ pg_player_id _ _ (λ p, u64_range (pg_player_id p)) _ _ parses_u64); [done|].
    intros id _.
    apply (parses_step _ _ _ (λ p, to_u32 (pg_x p)) _ _ (λ p, u32_range (to_u32 (pg_x p))) _ _ parses_u32); [done|].
    intros x Hx.
    apply (parses_step _ _ _ (λ p, to_u32 (pg_y p)) _ _ (λ p, u32_range (to_u32 (pg_y p))) _ _ parses_u32); [done|].
    intros y Hy.
    apply (parses_step _ _ _ (λ p, to_u32 (pg_hp p)) _ _ (λ p, u32_range (to_u32 (pg_hp p))) _ _ parses_u32); [done|].
    intros hp Hhp. apply parses_ret. intros [id' x' y' hp']. cbn.
    transitivity (id' = id ∧ (i32_range x' ∧ to_u32 x' = x) ∧ (i32_range y' ∧ to_u32 y' = y) ∧
      (i32_range hp' ∧ to_u32 hp' = hp)); [tauto|].
    rewrite !bits_to_int32_iff by done.
    split; [by intros (-> & -> & -> & ->)|by intros [= -> -> -> ->]].
  - intros p. unfold player_typed. pose proof (to_u32_range (pg_x p)).
    pose proof (to_u32_range (pg_y p)). pose proof (to_u32_range (pg_hp p)). tauto.
  - intros p. unfold player_record. by rewrite app_nil_r.
Qed.

Lemma byte_to_room_state_iff v st :
  byte_to_room_state v = Some st ↔ v = byte_to_Z (state_byte st).
Proof.
  unfold byte_to_room_state. split.
  - repeat step_match; to_prop; intros [= <-]; done.
  - intros ->. by destruct st.
Qed.

Lemma be_bytes_state st : be_bytes 1 (byte_to_Z (state_byte st)) = [state_byte st].
Proof. by destruct st. Qed.

Lemma remaining_prefix r (e : bytes) : reader_wf r → e `prefix_of` rest r → zlen e <= remaining r.
Proof. intros Hwf He%prefix_length. rewrite remaining_rest by done. unfold zlen. lia. Qed.

Lemma count_fits_prefix count each r :
  0 < each → each * count <= remaining r → count_fits count each r = true.
Proof.
  intros He Hc. unfold count_fits. rewrite (proj2 (Z.ltb_ge _ _)); [done|].
  apply Z.div_le_lower_bound; lia.
Qed.

(** A counted table of records, after its count has been read. *)
Lemma parses_table {A B} (p : parser A) P enc count (π : B → list A) f (C R : B → Prop) encr :
  0 <= count →
  parses p P enc →
  (∀ b, C b → zlen (π b) = count) →
  (∀ a, zlen a = count → parses (f a) (λ b, (C b ∧ π b = a) ∧ R b) encr) →
  parses (l ← read_records p (Z.to_nat count); f l) (λ b, C b ∧ (Forall P (π b) ∧ R b))
    (λ b, concat (enc <$> π b) ++ encr b).
Proof.
  intros Hcount Hp HC Hf.
  apply (parses_step _ _ _ π _ _ (λ b, Forall P (π b)) _ _ (parses_records p P enc _ Hp)).
  - intros b Hb%HC. unfold zlen in Hb. split; [tauto|]. intros; split; [lia|done].
  - intros a [Ha _]. apply Hf. unfold zlen. lia.
Qed.

Lemma parses_room : parses decode_room room_ok room_record.
Proof.
  refine (parses_iff _ (λ r, True ∧ (u32_range (rc_room_id r) ∧ (u64_range (rc_capacity r) ∧
    (u64_range (rc_next_player_id r) ∧ (u8_range (byte_to_Z (state_byte (rc_state r))) ∧
    (u64_range (rc_tick_id r) ∧ (u32_range (zlen (rc_members r)) ∧ (True ∧
    (Forall member_ok (rc_members r) ∧ (u32_range (zlen (rc_game_states r)) ∧
    (Forall player_typed (rc_game_states r) ∧ True))))))))))) _
    (λ r, be_bytes 4 (rc_room_id r) ++ be_bytes 8 (rc_capacity r) ++
      be_bytes 8 (rc_next_player_id r) ++ be_bytes 1 (byte_to_Z (state_byte (rc_state r))) ++
      be_bytes 8 (rc_tick_id r) ++ be_bytes 4 (zlen (rc_members r)) ++ [] ++
      concat (member_record <$> rc_members r) ++ be_bytes 4 (zlen (rc_game_states r)) ++
      concat (player_record <$> rc_game_states r) ++ []) _ _ _ _).
  - apply (parses_step _ _ _ rc_room_id _ _ (λ r, u32_range (rc_room_id r)) _ _ parses_u32); [done|].
    intros id _.
    apply (parses_step _ _ _ rc_capacity _ _ (λ r, u64_range (rc_capacity r)) _ _ parses_u64); [done|].
    intros capacity _.
    apply (parses_step _ _ _ rc_next_player_id _ _ (λ r, u64_range (rc_next_player_id r)) _ _ parses_u64); [done|].
    intros next _.
    apply (parses_step _ _ _ (λ r, byte_to_Z (state_byte (rc_state r))) _ _
             (λ r, u8_range (byte_to_Z (state_byte (rc_state r)))) _ _ parses_u8); [done|].
    intros sv _.
    apply (parses_step _ _ _ rc_tick_id _ _ (λ r, u64_range (rc_tick_id r)) _ _ parses_u64); [done|].
    intros tick _.
    apply (parses_step _ _ _ (λ r, zlen (rc_members r)) _ _ (λ r, u32_range (zlen (rc_members r))) _ _ parses_u32); [done|].
    intros count [Hcount _].
    apply (parses_step _ _ _ rc_state _ _ (λ _, True) _ _ (parses_lift _)).
    { intros r. rewrite byte_to_room_state_iff. naive_solver. }
    intros st Hst.
    apply parses_check; [|apply parses_check].
    { intros r b Hwf (Hc & _) He%remaining_prefix; [|done].
      rewrite !zlen_app, zlen_be_bytes in He.
      rewrite (proj2 (Z.ltb_ge _ _)); [done|]. zlen_facts. lia. }
    { intros r b Hwf (Hc & _) He%remaining_prefix; [|done].
      rewrite !zlen_app, zlen_be_bytes in He. pose proof (members_length b).
      rewrite (proj2 (Z.ltb_ge _ _)); [done|]. apply Z.div_le_lower_bound; [done|].
      unfold MIN_MEMBER_RECORD_SIZE. replace count with (zlen (rc_members b)) by tauto.
      zlen_facts. lia. }
    apply (parses_table _ _ _ _ rc_members); [done|apply parses_member|tauto|]. intros members Hm.
    apply (parses_step _ _ _ (λ r, zlen (rc_game_states r)) _ _ (λ r, u32_range (zlen (rc_game_states r))) _ _ parses_u32); [done|].
    intros game_count [Hgame _].
    apply parses_check.
    { intros r b Hwf (Hc & _) He%remaining_prefix; [|done].
      rewrite !zlen_app in He. pose proof (players_length b).
      apply count_fits_prefix; [done|]. replace game_count with (zlen (rc_game_states b)) by tauto.
      unfold GAME_STATE_RECORD_SIZE. zlen_facts. lia. }
    apply (parses_table _ _ _ _ rc_game_states); [done|apply parses_player|tauto|]. intros players Hp.
    apply byte_to_room_state_iff in Hst. subst sv.
    apply parses_ret. intros [id' cap' next' st' tick' ms' gs']. cbn. split.
    + intros [H _]. repeat match type of H with _ ∧ _ => let E := fresh "E" in destruct H as [H E] end.
      by subst.
    + intros [= -> -> -> -> -> -> ->]. by split_and!.
  - intros r. unfold room_ok. pose proof (byte_to_Z_range (state_byte (rc_state r))). tauto.
  - intros r. unfold room_record, counted. by rewrite be_bytes_state, app_nil_r, <-!app_assoc.
Qed.

(** ** Whole files *)

Lemma parses_body generation rooms sessions :
  0 <= rooms → 0 <= sessions →
  parses
    (_ ← check (count_fits rooms MIN_ROOM_RECORD_SIZE);
     room_list ← read_records decode_room (Z.to_nat rooms);
     _ ← check (count_fits sessions MIN_SESSION_RECORD_SIZE);
     session_list ← read_records decode_session (Z.to_nat sessions);
     mret (MkServerCheckpoint generation room_list session_list))
    (λ c, (svc_generation c = generation ∧ zlen (svc_rooms c) = rooms ∧ zlen (svc_sessions c) = sessions) ∧
       (Forall room_ok (svc_rooms c) ∧ (Forall session_ok (svc_sessions c) ∧ True)))
    (λ c, concat (room_record <$> svc_rooms c) ++ concat (session_record <$> svc_sessions c) ++ []).
Proof.
  intros Hr Hs. apply parses_check.
  { intros r c Hwf ((_ & <- & _) & _) He%remaining_prefix; [|done].
    rewrite !zlen_app in He. pose proof (rooms_length (svc_rooms c)).
    apply count_fits_prefix; [done|]. unfold MIN_ROOM_RECORD_SIZE. zlen_facts. lia. }
  apply (parses_table _ _ _ _ svc_rooms); [done|apply parses_room|tauto|]. intros room_list Hrl.
  apply parses_check.
  { intros r c Hwf (((_ & _ & <-) & _) & _) He%remaining_prefix; [|done].
    rewrite !zlen_app in He. pose proof (sessions_length (svc_sessions c)).
    apply count_fits_prefix; [done|]. unfold MIN_SESSION_RECORD_SIZE. zlen_facts. lia. }
  apply (parses_table _ _ _ _ svc_sessions); [done|apply parses_session|tauto|]. intros session_list Hsl.
  apply parses_ret. intros [g rl sl]. cbn. split.
  - by intros ((((-> & _ & _) & ->) & ->) & _).
  - intros [= -> -> ->]. by split_and!.
Qed.

(** A parser followed by the test that nothing is left. *)
Lemma parses_all {A} (p : parser A) P enc r v :
  parses p P enc → reader_wf r →
  fst <$> (v ← p; _ ← check finished; mret v) r = Some v ↔ P v ∧ rest r = enc v.
Proof.
  intros Hp Hwf. unfold mbind, parser_bind, check, mret, parser_ret. split.
  - destruct (p r) as [[a r1]|] eqn:Hr; [|done]. apply Hp in Hr as (Ha & [s Hs] & ->); [|done].
    destruct (finished _) eqn:Hf; [|done]. intros [= <-]. split; [done|].
    apply Nat.eqb_eq in Hf. cbn in Hf. pose proof (rest_length r Hwf) as Hl.
    rewrite Hs, length_app in Hl. rewrite Hs. replace s with (@nil byte); [by rewrite app_nil_r|].
    symmetry. apply length_zero_iff_nil. unfold reader_wf in Hwf. lia.
  - intros (Hv & Hs). rewrite (proj2 (Hp r v (advance (length (enc v)) r) Hwf)).
    + assert (finished (advance (length (enc v)) r) = true) as ->; [|done].
      apply Nat.eqb_eq. cbn. pose proof (rest_length r Hwf) as Hl. rewrite <-Hs.
      unfold reader_wf in Hwf. lia.
    + split_and!; [done| |done]. by rewrite Hs.
Qed.

Lemma header_bytes_length h : zlen (header_bytes h) = 36.
Proof. unfold header_bytes. rewrite !zlen_app, !zlen_be_bytes. done. Qed.

Lemma decode_header_iff r h :
  reader_wf r →
  fst <$> decode_header r = Some h ↔ header_typed h ∧ rest r = header_bytes h.
Proof.
  intros Hwf. set (p := version ← read_u32; generation ← read_u64; room_count ← read_u32;
    session_count ← read_u32; payload_size ← read_u64; stored_checksum ← read_u64;
    mret (MkHeader version generation room_count session_count payload_size stored_checksum)).
  assert (Hassoc : decode_header r = (v ← p; _ ← check finished; mret v) r).
  { unfold decode_header, p, mbind, parser_bind, mret, parser_ret. repeat (step_match; try done). }
  rewrite Hassoc. refine (parses_all p header_typed header_bytes r h _ Hwf).
  refine (parses_iff _ (λ h, True ∧ (u32_range (h_version h) ∧ (u64_range (h_generation h) ∧
    (u32_range (h_room_count h) ∧ (u32_range (h_session_count h) ∧ (u64_range (h_payload_size h) ∧
    (u64_range (h_checksum h) ∧ True))))))) _ (λ h,
  be_bytes 4 (h_version h) ++ be_bytes 8 (h_generation h) ++ be_bytes 4 (h_room_count h) ++
  be_bytes 4 (h_session_count h) ++ be_bytes 8 (h_payload_size h) ++ be_bytes 8 (h_checksum h) ++ []) _ _ _ _).
  - apply (parses_step _ _ _ h_version _ _ (λ h, u32_range (h_version h)) _ _ parses_u32); [done|]. intros v _.
    apply (parses_step _ _ _ h_generation _ _ (λ h, u64_range (h_generation h)) _ _ parses_u64); [done|]. intros g _.
    apply (parses_step _ _ _ h_room_count _ _ (λ h, u32_range (h_room_count h)) _ _ parses_u32); [done|]. intros rc _.
    apply (parses_step _ _ _ h_session_count _ _ (λ h, u32_range (h_session_count h)) _ _ parses_u32); [done|]. intros sc _.
    apply (parses_step _ _ _ h_payload_size _ _ (λ h, u64_range (h_payload_size h)) _ _ parses_u64); [done|]. intros ps _.
    apply (parses_step _ _ _ h_checksum _ _ (λ h, u64_range (h_checksum h)) _ _ parses_u64); [done|]. intros ck _.
    apply parses_ret. intros [v' g' rc' sc' ps' ck']. cbn. split.
    + by intros (((((((_ & ->) & ->) & ->) & ->) & ->) & ->) & _).
    + intros [= -> -> -> -> -> ->]. by split_and!.
  - intros h'. unfold header_typed. tauto.
  - intros h'. unfold header_bytes. by rewrite app_nil_r.
Qed.

(** Any 36 bytes are a header. *)
Lemma header_exists (s : bytes) :
  length s = 36%nat → ∃ h, header_typed h ∧ s = header_bytes h.
Proof.
  intros Hs. 
  exists (MkHeader (be_value (take 4 s)) (be_value (take 8 (drop 4 s))) (be_value (take 4 (drop 12 s)))
    (be_value (take 4 (drop 16 s))) (be_value (take 8 (drop 20 s))) (be_value (take 8 (drop 28 s)))).
  split.
  - unfold header_typed. cbn [h_version h_generation h_room_count h_session_count h_payload_size h_checksum].
    split_and!; first [apply (be_value_take_range 4)|apply (be_value_take_range 8)];
      rewrite ?length_drop; lia.
  - unfold header_bytes. cbn [h_version h_generation h_room_count h_session_count h_payload_size h_checksum].
    rewrite (split_front 4 s) at 1 by lia. f_equal.
    rewrite (split_front 8 (drop 4 s)) at 1 by (rewrite length_drop; lia). rewrite drop_drop. f_equal.
    rewrite (split_front 4 (drop (4 + 8) s)) at 1 by (rewrite length_drop; lia). rewrite drop_drop. f_equal.
    rewrite (split_front 4 (drop (4 + 8 + 4) s)) at 1 by (rewrite length_drop; lia). rewrite drop_drop. f_equal.
    rewrite (split_front 8 (drop (4 + 8 + 4 + 4) s)) at 1 by (rewrite length_drop; lia). rewrite drop_drop. f_equal.
    rewrite (split_front 8 (drop (4 + 8 + 4 + 4 + 8) s)) at 1 by (rewrite length_drop; lia).
    rewrite drop_drop, (drop_ge s (4 + 8 + 4 + 4 + 8 + 8)), app_nil_r by lia. done.
Qed.

(** What [decode] does with any string that has a header. *)
Definition decode_with (h : Header) (payload : bytes) : result CK.States ServerCheckpoint :=
  if MAX_PAYLOAD_SIZE <? zlen payload then Err CK.too_large
  else if negb (h_version h =? CHECKPOINT_VERSION) then Err CK.unsupported_version
  else if h_generation h =? 0 then Err CK.invalid_checkpoint
  else if negb (h_payload_size h =? zlen payload) then Err CK.malformed_data
  else if negb (h_checksum h =? checksum payload 0 (length payload)) then Err CK.checksum_mismatch
  else
    let data := CHECKPOINT_MAGIC ++ header_bytes h ++ payload in
    temp ← orelse (fst <$> decode_body (h_generation h) (h_room_count h) (h_session_count h)
                     (MkReader data CHECKPOINT_HEADER_SIZE (length data))) CK.malformed_data;
    _ ← ensure (valid_checkpoint_keys temp) CK.invalid_checkpoint;
    Ok temp.

Lemma decode_with_spec h payload :
  header_typed h → decode (CHECKPOINT_MAGIC ++ header_bytes h ++ payload) = decode_with h payload.
Proof.
  intros Hh. unfold decode, decode_with.
  set (data := CHECKPOINT_MAGIC ++ header_bytes h ++ payload).
  assert (Hl : zlen data = 40 + zlen payload).
  { unfold data. rewrite !zlen_app, header_bytes_length. change (zlen CHECKPOINT_MAGIC) with 4. lia. }
  assert (Hl' : length data = (40 + length payload)%nat) by (unfold zlen in Hl; lia).
  assert (Hd : drop 40 data = payload).
  { unfold data. rewrite app_assoc. apply drop_app_length'. rewrite length_app.
    pose proof (header_bytes_length h) as Hhl. unfold zlen in Hhl. cbn. lia. }
  rewrite Hl, Hl'. unfold CHECKPOINT_HEADER_SIZE, MAX_PAYLOAD_SIZE.
  replace (MAX_CHECKPOINT_FILE_SIZE <? 40 + zlen payload) with
    (MAX_CHECKPOINT_FILE_SIZE - Z.of_nat CHECKPOINT_HEADER_SIZE <? zlen payload)
    by (unfold CHECKPOINT_HEADER_SIZE; apply Bool.eq_iff_eq_true; rewrite !Z.ltb_lt; lia).
  destruct (_ <? zlen payload); [done|]. cbn [negb ensure mbind result_bind].
  rewrite (proj2 (Nat.ltb_ge _ _)) by lia. cbn [negb ensure mbind result_bind].
  rewrite bool_decide_true by done. cbn [negb ensure mbind result_bind].
  assert (Hhead : fst <$> decode_header (MkReader data (length CHECKPOINT_MAGIC) 40) = Some h).
  { apply decode_header_iff; [unfold reader_wf; cbn [position_ end_ data_ length CHECKPOINT_MAGIC]; lia|].
    split; [done|]. unfold rest. cbn [position_ end_ data_].
    unfold data. rewrite drop_app_length, take_app_length'; [done|].
    cbn [length CHECKPOINT_MAGIC]. pose proof (header_bytes_length h) as Hhl. unfold zlen in Hhl. lia. }
  rewrite Hhead. cbn [orelse ensure mbind result_bind].
  destruct (h_version h =? CHECKPOINT_VERSION); [|done]. cbn [negb ensure mbind result_bind].
  destruct (h_generation h =? 0); [done|]. cbn [negb ensure mbind result_bind].
  replace (Z.of_nat (40 + length payload - 40)) with (zlen payload) by (unfold zlen; lia).
  destruct (h_payload_size h =? zlen payload); [|done]. cbn [negb ensure mbind result_bind].
  replace (checksum data 40 (40 + length payload - 40)) with (checksum payload 0 (length payload)).
  - by destruct (h_checksum h =? _).
  - unfold checksum. rewrite Hd, drop_0. do 2 f_equal. lia.
Qed.

(** A decodable string is a file, and conversely. *)
Lemma decode_body_iff h payload c :
  header_typed h →
  let data := CHECKPOINT_MAGIC ++ header_bytes h ++ payload in
  fst <$> decode_body (h_generation h) (h_room_count h) (h_session_count h)
    (MkReader data CHECKPOINT_HEADER_SIZE (length data)) = Some c ↔
  (svc_generation c = h_generation h ∧ zlen (svc_rooms c) = h_room_count h ∧
   zlen (svc_sessions c) = h_session_count h ∧ Forall room_ok (svc_rooms c) ∧
   Forall session_ok (svc_sessions c)) ∧ payload = payload_of c.
Proof.
  intros (_ & _ & [Hr _] & [Hs _] & _) data.
  set (r := MkReader data CHECKPOINT_HEADER_SIZE (length data)).
  assert (Hl : (40 <= length data)%nat).
  { unfold data. rewrite !length_app. pose proof (header_bytes_length h) as Hhl.
    unfold zlen in Hhl. cbn. lia. }
  assert (Hwf : reader_wf r).
  { unfold r, reader_wf, CHECKPOINT_HEADER_SIZE. cbn [position_ end_ data_]. lia. }
  assert (Hrest : rest r = payload).
  { unfold rest, r, CHECKPOINT_HEADER_SIZE. cbn [position_ end_ data_].
    rewrite take_ge by (rewrite length_drop; lia).
    unfold data. rewrite app_assoc. apply drop_app_length'. rewrite length_app.
    pose proof (header_bytes_length h) as Hhl. unfold zlen in Hhl. cbn. lia. }
  pose proof (parses_all _ _ _ r c (parses_body (h_generation h) _ _ Hr Hs) Hwf) as Hall.
  cbv beta in Hall. rewrite Hrest in Hall.
  etransitivity; [|etransitivity; [exact Hall|]].
  - match goal with |- fst <$> ?x = _ ↔ fst <$> ?y = _ => replace x with y; [done|] end.
    unfold decode_body, mbind, parser_bind, mret, parser_ret. repeat (step_match; try done).
  - unfold payload_of. rewrite app_nil_r. tauto.
Qed.

Lemma decode_split data c :
  decode data = Ok c →
  ∃ h payload, header_typed h ∧ data = CHECKPOINT_MAGIC ++ header_bytes h ++ payload.
Proof.
  unfold decode, CHECKPOINT_HEADER_SIZE. intros H. result_inv H. to_prop.
  rename Hr0 into Hlen, Hr1 into Hmagic. apply Nat.ltb_ge in Hlen.
  destruct (header_exists (take 36 (drop 4 data))) as (h & Hh & Hs).
  { rewrite length_take, length_drop. lia. }
  exists h, (drop 40 data). split; [done|].
  rewrite <-Hs, <-Hmagic. cbn [length CHECKPOINT_MAGIC].
  change 40%nat with (4 + 36)%nat. by rewrite <-drop_drop, !take_drop.
Qed.

Lemma room_ok_typed r : room_ok r → room_typed r.
Proof.
  unfold room_ok, room_typed. intros (? & ? & ? & ? & ? & Hm & ? & ?). split_and!; try done.
  eapply Forall_impl; [exact Hm|]. by intros m [? ?].
Qed.

Lemma zlen_elem_le {A} (enc : A → bytes) a l : a ∈ l → zlen (enc a) <= zlen (concat (enc <$> l)).
Proof.
  induction 1 as [a l|a b l _ IH]; cbn; rewrite zlen_app; zlen_facts; lia.
Qed.

(** Types and the size limit bound every count. *)
Lemma room_typed_ok r : room_typed r → zlen (room_record r) <= MAX_PAYLOAD_SIZE → room_ok r.
Proof.
  unfold room_ok, room_typed, room_record, counted. intros (? & ? & ? & ? & Hm & ?) Hs.
  rewrite !zlen_app, !zlen_be_bytes in Hs.
  pose proof (members_length r). pose proof (players_length r).
  assert (MAX_PAYLOAD_SIZE < 2 ^ 32) by done. zlen_facts.
  split_and!; try done; [unfold u32_range; lia| |unfold u32_range; lia].
  apply Forall_forall. intros m Hin. rewrite Forall_forall in Hm. split; [by apply Hm|].
  pose proof (zlen_elem_le member_record m _ Hin). pose proof (member_name_le m).
  unfold u32_range. zlen_facts. lia.
Qed.

Lemma checkpoint_typed_ok c :
  checkpoint_typed c → zlen (payload_of c) <= MAX_PAYLOAD_SIZE →
  Forall room_ok (svc_rooms c) ∧ Forall session_ok (svc_sessions c).
Proof.
  unfold payload_of. rewrite zlen_app. intros (_ & Hr & Hs) Hl.
  rewrite Forall_forall in Hr. rewrite Forall_forall in Hs. split; apply Forall_forall; intros x Hx.
  - apply room_typed_ok; [by apply Hr|]. pose proof (zlen_elem_le room_record x _ Hx).
    zlen_facts. lia.
  - split; [by apply Hs|]. pose proof (zlen_elem_le session_record x _ Hx). pose proof (session_token_le x).
    assert (MAX_PAYLOAD_SIZE < 2 ^ 32) by done. unfold u32_range. zlen_facts. lia.
Qed.

Lemma fnv_step_range h b : u64_range (fnv_step h b).
Proof. apply Z.mod_pos_bound. lia. Qed.

Lemma checksum_range data begin size : u64_range (checksum data begin size).
Proof.
  unfold checksum. generalize (take size (drop begin data)). intros bs.
  assert (H : u64_range FNV_OFFSET_BASIS) by (unfold u64_range, FNV_OFFSET_BASIS; lia).
  revert H. generalize FNV_OFFSET_BASIS. induction bs as [|b bs IH]; cbn; [done|].
  intros h _. apply IH, fnv_step_range.
Qed.

Lemma file_header_typed c :
  checkpoint_typed c → fits_u32 (zlen (svc_rooms c)) = true →
  fits_u32 (zlen (svc_sessions c)) = true → zlen (payload_of c) <= MAX_PAYLOAD_SIZE →
  header_typed (file_header c (payload_of c)).
Proof.
  intros (Hg & _) Hr Hs Hp. unfold fits_u32 in *. to_prop. zlen_facts.
  assert (MAX_PAYLOAD_SIZE < 2 ^ 64) by done. unfold header_typed. cbn.
  split_and!; try done; [..|apply checksum_range]; unfold u32_range, u64_range; lia.
Qed.

Lemma decode_iff_encode (data : bytes) (c : ServerCheckpoint) :
  decode data = Ok c ↔ checkpoint_typed c ∧ encode c = Ok data.
Proof.
  rewrite encode_closed. split.
  - intros Hdec. destruct (decode_split data c Hdec) as (h & payload & Hh & ->).
    rewrite decode_with_spec in Hdec by done. unfold decode_with in Hdec.
    repeat (step_match_in Hdec; try discriminate Hdec). result_inv Hdec. subst. to_prop.
    apply decode_body_iff in Hr as ((Hg & Hrooms & Hsess & Hrok & Hsok) & ->); [|done].
    destruct Hh as (_ & Hgen & Hrc & Hsc & _).
    assert (Hhead : h = file_header c (payload_of c)).
    { destruct h; unfold file_header; cbn in *. subst. congruence. }
    rewrite (proj2 (Z.eqb_neq _ _)) by congruence.
    rewrite (proj2 (andb_true_iff _ _)); [|unfold fits_u32, u32_range in *; rewrite !Z.leb_le; lia].
    rewrite Hr0, (proj2 (Z.ltb_ge _ _)) by done. cbn [negb].
    split; [split_and!|].
    + by rewrite Hg.
    + by eapply Forall_impl, room_ok_typed.
    + eapply Forall_impl; [exact Hsok|]. by intros s [? ?].
    + unfold file_of, header_of. by rewrite Hhead.
  - intros [Htyped Henc]. repeat (step_match_in Henc; try discriminate Henc). 
    injection Henc as <-. to_prop.
    assert (Hh : header_typed (file_header c (payload_of c))) by (by apply file_header_typed).
    unfold file_of, header_of. rewrite decode_with_spec by done. unfold decode_with.
    destruct (checkpoint_typed_ok c Htyped) as [Hrok Hsok]; [done|].
    rewrite (proj2 (decode_body_iff (file_header c (payload_of c)) (payload_of c) c Hh)) by done.
    cbn. rewrite (proj2 (Z.ltb_ge _ _)), (proj2 (Z.eqb_neq _ 0)), !Z.eqb_refl by done.
    cbn [negb]. by match goal with H : valid_checkpoint_keys c = true |- _ => rewrite H end.
Qed.

Lemma encode_cases (c : ServerCheckpoint) :
  match encode c with
  | Ok data => svc_generation c ≠ 0 ∧ keys_valid c ∧ data = file_of c ∧
               zlen data <= MAX_CHECKPOINT_FILE_SIZE
  | Err CK.invalid_checkpoint => svc_generation c = 0 ∨ ¬ keys_valid c
  | Err CK.too_large =>
      svc_generation c ≠ 0 ∧
      (2 ^ 32 <= zlen (svc_rooms c) ∨ 2 ^ 32 <= zlen (svc_sessions c) ∨
       MAX_PAYLOAD_SIZE < zlen (payload_of c))
  | Err _ => False
  end.
Proof.
  rewrite encode_closed. destruct (Z.eqb_spec (svc_generation c) 0); [by left|].
  case_test E.
  { split; [done|]. unfold fits_u32 in E. apply negb_true_iff, andb_false_iff in E as [E|E]; to_prop; lia. }
  pose proof (valid_checkpoint_keys_spec c) as Hk.
  case_test E1; to_prop; [right; intros ?%Hk; congruence|]. case_test E2; to_prop; [auto|].
  split_and!; try done; [by apply Hk|]. unfold file_of. rewrite !zlen_app, header_of_length.
  change (zlen CHECKPOINT_MAGIC) with 4. unfold MAX_PAYLOAD_SIZE, CHECKPOINT_HEADER_SIZE in E2. lia.
Qed.

(** * Properties *)

(** C7: The checkpoint codec is exact in both directions: decoding accepts a
    byte string with a given result precisely when encoding that checkpoint
    produces that byte string. So every encoded checkpoint is read back as it
    was, no two byte strings mean the same checkpoint, and everything the
    decoder accepts could have been written. *)
Theorem codec_exact (data : bytes) (c : ServerCheckpoint) :
  decode data = Ok c ↔ checkpoint_typed c ∧ encode c = Ok data.
Proof. apply decode_iff_encode. Qed.

(** What [encode] returns on every checkpoint: [invalid_checkpoint] exactly
    for generation zero or bad keys, [too_large] exactly when a count or the
    payload exceeds its bound, and otherwise the file in the documented layout,
    which is then within the file size limit. *)
Theorem encode_outcome (c : ServerCheckpoint) :
  match encode c with
  | Ok data => svc_generation c ≠ 0 ∧ keys_valid c ∧ data = file_of c ∧
               zlen data <= MAX_CHECKPOINT_FILE_SIZE
  | Err CK.invalid_checkpoint => svc_generation c = 0 ∨ ¬ keys_valid c
  | Err CK.too_large =>
      svc_generation c ≠ 0 ∧
      (2 ^ 32 <= zlen (svc_rooms c) ∨ 2 ^ 32 <= zlen (svc_sessions c) ∨
       MAX_PAYLOAD_SIZE < zlen (payload_of c))
  | Err _ => False
  end.
Proof. apply encode_cases. Qed.

(** ** Damage *)

(** The inverse of the FNV prime modulo 2^64: each step loses nothing. *)
Definition FNV_PRIME_INVERSE : Z := 14886173955864302971.

Lemma fnv_mul_inj x y : u64_range x → u64_range y →
  wrap64 (x * FNV_PRIME) = wrap64 (y * FNV_PRIME) → x = y.
Proof.
  unfold u64_range, wrap64. intros Hx Hy He.
  assert (Hinv : ∀ z, 0 <= z < 2 ^ 64 →
    (z * FNV_PRIME mod 2 ^ 64 * FNV_PRIME_INVERSE) mod 2 ^ 64 = z).
  { intros z Hz. rewrite Z.mul_mod_idemp_l, <-Z.mul_assoc by lia.
    rewrite <-Z.mul_mod_idemp_r by lia. change (FNV_PRIME * FNV_PRIME_INVERSE mod 2 ^ 64) with 1.
    rewrite Z.mul_1_r. by apply Z.mod_small. }
  by rewrite <-(Hinv x), <-(Hinv y), He.
Qed.

Lemma lxor_range h b : u64_range h → u64_range (Z.lxor h (byte_to_Z b)).
Proof.
  unfold u64_range. intros Hh. pose proof (byte_to_Z_range b) as Hb. unfold u8_range in Hb.
  split; [by apply Z.lxor_nonneg; lia|].
  destruct (Z.eq_dec (Z.lxor h (byte_to_Z b)) 0) as [->|Hn]; [lia|].
  assert (0 <= Z.lxor h (byte_to_Z b)) by (apply Z.lxor_nonneg; lia).
  apply Z.log2_lt_pow2; [lia|]. pose proof (Z.log2_lxor h (byte_to_Z b)) as Hl.
  assert (∀ z, 0 <= z < 2 ^ 64 → Z.log2 z < 64) as Hlog.
  { intros z Hz. destruct (Z.eq_dec z 0) as [->|]; [cbn; lia|]. apply Z.log2_lt_pow2; lia. }
  pose proof (Hlog h Hh). pose proof (Hlog (byte_to_Z b)). lia.
Qed.

Lemma lxor_cancel_l a b c : Z.lxor a b = Z.lxor a c → b = c.
Proof.
  intros He. rewrite <-(Z.lxor_0_l b), <-(Z.lxor_0_l c), <-(Z.lxor_nilpotent a).
  by rewrite !Z.lxor_assoc, He.
Qed.

Lemma fnv_step_inj_hash h h' b :
  u64_range h → u64_range h' → fnv_step h b = fnv_step h' b → h = h'.
Proof.
  intros Hh Hh' He%fnv_mul_inj; [|by apply lxor_range..].
  apply (lxor_cancel_l (byte_to_Z b)). by rewrite !(Z.lxor_comm (byte_to_Z b)).
Qed.

Lemma fnv_step_inj_byte h b b' : u64_range h → fnv_step h b = fnv_step h b' → b = b'.
Proof.
  intros Hh He%fnv_mul_inj; [|by apply lxor_range..].
  by apply lxor_cancel_l, byte_to_Z_inj in He.
Qed.

Lemma fnv_fold_inj bs h h' :
  u64_range h → u64_range h' → foldl fnv_step h bs = foldl fnv_step h' bs → h = h'.
Proof.
  revert h h'. induction bs as [|b bs IH]; intros h h' Hh Hh' He; cbn in He; [done|].
  apply IH in He; [|apply fnv_step_range..]. by apply fnv_step_inj_hash in He.
Qed.

(** One changed byte changes the checksum. *)
Lemma checksum_detects payload i b :
  (i < length payload)%nat → payload !! i ≠ Some b →
  checksum (<[i := b]> payload) 0 (length payload) ≠ checksum payload 0 (length payload).
Proof.
  intros Hi Hb. unfold checksum. rewrite !drop_0, !take_ge by (rewrite ?length_insert; lia).
  destruct (lookup_lt_is_Some_2 payload i Hi) as [b' Hb'].
  rewrite <-(take_drop_middle payload i b' Hb') at 2. rewrite insert_take_drop by done.
  rewrite !foldl_app. cbn. intros He.
  set (h := foldl fnv_step FNV_OFFSET_BASIS (take i payload)) in He.
  assert (Hh : u64_range h).
  { pose proof (checksum_range payload 0 i) as H. unfold checksum in H. by rewrite drop_0 in H. }
  apply fnv_fold_inj in He; [|apply fnv_step_range..].
  apply fnv_step_inj_byte in He; [|done]. congruence.
Qed.

(** *** The header *)

(** [n] bytes from [m] on. *)
Definition slice (m n : nat) (d : bytes) : bytes := take n (drop m d).

Lemma slice_insert m n i b d :
  (i < m ∨ m + n <= i)%nat → slice m n (<[i := b]> d) = slice m n d.
Proof.
  intros Hi. apply list_eq. intros j. unfold slice.
  destruct (decide (j < n)%nat); [|by rewrite !lookup_take_ge by lia].
  rewrite !lookup_take_lt, !lookup_drop by done. apply list_lookup_insert_ne. lia.
Qed.

Lemma slice_lookup m n i d : (m <= i < m + n)%nat → slice m n d !! (i - m)%nat = d !! i.
Proof. intros Hi. unfold slice. rewrite lookup_take_lt, lookup_drop by lia. f_equal. lia. Qed.

(** A slice that is the same after a byte in it was changed. *)
Lemma slice_changed m n i b d :
  (m <= i < m + n)%nat → (i < length d)%nat →
  slice m n (<[i := b]> d) = slice m n d → d !! i = Some b.
Proof.
  intros Hi Hl He. rewrite <-(slice_lookup m n i d), <-He, slice_lookup by done.
  by apply list_lookup_insert_eq.
Qed.

Lemma file_slices c :
  slice 0 8 (file_of c) = CHECKPOINT_MAGIC ++ be_bytes 4 CHECKPOINT_VERSION ∧
  slice 16 4 (file_of c) = be_bytes 4 (zlen (svc_rooms c)) ∧
  slice 20 4 (file_of c) = be_bytes 4 (zlen (svc_sessions c)) ∧
  slice 24 16 (file_of c) = be_bytes 8 (zlen (payload_of c)) ++
    be_bytes 8 (checksum (payload_of c) 0 (length (payload_of c))) ∧
  drop 40 (file_of c) = payload_of c.
Proof.
  unfold file_of, header_of, header_bytes, file_header, slice.
  cbn [h_version h_generation h_room_count h_session_count h_payload_size h_checksum].
  generalize (zlen (svc_rooms c)) (zlen (svc_sessions c)) (zlen (payload_of c))
    (checksum (payload_of c) 0 (length (payload_of c))) (svc_generation c) CHECKPOINT_VERSION (payload_of c).
  intros a b n k g v p. split_and!; reflexivity.
Qed.

(** What the decoder accepts is the file of a checkpoint within all bounds. *)
Record accepted (c : ServerCheckpoint) : Prop := {
  ac_rooms : Forall room_ok (svc_rooms c);
  ac_sessions : Forall session_ok (svc_sessions c);
  ac_room_count : u32_range (zlen (svc_rooms c));
  ac_session_count : u32_range (zlen (svc_sessions c));
  ac_keys : keys_valid c
}.

Lemma decode_accepted data c : decode data = Ok c → data = file_of c ∧ accepted c.
Proof.
  intros [Ht He]%decode_iff_encode. pose proof (encode_cases c) as Hc. rewrite He in Hc.
  destruct Hc as (_ & Hk & -> & Hl). split; [done|].
  assert (Hp : zlen (payload_of c) <= MAX_PAYLOAD_SIZE).
  { unfold file_of in Hl. rewrite !zlen_app, header_of_length in Hl.
    change (zlen CHECKPOINT_MAGIC) with 4 in Hl. unfold MAX_PAYLOAD_SIZE, CHECKPOINT_HEADER_SIZE. lia. }
  destruct (checkpoint_typed_ok c Ht Hp) as [Hr Hs]. unfold payload_of in Hp. rewrite zlen_app in Hp.
  pose proof (rooms_length (svc_rooms c)). pose proof (sessions_length (svc_sessions c)).
  assert (MAX_PAYLOAD_SIZE < 2 ^ 32) by done. zlen_facts. split; try done; unfold u32_range; lia.
Qed.

(** The sessions take 48 bytes each, so that a table with a wrong count never
    fits. *)
Lemma session_records_length l :
  Forall (λ s, valid_session_token (sc_token s) = true) l →
  zlen (concat (session_record <$> l)) = 48 * zlen l.
Proof.
  induction 1 as [|s l Hs _ IH]; [done|]. cbn. rewrite zlen_app, IH.
  unfold session_record, sized_bytes. rewrite !zlen_app, !zlen_be_bytes.
  unfold valid_session_token in Hs. destruct (Z.eqb_spec (zlen (sc_token s)) SESSION_TOKEN_SIZE) as [Hl|];
    [|done]. unfold SESSION_TOKEN_SIZE in Hl. rewrite Hl. unfold zlen. cbn [length]. lia.
Qed.

Lemma parses_prefix_code {A} (p : parser A) P enc : parses p P enc → prefix_code P enc.
Proof.
  intros Hp a b r s Ha Hb He.
  set (rd := MkReader (enc a ++ r) 0 (length (enc a ++ r))).
  assert (Hwf : reader_wf rd) by (unfold reader_wf, rd; cbn; lia).
  assert (Hrest : rest rd = enc a ++ r).
  { unfold rest, rd. cbn [position_ end_ data_]. rewrite drop_0, Nat.sub_0_r. apply firstn_all. }
  assert (H1 : p rd = Some (a, advance (length (enc a)) rd)).
  { apply Hp; [done|]. rewrite Hrest. split_and!; [done|by eexists|done]. }
  assert (H2 : p rd = Some (b, advance (length (enc b)) rd)).
  { apply Hp; [done|]. rewrite Hrest, He. split_and!; [done|by eexists|done]. }
  assert (a = b) by congruence. subst b. split; [done|]. by apply app_inv_head in He.
Qed.

Lemma payload_more_rooms c c' :
  accepted c → accepted c' → payload_of c = payload_of c' → zlen (svc_rooms c) <= zlen (svc_rooms c') →
  zlen (svc_rooms c) = zlen (svc_rooms c') ∨ zlen (svc_sessions c) = zlen (svc_sessions c') →
  svc_rooms c = svc_rooms c' ∧ svc_sessions c = svc_sessions c'.
Proof.
  intros [Hr Hs _ _ (_ & _ & _ & Ht)] [Hr' Hs' _ _ (_ & _ & _ & Ht')] He Hle Hcount.
  unfold payload_of in He.
  apply (concat_prefix_shorter room_ok) in He as (more & Hmore & He);
    [|eapply parses_prefix_code, parses_room|done|done|unfold zlen in Hle; lia].
  pose proof (f_equal zlen He) as Hl. rewrite zlen_app, !session_records_length in Hl by done.
  pose proof (rooms_length more) as Hrl. rewrite Hmore, zlen_app in Hcount. zlen_facts.
  assert (Hnil : zlen more = 0) by lia. assert (more = []) as -> by (apply length_zero_iff_nil; unfold zlen in Hnil; lia).
  rewrite app_nil_r in Hmore. split; [done|]. cbn in He, Hl. rewrite <-(app_nil_r (concat _)) in He.
  rewrite <-(app_nil_r (concat (session_record <$> svc_sessions c'))) in He.
  eapply concat_prefix in He as [? _]; [done|eapply parses_prefix_code, parses_session|done|done|].
  change (zlen (@nil byte)) with 0 in Hl. unfold zlen in Hl. lia.
Qed.

(** Of the header only the generation can be another one. *)
Lemma header_change c c' i b :
  accepted c → accepted c' → (i < 40)%nat → file_of c !! i ≠ Some b →
  <[i := b]> (file_of c) = file_of c' → (8 <= i < 16)%nat.
Proof.
  intros Hc Hc' Hi Hb He.
  destruct (file_slices c) as (Hv & Hrn & Hsn & Hck & Hp), (file_slices c') as (Hv' & Hrn' & Hsn' & Hck' & Hp').
  assert (Hlen : (40 <= length (file_of c))%nat).
  { unfold file_of. rewrite !length_app. pose proof (header_of_length c (payload_of c)) as Hl.
    unfold zlen in Hl. cbn. lia. }
  assert (Hsame : ∀ m n, (m <= i < m + n)%nat → slice m n (file_of c') ≠ slice m n (file_of c)).
  { intros m n Hm Hs. apply Hb. apply (slice_changed m n); [done|lia|]. by rewrite He. }
  assert (Hother : ∀ m n, (i < m ∨ m + n <= i)%nat → slice m n (file_of c') = slice m n (file_of c)).
  { intros m n Hm. rewrite <-He. by apply slice_insert. }
  assert (Hpay : payload_of c = payload_of c').
  { rewrite <-Hp, <-Hp', <-He. symmetry. apply drop_insert_lt. lia. }
  destruct (decide (i < 8)%nat); [exfalso; apply (Hsame 0%nat 8%nat); [lia|congruence]|].
  destruct (decide (i < 16)%nat); [lia|exfalso].
  destruct (decide (24 <= i)%nat); [apply (Hsame 24%nat 16%nat); [lia|congruence]|].
  assert (Hcount : zlen (svc_rooms c) = zlen (svc_rooms c') ∨ zlen (svc_sessions c) = zlen (svc_sessions c')).
  { destruct (decide (i < 20)%nat); [right|left]; eapply (be_bytes_inj 4);
      try (apply Hc || apply Hc'); [rewrite <-Hsn, <-Hsn'|rewrite <-Hrn, <-Hrn']; symmetry; apply Hother; lia. }
  assert (Heq : svc_rooms c = svc_rooms c' ∧ svc_sessions c = svc_sessions c').
  { destruct (Z.le_ge_cases (zlen (svc_rooms c)) (zlen (svc_rooms c'))); [by apply payload_more_rooms|].
    destruct (payload_more_rooms c' c) as [-> ->]; [done..|naive_solver|done]. }
  destruct Heq as [Her Hes]. apply (Hsame 16%nat 8%nat); [lia|].
  assert (Hsplit : ∀ d, slice 16 8 d = slice 16 4 d ++ slice 20 4 d).
  { intros d. unfold slice. change 8%nat with (4 + 4)%nat. by rewrite <-take_take_drop, drop_drop. }
  by rewrite !Hsplit, Hrn, Hsn, Hrn', Hsn', Her, Hes.
Qed.

Lemma decode_short data : (length data < 40)%nat → decode data = Err CK.malformed_data.
Proof.
  intros Hl. unfold decode, CHECKPOINT_HEADER_SIZE, zlen.
  rewrite (proj2 (Z.ltb_ge _ _)) by (unfold MAX_CHECKPOINT_FILE_SIZE; lia).
  by rewrite (proj2 (Nat.ltb_lt _ _)).
Qed.

Lemma decode_wrong_size h payload :
  h_version h = CHECKPOINT_VERSION → h_generation h ≠ 0 → zlen payload <= MAX_PAYLOAD_SIZE →
  h_payload_size h ≠ zlen payload → decode_with h payload = Err CK.malformed_data.
Proof.
  intros Hv Hg Hs Hp. unfold decode_with.
  by rewrite (proj2 (Z.ltb_ge _ _)), (proj2 (Z.eqb_eq _ _)), !(proj2 (Z.eqb_neq _ _)) by done.
Qed.

(** A file with another generation, which no checksum covers. *)
Definition with_generation (g : Z) (c : ServerCheckpoint) : ServerCheckpoint :=
  MkServerCheckpoint g (svc_rooms c) (svc_sessions c).

Lemma decode_with_generation h payload c g :
  header_typed h → decode_with h payload = Ok c → u64_range g →
  decode_with (MkHeader (h_version h) g (h_room_count h) (h_session_count h) (h_payload_size h)
                 (h_checksum h)) payload =
    if g =? 0 then Err CK.invalid_checkpoint else Ok (with_generation g c).
Proof.
  intros Hh Hdec Hg. unfold decode_with in Hdec.
  repeat (step_match_in Hdec; try discriminate Hdec). result_inv Hdec. subst. to_prop.
  assert (Hh' : header_typed (MkHeader (h_version h) g (h_room_count h) (h_session_count h)
    (h_payload_size h) (h_checksum h))).
  { destruct Hh as (? & ? & ? & ? & ? & ?). by split_and!. }
  apply decode_body_iff in Hr as ((Hgen & Hok) & Hpay); [|done].
  pose proof (proj2 (decode_body_iff _ payload (with_generation g c) Hh')
    (conj (conj eq_refl Hok) Hpay)) as Hbody.
  unfold decode_with. cbn [h_version h_generation h_room_count h_session_count h_payload_size h_checksum] in *.
  repeat match goal with H : ?x = ?y |- context [?x =? ?y] => rewrite (proj2 (Z.eqb_eq x y) H) end.
  rewrite (proj2 (Z.ltb_ge _ _)) by done. cbn [negb]. destruct (g =? 0); [done|]. rewrite Hbody.
  cbn. change (valid_checkpoint_keys (with_generation g c)) with (valid_checkpoint_keys c).
  by match goal with H : valid_checkpoint_keys c = true |- _ => rewrite H end.
Qed.

(** The file after a byte of its generation was changed. *)
Lemma insert_generation h payload i b :
  (8 <= i < 16)%nat →
  let g := be_value (<[(i - 8)%nat := b]> (be_bytes 8 (h_generation h))) in
  u64_range g ∧
  <[i := b]> (CHECKPOINT_MAGIC ++ header_bytes h ++ payload) =
    CHECKPOINT_MAGIC ++ header_bytes (MkHeader (h_version h) g (h_room_count h) (h_session_count h)
      (h_payload_size h) (h_checksum h)) ++ payload.
Proof.
  intros Hi g. set (s := <[(i - 8)%nat := b]> (be_bytes 8 (h_generation h))) in *.
  assert (Hs : length s = 8%nat) by (unfold s; by rewrite length_insert, be_bytes_length).
  split. { pose proof (be_value_range s) as Hr. unfold zlen in Hr. by rewrite Hs in Hr. }
  assert (Hg : be_bytes 8 g = s) by (rewrite <-Hs at 1; apply be_bytes_value).
  unfold header_bytes. cbn [h_version h_generation h_room_count h_session_count h_payload_size h_checksum].
  rewrite Hg, <-!app_assoc, insert_app_r_alt by (cbn; lia). f_equal.
  rewrite insert_app_r_alt by (rewrite be_bytes_length; cbn; lia). f_equal.
  rewrite insert_app_l by (rewrite !be_bytes_length; cbn; lia). f_equal. unfold s. f_equal.
  rewrite be_bytes_length. cbn [length CHECKPOINT_MAGIC]. lia.
Qed.

(** C27: Damage to a valid checkpoint file is noticed, except in its generation.
    A changed byte of the payload is a [checksum_mismatch], a changed byte of
    the header outside the generation is an error, any truncation is
    [malformed_data], and trailing bytes are [malformed_data], or [too_large]
    when the file then exceeds its limit. A changed byte of the generation
    (bytes 8 to 15), which the checksum does not cover, goes unnoticed unless
    it makes the generation zero: the file then decodes to the same rooms and
    sessions under the other generation. *)
Theorem decode_detects_damage (data : bytes) (c : ServerCheckpoint) :
  decode data = Ok c →
  (∀ i b, (i < CHECKPOINT_HEADER_SIZE)%nat → ¬ (8 <= i < 16)%nat → data !! i ≠ Some b →
     ∃ e, decode (<[i := b]> data) = Err e) ∧
  (∀ i b, (8 <= i < 16)%nat →
     let g := be_value (<[(i - 8)%nat := b]> (be_bytes 8 (svc_generation c))) in
     decode (<[i := b]> data) =
       if g =? 0 then Err CK.invalid_checkpoint else Ok (with_generation g c)) ∧
  (∀ i b, (CHECKPOINT_HEADER_SIZE <= i < length data)%nat → data !! i ≠ Some b →
     decode (<[i := b]> data) = Err CK.checksum_mismatch) ∧
  (∀ n, (n < length data)%nat → decode (take n data) = Err CK.malformed_data) ∧
  (∀ more, more ≠ [] → decode (data ++ more) =
     Err (if MAX_CHECKPOINT_FILE_SIZE <? zlen (data ++ more) then CK.too_large else CK.malformed_data)).
Proof.
  intros Hdec. pose proof (decode_accepted data c Hdec) as [Hfile Hacc].
  split.
  { intros i b Hi Hg Hb. destruct (decode (<[i := b]> data)) as [c'|e] eqn:Hd; [|by exists e].
    apply decode_accepted in Hd as [Hf' Hacc']. subst data. destruct Hg.
    by apply (header_change c c' i b). }
  clear Hfile Hacc. destruct (decode_split data c Hdec) as (h & payload & Hh & ->).
  rewrite decode_with_spec in Hdec by done. split.
  { intros i b Hi. assert (Hgen : svc_generation c = h_generation h).
    { unfold decode_with in Hdec. repeat (step_match_in Hdec; try discriminate Hdec). result_inv Hdec. subst.
      by apply decode_body_iff in Hr as ((? & _) & _). }
    rewrite Hgen. destruct (insert_generation h payload i b Hi) as [Hr ->].
    rewrite decode_with_spec by (destruct Hh as (? & ? & ? & ? & ? & ?); by split_and!).
    by apply decode_with_generation. }
  assert (Hok := Hdec). unfold decode_with in Hok.
  repeat (step_match_in Hok; try discriminate Hok). clear Hok. to_prop.
  pose proof (header_bytes_length h) as Hhl.
  set (front := CHECKPOINT_MAGIC ++ header_bytes h).
  assert (Hfront : length front = 40%nat).
  { unfold front. rewrite length_app. unfold zlen in Hhl. cbn. lia. }
  assert (Hsplit : ∀ p, CHECKPOINT_MAGIC ++ header_bytes h ++ p = front ++ p).
  { intros p. unfold front. by rewrite app_assoc. }
  split_and!.
  - intros i b Hi Hb. rewrite Hsplit in *. rewrite length_app in Hi. unfold CHECKPOINT_HEADER_SIZE in Hi.
    rewrite lookup_app_r in Hb by lia. rewrite insert_app_r_alt by lia.
    rewrite <-Hsplit, decode_with_spec by done. rewrite Hfront in *. unfold decode_with.
    assert (Hzl : zlen (<[(i - 40)%nat := b]> payload) = zlen payload).
    { unfold zlen. by rewrite length_insert. }
    rewrite Hzl, length_insert. rewrite (proj2 (Z.ltb_ge _ _)) by done.
    rewrite (proj2 (Z.eqb_eq _ _)), (proj2 (Z.eqb_neq _ _)), (proj2 (Z.eqb_eq _ _)) by done.
    rewrite (proj2 (Z.eqb_neq _ _)); [done|].
    intros He. apply (checksum_detects payload (i - 40) b); [lia|done|congruence].
  - intros n Hn. rewrite Hsplit in *. rewrite length_app in Hn.
    destruct (decide (n < 40)%nat) as [Hs|Hs].
    + apply decode_short. rewrite length_take, length_app. lia.
    + rewrite take_app_ge by lia. rewrite <-Hsplit, decode_with_spec by done.
      apply decode_wrong_size; [done|done| |].
      * unfold zlen in *. rewrite length_take. lia.
      * unfold zlen in *. rewrite length_take. lia.
  - intros more Hmore%zlen_pos.
    rewrite <-!app_assoc, decode_with_spec by done.
    replace (MAX_CHECKPOINT_FILE_SIZE <? zlen (CHECKPOINT_MAGIC ++ header_bytes h ++ payload ++ more))
      with (MAX_PAYLOAD_SIZE <? zlen (payload ++ more)).
    + case_test E; [unfold decode_with; by rewrite E|]. to_prop.
      apply decode_wrong_size; try done. rewrite zlen_app. lia.
    + unfold MAX_PAYLOAD_SIZE, CHECKPOINT_HEADER_SIZE. rewrite !(zlen_app CHECKPOINT_MAGIC), (zlen_app (header_bytes h)), Hhl.
      change (zlen CHECKPOINT_MAGIC) with 4. apply Bool.eq_iff_eq_true. rewrite !Z.ltb_lt. lia.
Qed.

Lemma decode_detects_damage_witness :
  let c := MkServerCheckpoint 1
    [MkRoomCheckpoint 7 2 3 RSM.running 5 [MkCheckpointMember 1 [x41; x42]; MkCheckpointMember 2 [x43]]
       [MkPlayerGameState 1 0 0 100; MkPlayerGameState 2 1 1 90]]
    [MkSessionCheckpoint (replicate 32 x61) 7 1] in
  decode (file_of c) = Ok c ∧
  (∃ e, decode (<[19%nat := x2a]> (file_of c)) = Err e) ∧
  decode (<[15%nat := x02]> (file_of c)) = Ok (with_generation 2 c) ∧
  decode (<[60%nat := x2a]> (file_of c)) = Err CK.checksum_mismatch.
Proof.
  intros c. assert (Hc : decode (file_of c) = Ok c) by (vm_compute; reflexivity).
  destruct (decode_detects_damage (file_of c) c Hc) as (Hheader & Hgeneration & Hpayload & _).
  split_and!; [exact Hc| | |].
  - apply Hheader; [vm_compute; lia|lia|vm_compute; discriminate].
  - rewrite Hgeneration by lia. reflexivity.
  - apply Hpayload; [vm_compute; split; repeat constructor|vm_compute; discriminate].
Defined.
