(* ===== verification/Room.v ===== *)
(** [src/src/room.cpp], [src/include/room.h] and [src/include/game_command.h]:
    a room: its members and their connections, the commands of the current
    tick, the match they act on, and the room's checkpoint. *)

From S2P Require Import Prelude Connection Protocol GameState Checkpoint RoomStateMachine.

Module RM.
Inductive Joinstates : Type :=
| join_success | invalid_connection | invalid_player_name | invalid_state | room_full
| player_id_exhausted.
Inductive Commandstates : Type :=
| cmd_success | cmd_invalid_state | cmd_player_not_found | already_submitted.
Inductive Bindingstates : Type :=
| bind_success | bind_invalid_connection | bind_player_not_found | already_bound | not_bound
| connection_mismatch.
Inductive Tickstates : Type := tick_success | tick_invalid_state.

#[global] Instance Joinstates_eq_dec : EqDecision Joinstates.
Proof. solve_decision. Defined.
#[global] Instance Commandstates_eq_dec : EqDecision Commandstates.
Proof. solve_decision. Defined.
#[global] Instance Bindingstates_eq_dec : EqDecision Bindingstates.
Proof. solve_decision. Defined.
#[global] Instance Tickstates_eq_dec : EqDecision Tickstates.
Proof. solve_decision. Defined.
End RM.

(** * Definitions *)

(** ** Data *)

Inductive Gamecommand : Type :=
| Movecommand (player_id dx dy : Z)
| Attackcommand (player_id target_player_id : Z).

Record Member : Type := MkMember {
  mb_player_id : Z;
  mb_player_name : bytes;
  mb_connection : WeakPtr
}.

Record Room : Type := MkRoom {
  room_id_ : Z;
  capacity_ : Z;
  next_player_id_ : Z;
  state_machine_ : Roomstatemachine;
  game_state_ : Gamestate;
  tick_id_ : Z;
  members_ : gmap Z Member;
  pending_commands_ : list Gamecommand
}.

Record JoinResult : Type := MkJoinResult {
  jn_state : RM.Joinstates;
  jn_player_id : Z;
  jn_members : list MemberInfo
}.
Record TickResult : Type := MkTickResult {
  tk_state : RM.Tickstates;
  tk_tick_id : Z;
  tk_processed_commands : Z;
  tk_successful_commands : Z;
  tk_snapshot : list PlayerGameState
}.

Definition set_members (m : gmap Z Member) (r : Room) : Room :=
  MkRoom (room_id_ r) (capacity_ r) (next_player_id_ r) (state_machine_ r) (game_state_ r)
    (tick_id_ r) m (pending_commands_ r).
Definition set_game_state (g : Gamestate) (r : Room) : Room :=
  MkRoom (room_id_ r) (capacity_ r) (next_player_id_ r) (state_machine_ r) g
    (tick_id_ r) (members_ r) (pending_commands_ r).
Definition set_pending_commands (cs : list Gamecommand) (r : Room) : Room :=
  MkRoom (room_id_ r) (capacity_ r) (next_player_id_ r) (state_machine_ r) (game_state_ r)
    (tick_id_ r) (members_ r) cs.

Definition Room_new (room_id capacity : Z) : Room :=
  MkRoom room_id capacity 1 Roomstatemachine_new Gamestate_new 0 ∅ [].

(** ** Queries *)

Definition room_state (r : Room) : RSM.States := state (state_machine_ r).
Definition member_count (r : Room) : Z := Z.of_nat (size (members_ r)).
Definition pending_command_count (r : Room) : Z := zlen (pending_commands_ r).
Definition room_contains (r : Room) (player_id : Z) : bool :=
  match members_ r !! player_id with None => false | Some _ => true end.

Definition member_info (m : Member) : MemberInfo := MkMemberInfo (mb_player_id m) (mb_player_name m).

Section queries.
Context {ho : HashOrder}.

Definition game_snapshot (r : Room) : list PlayerGameState := snapshot (game_state_ r).

Definition member_snapshot (r : Room) : list MemberInfo :=
  sort_on mi_player_id Z.le (member_info <$> hash_values (members_ r)).

(** The other members' connections that still exist. *)
Definition connections (live : gset Conn) (r : Room) (excluded_player_id : Z) : list Conn :=
  omap (λ '(id, m), if id =? excluded_player_id then None else lock live (mb_connection m))
    (hash_iter (members_ r)).
End queries.

(** ** Starting and finishing a match *)

Definition room_start {ho : HashOrder} (ready_to_start : bool) (r : Room)
    : RSM.Transitionstates * Room :=
  if negb (bool_decide (room_state r = RSM.waiting)) then (RSM.invalid_state, r)
  else if negb ready_to_start then (RSM.condition_not_met, r)
  else
    let player_ids := mb_player_id <$> hash_values (members_ r) in
    let '(st, temp_state) := initialize Gamestate_new player_ids in
    if negb (bool_decide (st = GS.success)) then (RSM.condition_not_met, r)
    else
      (RSM.success,
       MkRoom (room_id_ r) (capacity_ r) (next_player_id_ r) (start (state_machine_ r) true).2
         temp_state 0 (members_ r) []).

Definition room_finish (should_finish : bool) (r : Room) : RSM.Transitionstates * Room :=
  if negb (bool_decide (room_state r = RSM.running)) then (RSM.invalid_state, r)
  else if negb should_finish then (RSM.condition_not_met, r)
  else
    let '(st, m) := finish (state_machine_ r) should_finish in
    if negb (bool_decide (st = RSM.success)) then (RSM.invalid_state, r)
    else
      (RSM.success,
       MkRoom (room_id_ r) (capacity_ r) (next_player_id_ r) m (game_state_ r) (tick_id_ r)
         (members_ r) []).

(** ** Members *)

Definition room_join {ho : HashOrder} (connection : ConnectionPtr) (player_name : bytes) (r : Room)
    : JoinResult * Room :=
  match connection with
  | None => (MkJoinResult RM.invalid_connection 0 [], r)
  | Some c =>
    if bool_decide (player_name = []) || (MAX_PLAYER_NAME_SIZE <? zlen player_name)
    then (MkJoinResult RM.invalid_player_name 0 [], r)
    else if negb (can_join (state_machine_ r)) then (MkJoinResult RM.invalid_state 0 [], r)
    else if capacity_ r <=? member_count r then (MkJoinResult RM.room_full 0 [], r)
    else if next_player_id_ r =? 0 then (MkJoinResult RM.player_id_exhausted 0 [], r)
    else
      let members := member_info <$> hash_values (members_ r) in
      let player_id := next_player_id_ r in
      (MkJoinResult RM.join_success player_id members,
       MkRoom (room_id_ r) (capacity_ r) (wrap64 (next_player_id_ r + 1)) (state_machine_ r)
         (game_state_ r) (tick_id_ r)
         (match members_ r !! player_id with
          | Some _ => members_ r
          | None => <[player_id := MkMember player_id player_name (Some c)]> (members_ r)
          end)
         (pending_commands_ r))
  end.

Definition room_leave (player_id : Z) (r : Room) : bool * Room :=
  match members_ r !! player_id with
  | None => (false, r)
  | Some _ =>
    if negb (bool_decide (room_state r = RSM.waiting)) then
      let '(st, g) := remove_player (game_state_ r) player_id in
      if negb (bool_decide (st = GS.success)) then (false, set_game_state g r)
      else (true, set_members (delete player_id (members_ r)) (set_game_state g r))
    else (true, set_members (delete player_id (members_ r)) r)
  end.

Definition set_connection (player_id : Z) (w : WeakPtr) (r : Room) : Room :=
  set_members (alter (λ m, MkMember (mb_player_id m) (mb_player_name m) w) player_id (members_ r)) r.

Definition room_bind_connection (live : gset Conn) (player_id : Z) (connection : ConnectionPtr) (r : Room)
    : RM.Bindingstates * Room :=
  match connection with
  | None => (RM.bind_invalid_connection, r)
  | Some c =>
    match members_ r !! player_id with
    | None => (RM.bind_player_not_found, r)
    | Some m =>
      match lock live (mb_connection m) with
      | Some _ => (RM.already_bound, r)
      | None => (RM.bind_success, set_connection player_id (Some c) r)
      end
    end
  end.

Definition room_detach_connection (live : gset Conn) (player_id : Z) (connection : ConnectionPtr) (r : Room)
    : RM.Bindingstates * Room :=
  match connection with
  | None => (RM.bind_invalid_connection, r)
  | Some c =>
    match members_ r !! player_id with
    | None => (RM.bind_player_not_found, r)
    | Some m =>
      match lock live (mb_connection m) with
      | None => (RM.not_bound, r)
      | Some existing =>
          if negb (existing =? c) then (RM.connection_mismatch, r)
          else (RM.bind_success, set_connection player_id None r)
      end
    end
  end.

(** ** Commands and ticks *)

Definition command_player (c : Gamecommand) : Z :=
  match c with Movecommand id _ _ => id | Attackcommand id _ => id end.

Definition has_pending_command (r : Room) (player_id : Z) : bool :=
  existsb (λ c, command_player c =? player_id) (pending_commands_ r).

Definition submit (player_id : Z) (c : Gamecommand) (r : Room) : RM.Commandstates * Room :=
  if negb (bool_decide (room_state r = RSM.running)) then (RM.cmd_invalid_state, r)
  else if negb (room_contains r player_id) then (RM.cmd_player_not_found, r)
  else if has_pending_command r player_id then (RM.already_submitted, r)
  else (RM.cmd_success, set_pending_commands (pending_commands_ r ++ [c]) r).
Definition submit_move (player_id dx dy : Z) (r : Room) : RM.Commandstates * Room :=
  submit player_id (Movecommand player_id dx dy) r.
Definition submit_attack (player_id target_player_id : Z) (r : Room) : RM.Commandstates * Room :=
  submit player_id (Attackcommand player_id target_player_id) r.

Definition take_pending_commands (r : Room) : list Gamecommand * Room :=
  (pending_commands_ r, set_pending_commands [] r).

Definition process_command (c : Gamecommand) (r : Room) : bool * Room :=
  match c with
  | Movecommand player_id dx dy =>
      let '(st, g) := move_player (game_state_ r) player_id dx dy in
      (bool_decide (st = GS.success), set_game_state g r)
  | Attackcommand player_id target_player_id =>
      let '(result, g) := attack_player (game_state_ r) player_id target_player_id in
      (bool_decide (ar_state result = GS.success), set_game_state g r)
  end.

(** The loop over the commands, counting successes in [pos]. *)
Fixpoint process_commands (commands : list Gamecommand) (pos : Z) (r : Room) : Z * Room :=
  match commands with
  | [] => (pos, r)
  | command :: commands =>
      let '(command_succeeded, r) := process_command command r in
      process_commands commands (if command_succeeded then pos + 1 else pos) r
  end.

Definition tick {ho : HashOrder} (r : Room) : TickResult * Room :=
  if negb (bool_decide (room_state r = RSM.running))
  then (MkTickResult RM.tick_invalid_state (tick_id_ r) 0 0 [], r)
  else
    let '(commands, r) := take_pending_commands r in
    let processed := zlen commands in
    let '(pos, r) := process_commands commands 0 r in
    let r := MkRoom (room_id_ r) (capacity_ r) (next_player_id_ r) (state_machine_ r) (game_state_ r)
               (wrap64 (tick_id_ r + 1)) (members_ r) (pending_commands_ r) in
    (MkTickResult RM.tick_success (tick_id_ r) processed pos (snapshot (game_state_ r)), r).

(** ** Checkpoints *)

Definition member_record_of (m : Member) : CheckpointMember :=
  MkCheckpointMember (mb_player_id m) (mb_player_name m).

Definition room_make_checkpoint {ho : HashOrder} (r : Room) : RoomCheckpoint :=
  MkRoomCheckpoint (room_id_ r) (capacity_ r) (next_player_id_ r) (room_state r) (tick_id_ r)
    (sort_on cm_player_id Z.le (member_record_of <$> hash_values (members_ r)))
    (snapshot (game_state_ r)).

(** The first loop of [restore_checkpoint]. *)
Fixpoint restore_members (members : list CheckpointMember) (temp_members : gmap Z Member)
    : option (gmap Z Member) :=
  match members with
  | [] => Some temp_members
  | member :: members =>
      if cm_player_id member =? 0 then None
      else match temp_members !! cm_player_id member with
      | Some _ => None
      | None =>
          if bool_decide (cm_player_name member = [])
             || (MAX_PLAYER_NAME_SIZE <? zlen (cm_player_name member)) then None
          else restore_members members
                 (<[cm_player_id member :=
                    MkMember (cm_player_id member) (cm_player_name member) None]> temp_members)
      end
  end.

(** The state machine for the recorded state. *)
Definition restore_state_machine (checkpoint : RoomCheckpoint) : option Roomstatemachine :=
  match rc_state checkpoint with
  | RSM.waiting =>
      if negb (rc_tick_id checkpoint =? 0) then None
      else if negb (bool_decide (rc_game_states checkpoint = [])) then None
      else Some Roomstatemachine_new
  | RSM.running =>
      let '(st, m) := start Roomstatemachine_new true in
      if negb (bool_decide (st = RSM.success)) then None else Some m
  | RSM.finished =>
      let '(st, m) := start Roomstatemachine_new true in
      if negb (bool_decide (st = RSM.success)) then None
      else
        let '(st, m) := finish m true in
        if negb (bool_decide (st = RSM.success)) then None else Some m
  end.

Definition states_belong (checkpoint : RoomCheckpoint) (temp_members : gmap Z Member) : bool :=
  match rc_state checkpoint with
  | RSM.waiting => true
  | _ =>
      if negb (zlen (rc_game_states checkpoint) =? Z.of_nat (size temp_members)) then false
      else forallb (λ st, match temp_members !! pg_player_id st with None => false | Some _ => true end)
             (rc_game_states checkpoint)
  end.

Definition room_restore_checkpoint {ho : HashOrder} (checkpoint : RoomCheckpoint) (r : Room)
    : bool * Room :=
  if negb (rc_room_id checkpoint =? room_id_ r) then (false, r)
  else if negb (rc_capacity checkpoint =? capacity_ r) then (false, r)
  else if capacity_ r <? zlen (rc_members checkpoint) then (false, r)
  else match restore_members (rc_members checkpoint) ∅ with
  | None => (false, r)
  | Some temp_members =>
    if negb (rc_next_player_id checkpoint =? 0)
       && negb (forallb (λ e, negb (rc_next_player_id checkpoint <=? e.1)) (hash_iter temp_members))
    then (false, r)
    else match restore_state_machine checkpoint with
    | None => (false, r)
    | Some temp_state_machine =>
      if negb (states_belong checkpoint temp_members) then (false, r)
      else
        let '(ok, temp_game_state) := restore Gamestate_new (rc_game_states checkpoint) in
        if negb ok then (false, r)
        else
          (true,
           MkRoom (room_id_ r) (capacity_ r) (rc_next_player_id checkpoint) temp_state_machine
             temp_game_state (rc_tick_id checkpoint) temp_members [])
    end
  end.

(** ** Specification *)

(** The invariant of a room. Ids below [next_player_id_] have been given out;
    the counter wraps to zero when none are left. *)
Record member_inv (next : Z) (m : Member) : Prop := {
  mi_id : 0 < mb_player_id m < 2 ^ 64;
  mi_fresh : next ≠ 0 → mb_player_id m < next;
  mi_name : 1 <= zlen (mb_player_name m) <= MAX_PLAYER_NAME_SIZE
}.

(** What the phase of the match says about the rest of the room. *)
Definition phase_inv (r : Room) : Prop :=
  match room_state r with
  | RSM.waiting =>
      game_state_ r = Gamestate_new ∧ tick_id_ r = 0 ∧ pending_commands_ r = []
  | RSM.running => dom (players_ (game_state_ r)) = dom (members_ r)
  | RSM.finished =>
      dom (players_ (game_state_ r)) = dom (members_ r) ∧ pending_commands_ r = []
  end.

Record room_of (P : PlayerGameState → Prop) (r : Room) : Prop := {
  rv_room_id : u32_range (room_id_ r);
  rv_capacity : u64_range (capacity_ r);
  rv_next : u64_range (next_player_id_ r);
  rv_tick : u64_range (tick_id_ r);
  rv_keyed : self_keyed mb_player_id (members_ r);
  rv_members : map_Forall (λ _ m, member_inv (next_player_id_ r) m) (members_ r);
  rv_size : member_count r <= capacity_ r;
  rv_game : game_of P (game_state_ r);
  rv_phase : phase_inv r;
  rv_one_command : NoDup (command_player <$> pending_commands_ r)
}.
#[global] Arguments rv_room_id {P} r _.
#[global] Arguments rv_capacity {P} r _.
#[global] Arguments rv_next {P} r _.
#[global] Arguments rv_tick {P} r _.
#[global] Arguments rv_keyed {P} r _.
#[global] Arguments rv_members {P} r _.
#[global] Arguments rv_size {P} r _.
#[global] Arguments rv_game {P} r _.
#[global] Arguments rv_phase {P} r _.
#[global] Arguments rv_one_command {P} r _.
(** The players are as the rules leave them, or at least within the bounds of a
    match that was restored. *)
Abbreviation room_inv := (room_of player_ok).
Abbreviation room_bounds := (room_of player_bounds).

(** The operations that change a room. *)
Inductive room_op : Type :=
| RStart (ready_to_start : bool)
| RFinish (should_finish : bool)
| RJoin (connection : ConnectionPtr) (player_name : bytes)
| RLeave (player_id : Z)
| RBind (live : gset Conn) (player_id : Z) (connection : ConnectionPtr)
| RDetach (live : gset Conn) (player_id : Z) (connection : ConnectionPtr)
| RMove (player_id dx dy : Z)
| RAttack (player_id target_player_id : Z)
| RTick
| RRestore (checkpoint : RoomCheckpoint).

(** A restored checkpoint holds values of its C++ types, and its health is as
    the rules leave it. *)
Definition room_op_ok (op : room_op) : Prop :=
  match op with RRestore checkpoint => room_typed checkpoint | _ => True end.
Definition room_op_tens (op : room_op) : Prop :=
  match op with RRestore checkpoint => restores_tens (Restore (rc_game_states checkpoint)) | _ => True end.
Definition restores (op : room_op) : bool := match op with RRestore _ => true | _ => false end.

Section ops.
Context {ho : HashOrder}.

Definition apply_room_op (r : Room) (op : room_op) : Room :=
  match op with
  | RStart ready => (room_start ready r).2
  | RFinish should => (room_finish should r).2
  | RJoin connection name => (room_join connection name r).2
  | RLeave id => (room_leave id r).2
  | RBind live id connection => (room_bind_connection live id connection r).2
  | RDetach live id connection => (room_detach_connection live id connection r).2
  | RMove id dx dy => (submit_move id dx dy r).2
  | RAttack id target => (submit_attack id target r).2
  | RTick => (tick r).2
  | RRestore checkpoint => (room_restore_checkpoint checkpoint r).2
  end.
Definition run_room (ops : list room_op) (r : Room) : Room := foldl apply_room_op r ops.

(** The ids given out by the joins of a run, in order. *)
Fixpoint joined_ids (ops : list room_op) (r : Room) : list Z :=
  match ops with
  | [] => []
  | op :: ops =>
      match op with
      | RJoin connection name =>
          let '(j, _) := room_join connection name r in
          if bool_decide (jn_state j = RM.join_success) then [jn_player_id j] else []
      | _ => []
      end ++ joined_ids ops (apply_room_op r op)
  end.
End ops.

(** Tick as a run of the game's rules: the effect of a batch of commands. *)
Definition command_op (c : Gamecommand) : game_op :=
  match c with
  | Movecommand id dx dy => Move id dx dy
  | Attackcommand id target => Attack id target
  end.
Definition command_succeeds (g : Gamestate) (c : Gamecommand) : bool :=
  match c with
  | Movecommand id dx dy => bool_decide ((move_player g id dx dy).1 = GS.success)
  | Attackcommand id target => bool_decide (ar_state (attack_player g id target).1 = GS.success)
  end.
Fixpoint successes (g : Gamestate) (cs : list Gamecommand) : Z :=
  match cs with
  | [] => 0
  | c :: cs => (if command_succeeds g c then 1 else 0) + successes (apply_op g (command_op c)) cs
  end.

(** A room without connections and commands: what a checkpoint preserves. *)
Definition disconnect (m : Member) : Member := MkMember (mb_player_id m) (mb_player_name m) None.
Definition dormant (r : Room) : Room :=
  MkRoom (room_id_ r) (capacity_ r) (next_player_id_ r) (state_machine_ r) (game_state_ r)
    (tick_id_ r) (disconnect <$> members_ r) [].

(** * Proofs *)

Lemma Room_new_inv P room_id capacity :
  u32_range room_id → u64_range capacity → room_of P (Room_new room_id capacity).
Proof.
  intros Hid [Hc ?]. split; try done; constructor.
Qed.

Lemma room_contains_spec r id : room_contains r id = true ↔ id ∈ dom (members_ r).
Proof.
  unfold room_contains. rewrite elem_of_dom. destruct (members_ r !! id); [by split; eauto|].
  split; [done|]. by intros [].
Qed.

Lemma has_pending_command_spec r id :
  has_pending_command r id = true ↔ id ∈ command_player <$> pending_commands_ r.
Proof.
  unfold has_pending_command. rewrite existsb_exists, list_elem_of_fmap.
  setoid_rewrite list_elem_of_In. split.
  - intros (c & Hc & He%Z.eqb_eq). eauto.
  - intros (c & -> & Hc). exists c. split; [done|]. apply Z.eqb_refl.
Qed.

(** ** Processing commands *)

Lemma process_command_spec c r :
  process_command c r =
    (command_succeeds (game_state_ r) c,
     set_game_state (apply_op (game_state_ r) (command_op c)) r).
Proof.
  destruct c; cbn.
  - by destruct (move_player _ _ _ _).
  - by destruct (attack_player _ _ _).
Qed.

Lemma process_commands_spec cs pos r :
  process_commands cs pos r =
    (pos + successes (game_state_ r) cs,
     set_game_state (run_ops (game_state_ r) (command_op <$> cs)) r).
Proof.
  revert pos r. induction cs as [|c cs IH]; intros pos r; cbn [process_commands].
  - cbn. rewrite Z.add_0_r. by destruct r.
  - rewrite process_command_spec, IH. cbn. f_equal. destruct (command_succeeds _ c); lia.
Qed.

Lemma run_commands_inv P `{!player_rules P} cs g :
  game_of P g → game_of P (run_ops g (command_op <$> cs)).
Proof.
  unfold run_ops. revert g. induction cs as [|c cs IH]; intros g Hg; cbn; [done|].
  apply IH. destruct c; cbn; [by apply move_player_of|by apply attack_player_of].
Qed.

Lemma run_commands_dom cs g :
  dom (players_ (run_ops g (command_op <$> cs))) = dom (players_ g).
Proof.
  unfold run_ops. revert g. induction cs as [|c cs IH]; intros g; cbn; [done|].
  rewrite IH. destruct c; cbn; [apply move_player_dom|apply attack_player_dom].
Qed.

Lemma wrap64_range z : u64_range (wrap64 z).
Proof. apply Z.mod_pos_bound. lia. Qed.

Section inv.
Context {ho : HashOrder} {P : PlayerGameState → Prop} `{!player_rules P}.

Lemma member_ids_perm r :
  self_keyed mb_player_id (members_ r) →
  NoDup (mb_player_id <$> hash_values (members_ r)) ∧
  (∀ id, id ∈ mb_player_id <$> hash_values (members_ r) ↔ id ∈ dom (members_ r)).
Proof.
  intros Hk. split; [by apply hash_values_NoDup_key|]. intros id.
  rewrite list_elem_of_fmap, elem_of_dom. setoid_rewrite elem_of_hash_values. split.
  - intros (m & -> & k & Hm). rewrite (Hk _ _ Hm). by eexists.
  - intros [m Hm]. exists m. split; [symmetry; by apply Hk|by eexists].
Qed.

Lemma tick_running r :
  room_state r = RSM.running →
  let g := run_ops (game_state_ r) (command_op <$> pending_commands_ r) in
  let id := wrap64 (tick_id_ r + 1) in
  tick r =
    (MkTickResult RM.tick_success id (zlen (pending_commands_ r))
       (successes (game_state_ r) (pending_commands_ r)) (snapshot g),
     MkRoom (room_id_ r) (capacity_ r) (next_player_id_ r) (state_machine_ r) g id (members_ r) []).
Proof.
  intros Hr. unfold tick. rewrite bool_decide_true by done. cbn [negb take_pending_commands].
  by rewrite process_commands_spec.
Qed.

Lemma room_start_inv ready r : room_of P r → room_of P (room_start ready r).2.
Proof.
  intros [].  unfold room_start. case_test E; [by split|]. case_test E'; [by split|].
  destruct (initialize _ _) as [st g] eqn:Hg. case_test E''; [by split|]. to_prop. subst st.
  destruct (member_ids_perm r rv_keyed0) as [_ Hids].
  split; cbn; try done.
  - assert (H : game_of P (initialize Gamestate_new (mb_player_id <$> hash_values (members_ r))).2).
    { apply initialize_of; [apply _|apply Gamestate_new_of|]. apply Forall_fmap, Forall_forall.
      intros m [k Hm]%elem_of_hash_values. destruct (rv_members0 _ _ Hm) as [? _ _].
      unfold u64_range. cbn. lia. }
    by rewrite Hg in H.
  - unfold phase_inv, room_state. cbn. unfold room_state, state in E.
    unfold start. rewrite bool_decide_true by done. cbn.
    rewrite (initialize_dom _ _ _ Hg). apply set_eq. intros id. by rewrite elem_of_list_to_set.
  - constructor.
Qed.

(** More members than a match has room for. *)
Lemma room_start_oversized r :
  MAX_PLAYERS < member_count r → room_state r = RSM.waiting →
  room_start true r = (RSM.condition_not_met, r).
Proof.
  intros Hsize Hw. unfold room_start. rewrite Hw, bool_decide_true by done. cbn [negb].
  assert (Hlen : zlen (mb_player_id <$> hash_values (members_ r)) = member_count r).
  { unfold zlen, member_count. by rewrite length_fmap, hash_values_length. }
  unfold initialize. case_bool_decide as Hn.
  - rewrite Hn in Hlen. rewrite <-Hlen in Hsize. by vm_compute in Hsize.
  - by rewrite Hlen, (proj2 (Z.ltb_lt _ _) Hsize).
Qed.

Lemma room_finish_inv should r : room_of P r → room_of P (room_finish should r).2.
Proof.
  intros []. unfold room_finish. case_test E; [by split|]. case_test E'; [by split|]. to_prop.
  unfold finish, room_state, state in *. rewrite bool_decide_true by done. rewrite E'. cbn.
  split; cbn; try done; [|constructor].
  unfold phase_inv, room_state, state in *. cbn. rewrite E in rv_phase0. done.
Qed.

Lemma member_inv_next next m :
  0 <= next < 2 ^ 64 → next ≠ 0 → member_inv next m → member_inv (wrap64 (next + 1)) m.
Proof.
  intros Hn Hz [? Hf ?]. split; [done| |done]. intros Hw. specialize (Hf Hz).
  unfold wrap64 in *. destruct (Z.eq_dec (next + 1) (2 ^ 64)) as [He|He].
  - by rewrite He, Z_mod_same_full in Hw.
  - rewrite Z.mod_small by lia. lia.
Qed.

(** A join that succeeds gives out the next id, which nobody has had. *)
Lemma room_join_success connection name r j r' :
  room_of P r → room_join connection name r = (j, r') → jn_state j = RM.join_success →
  ∃ c, connection = Some c ∧ 1 <= zlen name <= MAX_PLAYER_NAME_SIZE ∧
    room_state r = RSM.waiting ∧ member_count r < capacity_ r ∧ next_player_id_ r ≠ 0 ∧
    members_ r !! next_player_id_ r = None ∧
    j = MkJoinResult RM.join_success (next_player_id_ r) (member_info <$> hash_values (members_ r)) ∧
    r' = MkRoom (room_id_ r) (capacity_ r) (wrap64 (next_player_id_ r + 1)) (state_machine_ r)
      (game_state_ r) (tick_id_ r)
      (<[next_player_id_ r := MkMember (next_player_id_ r) name (Some c)]> (members_ r))
      (pending_commands_ r).
Proof.
  intros []. unfold room_join. destruct connection as [c|]; [|by intros [= <- <-]].
  case_test E; [by intros [= <- <-]|]. case_test E1; [by intros [= <- <-]|].
  case_test E2; [by intros [= <- <-]|]. case_test E3; [by intros [= <- <-]|].
  to_prop. apply bool_decide_eq_true in E1.
  assert (Hfresh : members_ r !! next_player_id_ r = None).
  { destruct (members_ r !! next_player_id_ r) as [m|] eqn:Hm; [|done].
    destruct (rv_members0 _ _ Hm) as [_ Hf _]. specialize (Hf E3).
    rewrite (rv_keyed0 _ _ Hm) in Hf. lia. }
  rewrite Hfresh. intros [= <- <-] _. exists c. split_and!; try done.
  match goal with H : name ≠ [] |- _ => pose proof (zlen_pos name H) end. lia.
Qed.

Lemma room_join_inv connection name r : room_of P r → room_of P (room_join connection name r).2.
Proof.
  intros Hr. destruct (room_join connection name r) as [j r'] eqn:Hj. cbn.
  destruct (decide (jn_state j = RM.join_success)) as [Hs|Hs].
  2: { unfold room_join in Hj. branches_in Hj; by simplify_eq. }
  destruct (room_join_success _ _ _ _ _ Hr Hj Hs)
    as (c & -> & Hname & Hwait & Hsize & Hnext & Hfresh & _ & ->). clear Hj Hs.
  destruct Hr. unfold u64_range in rv_next0. split; cbn; try done.
  - apply wrap64_range.
  - by apply self_keyed_insert.
  - apply map_Forall_insert; [done|]. split.
    + split; cbn; [lia| |done]. intros Hw. unfold wrap64 in *.
      destruct (Z.eq_dec (next_player_id_ r + 1) (2 ^ 64)) as [He|He].
      * by rewrite He, Z_mod_same_full in Hw.
      * rewrite Z.mod_small; lia.
    + intros k m Hm. by apply member_inv_next, (rv_members0 k).
  - unfold member_count in *. cbn. rewrite map_size_insert_None by done. lia.
  - unfold phase_inv, room_state in *. cbn in *. by rewrite Hwait in *.
Qed.

Lemma room_leave_outcome id r :
  room_of P r →
  room_leave id r =
    (room_contains r id,
     if room_contains r id then
       MkRoom (room_id_ r) (capacity_ r) (next_player_id_ r) (state_machine_ r)
         (MkGamestate (delete id (players_ (game_state_ r)))) (tick_id_ r)
         (delete id (members_ r)) (pending_commands_ r)
     else r).
Proof.
  intros []. unfold room_leave, room_contains. destruct (members_ r !! id) as [m|] eqn:Hm; [|done].
  unfold phase_inv in rv_phase0. case_bool_decide as Hs; cbn [negb].
  - rewrite Hs in rv_phase0. destruct rv_phase0 as (Hg & _). unfold set_members. do 2 f_equal.
    rewrite Hg. cbn. by rewrite delete_empty.
  - assert (Hd : dom (players_ (game_state_ r)) = dom (members_ r)).
    { destruct (room_state r); naive_solver. }
    rewrite remove_player_member; [done| |].
    + destruct (rv_members0 _ _ Hm) as [? _ _]. rewrite (rv_keyed0 _ _ Hm) in *. lia.
    + rewrite Hd. by apply elem_of_dom.
Qed.

Lemma room_leave_inv id r : room_of P r → room_of P (room_leave id r).2.
Proof.
  intros Hr. rewrite room_leave_outcome by done. cbn. case_test E; [|done]. destruct Hr.
  split; cbn; try done.
  - by apply self_keyed_delete.
  - by apply map_Forall_delete.
  - unfold member_count in *. cbn. apply room_contains_spec, elem_of_dom in E as [m Hm].
    rewrite map_size_delete_Some by done. lia.
  - destruct rv_game0 as [Hk Hp Hs]. split; cbn.
    + by apply self_keyed_delete.
    + by apply map_Forall_delete.
    + unfold player_count in *. cbn. destruct (players_ (game_state_ r) !! id) eqn:E'.
      * rewrite map_size_delete_Some by done. lia.
      * by rewrite delete_id.
  - unfold phase_inv, room_state in *. cbn in *.
    destruct (state (state_machine_ r)).
    + destruct rv_phase0 as (Hg & ? & ?). rewrite Hg. cbn. by rewrite delete_empty.
    + rewrite !dom_delete_L. by f_equal.
    + destruct rv_phase0 as [Hd ?]. rewrite !dom_delete_L. split; [by f_equal|done].
Qed.

Lemma alter_connection_same id (w : WeakPtr) (m : gmap Z Member) :
  dom (alter (λ m, MkMember (mb_player_id m) (mb_player_name m) w) id m) = dom m.
Proof. apply dom_alter_L. Qed.

Lemma set_connection_inv id w r : room_of P r → room_of P (set_connection id w r).
Proof.
  intros []. unfold set_connection. split; cbn; try done.
  - intros k m [(-> & m' & Hm & ->)|(Hne & Hm)]%lookup_alter_Some;
      exact (rv_keyed0 _ _ Hm).
  - intros k m [(-> & m' & Hm & ->)|(Hne & Hm)]%lookup_alter_Some; [|by apply (rv_members0 k)].
    destruct (rv_members0 _ _ Hm). by split.
  - unfold member_count in *. cbn. by rewrite <-size_dom, dom_alter_L, size_dom.
  - unfold phase_inv, room_state in *. cbn in *. by rewrite dom_alter_L.
Qed.

Lemma room_bind_inv live id c r : room_of P r → room_of P (room_bind_connection live id c r).2.
Proof. intros. unfold room_bind_connection. branches; by apply set_connection_inv. Qed.

Lemma room_detach_inv live id c r : room_of P r → room_of P (room_detach_connection live id c r).2.
Proof. intros. unfold room_detach_connection. branches; by apply set_connection_inv. Qed.

Lemma submit_inv id c r : command_player c = id → room_of P r → room_of P (submit id c r).2.
Proof.
  intros Hc Hr. unfold submit. case_test E; [done|]. case_test E1; [done|]. case_test E2; [done|].
  to_prop. destruct Hr. split; cbn; try done.
  - unfold phase_inv, room_state in *. cbn in *. by rewrite E in *.
  - rewrite fmap_app, NoDup_app. split_and!; [done| |apply NoDup_singleton].
    intros x Hx Hin. apply list_elem_of_singleton in Hin. cbn in Hin. subst x. rewrite Hc in Hx.
    apply has_pending_command_spec in Hx. congruence.
Qed.

Lemma tick_inv r : room_of P r → room_of P (tick r).2.
Proof.
  intros Hr. destruct (decide (room_state r = RSM.running)) as [Hs|Hs].
  - rewrite tick_running by done. destruct Hr. cbn. split; cbn; try done.
    + apply wrap64_range.
    + by apply run_commands_inv.
    + unfold phase_inv, room_state in *. cbn in *. rewrite Hs in *. by rewrite run_commands_dom.
    + constructor.
  - unfold tick. by rewrite bool_decide_false.
Qed.
End inv.

#[export] Hint Resolve Room_new_inv room_start_inv room_finish_inv room_join_inv room_leave_inv
  set_connection_inv room_bind_inv room_detach_inv tick_inv : lw_wf.

Section runs.
Context {ho : HashOrder} {P : PlayerGameState → Prop} `{!player_rules P}.

(** A step keeps the invariant when a restoration it may be does. *)
Lemma apply_room_op_of op r :
  room_of P r → (restores op = true → room_of P (apply_room_op r op)) → room_of P (apply_room_op r op).
Proof.
  intros Hr Hre. destruct op; try exact (Hre eq_refl); clear Hre; cbn.
  all: try by apply submit_inv.
  - by apply room_start_inv.
  - by apply room_finish_inv.
  - by apply room_join_inv.
  - by apply room_leave_inv.
  - by apply room_bind_inv.
  - by apply room_detach_inv.
  - by apply tick_inv.
Qed.

Lemma apply_room_op_inv op r : restores op = false → room_of P r → room_of P (apply_room_op r op).
Proof. intros Hop Hr. apply apply_room_op_of; [done|congruence]. Qed.

Lemma run_room_of ops r :
  (∀ op r, op ∈ ops → restores op = true → room_of P r → room_of P (apply_room_op r op)) →
  room_of P r → room_of P (run_room ops r).
Proof.
  unfold run_room. revert r. induction ops as [|op ops IH]; intros r Hre Hr; cbn; [done|].
  apply IH; [intros; apply Hre; [by right|done..]|].
  apply apply_room_op_of; [done|]. intros. apply Hre; [left|done..].
Qed.

(** ** Ids *)

Lemma apply_room_op_next op r :
  room_of P r → restores op = false →
  (next_player_id_ (apply_room_op r op) = next_player_id_ r ∧ joined_ids [op] r = []) ∨
  (next_player_id_ r ≠ 0 ∧ joined_ids [op] r = [next_player_id_ r] ∧
   next_player_id_ (apply_room_op r op) = wrap64 (next_player_id_ r + 1)).
Proof.
  intros Hr Hop. destruct op; try discriminate Hop; cbn; try (left; split; [|done]).
  - unfold room_start. branches.
  - unfold room_finish. branches.
  - destruct (room_join connection player_name r) as [j r'] eqn:Hj. case_bool_decide as Hs.
    + destruct (room_join_success _ _ _ _ _ Hr Hj Hs) as (c & _ & _ & _ & _ & ? & _ & -> & ->).
      by right.
    + left. split; [|done]. unfold room_join in Hj. branches_in Hj; by simplify_eq.
  - unfold room_leave. branches.
  - unfold room_bind_connection. branches.
  - unfold room_detach_connection. branches.
  - unfold submit_move, submit. branches.
  - unfold submit_attack, submit. branches.
  - destruct (decide (room_state r = RSM.running)).
    + by rewrite tick_running.
    + unfold tick. by rewrite bool_decide_false.
Qed.

Lemma joined_ids_cons op ops r :
  joined_ids (op :: ops) r = joined_ids [op] r ++ joined_ids ops (apply_room_op r op).
Proof. cbn. by rewrite app_nil_r. Qed.

Lemma joined_ids_bounds ops r :
  room_of P r → Forall (λ op, restores op = false) ops →
  StronglySorted Z.lt (joined_ids ops r) ∧
  Forall (λ id, next_player_id_ r <= id < 2 ^ 64) (joined_ids ops r) ∧
  (next_player_id_ r = 0 → joined_ids ops r = []).
Proof.
  revert r. induction ops as [|op ops IH]; intros r Hr Hops.
  { split_and!; [constructor|constructor|done]. }
  apply Forall_cons in Hops as [Hop Hops]. rewrite joined_ids_cons.
  assert (Hr' : room_of P (apply_room_op r op)) by (by apply apply_room_op_inv).
  destruct (IH _ Hr' Hops) as (Hs & Hb & Hz).
  destruct (apply_room_op_next op r Hr Hop) as [(Hn & ->)|(Hne & -> & Hn)]; cbn.
  - rewrite Hn in *. done.
  - pose proof (rv_next r Hr) as Hu. unfold u64_range in Hu. rewrite Hn in *. unfold wrap64 in *.
    destruct (Z.eq_dec (next_player_id_ r + 1) (2 ^ 64)) as [He|He].
    + rewrite Hz by (by rewrite He, Z_mod_same_full).
      split_and!; [repeat constructor|repeat constructor; lia|done].
    + rewrite Z.mod_small in Hb by lia. split_and!; [constructor; [done|]|constructor; [lia|]|done].
      all: eapply Forall_impl; [exact Hb|]; cbn; lia.
Qed.

(** From then on ids are new, to the members of now as well. *)
Lemma joined_ids_fresh ops r :
  room_of P r → Forall (λ op, restores op = false) ops →
  StronglySorted Z.lt (joined_ids ops r) ∧
  Forall (λ id, 0 < id < 2 ^ 64 ∧ ∀ member, member ∈ dom (members_ r) → member < id)
    (joined_ids ops r).
Proof.
  intros Hr Hops. destruct (joined_ids_bounds ops r Hr Hops) as (Hs & Hb & Hz). split; [done|].
  destruct (Z.eq_dec (next_player_id_ r) 0) as [He|Hne]; [by rewrite Hz|].
  pose proof (rv_next r Hr) as Hu. unfold u64_range in Hu.
  eapply Forall_impl; [exact Hb|]. cbn. intros id Hid. split; [lia|].
  intros k [m Hm]%elem_of_dom. destruct (rv_members _ Hr _ _ Hm) as [_ Hf _].
  specialize (Hf Hne). rewrite (rv_keyed _ Hr _ _ Hm) in Hf. lia.
Qed.
End runs.

(** ** Restoring members *)

Definition to_member (m : CheckpointMember) : Member :=
  MkMember (cm_player_id m) (cm_player_name m) None.
Definition recordable (m : CheckpointMember) : Prop :=
  cm_player_id m ≠ 0 ∧ 1 <= zlen (cm_player_name m) <= MAX_PLAYER_NAME_SIZE.

Lemma bad_name (name : bytes) :
  bool_decide (name = []) || (MAX_PLAYER_NAME_SIZE <? zlen name) = false ↔
    1 <= zlen name <= MAX_PLAYER_NAME_SIZE.
Proof.
  rewrite orb_false_iff, bool_decide_eq_false, Z.ltb_ge. split.
  - intros [H ?]. pose proof (zlen_pos name H). lia.
  - intros H. split; [|lia]. intros ->. unfold zlen in H. cbn in H. lia.
Qed.

Lemma to_member_ids (l : list CheckpointMember) : mb_player_id <$> (to_member <$> l) = cm_player_id <$> l.
Proof. by rewrite <-list_fmap_compose. Qed.

Lemma restore_members_spec ms pre m :
  NoDup (cm_player_id <$> pre) →
  restore_members ms (index_by mb_player_id (to_member <$> pre)) = Some m ↔
    Forall recordable ms ∧ NoDup (cm_player_id <$> (pre ++ ms)) ∧
    m = index_by mb_player_id (to_member <$> (pre ++ ms)).
Proof.
  revert pre. induction ms as [|c ms IH]; intros pre Hpre; cbn [restore_members].
  - rewrite app_nil_r. naive_solver.
  - rewrite Forall_cons. replace (pre ++ c :: ms) with ((pre ++ [c]) ++ ms) by (by rewrite <-app_assoc).
    pose proof (fmap_dup cm_player_id pre c ms) as Hdup.
    pose proof (index_by_lookup_is_Some mb_player_id (to_member <$> pre) (cm_player_id c)) as Hin.
    rewrite to_member_ids in Hin.
    unfold recordable at 1. destruct (Z.eqb_spec (cm_player_id c) 0); [naive_solver|].
    destruct (index_by mb_player_id (to_member <$> pre) !! cm_player_id c) eqn:Hl.
    { split; [done|]. intros (_ & Hnd & _). exfalso. apply Hdup; [|done]. by apply Hin. }
    rewrite <-bad_name. destruct (_ || _); [naive_solver|].
    assert (Hnin : cm_player_id c ∉ cm_player_id <$> pre).
    { rewrite <-Hin. by intros [? ?]. }
    change (<[cm_player_id c := _]> _) with
      (<[mb_player_id (to_member c) := to_member c]> (index_by mb_player_id (to_member <$> pre))).
    rewrite <-index_by_snoc by (by rewrite to_member_ids).
    change [to_member c] with (to_member <$> [c]). rewrite <-fmap_app, IH.
    + naive_solver.
    + by apply fmap_snoc_NoDup.
Qed.

Lemma restore_members_empty ms m :
  restore_members ms ∅ = Some m ↔
    Forall recordable ms ∧ NoDup (cm_player_id <$> ms) ∧
    m = index_by mb_player_id (to_member <$> ms).
Proof. apply (restore_members_spec ms []). constructor. Qed.

Section checkpoint.
Context {ho : HashOrder}.

(** The members as a checkpoint lists them. *)
Definition member_records (r : Room) : list CheckpointMember :=
  sort_on cm_player_id Z.le (member_record_of <$> hash_values (members_ r)).

Lemma member_records_perm r : member_records r ≡ₚ member_record_of <$> hash_values (members_ r).
Proof. apply sort_on_perm. Qed.

Lemma member_records_ids r :
  self_keyed mb_player_id (members_ r) → NoDup (cm_player_id <$> member_records r).
Proof.
  intros Hk. rewrite member_records_perm, <-list_fmap_compose.
  by apply (hash_values_NoDup_key mb_player_id).
Qed.

Lemma member_records_recordable r : room_inv r → Forall recordable (member_records r).
Proof.
  intros []. rewrite member_records_perm. apply Forall_fmap, Forall_forall.
  intros m [k Hm]%elem_of_hash_values. destruct (rv_members0 _ _ Hm) as [? _ ?].
  split; cbn; [lia|done].
Qed.

Lemma member_records_length r : zlen (member_records r) = member_count r.
Proof.
  unfold zlen, member_records, member_count. by rewrite sort_on_length, length_fmap, hash_values_length.
Qed.

Lemma disconnect_keyed m : self_keyed mb_player_id m → self_keyed mb_player_id (disconnect <$> m).
Proof. intros Hk k v. rewrite lookup_fmap. intros (x & Hx & ->)%fmap_Some. exact (Hk _ _ Hx). Qed.

Lemma index_member_records r :
  self_keyed mb_player_id (members_ r) →
  index_by mb_player_id (to_member <$> member_records r) = disconnect <$> members_ r.
Proof.
  intros Hk. apply map_eq. intros id. apply option_eq. intros m.
  rewrite index_by_lookup by (rewrite to_member_ids; by apply member_records_ids).
  rewrite lookup_fmap, fmap_Some, list_elem_of_fmap. setoid_rewrite member_records_perm.
  setoid_rewrite list_elem_of_fmap. setoid_rewrite elem_of_hash_values. split.
  - intros [(c & -> & m' & -> & k & Hm) <-]. exists m'. cbn. rewrite (Hk _ _ Hm). by split.
  - intros (m' & Hm & ->). split; [|cbn; by apply Hk].
    exists (member_record_of m'). split; [done|]. exists m'. split; [done|]. by exists id.
Qed.

Lemma restore_state_machine_spec cp m :
  restore_state_machine cp = Some m ↔
    m = MkRoomstatemachine (rc_state cp) ∧
    (rc_state cp = RSM.waiting → rc_tick_id cp = 0 ∧ rc_game_states cp = []).
Proof.
  unfold restore_state_machine. destruct (rc_state cp) eqn:E; cbn.
  - unfold Roomstatemachine_new. destruct (Z.eqb_spec (rc_tick_id cp) 0); cbn; [|naive_solver].
    case_bool_decide; cbn; naive_solver.
  - naive_solver.
  - naive_solver.
Qed.

(** The match of a checkpoint and its members have the same players. *)
Lemma states_belong_spec cp (m : gmap Z Member) :
  NoDup (pg_player_id <$> rc_game_states cp) →
  states_belong cp m = true ↔
    (rc_state cp ≠ RSM.waiting → list_to_set (pg_player_id <$> rc_game_states cp) = dom m).
Proof.
  intros Hnd. unfold states_belong.
  assert (Hset : (negb (negb (zlen (rc_game_states cp) =? Z.of_nat (size m))) &&
    forallb (λ st, match m !! pg_player_id st with None => false | Some _ => true end)
      (rc_game_states cp)) = true ↔ list_to_set (pg_player_id <$> rc_game_states cp) = dom m).
  { rewrite negb_involutive, andb_true_iff, Z.eqb_eq, forallb_forall.
    assert (Hsize : size (list_to_set (pg_player_id <$> rc_game_states cp) : gset Z)
                    = length (rc_game_states cp)).
    { by rewrite size_list_to_set, length_fmap. }
    unfold zlen. rewrite <-(size_dom m) , <-Hsize. split.
    - intros [Hl Hin]. apply set_subseteq_size_eq; [|lia].
      intros id. rewrite elem_of_list_to_set, list_elem_of_fmap. intros (st & -> & Hst).
      apply list_elem_of_In in Hst. specialize (Hin st Hst). apply elem_of_dom.
      by destruct (m !! pg_player_id st).
    - intros Heq. split; [by rewrite Heq|]. intros st Hst%list_elem_of_In.
      assert (pg_player_id st ∈ dom m) as [x Hx]%elem_of_dom.
      { rewrite <-Heq, elem_of_list_to_set. by apply list_elem_of_fmap_2. }
      by rewrite Hx. }
  rewrite <-Hset. destruct (rc_state cp); [naive_solver| |];
    destruct (negb (zlen (rc_game_states cp) =? Z.of_nat (size m))); cbn; naive_solver.
Qed.

(** What [restore_checkpoint] accepts. *)
Definition restorable_room (cp : RoomCheckpoint) : Prop :=
  zlen (rc_members cp) <= rc_capacity cp ∧
  Forall recordable (rc_members cp) ∧ NoDup (cm_player_id <$> rc_members cp) ∧
  (rc_next_player_id cp ≠ 0 → Forall (λ m, cm_player_id m < rc_next_player_id cp) (rc_members cp)) ∧
  zlen (rc_game_states cp) <= MAX_PLAYERS ∧
  Forall restorable (rc_game_states cp) ∧ NoDup (pg_player_id <$> rc_game_states cp) ∧
  match rc_state cp with
  | RSM.waiting => rc_tick_id cp = 0 ∧ rc_game_states cp = []
  | _ => list_to_set (C := gset Z) (pg_player_id <$> rc_game_states cp)
         = list_to_set (cm_player_id <$> rc_members cp)
  end.

(** The room it then builds. *)
Definition restored_room (cp : RoomCheckpoint) : Room :=
  MkRoom (rc_room_id cp) (rc_capacity cp) (rc_next_player_id cp) (MkRoomstatemachine (rc_state cp))
    (MkGamestate (index_by pg_player_id (rc_game_states cp))) (rc_tick_id cp)
    (index_by mb_player_id (to_member <$> rc_members cp)) [].

Lemma index_members_dom ms :
  dom (index_by mb_player_id (to_member <$> ms)) = list_to_set (cm_player_id <$> ms).
Proof.
  apply set_eq. intros id. rewrite elem_of_dom, index_by_lookup_is_Some, to_member_ids.
  by rewrite elem_of_list_to_set.
Qed.

Lemma next_id_check cp (m : gmap Z Member) :
  dom m = list_to_set (cm_player_id <$> rc_members cp) →
  negb (rc_next_player_id cp =? 0) &&
    negb (forallb (λ e, negb (rc_next_player_id cp <=? e.1)) (hash_iter m)) = false ↔
  (rc_next_player_id cp ≠ 0 → Forall (λ m, cm_player_id m < rc_next_player_id cp) (rc_members cp)).
Proof.
  intros Hdom. destruct (Z.eqb_spec (rc_next_player_id cp) 0); cbn; [naive_solver|].
  rewrite negb_false_iff, forallb_forall, Forall_forall. split.
  - intros H _ c Hc.
    assert (cm_player_id c ∈ dom m) as [x Hx]%elem_of_dom.
    { rewrite Hdom, elem_of_list_to_set. by apply list_elem_of_fmap_2. }
    apply elem_of_hash_iter, list_elem_of_In in Hx. specialize (H _ Hx). cbn in H. to_prop. lia.
  - intros H [id x] Hx%list_elem_of_In%elem_of_hash_iter. cbn.
    assert (id ∈ dom m) as Hin by (by apply elem_of_dom_2 in Hx).
    rewrite Hdom, elem_of_list_to_set, list_elem_of_fmap in Hin. destruct Hin as (c & -> & Hc).
    specialize (H n c Hc). rewrite (proj2 (Z.leb_gt _ _)) by lia. done.
Qed.

Lemma restore_Gamestate states g :
  restore Gamestate_new states = (true, g) ↔
    zlen states <= MAX_PLAYERS ∧ Forall restorable states ∧ NoDup (pg_player_id <$> states) ∧
    g = MkGamestate (index_by pg_player_id states).
Proof.
  unfold restore. pose proof (restore_loop_spec states []) as Hs.
  destruct (Z.ltb_spec MAX_PLAYERS (zlen states)); [naive_solver lia|]. cbn in Hs.
  destruct (restore_loop states ∅) as [m|] eqn:E.
  - apply (restore_loop_spec states []) in E; [|constructor]. naive_solver.
  - split; [done|]. intros (_ & ? & ? & ->).
    assert (restore_loop states ∅ = Some (index_by pg_player_id states)); [|congruence].
    by apply (restore_loop_spec states []); [constructor|].
Qed.

(** [restore_checkpoint] is all or nothing. *)
Lemma room_restore_iff cp r :
  if (room_restore_checkpoint cp r).1
  then rc_room_id cp = room_id_ r ∧ rc_capacity cp = capacity_ r ∧ restorable_room cp ∧
       room_restore_checkpoint cp r = (true, restored_room cp)
  else (room_restore_checkpoint cp r).2 = r ∧
       ¬ (rc_room_id cp = room_id_ r ∧ rc_capacity cp = capacity_ r ∧ restorable_room cp).
Proof.
  unfold room_restore_checkpoint.
  destruct (Z.eqb_spec (rc_room_id cp) (room_id_ r)) as [Hid|]; cbn [negb]; [|by naive_solver].
  destruct (Z.eqb_spec (rc_capacity cp) (capacity_ r)) as [Hcap|]; cbn [negb]; [|by naive_solver].
  rewrite <-Hcap. destruct (Z.ltb_spec (rc_capacity cp) (zlen (rc_members cp))) as [|Hsize].
  { split; [done|]. intros (_ & _ & ? & _). lia. }
  unfold restorable_room.
  destruct (restore_members (rc_members cp) ∅) as [ms|] eqn:Hms.
  2: { split; [done|]. intros (_ & _ & _ & Hr & Hnd & _).
       assert (restore_members (rc_members cp) ∅ = Some (index_by mb_player_id (to_member <$> rc_members cp)))
         by (by apply restore_members_empty). congruence. }
  apply restore_members_empty in Hms as (Hrec & Hnd & ->).
  pose proof (next_id_check cp _ (index_members_dom (rc_members cp))) as Hnext.
  destruct (negb _ && negb _); [naive_solver|]. destruct Hnext as [Hnext _]. specialize (Hnext eq_refl).
  pose proof (restore_state_machine_spec cp) as Hsm.
  destruct (restore_state_machine cp) as [sm|].
  2: { split; [done|]. intros (_ & _ & _ & _ & _ & _ & _ & _ & _ & Hphase).
       destruct (Hsm (MkRoomstatemachine (rc_state cp))) as [_ Hsm'].
       discriminate Hsm'. split; [done|]. intros E. by rewrite E in Hphase. }
  destruct (Hsm sm) as [[-> Hwait] _]; [done|].
  pose proof (states_belong_spec cp (index_by mb_player_id (to_member <$> rc_members cp))) as Hb.
  rewrite index_members_dom in Hb.
  destruct (restore Gamestate_new (rc_game_states cp)) as [ok g] eqn:Hg.
  destruct ok; cbn [negb].
  - apply restore_Gamestate in Hg as (Hsz & Hst & Hndg & ->). specialize (Hb Hndg).
    destruct (states_belong _ _); cbn.
    + split_and!; try done; [|by unfold restored_room; rewrite Hid].
      destruct (rc_state cp); [by apply Hwait|by apply Hb..].
    + split; [done|]. intros (_ & _ & _ & _ & _ & _ & _ & _ & _ & Hphase).
      destruct Hb as [_ Hb]. discriminate Hb. by destruct (rc_state cp).
  - destruct (states_belong _ _); cbn; (split; [done|]);
      intros (_ & _ & _ & _ & _ & _ & Hsz & Hst & Hndg & _);
      assert (Hok : restore Gamestate_new (rc_game_states cp) =
                (true, MkGamestate (index_by pg_player_id (rc_game_states cp))))
        by (by apply restore_Gamestate);
      congruence.
Qed.

(** What a checkpoint builds keeps the invariant. *)
Lemma restored_room_of P cp :
  room_typed cp → restorable_room cp →
  (∀ p, p ∈ rc_game_states cp → u64_range (pg_player_id p) → restorable p → P p) →
  room_of P (restored_room cp).
Proof.
  intros (Hid & Hcap & Hnext & Htick & Hmt & Hpt) (Hsz & Hrec & Hnd & Hlt & Hgsz & Hst & Hgnd & Hph) HP.
  assert (Hgame : restore Gamestate_new (rc_game_states cp) =
      (true, MkGamestate (index_by pg_player_id (rc_game_states cp)))) by (by apply restore_Gamestate).
  assert (Hnd' : NoDup (mb_player_id <$> (to_member <$> rc_members cp))) by (by rewrite to_member_ids).
  assert (Hlk : ∀ k m, index_by mb_player_id (to_member <$> rc_members cp) !! k = Some m →
    mb_player_id m = k ∧ ∃ c, c ∈ rc_members cp ∧ m = to_member c).
  { intros k m [(c & -> & Hc)%list_elem_of_fmap ?]%index_by_lookup; [|done]. eauto. }
  rewrite Forall_forall in Hrec, Hmt. rewrite Forall_forall in Hpt. split; try done.
  - by intros k m [? _]%Hlk.
  - intros k m [_ (c & Hc & ->)]%Hlk. destruct (Hrec c Hc) as [Hnz Hname]. specialize (Hmt c Hc).
    unfold member_typed, u64_range in Hmt. split; cbn; [lia| |done].
    intros Hne. specialize (Hlt Hne). rewrite Forall_forall in Hlt. by apply Hlt.
  - unfold member_count, zlen in *. cbn. rewrite index_by_size by done. by rewrite length_fmap.
  - change (game_state_ _) with (true, MkGamestate (index_by pg_player_id (rc_game_states cp))).2.
    rewrite <-Hgame. apply restore_of; [apply Gamestate_new_of|].
    intros p Hp Hr. apply HP; [done| |done]. by apply Hpt.
  - unfold phase_inv, room_state, restored_room. cbn. rewrite index_members_dom.
    assert (Hd : dom (index_by pg_player_id (rc_game_states cp)) =
      list_to_set (C := gset Z) (pg_player_id <$> rc_game_states cp)).
    { apply set_eq. intros k. by rewrite elem_of_dom, index_by_lookup_is_Some, elem_of_list_to_set. }
    destruct (rc_state cp); [|by rewrite Hd..].
    destruct Hph as [-> ->]. by split_and!.
  - constructor.
Qed.

Lemma room_restore_of P cp r :
  room_typed cp → (∀ p, p ∈ rc_game_states cp → u64_range (pg_player_id p) → restorable p → P p) →
  room_of P r → room_of P (room_restore_checkpoint cp r).2.
Proof.
  intros Ht HP Hr. pose proof (room_restore_iff cp r) as Hi.
  destruct (room_restore_checkpoint cp r).1; [|by destruct Hi as [-> _]].
  destruct Hi as (_ & _ & Hok & ->). by apply restored_room_of.
Qed.

(** The two invariants of a room along a run. *)
Lemma run_room_bounds ops r :
  Forall room_op_ok ops → room_bounds r → room_bounds (run_room ops r).
Proof.
  intros Hops. apply run_room_of. intros op r' Hop Hre Hr. rewrite Forall_forall in Hops.
  specialize (Hops op Hop). destruct op; try discriminate Hre. apply room_restore_of; [done| |done].
  intros p _. apply restorable_bounds.
Qed.

Lemma run_room_inv ops r :
  Forall room_op_ok ops → Forall room_op_tens ops → room_inv r → room_inv (run_room ops r).
Proof.
  intros Hops Htens. apply run_room_of. intros op r' Hop Hre Hr. rewrite Forall_forall in Hops, Htens.
  specialize (Hops op Hop). specialize (Htens op Hop). destruct op; try discriminate Hre.
  apply room_restore_of; [done| |done]. intros p Hp ??. cbn in Htens. rewrite Forall_forall in Htens.
  by apply restorable_ok; [|apply Htens|].
Qed.

Lemma index_snapshot g :
  self_keyed pg_player_id (players_ g) → index_by pg_player_id (snapshot g) = players_ g.
Proof.
  intros Hk. rewrite (index_by_perm _ _ _ (snapshot_NoDup g Hk) (snapshot_perm g)).
  by apply index_by_hash_values.
Qed.

Lemma list_to_set_records r :
  self_keyed mb_player_id (members_ r) →
  list_to_set (C := gset Z) (cm_player_id <$> member_records r) = dom (members_ r).
Proof.
  intros Hk. rewrite <-index_members_dom, index_member_records by done. apply dom_fmap_L.
Qed.

Lemma list_to_set_snapshot g :
  self_keyed pg_player_id (players_ g) →
  list_to_set (C := gset Z) (pg_player_id <$> snapshot g) = dom (players_ g).
Proof.
  intros Hk. apply set_eq. intros id. rewrite elem_of_list_to_set, elem_of_dom.
  by rewrite <-index_by_lookup_is_Some, index_snapshot.
Qed.

Lemma make_checkpoint_restorable r : room_inv r → restorable_room (room_make_checkpoint r).
Proof.
  intros Hr. pose proof (member_records_recordable r Hr) as Hrec. destruct Hr.
  unfold restorable_room, room_make_checkpoint. cbn. fold (member_records r).
  pose proof rv_game0 as [Hk Hp Hs].
  rewrite member_records_length, snapshot_length. split_and!; try done.
  - by apply member_records_ids.
  - intros Hnz. rewrite member_records_perm. apply Forall_fmap, Forall_forall.
    intros m [k Hm]%elem_of_hash_values. by destruct (rv_members0 _ _ Hm) as [_ Hf _]; apply Hf.
  - by apply snapshot_restorable, game_inv_restorable.
  - by apply snapshot_NoDup.
  - rewrite list_to_set_records, list_to_set_snapshot by done.
    unfold phase_inv in rv_phase0. destruct (room_state r).
    + destruct rv_phase0 as (Hgs & ? & _). split; [done|]. apply length_zero_iff_nil.
      pose proof (snapshot_length (game_state_ r)) as Hl. rewrite Hgs in *.
      unfold zlen, player_count in Hl. cbn in Hl. rewrite map_size_empty in Hl. lia.
    + done.
    + by destruct rv_phase0.
Qed.

Lemma restore_make_room r r0 :
  room_inv r → room_id_ r0 = room_id_ r → capacity_ r0 = capacity_ r →
  room_restore_checkpoint (room_make_checkpoint r) r0 = (true, dormant r).
Proof.
  intros Hr Hid Hcap. pose proof (room_restore_iff (room_make_checkpoint r) r0) as Hi.
  pose proof (make_checkpoint_restorable r Hr) as Hok.
  destruct (room_restore_checkpoint (room_make_checkpoint r) r0).1; [|naive_solver].
  destruct Hi as (_ & _ & _ & ->). f_equal. destruct Hr. pose proof rv_game0 as [Hk _ _].
  transitivity (MkRoom (room_id_ r) (capacity_ r) (next_player_id_ r) (MkRoomstatemachine (room_state r))
    (MkGamestate (index_by pg_player_id (snapshot (game_state_ r)))) (tick_id_ r)
    (index_by mb_player_id (to_member <$> member_records r)) []); [done|].
  rewrite index_member_records, index_snapshot by done. unfold dormant.
  destruct r as [? ? ? [] [] ? ? ?]. done.
Qed.

Lemma dormant_inv r : room_inv r → room_inv (dormant r).
Proof.
  intros []. split; cbn; try done.
  - by apply disconnect_keyed.
  - intros k m. rewrite lookup_fmap. intros (x & Hx & ->)%fmap_Some.
    destruct (rv_members0 _ _ Hx). by split.
  - unfold member_count in *. cbn. by rewrite map_size_fmap.
  - unfold phase_inv, room_state in *. cbn in *. rewrite dom_fmap_L.
    destruct (state (state_machine_ r)); naive_solver.
  - constructor.
Qed.

(** Sorting loses nothing that [restore_checkpoint] looks at. *)
Lemma make_restore_room cp :
  restorable_room cp →
  room_make_checkpoint (restored_room cp) =
    MkRoomCheckpoint (rc_room_id cp) (rc_capacity cp) (rc_next_player_id cp) (rc_state cp)
      (rc_tick_id cp) (sort_on cm_player_id Z.le (rc_members cp))
      (sort_on pg_player_id Z.le (rc_game_states cp)).
Proof.
  intros (_ & _ & Hnd & _ & _ & _ & Hndg & _).
  unfold room_make_checkpoint, restored_room, room_state. cbn. f_equal.
  - symmetry. apply (sort_on_perm_eq cm_player_id Z.le); [done|].
    assert (Hp : hash_values (index_by mb_player_id (to_member <$> rc_members cp)) ≡ₚ to_member <$> rc_members cp).
    { apply index_by_values_perm. by rewrite to_member_ids. }
    rewrite Hp, <-list_fmap_compose. apply reflexive_eq. symmetry.
    rewrite <-(list_fmap_id (rc_members cp)) at 2. apply list_fmap_ext. by intros i [].
  - symmetry. apply (sort_on_perm_eq pg_player_id Z.le); [done|]. symmetry. by apply index_by_values_perm.
Qed.
End checkpoint.

(** * Properties *)

(** C22: In every run of operations on a new room, whatever their arguments and
    restorations of checkpoints included, the room stays consistent: ids agree
    with their keys, never reach the counter and are never zero, names have 1
    to 32 bytes, the capacity is respected, before the match there is no game
    state and no command, during and after it exactly the members play, their
    coordinates are on the board and their health is above [-10] and at most
    100, and no player has two commands in one tick. When every restored health
    is a multiple of ten, health is such a multiple and never negative. From
    any state of such a run on, as long as nothing is restored, the ids that
    successful joins return increase strictly and are greater than the id of
    every member there was, so that none is given out twice. A restoration
    may set the counter back: [restore_checkpoint] compares it with the members
    of the checkpoint, not with the room. *)
Theorem room_runs_consistent {ho : HashOrder} (room_id capacity : Z) (ops later : list room_op) :
  u32_range room_id → u64_range capacity → Forall room_op_ok ops →
  let r := run_room ops (Room_new room_id capacity) in
  room_bounds r ∧
  (Forall room_op_tens ops → room_inv r) ∧
  (Forall (λ op, restores op = false) later →
   StronglySorted Z.lt (joined_ids later r) ∧
   Forall (λ id, 0 < id < 2 ^ 64 ∧ ∀ member, member ∈ dom (members_ r) → member < id)
     (joined_ids later r)).
Proof.
  intros Hid Hcap Hops r.
  assert (Hr : room_bounds r) by (by apply run_room_bounds, Room_new_inv).
  split_and!; [done|intros; by apply run_room_inv, Room_new_inv|by apply joined_ids_fresh].
Qed.

(** A match is played, an odd checkpoint restored and one attack made in it. *)
Definition played_room : list room_op :=
  [RJoin (Some 10) [x41]; RJoin (Some 11) [x42]; RStart true; RMove 2 0 1; RAttack 1 2; RTick;
   RLeave 1; RJoin (Some 12) [x43]].
Definition odd_checkpoint : RoomCheckpoint :=
  MkRoomCheckpoint 1 2 3 RSM.running 7 [MkCheckpointMember 1 [x41]; MkCheckpointMember 2 [x42]]
    [MkPlayerGameState 1 0 0 5; MkPlayerGameState 2 1 0 100].
Definition empty_checkpoint : RoomCheckpoint := MkRoomCheckpoint 1 2 1 RSM.waiting 0 [] [].

Lemma room_runs_consistent_witness :
  let new := Room_new 1 2 in
  let odd := run_room (ho := canonical_order) (played_room ++ [RRestore odd_checkpoint; RAttack 2 1; RTick]) new in
  let back := run_room (ho := canonical_order) (played_room ++ [RRestore empty_checkpoint]) new in
  joined_ids (ho := canonical_order) played_room new = [1; 2] ∧
  room_inv (run_room (ho := canonical_order) played_room new) ∧
  room_bounds odd ∧ pg_hp <$> player_state (game_state_ odd) 1 = Some (-5) ∧
  StronglySorted Z.lt (joined_ids (ho := canonical_order) played_room back) ∧
  joined_ids (ho := canonical_order) played_room back = [1; 2].
Proof.
  assert (Hid : u32_range 1) by done. assert (Hcap : u64_range 2) by done.
  intros new odd back. split_and!.
  - vm_compute; reflexivity.
  - apply (@room_runs_consistent canonical_order 1 2 played_room [] Hid Hcap);
      repeat constructor.
  - apply (@room_runs_consistent canonical_order 1 2 _ [] Hid Hcap).
    repeat constructor; (discriminate || reflexivity).
  - vm_compute; reflexivity.
  - apply (@room_runs_consistent canonical_order 1 2 (played_room ++ [RRestore empty_checkpoint])
      played_room Hid Hcap); repeat constructor; (discriminate || reflexivity).
  - vm_compute; reflexivity.
Defined.

(** C29: A tick of a running room executes the submitted commands in the order of
    their submission, each by the rules of the game, counts the ones that
    succeeded, empties the queue, advances the tick number modulo 2^64 and
    reports the resulting players in the order of their ids; it touches neither
    members nor ids. A room that is not running is left alone. *)
Theorem tick_runs_commands {ho : HashOrder} (r : Room) :
  let g := run_ops (game_state_ r) (command_op <$> pending_commands_ r) in
  let id := wrap64 (tick_id_ r + 1) in
  tick r =
    if bool_decide (room_state r = RSM.running) then
      (MkTickResult RM.tick_success id (zlen (pending_commands_ r))
         (successes (game_state_ r) (pending_commands_ r)) (snapshot g),
       MkRoom (room_id_ r) (capacity_ r) (next_player_id_ r) (state_machine_ r) g id (members_ r) [])
    else (MkTickResult RM.tick_invalid_state (tick_id_ r) 0 0 [], r).
Proof.
  case_bool_decide as Hr; [by apply tick_running|]. unfold tick. by rewrite bool_decide_false.
Qed.

(** Starting a room succeeds exactly when it is waiting and has between 1 and
    101 members; then every member plays with full health, placed along the x
    axis in the order of ids, and the tick counter is zero. Otherwise nothing
    changes: a room whose capacity exceeds 101 therefore never starts when it
    is full. *)
Theorem room_start_spec {ho : HashOrder} (r : Room) :
  room_inv r →
  let ids := mb_player_id <$> hash_values (members_ r) in
  let '(st, r') := room_start true r in
  (st = RSM.success ↔ room_state r = RSM.waiting ∧ 1 <= member_count r <= MAX_PLAYERS) ∧
  (if bool_decide (st = RSM.success) then
     room_state r' = RSM.running ∧ tick_id_ r' = 0 ∧ members_ r' = members_ r ∧
     ∀ id, players_ (game_state_ r') !! id =
       if bool_decide (id ∈ dom (members_ r))
       then Some (MkPlayerGameState id (rank ids id) 0 INITIAL_HP) else None
   else r' = r).
Proof.
  intros Hr ids. pose proof (member_ids_perm r (rv_keyed r Hr)) as [Hnd Hin].
  assert (Hlen : zlen ids = member_count r).
  { unfold zlen, ids, member_count. by rewrite length_fmap, hash_values_length. }
  assert (Hnz : Forall (λ id, id ≠ 0) ids).
  { apply Forall_forall. intros id (m & Hm)%Hin%elem_of_dom.
    destruct (rv_members r Hr _ _ Hm) as [? _ _]. rewrite (rv_keyed r Hr _ _ Hm) in *. lia. }
  unfold room_start. case_bool_decide as Hw; cbn [negb].
  2: { split; [|done]. split; [done|]. by intros []. }
  fold ids. destruct (initialize Gamestate_new ids) as [st g] eqn:Hg. case_bool_decide as Hst; cbn [negb].
  - subst st. pose proof Hg as (Hne & Hmax & _)%initialize_success. rewrite bool_decide_true by done.
    split.
    + split; [|done]. intros _. split; [done|]. rewrite <-Hlen. pose proof (zlen_pos ids Hne). lia.
    + split_and!; try done.
      * unfold room_state, state, start in *. cbn. by rewrite bool_decide_true.
      * intros id. cbn. rewrite (initialize_lookup _ _ _ id Hg).
        by rewrite (bool_decide_ext _ _ (Hin id)).
  - rewrite bool_decide_false by done. split; [|done]. split; [done|]. intros [_ Hc]. exfalso.
    rewrite <-Hlen in Hc. assert (initialize Gamestate_new ids =
      (GS.success, MkGamestate (place_players (sort_on (λ id, id) Z.le ids) 0 ∅))).
    { apply initialize_success. split_and!; try done; [|lia].
      intros Hn. rewrite Hn in Hc. unfold zlen in Hc. cbn in Hc. lia. }
    congruence.
Qed.

(** C33: Restoring a room is all or nothing and exact: it succeeds precisely on
    the checkpoints of this room that obey the rules (distinct recordable
    members within the capacity, ids below the counter, and a match played by
    exactly the members); the checkpoint of the result is then the given one
    with its lists sorted. A rejected checkpoint changes nothing. *)
Theorem room_restore_exact {ho : HashOrder} (cp : RoomCheckpoint) (r : Room) :
  let '(ok, r') := room_restore_checkpoint cp r in
  (ok = true ↔ rc_room_id cp = room_id_ r ∧ rc_capacity cp = capacity_ r ∧ restorable_room cp) ∧
  (if ok then
     room_make_checkpoint r' =
       MkRoomCheckpoint (rc_room_id cp) (rc_capacity cp) (rc_next_player_id cp) (rc_state cp)
         (rc_tick_id cp) (sort_on cm_player_id Z.le (rc_members cp))
         (sort_on pg_player_id Z.le (rc_game_states cp)) ∧
     pending_commands_ r' = [] ∧ map_Forall (λ _ m, mb_connection m = None) (members_ r')
   else r' = r).
Proof.
  pose proof (room_restore_iff cp r) as Hi.
  destruct (room_restore_checkpoint cp r) as [[] r']; cbn [fst snd] in Hi; [|naive_solver].
  destruct Hi as (Hid & Hcap & Hok & Hres). injection Hres as ->. split; [done|].
  split_and!; [by apply make_restore_room|done|].
  intros id m Hm. cbn in Hm. destruct Hok as (_ & _ & Hnd & _).
  apply index_by_lookup in Hm as [Hm _]; [|by rewrite to_member_ids].
  by apply list_elem_of_fmap in Hm as (c & -> & _).
Qed.

(** The checkpoint of any consistent room restores, into any room with the
    same id and capacity, that room as it was, without its connections and the
    commands of the unfinished tick; and the restored room is consistent. *)
Theorem room_checkpoint_roundtrip {ho : HashOrder} (r r0 : Room) :
  room_inv r → room_id_ r0 = room_id_ r → capacity_ r0 = capacity_ r →
  room_restore_checkpoint (room_make_checkpoint r) r0 = (true, dormant r) ∧ room_inv (dormant r).
Proof. intros. split; [by apply restore_make_room|by apply dormant_inv]. Qed.

Lemma room_checkpoint_roundtrip_witness :
  let r := run_room (ho := canonical_order) [RJoin (Some 10) [x41]; RJoin (Some 11) [x42]; RStart true;
             RAttack 1 2; RTick] (Room_new 7 2) in
  room_restore_checkpoint (ho := canonical_order) (room_make_checkpoint (ho := canonical_order) r)
    (Room_new 7 2) = (true, dormant r).
Proof.
  intros r. refine (proj1 (@room_checkpoint_roundtrip canonical_order r (Room_new 7 2) _ eq_refl eq_refl)).
  apply run_room_inv; [by repeat constructor..|].
  apply Room_new_inv; split; (discriminate || reflexivity).
Defined.

Lemma room_start_spec_witness :
  let r := run_room (ho := canonical_order) [RJoin (Some 10) [x41]] (Room_new 7 1) in
  (room_start (ho := canonical_order) true r).1 = RSM.success.
Proof.
  intros r. assert (Hr : room_inv r).
  { apply run_room_inv; [by repeat constructor..|].
    apply Room_new_inv; split; (discriminate || reflexivity). }
  pose proof (@room_start_spec canonical_order r Hr) as H. cbv zeta in H.
  destruct (room_start true r) as [st r'] eqn:E. destruct H as [H _]. apply H.
  vm_compute. split; [reflexivity|]. split; discriminate.
Defined.
