(* ===== verification/RoomManager.v ===== *)
(** [src/src/room_manager.cpp] and [src/include/room_manager.h]: the table of
    rooms, the operations on a member of a room by the stable identity of room
    id and player id, the tick of all rooms, and their checkpoint. *)

From S2P Require Import Prelude Connection Protocol GameState Checkpoint RoomStateMachine Room.

Module MG.
Inductive States : Type :=
| success | invalid_connection | room_not_found | room_full | room_not_joinable | not_in_room
| invalid_player_name | invalid_message | player_id_exhausted | room_not_running
| already_submitted | internal_error.
Inductive Bindingstates : Type :=
| bind_success | bind_invalid_connection | bind_room_not_found | bind_player_not_found
| already_bound | not_bound | connection_mismatch | bind_internal_error.

#[global] Instance States_eq_dec : EqDecision States.
Proof. solve_decision. Defined.
#[global] Instance Bindingstates_eq_dec : EqDecision Bindingstates.
Proof. solve_decision. Defined.
End MG.

(** * Definitions *)

Record RoomManager : Type := MkRoomManager { rooms_ : gmap Z Room }.

(** The results, with the values of a default-initialised member where the
    code leaves it. *)
Record MJoinResult : Type := MkMJoinResult {
  mj_state : MG.States;
  mj_room_id : Z;
  mj_player_id : Z;
  mj_members : list MemberInfo;
  mj_notify : list Conn
}.
Record NotifyResult : Type := MkNotifyResult {
  nr_state : MG.States;
  nr_room_id : Z;
  nr_player_id : Z;
  nr_notify : list Conn
}.
Record CommandResult : Type := MkCommandResult {
  cr_state : MG.States;
  cr_room_id : Z;
  cr_player_id : Z
}.
Record BindingResult : Type := MkBindingResult {
  br_state : MG.Bindingstates;
  br_room_id : Z;
  br_player_id : Z;
  br_room_state : RSM.States;
  br_tick_id : Z;
  br_members : list MemberInfo;
  br_snapshot : list PlayerGameState
}.
Record MDetachResult : Type := MkMDetachResult {
  md_state : MG.Bindingstates;
  md_room_id : Z;
  md_player_id : Z
}.
Record MTickResult : Type := MkMTickResult {
  mt_room_id : Z;
  mt_tick_id : Z;
  mt_processed_commands : Z;
  mt_successful_commands : Z;
  mt_snapshot : list PlayerGameState;
  mt_notify : list Conn
}.

Definition RoomManager_new : RoomManager := MkRoomManager ∅.

Definition contains_room (room_id : Z) (m : RoomManager) : bool :=
  match rooms_ m !! room_id with None => false | Some _ => true end.
Definition room_count (m : RoomManager) : Z := Z.of_nat (size (rooms_ m)).

Definition add_room (room_id capacity : Z) (m : RoomManager) : bool * RoomManager :=
  if contains_room room_id m then (false, m)
  else (true, MkRoomManager (<[room_id := Room_new room_id capacity]> (rooms_ m))).

(** The room behind the pointer is updated in place. *)
Definition update_room (room_id : Z) (r : Room) (m : RoomManager) : RoomManager :=
  MkRoomManager (<[room_id := r]> (rooms_ m)).

Section operations.
Context {ho : HashOrder}.

Definition manager_join (live : gset Conn) (connection : ConnectionPtr) (room_id : Z)
    (player_name : bytes) (m : RoomManager) : MJoinResult * RoomManager :=
  let failed state := MkMJoinResult state 0 0 [] [] in
  match connection with
  | None => (failed MG.invalid_connection, m)
  | Some _ =>
    match rooms_ m !! room_id with
    | None => (failed MG.room_not_found, m)
    | Some room =>
      let '(room_result, room) := room_join connection player_name room in
      let m := update_room room_id room m in
      match jn_state room_result with
      | RM.join_success =>
          (MkMJoinResult MG.success room_id (jn_player_id room_result) (jn_members room_result)
             (connections live room (jn_player_id room_result)), m)
      | RM.invalid_connection => (failed MG.invalid_connection, m)
      | RM.room_full => (failed MG.room_full, m)
      | RM.invalid_state => (failed MG.room_not_joinable, m)
      | RM.invalid_player_name => (failed MG.invalid_player_name, m)
      | RM.player_id_exhausted => (failed MG.player_id_exhausted, m)
      end
    end
  end.

Definition start_if_full (room_id : Z) (m : RoomManager) : MG.States * RoomManager :=
  match rooms_ m !! room_id with
  | None => (MG.room_not_found, m)
  | Some room =>
    if member_count room <? capacity_ room then (MG.success, m)
    else if capacity_ room <? member_count room then (MG.internal_error, m)
    else
      let '(transition_state, room) := room_start true room in
      let m := update_room room_id room m in
      match transition_state with
      | RSM.success => (MG.success, m)
      | RSM.invalid_state => (MG.room_not_joinable, m)
      | RSM.condition_not_met => (MG.internal_error, m)
      end
  end.

Definition manager_leave (live : gset Conn) (room_id player_id : Z) (m : RoomManager)
    : NotifyResult * RoomManager :=
  let failed state := MkNotifyResult state 0 0 [] in
  match rooms_ m !! room_id with
  | None => (failed MG.room_not_found, m)
  | Some room =>
    if negb (room_contains room player_id) then (failed MG.not_in_room, m)
    else
      let '(left_room, room) := room_leave player_id room in
      let m := update_room room_id room m in
      if negb left_room then (failed MG.internal_error, m)
      else (MkNotifyResult MG.success room_id player_id (connections live room 0), m)
  end.

Definition manager_chat (live : gset Conn) (room_id player_id : Z) (message : bytes) (m : RoomManager)
    : NotifyResult :=
  let failed state := MkNotifyResult state 0 0 [] in
  if bool_decide (message = []) || (MAX_CHAT_MESSAGE_SIZE <? zlen message)
  then failed MG.invalid_message
  else match rooms_ m !! room_id with
  | None => failed MG.room_not_found
  | Some room =>
    if negb (room_contains room player_id) then failed MG.not_in_room
    else MkNotifyResult MG.success room_id player_id (connections live room 0)
  end.

(** The common body of [move] and [attack]. *)
Definition manager_command (room_id player_id : Z)
    (submit_command : Room → RM.Commandstates * Room) (m : RoomManager) : CommandResult * RoomManager :=
  let failed state := MkCommandResult state 0 0 in
  match rooms_ m !! room_id with
  | None => (failed MG.room_not_found, m)
  | Some room =>
    if negb (room_contains room player_id) then (failed MG.not_in_room, m)
    else
      let '(command_state, room) := submit_command room in
      let m := update_room room_id room m in
      match command_state with
      | RM.cmd_success => (MkCommandResult MG.success room_id player_id, m)
      | RM.cmd_invalid_state => (failed MG.room_not_running, m)
      | RM.already_submitted => (failed MG.already_submitted, m)
      | RM.cmd_player_not_found => (failed MG.internal_error, m)
      end
  end.
Definition manager_move (room_id player_id dx dy : Z) (m : RoomManager) : CommandResult * RoomManager :=
  manager_command room_id player_id (submit_move player_id dx dy) m.
Definition manager_attack (room_id player_id target_player_id : Z) (m : RoomManager)
    : CommandResult * RoomManager :=
  manager_command room_id player_id (submit_attack player_id target_player_id) m.

(** The loop over the rooms, in the order of the table. *)
Fixpoint tick_rooms_loop (live : gset Conn) (rooms : list (Z * Room)) (m : RoomManager)
    : list MTickResult * RoomManager :=
  match rooms with
  | [] => ([], m)
  | (key, room) :: rooms =>
      if negb (bool_decide (room_state room = RSM.running)) then tick_rooms_loop live rooms m
      else
        let '(tick_result, room) := tick room in
        let m := update_room key room m in
        if negb (bool_decide (tk_state tick_result = RM.tick_success))
        then tick_rooms_loop live rooms m
        else
          let out := MkMTickResult (room_id_ room) (tk_tick_id tick_result)
                       (tk_processed_commands tick_result) (tk_successful_commands tick_result)
                       (tk_snapshot tick_result) (connections live room 0) in
          let '(results, m) := tick_rooms_loop live rooms m in
          (out :: results, m)
  end.
Definition tick_rooms (live : gset Conn) (m : RoomManager) : list MTickResult * RoomManager :=
  tick_rooms_loop live (hash_iter (rooms_ m)) m.

Definition manager_bind_connection (live : gset Conn) (room_id player_id : Z)
    (connection : ConnectionPtr) (m : RoomManager) : BindingResult * RoomManager :=
  let failed state := MkBindingResult state 0 0 RSM.waiting 0 [] [] in
  match connection with
  | None => (failed MG.bind_invalid_connection, m)
  | Some _ =>
    match rooms_ m !! room_id with
    | None => (failed MG.bind_room_not_found, m)
    | Some room =>
      let '(room_st, room) := room_bind_connection live player_id connection room in
      let m := update_room room_id room m in
      match room_st with
      | RM.bind_success =>
          (MkBindingResult MG.bind_success room_id player_id (room_state room) (tick_id_ room)
             (member_snapshot room) (game_snapshot room), m)
      | RM.bind_invalid_connection => (failed MG.bind_invalid_connection, m)
      | RM.bind_player_not_found => (failed MG.bind_player_not_found, m)
      | RM.already_bound => (failed MG.already_bound, m)
      | _ => (failed MG.bind_internal_error, m)
      end
    end
  end.

Definition manager_detach_connection (live : gset Conn) (room_id player_id : Z)
    (connection : ConnectionPtr) (m : RoomManager) : MDetachResult * RoomManager :=
  let failed state := MkMDetachResult state 0 0 in
  match connection with
  | None => (failed MG.bind_invalid_connection, m)
  | Some _ =>
    match rooms_ m !! room_id with
    | None => (failed MG.bind_room_not_found, m)
    | Some room =>
      let '(room_st, room) := room_detach_connection live player_id connection room in
      let m := update_room room_id room m in
      match room_st with
      | RM.bind_success => (MkMDetachResult MG.bind_success room_id player_id, m)
      | RM.bind_invalid_connection => (failed MG.bind_invalid_connection, m)
      | RM.bind_player_not_found => (failed MG.bind_player_not_found, m)
      | RM.not_bound => (failed MG.not_bound, m)
      | RM.connection_mismatch => (failed MG.connection_mismatch, m)
      | RM.already_bound => (failed MG.bind_internal_error, m)
      end
    end
  end.

(** [Room::make_checkpoint] always succeeds, so this does. *)
Definition manager_make_checkpoint (m : RoomManager) : list RoomCheckpoint :=
  sort_on rc_room_id Z.le (room_make_checkpoint <$> hash_values (rooms_ m)).

Fixpoint restore_rooms (checkpoints : list RoomCheckpoint) (temp_rooms : gmap Z Room)
    : option (gmap Z Room) :=
  match checkpoints with
  | [] => Some temp_rooms
  | checkpoint :: checkpoints =>
      if 2 ^ 64 - 1 <? rc_capacity checkpoint then None
      else match temp_rooms !! rc_room_id checkpoint with
      | Some _ => None
      | None =>
        let '(ok, room) := room_restore_checkpoint checkpoint
            (Room_new (rc_room_id checkpoint) (rc_capacity checkpoint)) in
        if negb ok then None
        else restore_rooms checkpoints (<[rc_room_id checkpoint := room]> temp_rooms)
      end
  end.
Definition manager_restore_checkpoint (checkpoints : list RoomCheckpoint) (m : RoomManager)
    : bool * RoomManager :=
  match restore_rooms checkpoints ∅ with
  | None => (false, m)
  | Some temp_rooms => (true, MkRoomManager temp_rooms)
  end.
End operations.

(** ** Specification *)

Record manager_inv (m : RoomManager) : Prop := {
  mv_keyed : self_keyed room_id_ (rooms_ m);
  mv_rooms : map_Forall (λ _ r, room_inv r) (rooms_ m)
}.

(** The members of all rooms by their stable identity. *)
Definition member_at (m : RoomManager) (room_id player_id : Z) : option Member :=
  rooms_ m !! room_id ≫= λ r, members_ r !! player_id.

(** The operations of the manager that change it, each with the operation of a
    room it stands for. *)
Inductive manager_op : Type :=
| MAdd (room_id capacity : Z)
| MJoin (live : gset Conn) (connection : ConnectionPtr) (room_id : Z) (player_name : bytes)
| MStartIfFull (room_id : Z)
| MLeave (live : gset Conn) (room_id player_id : Z)
| MMove (room_id player_id dx dy : Z)
| MAttack (room_id player_id target_player_id : Z)
| MTick (live : gset Conn)
| MBind (live : gset Conn) (room_id player_id : Z) (connection : ConnectionPtr)
| MDetach (live : gset Conn) (room_id player_id : Z) (connection : ConnectionPtr).

Definition manager_op_typed (op : manager_op) : Prop :=
  match op with MAdd id cap => u32_range id ∧ u64_range cap | _ => True end.

Section spec.
Context {ho : HashOrder}.

Definition apply_manager_op (m : RoomManager) (op : manager_op) : RoomManager :=
  match op with
  | MAdd id cap => (add_room id cap m).2
  | MJoin live c id name => (manager_join live c id name m).2
  | MStartIfFull id => (start_if_full id m).2
  | MLeave live id p => (manager_leave live id p m).2
  | MMove id p dx dy => (manager_move id p dx dy m).2
  | MAttack id p t => (manager_attack id p t m).2
  | MTick live => (tick_rooms live m).2
  | MBind live id p c => (manager_bind_connection live id p c m).2
  | MDetach live id p c => (manager_detach_connection live id p c m).2
  end.
Definition run_manager (ops : list manager_op) (m : RoomManager) : RoomManager :=
  foldl apply_manager_op m ops.

Definition start_full_room (r : Room) : Room :=
  if member_count r =? capacity_ r then apply_room_op r (RStart true) else r.

(** The abstract manager: a table of rooms, where an operation addresses one
    room and is an operation of that room. *)
Definition rooms_after (op : manager_op) (rooms : gmap Z Room) : gmap Z Room :=
  match op with
  | MAdd id cap => if bool_decide (is_Some (rooms !! id)) then rooms else <[id := Room_new id cap]> rooms
  | MJoin _ c id name => alter (λ r, apply_room_op r (RJoin c name)) id rooms
  | MStartIfFull id => alter start_full_room id rooms
  | MLeave _ id p => alter (λ r, apply_room_op r (RLeave p)) id rooms
  | MMove id p dx dy => alter (λ r, apply_room_op r (RMove p dx dy)) id rooms
  | MAttack id p t => alter (λ r, apply_room_op r (RAttack p t)) id rooms
  | MTick _ => (λ r, apply_room_op r RTick) <$> rooms
  | MBind live id p c => alter (λ r, apply_room_op r (RBind live p c)) id rooms
  | MDetach live id p c => alter (λ r, apply_room_op r (RDetach live p c)) id rooms
  end.

(** What the tick of one room reports. *)
Definition tick_outcome (live : gset Conn) (r : Room) : option MTickResult :=
  if bool_decide (room_state r = RSM.running) then
    let '(res, r') := tick r in
    Some (MkMTickResult (room_id_ r) (tk_tick_id res) (tk_processed_commands res)
            (tk_successful_commands res) (tk_snapshot res) (connections live r' 0))
  else None.
End spec.

(** * Proofs *)

Lemma alter_to_insert {V} (f : V → V) (k : Z) (m : gmap Z V) v :
  m !! k = Some v → alter f k m = <[k := f v]> m.
Proof.
  intros Hv. apply map_eq. intros k'. destruct (decide (k = k')) as [<-|Hne].
  - by rewrite lookup_alter_eq, lookup_insert_eq, Hv.
  - by rewrite lookup_alter_ne, lookup_insert_ne.
Qed.

Lemma alter_none {V} (f : V → V) (k : Z) (m : gmap Z V) : m !! k = None → alter f k m = m.
Proof.
  intros Hv. apply map_eq. intros k'. destruct (decide (k = k')) as [<-|Hne].
  - by rewrite lookup_alter_eq, Hv.
  - by rewrite lookup_alter_ne.
Qed.

Lemma alter_same {V} (f : V → V) (k : Z) (m : gmap Z V) v :
  m !! k = Some v → f v = v → alter f k m = m.
Proof. intros Hv Hf. rewrite (alter_to_insert f k m v Hv), Hf. by apply insert_id. Qed.

(** An operation on the room it finds, or nothing. *)
Ltac on_room :=
  match goal with
  | |- context [rooms_ ?m !! ?id] =>
      destruct (rooms_ m !! id) as [room|] eqn:Hroom; [|by rewrite alter_none]
  end.

Section refinement.
Context {ho : HashOrder}.

Lemma manager_join_rooms live c id name m :
  rooms_ (manager_join live c id name m).2 = alter (λ r, apply_room_op r (RJoin c name)) id (rooms_ m).
Proof.
  unfold manager_join. destruct c as [c|].
  - on_room. rewrite (alter_to_insert _ _ _ _ Hroom). cbn [apply_room_op].
    destruct (room_join (Some c) name room) as [j r']. by destruct (jn_state j).
  - destruct (rooms_ m !! id) as [room|] eqn:Hroom; [|by rewrite alter_none].
    by rewrite (alter_same _ _ _ _ Hroom).
Qed.

Lemma start_if_full_rooms id m :
  rooms_ (start_if_full id m).2 = alter start_full_room id (rooms_ m).
Proof.
  unfold start_if_full. on_room.
  unfold start_full_room. case_test E1; [|case_test E2]; to_prop.
  - rewrite (alter_same _ _ _ _ Hroom); [done|]. rewrite (proj2 (Z.eqb_neq _ _)); [done|lia].
  - rewrite (alter_same _ _ _ _ Hroom); [done|]. rewrite (proj2 (Z.eqb_neq _ _)); [done|lia].
  - rewrite (alter_to_insert _ _ _ _ Hroom), (proj2 (Z.eqb_eq _ _)) by lia.
    cbn [apply_room_op]. destruct (room_start true room) as [st r']. by destruct st.
Qed.

Lemma manager_leave_rooms live id p m :
  rooms_ (manager_leave live id p m).2 = alter (λ r, apply_room_op r (RLeave p)) id (rooms_ m).
Proof.
  unfold manager_leave. on_room. cbn [apply_room_op]. case_test E.
  - rewrite (alter_same _ _ _ _ Hroom); [done|]. to_prop. unfold room_contains in E.
    unfold room_leave. by destruct (members_ room !! p).
  - rewrite (alter_to_insert _ _ _ _ Hroom). destruct (room_leave p room) as [[] r']; done.
Qed.

Lemma manager_command_rooms id p (c : Gamecommand) m :
  rooms_ (manager_command id p (submit p c) m).2 = alter (λ r, (submit p c r).2) id (rooms_ m).
Proof.
  unfold manager_command. on_room. case_test E.
  - rewrite (alter_same _ _ _ _ Hroom); [done|]. to_prop. unfold submit. rewrite E. by case_test E'.
  - rewrite (alter_to_insert _ _ _ _ Hroom). destruct (submit p c room) as [[] r']; done.
Qed.

Lemma manager_bind_rooms live id p c m :
  rooms_ (manager_bind_connection live id p c m).2 =
    alter (λ r, apply_room_op r (RBind live p c)) id (rooms_ m).
Proof.
  unfold manager_bind_connection. destruct c as [c|].
  - on_room. rewrite (alter_to_insert _ _ _ _ Hroom). cbn [apply_room_op].
    destruct (room_bind_connection live p (Some c) room) as [st r']. by destruct st.
  - destruct (rooms_ m !! id) as [room|] eqn:Hroom; [|by rewrite alter_none].
    by rewrite (alter_same _ _ _ _ Hroom).
Qed.

Lemma manager_detach_rooms live id p c m :
  rooms_ (manager_detach_connection live id p c m).2 =
    alter (λ r, apply_room_op r (RDetach live p c)) id (rooms_ m).
Proof.
  unfold manager_detach_connection. destruct c as [c|].
  - on_room. rewrite (alter_to_insert _ _ _ _ Hroom). cbn [apply_room_op].
    destruct (room_detach_connection live p (Some c) room) as [st r']. by destruct st.
  - destruct (rooms_ m !! id) as [room|] eqn:Hroom; [|by rewrite alter_none].
    by rewrite (alter_same _ _ _ _ Hroom).
Qed.

(** ** Ticks *)

Lemma tick_not_running r : room_state r ≠ RSM.running → (tick r).2 = r.
Proof. intros Hs. unfold tick. by rewrite bool_decide_false. Qed.

Lemma tick_rooms_loop_spec live l m :
  NoDup l.*1 → (∀ k r, (k, r) ∈ l → rooms_ m !! k = Some r) →
  let '(res, m') := tick_rooms_loop live l m in
  res = omap (tick_outcome live ∘ snd) l ∧
  ∀ k, rooms_ m' !! k =
    if bool_decide (k ∈ l.*1) then (λ r, (tick r).2) <$> rooms_ m !! k else rooms_ m !! k.
Proof.
  revert m. induction l as [|[k r] l IH]; intros m Hnd Hin; cbn [tick_rooms_loop].
  { split; [done|]. intros k. by rewrite bool_decide_false by apply not_elem_of_nil. }
  apply NoDup_cons in Hnd as [Hk Hnd]. cbn in Hk.
  pose proof (Hin k r (list_elem_of_here _ _)) as Hr.
  cbn [omap list_omap]. unfold compose at 1, tick_outcome at 1. cbn [snd].
  case_bool_decide as Hs; cbn [negb].
  - rewrite tick_running by done. cbn -[tick_rooms_loop connections].
    match goal with |- context [tick_rooms_loop live l (update_room k ?r' m)] => set (r1 := r') end.
    specialize (IH (update_room k r1 m) Hnd).
    destruct (tick_rooms_loop live l (update_room k r1 m)) as [res m'].
    destruct IH as [-> IH].
    { intros k' r' Hk'. cbn. rewrite lookup_insert_ne; [apply Hin; by right|].
      intros <-. apply Hk. apply list_elem_of_fmap. by exists (k, r'). }
    split; [done|]. intros k'. rewrite IH. cbn. destruct (decide (k = k')) as [<-|Hne].
    + rewrite bool_decide_false by done. rewrite lookup_insert_eq, bool_decide_true by by left.
      rewrite Hr. cbn. by rewrite tick_running.
    + rewrite lookup_insert_ne by done. erewrite bool_decide_ext; [done|].
      rewrite elem_of_cons. naive_solver.
  - specialize (IH m Hnd). destruct (tick_rooms_loop live l m) as [res m'].
    destruct IH as [-> IH]; [intros; apply Hin; by right|]. split; [done|].
    intros k'. rewrite IH. destruct (decide (k = k')) as [<-|Hne].
    + rewrite bool_decide_false by done. rewrite bool_decide_true by by left.
      rewrite Hr. cbn. by rewrite tick_not_running.
    + erewrite bool_decide_ext; [done|]. cbn. rewrite elem_of_cons. naive_solver.
Qed.

Lemma tick_rooms_spec live m :
  (tick_rooms live m).1 = omap (tick_outcome live ∘ snd) (hash_iter (rooms_ m)) ∧
  rooms_ (tick_rooms live m).2 = (λ r, (tick r).2) <$> rooms_ m.
Proof.
  unfold tick_rooms. pose proof (tick_rooms_loop_spec live (hash_iter (rooms_ m)) m) as H.
  destruct (tick_rooms_loop live (hash_iter (rooms_ m)) m) as [res m'].
  destruct H as [-> H]; [apply hash_iter_NoDup_fst|intros; by apply elem_of_hash_iter|].
  split; [done|]. apply map_eq. intros k. cbn. rewrite H, lookup_fmap. case_bool_decide as Hk; [done|].
  destruct (rooms_ m !! k) as [r|] eqn:Hr; [|done]. destruct Hk.
  apply list_elem_of_fmap. exists (k, r). split; [done|]. by apply elem_of_hash_iter.
Qed.

(** ** Every operation is an operation of a room *)

Lemma apply_manager_op_rooms m op : rooms_ (apply_manager_op m op) = rooms_after op (rooms_ m).
Proof.
  destruct op; cbn [apply_manager_op rooms_after].
  - unfold add_room, contains_room. case_bool_decide as Hs.
    + by destruct Hs as [r ->].
    + destruct (rooms_ m !! room_id) eqn:E; [destruct Hs; eauto|done].
  - apply manager_join_rooms.
  - apply start_if_full_rooms.
  - apply manager_leave_rooms.
  - apply manager_command_rooms.
  - apply manager_command_rooms.
  - apply tick_rooms_spec.
  - apply manager_bind_rooms.
  - apply manager_detach_rooms.
Qed.

Lemma apply_room_op_static r op :
  room_id_ (apply_room_op r op) = room_id_ r ∧ capacity_ (apply_room_op r op) = capacity_ r.
Proof.
  destruct op; cbn.
  - unfold room_start. branches.
  - unfold room_finish. branches.
  - unfold room_join. branches.
  - unfold room_leave. branches.
  - unfold room_bind_connection. branches.
  - unfold room_detach_connection. branches.
  - unfold submit_move, submit. branches.
  - unfold submit_attack, submit. branches.
  - destruct (decide (room_state r = RSM.running)).
    + by rewrite tick_running.
    + by rewrite tick_not_running.
  - pose proof (room_restore_iff checkpoint r) as Hi. destruct (room_restore_checkpoint checkpoint r).1.
    + by destruct Hi as (? & ? & _ & ->).
    + by destruct Hi as [-> _].
Qed.

(** What is kept by a map over the rooms. *)
Lemma manager_inv_map (f : Room → Room) (rooms : gmap Z Room) :
  (∀ r, room_id_ (f r) = room_id_ r) → (∀ r, room_inv r → room_inv (f r)) →
  manager_inv (MkRoomManager rooms) → manager_inv (MkRoomManager (f <$> rooms)).
Proof.
  intros Hid Hf [Hk Hr]. split; cbn in *.
  - intros k r. rewrite lookup_fmap. intros (r0 & Hr0 & ->)%fmap_Some. rewrite Hid. by apply Hk.
  - intros k r. rewrite lookup_fmap. intros (r0 & Hr0 & ->)%fmap_Some. by apply Hf, (Hr k).
Qed.

Lemma manager_inv_alter (f : Room → Room) id (rooms : gmap Z Room) :
  (∀ r, room_id_ (f r) = room_id_ r) → (∀ r, room_inv r → room_inv (f r)) →
  manager_inv (MkRoomManager rooms) → manager_inv (MkRoomManager (alter f id rooms)).
Proof.
  intros Hid Hf [Hk Hr]. split; cbn in *.
  - intros k r [(-> & r0 & Hr0 & ->)|(? & Hr0)]%lookup_alter_Some; [rewrite Hid|]; by apply Hk.
  - intros k r [(-> & r0 & Hr0 & ->)|(? & Hr0)]%lookup_alter_Some; [apply Hf|]; by apply (Hr k).
Qed.

Lemma apply_manager_op_inv m op :
  manager_op_typed op → manager_inv m → manager_inv (apply_manager_op m op).
Proof.
  intros Ht Hm. assert (Ha : ∀ id rop, restores rop = false →
    manager_inv (MkRoomManager (alter (λ r, apply_room_op r rop) id (rooms_ m)))).
  { intros id rop Hrop. apply manager_inv_alter; [|intros; by apply apply_room_op_inv|by destruct m].
    intros r. by destruct (apply_room_op_static r rop). }
  pose proof (apply_manager_op_rooms m op) as Hr. destruct (apply_manager_op m op) as [rooms].
  cbn in Hr. subst rooms. destruct op; cbn [rooms_after]; try by apply Ha.
  - case_bool_decide; [by destruct m|]. destruct Ht, Hm as [Hk Hr]. split; cbn.
    + by apply self_keyed_insert.
    + apply map_Forall_insert_2; [by apply Room_new_inv|done].
  - apply manager_inv_alter; [| |by destruct m].
    + intros r. unfold start_full_room. case_match; [|done].
      by destruct (apply_room_op_static r (RStart true)).
    + intros r Hr. unfold start_full_room. case_match; [by apply apply_room_op_inv|done].
  - apply manager_inv_map; [|intros; by apply (apply_room_op_inv RTick)|by destruct m].
    intros r. by destruct (apply_room_op_static r RTick).
Qed.

Lemma run_manager_inv ops m :
  Forall manager_op_typed ops → manager_inv m → manager_inv (run_manager ops m).
Proof.
  unfold run_manager. revert m. induction ops as [|op ops IH]; intros m Ht Hm; [done|].
  apply Forall_cons in Ht as [? ?]. by apply IH, apply_manager_op_inv.
Qed.

Lemma RoomManager_new_inv : manager_inv RoomManager_new.
Proof. split; [apply self_keyed_empty|done]. Qed.

(** ** Effects on the members *)

Lemma member_at_alter f id m room p :
  member_at (MkRoomManager (alter f id (rooms_ m))) room p =
    if bool_decide (room = id) then rooms_ m !! id ≫= λ r, members_ (f r) !! p else member_at m room p.
Proof.
  unfold member_at. cbn. case_bool_decide as H.
  - subst room. rewrite lookup_alter_eq. by destruct (rooms_ m !! id).
  - by rewrite lookup_alter_ne by done.
Qed.

Lemma member_at_alter_keep f id m room p :
  (∀ r, members_ (f r) = members_ r) →
  member_at (MkRoomManager (alter f id (rooms_ m))) room p = member_at m room p.
Proof.
  intros Hf. rewrite member_at_alter. case_bool_decide; [|done]. subst room. unfold member_at.
  destruct (rooms_ m !! id); cbn; [by rewrite Hf|done].
Qed.

Lemma room_op_members r op :
  match op with
  | RStart _ | RFinish _ | RMove _ _ _ | RAttack _ _ | RTick => members_ (apply_room_op r op) = members_ r
  | _ => True
  end.
Proof.
  destruct op; cbn; try done.
  - unfold room_start. branches.
  - unfold room_finish. branches.
  - unfold submit_move, submit. branches.
  - unfold submit_attack, submit. branches.
  - destruct (decide (room_state r = RSM.running)); [by rewrite tick_running|by rewrite tick_not_running].
Qed.

(** The operations that leave every member as it is. *)
Lemma member_at_keep m op room p :
  match op with
  | MAdd _ _ | MStartIfFull _ | MMove _ _ _ _ | MAttack _ _ _ | MTick _ =>
      member_at (apply_manager_op m op) room p = member_at m room p
  | _ => True
  end.
Proof.
  pose proof (apply_manager_op_rooms m op) as Hr. destruct (apply_manager_op m op) as [rooms].
  cbn in Hr. subst rooms. destruct op; cbn [rooms_after]; try done.
  - case_bool_decide as H; [done|]. unfold member_at. cbn. destruct (decide (room = room_id)) as [->|Hne].
    + rewrite lookup_insert_eq. cbn. rewrite lookup_empty. destruct (rooms_ m !! room_id); [|done].
      destruct H. eauto.
    + by rewrite lookup_insert_ne.
  - apply member_at_alter_keep. intros r. unfold start_full_room. case_match; [|done].
    apply (room_op_members r (RStart true)).
  - apply member_at_alter_keep. intros r. apply (room_op_members r (RMove player_id dx dy)).
  - apply member_at_alter_keep. intros r. apply (room_op_members r (RAttack player_id target_player_id)).
  - unfold member_at. cbn. rewrite lookup_fmap. destruct (rooms_ m !! room) as [r|]; [|done].
    exact (f_equal (λ x, x !! p) (room_op_members r RTick)).
Qed.

Lemma manager_join_outcome live connection id name m :
  manager_inv m →
  let '(j, m') := manager_join live connection id name m in
  (mj_state j ≠ MG.success ∧ rooms_ m' = rooms_ m) ∨
  ∃ c r p, connection = Some c ∧ 1 <= zlen name <= MAX_PLAYER_NAME_SIZE ∧
    rooms_ m !! id = Some r ∧ room_state r = RSM.waiting ∧ member_count r < capacity_ r ∧
    mj_state j = MG.success ∧ mj_room_id j = id ∧ mj_player_id j = p ∧ 0 < p < 2 ^ 64 ∧
    mj_members j = member_info <$> hash_values (members_ r) ∧
    mj_notify j = connections live (room_join connection name r).2 p ∧
    member_at m id p = None ∧
    ∀ room q, member_at m' room q =
      if bool_decide ((room, q) = (id, p)) then Some (MkMember p name (Some c)) else member_at m room q.
Proof.
  intros Hm. unfold manager_join. destruct connection as [c|]; [|by left].
  destruct (rooms_ m !! id) as [r|] eqn:Hr; [|by left].
  destruct (room_join (Some c) name r) as [j r'] eqn:Hj.
  destruct (decide (jn_state j = RM.join_success)) as [Hs|Hs].
  - pose proof (mv_rooms m Hm id r Hr) as Hinv.
    destruct (room_join_success _ _ _ _ _ Hinv Hj Hs)
      as (? & [= <-] & Hn & Hw & Hsize & Hnext & Hfresh & -> & ->).
    right. exists c, r, (next_player_id_ r). cbn [jn_state snd].
    pose proof (rv_next r Hinv) as Hu. unfold u64_range in Hu.
    cbn [mj_state mj_room_id mj_player_id mj_members mj_notify jn_player_id jn_members].
    split_and!; try done; try lia; [by rewrite Hj|unfold member_at; by rewrite Hr|].
    intros room q. unfold member_at. cbn. destruct (decide (room = id)) as [->|Hne].
    + rewrite lookup_insert_eq. cbn. destruct (decide (q = next_player_id_ r)) as [->|Hq].
      * by rewrite lookup_insert_eq, bool_decide_true.
      * rewrite lookup_insert_ne, bool_decide_false by congruence. by rewrite Hr.
    + by rewrite lookup_insert_ne, bool_decide_false by congruence.
  - assert (r' = r) as -> by (unfold room_join in Hj; branches_in Hj; by simplify_eq).
    destruct (jn_state j) eqn:E; [done|..]; left; (split; [done|]; cbn; by apply insert_id).
Qed.

Lemma manager_leave_outcome live id p m :
  manager_inv m →
  let '(res, m') := manager_leave live id p m in
  (nr_state res = MG.success ↔ is_Some (member_at m id p)) ∧
  (nr_state res = MG.success ∨ nr_state res = MG.room_not_found ∨ nr_state res = MG.not_in_room) ∧
  ∀ room q, member_at m' room q =
    if bool_decide ((room, q) = (id, p)) then None else member_at m room q.
Proof.
  intros Hm. pose proof (manager_leave_rooms live id p m) as Hrooms.
  assert (Hst : (nr_state (manager_leave live id p m).1 = MG.success ↔ is_Some (member_at m id p)) ∧
    (nr_state (manager_leave live id p m).1 = MG.success ∨
     nr_state (manager_leave live id p m).1 = MG.room_not_found ∨
     nr_state (manager_leave live id p m).1 = MG.not_in_room)).
  { unfold manager_leave, member_at. destruct (rooms_ m !! id) as [r|] eqn:Hr; cbn.
    2: { split; [|auto]. split; [done|]. by intros []. }
    rewrite room_leave_outcome by by apply (mv_rooms m Hm id).
    unfold room_contains. destruct (members_ r !! p) eqn:E; cbn; (split; [|auto]); (split; [|done]); eauto.
    done. }
  destruct (manager_leave live id p m) as [res [rooms]]. cbn in Hrooms, Hst. subst rooms.
  destruct Hst as [Hst Hcases]. split_and!; [done|done|]. intros room q. rewrite member_at_alter.
  destruct (decide (room = id)) as [->|Hne].
  2: { by rewrite !bool_decide_false by congruence. }
  rewrite (bool_decide_true (id = id)) by done. unfold member_at.
  destruct (rooms_ m !! id) as [r|] eqn:Hr; cbn; [|by case_bool_decide].
  rewrite room_leave_outcome by by apply (mv_rooms m Hm id). cbn.
  unfold room_contains. destruct (members_ r !! p) eqn:E; cbn; case_bool_decide as Hq.
  - injection Hq as ->. by rewrite lookup_delete_eq.
  - rewrite lookup_delete_ne by congruence. done.
  - by injection Hq as ->.
  - done.
Qed.

(** Binding a member whose connection is gone. *)
Lemma manager_bind_outcome live id p c m mem :
  member_at m id p = Some mem → lock live (mb_connection mem) = None →
  ∃ r, rooms_ m !! id = Some r ∧ members_ r !! p = Some mem ∧
  let r' := set_connection p (Some c) r in
  manager_bind_connection live id p (Some c) m =
    (MkBindingResult MG.bind_success id p (room_state r) (tick_id_ r) (member_snapshot r') (game_snapshot r),
     update_room id r' m) ∧
  ∀ room q, member_at (update_room id r' m) room q =
    if bool_decide ((room, q) = (id, p)) then Some (MkMember (mb_player_id mem) (mb_player_name mem) (Some c))
    else member_at m room q.
Proof.
  unfold member_at. destruct (rooms_ m !! id) as [r|] eqn:Hr; [|done]. cbn. intros Hmem Hl.
  exists r. split_and!; [done|done| |].
  - unfold manager_bind_connection, room_bind_connection. by rewrite Hr, Hmem, Hl.
  - intros room q. destruct (decide (room = id)) as [->|Hne].
    2: { by rewrite lookup_insert_ne, bool_decide_false by congruence. }
    rewrite lookup_insert_eq. cbn. destruct (decide (q = p)) as [->|Hq].
    + by rewrite lookup_alter_eq, Hmem, bool_decide_true.
    + rewrite lookup_alter_ne, bool_decide_false by congruence. by rewrite Hr.
Qed.

(** Detaching a member from its current connection. *)
Lemma manager_detach_outcome live id p c m mem :
  member_at m id p = Some mem → mb_connection mem = Some c → c ∈ live →
  ∃ r, rooms_ m !! id = Some r ∧
  let r' := set_connection p None r in
  manager_detach_connection live id p (Some c) m =
    (MkMDetachResult MG.bind_success id p, update_room id r' m) ∧
  ∀ room q, member_at (update_room id r' m) room q =
    if bool_decide ((room, q) = (id, p)) then Some (disconnect mem) else member_at m room q.
Proof.
  unfold member_at. destruct (rooms_ m !! id) as [r|] eqn:Hr; [|done]. cbn. intros Hmem Hc Hl.
  exists r. split_and!; [done| |].
  - unfold manager_detach_connection, room_detach_connection. rewrite Hr, Hmem, Hc. cbn.
    rewrite bool_decide_true by done. cbn. by rewrite Z.eqb_refl.
  - intros room q. destruct (decide (room = id)) as [->|Hne].
    2: { by rewrite lookup_insert_ne, bool_decide_false by congruence. }
    rewrite lookup_insert_eq. cbn. destruct (decide (q = p)) as [->|Hq].
    + by rewrite lookup_alter_eq, Hmem, bool_decide_true.
    + rewrite lookup_alter_ne, bool_decide_false by congruence. by rewrite Hr.
Qed.

(** ** Checkpoints *)

Lemma make_checkpoint_ids r : rc_room_id (room_make_checkpoint r) = room_id_ r.
Proof. done. Qed.

Lemma restore_rooms_made l (temp : gmap Z Room) :
  Forall room_inv l → NoDup (room_id_ <$> l) →
  (∀ r, r ∈ l → temp !! room_id_ r = None) →
  restore_rooms (room_make_checkpoint <$> l) temp =
    Some (foldl (λ t r, <[room_id_ r := dormant r]> t) temp l).
Proof.
  revert temp. induction l as [|r l IH]; intros temp Hinv Hnd Hf; [done|].
  apply Forall_cons in Hinv as [Hr Hinv]. rewrite fmap_cons in Hnd. apply NoDup_cons in Hnd as [Hn Hnd].
  cbn [fmap list_fmap restore_rooms]. rewrite make_checkpoint_ids.
  change (rc_capacity (room_make_checkpoint r)) with (capacity_ r).
  pose proof (rv_capacity r Hr) as Hc. unfold u64_range in Hc.
  rewrite (proj2 (Z.ltb_ge _ _)) by lia. rewrite Hf by by left.
  rewrite restore_make_room by done. cbn [negb foldl]. apply IH; [done|done|].
  intros r' Hr'. rewrite lookup_insert_ne; [apply Hf; by right|].
  intros He. apply Hn. rewrite He. by apply list_elem_of_fmap_2.
Qed.

Lemma foldl_insert_lookup {V W} (key : V → Z) (f : V → W) (l : list V) (temp : gmap Z W) k :
  NoDup (key <$> l) →
  foldl (λ t r, <[key r := f r]> t) temp l !! k =
    match list_find (λ r, key r = k) l with
    | Some (_, r) => Some (f r)
    | None => temp !! k
    end.
Proof.
  revert temp. induction l as [|r l IH]; intros temp Hnd; [done|].
  rewrite fmap_cons in Hnd. apply NoDup_cons in Hnd as [Hn Hnd]. cbn [foldl list_find].
  rewrite IH by done. case_decide as Hk.
  - subst k. destruct (list_find _ l) as [[i r']|] eqn:E.
    + apply list_find_Some in E as (Hi & Heq & _). destruct Hn. rewrite <-Heq.
      apply list_elem_of_fmap_2. by eapply list_elem_of_lookup_2.
    + by rewrite lookup_insert_eq.
  - destruct (list_find _ l) as [[i r']|] eqn:E; cbn; [done|]. by rewrite lookup_insert_ne.
Qed.

Lemma restore_made_manager m m0 :
  manager_inv m →
  manager_restore_checkpoint (manager_make_checkpoint m) m0 =
    (true, MkRoomManager (dormant <$> rooms_ m)).
Proof.
  intros [Hk Hr]. unfold manager_restore_checkpoint, manager_make_checkpoint.
  assert (Hnd : NoDup (room_id_ <$> hash_values (rooms_ m))) by by apply hash_values_NoDup_key.
  assert (Hs : ∃ l, l ≡ₚ hash_values (rooms_ m) ∧
    sort_on rc_room_id Z.le (room_make_checkpoint <$> hash_values (rooms_ m)) =
      room_make_checkpoint <$> l).
  { pose proof (sort_on_perm rc_room_id Z.le (room_make_checkpoint <$> hash_values (rooms_ m))) as Hp.
    apply Permutation_map_inv in Hp as (l & Hl & Hp). exists l. by symmetry in Hp. }
  destruct Hs as (l & Hl & ->). rewrite restore_rooms_made.
  - do 2 f_equal. apply map_eq. intros k. rewrite foldl_insert_lookup by by rewrite Hl.
    rewrite lookup_fmap. destruct (list_find _ l) as [[i r]|] eqn:E.
    + apply list_find_Some in E as (Hi & Heq & _). apply list_elem_of_lookup_2 in Hi.
      rewrite Hl in Hi. apply elem_of_hash_values in Hi as (k' & Hk').
      rewrite (Hk _ _ Hk') in Heq. subst k'. by rewrite Hk'.
    + apply list_find_None in E. rewrite lookup_empty.
      destruct (rooms_ m !! k) as [r|] eqn:Hkr; [|done]. exfalso.
      rewrite Forall_forall in E. apply (E r); [|by apply Hk].
      rewrite Hl. apply elem_of_hash_values. by exists k.
  - rewrite Hl. apply Forall_forall. intros r (k & Hkr)%elem_of_hash_values. by apply (Hr k).
  - by rewrite Hl.
  - intros. apply lookup_empty.
Qed.

Lemma dormant_manager_inv m : manager_inv m → manager_inv (MkRoomManager (dormant <$> rooms_ m)).
Proof. intros. apply manager_inv_map; [done|apply dormant_inv|by destruct m]. Qed.
End refinement.

#[export] Hint Resolve RoomManager_new_inv apply_manager_op_inv dormant_manager_inv : lw_wf.

(** A full room with more places than a match has players stays closed for
    good: it never starts, and the join that filled it is undone. *)
Lemma oversized_room_never_starts {ho : HashOrder} id m r :
  rooms_ m !! id = Some r → room_state r = RSM.waiting → member_count r = capacity_ r →
  MAX_PLAYERS < capacity_ r → start_if_full id m = (MG.internal_error, m).
Proof.
  intros Hr Hw Hfull Hcap. unfold start_if_full. rewrite Hr, Hfull, Z.ltb_irrefl.
  rewrite room_start_oversized by (done || lia). destruct m as [rooms]. cbn in *.
  unfold update_room. cbn. by rewrite insert_id.
Qed.

(** * Properties *)

(** C30: The manager is a table of independent rooms: each of its operations is,
    on every branch and for every argument, one operation of the room it
    addresses and leaves all other rooms as they are; opening a room adds a
    new one only under an unused id; a room is started only when it is exactly
    full; and the tick advances every room once, in whatever order the table
    yields them. *)
Theorem manager_refines_rooms {ho : HashOrder} (op : manager_op) (m : RoomManager) :
  rooms_ (apply_manager_op m op) = rooms_after op (rooms_ m).
Proof. apply apply_manager_op_rooms. Qed.

(** In every run of the manager every room is consistent and filed under its
    own id. *)
Theorem manager_runs_consistent {ho : HashOrder} (ops : list manager_op) :
  Forall manager_op_typed ops → manager_inv (run_manager ops RoomManager_new).
Proof. intros. apply run_manager_inv; [done|apply RoomManager_new_inv]. Qed.

Lemma manager_runs_consistent_witness :
  let ops := [MAdd 1 2; MJoin ∅ (Some 10) 1 [x41]; MJoin ∅ (Some 11) 1 [x42]; MStartIfFull 1;
              MMove 1 2 0 1; MTick ∅] in
  manager_inv (run_manager (ho := canonical_order) ops RoomManager_new).
Proof.
  intros ops. apply (@manager_runs_consistent canonical_order ops). unfold ops.
  repeat constructor; (discriminate || reflexivity).
Defined.

(** A tick of all rooms reports each running room exactly once and no other:
    the reports are, up to the order of the table, one per running room, with
    the room's id, its new tick number, its counts and players, and the
    connections of its members that are alive. *)
Theorem tick_reports_running {ho : HashOrder} (live : gset Conn) (m : RoomManager) :
  let reports := (tick_rooms live m).1 in
  reports ≡ₚ omap (tick_outcome live ∘ snd) (map_to_list (rooms_ m)) ∧
  ∀ report, report ∈ reports ↔
    ∃ id r, rooms_ m !! id = Some r ∧ room_state r = RSM.running ∧
      let '(res, r') := tick r in
      report = MkMTickResult (room_id_ r) (tk_tick_id res) (tk_processed_commands res)
        (tk_successful_commands res) (tk_snapshot res) (connections live r' 0).
Proof.
  intros reports. assert (Hr : reports ≡ₚ omap (tick_outcome live ∘ snd) (map_to_list (rooms_ m))).
  { unfold reports. rewrite (proj1 (tick_rooms_spec live m)). by rewrite hash_iter_perm. }
  split; [done|]. intros report. rewrite Hr, list_elem_of_omap. split.
  - intros ([id r] & Hin%elem_of_map_to_list & Ho). exists id, r. unfold compose, tick_outcome in Ho.
    cbn [snd] in Ho. case_bool_decide; [|done]. split_and!; [done|done|].
    destruct (tick r). by injection Ho as <-.
  - intros (id & r & Hin & Hs & He). exists (id, r). split; [by apply elem_of_map_to_list|].
    unfold compose, tick_outcome. cbn [snd]. rewrite bool_decide_true by done.
    destruct (tick r). by rewrite He.
Qed.

(** The checkpoint of the rooms, restored into any manager, gives back all
    rooms as they were, without connections and pending commands, in a
    consistent table, whatever was in the manager before. *)
Theorem manager_checkpoint_roundtrip {ho : HashOrder} (m m0 : RoomManager) :
  manager_inv m →
  let '(ok, m') := manager_restore_checkpoint (manager_make_checkpoint m) m0 in
  ok = true ∧ rooms_ m' = dormant <$> rooms_ m ∧ manager_inv m'.
Proof. intros Hm. rewrite restore_made_manager by done. auto with lw_wf. Qed.

Lemma manager_checkpoint_roundtrip_witness :
  let m := run_manager (ho := canonical_order)
    [MAdd 1 1; MAdd 2 3; MJoin ∅ (Some 10) 1 [x41]; MStartIfFull 1] RoomManager_new in
  let '(ok, m') := manager_restore_checkpoint (ho := canonical_order)
                     (manager_make_checkpoint (ho := canonical_order) m) RoomManager_new in
  ok = true ∧ rooms_ m' = dormant <$> rooms_ m ∧ manager_inv m'.
Proof.
  intros m. apply (@manager_checkpoint_roundtrip canonical_order m RoomManager_new).
  apply run_manager_inv; [|apply RoomManager_new_inv].
  repeat constructor; (discriminate || reflexivity).
Defined.
