(* ===== verification/Session.v ===== *)
(** [src/src/session.cpp]: the session of one player: its identity, whether it
    is online and on which connection, and until when an offline player may
    come back. *)

From S2P Require Import Prelude Connection.

Module SS.
Inductive States : Type := online | offline.

#[global] Instance States_eq_dec : EqDecision States.
Proof. solve_decision. Defined.
End SS.

(** * Definitions *)

Record Session : Type := MkSession {
  se_room_id : Z;
  se_player_id : Z;
  se_state : SS.States;
  se_connection : WeakPtr;
  se_offline_deadline : Z
}.

(** The two constructors; the first leaves the deadline at the clock's epoch. *)
Definition Session_online (room_id player_id : Z) (connection : ConnectionPtr) : Session :=
  MkSession room_id player_id SS.online connection 0.
Definition Session_offline (room_id player_id offline_deadline : Z) : Session :=
  MkSession room_id player_id SS.offline None offline_deadline.

Definition session_connection (live : gset Conn) (s : Session) : ConnectionPtr :=
  lock live (se_connection s).

Definition matches (live : gset Conn) (connection : ConnectionPtr) (s : Session) : bool :=
  if negb (bool_decide (se_state s = SS.online)) then false
  else match connection with
  | None => false
  | Some c =>
    match lock live (se_connection s) with
    | None => false
    | Some cur => cur =? c
    end
  end.

Definition session_bind (connection : ConnectionPtr) (now : Z) (s : Session) : bool * Session :=
  match connection with
  | None => (false, s)
  | Some c =>
    if negb (bool_decide (se_state s = SS.offline)) then (false, s)
    else if se_offline_deadline s <=? now then (false, s)
    else (true, MkSession (se_room_id s) (se_player_id s) SS.online (Some c) (se_offline_deadline s))
  end.

Definition session_detach (live : gset Conn) (connection : ConnectionPtr) (offline_deadline : Z)
    (s : Session) : bool * Session :=
  match connection with
  | None => (false, s)
  | Some _ =>
    if negb (bool_decide (se_state s = SS.online)) then (false, s)
    else if negb (matches live connection s) then (false, s)
    else (true, MkSession (se_room_id s) (se_player_id s) SS.offline None offline_deadline)
  end.

Definition expired (now : Z) (s : Session) : bool :=
  if negb (bool_decide (se_state s = SS.offline)) then false
  else se_offline_deadline s <=? now.

(** * Proofs *)

Lemma lock_live live c : c ∈ live → lock live (Some c) = Some c.
Proof. intros. cbn. by rewrite bool_decide_true. Qed.

(** Detaching the current connection of an online session. *)
Lemma session_detach_online live c deadline s :
  se_state s = SS.online → se_connection s = Some c → c ∈ live →
  session_detach live (Some c) deadline s =
    (true, Session_offline (se_room_id s) (se_player_id s) deadline).
Proof.
  intros Hs Hc Hl. unfold session_detach, matches. rewrite Hs, Hc, lock_live by done.
  cbn. by rewrite Z.eqb_refl.
Qed.

(** Binding an offline session that has not expired. *)
Lemma session_bind_offline c now s :
  se_state s = SS.offline → expired now s = false →
  session_bind (Some c) now s =
    (true, MkSession (se_room_id s) (se_player_id s) SS.online (Some c) (se_offline_deadline s)).
Proof.
  unfold session_bind, expired. intros Hs Hx. rewrite bool_decide_true in * by done.
  cbn in *. by rewrite Hx.
Qed.
