(* ===== verification/SessionManager.v ===== *)
(** [src/src/session_manager.cpp]: all sessions by token, and the token of each
    bound connection. The bytes of [getrandom] are a list of results that the
    kernel hands out, one per call. *)

From S2P Require Import Prelude Connection Checkpoint CheckpointCodec Session.

Module SM.
Inductive States : Type :=
| success | wrong_thread | invalid_connection | already_bound | invalid_token | session_online
| session_expired | session_not_expired | not_bound | internal_error.

#[global] Instance States_eq_dec : EqDecision States.
Proof. solve_decision. Defined.
End SM.

(** * Definitions *)

(** ** Tokens *)

Definition TOKEN_SIZE : Z := 32.

(** [getrandom] fills at least one byte of what was asked for, is interrupted,
    or fails. *)
Inductive random_result : Type :=
| RandomBytes (first : byte) (more : bytes)
| RandomEintr
| RandomFail.

(** The filling loop; [None] is the empty string it returns on failure. A list
    that runs out counts as a failure. *)
Fixpoint fill_random (results : list random_result) (filled : bytes) : option bytes * list random_result :=
  if (zlen filled <? TOKEN_SIZE / 2) then
    match results with
    | [] => (None, [])
    | RandomBytes first more :: results =>
        fill_random results (filled ++ take (Z.to_nat (TOKEN_SIZE / 2) - length filled) (first :: more))
    | RandomEintr :: results => fill_random results filled
    | RandomFail :: results => (None, results)
    end
  else (Some filled, results).

Definition hex_digit (n : Z) : byte := byte_of_Z (if n <? 10 then 48 + n else 87 + n).
Definition byte_hex (b : byte) : bytes :=
  [hex_digit (Z.land (Z.shiftr (byte_to_Z b) 4) 15); hex_digit (Z.land (byte_to_Z b) 15)].

Definition generate_token (results : list random_result) : bytes * list random_result :=
  let '(filled, results) := fill_random results [] in
  (match filled with None => [] | Some bs => concat (byte_hex <$> bs) end, results).

(** ** The manager *)

Record SessionManager : Type := MkSessionManager {
  reconnect_timeout_ : Z;
  sessions_ : gmap bytes Session;
  bindings_ : gmap Z bytes
}.

Record CreateResult : Type := MkCreateResult {
  ct_state : SM.States;
  ct_token : bytes;
  ct_room_id : Z;
  ct_player_id : Z
}.
Record IdentityResult : Type := MkIdentityResult {
  id_state : SM.States;
  id_token : bytes;
  id_room_id : Z;
  id_player_id : Z
}.
Record ResumeResult : Type := MkResumeResult {
  rs_state : SM.States;
  rs_room_id : Z;
  rs_player_id : Z
}.
Record ExpiredSession : Type := MkExpiredSession {
  ex_token : bytes;
  ex_room_id : Z;
  ex_player_id : Z
}.

Definition SessionManager_new (reconnect_timeout : Z) : SessionManager :=
  MkSessionManager reconnect_timeout ∅ ∅.

Definition with_tables (m : SessionManager) (sessions : gmap bytes Session) (bindings : gmap Z bytes)
    : SessionManager := MkSessionManager (reconnect_timeout_ m) sessions bindings.

Definition create (results : list random_result) (connection : ConnectionPtr) (room_id player_id : Z)
    (m : SessionManager) : CreateResult * list random_result * SessionManager :=
  let failed state := MkCreateResult state [] 0 0 in
  match connection with
  | None => (failed SM.invalid_connection, results, m)
  | Some c =>
    match bindings_ m !! c with
    | Some _ => (failed SM.already_bound, results, m)
    | None =>
      let '(token, results) := generate_token results in
      if bool_decide (token = []) then (failed SM.internal_error, results, m)
      else match sessions_ m !! token with
      | Some _ => (failed SM.internal_error, results, m)
      | None =>
          (MkCreateResult SM.success token room_id player_id, results,
           with_tables m (<[token := Session_online room_id player_id connection]> (sessions_ m))
             (<[c := token]> (bindings_ m)))
      end
    end
  end.

Definition lookup_session (connection : ConnectionPtr) (m : SessionManager) : IdentityResult :=
  let failed state := MkIdentityResult state [] 0 0 in
  match connection with
  | None => failed SM.invalid_connection
  | Some c =>
    match bindings_ m !! c with
    | None => failed SM.not_bound
    | Some token =>
      match sessions_ m !! token with
      | None => failed SM.internal_error
      | Some s => MkIdentityResult SM.success token (se_room_id s) (se_player_id s)
      end
    end
  end.

Definition resume (connection : ConnectionPtr) (token : bytes) (now : Z) (m : SessionManager)
    : ResumeResult * SessionManager :=
  let failed state := MkResumeResult state 0 0 in
  match connection with
  | None => (failed SM.invalid_connection, m)
  | Some c =>
    match bindings_ m !! c with
    | Some _ => (failed SM.already_bound, m)
    | None =>
      match sessions_ m !! token with
      | None => (failed SM.invalid_token, m)
      | Some session =>
        if negb (bool_decide (se_state session = SS.offline)) then (failed SM.session_online, m)
        else if expired now session then (failed SM.session_expired, m)
        else
          let bindings := <[c := token]> (bindings_ m) in
          let '(bound, session) := session_bind connection now session in
          let sessions := <[token := session]> (sessions_ m) in
          if negb bound then (failed SM.internal_error, with_tables m sessions (delete c bindings))
          else (MkResumeResult SM.success (se_room_id session) (se_player_id session),
                with_tables m sessions bindings)
      end
    end
  end.

Definition rollback_resume (live : gset Conn) (connection : ConnectionPtr) (m : SessionManager)
    : SM.States * SessionManager :=
  match connection with
  | None => (SM.invalid_connection, m)
  | Some c =>
    match bindings_ m !! c with
    | None => (SM.not_bound, m)
    | Some token =>
      match sessions_ m !! token with
      | None => (SM.internal_error, m)
      | Some session =>
        let '(detached, session) :=
          session_detach live connection (se_offline_deadline session) session in
        let sessions := <[token := session]> (sessions_ m) in
        if negb detached then (SM.internal_error, with_tables m sessions (bindings_ m))
        else (SM.success, with_tables m sessions (delete c (bindings_ m)))
      end
    end
  end.

Definition detach (live : gset Conn) (connection : ConnectionPtr) (now : Z) (m : SessionManager)
    : IdentityResult * SessionManager :=
  let failed state := MkIdentityResult state [] 0 0 in
  match connection with
  | None => (failed SM.invalid_connection, m)
  | Some c =>
    match bindings_ m !! c with
    | None => (failed SM.not_bound, m)
    | Some token =>
      match sessions_ m !! token with
      | None => (failed SM.internal_error, m)
      | Some session =>
        let '(detached, session) :=
          session_detach live connection (now + reconnect_timeout_ m) session in
        let sessions := <[token := session]> (sessions_ m) in
        if negb detached then (failed SM.internal_error, with_tables m sessions (bindings_ m))
        else (MkIdentityResult SM.success token (se_room_id session) (se_player_id session),
              with_tables m sessions (delete c (bindings_ m)))
      end
    end
  end.

Definition erase_by_connection (connection : ConnectionPtr) (m : SessionManager)
    : SM.States * SessionManager :=
  match connection with
  | None => (SM.invalid_connection, m)
  | Some c =>
    match bindings_ m !! c with
    | None => (SM.not_bound, m)
    | Some token =>
      match sessions_ m !! token with
      | None => (SM.internal_error, m)
      | Some _ =>
          (SM.success, with_tables m (delete token (sessions_ m)) (delete c (bindings_ m)))
      end
    end
  end.

Definition expired_sessions {ho : HashOrder} (now : Z) (m : SessionManager) : list ExpiredSession :=
  omap (λ '(token, session),
    if negb (bool_decide (se_state session = SS.offline)) || negb (expired now session) then None
    else Some (MkExpiredSession token (se_room_id session) (se_player_id session)))
    (hash_iter (sessions_ m)).

Definition erase_expired (token : bytes) (now : Z) (m : SessionManager) : SM.States * SessionManager :=
  match sessions_ m !! token with
  | None => (SM.invalid_token, m)
  | Some session =>
    if negb (bool_decide (se_state session = SS.offline)) then (SM.session_online, m)
    else if negb (expired now session) then (SM.session_not_expired, m)
    else (SM.success, with_tables m (delete token (sessions_ m)) (bindings_ m))
  end.

(** ** Checkpoints *)

Definition session_make_checkpoint {ho : HashOrder} (m : SessionManager) : list SessionCheckpoint :=
  sort_on sc_token bytes_le
    ((λ '(token, session), MkSessionCheckpoint token (se_room_id session) (se_player_id session))
       <$> hash_iter (sessions_ m)).

Definition same_identity (checkpoint : SessionCheckpoint) (session : Session) : bool :=
  (se_room_id session =? sc_room_id checkpoint) && (se_player_id session =? sc_player_id checkpoint).

Fixpoint restore_sessions {ho : HashOrder} (checkpoints : list SessionCheckpoint) (deadline : Z)
    (temp_sessions : gmap bytes Session) : option (gmap bytes Session) :=
  match checkpoints with
  | [] => Some temp_sessions
  | checkpoint :: checkpoints =>
      if negb (zlen (sc_token checkpoint) =? TOKEN_SIZE) then None
      else if negb (forallb is_lower_hex (sc_token checkpoint)) then None
      else match temp_sessions !! sc_token checkpoint with
      | Some _ => None
      | None =>
        if existsb (same_identity checkpoint) (hash_values temp_sessions) then None
        else restore_sessions checkpoints deadline
               (<[sc_token checkpoint :=
                  Session_offline (sc_room_id checkpoint) (sc_player_id checkpoint) deadline]>
                temp_sessions)
      end
  end.

Definition session_restore_checkpoint {ho : HashOrder} (checkpoints : list SessionCheckpoint) (now : Z)
    (m : SessionManager) : bool * SessionManager :=
  let deadline := now + reconnect_timeout_ m in
  match restore_sessions checkpoints deadline ∅ with
  | None => (false, m)
  | Some temp_sessions => (true, with_tables m temp_sessions ∅)
  end.

(** ** Specification *)

(** Bindings and online sessions correspond one to one, offline sessions have
    no connection, and tokens have the form the protocol promises. *)
Record sm_inv (m : SessionManager) : Prop := {
  sv_bound : ∀ c token, bindings_ m !! c = Some token →
    ∃ s, sessions_ m !! token = Some s ∧ se_state s = SS.online ∧ se_connection s = Some c;
  sv_online : ∀ token s, sessions_ m !! token = Some s → se_state s = SS.online →
    ∃ c, se_connection s = Some c ∧ bindings_ m !! c = Some token;
  sv_offline : ∀ token s, sessions_ m !! token = Some s → se_state s = SS.offline →
    se_connection s = None;
  sv_token : ∀ token s, sessions_ m !! token = Some s → valid_session_token token = true
}.

Definition se_identity (s : Session) : Z * Z := (se_room_id s, se_player_id s).

(** No two sessions stand for the same player. *)
Definition identities_unique (m : SessionManager) : Prop :=
  ∀ t1 t2 s1 s2, sessions_ m !! t1 = Some s1 → sessions_ m !! t2 = Some s2 →
    se_identity s1 = se_identity s2 → t1 = t2.

(** The operations that change the manager; [live] is the set of connections
    that exist at that moment. *)
Inductive sm_op : Type :=
| SCreate (results : list random_result) (connection : ConnectionPtr) (room_id player_id : Z)
| SResume (connection : ConnectionPtr) (token : bytes) (now : Z)
| SRollback (live : gset Conn) (connection : ConnectionPtr)
| SDetach (live : gset Conn) (connection : ConnectionPtr) (now : Z)
| SEraseConnection (connection : ConnectionPtr)
| SEraseExpired (token : bytes) (now : Z).

Definition apply_sm_op (m : SessionManager) (op : sm_op) : SessionManager :=
  match op with
  | SCreate results connection room_id player_id => (create results connection room_id player_id m).2
  | SResume connection token now => (resume connection token now m).2
  | SRollback live connection => (rollback_resume live connection m).2
  | SDetach live connection now => (detach live connection now m).2
  | SEraseConnection connection => (erase_by_connection connection m).2
  | SEraseExpired token now => (erase_expired token now m).2
  end.
Definition run_sm (ops : list sm_op) (m : SessionManager) : SessionManager := foldl apply_sm_op m ops.

(** The session a checkpoint entry restores. *)
Definition offline_of (deadline : Z) (c : SessionCheckpoint) : Session :=
  Session_offline (sc_room_id c) (sc_player_id c) deadline.

(** * Proofs *)

(** ** Tokens *)

Lemma hex_digit_lower n : 0 <= n < 16 → is_lower_hex (hex_digit n) = true.
Proof.
  intros Hn. assert (Hin : n ∈ seqZ 0 16) by (apply elem_of_seqZ; lia). clear Hn. revert n Hin.
  apply Forall_forall. vm_compute. repeat constructor.
Qed.

Lemma land_15_range z : 0 <= Z.land z 15 < 16.
Proof. change 15 with (Z.ones 4). rewrite Z.land_ones by lia. by apply Z.mod_pos_bound. Qed.

Lemma byte_hex_lower b : forallb is_lower_hex (byte_hex b) = true.
Proof. unfold byte_hex. cbn [forallb]. rewrite !hex_digit_lower by apply land_15_range. done. Qed.

(** The byte two digits stand for. *)
Definition hex_value (d : byte) : Z :=
  let z := byte_to_Z d in if z <? 97 then z - 48 else z - 87.
Fixpoint unhex (ds : bytes) : bytes :=
  match ds with
  | h :: l :: ds => byte_of_Z (16 * hex_value h + hex_value l) :: unhex ds
  | _ => []
  end.

Lemma unhex_byte b ds : unhex (byte_hex b ++ ds) = b :: unhex ds.
Proof. destruct b; reflexivity. Qed.

Lemma unhex_hex bs : unhex (concat (byte_hex <$> bs)) = bs.
Proof. induction bs as [|b bs IH]; [done|]. cbn [fmap list_fmap concat]. by rewrite unhex_byte, IH. Qed.

Lemma hex_length bs : length (concat (byte_hex <$> bs)) = (2 * length bs)%nat.
Proof. induction bs as [|b bs IH]; [done|]. cbn. rewrite IH. lia. Qed.

Lemma hex_lower bs : forallb is_lower_hex (concat (byte_hex <$> bs)) = true.
Proof.
  induction bs as [|b bs IH]; [done|]. cbn [fmap list_fmap concat].
  by rewrite forallb_app, byte_hex_lower, IH.
Qed.

Lemma fill_random_length results filled bs :
  zlen filled <= TOKEN_SIZE / 2 → (fill_random results filled).1 = Some bs → zlen bs = TOKEN_SIZE / 2.
Proof.
  revert filled. induction results as [|r results IH]; intros filled Hf; cbn [fill_random];
    (destruct (Z.ltb_spec (zlen filled) (TOKEN_SIZE / 2)); [|intros [= <-]; lia]).
  - done.
  - destruct r; cbn [fst]; [|by apply IH|done]. apply IH.
    unfold zlen in *. rewrite length_app, length_take. lia.
Qed.

Lemma generate_token_cases results :
  (generate_token results).1 = [] ∨
  ∃ bs, zlen bs = TOKEN_SIZE / 2 ∧ (generate_token results).1 = concat (byte_hex <$> bs).
Proof.
  unfold generate_token. pose proof (fill_random_length results []) as Hl.
  destruct (fill_random results []) as [[bs|] rest]; cbn; [|by left].
  right. exists bs. split; [|done]. by apply Hl.
Qed.

Lemma hex_token_valid bs :
  zlen bs = TOKEN_SIZE / 2 → valid_session_token (concat (byte_hex <$> bs)) = true.
Proof.
  intros Hl. unfold valid_session_token, zlen in *. rewrite hex_length.
  unfold TOKEN_SIZE, SESSION_TOKEN_SIZE in *.
  rewrite (proj2 (Z.eqb_eq _ _)) by (change (32 / 2) with 16 in Hl; lia). apply hex_lower.
Qed.

Lemma generate_token_valid results :
  (generate_token results).1 ≠ [] → valid_session_token (generate_token results).1 = true.
Proof.
  destruct (generate_token_cases results) as [->|(bs & Hl & ->)]; [done|]. intros _.
  by apply hex_token_valid.
Qed.

(** ** The invariant *)

Lemma SessionManager_new_inv timeout : sm_inv (SessionManager_new timeout).
Proof. split; cbn; intros *; by rewrite lookup_empty. Qed.

(** Replaces the session of a bound connection. *)
Lemma bound_session m c token :
  sm_inv m → bindings_ m !! c = Some token →
  ∃ room player deadline, sessions_ m !! token = Some (MkSession room player SS.online (Some c) deadline).
Proof.
  intros Hm Hc. destruct (sv_bound m Hm c token Hc) as ([room player st w deadline] & Hs & He & Hw).
  cbn in *. subst. eauto.
Qed.

(** One connection per bound token. *)
Lemma bound_unique m c c' token :
  sm_inv m → bindings_ m !! c = Some token → bindings_ m !! c' = Some token → c = c'.
Proof.
  intros Hm Hc Hc'. destruct (bound_session m c token Hm Hc) as (? & ? & ? & Hs).
  destruct (bound_session m c' token Hm Hc') as (? & ? & ? & Hs'). congruence.
Qed.

(** A session goes offline and its binding disappears. *)
Lemma unbind_inv m c token room player deadline :
  sm_inv m → bindings_ m !! c = Some token →
  sm_inv (with_tables m (<[token := Session_offline room player deadline]> (sessions_ m))
            (delete c (bindings_ m))).
Proof.
  intros Hm Hc. pose proof (bound_unique m) as Hu. pose proof Hm as [Hb Hon Hoff Htok].
  destruct (Hb c token Hc) as (s0 & Hs0 & _). split; cbn.
  - intros c' token' [Hne Hc']%lookup_delete_Some.
    destruct (decide (token' = token)) as [->|Ht].
    { destruct Hne. by apply (Hu c c' token). }
    rewrite lookup_insert_ne by done. by apply Hb.
  - intros token' s [[<- <-]|[Hne Hs]]%lookup_insert_Some Hst; [done|].
    destruct (Hon token' s Hs Hst) as (c' & Hw & Hc'). exists c'. split; [done|].
    rewrite lookup_delete_ne; [done|]. intros ->. congruence.
  - intros token' s [[<- <-]|[Hne Hs]]%lookup_insert_Some Hst; [done|]. by apply (Hoff token').
  - intros token' s [[<- <-]|[Hne Hs]]%lookup_insert_Some; [by apply (Htok _ s0)|by apply (Htok _ s)].
Qed.

(** An offline or new session goes online on an unbound connection. *)
Lemma bind_inv m c token s :
  sm_inv m → bindings_ m !! c = None → valid_session_token token = true →
  (∀ s0, sessions_ m !! token = Some s0 → se_state s0 = SS.offline) →
  se_state s = SS.online → se_connection s = Some c →
  sm_inv (with_tables m (<[token := s]> (sessions_ m)) (<[c := token]> (bindings_ m))).
Proof.
  intros [Hb Hon Hoff Htok] Hc Hv Hs0 Hst Hw. split; cbn.
  - intros c' token' [[<- <-]|[Hne Hc']]%lookup_insert_Some.
    { exists s. by rewrite lookup_insert_eq. }
    destruct (Hb c' token' Hc') as (s' & Hs' & He & Hw'). exists s'. split; [|done].
    rewrite lookup_insert_ne; [done|]. intros ->. specialize (Hs0 _ Hs'). congruence.
  - intros token' s' [[<- <-]|[Hne Hs']]%lookup_insert_Some He.
    { exists c. by rewrite lookup_insert_eq. }
    destruct (Hon token' s' Hs' He) as (c' & Hw' & Hc'). exists c'. split; [done|].
    rewrite lookup_insert_ne; [done|]. intros ->. congruence.
  - intros token' s' [[<- <-]|[Hne Hs']]%lookup_insert_Some He; [congruence|]. by apply (Hoff token').
  - intros token' s' [[<- <-]|[Hne Hs']]%lookup_insert_Some; [done|]. by apply (Htok _ s').
Qed.

(** A session disappears with its binding, if it has one. *)
Lemma erase_inv m token bindings :
  sm_inv m →
  (∀ c t, bindings !! c = Some t ↔ bindings_ m !! c = Some t ∧ t ≠ token) →
  sm_inv (with_tables m (delete token (sessions_ m)) bindings).
Proof.
  intros [Hb Hon Hoff Htok] Hbind. split; cbn.
  - intros c t [Hc Ht]%Hbind. rewrite lookup_delete_ne by done. by apply Hb.
  - intros t s [Hne Hs]%lookup_delete_Some He. destruct (Hon t s Hs He) as (c & Hw & Hc).
    exists c. split; [done|]. apply Hbind. by split.
  - intros t s [_ Hs]%lookup_delete_Some. by apply (Hoff t).
  - intros t s [_ Hs]%lookup_delete_Some. by apply (Htok t s).
Qed.

(** ** The outcome of each operation *)

Lemma with_tables_id m : with_tables m (sessions_ m) (bindings_ m) = m.
Proof. by destruct m. Qed.

Lemma create_cases results connection room player m r rest m' :
  create results connection room player m = (r, rest, m') →
  (ct_state r ≠ SM.success ∧ m' = m) ∨
  ∃ c token, connection = Some c ∧ bindings_ m !! c = None ∧ sessions_ m !! token = None ∧
    (generate_token results).1 = token ∧ token ≠ [] ∧
    r = MkCreateResult SM.success token room player ∧
    m' = with_tables m (<[token := Session_online room player (Some c)]> (sessions_ m))
           (<[c := token]> (bindings_ m)).
Proof.
  unfold create. destruct connection as [c|]; [|naive_solver].
  destruct (bindings_ m !! c) eqn:Hb; [naive_solver|].
  destruct (generate_token results) as [token rest'] eqn:Hg. case_bool_decide as Ht; [naive_solver|].
  destruct (sessions_ m !! token) eqn:Hs; [naive_solver|].
  intros [= <- <- <-]. right. exists c, token. done.
Qed.

Lemma resume_cases connection token now m :
  ((resume connection token now m).1.(rs_state) ≠ SM.success ∧ (resume connection token now m).2 = m) ∨
  ∃ c s, connection = Some c ∧ bindings_ m !! c = None ∧ sessions_ m !! token = Some s ∧
    se_state s = SS.offline ∧ now < se_offline_deadline s ∧
    resume connection token now m =
      (MkResumeResult SM.success (se_room_id s) (se_player_id s),
       with_tables m (<[token := MkSession (se_room_id s) (se_player_id s) SS.online (Some c)
                                   (se_offline_deadline s)]> (sessions_ m))
         (<[c := token]> (bindings_ m))).
Proof.
  unfold resume. destruct connection as [c|]; [|by left].
  destruct (bindings_ m !! c) eqn:Hb; [by left|]. destruct (sessions_ m !! token) as [s|] eqn:Hs; [|by left].
  case_bool_decide as Hst; cbn [negb]; [|by left].
  destruct (expired now s) eqn:Hx; [by left|]. rewrite session_bind_offline by done. cbn [negb].
  right. exists c, s. split_and!; try done. unfold expired in Hx. rewrite bool_decide_true in Hx by done.
  cbn in Hx. to_prop. lia.
Qed.

(** Detaching, with either deadline. *)
Lemma detach_session_cases live c token deadline m :
  sm_inv m → bindings_ m !! c = Some token →
  ∃ room player old, sessions_ m !! token = Some (MkSession room player SS.online (Some c) old) ∧
    session_detach live (Some c) deadline (MkSession room player SS.online (Some c) old) =
      if bool_decide (c ∈ live) then (true, Session_offline room player deadline)
      else (false, MkSession room player SS.online (Some c) old).
Proof.
  intros Hm Hc. destruct (bound_session m c token Hm Hc) as (room & player & old & Hs).
  exists room, player, old. split; [done|]. case_bool_decide as Hl.
  - by apply session_detach_online.
  - unfold session_detach, matches. cbn. by rewrite (bool_decide_false (c ∈ live)).
Qed.

Lemma detach_bound live c token now m :
  sm_inv m → bindings_ m !! c = Some token → c ∈ live →
  ∃ room player old, sessions_ m !! token = Some (MkSession room player SS.online (Some c) old) ∧
    detach live (Some c) now m =
      (MkIdentityResult SM.success token room player,
       with_tables m (<[token := Session_offline room player (now + reconnect_timeout_ m)]> (sessions_ m))
         (delete c (bindings_ m))).
Proof.
  intros Hm Hc Hl. destruct (detach_session_cases live c token (now + reconnect_timeout_ m) m Hm Hc)
    as (room & player & old & Hs & Hd). exists room, player, old. split; [done|].
  unfold detach. rewrite Hc, Hs, Hd. by rewrite bool_decide_true.
Qed.

Lemma rollback_bound live c token m :
  sm_inv m → bindings_ m !! c = Some token → c ∈ live →
  ∃ room player old, sessions_ m !! token = Some (MkSession room player SS.online (Some c) old) ∧
    rollback_resume live (Some c) m =
      (SM.success,
       with_tables m (<[token := Session_offline room player old]> (sessions_ m))
         (delete c (bindings_ m))).
Proof.
  intros Hm Hc Hl. destruct (bound_session m c token Hm Hc) as (room & player & old & Hs).
  exists room, player, old. split; [done|]. unfold rollback_resume. rewrite Hc, Hs.
  cbn [se_offline_deadline]. by rewrite session_detach_online.
Qed.

Lemma stay_inv m token s :
  sm_inv m → sessions_ m !! token = Some s →
  sm_inv (with_tables m (<[token := s]> (sessions_ m)) (bindings_ m)).
Proof. intros Hm Hs. by rewrite insert_id, with_tables_id. Qed.

Lemma lookup_session_bound m c :
  sm_inv m →
  lookup_session (Some c) m =
    match bindings_ m !! c with
    | None => MkIdentityResult SM.not_bound [] 0 0
    | Some token =>
      match sessions_ m !! token with
      | None => MkIdentityResult SM.internal_error [] 0 0
      | Some s => MkIdentityResult SM.success token (se_room_id s) (se_player_id s)
      end
    end.
Proof. done. Qed.

Lemma apply_sm_op_inv op m : sm_inv m → sm_inv (apply_sm_op m op).
Proof.
  intros Hm. destruct op; cbn.
  - destruct (create results connection room_id player_id m) as [[r rest] m'] eqn:E. cbn.
    apply create_cases in E as [[_ ->]|(c & token & -> & Hc & Hs & Hg & Hne & _ & ->)]; [done|].
    apply bind_inv; try done; [subst token; by apply generate_token_valid|].
    intros s0 Hs0. congruence.
  - destruct (resume_cases connection token now m) as [[_ ->]|(c & s & -> & Hc & Hs & Hst & _ & ->)]; [done|].
    apply bind_inv; try done; [by apply (sv_token m Hm token s)|]. intros s0 Hs0. congruence.
  - unfold rollback_resume. destruct connection as [c|]; [|done].
    destruct (bindings_ m !! c) as [token|] eqn:Hc; [|done].
    destruct (bound_session m c token Hm Hc) as (room & player & old & Hs). rewrite Hs.
    destruct (detach_session_cases live c token old m Hm Hc) as (? & ? & ? & Hs' & Hd).
    rewrite Hs in Hs'. injection Hs' as <- <- <-. cbn [se_offline_deadline]. rewrite Hd.
    case_bool_decide; cbn; [by apply unbind_inv|by apply stay_inv].
  - unfold detach. destruct connection as [c|]; [|done].
    destruct (bindings_ m !! c) as [token|] eqn:Hc; [|done].
    destruct (detach_session_cases live c token (now + reconnect_timeout_ m) m Hm Hc)
      as (room & player & old & Hs & Hd). rewrite Hs, Hd.
    case_bool_decide; cbn; [by apply unbind_inv|by apply stay_inv].
  - unfold erase_by_connection. destruct connection as [c|]; [|done].
    destruct (bindings_ m !! c) as [token|] eqn:Hc; [|done].
    destruct (bound_session m c token Hm Hc) as (? & ? & ? & Hs). rewrite Hs. cbn.
    apply erase_inv; [done|]. intros c' t. rewrite lookup_delete_Some. split.
    + intros [Hne Hc']. split; [done|]. intros ->. destruct Hne. by apply (bound_unique m c c' token).
    + intros [Hc' Hne]. split; [|done]. intros ->. congruence.
  - unfold erase_expired. destruct (sessions_ m !! token) as [s|] eqn:Hs; [|done].
    case_bool_decide as Hst; cbn [negb]; [|done]. destruct (expired now s); cbn; [|done].
    apply erase_inv; [done|]. intros c t. split; [|tauto]. intros Hc. split; [done|]. intros ->.
    destruct (bound_session m c token Hm Hc) as (? & ? & ? & Hs'). rewrite Hs in Hs'. by simplify_eq.
Qed.

Lemma run_sm_inv ops m : sm_inv m → sm_inv (run_sm ops m).
Proof.
  unfold run_sm. revert m. induction ops as [|op ops IH]; intros m Hm; cbn; [done|].
  by apply IH, apply_sm_op_inv.
Qed.

(** ** Identities *)

Lemma identities_unique_new timeout : identities_unique (SessionManager_new timeout).
Proof. intros t1 t2 s1 s2 H. cbn in H. by rewrite lookup_empty in H. Qed.

(** A session for a new player keeps identities unique. *)
Lemma create_identities results connection room player m :
  identities_unique m →
  (∀ t s, sessions_ m !! t = Some s → se_identity s ≠ (room, player)) →
  identities_unique (create results connection room player m).2.
Proof.
  intros Hu Hnew. destruct (create results connection room player m) as [[r rest] m'] eqn:E.
  apply create_cases in E as [[_ ->]|(c & token & -> & _ & _ & _ & _ & _ & ->)]; [done|].
  intros t1 t2 s1 s2. cbn. intros [[<- <-]|[? H1]]%lookup_insert_Some [[<- <-]|[? H2]]%lookup_insert_Some He; try done.
  - by destruct (Hnew t2 s2 H2).
  - by destruct (Hnew t1 s1 H1).
  - by apply (Hu t1 t2 s1 s2).
Qed.

(** Any other change of the tables that keeps the identity of every token. *)
Lemma same_identities m m' :
  (∀ t s, sessions_ m' !! t = Some s → ∃ s0, sessions_ m !! t = Some s0 ∧ se_identity s0 = se_identity s) →
  identities_unique m → identities_unique m'.
Proof.
  intros Hsame Hu t1 t2 s1 s2 (s1' & H1 & He1)%Hsame (s2' & H2 & He2)%Hsame He.
  apply (Hu t1 t2 s1' s2'); congruence.
Qed.

(** ** Checkpoints *)

Section checkpoint.
Context {ho : HashOrder}.

Definition session_record_of (e : bytes * Session) : SessionCheckpoint :=
  MkSessionCheckpoint e.1 (se_room_id e.2) (se_player_id e.2).

Lemma session_make_checkpoint_eq m :
  session_make_checkpoint m = sort_on sc_token bytes_le (session_record_of <$> hash_iter (sessions_ m)).
Proof. unfold session_make_checkpoint. f_equal. apply list_fmap_ext. by intros i [t s]. Qed.

Lemma session_make_checkpoint_perm m :
  session_make_checkpoint m ≡ₚ session_record_of <$> hash_iter (sessions_ m).
Proof. rewrite session_make_checkpoint_eq. apply sort_on_perm. Qed.

Lemma elem_of_session_checkpoint m c :
  c ∈ session_make_checkpoint m ↔
    ∃ s, sessions_ m !! sc_token c = Some s ∧ c = session_record_of (sc_token c, s).
Proof.
  rewrite session_make_checkpoint_perm, list_elem_of_fmap. split.
  - intros ([t s] & -> & Hin%elem_of_hash_iter). by exists s.
  - intros (s & Hs & ->). exists (sc_token c, s). split; [done|]. by apply elem_of_hash_iter.
Qed.

Lemma session_checkpoint_tokens m : NoDup (sc_token <$> session_make_checkpoint m).
Proof.
  rewrite session_make_checkpoint_perm, <-list_fmap_compose. apply hash_iter_NoDup_fst.
Qed.

Lemma session_checkpoint_identities m :
  identities_unique m → NoDup (session_identity <$> session_make_checkpoint m).
Proof.
  intros Hu. rewrite session_make_checkpoint_perm, <-list_fmap_compose.
  apply NoDup_fmap_2_strong; [|apply hash_iter_NoDup].
  intros [t1 s1] [t2 s2] H1%elem_of_hash_iter H2%elem_of_hash_iter He. cbn in He.
  assert (t1 = t2) as -> by (by apply (Hu t1 t2 s1 s2)). congruence.
Qed.

Lemma valid_token_test (token : bytes) :
  valid_session_token token = true ↔ zlen token = TOKEN_SIZE ∧ forallb is_lower_hex token = true.
Proof.
  unfold valid_session_token, TOKEN_SIZE, SESSION_TOKEN_SIZE. destruct (Z.eqb_spec (zlen token) 32); cbn; naive_solver.
Qed.

Definition session_table (deadline : Z) (l : list SessionCheckpoint) : gmap bytes Session :=
  offline_of deadline <$> index_by sc_token l.

Lemma same_identity_spec deadline c l :
  NoDup (sc_token <$> l) →
  existsb (same_identity c) (hash_values (session_table deadline l)) = true ↔
    session_identity c ∈ session_identity <$> l.
Proof.
  intros Hnd. rewrite existsb_exists, list_elem_of_fmap. unfold session_table. split.
  - intros (s & Hs & He). apply list_elem_of_In, elem_of_hash_values in Hs as [t Hs].
    rewrite lookup_fmap in Hs. apply fmap_Some in Hs as (x & Hx & ->).
    apply index_by_lookup in Hx as [Hx _]; [|done]. exists x. split; [|done].
    unfold same_identity in He. cbn in He. to_prop. unfold session_identity. congruence.
  - intros (x & Hi & Hx). exists (offline_of deadline x). split.
    + apply list_elem_of_In, elem_of_hash_values. exists (sc_token x). rewrite lookup_fmap.
      by rewrite (proj2 (index_by_lookup sc_token l (sc_token x) x Hnd)).
    + unfold same_identity, session_identity in *. injection Hi as Hi1 Hi2. cbn.
      by rewrite <-Hi1, <-Hi2, !Z.eqb_refl.
Qed.

Lemma restore_sessions_spec cs pre deadline t :
  NoDup (sc_token <$> pre) → NoDup (session_identity <$> pre) →
  restore_sessions cs deadline (session_table deadline pre) = Some t ↔
    Forall (λ c, valid_session_token (sc_token c) = true) cs ∧
    NoDup (sc_token <$> (pre ++ cs)) ∧ NoDup (session_identity <$> (pre ++ cs)) ∧
    t = session_table deadline (pre ++ cs).
Proof.
  revert pre. induction cs as [|c cs IH]; intros pre Hpt Hpi; cbn [restore_sessions].
  - rewrite app_nil_r. naive_solver.
  - rewrite Forall_cons, valid_token_test. replace (pre ++ c :: cs) with ((pre ++ [c]) ++ cs) by (by rewrite <-app_assoc).
    pose proof (fmap_dup sc_token pre c cs) as Hdt.
    pose proof (fmap_dup session_identity pre c cs) as Hdi.
    destruct (Z.eqb_spec (zlen (sc_token c)) TOKEN_SIZE); cbn [negb]; [|naive_solver].
    destruct (forallb is_lower_hex (sc_token c)); cbn [negb]; [|naive_solver].
    pose proof (index_by_lookup_is_Some sc_token pre (sc_token c)) as Hin.
    unfold session_table at 1. rewrite lookup_fmap.
    destruct (index_by sc_token pre !! sc_token c) eqn:Hl; cbn [fmap option_fmap option_map].
    { split; [done|]. intros (_ & Hnd & _). exfalso. apply Hdt; [|done]. by apply Hin. }
    assert (Hnin : sc_token c ∉ sc_token <$> pre) by (rewrite <-Hin; by intros [? ?]).
    pose proof (same_identity_spec deadline c pre Hpt) as Hid.
    destruct (existsb _ _).
    { split; [done|]. intros (_ & _ & Hnd & _). exfalso. apply Hdi; [|done]. by apply Hid. }
    assert (Hnid : session_identity c ∉ session_identity <$> pre).
    { intros H. apply Hid in H. done. }
    replace (<[sc_token c := _]> (session_table deadline pre)) with (session_table deadline (pre ++ [c])).
    + rewrite IH by (by apply fmap_snoc_NoDup). naive_solver.
    + unfold session_table. by rewrite index_by_snoc, fmap_insert.
Qed.

(** [restore_checkpoint] accepts exactly the sessions whose keys the codec
    accepts. *)
Lemma restore_sessions_iff cs deadline t :
  restore_sessions cs deadline ∅ = Some t ↔
    session_keys_fresh cs ∅ ∅ = true ∧ t = session_table deadline cs.
Proof.
  assert (Hnil : session_table deadline [] = ∅).
  { unfold session_table, index_by. cbn. by rewrite fmap_empty. }
  rewrite <-Hnil, (restore_sessions_spec cs [] deadline t) by constructor.
  cbn [app]. rewrite session_keys_fresh_spec.
  split.
  - intros (? & ? & ? & ->). split_and!; try done; set_solver.
  - intros ((? & ? & ? & _) & ->). done.
Qed.

Lemma session_make_restore m0 m now :
  sm_inv m → identities_unique m →
  session_restore_checkpoint (session_make_checkpoint m) now m0 =
    (true, with_tables m0
       ((λ s, Session_offline (se_room_id s) (se_player_id s) (now + reconnect_timeout_ m0)) <$> sessions_ m) ∅).
Proof.
  intros Hm Hu. unfold session_restore_checkpoint.
  set (deadline := now + reconnect_timeout_ m0).
  assert (Hr : restore_sessions (session_make_checkpoint m) deadline ∅ =
    Some (session_table deadline (session_make_checkpoint m))).
  { apply restore_sessions_iff. split; [|done]. apply session_keys_fresh_spec. split_and!.
    - apply session_checkpoint_tokens.
    - by apply session_checkpoint_identities.
    - apply Forall_forall. intros c (s & Hs & _)%elem_of_session_checkpoint.
      by apply (sv_token m Hm _ s).
    - set_solver. }
  rewrite Hr. do 2 f_equal. apply map_eq. intros t. unfold session_table.
  rewrite !lookup_fmap. destruct (sessions_ m !! t) as [s|] eqn:Hs; cbn.
  - rewrite (proj2 (index_by_lookup sc_token _ t (session_record_of (t, s))
      (session_checkpoint_tokens m))); [done|].
    split; [|done]. apply elem_of_session_checkpoint. by exists s.
  - destruct (index_by sc_token (session_make_checkpoint m) !! t) as [c|] eqn:Hc; [|done].
    apply index_by_lookup in Hc as [Hc Ht]; [|apply session_checkpoint_tokens].
    apply elem_of_session_checkpoint in Hc as (s & Hs' & _). congruence.
Qed.
Lemma restored_sessions_inv m m0 deadline :
  sm_inv m →
  sm_inv (with_tables m0
    ((λ s, Session_offline (se_room_id s) (se_player_id s) deadline) <$> sessions_ m) ∅).
Proof.
  intros Hm. split; cbn; try by (intros *; rewrite lookup_empty).
  - intros t s. rewrite lookup_fmap. by intros (x & _ & ->)%fmap_Some.
  - intros t s. rewrite lookup_fmap. by intros (x & _ & ->)%fmap_Some.
  - intros t s. rewrite lookup_fmap. intros (x & Hx & ->)%fmap_Some. by apply (sv_token m Hm t x).
Qed.
End checkpoint.

#[local] Arguments session_detach : simpl never.

(** * Properties *)

(** C23: Whatever is done to the session manager, in whatever order and whatever
    the random source returns, every binding leads to a session that is online
    on just this connection, every online session is bound by just one
    connection, offline sessions hold no connection, and every token consists
    of 32 lower-case hexadecimal digits. *)
Theorem session_tables_consistent (ops : list sm_op) (timeout : Z) :
  let m := run_sm ops (SessionManager_new timeout) in
  (∀ c token, bindings_ m !! c = Some token ↔
     ∃ s, sessions_ m !! token = Some s ∧ se_state s = SS.online ∧ se_connection s = Some c) ∧
  (∀ token s, sessions_ m !! token = Some s →
     valid_session_token token = true ∧
     (se_state s = SS.offline → se_connection s = None)).
Proof.
  intros m. pose proof (run_sm_inv ops _ (SessionManager_new_inv timeout)) as Hm. fold m in Hm.
  split.
  - intros c token. split; [by apply sv_bound|]. intros (s & Hs & He & Hw).
    destruct (sv_online m Hm token s Hs He) as (c' & Hw' & Hc'). congruence.
  - intros token s Hs. split; [by apply (sv_token m Hm token s)|by apply (sv_offline m Hm token)].
Qed.

(** A token is a lossless rendering of the 16 random bytes that were drawn:
    however [getrandom] splits, interrupts or fails its calls, either nothing
    is issued or a valid token is, and two tokens are equal exactly when the
    bytes drawn for them are. *)
Theorem tokens_keep_entropy (results1 results2 : list random_result) :
  let drawn results := (fill_random results []).1 in
  let token results := (generate_token results).1 in
  match drawn results1 with
  | Some bs => zlen bs = TOKEN_SIZE / 2 ∧ valid_session_token (token results1) = true
  | None => token results1 = []
  end ∧
  (token results1 = token results2 ↔ drawn results1 = drawn results2).
Proof.
  intros drawn token.
  assert (Hlen : ∀ results bs, drawn results = Some bs → zlen bs = TOKEN_SIZE / 2).
  { intros results bs. by apply (fill_random_length results []). }
  assert (Htok : ∀ results, token results =
    match drawn results with None => [] | Some bs => concat (byte_hex <$> bs) end).
  { intros results. unfold token, drawn, generate_token. by destruct (fill_random results []). }
  split.
  - rewrite Htok. destruct (drawn results1) as [bs|] eqn:E; [|done].
    split; [by apply (Hlen results1)|]. by apply hex_token_valid, (Hlen results1).
  - rewrite !Htok. split; [|by intros ->].
    assert (Hne : ∀ results bs, drawn results = Some bs → concat (byte_hex <$> bs) ≠ []).
    { intros results bs Hb%Hlen Hn. pose proof (hex_length bs) as Hl. rewrite Hn in Hl.
      unfold zlen, TOKEN_SIZE in Hb. change (32 / 2) with 16 in Hb. cbn in Hl. lia. }
    destruct (drawn results1) as [bs|] eqn:E1, (drawn results2) as [cs|] eqn:E2; try done.
    + intros He. f_equal. by rewrite <-(unhex_hex bs), He, unhex_hex.
    + intros He. by destruct (Hne results1 bs E1).
    + intros He. by destruct (Hne results2 cs E2).
Qed.

(** C31: The reconnection window: after a connection is detached, its token
    resumes the same player on any free connection before the reconnection
    timeout has passed, and is reported as expired from then on; and a resume
    that is rolled back leaves the manager exactly as it was, deadline
    included. *)
Theorem reconnect_window (live : gset Conn) (c : Conn) (token : bytes) (now : Z) (m : SessionManager) :
  sm_inv m → bindings_ m !! c = Some token → c ∈ live →
  let '(r, m1) := detach live (Some c) now m in
  id_state r = SM.success ∧ id_token r = token ∧
  ∀ c' t, bindings_ m1 !! c' = None → c' ∈ live →
    let '(r2, m2) := resume (Some c') token t m1 in
    if bool_decide (t < now + reconnect_timeout_ m) then
      r2 = MkResumeResult SM.success (id_room_id r) (id_player_id r) ∧
      rollback_resume live (Some c') m2 = (SM.success, m1)
    else r2 = MkResumeResult SM.session_expired 0 0 ∧ m2 = m1.
Proof.
  intros Hm Hc Hl.
  destruct (detach_bound live c token now m Hm Hc Hl) as (room & player & old & Hs & ->).
  split_and!; [done..|]. intros c' t Hc' Hl'. cbn in Hc'. unfold resume. cbn.
  rewrite Hc', lookup_insert_eq. unfold expired. cbn.
  rewrite !(bool_decide_true (SS.offline = SS.offline)) by done. cbn.
  case_bool_decide as Ht.
  - assert (Hgt : (now + reconnect_timeout_ m <=? t) = false) by (apply Z.leb_gt; lia).
    unfold session_bind. cbn. rewrite Hgt. cbn. rewrite ?Hgt. cbn. split; [done|].
    unfold rollback_resume. cbn. rewrite !lookup_insert_eq.
    rewrite session_detach_online by done. cbn.
    unfold with_tables. cbn. by rewrite delete_insert_id, !insert_insert_eq.
  - by rewrite (proj2 (Z.leb_le _ _)) by lia.
Qed.

Lemma reconnect_window_witness :
  let m := run_sm [SCreate [RandomBytes x61 (replicate 15 x62)] (Some 10) 7 1] (SessionManager_new 500) in
  let token := concat (byte_hex <$> x61 :: replicate 15 x62) in
  let m1 := (detach {[10; 11]} (Some 10) 100 m).2 in
  rs_state (resume (Some 11) token 599 m1).1 = SM.success ∧
  rs_state (resume (Some 11) token 600 m1).1 = SM.session_expired.
Proof.
  intros m token m1. assert (Hm : sm_inv m) by apply run_sm_inv, SessionManager_new_inv.
  pose proof (reconnect_window {[10; 11]} 10 token 100 m Hm) as H. fold m1 in H.
  destruct (detach {[10; 11]} (Some 10) 100 m) as [r m2] eqn:E. subst m1. cbn [snd].
  destruct H as (_ & _ & H); [vm_compute; reflexivity|set_solver|].
  assert (Hb : bindings_ m2 !! 11 = None).
  { change m2 with (r, m2).2. rewrite <-E. vm_compute. reflexivity. }
  pose proof (H 11 599 Hb ltac:(set_solver)) as H1. pose proof (H 11 600 Hb ltac:(set_solver)) as H2.
  split.
  - destruct (resume (Some 11) token 599 m2) as [r2 m3]. rewrite bool_decide_true in H1 by (vm_compute; reflexivity).
    destruct H1 as [-> _]. reflexivity.
  - destruct (resume (Some 11) token 600 m2) as [r2 m3]. rewrite bool_decide_false in H2 by (vm_compute; discriminate).
    destruct H2 as [-> _]. reflexivity.
Defined.

(** The timeout scan lists exactly the offline sessions whose deadline has
    passed, each once, and each of them can then be erased. *)
Theorem expired_sessions_exact {ho : HashOrder} (now : Z) (m : SessionManager) :
  NoDup (ex_token <$> expired_sessions now m) ∧
  ∀ x, x ∈ expired_sessions now m ↔
    ∃ s, sessions_ m !! ex_token x = Some s ∧ se_state s = SS.offline ∧
      se_offline_deadline s <= now ∧
      x = MkExpiredSession (ex_token x) (se_room_id s) (se_player_id s) ∧
      erase_expired (ex_token x) now m =
        (SM.success, with_tables m (delete (ex_token x) (sessions_ m)) (bindings_ m)).
Proof.
  unfold expired_sessions. split.
  - pose proof (hash_iter_NoDup_fst (sessions_ m)) as Hnd. revert Hnd.
    generalize (hash_iter (sessions_ m)). intros l.
    induction l as [|[t s] l IH]; cbn; [done|]. intros [Hn Hnd]%NoDup_cons.
    destruct (_ || _); cbn; [by apply IH|]. apply NoDup_cons. split; [|by apply IH].
    intros (x & Hx & Hin)%list_elem_of_fmap. apply Hn. apply list_elem_of_omap in Hin as ([t' s'] & Hin & He).
    destruct (_ || _); [done|]. injection He as <-. cbn in Hx. subst t'.
    apply list_elem_of_fmap. by exists (t, s').
  - intros x. rewrite list_elem_of_omap. split.
    + intros ([t s] & Hs%elem_of_hash_iter & He). destruct (_ || _) eqn:E; [done|]. injection He as <-.
      cbn. exists s. to_prop. unfold expired in *. rewrite bool_decide_true in * by done. cbn in *. to_prop.
      split_and!; try done. unfold erase_expired, expired. rewrite Hs, bool_decide_true by done. cbn.
      by rewrite (proj2 (Z.leb_le _ _)).
    + intros (s & Hs & Hst & Hd & -> & _). cbn in *. exists (ex_token x, s).
      split; [by apply elem_of_hash_iter|]. unfold expired. rewrite bool_decide_true by done. cbn.
      by rewrite (proj2 (Z.leb_le _ _)).
Qed.

(** The checkpoint of the sessions restores every one of them, by its token
    and with its identity, offline and with a full reconnection window, into
    any manager, and leaves no connection bound. *)
Theorem session_checkpoint_roundtrip {ho : HashOrder} (m m0 : SessionManager) (now : Z) :
  sm_inv m → identities_unique m →
  let '(ok, m1) := session_restore_checkpoint (session_make_checkpoint m) now m0 in
  ok = true ∧ bindings_ m1 = ∅ ∧ sm_inv m1 ∧
  ∀ token, sessions_ m1 !! token =
    (λ s, Session_offline (se_room_id s) (se_player_id s) (now + reconnect_timeout_ m0)) <$> sessions_ m !! token.
Proof.
  intros Hm Hu. rewrite session_make_restore by done.
  split_and!; [done|done|by apply restored_sessions_inv|]. intros token. cbn. by rewrite lookup_fmap.
Qed.

Lemma session_checkpoint_roundtrip_witness :
  let m := run_sm [SCreate [RandomBytes x61 (replicate 15 x62)] (Some 10) 7 1] (SessionManager_new 500) in
  (session_restore_checkpoint (ho := canonical_order) (session_make_checkpoint (ho := canonical_order) m)
     1000 (SessionManager_new 60)).1 = true.
Proof.
  intros m. assert (Hm : sm_inv m) by apply run_sm_inv, SessionManager_new_inv.
  assert (Hu : identities_unique m).
  { apply (create_identities _ (Some 10) 7 1 (SessionManager_new 500)); [apply identities_unique_new|].
    intros t s. cbn. by rewrite lookup_empty. }
  pose proof (@session_checkpoint_roundtrip canonical_order m (SessionManager_new 60) 1000 Hm Hu) as H.
  destruct (session_restore_checkpoint _ _ _) as [ok m1]. exact (proj1 H).
Defined.
