(* ===== verification/RoomService.v ===== *)
(** [src/src/room_service.cpp] and [src/include/room_service.h]: the handlers
    of the service. What runs in the base loop acts on a [World]: the rooms,
    the sessions, the connection objects and the tasks posted to their loops.
    What runs in the loop of a connection, the message callback, acts on the
    [Io] of that connection and on the list of frames it posts to the base
    loop. Definitions only; [ServiceInvariant] has the theorems. *)

From S2P Require Import Prelude Bytes Buffer Codec RoomStateMachine GameState Protocol Connection.
From S2P Require Import Checkpoint Room RoomManager Session SessionManager.

(** * Definitions *)

Record RoomService : Type := MkRoomService {
  room_manager_ : RoomManager;
  session_manager_ : SessionManager
}.

(** [w_conns] holds the connection objects that exist; [w_posted] the tasks
    posted to their loops, which are other threads, in the order of posting;
    [w_random] what [getrandom] will return. *)
Record World : Type := MkWorld {
  w_service : RoomService;
  w_conns : gmap Conn Connection;
  w_posted : list (Conn * LoopTask);
  w_random : list random_result
}.

Definition RoomService_new (reconnect_timeout : Z) : RoomService :=
  MkRoomService RoomManager_new (SessionManager_new reconnect_timeout).

Definition w_rooms (w : World) : RoomManager := room_manager_ (w_service w).
Definition w_sessions (w : World) : SessionManager := session_manager_ (w_service w).
Definition w_live (w : World) : gset Conn := dom (w_conns w).

Definition set_rooms (m : RoomManager) (w : World) : World :=
  MkWorld (MkRoomService m (w_sessions w)) (w_conns w) (w_posted w) (w_random w).
Definition set_sessions (m : SessionManager) (w : World) : World :=
  MkWorld (MkRoomService (w_rooms w) m) (w_conns w) (w_posted w) (w_random w).
Definition set_conn (c : Conn) (conn : Connection) (w : World) : World :=
  MkWorld (w_service w) (<[c := conn]> (w_conns w)) (w_posted w) (w_random w).
Definition post_tasks (c : Conn) (tasks : list LoopTask) (w : World) : World :=
  MkWorld (w_service w) (w_conns w) (w_posted w ++ (pair c <$> tasks)) (w_random w).
Definition set_random (rs : list random_result) (w : World) : World :=
  MkWorld (w_service w) (w_conns w) (w_posted w) rs.

(** ** Calls on connections from the base loop *)

Definition connection_send (c : Conn) (data : bytes) (w : World) : bool * World :=
  match w_conns w !! c with
  | None => (false, w)
  | Some conn =>
      let '(ok, tasks, conn) := send data conn in
      (ok, post_tasks c tasks (set_conn c conn w))
  end.
Definition connection_request_close (c : Conn) (w : World) : World :=
  match w_conns w !! c with
  | None => w
  | Some _ => post_tasks c request_close w
  end.
Definition connection_under_backpressure (c : Conn) (w : World) : bool :=
  match w_conns w !! c with None => false | Some conn => under_backpressure conn end.

(** ** Error codes *)

Definition state_to_error_code (state : MG.States) : option ErrorCode.t :=
  match state with
  | MG.room_not_found => Some ErrorCode.room_not_found
  | MG.room_full => Some ErrorCode.room_full
  | MG.room_not_joinable => Some ErrorCode.room_not_joinable
  | MG.not_in_room => Some ErrorCode.not_in_room
  | MG.invalid_player_name => Some ErrorCode.invalid_player_name
  | MG.invalid_message => Some ErrorCode.invalid_message
  | MG.player_id_exhausted => Some ErrorCode.player_id_exhausted
  | MG.room_not_running => Some ErrorCode.room_not_running
  | MG.already_submitted => Some ErrorCode.already_submitted
  | MG.success | MG.invalid_connection | MG.internal_error => None
  end.

Definition session_state_to_error_code (state : SM.States) : option ErrorCode.t :=
  match state with
  | SM.invalid_token => Some ErrorCode.invalid_token
  | SM.session_online => Some ErrorCode.session_online
  | SM.session_expired => Some ErrorCode.session_expired
  | _ => None
  end.

(** The two sets of identities of a checkpoint. *)
Definition room_identities (rooms : list RoomCheckpoint) : gset (Z * Z) :=
  list_to_set (rooms ≫= λ room, (λ member, (rc_room_id room, cm_player_id member)) <$> rc_members room).
Definition session_identities (sessions : list SessionCheckpoint) : gset (Z * Z) :=
  list_to_set ((λ session, (sc_room_id session, sc_player_id session)) <$> sessions).
Definition identities_match (rooms : list RoomCheckpoint) (sessions : list SessionCheckpoint) : bool :=
  bool_decide (room_identities rooms = session_identities sessions).

(** ** Sending *)

Definition send_frame (connection : ConnectionPtr) (type : MessageType.t) (payload : bytes) (w : World)
    : bool * World :=
  match connection with
  | None => (false, w)
  | Some c =>
    match encode (MessageType.value type) payload with
    | None => (false, w)
    | Some frame =>
        let '(sent, w) := connection_send c frame w in
        if negb sent then (false, connection_request_close c w) else (true, w)
    end
  end.

(** The loop of [broadcast_frame]; [flag] marks a state snapshot, which a slow
    connection may miss. *)
Fixpoint broadcast_loop (flag : bool) (frame : bytes) (connections : list ConnectionPtr) (ans : bool)
    (w : World) : bool * World :=
  match connections with
  | [] => (ans, w)
  | connection :: connections =>
    match connection with
    | None => broadcast_loop flag frame connections ans w
    | Some c =>
      if flag then
        if connection_under_backpressure c w then broadcast_loop flag frame connections ans w
        else
          let '(_, w) := connection_send c frame w in
          broadcast_loop flag frame connections ans w
      else
        let '(sent, w) := connection_send c frame w in
        if negb sent
        then broadcast_loop flag frame connections false (connection_request_close c w)
        else broadcast_loop flag frame connections ans w
    end
  end.
Definition broadcast_frame (connections : list ConnectionPtr) (type : MessageType.t) (payload : bytes)
    (w : World) : bool * World :=
  match encode (MessageType.value type) payload with
  | None => (false, w)
  | Some frame =>
      broadcast_loop (bool_decide (type = MessageType.state_snapshot)) frame connections true w
  end.

Definition send_error (connection : ConnectionPtr) (request_type : MessageType.t)
    (error_code : ErrorCode.t) (w : World) : bool * World :=
  match encode_error request_type error_code with
  | None => (false, w)
  | Some payload => send_frame connection MessageType.error payload w
  end.

(** The common [if (state_to_error_code(...)) send_error(...)]. *)
Definition report (connection : ConnectionPtr) (request_type : MessageType.t)
    (error_code : option ErrorCode.t) (w : World) : World :=
  match error_code with
  | None => w
  | Some error_code => (send_error connection request_type error_code w).2
  end.

(** ** Requests, in the base loop *)

Section handlers.
Context {ho : HashOrder}.

Definition service_add_room (in_base : bool) (room_id capacity : Z) (w : World) : bool * World :=
  if negb in_base then (false, w)
  else
    let '(ok, rooms) := add_room room_id capacity (w_rooms w) in
    (ok, set_rooms rooms w).

(** Rolls a join back: the member, and only when that succeeds the session. *)
Definition rollback_join (connection : ConnectionPtr) (room_id player_id : Z) (w : World) : World :=
  let '(result, rooms) := manager_leave (w_live w) room_id player_id (w_rooms w) in
  let w := set_rooms rooms w in
  if bool_decide (nr_state result = MG.success)
  then set_sessions (erase_by_connection connection (w_sessions w)).2 w
  else w.

(** The part of [handle_join] after the session has been created: start the
    room and reply, or roll back. *)
Definition finish_join (connection : ConnectionPtr) (request : JoinRequest) (result : MJoinResult)
    (token : bytes) (w : World) : World :=
  match encode_join_ok (mj_room_id result) (mj_player_id result) token (mj_members result),
        encode_player_joined (mj_room_id result) (mj_player_id result) (jr_player_name request) with
  | Some response_payload, Some event_payload =>
      let '(start_state, rooms) := start_if_full (mj_room_id result) (w_rooms w) in
      let w := set_rooms rooms w in
      if negb (bool_decide (start_state = MG.success)) then
        let w := rollback_join connection (mj_room_id result) (mj_player_id result) w in
        report connection MessageType.join (state_to_error_code start_state) w
      else
        let '(_, w) := send_frame connection MessageType.join_ok response_payload w in
        (broadcast_frame (Some <$> mj_notify result) MessageType.player_joined event_payload w).2
  | _, _ => rollback_join connection (mj_room_id result) (mj_player_id result) w
  end.

Definition handle_join (connection : ConnectionPtr) (payload : bytes) (w : World) : World :=
  match decode_join_request payload with
  | None => (send_error connection MessageType.join ErrorCode.invalid_player_name w).2
  | Some request =>
    let lookup_result := lookup_session connection (w_sessions w) in
    if bool_decide (id_state lookup_result = SM.success)
    then (send_error connection MessageType.join ErrorCode.already_in_room w).2
    else if negb (bool_decide (id_state lookup_result = SM.not_bound)) then w
    else
      let '(result, rooms) :=
        manager_join (w_live w) connection (jr_room_id request) (jr_player_name request) (w_rooms w) in
      let w := set_rooms rooms w in
      if negb (bool_decide (mj_state result = MG.success))
      then report connection MessageType.join (state_to_error_code (mj_state result)) w
      else
        let '(session_result, random, sessions) :=
          create (w_random w) connection (mj_room_id result) (mj_player_id result) (w_sessions w) in
        let w := set_random random (set_sessions sessions w) in
        if negb (bool_decide (ct_state session_result = SM.success))
        then set_rooms (manager_leave (w_live w) (mj_room_id result) (mj_player_id result) (w_rooms w)).2 w
        else finish_join connection request result (ct_token session_result) w
  end.

Definition handle_resume (now : Z) (connection : ConnectionPtr) (payload : bytes) (w : World) : World :=
  match decode_resume_request payload with
  | None => (send_error connection MessageType.resume ErrorCode.invalid_token w).2
  | Some request =>
    let '(session_result, sessions) :=
      resume connection (rr_token request) now (w_sessions w) in
    let w := set_sessions sessions w in
    if negb (bool_decide (rs_state session_result = SM.success))
    then report connection MessageType.resume (session_state_to_error_code (rs_state session_result)) w
    else
      let '(room_result, rooms) :=
        manager_bind_connection (w_live w) (rs_room_id session_result) (rs_player_id session_result)
          connection (w_rooms w) in
      let w := set_rooms rooms w in
      if negb (bool_decide (br_state room_result = MG.bind_success)) then
        let w := set_sessions (rollback_resume (w_live w) connection (w_sessions w)).2 w in
        (send_error connection MessageType.resume ErrorCode.resume_failed w).2
      else match encode_resume_ok (br_room_id room_result) (br_player_id room_result)
                   (br_room_state room_result) (br_tick_id room_result) (br_members room_result)
                   (br_snapshot room_result) with
      | None =>
          let w := set_rooms (manager_detach_connection (w_live w) (br_room_id room_result)
                                (br_player_id room_result) connection (w_rooms w)).2 w in
          set_sessions (rollback_resume (w_live w) connection (w_sessions w)).2 w
      | Some response_payload => (send_frame connection MessageType.resume_ok response_payload w).2
      end
  end.

Definition lookup_identity (connection : ConnectionPtr) (request_type : MessageType.t) (w : World)
    : option (Z * Z) * World :=
  let result := lookup_session connection (w_sessions w) in
  if bool_decide (id_state result = SM.success)
  then (Some (id_room_id result, id_player_id result), w)
  else if bool_decide (id_state result = SM.not_bound)
  then (None, (send_error connection request_type ErrorCode.not_in_room w).2)
  else (None, w).

Definition handle_leave (connection : ConnectionPtr) (payload : bytes) (w : World) : World :=
  if negb (decode_leave_request payload)
  then (send_error connection MessageType.leave ErrorCode.invalid_message w).2
  else match lookup_identity connection MessageType.leave w with
  | (None, w) => w
  | (Some (room_id, player_id), w) =>
    let '(result, rooms) := manager_leave (w_live w) room_id player_id (w_rooms w) in
    let w := set_rooms rooms w in
    if negb (bool_decide (nr_state result = MG.success))
    then report connection MessageType.leave (state_to_error_code (nr_state result)) w
    else
      let w := set_sessions (erase_by_connection connection (w_sessions w)).2 w in
      match encode_leave_ok room_id with
      | None => w
      | Some response_payload =>
        let '(_, w) := send_frame connection MessageType.leave_ok response_payload w in
        match encode_player_left room_id player_id with
        | None => w
        | Some event_payload =>
            (broadcast_frame (Some <$> nr_notify result) MessageType.player_left event_payload w).2
        end
      end
  end.

Definition handle_chat (connection : ConnectionPtr) (payload : bytes) (w : World) : World :=
  match decode_chat_request payload with
  | None => (send_error connection MessageType.chat ErrorCode.invalid_message w).2
  | Some request =>
    match lookup_identity connection MessageType.chat w with
    | (None, w) => w
    | (Some (room_id, player_id), w) =>
      let result := manager_chat (w_live w) room_id player_id (cr_message request) (w_rooms w) in
      if negb (bool_decide (nr_state result = MG.success))
      then report connection MessageType.chat (state_to_error_code (nr_state result)) w
      else match encode_chat_event room_id player_id (cr_message request) with
      | None => w
      | Some event_payload =>
          (broadcast_frame (Some <$> nr_notify result) MessageType.chat_event event_payload w).2
      end
    end
  end.

Definition handle_move (connection : ConnectionPtr) (payload : bytes) (w : World) : World :=
  match decode_move_request payload with
  | None => (send_error connection MessageType.move ErrorCode.invalid_message w).2
  | Some request =>
    match lookup_identity connection MessageType.move w with
    | (None, w) => w
    | (Some (room_id, player_id), w) =>
      let '(result, rooms) :=
        manager_move room_id player_id (mr_dx request) (mr_dy request) (w_rooms w) in
      let w := set_rooms rooms w in
      if negb (bool_decide (cr_state result = MG.success))
      then report connection MessageType.move (state_to_error_code (cr_state result)) w
      else w
    end
  end.

Definition handle_attack (connection : ConnectionPtr) (payload : bytes) (w : World) : World :=
  match decode_attack_request payload with
  | None => (send_error connection MessageType.attack ErrorCode.invalid_message w).2
  | Some request =>
    match lookup_identity connection MessageType.attack w with
    | (None, w) => w
    | (Some (room_id, player_id), w) =>
      let '(result, rooms) :=
        manager_attack room_id player_id (ar_target request) (w_rooms w) in
      let w := set_rooms rooms w in
      if negb (bool_decide (cr_state result = MG.success))
      then report connection MessageType.attack (state_to_error_code (cr_state result)) w
      else w
    end
  end.

Definition handle_frame_in_loop (in_base : bool) (now : Z) (connection : ConnectionPtr) (type : Z)
    (payload : bytes) (w : World) : World :=
  if negb in_base || bool_decide (connection = None) then w
  else match MessageType.of_value type with
  | Some MessageType.join => handle_join connection payload w
  | Some MessageType.leave => handle_leave connection payload w
  | Some MessageType.chat => handle_chat connection payload w
  | Some MessageType.move => handle_move connection payload w
  | Some MessageType.attack => handle_attack connection payload w
  | Some MessageType.resume => handle_resume now connection payload w
  | _ => w
  end.

(** ** Events of the base loop *)

(** The functor [handle_connection_closed] posts to the base loop. *)
Definition handle_connection_closed (in_base : bool) (now : Z) (connection : ConnectionPtr) (w : World)
    : World :=
  if negb in_base || bool_decide (connection = None) then w
  else
    let lookup_result := lookup_session connection (w_sessions w) in
    if negb (bool_decide (id_state lookup_result = SM.success)) then w
    else
      let '(detach_result, rooms) :=
        manager_detach_connection (w_live w) (id_room_id lookup_result) (id_player_id lookup_result)
          connection (w_rooms w) in
      let w := set_rooms rooms w in
      if negb (bool_decide (md_state detach_result = MG.bind_success)) then w
      else set_sessions (detach (w_live w) connection now (w_sessions w)).2 w.

Fixpoint broadcast_ticks (results : list MTickResult) (w : World) : World :=
  match results with
  | [] => w
  | result :: results =>
      if bool_decide (mt_notify result = []) then broadcast_ticks results w
      else match encode_state_snapshot (mt_room_id result) (mt_tick_id result) (mt_snapshot result) with
      | None => broadcast_ticks results w
      | Some payload =>
          broadcast_ticks results
            (broadcast_frame (Some <$> mt_notify result) MessageType.state_snapshot payload w).2
      end
  end.
Definition handle_tick (in_base : bool) (expirations : Z) (w : World) : World :=
  if negb in_base then w
  else if expirations =? 0 then w
  else
    let '(results, rooms) := tick_rooms (w_live w) (w_rooms w) in
    broadcast_ticks results (set_rooms rooms w).

Fixpoint remove_expired (now : Z) (expired : list ExpiredSession) (w : World) : World :=
  match expired with
  | [] => w
  | item :: expired =>
    let '(leave_result, rooms) :=
      manager_leave (w_live w) (ex_room_id item) (ex_player_id item) (w_rooms w) in
    let w := set_rooms rooms w in
    if negb (bool_decide (nr_state leave_result = MG.success)) then remove_expired now expired w
    else
      let '(st, sessions) := erase_expired (ex_token item) now (w_sessions w) in
      let w := set_sessions sessions w in
      if negb (bool_decide (st = SM.success)) then remove_expired now expired w
      else match encode_player_left (ex_room_id item) (ex_player_id item) with
      | None => remove_expired now expired w
      | Some event_payload =>
          remove_expired now expired
            (broadcast_frame (Some <$> nr_notify leave_result) MessageType.player_left event_payload w).2
      end
  end.
Definition handle_session_timeouts (in_base : bool) (now : Z) (w : World) : World :=
  if negb in_base then w else remove_expired now (expired_sessions now (w_sessions w)) w.

(** ** Checkpoints *)

(** Both parts of [make_checkpoint] always succeed. *)
Definition service_make_checkpoint (in_base : bool) (generation : Z) (s : RoomService)
    : option ServerCheckpoint :=
  if generation =? 0 then None
  else if negb in_base then None
  else
    let rooms := manager_make_checkpoint (room_manager_ s) in
    let sessions := session_make_checkpoint (session_manager_ s) in
    if negb (identities_match rooms sessions) then None
    else Some (MkServerCheckpoint generation rooms sessions).

Definition service_restore_checkpoint (in_base : bool) (checkpoint : ServerCheckpoint) (now : Z)
    (s : RoomService) : bool * RoomService :=
  if svc_generation checkpoint =? 0 then (false, s)
  else if negb in_base then (false, s)
  else if negb (identities_match (svc_rooms checkpoint) (svc_sessions checkpoint)) then (false, s)
  else
    let '(ok, rooms) := manager_restore_checkpoint (svc_rooms checkpoint) (room_manager_ s) in
    let s := MkRoomService rooms (session_manager_ s) in
    if negb ok then (false, s)
    else
      let '(ok, sessions) := session_restore_checkpoint (svc_sessions checkpoint) now (session_manager_ s) in
      let s := MkRoomService (room_manager_ s) sessions in
      if negb ok then (false, s) else (true, s).
End handlers.

(** ** The message callback, in the loop of the connection *)

(** The connection with its surroundings, and the frames posted to the base
    loop so far. *)
Definition Decoded : Type := Io * list (Z * bytes).

(** [send_frame] from the loop of the connection itself, where the posted
    functors run at once. *)
Definition send_frame_here (type : MessageType.t) (payload : bytes) (io : Io) : bool * Io :=
  match encode (MessageType.value type) payload with
  | None => (false, io)
  | Some frame =>
      let '(sent, io) := send_here frame io in
      if negb sent then (false, handle_close true io) else (true, io)
  end.

Definition handle_heartbeat (now : Z) (payload : bytes) (io : Io) : bool * Io :=
  match decode_heartbeat_request payload with
  | None => (false, io)
  | Some request =>
      let io := on_conn (refresh_peer_activity true now) io in
      match encode_heartbeat_ack (hr_seq request) with
      | None => (false, io)
      | Some temp_ => send_frame_here MessageType.heartbeat_ack temp_ io
      end
  end.

Definition handle_decoded_frame (now : Z) : FrameCallback Decoded :=
  λ '(io, frames) type payload,
  match MessageType.of_value type with
  | Some MessageType.heartbeat =>
      let '(ok, io) := handle_heartbeat now payload io in ((io, frames), ok)
  | Some (MessageType.join | MessageType.leave | MessageType.chat | MessageType.move
         | MessageType.attack | MessageType.resume) =>
      ((on_conn (refresh_peer_activity true now) io, frames ++ [(type, payload)]), true)
  | _ => ((io, frames), false)
  end.

(** The decoder works on the read buffer of the connection, which the callback
    does not touch. *)
Definition handle_message (in_loop : bool) (now : Z) (io : Io) : option (Decoded * bool) :=
  if negb in_loop then Some ((io, []), false)
  else match decode (read_buffer_ (io_conn io)) (Some (handle_decoded_frame now)) (io, []) with
  | None => None
  | Some ((io, frames), buffer, ok) => Some ((on_conn (set_read_buffer buffer) io, frames), ok)
  end.
