(* ===== verification/ServiceInvariant.v ===== *)
(** The service as a whole: the invariant that ties the rooms, the sessions
    and the connections together, the step relation of the base loop, and what
    a client can rely on. *)

From S2P Require Import Prelude Bytes Checkpoint CheckpointCodec Buffer Codec RoomStateMachine.
From S2P Require Import GameState Protocol Connection Room RoomManager Session SessionManager RoomService.

(** * Definitions *)

(** Rooms and sessions in lockstep: every member has exactly one session and
    every session its member; the member and its session name the same
    connection, and only connections in [opened] are bound. *)
Record service_inv (s : RoomService) (opened : gset Conn) : Prop := {
  si_rooms : manager_inv (room_manager_ s);
  si_sessions : sm_inv (session_manager_ s);
  si_unique : identities_unique (session_manager_ s);
  si_member : ∀ room p m, member_at (room_manager_ s) room p = Some m →
    ∃ t e, sessions_ (session_manager_ s) !! t = Some e ∧ se_identity e = (room, p);
  si_session : ∀ t e, sessions_ (session_manager_ s) !! t = Some e →
    ∃ m, member_at (room_manager_ s) (se_room_id e) (se_player_id e) = Some m ∧
      mb_connection m = se_connection e;
  si_open : ∀ c t, bindings_ (session_manager_ s) !! c = Some t → c ∈ opened
}.

(** The connections that have a session. *)
Definition bound (s : RoomService) : gset Conn := dom (bindings_ (session_manager_ s)).

(** What sending leaves alone. *)
Record only_posts (w w' : World) : Prop := {
  op_service : w_service w' = w_service w;
  op_live : w_live w' = w_live w;
  op_random : w_random w' = w_random w;
  op_posted : ∃ tasks, w_posted w' = w_posted w ++ tasks
}.

(** The members of all rooms, and the sessions, are the same before and after. *)
Definition same_players (s s' : RoomService) : Prop :=
  session_manager_ s' = session_manager_ s ∧
  ∀ room p, member_at (room_manager_ s') room p = member_at (room_manager_ s) room p.

(** The system: the world, and the connections that have been accepted and not
    yet been reported closed. *)
Record System : Type := MkSystem { sys_world : World; sys_open : gset Conn }.

Definition System_new (reconnect_timeout : Z) : System :=
  MkSystem (MkWorld (RoomService_new reconnect_timeout) ∅ [] []) ∅.

(** The steps of the base loop, in any interleaving with the loops of the
    connections. The loop of a connection reports it closed once, the base loop
    holds the object at least until then, and whoever has a task for the base
    loop that names the object keeps it alive. An object is made by
    [std::make_shared], so that its address is not used again while a session
    or a member still refers to it, if only by a [weak_ptr].

    Nothing in [handle_frame_in_loop] asks whether the connection has been
    reported closed. With [late = true] frames of a connection run as long as
    its object lives, after that report as well. [late = false] is the order
    that the loops of the connections keep as long as no answer to a heartbeat
    closes the connection ([IoThread.close_report_last]): frames come before
    the report. *)
Inductive step {ho : HashOrder} (late : bool) : System → System → Prop :=
| StepAddRoom room_id capacity w opened :
    u32_range room_id → u64_range capacity →
    step late (MkSystem w opened) (MkSystem (service_add_room true room_id capacity w).2 opened)
| StepAccept c now w opened :
    c ∉ w_live w → c ∉ bound (w_service w) →
    step late (MkSystem w opened) (MkSystem (set_conn c (Connection_new now) w) ({[c]} ∪ opened))
| StepIo c conn w opened :
    c ∈ w_live w →
    step late (MkSystem w opened) (MkSystem (set_conn c conn w) opened)
| StepEntropy rs w opened :
    step late (MkSystem w opened) (MkSystem (set_random rs w) opened)
| StepFrame c type payload now w opened :
    c ∈ w_live w → (late = false → c ∈ opened) →
    step late (MkSystem w opened)
      (MkSystem (handle_frame_in_loop true now (Some c) type payload w) opened)
| StepClosed c now w opened :
    c ∈ opened →
    step late (MkSystem w opened)
      (MkSystem (handle_connection_closed true now (Some c) w) (opened ∖ {[c]}))
| StepDestroyed c w opened :
    c ∉ opened →
    step late (MkSystem w opened)
      (MkSystem (MkWorld (w_service w) (delete c (w_conns w)) (w_posted w) (w_random w)) opened)
| StepTick expirations w opened :
    step late (MkSystem w opened) (MkSystem (handle_tick true expirations w) opened)
| StepTimeouts now w opened :
    step late (MkSystem w opened) (MkSystem (handle_session_timeouts true now w) opened).

(** A server starts empty or, before it accepts connections, from a checkpoint
    an earlier run has made. *)
Inductive reachable {ho : HashOrder} (late : bool) : System → Prop :=
| ReachNew reconnect_timeout : reachable late (System_new reconnect_timeout)
| ReachStep s s' : reachable late s → step late s s' → reachable late s'
| ReachRestart s generation cp reconnect_timeout now service :
    reachable late s →
    service_make_checkpoint true generation (w_service (sys_world s)) = Some cp →
    service_restore_checkpoint true cp now (RoomService_new reconnect_timeout) = (true, service) →
    reachable late (MkSystem (MkWorld service ∅ [] []) ∅).

(** Rooms and sessions are in lockstep in any case; only without late frames
    are all bound connections open. *)
Record system_inv (late : bool) (s : System) : Prop := {
  sy_service : service_inv (w_service (sys_world s)) (bound (w_service (sys_world s)));
  sy_open : late = false → bound (w_service (sys_world s)) ⊆ sys_open s;
  sy_live : sys_open s ⊆ w_live (sys_world s)
}.

(** * Proofs *)

(** ** Sending *)

#[export] Instance only_posts_preorder : PreOrder only_posts.
Proof.
  split.
  - intros w. split; try done. exists []. by rewrite app_nil_r.
  - intros w1 w2 w3 [Hs Hl Hr [k Hk]] [Hs' Hl' Hr' [k' Hk']]. split; try congruence.
    exists (k ++ k'). by rewrite Hk', Hk, app_assoc.
Qed.

Lemma post_tasks_only c tasks w : only_posts w (post_tasks c tasks w).
Proof. split; try done. by eexists. Qed.

Lemma set_conn_only c conn w : c ∈ w_live w → only_posts w (set_conn c conn w).
Proof.
  intros Hc. split; try done.
  - unfold w_live in *. cbn. rewrite dom_insert_L. apply set_eq. intros x.
    rewrite elem_of_union, elem_of_singleton. naive_solver.
  - exists []. by rewrite app_nil_r.
Qed.

Lemma connection_send_only c data w : only_posts w (connection_send c data w).2.
Proof.
  unfold connection_send. destruct (w_conns w !! c) as [conn|] eqn:Hc; [|done].
  destruct (send data conn) as [[ok tasks] conn']. cbn.
  etransitivity; [|apply post_tasks_only]. apply set_conn_only. by apply elem_of_dom.
Qed.

Lemma connection_request_close_only c w : only_posts w (connection_request_close c w).
Proof. unfold connection_request_close. case_match; [apply post_tasks_only|done]. Qed.

Lemma send_frame_only connection type payload w : only_posts w (send_frame connection type payload w).2.
Proof.
  unfold send_frame. destruct connection as [c|]; [|done].
  destruct (encode _ payload) as [frame|]; [|done].
  pose proof (connection_send_only c frame w) as Hs.
  destruct (connection_send c frame w) as [[] w']; cbn in *; [done|].
  etransitivity; [exact Hs|apply connection_request_close_only].
Qed.

Lemma broadcast_loop_only flag frame l ans w : only_posts w (broadcast_loop flag frame l ans w).2.
Proof.
  revert ans w. induction l as [|[c|] l IH]; intros ans w; cbn [broadcast_loop]; [done| |apply IH].
  pose proof (connection_send_only c frame w) as Hs. destruct (connection_send c frame w) as [sent w'].
  cbn in Hs. destruct flag.
  - case_match; [apply IH|]. etransitivity; [exact Hs|apply IH].
  - destruct sent; cbn [negb]; (etransitivity; [exact Hs|]); [apply IH|].
    etransitivity; [apply connection_request_close_only|apply IH].
Qed.

Lemma broadcast_frame_only l type payload w : only_posts w (broadcast_frame l type payload w).2.
Proof. unfold broadcast_frame. case_match; [apply broadcast_loop_only|done]. Qed.

Lemma send_error_only connection type code w : only_posts w (send_error connection type code w).2.
Proof. unfold send_error. case_match; [apply send_frame_only|done]. Qed.

Lemma report_only connection type code w : only_posts w (report connection type code w).
Proof. unfold report. case_match; [apply send_error_only|done]. Qed.

Lemma broadcast_ticks_only results w : only_posts w (broadcast_ticks results w).
Proof.
  revert w. induction results as [|r results IH]; intros w; cbn [broadcast_ticks]; [done|].
  case_match; [apply IH|]. case_match; [|apply IH].
  etransitivity; [apply broadcast_frame_only|apply IH].
Qed.

#[export] Hint Resolve send_frame_only broadcast_frame_only send_error_only report_only
  broadcast_ticks_only : lw_wf.

(** ** Lookups *)

Section proofs.
Context {ho : HashOrder}.

(** What the manager says about a connection under the invariant. *)
Lemma lookup_session_cases m c :
  sm_inv m →
  (bindings_ m !! c = None ∧ id_state (lookup_session (Some c) m) = SM.not_bound) ∨
  ∃ t e, bindings_ m !! c = Some t ∧ sessions_ m !! t = Some e ∧ se_state e = SS.online ∧
    se_connection e = Some c ∧
    lookup_session (Some c) m = MkIdentityResult SM.success t (se_room_id e) (se_player_id e).
Proof.
  intros Hm. unfold lookup_session. destruct (bindings_ m !! c) as [t|] eqn:Hc; [|by left].
  destruct (sv_bound m Hm c t Hc) as (e & He & Hst & Hw). rewrite He. right. eauto 10.
Qed.

Lemma erase_bound m c t :
  sm_inv m → bindings_ m !! c = Some t →
  erase_by_connection (Some c) m =
    (SM.success, with_tables m (delete t (sessions_ m)) (delete c (bindings_ m))).
Proof.
  intros Hm Hc. destruct (sv_bound m Hm c t Hc) as (e & He & _). unfold erase_by_connection.
  by rewrite Hc, He.
Qed.

(** ** Transitions that keep the invariant *)

Lemma inv_same s s' opened :
  service_inv s opened → manager_inv (room_manager_ s') → same_players s s' → service_inv s' opened.
Proof.
  intros [] Hm [Hs Hmem]. split; rewrite ?Hs; try done.
  - intros room p m. rewrite Hmem. apply si_member0.
  - intros t e. setoid_rewrite Hmem. apply si_session0.
Qed.

Lemma member_identity s opened t e :
  service_inv s opened → sessions_ (session_manager_ s) !! t = Some e →
  ∀ room p, se_identity e = (room, p) → member_at (room_manager_ s) room p ≠ None.
Proof.
  intros Hi He room p [= <- <-]. destruct (si_session _ _ Hi t e He) as (m & -> & _). done.
Qed.

(** A player appears, or changes connection. *)
Lemma inv_insert s s' opened opened' t e m :
  service_inv s opened → manager_inv (room_manager_ s') → sm_inv (session_manager_ s') →
  sessions_ (session_manager_ s') = <[t := e]> (sessions_ (session_manager_ s)) →
  (∀ room p, member_at (room_manager_ s') room p =
     if bool_decide ((room, p) = se_identity e) then Some m else member_at (room_manager_ s) room p) →
  mb_connection m = se_connection e →
  match sessions_ (session_manager_ s) !! t with
  | Some e0 => se_identity e0 = se_identity e
  | None => member_at (room_manager_ s) (se_room_id e) (se_player_id e) = None
  end →
  (∀ c t, bindings_ (session_manager_ s') !! c = Some t → c ∈ opened') →
  service_inv s' opened'.
Proof.
  intros Hi Hrm Hsm Hs Hmem Hconn Hold Hopen.
  assert (Hother : ∀ t2 e2, t2 ≠ t → sessions_ (session_manager_ s) !! t2 = Some e2 →
    se_identity e2 ≠ se_identity e).
  { intros t2 e2 Hne H2 Heq. destruct (sessions_ (session_manager_ s) !! t) as [e0|] eqn:H0.
    - apply Hne. apply (si_unique _ _ Hi t2 t e2 e0); congruence.
    - by apply (member_identity s opened t2 e2 Hi H2 _ _ Heq). }
  split; try done.
  - intros t1 t2 e1 e2. rewrite Hs.
    intros [[<- <-]|[? H1]]%lookup_insert_Some [[<- <-]|[? H2]]%lookup_insert_Some Heq; try done.
    + by destruct (Hother t2 e2).
    + by destruct (Hother t1 e1).
    + by apply (si_unique _ _ Hi t1 t2 e1 e2).
  - intros room p m0. rewrite Hmem, Hs. case_bool_decide as Hid.
    + intros _. exists t, e. by rewrite lookup_insert_eq.
    + intros (t0 & e0 & He0 & Hid0)%(si_member _ _ Hi). exists t0, e0. split; [|done].
      rewrite lookup_insert_ne; [done|]. intros <-. rewrite He0 in Hold. congruence.
  - intros t0 e0. rewrite Hs. setoid_rewrite Hmem. intros [[<- <-]|[Hne He0]]%lookup_insert_Some.
    + exists m. by rewrite bool_decide_true.
    + rewrite bool_decide_false; [by apply (si_session _ _ Hi t0)|]. intros Heq.
      by apply (Hother t0 e0).
Qed.

(** A player disappears. *)
Lemma inv_delete s s' opened t e :
  service_inv s opened → manager_inv (room_manager_ s') → sm_inv (session_manager_ s') →
  sessions_ (session_manager_ s) !! t = Some e →
  sessions_ (session_manager_ s') = delete t (sessions_ (session_manager_ s)) →
  (∀ room p, member_at (room_manager_ s') room p =
     if bool_decide ((room, p) = se_identity e) then None else member_at (room_manager_ s) room p) →
  (∀ c t, bindings_ (session_manager_ s') !! c = Some t → c ∈ opened) →
  service_inv s' opened.
Proof.
  intros Hi Hrm Hsm He Hs Hmem Hopen. split; try done.
  - intros t1 t2 e1 e2. rewrite Hs. intros [_ H1]%lookup_delete_Some [_ H2]%lookup_delete_Some.
    by apply (si_unique _ _ Hi).
  - intros room p m0. rewrite Hmem, Hs. case_bool_decide as Hid; [done|].
    intros (t0 & e0 & He0 & Hid0)%(si_member _ _ Hi). exists t0, e0. split; [|done].
    rewrite lookup_delete_ne; [done|]. intros <-. congruence.
  - intros t0 e0. rewrite Hs. setoid_rewrite Hmem. intros [Hne He0]%lookup_delete_Some.
    rewrite bool_decide_false; [by apply (si_session _ _ Hi t0)|]. intros Heq.
    apply Hne. by apply (si_unique _ _ Hi t t0 e e0).
Qed.

(** ** Operations that keep all players *)

Lemma rooms_keep w op opened :
  service_inv (w_service w) opened → manager_op_typed op →
  match op with
  | MAdd _ _ | MStartIfFull _ | MMove _ _ _ _ | MAttack _ _ _ | MTick _ => True
  | _ => False
  end →
  same_players (w_service w) (w_service (set_rooms (apply_manager_op (w_rooms w) op) w)) ∧
  service_inv (w_service (set_rooms (apply_manager_op (w_rooms w) op) w)) opened.
Proof.
  intros Hi Ht Hop. assert (Hs : same_players (w_service w)
    (w_service (set_rooms (apply_manager_op (w_rooms w) op) w))).
  { split; [done|]. intros room p. pose proof (member_at_keep (w_rooms w) op room p) as Hk.
    destruct op; done || exact Hk. }
  split; [done|]. eapply inv_same; [done| |done]. apply apply_manager_op_inv; [done|by apply Hi].
Qed.

Lemma only_posts_inv w w' opened :
  only_posts w w' → service_inv (w_service w) opened → service_inv (w_service w') opened.
Proof. intros []. by rewrite op_service0. Qed.

Lemma only_posts_same w w' : only_posts w w' → same_players (w_service w) (w_service w').
Proof. intros []. by rewrite op_service0. Qed.

#[export] Instance same_players_preorder : PreOrder same_players.
Proof.
  split; [done|]. intros s1 s2 s3 [Hs Hm] [Hs' Hm']. split; [congruence|].
  intros room p. by rewrite Hm', Hm.
Qed.

(** ** Joining *)

Lemma manager_join_inv live c id name m : manager_inv m → manager_inv (manager_join live c id name m).2.
Proof. exact (apply_manager_op_inv m (MJoin live c id name) I). Qed.
Lemma manager_leave_inv live id p m : manager_inv m → manager_inv (manager_leave live id p m).2.
Proof. exact (apply_manager_op_inv m (MLeave live id p) I). Qed.
Lemma start_if_full_inv id m : manager_inv m → manager_inv (start_if_full id m).2.
Proof. exact (apply_manager_op_inv m (MStartIfFull id) I). Qed.
Lemma manager_bind_inv live id p c m : manager_inv m → manager_inv (manager_bind_connection live id p c m).2.
Proof. exact (apply_manager_op_inv m (MBind live id p c) I). Qed.
Lemma manager_detach_inv live id p c m :
  manager_inv m → manager_inv (manager_detach_connection live id p c m).2.
Proof. exact (apply_manager_op_inv m (MDetach live id p c) I). Qed.
Lemma create_inv rs c id p m : sm_inv m → sm_inv (create rs c id p m).2.
Proof. exact (apply_sm_op_inv (SCreate rs c id p) m). Qed.

Lemma rollback_join_outcome w c id p t :
  manager_inv (w_rooms w) → sm_inv (w_sessions w) → bindings_ (w_sessions w) !! c = Some t →
  is_Some (member_at (w_rooms w) id p) →
  let w' := rollback_join (Some c) id p w in
  w_live w' = w_live w ∧ manager_inv (w_rooms w') ∧
  w_sessions w' = with_tables (w_sessions w) (delete t (sessions_ (w_sessions w)))
                    (delete c (bindings_ (w_sessions w))) ∧
  ∀ room q, member_at (w_rooms w') room q =
    if bool_decide ((room, q) = (id, p)) then None else member_at (w_rooms w) room q.
Proof.
  intros Hm Hs Hc Hp. unfold rollback_join.
  pose proof (manager_leave_outcome (w_live w) id p (w_rooms w) Hm) as Hl.
  pose proof (manager_leave_inv (w_live w) id p (w_rooms w) Hm) as Hm'.
  destruct (manager_leave (w_live w) id p (w_rooms w)) as [res rooms].
  destruct Hl as (Hst & _ & Hmem). cbn in Hm'. rewrite bool_decide_true by by apply Hst.
  change (w_sessions (set_rooms rooms w)) with (w_sessions w).
  rewrite (erase_bound _ _ t) by done. cbn. done.
Qed.

(** A successful join: the player of room [id] gets the number [p], the
    session [token] and the connection [c]. *)
Definition joined (w w' : World) (c : Conn) (request : JoinRequest) (p : Z) (token : bytes) : Prop :=
  let id := jr_room_id request in
  0 < p < 2 ^ 64 ∧ 1 <= zlen (jr_player_name request) <= MAX_PLAYER_NAME_SIZE ∧
  member_at (w_rooms w) id p = None ∧ sessions_ (w_sessions w) !! token = None ∧
  bindings_ (w_sessions w) !! c = None ∧
  (generate_token (w_random w)).1 = token ∧ token ≠ [] ∧
  w_sessions w' = with_tables (w_sessions w)
    (<[token := Session_online id p (Some c)]> (sessions_ (w_sessions w)))
    (<[c := token]> (bindings_ (w_sessions w))) ∧
  ∀ room q, member_at (w_rooms w') room q =
    if bool_decide ((room, q) = (id, p)) then Some (MkMember p (jr_player_name request) (Some c))
    else member_at (w_rooms w) room q.

Lemma only_posts_outcome w1 w2 w' :
  only_posts w2 w' → w_live w2 = w_live w1 → manager_inv (w_rooms w2) →
  w_live w' = w_live w1 ∧ manager_inv (w_rooms w') ∧ w_service w' = w_service w2.
Proof.
  intros [Hs Hl _ _] Hw Hm. unfold w_rooms in *. rewrite Hs, Hl. done.
Qed.

Lemma finish_join_outcome w c request result token id p :
  mj_room_id result = id → mj_player_id result = p →
  manager_inv (w_rooms w) → sm_inv (w_sessions w) → bindings_ (w_sessions w) !! c = Some token →
  is_Some (member_at (w_rooms w) id p) →
  let w' := finish_join (Some c) request result token w in
  w_live w' = w_live w ∧ manager_inv (w_rooms w') ∧
  ((w_sessions w' = w_sessions w ∧ ∀ room q, member_at (w_rooms w') room q = member_at (w_rooms w) room q) ∨
   (w_sessions w' = with_tables (w_sessions w) (delete token (sessions_ (w_sessions w)))
                     (delete c (bindings_ (w_sessions w))) ∧
    ∀ room q, member_at (w_rooms w') room q =
      if bool_decide ((room, q) = (id, p)) then None else member_at (w_rooms w) room q)).
Proof.
  intros Hid Hp Hm Hs Hc Hmem. unfold finish_join. rewrite Hid, Hp.
  pose proof (λ w, rollback_join_outcome w c id p token) as Hrb.
  assert (Hroll : ∀ rooms, manager_inv rooms → (∀ room q, member_at rooms room q = member_at (w_rooms w) room q) →
    let w' := rollback_join (Some c) id p (set_rooms rooms w) in
    w_live w' = w_live w ∧ manager_inv (w_rooms w') ∧
    w_sessions w' = with_tables (w_sessions w) (delete token (sessions_ (w_sessions w)))
                     (delete c (bindings_ (w_sessions w))) ∧
    ∀ room q, member_at (w_rooms w') room q =
      if bool_decide ((room, q) = (id, p)) then None else member_at (w_rooms w) room q).
  { intros rooms Hr Hsame w'. destruct (Hrb (set_rooms rooms w)) as (Hl & Hr' & Hs' & Hmem');
      [done|done|done|by change (is_Some (member_at rooms id p)); rewrite Hsame|].
    split_and!; [done|done|done|]. intros room q. unfold w'. rewrite Hmem'. case_bool_decide; [done|].
    apply Hsame. }
  destruct (encode_join_ok _ _ _ _) as [response|]; [destruct (encode_player_joined _ _ _) as [event|]|].
  2-3: destruct (Hrb w) as (? & ? & ? & ?); auto.
  pose proof (start_if_full_inv id (w_rooms w) Hm) as Hm'.
  pose proof (λ room q : Z, member_at_keep (w_rooms w) (MStartIfFull id) room q) as Hkeep. cbn in Hkeep.
  destruct (start_if_full id (w_rooms w)) as [st rooms]. cbn in Hm', Hkeep.
  case_bool_decide; cbn [negb].
  - pose proof (send_frame_only (Some c) MessageType.join_ok response (set_rooms rooms w)) as Hsend.
    destruct (send_frame _ _ _ _) as [ok w2]. cbn in Hsend.
    pose proof (broadcast_frame_only (Some <$> mj_notify result) MessageType.player_joined event w2) as Hb.
    destruct (only_posts_outcome (set_rooms rooms w) _ _ (transitivity Hsend Hb)) as (? & ? & Hsv); [done|done|].
    split_and!; [done|done|]. left. unfold w_sessions, w_rooms. rewrite Hsv. done.
  - destruct (Hroll rooms Hm' Hkeep) as (Hl & Hr & Hse & Hme).
    match goal with |- context [report ?a ?b ?e ?w0] =>
      destruct (only_posts_outcome w w0 _ (report_only a b e w0) Hl Hr) as (? & ? & Hsv) end.
    split_and!; [done|done|]. right. unfold w_sessions, w_rooms in *. rewrite Hsv. done.
Qed.

Definition join_outcome (w : World) (c : Conn) (payload : bytes) (w' : World) : Prop :=
  w_live w' = w_live w ∧ manager_inv (w_rooms w') ∧
  (same_players (w_service w) (w_service w') ∨
   ∃ request p token, decode_join_request payload = Some request ∧ joined w w' c request p token).

Lemma join_posts w w1 w' c payload :
  only_posts w1 w' → w_live w1 = w_live w → manager_inv (w_rooms w1) →
  same_players (w_service w) (w_service w1) → join_outcome w c payload w'.
Proof.
  intros Hp Hl Hm Hsame. destruct (only_posts_outcome w w1 w' Hp Hl Hm) as (? & ? & Hsv).
  split_and!; [done|done|]. left. by rewrite Hsv.
Qed.

Lemma handle_join_outcome w opened c payload :
  service_inv (w_service w) opened → join_outcome w c payload (handle_join (Some c) payload w).
Proof.
  intros Hi. pose proof (si_rooms _ _ Hi : manager_inv (w_rooms w)) as Hm.
  pose proof (si_sessions _ _ Hi : sm_inv (w_sessions w)) as Hs.
  unfold handle_join. destruct (decode_join_request payload) as [request|] eqn:Hdec.
  2: { by eapply join_posts; [apply send_error_only|..]. }
  destruct (lookup_session_cases _ c Hs) as [[Hc Hst]|(t & e & Hc & He & _ & _ & Hst)]; rewrite Hst.
  2: { by eapply join_posts; [apply send_error_only|..]. }
  rewrite bool_decide_false, bool_decide_true by done. cbn [negb].
  pose proof (manager_join_outcome (w_live w) (Some c) (jr_room_id request) (jr_player_name request) _ Hm) as Hj.
  pose proof (manager_join_inv (w_live w) (Some c) (jr_room_id request) (jr_player_name request) _ Hm) as Hm'.
  destruct (manager_join _ _ _ _ (w_rooms w)) as [result rooms]. cbn [snd] in Hm'.
  destruct Hj as [[Hfail Hrooms]|(? & r & p & [= <-] & Hname & _ & _ & _ & Hok & Hid & Hp & Hrange & _ & _ & Hfresh & Hmem)].
  { rewrite bool_decide_false by done. cbn [negb].
    eapply join_posts; [apply report_only|done|exact Hm'|]. split; [done|]. intros room q.
    change (member_at rooms room q = member_at (w_rooms w) room q).
    unfold member_at. by rewrite Hrooms. }
  rewrite Hok, bool_decide_true by done. cbn [negb]. rewrite Hid, Hp.
  pose proof (create_inv (w_random w) (Some c) (jr_room_id request) p (w_sessions w) Hs) as Hs'.
  change (w_sessions (set_rooms rooms w)) with (w_sessions w).
  change (w_random (set_rooms rooms w)) with (w_random w).
  destruct (create _ _ _ _ _) as [[session_result random] sessions] eqn:Hcr. cbn [snd] in Hs'.
  apply create_cases in Hcr as [[Hfail ->]|(? & token & [= <-] & Hcb & Htok & Hgen & Hne & -> & ->)].
  - rewrite bool_decide_false by done. cbn [negb].
    pose proof (manager_leave_outcome (w_live w) (jr_room_id request) p rooms Hm') as Hl.
    pose proof (manager_leave_inv (w_live w) (jr_room_id request) p rooms Hm') as Hm''.
    change (w_live (set_random _ _)) with (w_live w). change (w_rooms (set_random _ _)) with rooms.
    destruct (manager_leave (w_live w) (jr_room_id request) p rooms) as [lr rooms'].
    destruct Hl as (_ & _ & Hl). split_and!; [done|exact Hm''|]. left. split; [done|].
    intros room q. change (member_at rooms' room q = member_at (w_rooms w) room q). rewrite Hl.
    case_bool_decide as Hq; [by injection Hq as -> ->|]. rewrite Hmem. by rewrite bool_decide_false.
  - cbn [ct_state ct_token]. rewrite bool_decide_true by done. cbn [negb]. set (w1 := set_random random _).
    destruct (finish_join_outcome w1 c request result token (jr_room_id request) p) as (Hl & Hm1 & Hcase);
      [done|done|exact Hm'|exact Hs'|cbn; by rewrite lookup_insert_eq|cbn; by rewrite Hmem, bool_decide_true|].
    split_and!; [done|done|]. destruct Hcase as [[Hse Hme]|[Hse Hme]].
    + right. exists request, p, token. split; [done|]. unfold joined. split_and!; try done; try lia.
      intros room q. rewrite Hme. apply Hmem.
    + left. split.
      * change (w_sessions (finish_join (Some c) request result token w1) = w_sessions w). rewrite Hse.
        cbn. unfold with_tables at 1. cbn. rewrite !delete_insert_id by done. by destruct (w_sessions w).
      * intros room q.
        change (member_at (w_rooms (finish_join (Some c) request result token w1)) room q =
                member_at (w_rooms w) room q).
        rewrite Hme. case_bool_decide as Hq; [by injection Hq as -> ->|].
        change (w_rooms w1) with rooms. rewrite Hmem. by rewrite bool_decide_false.
Qed.

(** ** Resuming *)

(** A successful resumption: the offline session of [token], with entry [e]
    and member [m], goes online on [c]. *)
Definition resumed (w w' : World) (c : Conn) (now : Z) (token : bytes) (e : Session) (m : Member) : Prop :=
  sessions_ (w_sessions w) !! token = Some e ∧ se_state e = SS.offline ∧ now < se_offline_deadline e ∧
  bindings_ (w_sessions w) !! c = None ∧
  member_at (w_rooms w) (se_room_id e) (se_player_id e) = Some m ∧
  w_sessions w' = with_tables (w_sessions w)
    (<[token := MkSession (se_room_id e) (se_player_id e) SS.online (Some c) (se_offline_deadline e)]>
       (sessions_ (w_sessions w)))
    (<[c := token]> (bindings_ (w_sessions w))) ∧
  ∀ room q, member_at (w_rooms w') room q =
    if bool_decide ((room, q) = se_identity e)
    then Some (MkMember (mb_player_id m) (mb_player_name m) (Some c)) else member_at (w_rooms w) room q.

Definition resume_outcome (w : World) (c : Conn) (now : Z) (payload : bytes) (w' : World) : Prop :=
  w_live w' = w_live w ∧ manager_inv (w_rooms w') ∧
  (same_players (w_service w) (w_service w') ∨
   ∃ request e m, decode_resume_request payload = Some request ∧
     resumed w w' c now (rr_token request) e m).

Lemma resume_posts w w1 w' c now payload :
  only_posts w1 w' → w_live w1 = w_live w → manager_inv (w_rooms w1) →
  same_players (w_service w) (w_service w1) → resume_outcome w c now payload w'.
Proof.
  intros Hp Hl Hm Hsame. destruct (only_posts_outcome w w1 w' Hp Hl Hm) as (? & ? & Hsv).
  split_and!; [done|done|]. left. by rewrite Hsv.
Qed.

(** An offline session as the tables hold it. *)
Lemma offline_session m t e :
  sm_inv m → sessions_ m !! t = Some e → se_state e = SS.offline →
  e = Session_offline (se_room_id e) (se_player_id e) (se_offline_deadline e).
Proof.
  intros Hm He Hst. pose proof (sv_offline m Hm t e He Hst) as Hw. destruct e; cbn in *. by subst.
Qed.

(** Undoing a resumption gives the manager back as it was. *)
Lemma rollback_undoes live c now token e m :
  sm_inv m → c ∈ live → bindings_ m !! c = None → sessions_ m !! token = Some e →
  se_state e = SS.offline → now < se_offline_deadline e →
  rollback_resume live (Some c) (resume (Some c) token now m).2 = (SM.success, m).
Proof.
  intros Hm Hl Hc He Hst Hnow. pose proof (offline_session m token e Hm He Hst) as Hoff.
  unfold resume. rewrite Hc, He, Hst.
  assert (Hx : expired now e = false).
  { unfold expired. rewrite Hst, bool_decide_true by done. cbn. apply Z.leb_gt. lia. }
  rewrite Hx, session_bind_offline by done. cbn [bool_decide negb decide_rel].
  rewrite bool_decide_true by done. cbn [negb snd]. unfold rollback_resume. cbn [bindings_ sessions_ with_tables].
  rewrite !lookup_insert_eq. cbn [se_offline_deadline]. rewrite session_detach_online by done.
  cbn [negb]. do 2 f_equal. unfold with_tables. cbn. rewrite insert_insert_eq, delete_insert_id by done.
  rewrite <-Hoff, insert_id by done. by destruct m.
Qed.

Lemma handle_resume_outcome w opened c now payload :
  service_inv (w_service w) opened → c ∈ w_live w →
  resume_outcome w c now payload (handle_resume now (Some c) payload w).
Proof.
  intros Hi Hl. pose proof (si_rooms _ _ Hi : manager_inv (w_rooms w)) as Hm.
  pose proof (si_sessions _ _ Hi : sm_inv (w_sessions w)) as Hs.
  unfold handle_resume. destruct (decode_resume_request payload) as [request|] eqn:Hdec.
  2: { by eapply resume_posts; [apply send_error_only|..]. }
  pose proof (rollback_undoes (w_live w) c now (rr_token request)) as Hundo.
  destruct (resume_cases (Some c) (rr_token request) now (w_sessions w))
    as [[Hfail Hsame]|(? & e & [= <-] & Hc & He & Hst & Hnow & Hres)].
  { destruct (resume _ _ _ _) as [res sessions]. cbn in Hfail, Hsame. subst sessions.
    rewrite bool_decide_false by done. cbn [negb]. by eapply resume_posts; [apply report_only|..]. }
  specialize (Hundo e (w_sessions w) Hs Hl Hc He Hst Hnow). rewrite Hres in Hundo |- *. cbn [snd] in Hundo.
  set (sessions := with_tables _ _ _) in *. cbn [rs_state rs_room_id rs_player_id].
  rewrite bool_decide_true by done. cbn [negb]. set (w1 := set_sessions sessions w).
  destruct (si_session _ _ Hi _ _ He) as (m & Hmem & Hconn).
  pose proof (sv_offline _ Hs _ _ He Hst) as Hnone.
  destruct (manager_bind_outcome (w_live w) (se_room_id e) (se_player_id e) c (w_rooms w) m)
    as (r & Hr & Hrm & Hbind & Hmem'); [done|by rewrite Hconn, Hnone|].
  change (w_live w1) with (w_live w). change (w_rooms w1) with (w_rooms w).
  pose proof (manager_bind_inv (w_live w) (se_room_id e) (se_player_id e) (Some c) _ Hm) as Hm'.
  rewrite Hbind in Hm' |- *. cbn [snd] in Hm'. cbn [br_state br_room_id br_player_id br_room_state br_tick_id br_members br_snapshot].
  set (rooms := update_room _ _ _) in *. rewrite bool_decide_true by done. cbn [negb].
  destruct (encode_resume_ok _ _ _ _ _ _) as [response|].
  - pose proof (send_frame_only (Some c) MessageType.resume_ok response (set_rooms rooms w1)) as Hsend.
    destruct (only_posts_outcome w _ _ Hsend) as (? & ? & Hsv); [done|exact Hm'|].
    split_and!; [done|done|]. right. exists request, e, m. split; [done|]. unfold resumed.
    split_and!; [done..| |]; unfold w_sessions, w_rooms; rewrite Hsv; done.
  - destruct (manager_detach_outcome (w_live w) (se_room_id e) (se_player_id e) c rooms
                (MkMember (mb_player_id m) (mb_player_name m) (Some c))) as (r' & Hr' & Hdet & Hmem2);
      [by rewrite Hmem', bool_decide_true|done|done|].
    change (w_live (set_rooms rooms w1)) with (w_live w). change (w_rooms (set_rooms rooms w1)) with rooms.
    pose proof (manager_detach_inv (w_live w) (se_room_id e) (se_player_id e) (Some c) _ Hm') as Hm2.
    rewrite Hdet in Hm2 |- *. cbn [snd] in Hm2 |- *.
    match goal with |- context [rollback_resume ?l ?x ?s] =>
      change (rollback_resume l x s) with (rollback_resume (w_live w) (Some c) sessions) end.
    rewrite Hundo. cbn [snd]. split_and!; [done|exact Hm2|]. left. split; [done|].
    intros room q. cbn [w_service set_sessions room_manager_]. change (w_rooms (set_rooms ?x ?y)) with x.
    rewrite Hmem2. case_bool_decide as Hq; [|rewrite Hmem'; by rewrite bool_decide_false].
    injection Hq as -> ->. unfold disconnect. cbn. unfold w_rooms in Hmem. rewrite Hmem. f_equal.
    destruct m; cbn in *. by rewrite Hconn, Hnone.
Qed.

(** ** Leaving, talking and playing *)

(** The player bound to [c] is gone, with entry [e] of [token]. *)
Definition departed (w w' : World) (c : Conn) (token : bytes) (e : Session) : Prop :=
  bindings_ (w_sessions w) !! c = Some token ∧ sessions_ (w_sessions w) !! token = Some e ∧
  w_sessions w' = with_tables (w_sessions w) (delete token (sessions_ (w_sessions w)))
                    (delete c (bindings_ (w_sessions w))) ∧
  ∀ room q, member_at (w_rooms w') room q =
    if bool_decide ((room, q) = se_identity e) then None else member_at (w_rooms w) room q.

Definition leave_outcome (w : World) (c : Conn) (w' : World) : Prop :=
  w_live w' = w_live w ∧ manager_inv (w_rooms w') ∧
  (same_players (w_service w) (w_service w') ∨ ∃ token e, departed w w' c token e).

Definition quiet_outcome (w w' : World) : Prop :=
  w_live w' = w_live w ∧ manager_inv (w_rooms w') ∧ same_players (w_service w) (w_service w').

Lemma quiet_posts w w1 w' :
  only_posts w1 w' → w_live w1 = w_live w → manager_inv (w_rooms w1) →
  same_players (w_service w) (w_service w1) → quiet_outcome w w'.
Proof.
  intros Hp Hl Hm Hsame. destruct (only_posts_outcome w w1 w' Hp Hl Hm) as (? & ? & Hsv).
  split_and!; [done|done|]. by rewrite Hsv.
Qed.

Lemma quiet_leave w c w' : quiet_outcome w w' → leave_outcome w c w'.
Proof. intros (? & ? & ?). split_and!; auto. Qed.

(** Who a connection is, or the error sent. *)
Lemma lookup_identity_cases w c type :
  sm_inv (w_sessions w) →
  (∃ w', lookup_identity (Some c) type w = (None, w') ∧ only_posts w w' ∧
     bindings_ (w_sessions w) !! c = None) ∨
  ∃ t e, bindings_ (w_sessions w) !! c = Some t ∧ sessions_ (w_sessions w) !! t = Some e ∧
    se_connection e = Some c ∧
    lookup_identity (Some c) type w = (Some (se_room_id e, se_player_id e), w).
Proof.
  intros Hs. unfold lookup_identity.
  destruct (lookup_session_cases _ c Hs) as [[Hc Hst]|(t & e & Hc & He & _ & Hw & Hst)]; rewrite Hst.
  - left. rewrite bool_decide_false, bool_decide_true by done. eexists. split; [done|].
    split; [apply send_error_only|done].
  - right. exists t, e. cbn [id_state id_room_id id_player_id]. by rewrite bool_decide_true.
Qed.

Lemma handle_leave_outcome w opened c payload :
  service_inv (w_service w) opened → leave_outcome w c (handle_leave (Some c) payload w).
Proof.
  intros Hi. pose proof (si_rooms _ _ Hi : manager_inv (w_rooms w)) as Hm.
  pose proof (si_sessions _ _ Hi : sm_inv (w_sessions w)) as Hs.
  unfold handle_leave. case_match; [by eapply quiet_leave, quiet_posts; [apply send_error_only|..]|].
  destruct (lookup_identity_cases w c MessageType.leave Hs) as [(w' & -> & Hp & _)|(t & e & Hc & He & _ & ->)].
  { by eapply quiet_leave, quiet_posts; [exact Hp|..]. }
  destruct (si_session _ _ Hi _ _ He) as (m & Hmem & _).
  pose proof (manager_leave_outcome (w_live w) (se_room_id e) (se_player_id e) (w_rooms w) Hm) as Hl.
  pose proof (manager_leave_inv (w_live w) (se_room_id e) (se_player_id e) (w_rooms w) Hm) as Hm'.
  destruct (manager_leave _ _ _ (w_rooms w)) as [res rooms]. cbn [snd] in Hm'.
  destruct Hl as (Hok & _ & Hmem'). rewrite bool_decide_true by (apply Hok; by eexists). cbn [negb].
  change (w_sessions (set_rooms rooms w)) with (w_sessions w). rewrite (erase_bound _ _ t) by done. cbn [snd].
  set (w1 := set_sessions _ _). cbn [encode_leave_ok encode_player_left].
  pose proof (send_frame_only (Some c) MessageType.leave_ok (append_u32 [] (se_room_id e)) w1) as Hsend.
  unfold encode_leave_ok. destruct (send_frame _ _ _ w1) as [ok w2]. cbn [snd] in Hsend. unfold encode_player_left.
  match goal with |- context [broadcast_frame ?l ?ty ?p w2] =>
    pose proof (transitivity Hsend (broadcast_frame_only l ty p w2)) as Hb end.
  destruct (only_posts_outcome w _ _ Hb) as (? & ? & Hsv); [done|exact Hm'|].
  split_and!; [done|done|]. right. exists t, e.
  split_and!; [done|done| |]; unfold w_sessions, w_rooms; rewrite Hsv; [done|exact Hmem'].
Qed.

Lemma handle_chat_outcome w opened c payload :
  service_inv (w_service w) opened → quiet_outcome w (handle_chat (Some c) payload w).
Proof.
  intros Hi. pose proof (si_rooms _ _ Hi : manager_inv (w_rooms w)) as Hm.
  pose proof (si_sessions _ _ Hi : sm_inv (w_sessions w)) as Hs.
  assert (Hpost : ∀ w', only_posts w w' → quiet_outcome w w').
  { intros w' Hp. by eapply quiet_posts. }
  unfold handle_chat. destruct (decode_chat_request payload) as [request|]; [|auto with lw_wf].
  destruct (lookup_identity_cases w c MessageType.chat Hs) as [(w' & -> & Hp & _)|(t & e & _ & _ & _ & ->)]; [auto|].
  case_match; [auto with lw_wf|]. case_match; [auto with lw_wf|]. by apply Hpost.
Qed.

Lemma handle_command_outcome w opened (op : manager_op) (res : CommandResult) rooms connection type code :
  service_inv (w_service w) opened → rooms = apply_manager_op (w_rooms w) op →
  match op with MMove _ _ _ _ | MAttack _ _ _ => True | _ => False end →
  quiet_outcome w
    (if negb (bool_decide (cr_state res = MG.success)) then report connection type code (set_rooms rooms w)
     else set_rooms rooms w).
Proof.
  intros Hi -> Hop. destruct (rooms_keep w op opened) as [Hsame Hi']; [done|by destruct op|by destruct op|].
  pose proof (si_rooms _ _ Hi' : manager_inv (w_rooms (set_rooms (apply_manager_op (w_rooms w) op) w))) as Hm.
  apply (quiet_posts _ (set_rooms (apply_manager_op (w_rooms w) op) w)); [|done|exact Hm|exact Hsame].
  case_test E; [apply report_only|done].
Qed.

Lemma handle_move_outcome w opened c payload :
  service_inv (w_service w) opened → quiet_outcome w (handle_move (Some c) payload w).
Proof.
  intros Hi. pose proof (si_rooms _ _ Hi : manager_inv (w_rooms w)) as Hm.
  pose proof (si_sessions _ _ Hi : sm_inv (w_sessions w)) as Hs.
  unfold handle_move. destruct (decode_move_request payload) as [request|].
  2: { by eapply quiet_posts; [apply send_error_only|..]. }
  destruct (lookup_identity_cases w c MessageType.move Hs) as [(w' & -> & Hp & _)|(t & e & _ & _ & _ & ->)].
  { by eapply quiet_posts; [exact Hp|..]. }
  destruct (manager_move _ _ _ _ (w_rooms w)) as [res rooms] eqn:E.
  apply (handle_command_outcome w opened (MMove (se_room_id e) (se_player_id e) (mr_dx request) (mr_dy request)));
    [done|cbn; by rewrite E|done].
Qed.

Lemma handle_attack_outcome w opened c payload :
  service_inv (w_service w) opened → quiet_outcome w (handle_attack (Some c) payload w).
Proof.
  intros Hi. pose proof (si_rooms _ _ Hi : manager_inv (w_rooms w)) as Hm.
  pose proof (si_sessions _ _ Hi : sm_inv (w_sessions w)) as Hs.
  unfold handle_attack. destruct (decode_attack_request payload) as [request|].
  2: { by eapply quiet_posts; [apply send_error_only|..]. }
  destruct (lookup_identity_cases w c MessageType.attack Hs) as [(w' & -> & Hp & _)|(t & e & _ & _ & _ & ->)].
  { by eapply quiet_posts; [exact Hp|..]. }
  destruct (manager_attack _ _ _ (w_rooms w)) as [res rooms] eqn:E.
  apply (handle_command_outcome w opened (MAttack (se_room_id e) (se_player_id e) (ar_target request)));
    [done|cbn; by rewrite E|done].
Qed.

Lemma handle_tick_outcome w opened expirations :
  service_inv (w_service w) opened → quiet_outcome w (handle_tick true expirations w).
Proof.
  intros Hi. pose proof (si_rooms _ _ Hi : manager_inv (w_rooms w)) as Hm.
  unfold handle_tick. cbn [negb]. case_match; [by eapply quiet_posts|].
  destruct (rooms_keep w (MTick (w_live w)) opened) as [Hsame Hi']; [done..|]. cbn in Hsame, Hi'.
  destruct (tick_rooms (w_live w) (w_rooms w)) as [results rooms]. cbn in Hsame, Hi'.
  eapply quiet_posts; [apply broadcast_ticks_only|done|exact (si_rooms _ _ Hi')|exact Hsame].
Qed.

(** ** Closed connections *)

(** The player bound to [c] goes offline until [now] plus the timeout. *)
Definition disconnected (w w' : World) (c : Conn) (now : Z) (token : bytes) (e : Session) (m : Member) : Prop :=
  bindings_ (w_sessions w) !! c = Some token ∧ sessions_ (w_sessions w) !! token = Some e ∧
  member_at (w_rooms w) (se_room_id e) (se_player_id e) = Some m ∧
  w_sessions w' = with_tables (w_sessions w)
    (<[token := Session_offline (se_room_id e) (se_player_id e) (now + reconnect_timeout_ (w_sessions w))]>
       (sessions_ (w_sessions w)))
    (delete c (bindings_ (w_sessions w))) ∧
  (∃ r, rooms_ (w_rooms w) !! se_room_id e = Some r ∧
     rooms_ (w_rooms w') = <[se_room_id e := set_connection (se_player_id e) None r]> (rooms_ (w_rooms w))) ∧
  ∀ room q, member_at (w_rooms w') room q =
    if bool_decide ((room, q) = se_identity e) then Some (disconnect m) else member_at (w_rooms w) room q.

Lemma handle_closed_outcome w opened c now :
  service_inv (w_service w) opened → c ∈ w_live w →
  let w' := handle_connection_closed true now (Some c) w in
  w_live w' = w_live w ∧ manager_inv (w_rooms w') ∧ w_posted w' = w_posted w ∧
  (bindings_ (w_sessions w) !! c = None ∧ w' = w ∨
   ∃ token e m, disconnected w w' c now token e m).
Proof.
  intros Hi Hl w'. pose proof (si_rooms _ _ Hi : manager_inv (w_rooms w)) as Hm.
  pose proof (si_sessions _ _ Hi : sm_inv (w_sessions w)) as Hs.
  remember w' as w'' eqn:Hw'. unfold w', handle_connection_closed in Hw'.
  rewrite bool_decide_false in Hw' by done. cbn [negb orb] in Hw'.
  destruct (lookup_session_cases _ c Hs) as [[Hc Hst]|(t & e & Hc & He & _ & Hw & Hst)]; rewrite Hst in Hw'.
  { rewrite bool_decide_false in Hw' by done. cbn [negb] in Hw'. subst. split_and!; auto. }
  cbn [id_state id_room_id id_player_id] in Hw'. rewrite bool_decide_true in Hw' by done. cbn [negb] in Hw'.
  destruct (si_session _ _ Hi _ _ He) as (m & Hmem & Hconn). rewrite Hw in Hconn.
  destruct (manager_detach_outcome (w_live w) _ _ c (w_rooms w) m Hmem Hconn Hl) as (r & Hr & Hdet & Hmem').
  pose proof (manager_detach_inv (w_live w) (se_room_id e) (se_player_id e) (Some c) _ Hm) as Hm'.
  rewrite Hdet in Hw', Hm'. cbn [snd] in Hm'. cbn [md_state] in Hw'. rewrite bool_decide_true in Hw' by done.
  cbn [negb] in Hw'. destruct (detach_bound (w_live w) c t now (w_sessions w) Hs Hc Hl)
    as (room & player & old & He' & Hd). rewrite He in He'. injection He' as ->.
  change (w_sessions (set_rooms ?x w)) with (w_sessions w) in Hw'.
  change (w_live (set_rooms ?x w)) with (w_live w) in Hw'. rewrite Hd in Hw'. cbn [snd] in Hw'. subst w''.
  split_and!; [done|exact Hm'|done|]. right. exists t, (MkSession room player SS.online (Some c) old), m.
  split_and!; try done. by exists r.
Qed.

(** ** Expired sessions *)

Definition is_expired (now : Z) (e : Session) : Prop :=
  se_state e = SS.offline ∧ se_offline_deadline e <= now.

#[export] Instance is_expired_dec now e : Decision (is_expired now e).
Proof. unfold is_expired. apply _. Defined.

Definition ex_identity (x : ExpiredSession) : Z * Z := (ex_room_id x, ex_player_id x).

(** The entry [x] stands for an expired session of [m]. *)
Definition expired_entry (now : Z) (m : SessionManager) (x : ExpiredSession) : Prop :=
  ∃ e, sessions_ m !! ex_token x = Some e ∧ is_expired now e ∧ se_identity e = ex_identity x.

Lemma erase_expired_ok now t e m :
  sessions_ m !! t = Some e → is_expired now e →
  erase_expired t now m = (SM.success, with_tables m (delete t (sessions_ m)) (bindings_ m)).
Proof.
  intros He [Hst Hd]. unfold erase_expired, expired. rewrite He, Hst, bool_decide_true by done.
  cbn [negb]. by rewrite (proj2 (Z.leb_le _ _) Hd).
Qed.

(** What removing the entries [l] does. *)
Definition removed (l : list ExpiredSession) (w w' : World) : Prop :=
  w_live w' = w_live w ∧
  bindings_ (w_sessions w') = bindings_ (w_sessions w) ∧
  (∀ t, sessions_ (w_sessions w') !! t =
     if bool_decide (t ∈ ex_token <$> l) then None else sessions_ (w_sessions w) !! t) ∧
  (∀ room q, member_at (w_rooms w') room q =
     if bool_decide ((room, q) ∈ ex_identity <$> l) then None else member_at (w_rooms w) room q).

Lemma masked_cons {A B} `{EqDecision A} (a x : A) (l : list A) (o : option B) :
  (if bool_decide (a ∈ l) then None else if bool_decide (a ∈ [x]) then None else o) =
    if bool_decide (a ∈ x :: l) then None else o.
Proof.
  rewrite (bool_decide_ext (a ∈ [x]) (a = x)) by apply list_elem_of_singleton.
  rewrite (bool_decide_ext (a ∈ x :: l) (a = x ∨ a ∈ l)) by apply elem_of_cons.
  repeat case_bool_decide; tauto.
Qed.

(** One entry: its player leaves. *)
Lemma remove_one_outcome now x w opened :
  service_inv (w_service w) opened → expired_entry now (w_sessions w) x →
  ∃ w1, (∀ l, remove_expired now (x :: l) w = remove_expired now l w1) ∧ removed [x] w w1 ∧
    service_inv (w_service w1) opened.
Proof.
  intros Hi (e & He & Hexp & Hid). pose proof (si_rooms _ _ Hi : manager_inv (w_rooms w)) as Hm.
  pose proof (si_sessions _ _ Hi : sm_inv (w_sessions w)) as Hs. injection Hid as Hroom Hplayer.
  destruct (si_session _ _ Hi _ _ He) as (m & Hmem & _). rewrite Hroom, Hplayer in Hmem.
  pose proof (manager_leave_outcome (w_live w) (ex_room_id x) (ex_player_id x) (w_rooms w) Hm) as Hl.
  pose proof (manager_leave_inv (w_live w) (ex_room_id x) (ex_player_id x) (w_rooms w) Hm) as Hm'.
  pose proof (apply_sm_op_inv (SEraseExpired (ex_token x) now) _ Hs) as Hs'.
  cbn [apply_sm_op] in Hs'. rewrite (erase_expired_ok now (ex_token x) e) in Hs' by done. cbn [snd] in Hs'.
  cbn [remove_expired]. destruct (manager_leave _ _ _ (w_rooms w)) as [res rooms]. cbn [snd] in Hm'.
  destruct Hl as (Hok & _ & Hmem'). rewrite bool_decide_true by (apply Hok; by eexists). cbn [negb].
  change (w_sessions (set_rooms rooms w)) with (w_sessions w).
  rewrite (erase_expired_ok now (ex_token x) e) by done. rewrite bool_decide_true by done. cbn [negb].
  unfold encode_player_left. set (w0 := set_sessions _ _).
  set (w1 := (broadcast_frame (Some <$> nr_notify res) MessageType.player_left _ w0).2).
  exists w1. split; [done|].
  destruct (only_posts_outcome w w0 w1 (broadcast_frame_only _ _ _ _)) as (Hlive & Hm1 & Hsv); [done|exact Hm'|].
  assert (Hrem : removed [x] w w1).
  { split_and!; [done|unfold w_sessions; by rewrite Hsv|..].
    - intros t. unfold w_sessions. rewrite Hsv. cbn. destruct (decide (t = ex_token x)) as [->|Hne].
      + rewrite lookup_delete_eq, bool_decide_true by by apply list_elem_of_singleton. done.
      + rewrite lookup_delete_ne, bool_decide_false by (rewrite ?list_elem_of_singleton; congruence). done.
    - intros room q. unfold w_rooms. rewrite Hsv. change (room_manager_ (w_service w0)) with rooms.
      rewrite Hmem'. erewrite bool_decide_ext; [done|]. cbn. by rewrite list_elem_of_singleton. }
  split; [done|]. rewrite Hsv. apply (inv_delete (w_service w) (w_service w0) opened (ex_token x) e); try done.
  - intros room p. change (room_manager_ (w_service w0)) with rooms. rewrite Hmem'.
    unfold se_identity. by rewrite Hroom, Hplayer.
  - apply Hi.
Qed.

Lemma remove_expired_outcome now l w opened :
  service_inv (w_service w) opened → NoDup (ex_token <$> l) → NoDup (ex_identity <$> l) →
  Forall (expired_entry now (w_sessions w)) l →
  removed l w (remove_expired now l w) ∧ service_inv (w_service (remove_expired now l w)) opened.
Proof.
  revert w. induction l as [|x l IH]; intros w Hi Ht Hid Hl; [by split|].
  rewrite fmap_cons in Ht. rewrite fmap_cons in Hid.
  apply NoDup_cons in Ht as [Hx Ht]. apply NoDup_cons in Hid as [Hxi Hid].
  apply Forall_cons in Hl as [Hx1 Hl].
  destruct (remove_one_outcome now x w opened Hi Hx1) as (w1 & Heq & (Hlive & Hb & Hse & Hme) & Hi1).
  rewrite Heq. destruct (IH w1 Hi1 Ht Hid) as [(Hlive' & Hb' & Hse' & Hme') Hi'].
  { rewrite Forall_forall in Hl |- *. intros y Hy. destruct (Hl y Hy) as (e & He & Hexp & Heid).
    exists e. split; [|done]. rewrite Hse, bool_decide_false; [done|]. cbn. rewrite list_elem_of_singleton.
    intros Heq'. apply Hx. rewrite <-Heq'. by apply list_elem_of_fmap_2. }
  split; [|done]. split_and!; [congruence|congruence|..].
  - intros t. rewrite Hse', Hse. rewrite fmap_cons. apply masked_cons.
  - intros room q. rewrite Hme', Hme. rewrite fmap_cons. apply masked_cons.
Qed.

Lemma elem_of_expired_sessions now m x :
  x ∈ expired_sessions now m ↔
    ∃ t e, sessions_ m !! t = Some e ∧ is_expired now e ∧
      x = MkExpiredSession t (se_room_id e) (se_player_id e).
Proof.
  unfold expired_sessions. rewrite list_elem_of_omap. unfold is_expired, expired. split.
  - intros ([t e] & Hin%elem_of_hash_iter & Hx). exists t, e. case_bool_decide as Hst; [|done]. cbn in Hx.
    destruct (Z.leb_spec (se_offline_deadline e) now); [|done]. cbn in Hx. by simplify_eq.
  - intros (t & e & He & [Hst Hd] & ->). exists (t, e). split; [by apply elem_of_hash_iter|].
    rewrite bool_decide_true by done. cbn. by rewrite (proj2 (Z.leb_le _ _) Hd).
Qed.

Lemma expired_tokens_NoDup now m : NoDup (ex_token <$> expired_sessions now m).
Proof.
  unfold expired_sessions. pose proof (hash_iter_NoDup_fst (sessions_ m)) as Hnd.
  induction (hash_iter (sessions_ m)) as [|[t e] l IH]; [constructor|].
  cbn in Hnd. apply NoDup_cons in Hnd as [Hn Hnd]. specialize (IH Hnd). cbn [omap list_omap].
  case_test Hb; [done|]. rewrite fmap_cons. apply NoDup_cons.
  split; [|done]. cbn. intros (x & -> & ([t' e'] & Hin & Hx)%list_elem_of_omap)%list_elem_of_fmap.
  apply Hn. step_match_in Hx; [done|]. injection Hx as <-. cbn. apply list_elem_of_fmap. by exists (t', e').
Qed.

Lemma expired_identities_NoDup now m :
  identities_unique m → NoDup (ex_identity <$> expired_sessions now m).
Proof.
  intros Hu. apply NoDup_fmap_2_strong.
  - intros x y (t & e & He & _ & ->)%elem_of_expired_sessions (t' & e' & He' & _ & ->)%elem_of_expired_sessions Heq.
    assert (t = t') as -> by by apply (Hu t t' e e'). congruence.
  - eapply (NoDup_fmap_1 ex_token), expired_tokens_NoDup.
Qed.

Lemma handle_timeouts_outcome now w opened :
  service_inv (w_service w) opened →
  let w' := handle_session_timeouts true now w in
  removed (expired_sessions now (w_sessions w)) w w' ∧ service_inv (w_service w') opened.
Proof.
  intros Hi. apply remove_expired_outcome; [done|apply expired_tokens_NoDup|..].
  - apply expired_identities_NoDup, Hi.
  - apply Forall_forall. intros x (t & e & He & Hexp & ->)%elem_of_expired_sessions. by exists e.
Qed.

(** ** Every step keeps the invariant *)

Lemma joined_inv w w' opened c request p token :
  service_inv (w_service w) opened → c ∈ opened → manager_inv (w_rooms w') →
  joined w w' c request p token → service_inv (w_service w') opened.
Proof.
  intros Hi Hc Hm (_ & _ & Hfresh & Htok & Hb & Hgen & Hne & Hs & Hmem).
  pose proof (si_sessions _ _ Hi : sm_inv (w_sessions w)) as Hsm. unfold w_sessions in Hs.
  eapply (inv_insert _ _ opened opened token (Session_online (jr_room_id request) p (Some c)));
    [exact Hi|exact Hm| | |exact Hmem|done| |].
  - rewrite Hs. apply bind_inv; try done; [subst token; by apply generate_token_valid|].
    intros s0 Hs0. unfold w_sessions in Htok. congruence.
  - by rewrite Hs.
  - unfold w_sessions in Htok. by rewrite Htok.
  - rewrite Hs. cbn. intros c' t [[<- <-]|[_ Hc']]%lookup_insert_Some; [done|by apply (si_open _ _ Hi _ t)].
Qed.

Lemma resumed_inv w w' opened c now token e m :
  service_inv (w_service w) opened → c ∈ opened → manager_inv (w_rooms w') →
  resumed w w' c now token e m → service_inv (w_service w') opened.
Proof.
  intros Hi Hc Hm (He & Hst & Hd & Hb & Hmem & Hs & Hmem').
  pose proof (si_sessions _ _ Hi : sm_inv (w_sessions w)) as Hsm. unfold w_sessions in Hs.
  eapply (inv_insert _ _ opened opened token
            (MkSession (se_room_id e) (se_player_id e) SS.online (Some c) (se_offline_deadline e)));
    [exact Hi|exact Hm| | |exact Hmem'|done| |].
  - rewrite Hs. apply bind_inv; try done; [by apply (sv_token _ Hsm token e)|].
    intros s0 Hs0. unfold w_sessions in He. congruence.
  - by rewrite Hs.
  - unfold w_sessions in He. by rewrite He.
  - rewrite Hs. cbn. intros c' t [[<- <-]|[_ Hc']]%lookup_insert_Some; [done|by apply (si_open _ _ Hi _ t)].
Qed.

Lemma departed_inv w w' opened c token e :
  service_inv (w_service w) opened → manager_inv (w_rooms w') → departed w w' c token e →
  service_inv (w_service w') opened.
Proof.
  intros Hi Hm (Hc & He & Hs & Hmem). pose proof (si_sessions _ _ Hi : sm_inv (w_sessions w)) as Hsm.
  pose proof (apply_sm_op_inv (SEraseConnection (Some c)) _ Hsm) as Hsm'. cbn [apply_sm_op] in Hsm'.
  rewrite (erase_bound _ _ token) in Hsm' by done. cbn [snd] in Hsm'. rewrite <-Hs in Hsm'.
  unfold w_sessions in Hs.
  apply (inv_delete _ _ opened token e Hi); [exact Hm|exact Hsm'|exact He|by rewrite Hs|exact Hmem|].
  rewrite Hs. cbn. intros c' t [_ Hc']%lookup_delete_Some. by apply (si_open _ _ Hi _ t).
Qed.

Lemma disconnected_inv w w' opened c now token e m :
  service_inv (w_service w) opened → manager_inv (w_rooms w') → disconnected w w' c now token e m →
  service_inv (w_service w') (opened ∖ {[c]}).
Proof.
  intros Hi Hm (Hc & He & Hmem & Hs & _ & Hmem').
  pose proof (si_sessions _ _ Hi : sm_inv (w_sessions w)) as Hsm. unfold w_sessions in Hs.
  eapply (inv_insert _ _ opened _ token (Session_offline (se_room_id e) (se_player_id e) _));
    [exact Hi|exact Hm| | |exact Hmem'|done| |].
  - rewrite Hs. by apply (unbind_inv (w_sessions w)).
  - by rewrite Hs.
  - unfold w_sessions in He. by rewrite He.
  - rewrite Hs. cbn. intros c' t [Hne Hc']%lookup_delete_Some. apply elem_of_difference.
    split; [by apply (si_open _ _ Hi _ t)|]. rewrite elem_of_singleton. congruence.
Qed.

Lemma quiet_inv w w' opened :
  service_inv (w_service w) opened → quiet_outcome w w' →
  service_inv (w_service w') opened ∧ w_live w' = w_live w.
Proof. intros Hi (Hl & Hm & Hs). split; [|done]. by eapply inv_same. Qed.

Lemma frame_inv now w opened c type payload :
  service_inv (w_service w) opened → c ∈ opened → c ∈ w_live w →
  let w' := handle_frame_in_loop true now (Some c) type payload w in
  service_inv (w_service w') opened ∧ w_live w' = w_live w.
Proof.
  intros Hi Hc Hl. cbn zeta. unfold handle_frame_in_loop. rewrite bool_decide_false by done. cbn [negb orb].
  destruct (MessageType.of_value type) as [[]|]; try done.
  - destruct (handle_join_outcome w opened c payload Hi) as (? & ? & [?|(? & ? & ? & _ & ?)]); (split; [|done]).
    + by eapply inv_same.
    + by eapply joined_inv.
  - destruct (handle_leave_outcome w opened c payload Hi) as (? & ? & [?|(? & ? & ?)]); (split; [|done]).
    + by eapply inv_same.
    + by eapply departed_inv.
  - by apply quiet_inv, (handle_chat_outcome w opened).
  - by apply quiet_inv, (handle_move_outcome w opened).
  - by apply quiet_inv, (handle_attack_outcome w opened).
  - destruct (handle_resume_outcome w opened c now payload Hi Hl) as (? & ? & [?|(? & ? & ? & _ & ?)]); (split; [|done]).
    + by eapply inv_same.
    + by eapply resumed_inv.
Qed.

Lemma service_inv_on s X Y : service_inv s X → bound s ⊆ Y → service_inv s Y.
Proof. intros [] Hsub. split; try done. intros c t Hc. apply Hsub, elem_of_dom. by eexists. Qed.

Lemma service_inv_bound s X : service_inv s X → bound s ⊆ X.
Proof. unfold bound. intros Hi c [t Hc]%elem_of_dom. by apply (si_open _ _ Hi c t). Qed.

Lemma opened_weaken s opened opened' : service_inv s opened → opened ⊆ opened' → service_inv s opened'.
Proof. intros Hi Hsub. eapply service_inv_on; [exact Hi|]. by apply service_inv_bound in Hi; etransitivity. Qed.

(** The invariant from that of the service for some set of connections. *)
Lemma system_inv_intro late s X :
  service_inv (w_service (sys_world s)) X → (late = false → X ⊆ sys_open s) →
  sys_open s ⊆ w_live (sys_world s) → system_inv late s.
Proof.
  intros Hi Ho Hl. split; [by eapply service_inv_on|intros Hlate|done].
  etransitivity; [by apply service_inv_bound|by apply Ho].
Qed.

(** ... and back, for a set that holds a connection of interest. *)
Lemma system_inv_elim late s c :
  system_inv late s → (late = false → c ∈ sys_open s) →
  ∃ X, service_inv (w_service (sys_world s)) X ∧ c ∈ X ∧ (late = false → X ⊆ sys_open s).
Proof.
  intros [Hi Ho Hl] Hc. exists (if late then {[c]} ∪ bound (w_service (sys_world s)) else sys_open s).
  destruct late.
  - split_and!; [|set_solver|done]. eapply service_inv_on; [exact Hi|]. set_solver.
  - split_and!; [|by apply Hc|done]. eapply service_inv_on; [exact Hi|]. by apply Ho.
Qed.

Lemma closed_inv w X c now :
  service_inv (w_service w) X → c ∈ w_live w →
  let w' := handle_connection_closed true now (Some c) w in
  service_inv (w_service w') (X ∖ {[c]}) ∧ w_live w' = w_live w.
Proof.
  intros Hi Hc. cbn zeta. destruct (handle_closed_outcome w X c now Hi Hc) as (Hl' & Hm & _ & Hcase).
  split; [|done]. destruct Hcase as [[Hb ->]|(token & e & m & Hd)]; [|by eapply disconnected_inv].
  eapply service_inv_on; [exact Hi|]. pose proof (service_inv_bound _ _ Hi) as Hsub.
  intros x Hx. apply elem_of_difference. split; [by apply Hsub|]. rewrite elem_of_singleton. intros ->.
  unfold bound in Hx. apply elem_of_dom in Hx as [t Hx]. unfold w_sessions in Hb. congruence.
Qed.

Lemma step_inv late s s' : step late s s' → system_inv late s → system_inv late s'.
Proof.
  intros Hstep Hsys. pose proof Hsys as [Hi Ho Hl].
  destruct Hstep as [room_id capacity w opened|c now w opened|c conn w opened|rs w opened|c type payload now w opened Hlive Hc
    |c now w opened Hc|c w opened Hc|expirations w opened|now w opened]; cbn [sys_world sys_open] in *.
  - destruct (rooms_keep w (MAdd room_id capacity) (bound (w_service w))) as [_ Hi']; [done..|].
    unfold service_add_room. cbn in *. destruct (add_room room_id capacity (w_rooms w)).
    by apply (system_inv_intro _ _ (bound (w_service w))).
  - apply (system_inv_intro _ _ (bound (w_service w))); cbn [sys_world sys_open]; [exact Hi| |].
    + intros Hlate. etransitivity; [by apply Ho|]. apply union_subseteq_r.
    + unfold w_live. cbn. rewrite dom_insert_L. by apply union_mono_l.
  - apply (system_inv_intro _ _ (bound (w_service w))); cbn [sys_world sys_open]; [exact Hi|done|].
    destruct (set_conn_only c conn w) as [_ Hl' _ _]; [done|]. by rewrite Hl'.
  - done.
  - destruct (system_inv_elim _ _ c Hsys Hc) as (X & HX & HcX & HoX).
    destruct (frame_inv now w X c type payload) as [Hi' Hl']; [done..|].
    apply (system_inv_intro _ _ X); cbn [sys_world sys_open]; [done..|by rewrite Hl'].
  - destruct (system_inv_elim _ _ c Hsys (λ _, Hc)) as (X & HX & _ & HoX).
    destruct (closed_inv w X c now HX (Hl _ Hc)) as [Hi' Hl'].
    apply (system_inv_intro _ _ (X ∖ {[c]})); cbn [sys_world sys_open]; [done|set_solver|].
    rewrite Hl'. set_solver.
  - apply (system_inv_intro _ _ (bound (w_service w))); cbn [sys_world sys_open]; [exact Hi|done|].
    unfold w_live. cbn. rewrite dom_delete_L. set_solver.
  - destruct (quiet_inv w _ _ Hi (handle_tick_outcome w _ expirations Hi)) as [Hi' Hl'].
    apply (system_inv_intro _ _ (bound (w_service w))); cbn [sys_world sys_open]; [done..|by rewrite Hl'].
  - destruct (handle_timeouts_outcome now w _ Hi) as [(Hl' & _) Hi'].
    apply (system_inv_intro _ _ (bound (w_service w))); cbn [sys_world sys_open]; [done..|by rewrite Hl'].
Qed.

(** The guarded steps are steps. *)
Lemma step_late late s s' : step late s s' → step true s s'.
Proof. by destruct 1; constructor. Qed.

Lemma reachable_late late s : reachable late s → reachable true s.
Proof.
  induction 1 as [timeout|s s' _ IH Hstep|s generation cp timeout now service _ IH Hmake Hrestore].
  - constructor.
  - by eapply ReachStep, step_late.
  - by eapply ReachRestart.
Qed.

Lemma RoomService_new_inv timeout : service_inv (RoomService_new timeout) ∅.
Proof.
  split; cbn; [apply RoomManager_new_inv|..].
  2: { intros t1 t2 s1 s2. cbn. by rewrite lookup_empty. }
  2: { intros room p m. unfold member_at. cbn. by rewrite lookup_empty. }
  all: repeat split; cbn; intros ??; by rewrite lookup_empty.
Qed.

(** ** Checkpoints *)

Lemma elem_of_manager_checkpoint m cp :
  cp ∈ manager_make_checkpoint m ↔ ∃ id r, rooms_ m !! id = Some r ∧ cp = room_make_checkpoint r.
Proof.
  unfold manager_make_checkpoint. rewrite sort_on_elem, list_elem_of_fmap.
  setoid_rewrite elem_of_hash_values. naive_solver.
Qed.

Lemma elem_of_member_records r x :
  x ∈ member_records r ↔ ∃ p m, members_ r !! p = Some m ∧ x = member_record_of m.
Proof.
  rewrite member_records_perm, list_elem_of_fmap. setoid_rewrite elem_of_hash_values. naive_solver.
Qed.

Lemma elem_of_room_identities m room p :
  manager_inv m →
  (room, p) ∈ room_identities (manager_make_checkpoint m) ↔ is_Some (member_at m room p).
Proof.
  intros [Hk Hr]. unfold room_identities. rewrite elem_of_list_to_set, list_elem_of_bind.
  setoid_rewrite list_elem_of_fmap. setoid_rewrite elem_of_manager_checkpoint. split.
  - intros (cp & (x & [= -> ->] & Hx) & id & r & Hid & ->).
    apply elem_of_member_records in Hx as (q & m0 & Hq & ->).
    pose proof (rv_keyed r (Hr id r Hid) q m0 Hq) as Hkey. pose proof (Hk id r Hid) as Hkid.
    exists m0. unfold member_at. cbn. by rewrite Hkid, Hkey, Hid.
  - intros [m0 Hm]. unfold member_at in Hm. destruct (rooms_ m !! room) as [r|] eqn:Hid; [|done]. cbn in Hm.
    pose proof (rv_keyed r (Hr room r Hid) p m0 Hm) as Hkey. pose proof (Hk room r Hid) as Hkid.
    exists (room_make_checkpoint r). split; [|by exists room, r].
    exists (member_record_of m0). split; [cbn; by rewrite Hkid, Hkey|].
    apply elem_of_member_records. by exists p, m0.
Qed.

Lemma elem_of_session_identities m room p :
  (room, p) ∈ session_identities (session_make_checkpoint m) ↔
    ∃ t e, sessions_ m !! t = Some e ∧ se_identity e = (room, p).
Proof.
  unfold session_identities. rewrite elem_of_list_to_set, list_elem_of_fmap. split.
  - intros (c & [= -> ->] & (e & He & ->)%elem_of_session_checkpoint). by exists (sc_token c), e.
  - intros (t & e & He & [= <- <-]). exists (MkSessionCheckpoint t (se_room_id e) (se_player_id e)).
    split; [done|]. apply elem_of_session_checkpoint. by exists e.
Qed.

Lemma checkpoint_identities_match s opened :
  service_inv s opened →
  identities_match (manager_make_checkpoint (room_manager_ s)) (session_make_checkpoint (session_manager_ s)) = true.
Proof.
  intros Hi. unfold identities_match. apply bool_decide_eq_true, set_eq. intros [room p].
  rewrite elem_of_room_identities, elem_of_session_identities by apply Hi. split.
  - intros [m Hm]. by apply (si_member _ _ Hi room p m).
  - intros (t & e & He & [= <- <-]). destruct (si_session _ _ Hi t e He) as (m & -> & _). by eexists.
Qed.

(** The service a checkpoint restores. *)
Definition restarted (s s0 : RoomService) (now : Z) : RoomService :=
  MkRoomService (MkRoomManager (dormant <$> rooms_ (room_manager_ s)))
    (with_tables (session_manager_ s0)
       ((λ e, Session_offline (se_room_id e) (se_player_id e)
                (now + reconnect_timeout_ (session_manager_ s0))) <$> sessions_ (session_manager_ s)) ∅).

Lemma restart_outcome s s0 opened generation now :
  service_inv s opened → generation ≠ 0 →
  let cp := MkServerCheckpoint generation (manager_make_checkpoint (room_manager_ s))
              (session_make_checkpoint (session_manager_ s)) in
  service_make_checkpoint true generation s = Some cp ∧
  service_restore_checkpoint true cp now s0 = (true, restarted s s0 now).
Proof.
  intros Hi Hg cp. pose proof (checkpoint_identities_match s opened Hi) as Hmatch. split.
  - unfold service_make_checkpoint. rewrite (proj2 (Z.eqb_neq _ _)) by done. by rewrite Hmatch.
  - unfold service_restore_checkpoint. cbn [svc_generation svc_rooms svc_sessions cp].
    rewrite (proj2 (Z.eqb_neq _ _)), Hmatch by done. cbn [negb].
    rewrite restore_made_manager by apply Hi. cbn [negb session_manager_ room_manager_].
    by rewrite session_make_restore by apply Hi.
Qed.

Lemma member_at_dormant m room p :
  member_at (MkRoomManager (dormant <$> rooms_ m)) room p = disconnect <$> member_at m room p.
Proof.
  unfold member_at. cbn. rewrite lookup_fmap. destruct (rooms_ m !! room) as [r|]; [|done]. cbn.
  apply lookup_fmap.
Qed.

Lemma restarted_inv s s0 opened now : service_inv s opened → service_inv (restarted s s0 now) ∅.
Proof.
  intros Hi. split; cbn [restarted room_manager_ session_manager_].
  - apply dormant_manager_inv, Hi.
  - apply restored_sessions_inv, Hi.
  - intros t1 t2 e1 e2. cbn. rewrite !lookup_fmap.
    intros (x1 & H1 & ->)%fmap_Some (x2 & H2 & ->)%fmap_Some Heq. by apply (si_unique _ _ Hi t1 t2 x1 x2).
  - intros room p m. rewrite member_at_dormant. intros (m0 & Hm & _)%fmap_Some.
    destruct (si_member _ _ Hi room p m0 Hm) as (t & e & He & Hid).
    eexists t, _. cbn. by rewrite lookup_fmap, He.
  - intros t e. cbn. rewrite lookup_fmap. intros (x & Hx & ->)%fmap_Some.
    destruct (si_session _ _ Hi t x Hx) as (m & Hm & _). exists (disconnect m). cbn.
    by rewrite member_at_dormant, Hm.
  - intros c t. cbn. by rewrite lookup_empty.
Qed.

Lemma reachable_inv late s : reachable late s → system_inv late s.
Proof.
  induction 1 as [timeout|s s' _ IH Hstep|s generation cp timeout now service _ IH Hmake Hrestore].
  - apply (system_inv_intro _ _ ∅); [apply RoomService_new_inv|done|done].
  - by eapply step_inv.
  - apply (system_inv_intro _ _ ∅); [|done|done]. cbn.
    destruct (decide (generation = 0)) as [->|Hg]; [done|].
    destruct (restart_outcome (w_service (sys_world s)) (RoomService_new timeout)
      (bound (w_service (sys_world s))) generation now)
      as [Hmake' Hrestore']; [apply IH|done|]. rewrite Hmake' in Hmake. injection Hmake as <-.
    rewrite Hrestore' in Hrestore. injection Hrestore as <-. eapply restarted_inv, IH.
Qed.

(** ** Checkpoint files *)

Lemma room_checkpoint_typed r : room_inv r → room_typed (room_make_checkpoint r).
Proof.
  intros [? ? ? ? _ Hmembers _ Hgame _ _]. unfold room_typed. cbn. split_and!; try done.
  - apply Forall_forall. intros x Hx. apply (elem_of_member_records r) in Hx as (p & m & Hm & ->).
    destruct (Hmembers p m Hm) as [? _ _]. unfold member_typed, u64_range. cbn. lia.
  - apply Forall_forall. intros x Hx. rewrite snapshot_perm, elem_of_hash_values in Hx.
    destruct Hx as (p & Hx). destruct (game_inv_players _ Hgame p x Hx).
    unfold player_typed, u64_range, i32_range, MIN_POSITION, MAX_POSITION, INITIAL_HP in *. lia.
Qed.

Lemma service_checkpoint_typed s opened generation :
  service_inv s opened → u64_range generation →
  checkpoint_typed (MkServerCheckpoint generation (manager_make_checkpoint (room_manager_ s))
                      (session_make_checkpoint (session_manager_ s))).
Proof.
  intros Hi Hg. split_and!; [done|..]; apply Forall_forall; cbn.
  - intros cp (id & r & Hr & ->)%elem_of_manager_checkpoint. apply room_checkpoint_typed.
    by apply (mv_rooms _ (si_rooms _ _ Hi) id r).
  - intros c (e & He & ->)%elem_of_session_checkpoint. destruct (si_session _ _ Hi _ e He) as (m & Hm & _).
    unfold member_at in Hm. destruct (rooms_ (room_manager_ s) !! se_room_id e) as [r|] eqn:Hr; [|done]. cbn in Hm.
    pose proof (mv_keyed _ (si_rooms _ _ Hi) _ r Hr) as Hk. pose proof (mv_rooms _ (si_rooms _ _ Hi) _ r Hr : room_inv r) as [Hrid _ _ _ Hkeyed Hmembers _ _ _ _].
    destruct (Hmembers _ m Hm) as [? _ _]. rewrite (Hkeyed _ _ Hm) in *.
    unfold session_typed, session_record_of. cbn. rewrite <-Hk. split; [done|]. unfold u64_range. lia.
Qed.

Lemma service_keys_valid s opened generation :
  service_inv s opened →
  keys_valid (MkServerCheckpoint generation (manager_make_checkpoint (room_manager_ s))
                (session_make_checkpoint (session_manager_ s))).
Proof.
  intros Hi. split_and!; cbn.
  - unfold manager_make_checkpoint. rewrite sort_on_perm, <-list_fmap_compose.
    apply (hash_values_NoDup_key room_id_), Hi.
  - apply session_checkpoint_tokens.
  - apply session_checkpoint_identities, Hi.
  - apply Forall_forall. intros c (e & He & _)%elem_of_session_checkpoint.
    by apply (sv_token _ (si_sessions _ _ Hi) _ e).
Qed.

Lemma made_checkpoint_encodes s opened generation :
  service_inv s opened → u64_range generation → generation ≠ 0 →
  let cp := MkServerCheckpoint generation (manager_make_checkpoint (room_manager_ s))
              (session_make_checkpoint (session_manager_ s)) in
  match CheckpointCodec.encode cp with
  | Ok data => CheckpointCodec.decode data = Ok cp
  | Err e => e = CK.too_large
  end.
Proof.
  intros Hi Hu Hg cp. pose proof (service_checkpoint_typed s opened generation Hi Hu) as Ht.
  pose proof (service_keys_valid s opened generation Hi) as Hk.
  pose proof (encode_cases cp) as Hc. destruct (CheckpointCodec.encode cp) as [data|e] eqn:E.
  - by apply decode_iff_encode.
  - destruct e; try done. cbn in Hc. by destruct Hc as [|[]].
Qed.

(** ** The reply to a resumption *)

(** What the player is told about a room. *)
Definition resume_reply (room p : Z) (r : Room) : reply :=
  ResumeOk room p (room_state r) (tick_id_ r) (member_snapshot r) (game_snapshot r).

Lemma resume_reply_ok room p r :
  room_inv r → capacity_ r < 2 ^ 16 → u32_range room → u64_range p → reply_ok (resume_reply room p r).
Proof.
  intros [_ _ _ Htick _ Hmembers Hsize Hgame _ _] Hcap Hroom Hp. cbn. split_and!; try done.
  - apply Forall_forall. intros x Hx. unfold member_snapshot in Hx. rewrite sort_on_elem in Hx.
    apply list_elem_of_fmap in Hx as (m & -> & (k & Hm)%elem_of_hash_values).
    destruct (Hmembers k m Hm) as [? _ ?]. split; cbn; [unfold u64_range; lia|done].
  - unfold member_snapshot, zlen. rewrite sort_on_length, length_fmap, hash_values_length.
    unfold member_count in Hsize. lia.
  - apply Forall_forall. intros x Hx. unfold game_snapshot in Hx.
    rewrite snapshot_perm, elem_of_hash_values in Hx.
    destruct Hx as (q & Hx). destruct (game_inv_players _ Hgame q x Hx).
    unfold state_ok, i32_range, MIN_POSITION, MAX_POSITION, INITIAL_HP in *. lia.
  - unfold game_snapshot. rewrite snapshot_length. destruct Hgame as [_ _ Hgs].
    unfold MAX_PLAYERS in Hgs. lia.
Qed.

(** An offline session that has not expired, a free connection and a room
    small enough for the counters of the message: the resumption succeeds. *)
Lemma handle_resume_ok w opened c now payload request e r :
  service_inv (w_service w) opened → c ∈ w_live w →
  decode_resume_request payload = Some request →
  bindings_ (w_sessions w) !! c = None →
  sessions_ (w_sessions w) !! rr_token request = Some e → se_state e = SS.offline →
  now < se_offline_deadline e → rooms_ (w_rooms w) !! se_room_id e = Some r → capacity_ r < 2 ^ 16 →
  let w' := handle_resume now (Some c) payload w in
  ∃ m w0, member_at (w_rooms w) (se_room_id e) (se_player_id e) = Some m ∧
    resumed w w' c now (rr_token request) e m ∧
    w_conns w0 = w_conns w ∧ w_posted w0 = w_posted w ∧
    rooms_ (w_rooms w') = <[se_room_id e := set_connection (se_player_id e) (Some c) r]> (rooms_ (w_rooms w)) ∧
    w' = (send_frame (Some c) MessageType.resume_ok
            (reply_bytes (resume_reply (se_room_id e) (se_player_id e)
               (set_connection (se_player_id e) (Some c) r))) w0).2.
Proof.
  intros Hi Hl Hdec Hc He Hst Hnow Hr Hcap.
  pose proof (si_rooms _ _ Hi : manager_inv (w_rooms w)) as Hm.
  pose proof (si_sessions _ _ Hi : sm_inv (w_sessions w)) as Hs. unfold handle_resume. rewrite Hdec.
  destruct (resume_cases (Some c) (rr_token request) now (w_sessions w))
    as [[Hfail _]|(c0 & e0 & [= <-] & _ & He0 & _ & _ & Hres)].
  { destruct Hfail. unfold resume. rewrite Hc, He, Hst, bool_decide_true by done. cbn [negb].
    assert (Hx : expired now e = false).
    { unfold expired. rewrite Hst, bool_decide_true by done. cbn. apply Z.leb_gt. lia. }
    rewrite Hx, session_bind_offline by done. done. }
  rewrite He in He0. injection He0 as <-. rewrite Hres. cbn [rs_state rs_room_id rs_player_id].
  rewrite bool_decide_true by done. cbn [negb]. set (w1 := set_sessions _ w).
  destruct (si_session _ _ Hi _ _ He) as (m & Hmem & Hconn).
  pose proof (sv_offline _ Hs _ _ He Hst) as Hnone.
  destruct (manager_bind_outcome (w_live w) (se_room_id e) (se_player_id e) c (w_rooms w) m)
    as (r0 & Hr0 & Hrm & Hbind & Hmem'); [done|by rewrite Hconn, Hnone|].
  rewrite Hr in Hr0. injection Hr0 as <-.
  change (w_live w1) with (w_live w). change (w_rooms w1) with (w_rooms w). rewrite Hbind.
  cbn [br_state br_room_id br_player_id br_room_state br_tick_id br_members br_snapshot].
  rewrite bool_decide_true by done. cbn [negb]. set (rooms := update_room _ _ _).
  pose proof (mv_rooms _ Hm _ r Hr : room_inv r) as Hrv.
  pose proof (set_connection_inv (se_player_id e) (Some c) r Hrv) as Hrv'.
  assert (Henc : encode_reply (resume_reply (se_room_id e) (se_player_id e) (set_connection (se_player_id e) (Some c) r)) =
    Some (reply_bytes (resume_reply (se_room_id e) (se_player_id e) (set_connection (se_player_id e) (Some c) r)))).
  { apply encode_reply_bytes, resume_reply_ok; [done|done|..].
    - rewrite <-(mv_keyed _ Hm _ r Hr). apply Hrv.
    - destruct (rv_members _ Hrv _ m Hrm) as [? _ _]. rewrite (rv_keyed _ Hrv _ _ Hrm) in *.
      unfold u64_range. lia. }
  cbn [encode_reply resume_reply] in Henc.
  change (game_snapshot (set_connection (se_player_id e) (Some c) r)) with (game_snapshot r) in Henc.
  change (room_state (set_connection (se_player_id e) (Some c) r)) with (room_state r) in Henc.
  change (tick_id_ (set_connection (se_player_id e) (Some c) r)) with (tick_id_ r) in Henc.
  rewrite Henc. exists m, (set_rooms rooms w1).
  destruct (send_frame_only (Some c) MessageType.resume_ok (reply_bytes (resume_reply (se_room_id e) (se_player_id e)
     (set_connection (se_player_id e) (Some c) r))) (set_rooms rooms w1)) as [Hsv _ _ _].
  split_and!; [done| |done|done| |done].
  - split_and!; [done..| |]; unfold w_sessions, w_rooms; rewrite Hsv; [done|exact Hmem'].
  - unfold w_rooms at 1. rewrite Hsv. done.
Qed.
End proofs.

(** * Properties *)

(** C1: However the frames of clients, closed connections, ticks, time-outs and the
    loops of the connections interleave, late frames of a connection that has
    been reported closed included, and across restarts from a checkpoint, the
    service stays consistent: every member of every room has exactly one
    session and every session its member, both name the same connection, each
    connection is bound to at most one session, no player has two sessions,
    tokens have their form, and every room is consistent. That only open
    connections are bound holds in the runs without late frames
    ([late = false]); [StaleSession.late_join_stays] shows that it fails with
    them. *)
Theorem service_consistent {ho : HashOrder} (late : bool) (s : System) :
  reachable late s → system_inv late s.
Proof. apply reachable_inv. Qed.

(** C6: A join is atomic: it either leaves every member, every session and every
    binding exactly as they were, whichever of its steps fails, or it adds one
    member with a fresh id, one online session under a fresh token and the
    binding of the connection, and changes nothing else. *)
Theorem join_atomic {ho : HashOrder} (late : bool) (s : System) (c : Conn) (payload : bytes) :
  reachable late s →
  let w := sys_world s in
  let w' := handle_join (Some c) payload w in
  same_players (w_service w) (w_service w') ∨
  ∃ request p token, decode_join_request payload = Some request ∧ joined w w' c request p token.
Proof.
  intros Hr w w'. destruct (reachable_inv late s Hr) as [Hi _ _].
  by destruct (handle_join_outcome w _ c payload Hi) as (_ & _ & ?).
Qed.

(** C5: A player who loses the connection comes back: when the connection is
    reported closed, the session goes offline for the reconnection time and
    the member stays; a resumption with its token, on any free connection and
    before the deadline, puts the same player, under the same id and name, on
    the new connection, sends it the present state of the room, and leaves all
    other players and all other sessions alone. *)
Theorem reconnect_resumes {ho : HashOrder} (late : bool) (s : System) (c c' : Conn) (now now' : Z)
    (token payload : bytes) (e : Session) (r : Room) :
  reachable late s → let w := sys_world s in
  c ∈ sys_open s → c' ∈ sys_open s → bindings_ (w_sessions w) !! c' = None →
  bindings_ (w_sessions w) !! c = Some token → sessions_ (w_sessions w) !! token = Some e →
  rooms_ (w_rooms w) !! se_room_id e = Some r → capacity_ r < 2 ^ 16 →
  decode_resume_request payload = Some (MkResumeRequest token) →
  now' < now + reconnect_timeout_ (w_sessions w) →
  let '(room, p, deadline) := (se_room_id e, se_player_id e, now + reconnect_timeout_ (w_sessions w)) in
  let w1 := handle_connection_closed true now (Some c) w in
  let w2 := handle_resume now' (Some c') payload w1 in
  ∃ m r2 w0, member_at (w_rooms w) room p = Some m ∧ mb_connection m = Some c ∧
    sessions_ (w_sessions w1) = <[token := Session_offline room p deadline]> (sessions_ (w_sessions w)) ∧
    member_at (w_rooms w1) room p = Some (disconnect m) ∧
    sessions_ (w_sessions w2) =
      <[token := MkSession room p SS.online (Some c') deadline]> (sessions_ (w_sessions w)) ∧
    bindings_ (w_sessions w2) = <[c' := token]> (delete c (bindings_ (w_sessions w))) ∧
    (∀ room' q, member_at (w_rooms w2) room' q =
       if bool_decide ((room', q) = (room, p))
       then Some (MkMember (mb_player_id m) (mb_player_name m) (Some c')) else member_at (w_rooms w) room' q) ∧
    rooms_ (w_rooms w2) !! room = Some r2 ∧ w_posted w0 = w_posted w ∧
    w2 = (send_frame (Some c') MessageType.resume_ok (reply_bytes (resume_reply room p r2)) w0).2.
Proof.
  intros Hreach w Hc Hc' Hfree Hbound He Hr Hcap Hdec Hnow.
  destruct (reachable_inv late s Hreach) as [Hi _ Hl].
  destruct (handle_closed_outcome w _ c now Hi (Hl _ Hc)) as (Hl1 & Hm1 & Hp1 & Hcase).
  cbn zeta. set (w1 := handle_connection_closed true now (Some c) w) in *.
  destruct Hcase as [[Hn _]|(t & e0 & m & Hd)]; [congruence|].
  pose proof (disconnected_inv w w1 _ c now t e0 m Hi Hm1 Hd) as Hi1.
  destruct Hd as (Ht & He0 & Hmem & Hs1 & (r0 & Hr0 & Hrooms1) & Hmem1).
  rewrite Hbound in Ht. injection Ht as <-. rewrite He in He0. injection He0 as <-.
  rewrite Hr in Hr0. injection Hr0 as <-.
  destruct (si_session _ _ Hi token e He) as (m' & Hm' & Hconn).
  change (member_at (w_rooms w) (se_room_id e) (se_player_id e) = Some m') in Hm'.
  rewrite Hmem in Hm'. injection Hm' as <-.
  destruct (sv_bound _ (si_sessions _ _ Hi) c token Hbound) as (e0 & He0 & _ & Hw).
  assert (Some e = Some e0) as [= <-] by exact (eq_trans (eq_sym He) He0).
  destruct (handle_resume_ok w1 _ c' now' payload (MkResumeRequest token)
    (Session_offline (se_room_id e) (se_player_id e) (now + reconnect_timeout_ (w_sessions w)))
    (set_connection (se_player_id e) None r) Hi1) as (m2 & w0 & Hmem2 & Hres & _ & Hp0 & Hrooms2 & Hw2).
  - rewrite Hl1. by apply Hl.
  - done.
  - rewrite Hs1. cbn. by rewrite lookup_delete_None; right.
  - rewrite Hs1. cbn. by rewrite lookup_insert_eq.
  - done.
  - cbn. lia.
  - rewrite Hrooms1. cbn. by rewrite lookup_insert_eq.
  - done.
  - cbn [se_room_id se_player_id Session_offline rr_token] in *.
    rewrite Hmem1, bool_decide_true in Hmem2 by done. injection Hmem2 as <-.
    destruct Hres as (_ & _ & _ & _ & _ & Hs2 & Hmem2).
    exists m, (set_connection (se_player_id e) (Some c') (set_connection (se_player_id e) None r)), w0.
    split_and!; [done|congruence|by rewrite Hs1| | | | | |congruence|exact Hw2].
    + by rewrite Hmem1, bool_decide_true.
    + rewrite Hs2, Hs1. cbn. by rewrite insert_insert_eq.
    + rewrite Hs2, Hs1. done.
    + intros room' q. rewrite Hmem2, Hmem1. unfold se_identity. cbn. by case_bool_decide.
    + rewrite Hrooms2. apply lookup_insert_eq.
Qed.

(** C15: The scan for expired sessions is exact: it erases precisely the offline
    sessions whose deadline has come, removes precisely their players from the
    rooms, and leaves every other session, every binding and every other
    player alone. *)
Theorem timeouts_exact {ho : HashOrder} (late : bool) (s : System) (now : Z) :
  reachable late s →
  let w := sys_world s in
  let w' := handle_session_timeouts true now w in
  sessions_ (w_sessions w') = filter (λ '(t, e), ¬ is_expired now e) (sessions_ (w_sessions w)) ∧
  bindings_ (w_sessions w') = bindings_ (w_sessions w) ∧
  ∀ t e, sessions_ (w_sessions w) !! t = Some e →
    member_at (w_rooms w') (se_room_id e) (se_player_id e) =
      if bool_decide (is_expired now e) then None
      else member_at (w_rooms w) (se_room_id e) (se_player_id e).
Proof.
  intros Hr w w'. destruct (reachable_inv late s Hr) as [Hi _ _].
  destruct (handle_timeouts_outcome now w _ Hi) as [(_ & Hb & Hs & Hm) _].
  split_and!; [|done|].
  - apply map_eq. intros t. unfold w'. rewrite Hs, map_lookup_filter.
    destruct (sessions_ (w_sessions w) !! t) as [e|] eqn:He; cbn; [|by case_bool_decide].
    rewrite (bool_decide_ext _ (is_expired now e)).
    { case_bool_decide as Hx; [rewrite option_guard_False by tauto|rewrite option_guard_True by done]; done. }
    rewrite list_elem_of_fmap. setoid_rewrite elem_of_expired_sessions. split.
    + intros (x & -> & t' & e' & He' & Hx & ->). cbn in He. congruence.
    + intros Hx. exists (MkExpiredSession t (se_room_id e) (se_player_id e)). split; [done|]. by exists t, e.
  - intros t e He. unfold w'. rewrite Hm. apply (f_equal (λ b : bool, if b then _ else _)), bool_decide_ext.
    rewrite list_elem_of_fmap. setoid_rewrite elem_of_expired_sessions. split.
    + intros (x & Heq & t' & e' & He' & Hx & ->).
      assert (t' = t) as -> by (apply (si_unique _ _ Hi t' t e' e); [done|done|by symmetry]). congruence.
    + intros Hx. exists (MkExpiredSession t (se_room_id e) (se_player_id e)). split; [done|]. by exists t, e.
Qed.

(** C40: Every field of a checkpoint that the server can make is within the width
    of its C++ type, ids and counters, positions and health, and its keys are
    what the codec asks for: encoding it gives a file that decodes to it, or
    it is too large for a file, and fails for no other reason. *)
Theorem made_checkpoints_typed {ho : HashOrder} (late : bool) s generation c :
  reachable late s → u64_range generation →
  service_make_checkpoint true generation (w_service (sys_world s)) = Some c →
  checkpoint_typed c ∧ svc_generation c = generation ∧
  match CheckpointCodec.encode c with
  | Ok data => CheckpointCodec.decode data = Ok c
  | Err e => e = CK.too_large
  end.
Proof.
  intros [Hi _ _]%reachable_inv Hg Hm. unfold service_make_checkpoint in Hm.
  destruct (Z.eqb_spec generation 0); [done|]. cbn [negb] in Hm.
  destruct (negb _); [done|]. injection Hm as <-.
  split_and!; [by eapply service_checkpoint_typed|done|by eapply made_checkpoint_encodes].
Qed.

(** C14: A restart keeps every player: in every reachable state a checkpoint can be
    made; unless it is too large for a file, the file written for it is read
    back as the same checkpoint; and restoring it into a service, whatever is
    in there, gives every room with its members, ids, tick number and match,
    without connections and pending commands, and every session offline with
    the full time to come back, in a consistent service. *)
Theorem restart_preserves {ho : HashOrder} (late : bool) (s : System) (generation : Z) :
  reachable late s → u64_range generation → generation ≠ 0 →
  let svc := w_service (sys_world s) in
  ∃ cp, service_make_checkpoint true generation svc = Some cp ∧
    match CheckpointCodec.encode cp with
    | Ok data => CheckpointCodec.decode data = Ok cp
    | Err e => e = CK.too_large
    end ∧
    ∀ s0 now, service_restore_checkpoint true cp now s0 = (true, restarted svc s0 now) ∧
      service_inv (restarted svc s0 now) ∅.
Proof.
  intros Hr Hu Hg svc. destruct (reachable_inv late s Hr) as [Hi _ _].
  pose proof (λ s0 now, restart_outcome svc s0 (bound svc) generation now Hi Hg) as Hout.
  eexists. split; [apply (Hout svc 0)|]. split.
  - by eapply made_checkpoint_encodes.
  - intros s0 now. split; [apply Hout|]. by eapply restarted_inv.
Qed.

(** ** A concrete run *)

(** Three clients connect to a server with one room for two; the first two
    join, which starts the match, and a command is submitted and executed. *)
Section demo.
#[local] Instance demo_order : HashOrder := canonical_order.

Definition demo_random : list random_result :=
  [RandomBytes x00 (replicate 15 x11); RandomEintr; RandomBytes x22 (replicate 7 x33);
   RandomBytes x44 (replicate 7 x55)].
Definition demo_join (name : bytes) : bytes := join_request_bytes (MkJoinRequest 1 name).

Definition demo_empty : World := MkWorld (RoomService_new 30000) ∅ [] [].
Definition demo_rooms : World := (service_add_room true 1 2 demo_empty).2.
Definition demo_conns : World :=
  set_conn 3 (Connection_new 0) (set_conn 2 (Connection_new 0) (set_conn 1 (Connection_new 0) demo_rooms)).
Definition demo_seeded : World := set_random demo_random demo_conns.
Definition demo_joined1 : World := handle_frame_in_loop true 5 (Some 1) 1 (demo_join [x41]) demo_seeded.
Definition demo_joined : World := handle_frame_in_loop true 6 (Some 2) 1 (demo_join [x42]) demo_joined1.
Definition demo : System := MkSystem (handle_tick true 1 demo_joined) {[3; 2; 1]}.

Lemma demo_reachable : reachable false demo.
Proof.
  assert (Hopen : ({[3; 2; 1]} : gset Z) = {[3]} ∪ ({[2]} ∪ ({[1]} ∪ ∅))) by (vm_compute; reflexivity).
  unfold demo. rewrite Hopen.
  eapply ReachStep; [|apply StepTick]. eapply ReachStep; [|apply StepFrame; [|intros _]; apply (bool_decide_unpack _); reflexivity].
  eapply ReachStep; [|apply StepFrame; [|intros _]; apply (bool_decide_unpack _); reflexivity].
  eapply ReachStep; [|apply StepEntropy].
  eapply ReachStep; [|apply StepAccept; apply (bool_decide_unpack _); reflexivity].
  eapply ReachStep; [|apply StepAccept; apply (bool_decide_unpack _); reflexivity].
  eapply ReachStep; [|apply StepAccept; apply (bool_decide_unpack _); reflexivity].
  eapply ReachStep; [apply (ReachNew false 30000)|apply StepAddRoom; split; (discriminate || reflexivity)].
Qed.

(** The token of the first player. *)
Definition demo_token : bytes := default [] (bindings_ (w_sessions (sys_world demo)) !! 1).

(** What came of it: both players are in the match, and everything the server
    sent is waiting in the loops: the confirmation of the first join, that of
    the second and the news of it for the first player, and a snapshot each. *)
Example demo_outcome :
  (room_state <$> rooms_ (w_rooms (sys_world demo)) !! 1) = Some RSM.running ∧
  zlen demo_token = 32 ∧
  (w_posted (sys_world demo)).*1 = [1; 2; 1; 2; 1].
Proof. vm_compute. done. Qed.
End demo.

Lemma service_consistent_witness : system_inv false demo.
Proof. apply (@service_consistent canonical_order), demo_reachable. Defined.

Lemma join_atomic_witness :
  let w := sys_world demo in
  let w' := handle_join (ho := canonical_order) (Some 3) (demo_join [x43]) w in
  same_players (w_service w) (w_service w') ∨
  ∃ request p token, decode_join_request (demo_join [x43]) = Some request ∧
    joined w w' 3 request p token.
Proof. apply (@join_atomic canonical_order false demo 3), demo_reachable. Defined.

Lemma timeouts_exact_witness :
  bindings_ (w_sessions (handle_session_timeouts (ho := canonical_order) true 99 (sys_world demo))) =
  bindings_ (w_sessions (sys_world demo)).
Proof. apply (@timeouts_exact canonical_order false demo 99 demo_reachable). Defined.

Lemma restart_preserves_witness :
  ∃ cp, service_make_checkpoint (ho := canonical_order) true 7 (w_service (sys_world demo)) = Some cp.
Proof.
  destruct (@restart_preserves canonical_order false demo 7 demo_reachable) as (cp & Hcp & _).
  - split; (discriminate || reflexivity).
  - discriminate.
  - exists cp. exact Hcp.
Defined.

Lemma made_checkpoints_typed_witness :
  ∃ c data, service_make_checkpoint (ho := canonical_order) true 7 (w_service (sys_world demo)) = Some c ∧
    checkpoint_typed c ∧ CheckpointCodec.encode c = Ok data ∧ CheckpointCodec.decode data = Ok c.
Proof.
  assert (Hr : u64_range 7) by (split; (discriminate || reflexivity)).
  assert (Hs : is_Some (service_make_checkpoint (ho := canonical_order) true 7 (w_service (sys_world demo))))
    by (apply (bool_decide_unpack _); vm_compute; exact I).
  destruct Hs as [c E].
  destruct (@made_checkpoints_typed canonical_order false demo 7 c demo_reachable Hr E) as (Ht & _ & He).
  destruct (CheckpointCodec.encode c) as [data|e] eqn:Henc.
  - exists c, data. split_and!; [exact E|exact Ht|exact Henc|exact He].
  - vm_compute in E. injection E as <-. vm_compute in Henc. discriminate Henc.
Defined.

Lemma reconnect_resumes_witness :
  let w1 := handle_connection_closed true 100 (Some 1) (sys_world demo) in
  let w2 := handle_resume (ho := canonical_order) 20000 (Some 3)
              (resume_request_bytes (MkResumeRequest demo_token)) w1 in
  bindings_ (w_sessions w2) !! 3 = Some demo_token.
Proof.
  intros w1 w2.
  destruct (sessions_ (w_sessions (sys_world demo)) !! demo_token) as [e|] eqn:He; [|vm_compute in He; discriminate He].
  destruct (rooms_ (w_rooms (sys_world demo)) !! se_room_id e) as [r|] eqn:Hr.
  2: { vm_compute in He. injection He as <-. vm_compute in Hr. discriminate Hr. }
  assert (Hcap : capacity_ r < 2 ^ 16).
  { vm_compute in He. injection He as <-. vm_compute in Hr. injection Hr as <-. reflexivity. }
  pose proof (@reconnect_resumes canonical_order false demo 1 3 100 20000 demo_token
    (resume_request_bytes (MkResumeRequest demo_token)) e r demo_reachable) as H.
  cbv zeta in H. destruct H as (m & r2 & w0 & _ & _ & _ & _ & _ & H & _);
    [apply (bool_decide_unpack _); reflexivity|apply (bool_decide_unpack _); reflexivity
    |vm_compute; reflexivity|vm_compute; reflexivity|exact He|exact Hr|exact Hcap|vm_compute; reflexivity
    |vm_compute; reflexivity|].
  unfold w2, w1. rewrite H. apply lookup_insert_eq.
Defined.

(** ** A restore that fails halfway *)

(** A checkpoint with consistent identities whose token is not one. *)
Definition half_bad_checkpoint : ServerCheckpoint :=
  MkServerCheckpoint 1
    [MkRoomCheckpoint 9 1 2 RSM.waiting 0 [MkCheckpointMember 1 [x41]] []]
    [MkSessionCheckpoint [x5a] 9 1].

(** The comment on [RoomService::restore_checkpoint] promises that a failure
    leaves the objects alone. It does not when the sessions are refused after
    the rooms have been replaced: here a checkpoint whose token is not
    hexadecimal empties a running service of its only room. *)
Theorem failed_restore_replaces_rooms :
  let s := w_service demo_rooms in
  let '(ok, s') := service_restore_checkpoint (ho := canonical_order) true half_bad_checkpoint 0 s in
  ok = false ∧ contains_room 1 (room_manager_ s) = true ∧ contains_room 1 (room_manager_ s') = false ∧
  contains_room 9 (room_manager_ s') = true.
Proof. vm_compute. done. Qed.
