(* ===== verification/StaleSession.v ===== *)
(** What a request does that reaches the base loop after the close report of its
    connection (IoThread shows that this happens): a join then makes a player
    that no later step of the service removes, unless the client has also sent
    a leave behind the join. *)

From S2P Require Import Prelude Bytes Protocol Connection Room RoomManager Session SessionManager RoomService ServiceInvariant.

(** * Definitions *)

(** The session [t], with the entry [e], is bound to [c]. *)
Definition held (c : Conn) (t : bytes) (e : Session) (w : World) : Prop :=
  bindings_ (w_sessions w) !! c = Some t ∧ sessions_ (w_sessions w) !! t = Some e.

(** The step is a well-formed leave of [c]. *)
Definition leaves {ho : HashOrder} (c : Conn) (s s' : System) : Prop :=
  ∃ now payload, decode_leave_request payload = true ∧
    s' = MkSystem (handle_frame_in_loop true now (Some c) (MessageType.value MessageType.leave) payload
                     (sys_world s)) (sys_open s).

(** A step of the base loop, with frames of closed connections, [c] among them,
    as long as it is not such a leave. *)
Definition step_without {ho : HashOrder} (c : Conn) (s s' : System) : Prop :=
  step true s s' ∧ ¬ leaves c s s'.

(** * Proofs *)

Section held.
Context {ho : HashOrder}.
Implicit Types (w : World) (c : Conn) (t : bytes) (e : Session).

Lemma held_same w w' c t e : same_players (w_service w) (w_service w') → held c t e w → held c t e w'.
Proof. intros [Hs _]. unfold held, w_sessions. by rewrite Hs. Qed.

(** Two connections are never bound to one session. *)
Lemma held_other w opened c c' t t' e :
  service_inv (w_service w) opened → held c t e w → bindings_ (w_sessions w) !! c' = Some t' → c' ≠ c → t' ≠ t.
Proof.
  intros Hi [Hb He] Hb' Hne ->. pose proof (si_sessions _ _ Hi : sm_inv (w_sessions w)) as Hs.
  destruct (sv_bound _ Hs _ _ Hb) as (e1 & H1 & _ & Hc1), (sv_bound _ Hs _ _ Hb') as (e2 & H2 & _ & Hc2). congruence.
Qed.

Lemma held_online w opened c t e :
  service_inv (w_service w) opened → held c t e w →
  se_state e = SS.online ∧ se_connection e = Some c ∧
  ∃ m, member_at (w_rooms w) (se_room_id e) (se_player_id e) = Some m ∧ mb_connection m = Some c.
Proof.
  intros Hi [Hb He]. pose proof (si_sessions _ _ Hi : sm_inv (w_sessions w)) as Hs.
  destruct (sv_bound _ Hs _ _ Hb) as (e1 & H1 & Hst & Hc). assert (e1 = e) as -> by congruence.
  destruct (si_session _ _ Hi t e He) as (m & Hm & Hmc). split_and!; [done..|]. exists m. by rewrite Hmc.
Qed.

Lemma held_frame w opened c c' t e now type payload :
  service_inv (w_service w) opened → c' ∈ w_live w → c' ≠ c →
  held c t e w → held c t e (handle_frame_in_loop true now (Some c') type payload w).
Proof.
  intros Hi Hl Hne Hh. pose proof Hh as [Hb He].
  unfold handle_frame_in_loop. rewrite bool_decide_false by done. cbn [negb orb].
  destruct (MessageType.of_value type) as [[]|]; try done.
  - destruct (handle_join_outcome w opened c' payload Hi) as (_ & _ & [?|(? & p & t' & _ & _ & _ & _ & Hfresh & _ & _ & _ & Hs & _)]).
    + by eapply held_same.
    + unfold held. rewrite Hs. cbn. rewrite !lookup_insert_ne by (congruence || done). done.
  - destruct (handle_leave_outcome w opened c' payload Hi) as (_ & _ & [?|(t' & e' & Hb' & _ & Hs & _)]).
    + by eapply held_same.
    + unfold held. rewrite Hs. cbn. pose proof (held_other _ _ _ _ _ _ _ Hi Hh Hb' Hne).
      by rewrite !lookup_delete_ne.
  - eapply held_same; [apply (handle_chat_outcome w opened c' payload Hi)|done].
  - eapply held_same; [apply (handle_move_outcome w opened c' payload Hi)|done].
  - eapply held_same; [apply (handle_attack_outcome w opened c' payload Hi)|done].
  - destruct (handle_resume_outcome w opened c' now payload Hi Hl) as (_ & _ & [?|(r & e' & m & _ & He' & Hoff & _ & _ & _ & Hs & _)]).
    + by eapply held_same.
    + unfold held. rewrite Hs. cbn. destruct (held_online _ _ _ _ _ Hi Hh) as (Hon & _).
      rewrite !lookup_insert_ne by (congruence || done). done.
Qed.

(** Nor does any frame of [c] itself but a leave. *)
Lemma held_own_frame w opened c t e now type payload :
  service_inv (w_service w) opened → c ∈ w_live w →
  (MessageType.of_value type = Some MessageType.leave → decode_leave_request payload = false) →
  held c t e w → held c t e (handle_frame_in_loop true now (Some c) type payload w).
Proof.
  intros Hi Hl Hleave Hh. pose proof Hh as [Hb He].
  unfold handle_frame_in_loop. rewrite bool_decide_false by done. cbn [negb orb].
  destruct (MessageType.of_value type) as [[]|]; try done.
  - destruct (handle_join_outcome w opened c payload Hi) as (_ & _ & [?|(? & p & t' & _ & _ & _ & _ & _ & Hfree & _)]);
      [by eapply held_same|congruence].
  - unfold handle_leave. rewrite Hleave by done. cbn [negb].
    eapply held_same; [|done]. destruct (send_error_only (Some c) MessageType.leave ErrorCode.invalid_message w) as [Hs _ _ _].
    split; [by rewrite Hs|]. intros. by rewrite Hs.
  - eapply held_same; [apply (handle_chat_outcome w opened c payload Hi)|done].
  - eapply held_same; [apply (handle_move_outcome w opened c payload Hi)|done].
  - eapply held_same; [apply (handle_attack_outcome w opened c payload Hi)|done].
  - destruct (handle_resume_outcome w opened c now payload Hi Hl) as (_ & _ & [?|(r & e' & m & _ & _ & _ & _ & Hfree & _)]);
      [by eapply held_same|congruence].
Qed.

Lemma held_closed w opened c c' t e now :
  service_inv (w_service w) opened → c' ∈ w_live w → c' ≠ c →
  held c t e w → held c t e (handle_connection_closed true now (Some c') w).
Proof.
  intros Hi Hl Hne Hh. destruct (handle_closed_outcome w opened c' now Hi Hl) as (_ & _ & _ & [[_ ->]|(t' & e' & m & Hb' & _ & _ & Hs & _)]); [done|].
  pose proof (held_other _ _ _ _ _ _ _ Hi Hh Hb' Hne). unfold held. rewrite Hs. cbn.
  by rewrite lookup_insert_ne, lookup_delete_ne.
Qed.

Lemma held_timeouts w opened c t e now :
  service_inv (w_service w) opened → held c t e w → held c t e (handle_session_timeouts true now w).
Proof.
  intros Hi Hh. destruct (handle_timeouts_outcome now w opened Hi) as [(_ & Hb & Hs & _) _].
  destruct (held_online _ _ _ _ _ Hi Hh) as (Hon & _). destruct Hh as [Hbind He].
  split; [by rewrite Hb|]. rewrite Hs, bool_decide_false; [done|].
  intros (x & -> & (t' & e' & He' & [Hoff _] & ->)%elem_of_expired_sessions)%list_elem_of_fmap. cbn in He. congruence.
Qed.

(** The service with the stale session. *)
Record stale_inv (c : Conn) (t : bytes) (e : Session) (s : System) : Prop := {
  st_system : system_inv true s;
  st_closed : c ∉ sys_open s;
  st_held : held c t e (sys_world s)
}.

Lemma held_bound c t e w : held c t e w → c ∈ bound (w_service w).
Proof. intros [Hb _]. apply elem_of_dom. by eexists. Qed.

Lemma stale_step c t e s s' : step_without c s s' → stale_inv c t e s → stale_inv c t e s'.
Proof.
  intros [Hstep Hleave] [Hsys Hc Hh]. pose proof (step_inv _ _ _ Hstep Hsys) as Hsys'.
  destruct Hsys as [Hi _ Hl]. destruct Hstep as [id cap w opened|a now w opened Ha Hb|a conn w opened Ha|rs w opened
    |a type payload now w opened Ha _|a now w opened Ha|a w opened Ha|k w opened|now w opened];
    cbn [sys_world sys_open] in *; split; cbn [sys_world sys_open]; try done.
  - eapply held_same; [|exact Hh]. destruct (rooms_keep w (MAdd id cap) (bound (w_service w))) as [Hsame _]; [done..|].
    unfold service_add_room. cbn in *. by destruct (add_room id cap (w_rooms w)).
  - pose proof (held_bound c t e w Hh). set_solver.
  - destruct (decide (a = c)) as [->|Hne]; [|by eapply held_frame].
    eapply held_own_frame; [exact Hi|done| |done]. intros Htype. apply not_true_is_false. intros Hd.
    apply Hleave. exists now, payload. split; [done|]. cbn [sys_world sys_open]. unfold handle_frame_in_loop.
    by rewrite Htype.
  - set_solver.
  - eapply held_closed; [exact Hi|by apply Hl| |done]. congruence.
  - eapply held_same; [apply (handle_tick_outcome w _ k Hi)|done].
  - by eapply held_timeouts.
Qed.

Lemma stale_steps c t e s s' : rtc (step_without c) s s' → stale_inv c t e s → stale_inv c t e s'.
Proof. induction 1 as [|s s1 s' Hs _ IH]; [done|]. intros Hi. by eapply IH, stale_step. Qed.

End held.

(** * Properties *)

(** C11: A join that comes after the close report is not undone by the server: if
    the base loop runs a frame of a connection that has been reported closed,
    and afterwards that connection has a session, then in every later state of
    the run, unless a well-formed leave of the same connection is run, the
    player is still in its room, its session is still online and bound to the
    closed connection, no time-out scan has removed it, and whoever presents
    its token is refused. All other late frames of the connection are among
    the later steps. *)
Theorem late_join_stays {ho : HashOrder} (s s' : System) (c : Conn) (now type : Z) (payload t : bytes) :
  reachable true s → c ∈ w_live (sys_world s) → c ∉ sys_open s →
  let w := handle_frame_in_loop true now (Some c) type payload (sys_world s) in
  bindings_ (w_sessions w) !! c = Some t →
  rtc (step_without c) (MkSystem w (sys_open s)) s' →
  let w' := sys_world s' in
  ∃ e m, sessions_ (w_sessions w') !! t = Some e ∧ se_state e = SS.online ∧ se_connection e = Some c ∧
    bindings_ (w_sessions w') !! c = Some t ∧
    member_at (w_rooms w') (se_room_id e) (se_player_id e) = Some m ∧
    ∀ c' now', bindings_ (w_sessions w') !! c' = None →
      rs_state (resume (Some c') t now' (w_sessions w')).1 = SM.session_online.
Proof.
  intros Hr Hl Hc w Hb Hrun w'.
  assert (Hr' : reachable true (MkSystem w (sys_open s))).
  { eapply ReachStep; [exact Hr|]. destruct s. by apply StepFrame. }
  pose proof (reachable_inv _ _ Hr') as Hsys. pose proof (sy_service _ _ Hsys : service_inv (w_service w) _) as Hi.
  destruct (sv_bound _ (si_sessions _ _ Hi) c t Hb) as (e & He & _).
  assert (Hst : stale_inv c t e (MkSystem w (sys_open s))) by (by split).
  apply (stale_steps c t e _ _ Hrun) in Hst as [[Hi2 _ _] _ Hh].
  destruct (held_online _ _ _ _ _ Hi2 Hh) as (Hon & Hconn & m & Hm & _). destruct Hh as [Hb2 He2].
  exists e, m. split_and!; [done..|]. intros c' now' Hn. unfold resume. fold w' in He2. rewrite Hn, He2, Hon.
  by rewrite bool_decide_false.
Qed.

(** ** A concrete run: reported closed, joined, and scanned a day later *)

Section demo.
#[local] Instance stale_order : HashOrder := canonical_order.

Definition stale_start : System := MkSystem (handle_connection_closed true 4 (Some 1) demo_seeded) ({[3; 2; 1]} ∖ {[1]}).
Definition stale_world : World := handle_frame_in_loop true 5 (Some 1) 1 (demo_join [x41]) (sys_world stale_start).
Definition stale_token : bytes := default [] (bindings_ (w_sessions stale_world) !! 1).

Lemma stale_start_reachable : reachable true stale_start.
Proof.
  assert (Hopen : ({[3; 2; 1]} : gset Z) = {[3]} ∪ ({[2]} ∪ ({[1]} ∪ ∅))) by (vm_compute; reflexivity).
  unfold stale_start. eapply ReachStep; [|apply StepClosed, (bool_decide_unpack _); reflexivity]. rewrite Hopen.
  eapply ReachStep; [|apply StepEntropy].
  eapply ReachStep; [|apply StepAccept; apply (bool_decide_unpack _); reflexivity].
  eapply ReachStep; [|apply StepAccept; apply (bool_decide_unpack _); reflexivity].
  eapply ReachStep; [|apply StepAccept; apply (bool_decide_unpack _); reflexivity].
  eapply ReachStep; [apply (ReachNew true 30000)|apply StepAddRoom; split; (discriminate || reflexivity)].
Qed.

(** A second join and a scan for expired sessions a day later. *)
Definition stale_again : World := handle_frame_in_loop true 6 (Some 1) 1 (demo_join [x42]) stale_world.
Definition stale_later : World := handle_session_timeouts true 86400000 stale_again.

(** The steps of this run are not leaves: a leave empties the table of sessions. *)
Lemma no_leave (w w' : World) :
  sessions_ (w_sessions (handle_leave (Some 1) [] w)) = ∅ → sessions_ (w_sessions w') ≠ ∅ →
  ¬ leaves 1 (MkSystem w (sys_open stale_start)) (MkSystem w' (sys_open stale_start)).
Proof.
  intros Hgone Hw' (now & payload & Hd & [= Hs]). unfold decode_leave_request in Hd.
  apply bool_decide_eq_true in Hd as ->. apply Hw'. rewrite Hs. exact Hgone.
Qed.

Lemma late_join_stays_witness :
  ∃ e, sessions_ (w_sessions stale_later) !! stale_token = Some e ∧ se_state e = SS.online ∧
    rs_state (resume (Some 2) stale_token 86400000 (w_sessions stale_later)).1 = SM.session_online.
Proof.
  assert (Hb : bindings_ (w_sessions stale_world) !! 1 = Some stale_token) by (vm_compute; reflexivity).
  destruct (late_join_stays stale_start (MkSystem stale_later (sys_open stale_start))
    1 5 1 (demo_join [x41]) stale_token stale_start_reachable) as (e & m & He & Hon & _ & _ & _ & Hresume).
  - apply (bool_decide_unpack _). vm_compute. reflexivity.
  - apply (bool_decide_unpack _). vm_compute. reflexivity.
  - exact Hb.
  - apply (rtc_l _ _ (MkSystem stale_again (sys_open stale_start))).
    + split; [|apply no_leave; apply (bool_decide_unpack _); vm_compute; reflexivity].
      apply (StepFrame true 1 1 (demo_join [x42]) 6 stale_world); [|done].
      apply (bool_decide_unpack _). vm_compute. reflexivity.
    + apply rtc_once. split; [apply (StepTimeouts true 86400000 stale_again)|].
      apply no_leave; apply (bool_decide_unpack _); vm_compute; reflexivity.
  - exists e. split; [exact He|]. split; [exact Hon|]. apply Hresume. vm_compute. reflexivity.
Defined.

(** A leave that was queued behind the join does remove the player. *)
Example late_leave_removes :
  let w' := handle_frame_in_loop true 6 (Some 1) 2 [] stale_world in
  sessions_ (w_sessions w') = ∅ ∧ bindings_ (w_sessions w') = ∅ ∧
  (member_count <$> rooms_ (w_rooms w') !! 1) = Some 0.
Proof. vm_compute. done. Qed.
End demo.
