(* ===== verification/Dispatch.v ===== *)
(** The message callback of [RoomService] (src/src/room_service.cpp), which
    runs in the loop of a connection: which bytes of the peer become requests
    to the base loop, and what a heartbeat is answered with. *)

From S2P Require Import Prelude Bytes Buffer Codec Protocol Connection RoomService.

(** * Definitions *)

(** The message types that are handed to the base loop. *)
Definition is_request (type : Z) : bool :=
  match MessageType.of_value type with
  | Some (MessageType.join | MessageType.leave | MessageType.chat | MessageType.move
         | MessageType.attack | MessageType.resume) => true
  | _ => false
  end.

(** The next thing in the stream does not pass: its length is out of range, or
    it is a frame that neither is a request nor a heartbeat of eight bytes. *)
Definition refused (tail : bytes) : bool :=
  match split_frame tail with
  | NeedMore => false
  | BadLength => true
  | Frame type payload _ =>
      negb (is_request type) &&
      (negb (bool_decide (MessageType.of_value type = Some MessageType.heartbeat))
       || negb (zlen payload =? 8))
  end.

(** Requests refresh the time of the last activity of a connection. *)
Definition touched (now : Z) (fs : list (Z * bytes)) (io : Io) : Io :=
  match fs with [] => io | _ => on_conn (refresh_peer_activity true now) io end.

(** * Proofs *)

Lemma decode_heartbeat_size payload :
  decode_heartbeat_request payload =
    if zlen payload =? 8 then Some (MkHeartbeatRequest (be_value payload)) else None.
Proof.
  destruct (Z.eqb_spec (zlen payload) 8) as [H|H].
  - apply decode_heartbeat_request_iff. cbn [hr_seq].
    assert (Hl : length payload = 8%nat) by (unfold zlen in H; lia). split.
    + rewrite <-Hl. symmetry. apply be_bytes_value.
    + pose proof (be_value_range payload) as Hr. rewrite H in Hr. exact Hr.
  - destruct (decode_heartbeat_request payload) as [r|] eqn:E; [|done].
    apply decode_heartbeat_request_iff in E as [-> _]. destruct H. unfold zlen. by rewrite be_bytes_length.
Qed.

Lemma refresh_idem now (c : Connection) :
  refresh_peer_activity true now (refresh_peer_activity true now c) = refresh_peer_activity true now c.
Proof.
  unfold refresh_peer_activity. cbn [negb]. destruct (decide (state_ c = CS.Connected)) as [H|H].
  - rewrite (bool_decide_true _ H). cbn [negb]. by rewrite bool_decide_true.
  - rewrite (bool_decide_false _ H). cbn [negb]. by rewrite bool_decide_false.
Qed.

Lemma touched_cons now f fs io :
  touched now fs (on_conn (refresh_peer_activity true now) io) = touched now (f :: fs) io.
Proof.
  destruct fs; [done|]. cbn [touched]. unfold on_conn.
  cbn [io_conn io_reads io_writes io_epoll io_wire io_close_calls]. by rewrite refresh_idem.
Qed.

Lemma callback_request now io frames type payload :
  is_request type = true →
  handle_decoded_frame now (io, frames) type payload =
    ((on_conn (refresh_peer_activity true now) io, frames ++ [(type, payload)]), true).
Proof.
  unfold is_request, handle_decoded_frame. destruct (MessageType.of_value type) as [[]|]; done.
Qed.

Lemma callback_refused now io frames type payload :
  is_request type = false →
  MessageType.of_value type ≠ Some MessageType.heartbeat ∨ zlen payload ≠ 8 →
  handle_decoded_frame now (io, frames) type payload = ((io, frames), false).
Proof.
  unfold is_request, handle_decoded_frame. intros Hr Hh.
  destruct (MessageType.of_value type) as [[]|]; try done.
  unfold handle_heartbeat. rewrite decode_heartbeat_size.
  destruct Hh as [?|Hz]; [done|]. by rewrite (proj2 (Z.eqb_neq _ _) Hz).
Qed.

Lemma parse_requests now fs tail io frames :
  Forall frame_ok fs → Forall (λ f, is_request f.1 = true) fs →
  parse (handle_decoded_frame now) (io, frames) (concat (frame_bytes <$> fs) ++ tail) =
    parse (handle_decoded_frame now) (touched now fs io, frames ++ fs) tail.
Proof.
  intros Hf. revert io frames. induction Hf as [|f fs Hf _ IH]; intros io frames Hr; cbn [fmap list_fmap concat].
  - by rewrite app_nil_l, app_nil_r.
  - apply Forall_cons in Hr as [Hr1 Hr]. rewrite <-app_assoc.
    rewrite (parse_frame _ _ _ _ _ _ (split_frame_bytes _ _ Hf)), callback_request by done.
    cbn [negb]. rewrite IH, (touched_cons now f), <-app_assoc by done. by destruct f.
Qed.

Lemma parse_refused now tail io frames :
  refused tail = true →
  ∃ rest, parse (handle_decoded_frame now) (io, frames) tail = Some ((io, frames), rest, false).
Proof.
  unfold refused. destruct (split_frame tail) as [| |type payload rest] eqn:E; [done|..].
  - intros _. exists tail. unfold parse. cbn. by rewrite E.
  - intros H. to_prop. exists rest. rewrite (parse_frame _ _ _ _ _ _ E), callback_refused; [done|done|].
    match goal with H : _ ∨ _ |- _ => destruct H as [H|H]; to_prop; auto end.
Qed.

(** * Properties *)

(** The requests of a client reach the base loop exactly as it sent them: when
    the buffer holds the bytes of a sequence of requests and then an
    unfinished frame, the callback posts those requests, in order, each once,
    keeps the unfinished bytes, refreshes the activity time and reports
    success; when something inadmissible follows the requests (a length out of
    range, a type a client may not send, a malformed heartbeat) it still posts
    those requests and nothing after them, and reports failure, which closes
    the connection. *)
Theorem requests_dispatched (now : Z) (io : Io) (fs : list (Z * bytes)) (tail : bytes) :
  buffer_wf (read_buffer_ (io_conn io)) → Forall frame_ok fs → Forall (λ f, is_request f.1 = true) fs →
  contents (read_buffer_ (io_conn io)) = concat (frame_bytes <$> fs) ++ tail →
  split_frame tail = NeedMore ∨ refused tail = true →
  ∃ buffer ok,
    handle_message true now io = Some ((on_conn (set_read_buffer buffer) (touched now fs io), fs), ok) ∧
    buffer_wf buffer ∧
    match split_frame tail with NeedMore => ok = true ∧ contents buffer = tail | _ => ok = false end.
Proof.
  intros Hwf Hf Hr Hc Ht. unfold handle_message. cbn [negb].
  destruct (decode_refines_parse (B:=Buffer) (handle_decoded_frame now) (io, []) (read_buffer_ (io_conn io)))
    as (s' & b' & ok & -> & Hwf' & Hp); [exact Hwf|]. cbn [bq_contents Buffer_queue bq_wf] in *.
  rewrite Hc, parse_requests in Hp by done. cbn [app] in Hp. destruct Ht as [Ht|Ht].
  - rewrite parse_needs_more in Hp by done. injection Hp as <- Hb <-.
    exists b', true. by rewrite Ht.
  - destruct (parse_refused now tail (touched now fs io) fs Ht) as [rest Hrest].
    rewrite Hrest in Hp. injection Hp as <- _ <-. exists b', false.
    split_and!; [done|done|]. unfold refused in Ht. by destruct (split_frame tail).
Qed.

Lemma requests_dispatched_witness :
  let c := Connection_new 0 in
  let io := MkIo (set_read_buffer (append (read_buffer_ c) (frame_bytes (2, []) ++ frame_bytes (3, [x00; x01; x41]) ++ frame_bytes (107, []))) c)
              [] [] [] [] 0 0 in
  ∃ buffer, handle_message true 9 io =
    Some ((on_conn (set_read_buffer buffer) (touched 9 [(2, []); (3, [x00; x01; x41])] io),
           [(2, []); (3, [x00; x01; x41])]), false).
Proof.
  intros c io.
  destruct (requests_dispatched 9 io [(2, []); (3, [x00; x01; x41])] (frame_bytes (107, [])))
    as (buffer & ok & H & _ & Hok).
  - apply append_spec, Buffer_new_wf.
  - repeat constructor; vm_compute; discriminate.
  - repeat constructor.
  - vm_compute. reflexivity.
  - right. vm_compute. reflexivity.
  - exists buffer. vm_compute in Hok. subst ok. exact H.
Defined.

(** A heartbeat is echoed: a payload of any size but eight bytes is refused
    without any effect; one of eight bytes refreshes the activity time and is
    sent back verbatim as the payload of an acknowledgement, and the connection
    is closed exactly when its write budget refuses the answer. *)
Theorem heartbeat_echoed (now : Z) (payload : bytes) (io : Io) :
  handle_heartbeat now payload io =
    if zlen payload =? 8 then
      let '(sent, io') := send_here (frame_bytes (108, payload))
                            (on_conn (refresh_peer_activity true now) io) in
      (sent, if sent then io' else handle_close true io')
    else (false, io).
Proof.
  unfold handle_heartbeat. rewrite decode_heartbeat_size.
  destruct (Z.eqb_spec (zlen payload) 8) as [H|H]; [|done].
  assert (Hl : length payload = 8%nat) by (unfold zlen in H; lia).
  assert (He : encode_heartbeat_ack (hr_seq (MkHeartbeatRequest (be_value payload))) = Some payload).
  { assert (Hok : reply_ok (HeartbeatAck (be_value payload))).
    { pose proof (be_value_range payload) as Hr. rewrite H in Hr. exact Hr. }
    pose proof (encode_reply_bytes _ Hok) as He. cbn in He |- *. rewrite He. f_equal.
    rewrite <-Hl. apply be_bytes_value. }
  rewrite He. unfold send_frame_here. cbn [MessageType.value].
  rewrite encode_spec, H. change (8 <=? MAX_FRAME_LENGTH - TYPE_FIELD_SIZE) with true. cbn iota.
  by destruct (send_here (frame_bytes (108, payload)) _) as [[] io2].
Qed.
