(* ===== verification/IoThread.v ===== *)
(** One connection in its I/O thread, from the bytes of the peer to what it
    queues in the base loop: the connection of Connection.v with the message
    callback of Dispatch.v and the close callback of the server, in the order
    in which the two queue their functors. *)

From S2P Require Import Prelude Bytes Buffer Codec Protocol Connection RoomService Dispatch.

(** * Definitions *)

(** The functors that a connection queues: [RoomService::handle_frame] and
    [TcpServer::remove_connection]. *)
Inductive Posting : Type :=
| PostFrame (type : Z) (payload : bytes)
| PostClosed.

#[global] Instance Posting_eq_dec : EqDecision Posting.
Proof. solve_decision. Defined.

Definition posted_frame (f : Z * bytes) : Posting := PostFrame f.1 f.2.

(** The close callback that [main] installs, for each time it has run. *)
Definition reports (before after : Io) : list Posting :=
  replicate (io_close_calls after - io_close_calls before) PostClosed.

(** [handle_decoded_frame] with everything it queues. *)
Definition traced_frame (now : Z) : FrameCallback (Io * list Posting) :=
  λ '(io, posted) type payload,
  let '((io', frames), ok) := handle_decoded_frame now (io, []) type payload in
  ((io', posted ++ (posted_frame <$> frames) ++ reports io io'), ok).
Definition traced_message (now : Z) (io : Io) : (Io * list Posting) * bool :=
  match decode (read_buffer_ (io_conn io)) (Some (traced_frame now)) (io, []) with
  | None => ((io, []), false)
  | Some ((io, posted), buffer, ok) => ((on_conn (set_read_buffer buffer) io, posted), ok)
  end.

(** The message callback that [main] installs. *)
Definition service_callback (now : Z) (io : Io) : bool * Io :=
  match handle_message true now io with
  | None => (false, io)
  | Some ((io, _), ok) => (ok, io)
  end.

(** The bytes that one [read_from_socket] takes from the socket. *)
Fixpoint read_bytes (reads : list read_result) : bytes :=
  match reads with
  | ReadData first more :: reads => (first :: take 4095 more) ++ read_bytes reads
  | ReadEintr :: reads => read_bytes reads
  | _ => []
  end.

(** An event of the connection's descriptor: the connection after it, what it
    has queued, and the bytes it has read. *)
Definition is_readable (events : Z) : bool := has events (Z.lor EPOLLIN EPOLLRDHUP).
Definition io_event (now events : Z) (io : Io) : Io * list Posting * bytes :=
  let io' := handle_event true (Some (service_callback now)) events io in
  if bool_decide (state_ (io_conn io) = CS.Connected) && is_readable events then
    let '(ok, read) := read_from_socket io in
    let '((decoded, posted), _) := if ok then traced_message now read else ((read, []), false) in
    (io', posted ++ reports decoded io', read_bytes (io_reads io))
  else (io', reports io io', []).

(** The connection, the tasks posted to its loop, what it has queued in the base
    loop, and the bytes it has read so far. *)
Record Peer : Type := MkPeer {
  pr_io : Io;
  pr_tasks : list LoopTask;
  pr_posted : list Posting;
  pr_received : bytes
}.
Definition Peer_new (now : Z) (reads : list read_result) (writes : list write_result) (epoll : list bool) : Peer :=
  MkPeer (MkIo (Connection_new now) reads writes epoll [] 0 0) [] [] [].

(** What the other threads do with the connection, and what its own loop does. A
    send of another thread, its reservation and its posting, is one step, and so
    is a task or an event of the loop with all that the handlers do about it. *)
Inductive PeerStep : Type :=
| OtherSend (data : bytes)
| OtherClose
| OtherCheck (timeout : Z)
| OtherConnect
| OtherDestroy
| RunTask (now : Z)
| RunEvent (now events : Z).

Definition queue_tasks (tasks : list LoopTask) (p : Peer) : Peer :=
  MkPeer (pr_io p) (pr_tasks p ++ tasks) (pr_posted p) (pr_received p).

Definition peer_step (s : PeerStep) (p : Peer) : Peer :=
  match s with
  | OtherSend data =>
      let '(_, tasks, c) := send data (io_conn (pr_io p)) in
      queue_tasks tasks (MkPeer (on_conn (λ _, c) (pr_io p)) (pr_tasks p) (pr_posted p) (pr_received p))
  | OtherClose => queue_tasks request_close p
  | OtherCheck timeout => queue_tasks (check_timeout timeout) p
  | OtherConnect => queue_tasks [ConnectEstablished] p
  | OtherDestroy => queue_tasks [ConnectDestroyed] p
  | RunTask now =>
      match pr_tasks p with
      | [] => p
      | task :: tasks =>
          let io := run_task now task (pr_io p) in
          MkPeer io tasks (pr_posted p ++ reports (pr_io p) io) (pr_received p)
      end
  | RunEvent now events =>
      let '(io, posted, data) := io_event now events (delivered (pr_io p)) in
      MkPeer io (pr_tasks p) (pr_posted p ++ posted) (pr_received p ++ data)
  end.
Definition run_peer (steps : list PeerStep) (p : Peer) : Peer := foldl (λ p s, peer_step s p) p steps.

(** ** Specification *)

Definition frames_of (posted : list Posting) : list (Z * bytes) :=
  omap (λ x, match x with PostFrame type payload => Some (type, payload) | PostClosed => None end) posted.
Definition closes_of (posted : list Posting) : nat :=
  length (filter (λ x, x = PostClosed) posted).

(** The answer to a heartbeat of this message has closed the connection. *)
Definition answer_fails (s : PeerStep) (p : Peer) : bool :=
  match s with
  | RunEvent now events =>
      let io := delivered (pr_io p) in
      bool_decide (state_ (io_conn io) = CS.Connected) && is_readable events &&
      let '(ok, read) := read_from_socket io in
      ok && negb (io_close_calls (traced_message now read).1.1 =? io_close_calls read)%nat
  | _ => false
  end.
Fixpoint answers_sent (steps : list PeerStep) (p : Peer) : bool :=
  match steps with
  | [] => true
  | s :: steps => negb (answer_fails s p) && answers_sent steps (peer_step s p)
  end.

(** [read] has failed in this event: what the event has read is lost. *)
Definition read_fails (s : PeerStep) (p : Peer) : bool :=
  match s with
  | RunEvent now events =>
      let io := delivered (pr_io p) in
      bool_decide (state_ (io_conn io) = CS.Connected) && is_readable events &&
      negb (read_from_socket io).1
  | _ => false
  end.
Fixpoint reads_succeed (steps : list PeerStep) (p : Peer) : bool :=
  match steps with
  | [] => true
  | s :: steps => negb (read_fails s p) && reads_succeed steps (peer_step s p)
  end.

(** What is left of the stream behind the frames [hs]: a complete frame only
    when the last of [hs] is one that the message callback has refused, and so
    no request. *)
Definition left_over (hs : list (Z * bytes)) (rest : bytes) : Prop :=
  match split_frame rest with
  | Frame _ _ _ => ∃ f, last hs = Some f ∧ is_request f.1 = false
  | _ => True
  end.

(** A connection goes on: its life cycle moves forward, and the close callback
    has run once more exactly if that has begun the closing. What is read is
    left alone. *)
Record advances (io io' : Io) : Prop := {
  ad_stage : (io_stage io <= io_stage io')%nat;
  ad_closes : io_close_calls io' = io_close_calls io ∨
    (io_close_calls io' = S (io_close_calls io) ∧ io_stage io <= 1 ∧ 2 <= io_stage io')%nat;
  ad_read : read_buffer_ (io_conn io') = read_buffer_ (io_conn io);
  ad_reads : io_reads io' = io_reads io
}.

(** The answers that the frames [hs] of a client ask for. *)
Definition answers (hs : list (Z * bytes)) : list (Z * bytes) :=
  (λ f, (MessageType.value MessageType.heartbeat_ack, f.2)) <$>
    filter (λ f, f.1 = MessageType.value MessageType.heartbeat ∧ zlen f.2 = 8) hs.

(** While the frames [hs] are handled on an established connection, the frames
    [more] are sent: the answers to the first heartbeats, and to all of them
    unless the connection is closed meanwhile. *)
Record echoes (hs more : list (Z * bytes)) (io io' : Io) : Prop := {
  ec_sent : ∀ q sent, io_inv q sent io → io_inv q (sent ++ (frame_bytes <$> more)) io';
  ec_stage : (io_stage io <= io_stage io')%nat;
  ec_first : more `prefix_of` answers hs;
  ec_all : (io_stage io' <= 1)%nat → more = answers hs;
  ec_closed : (2 <= io_stage io)%nat → more = []
}.

(** * Proofs *)

#[export] Instance advances_preorder : PreOrder advances.
Proof.
  split; [by split; [|left|..]|].
  intros a b c [? ? ? ?] [? ? ? ?]. split; [lia| |congruence..]. lia.
Qed.

Lemma advances_on_conn f io :
  state_ (f (io_conn io)) = state_ (io_conn io) → read_buffer_ (f (io_conn io)) = read_buffer_ (io_conn io) →
  advances io (on_conn f io).
Proof. intros Hs Hr. split; [|by left|done..]. unfold io_stage. cbn. by rewrite Hs. Qed.

Lemma advances_writes ws io : advances io (set_writes ws io).
Proof. by split; [|left|..]. Qed.

Lemma release_read n c : read_buffer_ (release_write_bytes n c) = read_buffer_ c.
Proof. unfold release_write_bytes. branches. Qed.

Lemma clear_read c : read_buffer_ (clear_write_buffer_in_loop true c) = read_buffer_ c.
Proof. unfold clear_write_buffer_in_loop. cbn. case_test E; [done|]. by rewrite release_read. Qed.

#[local] Arguments clear_write_buffer_in_loop : simpl never.

Lemma advances_close io : advances io (handle_close true io).
Proof.
  pose proof (handle_close_stage io) as Hst. revert Hst. unfold handle_close, io_stage. cbn.
  case_test E; [done|]. to_prop. unfold on_conn, call_close_callback. cbn. rewrite clear_set_state. cbn.
  intros Hst. split; cbn; [done| |by rewrite clear_read|done].
  right. unfold io_stage. cbn. split_and!; [done| |lia].
  destruct (state_ (io_conn io)); cbn; done || lia.
Qed.

Lemma advances_watch events io : advances io (watch events io).
Proof. by split; [|left|..]. Qed.

Lemma advances_epoll events io : advances io (epoll_ctl events io).2.
Proof. unfold epoll_ctl. destruct (io_epoll io); by split; [|left|..]. Qed.

Lemma advances_write io : advances io (write_to_socket true io).2.
Proof.
  unfold write_to_socket. cbn [negb]. generalize (io_writes io) at 1. intros ws. revert io.
  induction ws as [|w ws IH]; intros io; cbn [write_to_socket_loop]; case_test E; try apply advances_writes.
  destruct w; cbn [snd]; try apply advances_writes; [|apply IH].
  set (k := Nat.min _ _).
  transitivity (on_wire (take k (peek (write_buffer_ (io_conn io)))) io); [by split; [|left|..]|].
  destruct (retrieve _ _) as [b|]; [|done]. etrans; [|apply IH].
  apply advances_on_conn; cbn; [by rewrite release_state|by rewrite release_read].
Qed.

(** Arming the descriptor again, or closing. *)
Lemma advances_rearm io :
  advances io (let '(updated, io) := epoll_ctl (need_events (io_conn io)) io in
               if negb updated then handle_close true io else io).
Proof.
  pose proof (advances_epoll (need_events (io_conn io)) io) as H. destruct (epoll_ctl _ io) as [[] io']; cbn [negb]; [done|].
  etrans; [exact H|apply advances_close].
Qed.

Lemma advances_send_in_loop data io : advances io (send_in_loop true data io).
Proof.
  unfold send_in_loop. cbn [negb]. case_test E.
  { apply advances_on_conn; [apply release_state|apply release_read]. }
  set (io1 := on_conn _ io). transitivity io1; [by apply advances_on_conn|].
  etrans; [apply advances_write|]. destruct (write_to_socket true io1) as [[] io2]; cbn [snd negb];
    [apply advances_rearm|apply advances_close].
Qed.

Lemma reserve_kept len c :
  state_ (reserve_write_bytes len c).2 = state_ c ∧ read_buffer_ (reserve_write_bytes len c).2 = read_buffer_ c.
Proof. unfold reserve_write_bytes. branches. Qed.

Lemma advances_send_here data io : advances io (send_here data io).2.
Proof.
  unfold send_here. case_bool_decide; [done|]. pose proof (reserve_kept (zlen data) (io_conn io)) as [Hs Hr].
  destruct (reserve_write_bytes _ _) as [[] c]; cbn [negb snd] in *; [|done].
  etrans; [|apply advances_send_in_loop]. by apply advances_on_conn.
Qed.

Lemma refresh_kept now c :
  state_ (refresh_peer_activity true now c) = state_ c ∧ read_buffer_ (refresh_peer_activity true now c) = read_buffer_ c.
Proof. unfold refresh_peer_activity. cbn. by case_bool_decide. Qed.

Lemma advances_refresh now io : advances io (on_conn (refresh_peer_activity true now) io).
Proof. apply advances_on_conn; apply refresh_kept. Qed.

Lemma advances_heartbeat now payload io : advances io (handle_heartbeat now payload io).2.
Proof.
  rewrite heartbeat_echoed. destruct (_ =? 8); [|done].
  set (io1 := on_conn _ io). transitivity io1; [apply advances_refresh|].
  pose proof (advances_send_here (frame_bytes (108, payload)) io1) as H.
  destruct (send_here _ _) as [[] io2]; cbn [snd] in *; [done|]. etrans; [exact H|apply advances_close].
Qed.

Lemma advances_event_rest events io : advances io (handle_event_rest true events io).
Proof.
  unfold handle_event_rest.
  set (r := if has events EPOLLOUT then write_to_socket true io else (true, io)).
  assert (Hr : advances io r.2) by (unfold r; destruct (has events EPOLLOUT); [apply advances_write|done]).
  destruct r as [ok io']; cbn [snd] in Hr. etrans; [exact Hr|].
  case_test E; [apply advances_close|]. case_test E'; [apply advances_close|]. apply advances_rearm.
Qed.

Lemma advances_task now t io : advances io (run_task now t io).
Proof.
  destruct t; cbn [run_task].
  - apply advances_send_in_loop.
  - apply advances_close.
  - unfold check_timeout_in_loop. cbn [negb]. branches. apply advances_close.
  - unfold connect_established. cbn [negb]. case_test E; [done|]. case_test E'; [done|].
    pose proof (advances_epoll BASE_EVENTS io) as H. destruct (epoll_ctl _ io) as [[] io'] eqn:Hio; cbn [snd] in H.
    + etrans; [exact H|]. to_prop.
      assert (Hs : state_ (io_conn io') = CS.Connecting).
      { unfold epoll_ctl in Hio. by destruct (io_epoll io) as [|[]]; simplify_eq. }
      split; unfold io_stage; cbn; rewrite ?Hs; [cbn; lia|by left|done..].
    + etrans; [exact H|apply advances_close].
  - unfold connect_destroyed. cbn [negb]. case_test E; [done|].
    set (io1 := if registered_ (io_conn io) then _ else io).
    assert (H1 : advances io io1) by (unfold io1; destruct (registered_ _); [|done];
      etrans; [apply (advances_watch 0)|by apply advances_on_conn]).
    etrans; [exact H1|]. unfold on_conn. cbn.
    assert (Hc : ∀ c, read_buffer_ (close_connection c) = read_buffer_ c)
      by (intros c; unfold close_connection; by destruct (close_ c)).
    split; cbn; [|by left|by rewrite Hc, clear_read|done].
    unfold io_stage. cbn. destruct (state_ (io_conn io1)); cbn; lia.
Qed.

(** ** What one message queues *)

Lemma split_frame_inv bs type payload rest :
  split_frame bs = Frame type payload rest →
  bs = frame_bytes (type, payload) ++ rest ∧ frame_ok (type, payload).
Proof.
  unfold split_frame. intros H. branches_in H. to_prop.
  set (len := be_value (take 4 bs)) in *. unfold MIN_FRAME_LENGTH, MAX_FRAME_LENGTH, TYPE_FIELD_SIZE in *.
  assert (Hlen : Z.of_nat (length bs) = zlen bs) by done.
  assert (Ht : zlen (take (Z.to_nat (len - 2)) (drop 6 bs)) = len - 2)
    by (unfold zlen in *; rewrite length_take, length_drop; lia).
  unfold frame_bytes, frame_ok. cbn [fst snd]. rewrite Ht. split.
  - replace (2 + (len - 2)) with len by lia.
    assert (H4 : be_bytes 4 len = take 4 bs).
    { rewrite <- (be_bytes_value (take 4 bs)). f_equal. rewrite length_take. unfold zlen in *. lia. }
    assert (H2 : be_bytes 2 (be_value (take 2 (drop 4 bs))) = take 2 (drop 4 bs)).
    { rewrite <- (be_bytes_value (take 2 (drop 4 bs))) at 2. f_equal. rewrite length_take, length_drop. unfold zlen in *. lia. }
    rewrite H4, H2, <- !(assoc_L (++)). replace (Z.to_nat (len + 4)) with (6 + Z.to_nat (len - 2))%nat by lia.
    rewrite <- (drop_drop bs (Z.to_nat (len - 2)) 6), (take_drop (Z.to_nat (len - 2))).
    by rewrite <- (drop_drop bs 2 4 : _ = drop 6 bs), (take_drop 2), take_drop.
  - split; [|unfold MAX_FRAME_LENGTH, TYPE_FIELD_SIZE; lia].
    pose proof (be_value_range (take 2 (drop 4 bs))) as Hr. unfold u16_range.
    assert (Hl : zlen (take 2 (drop 4 bs)) = 2) by (unfold zlen in *; rewrite length_take, length_drop; lia).
    rewrite Hl in Hr. exact Hr.
Qed.

Lemma frames_of_app xs ys : frames_of (xs ++ ys) = frames_of xs ++ frames_of ys.
Proof. apply omap_app. Qed.

Lemma frames_of_cons f posted : frames_of (posted_frame f :: posted) = f :: frames_of posted.
Proof. by destruct f. Qed.

Lemma frames_of_frames fs : frames_of (posted_frame <$> fs) = fs.
Proof. unfold frames_of. induction fs as [|[] fs IH]; cbn; [done|]. by rewrite IH. Qed.

Lemma frames_of_reports io io' : frames_of (reports io io') = [].
Proof. unfold frames_of, reports. by induction (_ - _)%nat. Qed.

Lemma closes_of_app xs ys : closes_of (xs ++ ys) = (closes_of xs + closes_of ys)%nat.
Proof. unfold closes_of. by rewrite filter_app, length_app. Qed.

Lemma closes_of_frames fs : closes_of (posted_frame <$> fs) = 0%nat.
Proof. unfold closes_of. induction fs; [done|]. cbn [fmap list_fmap]. by rewrite filter_cons_False. Qed.

Lemma closes_of_reports io io' : closes_of (reports io io') = (io_close_calls io' - io_close_calls io)%nat.
Proof. unfold closes_of, reports. induction (_ - _)%nat as [|n IH]; [done|]. cbn [replicate]. by rewrite filter_cons_True, length_cons, IH. Qed.

(** Without a close report there are only frames. *)
Lemma no_closes posted : closes_of posted = 0%nat → posted = posted_frame <$> frames_of posted.
Proof.
  induction posted as [|[type payload|] posted IH]; intros H; [done|..]; unfold closes_of in H.
  - rewrite filter_cons_False in H by done. cbn. f_equal. by apply IH.
  - by rewrite filter_cons_True in H.
Qed.

Lemma advances_closes io io' : advances io io' → (io_close_calls io <= io_close_calls io')%nat.
Proof. intros [_ H _ _]. lia. Qed.

Lemma decoded_frame_spec now io type payload :
  let '((io', frames), ok) := handle_decoded_frame now (io, []) type payload in
  advances io io' ∧ frames = (if is_request type then [(type, payload)] else []).
Proof.
  destruct (is_request type) eqn:Hr.
  - rewrite callback_request by done. split; [apply advances_refresh|done].
  - unfold is_request in Hr. unfold handle_decoded_frame. destruct (MessageType.of_value type) as [[]|]; try done.
    pose proof (advances_heartbeat now payload io) as H. by destruct (handle_heartbeat now payload io).
Qed.

(** *** Answers *)

Lemma handle_close_closing io : (2 <= io_stage (handle_close true io))%nat.
Proof.
  unfold handle_close. cbn [negb]. case_test E; to_prop.
  - unfold io_stage. destruct E as [E|E]; to_prop; rewrite E; cbn; lia.
  - unfold io_stage, on_conn, call_close_callback. cbn. rewrite clear_set_state. cbn. lia.
Qed.

Lemma answers_app hs1 hs2 : answers (hs1 ++ hs2) = answers hs1 ++ answers hs2.
Proof. unfold answers. by rewrite filter_app, fmap_app. Qed.

Lemma answers_cons type payload hs :
  answers ((type, payload) :: hs) =
    (if (type =? 6) && (zlen payload =? 8) then [(108, payload)] else []) ++ answers hs.
Proof.
  unfold answers. rewrite filter_cons. cbn [fst snd MessageType.value].
  destruct (Z.eqb_spec type 6), (Z.eqb_spec (zlen payload) 8); cbn [andb];
    [by rewrite decide_True|rewrite decide_False by tauto; done..].
Qed.

Lemma echoes_app hs1 hs2 more1 more2 io1 io2 io3 :
  echoes hs1 more1 io1 io2 → echoes hs2 more2 io2 io3 → echoes (hs1 ++ hs2) (more1 ++ more2) io1 io3.
Proof.
  intros [S1 T1 F1 A1 C1] [S2 T2 F2 A2 C2]. split; rewrite ?answers_app.
  - intros q sent H. rewrite fmap_app, (assoc_L (++)). by apply S2, S1.
  - lia.
  - destruct (decide (2 <= io_stage io2)%nat) as [H|H].
    + rewrite (C2 H), app_nil_r. by apply prefix_app_r.
    + rewrite A1 by lia. by apply prefix_app.
  - intros H3. by rewrite A1, A2 by lia.
  - intros H. by rewrite C1, C2 by lia.
Qed.

Lemma echoes_quiet hs io io' :
  answers hs = [] → (io_stage io <= io_stage io')%nat → (∀ q sent, io_inv q sent io → io_inv q sent io') →
  echoes hs [] io io'.
Proof.
  intros Hn Ha Hi. split; rewrite ?Hn; [|done..]. intros q sent. rewrite app_nil_r. apply Hi.
Qed.

(** A heartbeat that is answered, or closes the connection. *)
Lemma echoes_heartbeat now payload io :
  (1 <= io_stage io)%nat → ∃ more, echoes [(6, payload)] more io (handle_heartbeat now payload io).2.
Proof.
  intros H1. pose proof (advances_heartbeat now payload io) as Ha. rewrite heartbeat_echoed in *.
  pose proof (answers_cons 6 payload []) as Hans. change (6 =? 6) with true in Hans. cbn [andb] in Hans.
  destruct (zlen payload =? 8); [|exists []; by apply echoes_quiet].
  set (io1 := on_conn _ io) in *. set (data := frame_bytes (108, payload)) in *.
  assert (Hs1 : state_ (io_conn io1) = state_ (io_conn io)) by apply refresh_kept.
  assert (Hsend : ∀ q sent, io_inv q sent io →
    io_inv q (sent ++ if (send_here data io1).1 then appended data io1 else []) (send_here data io1).2).
  { intros q sent Hi. by apply send_here_inv, io_inv_refresh. }
  destruct (send_here data io1) as [[] io2]; cbn [fst snd] in *.
  - exists (if bool_decide (state_ (io_conn io) = CS.Connected) then [(108, payload)] else []).
    assert (Happ : appended data io1 = frame_bytes <$> if bool_decide (state_ (io_conn io) = CS.Connected) then [(108, payload)] else []).
    { unfold appended. rewrite Hs1. by case_bool_decide. }
    split; rewrite ?Hans.
    + intros q sent Hi. rewrite <- Happ. by apply Hsend.
    + apply Ha.
    + case_bool_decide; [done|apply prefix_nil].
    + intros H2. pose proof (ad_stage _ _ Ha). rewrite bool_decide_true; [done|]. apply io_stage_connected. lia.
    + intros H2. rewrite bool_decide_false; [done|]. rewrite io_stage_connected. lia.
  - exists []. pose proof (handle_close_closing io2). split; rewrite ?Hans; [|apply Ha|apply prefix_nil|lia|done].
    intros q sent Hi. rewrite app_nil_r. apply handle_close_inv. rewrite <- (app_nil_r sent). by apply Hsend.
Qed.

Lemma of_value_sound type m : MessageType.of_value type = Some m → MessageType.value m = type.
Proof.
  unfold MessageType.of_value. intros ([i m'] & Hf & [= ->])%bind_Some. by apply list_find_Some in Hf as (_ & Hv & _).
Qed.

Lemma echoes_frame now type payload io posted :
  (1 <= io_stage io)%nat → ∃ more, echoes [(type, payload)] more io (traced_frame now (io, posted) type payload).1.1.
Proof.
  intros H1. unfold traced_frame. destruct (is_request type) eqn:Hr.
  - rewrite callback_request by done. cbn [fst]. exists []. apply echoes_quiet; [|apply advances_refresh|].
    + rewrite answers_cons. by destruct (Z.eqb_spec type 6) as [->|].
    + intros q sent. apply io_inv_refresh.
  - destruct (decide (MessageType.of_value type = Some MessageType.heartbeat)) as [Hh|Hh].
    + pose proof (echoes_heartbeat now payload io H1) as He. unfold handle_decoded_frame. rewrite Hh.
      destruct (handle_heartbeat now payload io) as [ok io']. cbn [fst snd] in *.
      by rewrite (of_value_sound _ _ Hh : 6 = type) in He.
    + rewrite callback_refused by auto. exists []. apply echoes_quiet; [|done|done].
      rewrite answers_cons. by destruct (Z.eqb_spec type 6) as [->|].
Qed.

(** *** What one message takes from the stream *)

(** The frames [hs] are taken from the stream; the requests among them are queued. *)
Record takes (hs : list (Z * bytes)) (io : Io) (posted : list Posting) (io' : Io) (posted' : list Posting) : Prop := {
  tk_ok : Forall frame_ok hs;
  tk_frames : frames_of posted' = frames_of posted ++ filter (λ f, is_request f.1 = true) hs;
  tk_closes : (closes_of posted' + io_close_calls io = closes_of posted + io_close_calls io')%nat;
  tk_advances : advances io io';
  tk_echoes : (1 <= io_stage io)%nat → ∃ more, echoes hs more io io'
}.

Lemma takes_frame now type payload io posted :
  frame_ok (type, payload) →
  let '((io', posted'), _) := traced_frame now (io, posted) type payload in
  takes [(type, payload)] io posted io' posted'.
Proof.
  intros Hok. pose proof (echoes_frame now type payload io posted) as He. revert He.
  unfold traced_frame. pose proof (decoded_frame_spec now io type payload) as H.
  destruct (handle_decoded_frame now (io, []) type payload) as [[io' frames] ok]. destruct H as [Ha ->].
  intros He. pose proof (advances_closes _ _ Ha). split.
  - by constructor.
  - rewrite !frames_of_app, frames_of_frames, frames_of_reports, app_nil_r, filter_cons. cbn [fst].
    destruct (is_request type); [by rewrite decide_True|by rewrite decide_False].
  - rewrite !closes_of_app, closes_of_frames, closes_of_reports. lia.
  - done.
  - exact He.
Qed.

Lemma takes_app hs1 hs2 io1 p1 io2 p2 io3 p3 :
  takes hs1 io1 p1 io2 p2 → takes hs2 io2 p2 io3 p3 → takes (hs1 ++ hs2) io1 p1 io3 p3.
Proof.
  intros [H1 F1 C1 A1 E1] [H2 F2 C2 A2 E2]. split; [by apply Forall_app| |lia|by etrans|].
  - by rewrite F2, F1, filter_app, (assoc_L (++)).
  - intros H. pose proof (ad_stage _ _ A1). destruct (E1 H) as [more1 He1], E2 as [more2 He2]; [lia|].
    exists (more1 ++ more2). by eapply echoes_app.
Qed.

Lemma left_over_app hs1 hs2 rest : left_over hs2 rest → left_over (hs1 ++ hs2) rest.
Proof.
  unfold left_over. destruct (split_frame rest); [done..|]. intros (f & Hf & Hr). exists f.
  split; [|done]. by rewrite last_app, Hf.
Qed.

Lemma parse_takes now bs io posted :
  ∃ io' posted' rest ok hs, parse (traced_frame now) (io, posted) bs = Some ((io', posted'), rest, ok) ∧
    takes hs io posted io' posted' ∧ bs = concat (frame_bytes <$> hs) ++ rest ∧
    (ok = true → split_frame rest = NeedMore) ∧ left_over hs rest.
Proof.
  revert io posted. induction bs as [bs IH] using (induction_ltof1 _ (@length byte)).
  intros io posted. unfold ltof in IH.
  assert (Hnil : takes [] io posted io posted).
  { split; rewrite ?app_nil_r; try done. exists []. by apply echoes_quiet. }
  destruct (split_frame bs) as [| |type payload rest] eqn:E.
  - exists io, posted, bs, true, []. unfold left_over. rewrite E. by rewrite parse_needs_more.
  - exists io, posted, bs, false, []. unfold left_over. rewrite E.
    split_and!; [|done..]. unfold parse. cbn. by rewrite E.
  - rewrite (parse_frame _ _ _ _ _ _ E). pose proof (split_frame_rest _ _ _ _ E) as (_ & _ & _ & _ & Hlen).
    apply split_frame_inv in E as [Hbs Hok]. pose proof (takes_frame now type payload io posted Hok) as Ht.
    destruct (traced_frame now (io, posted) type payload) as [[io1 posted1] []] eqn:Htr; cbn [negb].
    + destruct (IH rest ltac:(lia) io1 posted1) as (io' & posted' & rest' & ok & hs & -> & Htk & -> & Hmore & Hleft).
      exists io', posted', rest', ok, ((type, payload) :: hs). split_and!; [done| | |done|].
      * by apply (takes_app [(type, payload)] _ _ _ io1 posted1).
      * rewrite Hbs. cbn. by rewrite (assoc_L (++)).
      * by apply (left_over_app [(type, payload)]).
    + exists io1, posted1, rest, false, [(type, payload)]. split_and!; [done|done| |done|].
      * rewrite Hbs. cbn. by rewrite app_nil_r.
      * unfold left_over. destruct (split_frame rest); [done..|]. exists (type, payload). split; [done|]. cbn.
        apply not_true_is_false. intros Hr. unfold traced_frame in Htr. by rewrite callback_request in Htr.
Qed.

(** Two callbacks that agree through [f] decode alike. *)
Lemma decode_loop_map {S T} (f : S → T) (callback : FrameCallback S) (callback' : FrameCallback T) fuel s (b : Buffer) :
  (∀ s type payload, callback' (f s) type payload = (f (callback s type payload).1, (callback s type payload).2)) →
  decode_loop fuel callback' (f s) b = (λ r, (f r.1.1, r.1.2, r.2)) <$> decode_loop fuel callback s b.
Proof.
  intros Hf. revert s b. induction fuel as [|fuel IH]; intros s b; cbn [decode_loop]; [done|].
  case_match; [done|]. case_match; [done|]. case_match; [done|].
  destruct (bq_retrieve b _) as [b'|]; [|done]. rewrite Hf.
  destruct (callback s _ _) as [s' []]; cbn [fst snd negb]; [apply IH|done].
Qed.

Definition untraced (s : Io * list Posting) : Decoded := (s.1, frames_of s.2).

Lemma traced_frame_map now s type payload :
  handle_decoded_frame now (untraced s) type payload =
    (untraced (traced_frame now s type payload).1, (traced_frame now s type payload).2).
Proof.
  destruct s as [io posted]. unfold traced_frame, untraced, handle_decoded_frame. cbn [fst snd].
  destruct (MessageType.of_value type) as [[]|]; try destruct (handle_heartbeat now payload io) as [ok io'];
    cbn [fst snd fmap list_fmap app]; rewrite ?frames_of_app, ?frames_of_reports, ?app_nil_r; try done;
    by rewrite frames_of_cons, frames_of_reports.
Qed.

(** What the message callback does with the contents of the read buffer. *)
Lemma traced_message_spec now io :
  buffer_wf (read_buffer_ (io_conn io)) →
  ∃ decoded posted buffer ok hs,
    traced_message now io = ((on_conn (set_read_buffer buffer) decoded, posted), ok) ∧
    handle_message true now io = Some ((on_conn (set_read_buffer buffer) decoded, frames_of posted), ok) ∧
    takes hs io [] decoded posted ∧ buffer_wf buffer ∧
    contents (read_buffer_ (io_conn io)) = concat (frame_bytes <$> hs) ++ contents buffer ∧
    (ok = true → split_frame (contents buffer) = NeedMore) ∧ left_over hs (contents buffer).
Proof.
  intros Hwf. unfold traced_message, handle_message. cbn [negb].
  destruct (decode_refines_parse (B:=Buffer) (traced_frame now) (io, []) (read_buffer_ (io_conn io)))
    as ([decoded posted] & buffer & ok & Hd & Hwf' & Hp); [exact Hwf|].
  destruct (parse_takes now (contents (read_buffer_ (io_conn io))) io []) as (io' & posted' & rest & ok' & hs & Hp' & Ht & Hc & Hmore).
  cbn [bq_contents Buffer_queue bq_wf] in *. rewrite Hp' in Hp. injection Hp as -> -> -> ->.
  pose proof (decode_loop_map untraced (traced_frame now) (handle_decoded_frame now)
    (1 + bq_readable (read_buffer_ (io_conn io))) (io, []) (read_buffer_ (io_conn io)) (traced_frame_map now)) as Hm.
  unfold decode in *. rewrite Hd in *. change (untraced (io, [])) with ((io, []) : Decoded) in Hm.
  exists decoded, posted, buffer, ok, hs. rewrite Hm. done.
Qed.

Lemma service_callback_spec now io :
  buffer_wf (read_buffer_ (io_conn io)) →
  service_callback now io = ((traced_message now io).2, (traced_message now io).1.1).
Proof.
  intros Hwf. unfold service_callback.
  destruct (traced_message_spec now io Hwf) as (decoded & posted & buffer & ok & hs & -> & -> & _). done.
Qed.

Lemma read_from_socket_spec rs io :
  buffer_wf (read_buffer_ (io_conn io)) →
  let read := (read_from_socket_loop rs io).2 in
  buffer_wf (read_buffer_ (io_conn read)) ∧
  contents (read_buffer_ (io_conn read)) = contents (read_buffer_ (io_conn io)) ++ read_bytes rs ∧
  io_stage read = io_stage io ∧ io_close_calls read = io_close_calls io.
Proof.
  revert io.
  induction rs as [|r rs IH]; intros io Hwf; cbn [read_from_socket_loop read_bytes]; [by rewrite app_nil_r|].
  destruct r as [first more| | | |]; cbn [snd]; try (by rewrite app_nil_r); [|by apply IH].
  destruct (append_spec (read_buffer_ (io_conn io)) (first :: take 4095 more) Hwf) as [Hwf' Hc].
  destruct (IH (on_conn (λ c, set_read_buffer (append (read_buffer_ c) (first :: take 4095 more)) c) io) Hwf')
    as (H1 & H2 & H3 & H4).
  split_and!; [done| |done|done]. rewrite H2. cbn [io_conn on_conn set_read_buffer read_buffer_].
  by rewrite Hc, <- (assoc_L (++)).
Qed.

(** ** What an event or a task does *)

#[local] Arguments closes_of : simpl never.
#[local] Arguments frames_of : simpl never.
#[local] Arguments handle_close : simpl never.
#[local] Arguments handle_event : simpl never.
#[local] Arguments run_task : simpl never.
#[local] Arguments traced_message : simpl never.

Abbreviation unread io := (contents (read_buffer_ (io_conn io))).
Abbreviation requests hs := (filter (λ f : Z * bytes, is_request f.1 = true) hs).

(** The connection reads [data] and queues [posted]; [good] tells that the
    reading has not failed. *)
Record moves (good : bool) (io : Io) (data : bytes) (posted : list Posting) (io' : Io) : Prop := {
  mv_wf : buffer_wf (read_buffer_ (io_conn io'));
  mv_stream : ∃ hs rest, Forall frame_ok hs ∧ unread io ++ data = concat (frame_bytes <$> hs) ++ rest ∧
    frames_of posted = requests hs ∧
    ((io_stage io' <= 1)%nat → unread io' = rest ∧ (split_frame (unread io) = NeedMore → split_frame rest = NeedMore)) ∧
    (good = true → split_frame (unread io) = NeedMore → left_over hs rest);
  mv_closes : (closes_of posted + io_close_calls io = io_close_calls io')%nat;
  mv_once : io_close_calls io' = io_close_calls io ∨
    (io_close_calls io' = S (io_close_calls io) ∧ io_stage io <= 1 ∧ 2 <= io_stage io')%nat;
  mv_stage : (io_stage io <= io_stage io')%nat;
  mv_quiet : (2 <= io_stage io)%nat → posted = [] ∧ data = []
}.

Lemma moves_delivered good io data posted io' : moves good (delivered io) data posted io' → moves good io data posted io'.
Proof. by intros []; split. Qed.

Lemma advances_moves good io io' :
  buffer_wf (read_buffer_ (io_conn io)) → advances io io' → moves good io [] (reports io io') io'.
Proof.
  intros Hwf Ha. pose proof (advances_closes _ _ Ha). destruct Ha as [Hst Hc Hr _].
  split; [by rewrite Hr| |rewrite closes_of_reports; lia|done|done|].
  - exists [], (unread io). rewrite app_nil_r, frames_of_reports, Hr. split_and!; [done..|].
    unfold left_over. by intros _ ->.
  - intros H2. destruct Hc as [Hc|]; [|lia]. unfold reports. by rewrite Hc, Nat.sub_diag.
Qed.

(** The rest of [handle_event] after the message callback has returned [ok]. *)
Lemma event_after_callback events ok io :
  let io' := if negb ok then handle_close true io
             else if negb (bool_decide (state_ (io_conn io) = CS.Connected)) then io
             else handle_event_rest true events io in
  advances io io' ∧ ((io_stage io' <= 1)%nat → ok = true).
Proof.
  destruct ok; cbn [negb].
  - split; [|done]. case_test E; [done|apply advances_event_rest].
  - split; [apply advances_close|]. pose proof (handle_close_closing io). lia.
Qed.

Lemma handle_event_connected now events io :
  state_ (io_conn io) = CS.Connected →
  handle_event true (Some (service_callback now)) events io =
    if is_readable events then
      let '(ok, io) := read_from_socket io in
      if negb ok then handle_close true io
      else let '(ok, io) := service_callback now io in
           if negb ok then handle_close true io
           else if negb (bool_decide (state_ (io_conn io) = CS.Connected)) then io
           else handle_event_rest true events io
    else handle_event_rest true events io.
Proof. intros Hcon. unfold handle_event. cbn [negb]. by rewrite (bool_decide_true _ Hcon). Qed.

Lemma io_event_moves now events io :
  buffer_wf (read_buffer_ (io_conn io)) →
  let good := negb (bool_decide (state_ (io_conn io) = CS.Connected) && is_readable events &&
                    negb (read_from_socket io).1) in
  let '(io', posted, data) := io_event now events io in moves good io data posted io'.
Proof.
  intros Hwf. cbv zeta. unfold io_event. case_bool_decide as Hcon; cbn [andb].
  2:{ unfold handle_event. cbn [negb]. rewrite (bool_decide_false _ Hcon). cbn [negb]. by apply advances_moves. }
  rewrite (handle_event_connected _ _ _ Hcon).
  destruct (is_readable events); [cbn [andb]|by apply advances_moves, advances_event_rest].
  destruct (read_from_socket_spec (io_reads io) io Hwf) as (Hrwf & Hrc & Hrs & Hrn).
  unfold read_from_socket in *. destruct (read_from_socket_loop (io_reads io) io) as [ok read]; cbn [snd] in *.
  destruct ok; cbn [negb fst].
  - rewrite (service_callback_spec now read Hrwf).
    destruct (traced_message_spec now read Hrwf) as (decoded & posted & buffer & ok & hs & -> & _ & [Htok Htf Htc Hta _] & Hbwf & Hc & Hmore & Hleft).
    cbn [fst snd]. set (io2 := on_conn (set_read_buffer buffer) decoded).
    destruct (event_after_callback events ok io2) as [Ha Hok].
    set (io' := if negb ok then _ else _) in *. pose proof (advances_closes _ _ Ha). pose proof (advances_closes _ _ Hta).
    change (io_close_calls io2) with (io_close_calls decoded) in *.
    destruct Ha as [Hst Hcl Hrb _], Hta as [Hst' Hcl' _ _].
    change (io_stage io2) with (io_stage decoded) in *. change (io_close_calls io2) with (io_close_calls decoded) in *.
    change (read_buffer_ (io_conn io2)) with buffer in Hrb. change (closes_of []) with 0%nat in Htc.
    split; [by rewrite Hrb| | |lia|lia|].
    2:{ rewrite closes_of_app, closes_of_reports. change (io_close_calls io2) with (io_close_calls decoded). lia. }
    + exists hs, (contents buffer). rewrite frames_of_app, frames_of_reports, app_nil_r, Hrb, <- Hrc.
      split_and!; [done|done|done| |done]. intros Hs. split; [done|]. intros _. by apply Hmore, Hok.
    + intros H2. unfold io_stage in H2. rewrite Hcon in H2. cbn in H2. lia.
  - pose proof (advances_close read) as Ha. pose proof (advances_closes _ _ Ha). pose proof (handle_close_closing read).
    destruct Ha as [Hst Hcl Hrb _]. split; [by rewrite Hrb| |cbn [app]; rewrite closes_of_reports; lia|lia|lia|].
    + exists [], (unread io ++ read_bytes (io_reads io)). cbn [app]. rewrite frames_of_reports. split_and!; [done..|lia|done].
    + intros H2. unfold io_stage in H2. rewrite Hcon in H2. cbn in H2. lia.
Qed.

(** ** Runs *)

(** [good]: no reading has failed so far. *)
Record peer_inv (good : bool) (p : Peer) : Prop := {
  pi_wf : buffer_wf (read_buffer_ (io_conn (pr_io p)));
  pi_stream : ∃ hs rest, Forall frame_ok hs ∧ pr_received p = concat (frame_bytes <$> hs) ++ rest ∧
    frames_of (pr_posted p) = requests hs ∧
    ((io_stage (pr_io p) <= 1)%nat → unread (pr_io p) = rest ∧ split_frame rest = NeedMore) ∧
    (good = true → left_over hs rest);
  pi_closes : closes_of (pr_posted p) = io_close_calls (pr_io p);
  pi_once : (io_close_calls (pr_io p) <= 1)%nat;
  pi_open : (io_stage (pr_io p) <= 1)%nat → io_close_calls (pr_io p) = 0%nat
}.

Lemma Peer_new_inv good now reads writes epoll : peer_inv good (Peer_new now reads writes epoll).
Proof. split; [apply Buffer_new_wf| |done|cbn; lia|done]. by exists [], []. Qed.

Lemma moves_inv good good' p data posted io tasks :
  peer_inv good p → moves good' (pr_io p) data posted io →
  peer_inv (good && good') (MkPeer io tasks (pr_posted p ++ posted) (pr_received p ++ data)).
Proof.
  intros [Hwf (hs0 & rest0 & Hok0 & Hrec & Hf0 & Hun & Hleft0) Hcl Honce Hopen]
    [Hwf' (hs & rest & Hok & Hdata & Hf & Hrest & Hleft) Hcl' Honce' Hst Hquiet].
  split; cbn; [done| |rewrite closes_of_app; lia|lia|lia].
  destruct (decide (io_stage (pr_io p) <= 1)%nat) as [H1|H1].
  - destruct (Hun H1) as [<- Hmore]. exists (hs0 ++ hs), rest.
    rewrite fmap_app, concat_app, <- !(assoc_L (++)), <- Hdata, Hrec, <- (assoc_L (++)), frames_of_app, filter_app, Hf0, Hf.
    split_and!; [by apply Forall_app|done|done| |].
    + intros H2. destruct (Hrest H2) as [? Hn]. auto.
    + intros [_ Hg]%andb_true_iff. by apply left_over_app, Hleft.
  - destruct (Hquiet ltac:(lia)) as [-> ->]. exists hs0, rest0. rewrite !app_nil_r.
    split_and!; [done..|lia|]. by intros [Hg _]%andb_true_iff; apply Hleft0.
Qed.

(** A connection object whose read buffer and life cycle another thread has not touched. *)
Lemma peer_same_inv good p io tasks :
  peer_inv good p → io_stage io = io_stage (pr_io p) → io_close_calls io = io_close_calls (pr_io p) →
  read_buffer_ (io_conn io) = read_buffer_ (io_conn (pr_io p)) →
  peer_inv good (MkPeer io tasks (pr_posted p) (pr_received p)).
Proof. intros [] Hs Hc Hr. split; cbn; rewrite ?Hs, ?Hc, ?Hr; done. Qed.

Lemma send_kept data c : let c' := (send data c).2 in state_ c' = state_ c ∧ read_buffer_ c' = read_buffer_ c.
Proof.
  unfold send. case_bool_decide; [done|]. pose proof (reserve_kept (zlen data) c) as Hk.
  by destruct (reserve_write_bytes _ _) as [[] c'].
Qed.

Lemma peer_step_inv good s p : peer_inv good p → peer_inv (good && negb (read_fails s p)) (peer_step s p).
Proof.
  intros Hi. destruct s as [data| | | | |now|now events]; cbn [peer_step read_fails negb];
    rewrite ?andb_true_r; try (by apply peer_same_inv).
  - pose proof (send_kept data (io_conn (pr_io p))) as [Hs Hr]. destruct (send _ _) as [[ok tasks] c]; cbn [snd] in *.
    apply (peer_same_inv _ p); [done| |done|done]. unfold io_stage. cbn. by rewrite Hs.
  - destruct (pr_tasks p) as [|task tasks]; [done|].
    rewrite <- (app_nil_r (pr_received p)), <- (andb_true_r good).
    apply moves_inv; [done|]. apply advances_moves; [apply Hi|apply advances_task].
  - pose proof (io_event_moves now events (delivered (pr_io p)) (pi_wf _ _ Hi)) as Hm. cbv zeta in Hm.
    destruct (io_event now events (delivered (pr_io p))) as [[io posted] data].
    by apply moves_inv; [|apply moves_delivered].
Qed.

Lemma run_peer_inv good steps p : peer_inv good p → peer_inv (good && reads_succeed steps p) (run_peer steps p).
Proof.
  unfold run_peer. revert good p. induction steps as [|s steps IH]; intros good p Hi; cbn [reads_succeed foldl].
  - by rewrite andb_true_r.
  - rewrite andb_assoc. by apply IH, peer_step_inv.
Qed.

(** Frames first, then close reports. *)
Definition report_last (posted : list Posting) : Prop :=
  ∃ fs n, posted = (posted_frame <$> fs) ++ replicate n PostClosed.

Lemma report_last_reports io io' : report_last (reports io io').
Proof. exists []. eexists. reflexivity. Qed.

Lemma io_event_report_last good now events p :
  peer_inv good p → answer_fails (RunEvent now events) p = false →
  report_last (io_event now events (delivered (pr_io p))).1.2.
Proof.
  intros Hi. unfold io_event, answer_fails. set (io := delivered (pr_io p)).
  destruct (bool_decide _ && is_readable events) eqn:E; cbn [andb]; [|intros _; apply report_last_reports].
  destruct (read_from_socket_spec (io_reads io) io (pi_wf _ _ Hi)) as (Hrwf & _).
  unfold read_from_socket. destruct (read_from_socket_loop (io_reads io) io) as [ok read]; cbn [snd] in *.
  destruct ok; cbn [andb]; [|intros _; apply report_last_reports].
  destruct (traced_message_spec now read Hrwf) as (decoded & posted & buffer & ok & hs & -> & _ & [_ _ Htc _ _] & _).
  cbn [fst snd]. change (closes_of []) with 0%nat in Htc. intros Hf%negb_false_iff%Nat.eqb_eq. cbn in Hf.
  exists (frames_of posted). eexists. rewrite <- (no_closes posted) by lia. reflexivity.
Qed.

Lemma report_last_app posted more :
  report_last posted → report_last more → (closes_of posted = 0%nat ∨ more = []) → report_last (posted ++ more).
Proof.
  intros (fs & n & ->) (fs' & n' & ->) [H|Hnil]; [|by rewrite Hnil, app_nil_r; exists fs, n].
  exists (fs ++ fs'), n'. destruct n as [|n]; [by rewrite app_nil_r, fmap_app, <- (assoc_L (++))|].
  rewrite closes_of_app in H. unfold closes_of at 2 in H. cbn [replicate] in H. rewrite filter_cons_True in H by done. cbn in H. lia.
Qed.

Lemma run_peer_report_last steps p :
  peer_inv false p → answers_sent steps p = true → report_last (pr_posted p) → report_last (pr_posted (run_peer steps p)).
Proof.
  unfold run_peer. revert p. induction steps as [|s steps IH]; intros p Hi Hs Hl; [done|].
  cbn [answers_sent] in Hs. apply andb_true_iff in Hs as [Hf%negb_true_iff Hs].
  apply IH; [by apply (peer_step_inv false)|done|].
  assert (Hquiet : (2 <= io_stage (pr_io p))%nat ∨ closes_of (pr_posted p) = 0%nat).
  { destruct (decide (2 <= io_stage (pr_io p))%nat); [by left|right]. rewrite (pi_closes _ _ Hi). apply (pi_open _ _ Hi). lia. }
  destruct s as [data| | | | |now|now events]; cbn [peer_step] in *; try done.
  - by destruct (send _ _) as [[ok tasks] c].
  - destruct (pr_tasks p) as [|task tasks]; [done|]. cbn [pr_posted].
    pose proof (advances_moves false _ _ (pi_wf _ _ Hi) (advances_task now task (pr_io p))) as Hm.
    apply report_last_app; [done|apply report_last_reports|].
    destruct Hquiet as [Hq|Hq]; [right; by apply (mv_quiet _ _ _ _ _ Hm)|by left].
  - pose proof (io_event_report_last _ now events p Hi Hf) as Hr.
    pose proof (io_event_moves now events (delivered (pr_io p)) (pi_wf _ _ Hi)) as Hm. cbv zeta in Hm.
    destruct (io_event now events (delivered (pr_io p))) as [[io posted] data]. cbn [fst snd pr_posted] in *.
    apply report_last_app; [done..|]. destruct Hquiet as [Hq|Hq]; [right; by apply (mv_quiet _ _ _ _ _ Hm)|by left].
Qed.

(** ** A heartbeat whose answer cannot be written *)

Lemma touched_write now fs io :
  write_buffer_ (io_conn (touched now fs io)) = write_buffer_ (io_conn io) ∧
  state_ (io_conn (touched now fs io)) = state_ (io_conn io) ∧ io_close_calls (touched now fs io) = io_close_calls io.
Proof.
  destruct fs; cbn [touched]; [done|]. unfold refresh_peer_activity, on_conn. cbn. by case_bool_decide.
Qed.

Lemma traced_request now io posted type payload :
  is_request type = true →
  traced_frame now (io, posted) type payload =
    ((on_conn (refresh_peer_activity true now) io, posted ++ [PostFrame type payload]), true).
Proof.
  intros Hr. unfold traced_frame. rewrite callback_request by done.
  unfold reports. cbn [io_close_calls on_conn]. by rewrite Nat.sub_diag.
Qed.

Lemma parse_traced_requests now fs tail io posted :
  Forall frame_ok fs → Forall (λ f, is_request f.1 = true) fs → split_frame tail = NeedMore →
  parse (traced_frame now) (io, posted) (concat (frame_bytes <$> fs) ++ tail) =
    Some ((touched now fs io, posted ++ (posted_frame <$> fs)), tail, true).
Proof.
  intros Hf Hr Ht. revert io posted. induction fs as [|[type payload] fs IH]; intros io posted; cbn [fmap list_fmap concat].
  - rewrite app_nil_l, app_nil_r. by apply parse_needs_more.
  - apply Forall_cons in Hf as [Hf1 Hf], Hr as [Hr1 Hr]. rewrite <- (assoc_L (++)).
    rewrite (parse_frame _ _ _ _ _ _ (split_frame_bytes _ _ Hf1)), traced_request by done.
    cbn [negb]. by rewrite IH, (touched_cons now (type, payload)), <- (assoc_L (++)).
Qed.

(** The write fails, and [send] still reports success. *)
Lemma failing_answer data io ws :
  data ≠ [] → zlen data <= WRITE_HARD_LIMIT → pending_write_bytes_ (io_conn io) = 0 →
  state_ (io_conn io) = CS.Connected → buffer_wf (write_buffer_ (io_conn io)) → contents (write_buffer_ (io_conn io)) = [] →
  io_writes io = WriteError :: ws →
  (send_here data io).1 = true ∧ io_close_calls (send_here data io).2 = S (io_close_calls io) ∧
  state_ (io_conn (send_here data io).2) = CS.Disconnecting.
Proof.
  intros Hne Hlen Hpend Hst Hwf Hc Hws. unfold send_here. rewrite bool_decide_false by done.
  unfold reserve_write_bytes. rewrite Hpend.
  destruct (Z.eqb_spec (zlen data) 0) as [H0|_]; [destruct data; [done|]; unfold zlen in H0; cbn in H0; lia|].
  unfold WRITE_HARD_LIMIT in *. rewrite (proj2 (Z.ltb_ge _ _)), (proj2 (Z.ltb_ge (1024 * 1024 - 0) (zlen data))) by lia.
  cbn [orb negb fst snd]. split; [done|].
  set (io1 := on_conn (λ _, _) io).
  unfold send_in_loop. cbn [negb]. change (state_ (io_conn io1)) with (state_ (io_conn io)).
  rewrite (bool_decide_true _ Hst), bool_decide_false by done. cbn [negb orb].
  destruct (append_spec (write_buffer_ (io_conn io)) data Hwf) as [Hwf' Hc'].
  set (io2 := on_conn (λ c, set_write_buffer _ c) io1).
  assert (Hwrite : write_to_socket true io2 = (false, set_writes ws io2)).
  { unfold write_to_socket. cbn [negb]. change (io_writes io2) with (io_writes io). rewrite Hws. cbn [write_to_socket_loop].
    change (write_buffer_ (io_conn io2)) with (append (write_buffer_ (io_conn io)) data).
    destruct (empty _) eqn:He; [|done]. apply contents_empty in He; [|done]. rewrite Hc', Hc in He. done. }
  rewrite Hwrite. cbn [negb]. unfold handle_close. cbn [negb].
  change (state_ (io_conn (set_writes ws io2))) with (state_ (io_conn io)). rewrite Hst.
  rewrite !bool_decide_false by done. cbn [orb]. split; [done|]. unfold call_close_callback, on_conn. cbn [io_conn].
  rewrite clear_set_state. done.
Qed.

(** * Properties *)


(** C10: The close report comes last: in every run in which no answer to a heartbeat
    closes the connection, a connection queues its requests first and its close
    report after all of them, so the base loop never gets a request of a
    connection it has been told is gone. *)
Theorem close_report_last (steps : list PeerStep) (now : Z) (reads : list read_result)
    (writes : list write_result) (epoll : list bool) :
  let start := Peer_new now reads writes epoll in
  answers_sent steps start = true →
  ∃ fs, pr_posted (run_peer steps start) =
    (posted_frame <$> fs) ++ (if closes_of (pr_posted (run_peer steps start)) =? 0 then [] else [PostClosed])%nat.
Proof.
  intros start Hs. pose proof (Peer_new_inv false now reads writes epoll) as Hi.
  destruct (run_peer_report_last steps start Hi Hs) as (fs & n & Hp); [by exists [], 0%nat|].
  destruct (run_peer_inv false steps start Hi) as [_ _ Hc Ho _]. rewrite <- Hc in Ho. exists fs. rewrite Hp in *.
  rewrite closes_of_app, closes_of_frames in *.
  assert (Hn : closes_of (replicate n PostClosed) = n).
  { clear. unfold closes_of. induction n as [|n IH]; [done|]. cbn [replicate]. by rewrite filter_cons_True, length_cons, IH. }
  rewrite Hn in *. destruct n as [|[|n]]; [done..|cbn in Ho; lia].
Qed.

(** C36: But it need not come last: when a heartbeat is followed by requests in the
    same read and its answer cannot be written, the connection is closed and
    reported at once, [send] still returns true, the decoder goes on, and the
    requests are queued behind the report. *)
Theorem requests_after_close (now : Z) (io : Io) (payload : bytes) (fs : list (Z * bytes)) (tail : bytes) (ws : list write_result) :
  state_ (io_conn io) = CS.Connected → pending_write_bytes_ (io_conn io) = 0 →
  buffer_wf (write_buffer_ (io_conn io)) → contents (write_buffer_ (io_conn io)) = [] →
  io_writes io = WriteError :: ws →
  zlen payload = 8 → Forall frame_ok fs → Forall (λ f, is_request f.1 = true) fs → split_frame tail = NeedMore →
  buffer_wf (read_buffer_ (io_conn io)) →
  contents (read_buffer_ (io_conn io)) = frame_bytes (MessageType.value MessageType.heartbeat, payload) ++ concat (frame_bytes <$> fs) ++ tail →
  ∃ io', traced_message now io = ((io', PostClosed :: (posted_frame <$> fs)), true) ∧
    state_ (io_conn io') = CS.Disconnecting.
Proof.
  intros Hst Hpend Hwwf Hwc Hws Hlen Hfs Hreq Htail Hrwf Hrc.
  assert (Hok : frame_ok (6, payload)) by (split; cbn; unfold u16_range, MAX_FRAME_LENGTH, TYPE_FIELD_SIZE; lia).
  set (io1 := on_conn (refresh_peer_activity true now) io).
  assert (Hio1 : state_ (io_conn io1) = CS.Connected ∧ pending_write_bytes_ (io_conn io1) = 0 ∧
    write_buffer_ (io_conn io1) = write_buffer_ (io_conn io)).
  { unfold io1, refresh_peer_activity. cbn. rewrite (bool_decide_true _ Hst). cbn. done. }
  destruct Hio1 as (Hst1 & Hpend1 & Hw1).
  assert (Hflen : zlen (frame_bytes (108, payload)) = 14).
  { unfold frame_bytes, zlen in *. rewrite !length_app, !be_bytes_length. cbn [snd]. lia. }
  destruct (failing_answer (frame_bytes (108, payload)) io1 ws) as (Hs1 & Hs2 & Hs3); try done.
  { rewrite Hflen. unfold WRITE_HARD_LIMIT. lia. }
  { by rewrite Hw1. } { by rewrite Hw1. }
  assert (Htr : traced_frame now (io, []) 6 payload = (((send_here (frame_bytes (108, payload)) io1).2, [PostClosed]), true)).
  { unfold traced_frame, handle_decoded_frame. cbn [MessageType.of_value].
    change (MessageType.of_value 6) with (Some MessageType.heartbeat). cbn iota.
    rewrite heartbeat_echoed, Hlen, Z.eqb_refl. fold io1.
    destruct (send_here _ _) as [sent io2]. cbn [fst snd] in *. subst sent. cbn iota. unfold reports.
    rewrite Hs2. change (io_close_calls io1) with (io_close_calls io).
    replace (S (io_close_calls io) - io_close_calls io)%nat with 1%nat by lia. done. }
  unfold traced_message.
  destruct (decode_refines_parse (B:=Buffer) (traced_frame now) (io, []) (read_buffer_ (io_conn io)))
    as ([d p] & b & k & Hd & _ & Hp); [exact Hrwf|].
  rewrite Hd. cbn [bq_contents Buffer_queue] in Hp.
  rewrite Hrc, (parse_frame _ _ _ _ _ _ (split_frame_bytes (6, payload) _ Hok)) in Hp. cbn [fst snd] in Hp.
  rewrite Htr in Hp. cbn [negb] in Hp. rewrite parse_traced_requests in Hp by done.
  injection Hp as <- <- _ <-. eexists. split; [reflexivity|].
  cbn [io_conn on_conn set_read_buffer state_]. by rewrite (proj1 (proj2 (touched_write now fs _))).
Qed.

(** ** Concrete runs *)

(** A client joins room 1 and then hangs up. *)
Definition join_frame : Z * bytes := (1, [x00; x00; x00; x01; x00; x01; x41]).
Definition joining_reads : list read_result :=
  [ReadData x00 (drop 1 (take 5 (frame_bytes join_frame))); ReadAgain;
   ReadData x01 (drop 6 (frame_bytes join_frame)); ReadAgain; ReadEof].
Definition joining_steps : list PeerStep :=
  [OtherConnect; RunTask 0; RunEvent 1 EPOLLIN; RunEvent 2 EPOLLIN; OtherCheck 10000; RunTask 3; RunEvent 4 EPOLLIN].
Definition joining_peer : Peer := Peer_new 0 joining_reads [] [].

Example joining_posted :
  pr_posted (run_peer (take 3 joining_steps) joining_peer) = [] ∧
  pr_posted (run_peer (take 4 joining_steps) joining_peer) = [posted_frame join_frame] ∧
  pr_posted (run_peer joining_steps joining_peer) = [posted_frame join_frame; PostClosed].
Proof. vm_compute. done. Qed.

(** A [read] that fails takes the join with it that the same event has read. *)
Example failed_read_drops :
  let reads := [ReadData x00 (drop 1 (frame_bytes join_frame)); ReadError] in
  let steps := [OtherConnect; RunTask 0; RunEvent 1 EPOLLIN] in
  let p := run_peer steps (Peer_new 0 reads [] []) in
  reads_succeed steps (Peer_new 0 reads [] []) = false ∧
  pr_received p = frame_bytes join_frame ∧ pr_posted p = [PostClosed].
Proof. vm_compute. done. Qed.

Lemma close_report_last_witness :
  answers_sent joining_steps joining_peer = true ∧
  ∃ fs, pr_posted (run_peer joining_steps joining_peer) = (posted_frame <$> fs) ++
    (if closes_of (pr_posted (run_peer joining_steps joining_peer)) =? 0 then [] else [PostClosed])%nat.
Proof.
  assert (Ha : answers_sent joining_steps joining_peer = true) by (vm_compute; reflexivity).
  split; [exact Ha|]. exact (close_report_last joining_steps 0 joining_reads [] [] Ha).
Defined.

(** A heartbeat and a join arrive together; the client is gone before it can be
    answered. *)
Definition hasty_io : Io :=
  let io := pr_io (run_peer [OtherConnect; RunTask 0] joining_peer) in
  MkIo (set_read_buffer (append (Buffer_new 64)
      (frame_bytes (6, replicate 8 x00) ++ concat (frame_bytes <$> [join_frame]) ++ [])) (io_conn io))
    [] [WriteError] [] [] 0 0.

Lemma requests_after_close_witness :
  ∃ io', traced_message 5 hasty_io = ((io', [PostClosed; posted_frame join_frame]), true) ∧
    state_ (io_conn io') = CS.Disconnecting.
Proof.
  apply (requests_after_close 5 hasty_io (replicate 8 x00) [join_frame] [] []); try (vm_compute; reflexivity).
  - apply Buffer_new_wf.
  - repeat constructor; vm_compute; discriminate.
  - repeat constructor.
  - apply append_spec, Buffer_new_wf.
Defined.
