(* ===== verification/IoOutput.v ===== *)
(** What the client of one connection receives: the connection of IoThread.v,
    seen from the other end of its socket. *)

From S2P Require Import Prelude Bytes Buffer Codec Protocol Connection RoomService Dispatch IoThread.

(** * Definitions *)

(** ** Specification *)

(** The sends of other threads that have been accepted. *)
Definition step_accepted (s : PeerStep) (p : Peer) : list bytes :=
  match s with
  | OtherSend data => if (send data (io_conn (pr_io p))).1.1 then [data] else []
  | _ => []
  end.
Fixpoint peer_accepted (steps : list PeerStep) (p : Peer) : list bytes :=
  match steps with
  | [] => []
  | s :: steps => step_accepted s p ++ peer_accepted steps (peer_step s p)
  end.

(** The base loop sends whole frames, and leaves heartbeats to the loop of the
    connection. *)
Definition is_answer (f : Z * bytes) : Prop := f.1 = MessageType.value MessageType.heartbeat_ack.
Definition framed (data : bytes) : Prop := ∃ f, data = frame_bytes f ∧ frame_ok f ∧ ¬ is_answer f.
Definition sends_frames (s : PeerStep) : Prop :=
  match s with OtherSend data => framed data | _ => True end.

#[global] Instance is_answer_dec f : Decision (is_answer f).
Proof. unfold is_answer. apply _. Defined.

(** The frames [sent] have entered the write buffer, the frames [hs] have been
    read, and [accepted] is what the other threads have sent. *)
Record out_inv (accepted : list bytes) (sent hs : list (Z * bytes)) (p : Peer) : Prop := {
  oi_io : io_inv (queued_bytes (pr_tasks p)) (frame_bytes <$> sent) (pr_io p);
  oi_sent : Forall frame_ok sent;
  oi_read : Forall frame_ok hs;
  oi_stream : ∃ rest, pr_received p = concat (frame_bytes <$> hs) ++ rest ∧
    ((io_stage (pr_io p) <= 1)%nat → contents (read_buffer_ (io_conn (pr_io p))) = rest);
  oi_accepted : ∃ dropped,
    accepted = (frame_bytes <$> filter (λ f, ¬ is_answer f) sent) ++ dropped ++ queued_chunks (pr_tasks p) ∧
    ((io_stage (pr_io p) <= 1)%nat → dropped = []);
  oi_requests : frames_of (pr_posted p) = filter (λ f, is_request f.1 = true) hs;
  oi_answers : filter is_answer sent `prefix_of` answers hs;
  oi_answered : (io_stage (pr_io p) <= 1)%nat → filter is_answer sent = answers hs;
  oi_framed : Forall framed (queued_chunks (pr_tasks p));
  oi_early : io_stage (pr_io p) = 0%nat →
    registered_ (io_conn (pr_io p)) = false ∧ head (pr_tasks p) = Some ConnectEstablished
}.

(** What the client of [p] sees, when the other threads have sent [accepted]:
    its frames [hs] have been read and their requests queued; it has received
    the frames [got], and at most the beginning of one more, out of [sent], which
    interleaves what the other threads have sent and the answers to its
    heartbeats. While the connection is up, nothing is missing. *)
Definition served (accepted : list bytes) (p : Peer) : Prop :=
  ∃ hs rest sent got tail,
    Forall frame_ok hs ∧ pr_received p = concat (frame_bytes <$> hs) ++ rest ∧
    frames_of (pr_posted p) = filter (λ f, is_request f.1 = true) hs ∧
    got `prefix_of` sent ∧ io_wire (pr_io p) = concat (frame_bytes <$> got) ++ tail ∧ split_frame tail = NeedMore ∧
    (frame_bytes <$> filter (λ f, ¬ is_answer f) sent) `prefix_of` accepted ∧
    filter is_answer sent `prefix_of` answers hs ∧
    (state_ (io_conn (pr_io p)) = CS.Connected →
      io_wire (pr_io p) ++ contents (write_buffer_ (io_conn (pr_io p))) = concat (frame_bytes <$> sent) ∧
      (frame_bytes <$> filter (λ f, ¬ is_answer f) sent) ++ queued_chunks (pr_tasks p) = accepted ∧
      filter is_answer sent = answers hs).

(** * Proofs *)

(** A cut of a sequence of frames is a sequence of frames and the beginning of
    one. *)
Lemma frames_cut fs bs :
  Forall frame_ok fs → bs `prefix_of` concat (frame_bytes <$> fs) →
  ∃ got tail, got `prefix_of` fs ∧ bs = concat (frame_bytes <$> got) ++ tail ∧ split_frame tail = NeedMore.
Proof.
  intros Hf. revert bs. induction Hf as [|f fs Hf _ IH]; intros bs Hp; cbn [fmap list_fmap concat] in Hp.
  { apply prefix_nil_inv in Hp as ->. by exists [], []. }
  destruct Hp as [more Hmore]. destruct (split_frame bs) as [| |type payload rest] eqn:E.
  - exists [], bs. split_and!; [apply prefix_nil|done|done].
  - pose proof (split_frame_app bs more) as Ha. rewrite E, <- Hmore, split_frame_bytes in Ha by done. done.
  - pose proof (split_frame_app bs more) as Ha. rewrite E, <- Hmore, split_frame_bytes in Ha by done.
    injection Ha as Ht Hl Hrest. apply split_frame_inv in E as [-> _]. destruct f as [ft fp]. cbn [fst snd] in *. subst ft fp.
    destruct (IH rest) as (got & tail & Hg & -> & Ht); [by eexists|].
    exists ((type, payload) :: got), tail. split_and!; [by apply prefix_cons| |done].
    cbn [fmap list_fmap concat]. by rewrite <- (assoc_L (++)).
Qed.

(** The answers of [echoes] are answers. *)
Lemma answers_are hs : Forall is_answer (answers hs) ∧ (Forall frame_ok hs → Forall frame_ok (answers hs)).
Proof.
  unfold answers. split; [by apply Forall_fmap, Forall_true|]. intros Hok. apply Forall_fmap, Forall_forall.
  intros [type payload] [[_ Hl] _]%list_elem_of_filter. split; cbn; [done|]. unfold MAX_FRAME_LENGTH, TYPE_FIELD_SIZE in *. cbn in Hl. lia.
Qed.

(** ** What an event or a task sends *)

Lemma event_rest_stage events io : (io_stage io <= io_stage (handle_event_rest true events io))%nat.
Proof. apply ad_stage, advances_event_rest. Qed.

Lemma event_after_callback_inv q sent events ok io :
  io_inv q sent io →
  io_inv q sent (if negb ok then handle_close true io
                 else if negb (bool_decide (state_ (io_conn io) = CS.Connected)) then io
                 else handle_event_rest true events io).
Proof. intros Hi. destruct ok; cbn [negb]; [|by apply handle_close_inv]. case_test E; [done|]. by apply handle_event_rest_inv. Qed.

Lemma io_event_echoes now events io :
  buffer_wf (read_buffer_ (io_conn io)) →
  let '(io', posted, data) := io_event now events io in
  (state_ (io_conn io) ≠ CS.Connected → io' = io ∧ posted = []) ∧
  ∃ hs rest more, Forall frame_ok hs ∧ contents (read_buffer_ (io_conn io)) ++ data = concat (frame_bytes <$> hs) ++ rest ∧
    frames_of posted = filter (λ f, is_request f.1 = true) hs ∧
    ((io_stage io' <= 1)%nat → contents (read_buffer_ (io_conn io')) = rest) ∧ echoes hs more io io'.
Proof.
  intros Hwf. unfold io_event. case_bool_decide as Hcon; cbn [andb].
  2:{ unfold handle_event. cbn [negb]. rewrite (bool_decide_false _ Hcon). cbn [negb].
      split; [intros _; split; [done|unfold reports; by rewrite Nat.sub_diag]|].
      exists [], (contents (read_buffer_ (io_conn io))), []. rewrite app_nil_r. rewrite frames_of_reports. split_and!; [done..|by apply echoes_quiet]. }
  rewrite (handle_event_connected _ _ _ Hcon).
  destruct (is_readable events).
  2:{ split; [done|]. exists [], (contents (read_buffer_ (io_conn io))), []. rewrite app_nil_r, frames_of_reports. split_and!; [done|done|done| |].
      - intros _. by rewrite (ad_read _ _ (advances_event_rest events io)).
      - apply echoes_quiet; [done|apply event_rest_stage|]. intros q sent. apply handle_event_rest_inv. }
  destruct (read_from_socket_spec (io_reads io) io Hwf) as (Hrwf & Hrc & Hrs & _).
  pose proof (λ q sent, read_from_socket_inv q sent io) as Hri.
  unfold read_from_socket in *. destruct (read_from_socket_loop (io_reads io) io) as [ok read]; cbn [snd] in *.
  destruct ok; cbn [negb].
  2:{ pose proof (handle_close_closing read). split; [done|]. exists [], (contents (read_buffer_ (io_conn io)) ++ read_bytes (io_reads io)), [].
      cbn [app]. rewrite frames_of_reports. split_and!; [done|done|done|lia|]. apply echoes_quiet; [done| |].
      - rewrite <- Hrs. apply ad_stage, advances_close.
      - intros q sent Hi. by apply handle_close_inv, Hri. }
  rewrite (service_callback_spec now read Hrwf).
  destruct (traced_message_spec now read Hrwf) as (decoded & posted & buffer & ok & hs & -> & _ & [Htok Htf _ Hta Hte] & Hbwf & Hc & _).
  cbn [fst snd]. set (io2 := on_conn (set_read_buffer buffer) decoded). split; [done|].
  destruct Hte as [more He]; [rewrite Hrs; unfold io_stage; by rewrite Hcon|].
  destruct (event_after_callback events ok io2) as [Ha _].
  set (io' := if negb ok then _ else _) in *. exists hs, (contents buffer), more.
  split_and!; [done|by rewrite <- Hrc|by rewrite frames_of_app, frames_of_reports, app_nil_r| |].
  { intros _. by rewrite (ad_read _ _ Ha). }
  apply (echoes_app [] _ [] _ _ read); [apply echoes_quiet; [done|by rewrite Hrs|]; intros q sent; apply Hri|].
  rewrite <- (app_nil_r hs), <- (app_nil_r more). apply (echoes_app _ _ _ _ _ decoded); [done|].
  apply echoes_quiet; [done|exact (ad_stage _ _ Ha)|]. intros q sent Hi.
  apply event_after_callback_inv. by apply io_inv_read_buffer.
Qed.

(** ** Steps *)

Lemma framed_nonempty data : framed data → data ≠ [].
Proof. intros (f & -> & _) H. apply (f_equal length) in H. unfold frame_bytes in H. rewrite !length_app, !be_bytes_length in H. cbn in H. lia. Qed.

(** A step that only posts tasks, none of them a send. *)
Lemma out_inv_post accepted sent hs tasks p :
  queued_bytes tasks = 0 → queued_chunks tasks = [] → out_inv accepted sent hs p →
  out_inv accepted sent hs (queue_tasks tasks p).
Proof.
  intros Hb Hc []. split; cbn; rewrite ?queued_bytes_app, ?queued_chunks_app, ?Hb, ?Hc, ?Z.add_0_r, ?app_nil_r; try done.
  intros H. destruct (oi_early0 H) as [? Hh]. split; [done|]. by destruct (pr_tasks p).
Qed.

Lemma out_inv_send accepted sent hs data p :
  framed data → out_inv accepted sent hs p →
  out_inv (accepted ++ step_accepted (OtherSend data) p) sent hs (peer_step (OtherSend data) p).
Proof.
  intros Hd Hi. pose proof Hi as []. cbn [step_accepted peer_step].
  pose proof (link_step_inv (ThreadSend data) (MkLink (pr_io p) (pr_tasks p) (frame_bytes <$> sent)) oi_io0) as Hl.
  cbn [link_step lk_io lk_tasks lk_sent] in Hl. revert Hl.
  rewrite send_spec by (by eapply io_inv_pending_nonneg). destruct (negb _ && _); cbn [fst]; intros Hl.
  - destruct oi_accepted0 as (dropped & Hacc & Hdrop). split; cbn; try done.
    + exists dropped. by rewrite queued_chunks_app, Hacc, <- !(assoc_L (++)).
    + rewrite queued_chunks_app. apply Forall_app. by split; [|constructor].
    + intros H. destruct (oi_early0 H) as [? Hh]. split; [done|]. by destruct (pr_tasks p).
  - rewrite app_nil_r. apply out_inv_post; [done..|]. by destruct p as [[] ? ? ?].
Qed.

Lemma established_stage now io :
  io_stage io = 0%nat → registered_ (io_conn io) = false → (1 <= io_stage (run_task now ConnectEstablished io))%nat.
Proof.
  intros Hst Hr. cbn [run_task]. unfold connect_established. cbn [negb].
  rewrite bool_decide_true by (unfold io_stage in Hst; by destruct (state_ (io_conn io))). cbn [negb]. rewrite Hr.
  destruct (epoll_ctl BASE_EVENTS io) as [[] io']; [unfold io_stage; cbn; lia|]. pose proof (handle_close_closing io'). lia.
Qed.

(** What a task moves to the write buffer, and what is lost with a connection
    that is closing. *)
Lemma task_sends task io :
  Forall framed (queued_chunks [task]) → (io_stage io = 0%nat → task = ConnectEstablished) →
  ∃ new lost, queued_chunks [task] = (frame_bytes <$> new) ++ lost ∧
    match task with SendInLoop data => appended data io | _ => [] end = frame_bytes <$> new ∧
    Forall frame_ok new ∧ filter is_answer new = [] ∧ filter (λ f, ¬ is_answer f) new = new ∧
    ((io_stage io <= 1)%nat → lost = []) ∧ ((2 <= io_stage io)%nat → new = []).
Proof.
  intros Hf H0. destruct task; try by (exists [], []).
  apply Forall_cons_1 in Hf as [Hf _]. pose proof (framed_nonempty _ Hf) as Hne. unfold appended.
  destruct (decide (state_ (io_conn io) = CS.Connected)) as [Hc|Hc].
  - rewrite (bool_decide_true _ Hc), bool_decide_false by done. cbn [andb negb]. apply io_stage_connected in Hc.
    destruct Hf as (f & -> & Hok & Ha). exists [f], []. rewrite filter_cons_False, filter_cons_True by done.
    split_and!; [done|done|by constructor|done|done|done|lia].
  - rewrite (bool_decide_false _ Hc). exists [], [data]. split_and!; [done..| |done].
    rewrite io_stage_connected in Hc. intros H1. assert (Hz : io_stage io = 0%nat) by lia. by specialize (H0 Hz).
Qed.

Lemma queued_chunks_cons task tasks : queued_chunks (task :: tasks) = queued_chunks [task] ++ queued_chunks tasks.
Proof. apply (queued_chunks_app [task]). Qed.

Lemma out_inv_task accepted sent hs now p :
  out_inv accepted sent hs p → ∃ sent', out_inv accepted sent' hs (peer_step (RunTask now) p).
Proof.
  intros Hi. cbn [peer_step]. destruct (pr_tasks p) as [|task tasks] eqn:Ht; [by exists sent|].
  destruct Hi as [Hio Hsent Hread (rest & Hrec & Hun) (dropped & Hacc & Hdrop) Hreq Hans Hall Hfr Hearly]. rewrite Ht in *.
  rewrite queued_chunks_cons in Hfr, Hacc. apply Forall_app in Hfr as [Hfr1 Hfr].
  assert (Hfirst : io_stage (pr_io p) = 0%nat → task = ConnectEstablished) by (intros H; by destruct (Hearly H) as [_ [= ->]]).
  destruct (task_sends task (pr_io p) Hfr1 Hfirst) as (new & lost & Hch & Happ & Hok & Hna & Hno & Hlost & Hnew).
  pose proof (run_task_inv (queued_bytes tasks) _ now task _ Hio (queued_bytes_nonneg tasks)) as Hio'. rewrite Happ, <- fmap_app in Hio'.
  pose proof (advances_task now task (pr_io p)) as [Hst _ Hrb _].
  exists (sent ++ new). split; cbn [pr_io pr_tasks pr_posted pr_received]; rewrite ?filter_app, ?Hna, ?app_nil_r; try done.
  - by apply Forall_app.
  - exists rest. split; [done|]. intros H. rewrite Hrb. apply Hun. lia.
  - exists (dropped ++ lost). rewrite Hno, Hacc, Hch, fmap_app. destruct (decide (io_stage (pr_io p) <= 1)%nat) as [H|H].
    + rewrite (Hdrop H), (Hlost H), !app_nil_r, !app_nil_l, <- (assoc_L (++)). done.
    + rewrite (Hnew ltac:(lia)), app_nil_r, <- !(assoc_L (++)). split; [done|lia].
  - by rewrite frames_of_app, frames_of_reports, app_nil_r.
  - intros H. apply Hall. lia.
  - intros H. assert (H0 : io_stage (pr_io p) = 0%nat) by lia. destruct (Hearly H0) as [Hr [= ->]].
    pose proof (established_stage now (pr_io p) H0 Hr). lia.
Qed.

Lemma answers_only hs more :
  more `prefix_of` answers hs → filter is_answer more = more ∧ filter (λ f, ¬ is_answer f) more = [].
Proof.
  intros [k Hk]. destruct (answers_are hs) as [Hall _]. rewrite Hk in Hall. apply Forall_app in Hall as [Hall _].
  clear Hk. induction Hall as [|f more Hf _ [IH1 IH2]]; [done|].
  rewrite filter_cons_True, filter_cons_False, IH1, IH2 by (done || intros Hn; by apply Hn). done.
Qed.

Lemma out_inv_event accepted sent hs now events p :
  out_inv accepted sent hs p → ∃ sent' hs', out_inv accepted sent' hs' (peer_step (RunEvent now events) p).
Proof.
  intros [Hio Hsent Hread (rest & Hrec & Hun) (dropped & Hacc & Hdrop) Hreq Hans Hall Hfr Hearly]. cbn [peer_step].
  pose proof (io_event_echoes now events (delivered (pr_io p)) (io_read_wf _ _ _ Hio)) as H.
  destruct (io_event now events (delivered (pr_io p))) as [[io posted] data].
  destruct H as [Hidle (hs1 & rest1 & more & Hok1 & Hst1 & Hreq1 & Hun1 & [Hes Hstage Hfirst Hec Hclosed])].
  apply (io_inv_watch _ _ _ 0) in Hio. fold (delivered (pr_io p)) in Hio.
  change (io_stage (delivered (pr_io p))) with (io_stage (pr_io p)) in *.
  change (io_conn (delivered (pr_io p))) with (io_conn (pr_io p)) in *.
  destruct (decide (io_stage (pr_io p) <= 1)%nat) as [H1|H1].
  - destruct (answers_only hs1 more Hfirst) as [Hm1 Hm2].
    exists (sent ++ more), (hs ++ hs1). split; cbn [pr_io pr_tasks pr_posted pr_received]; rewrite ?filter_app, ?Hm1, ?Hm2, ?app_nil_r, ?answers_app; try done.
    + rewrite fmap_app. by apply Hes.
    + apply Forall_app. split; [done|]. destruct Hfirst as [k Hk].
      pose proof (proj2 (answers_are hs1) Hok1) as Ha. rewrite Hk in Ha. by apply Forall_app in Ha as [Ha _].
    + by apply Forall_app.
    + exists rest1. split; [|done]. rewrite Hrec, <- (Hun H1), <- (assoc_L (++)), Hst1, fmap_app, concat_app, <- (assoc_L (++)). done.
    + exists dropped. split; [done|]. intros _. by apply Hdrop.
    + by rewrite frames_of_app, Hreq, Hreq1.
    + rewrite (Hall H1). by apply prefix_app.
    + intros H2. by rewrite (Hall H1), (Hec H2).
    + intros H2. destruct Hidle as [-> _]; [rewrite io_stage_connected; lia|]. apply Hearly. lia.
  - rewrite (Hclosed ltac:(lia)) in Hes.
    exists sent, hs. split; cbn [pr_io pr_tasks pr_posted pr_received]; try done; try lia.
    + specialize (Hes _ _ Hio). by rewrite app_nil_r in Hes.
    + exists (rest ++ data). rewrite Hrec, <- (assoc_L (++)). split; [done|lia].
    + exists dropped. split; [done|lia].
    + destruct Hidle as [_ ->]; [rewrite io_stage_connected; lia|]. by rewrite app_nil_r.
Qed.

Lemma out_inv_step accepted sent hs s p :
  sends_frames s → out_inv accepted sent hs p →
  ∃ sent' hs', out_inv (accepted ++ step_accepted s p) sent' hs' (peer_step s p).
Proof.
  intros Hs Hi. destruct s as [data|  |timeout| | |now|now events].
  { exists sent, hs. by apply out_inv_send. }
  all: cbn [step_accepted]; rewrite app_nil_r.
  - exists sent, hs. by apply out_inv_post.
  - exists sent, hs. apply out_inv_post; [..|done]; unfold check_timeout; by destruct (timeout <=? 0).
  - exists sent, hs. by apply out_inv_post.
  - exists sent, hs. by apply out_inv_post.
  - destruct (out_inv_task _ _ _ now _ Hi) as [sent' H]. by exists sent', hs.
  - by eapply out_inv_event.
Qed.

Lemma out_inv_run steps accepted sent hs p :
  Forall sends_frames steps → out_inv accepted sent hs p →
  ∃ sent' hs', out_inv (accepted ++ peer_accepted steps p) sent' hs' (run_peer steps p).
Proof.
  intros Hs. revert accepted sent hs p. induction Hs as [|s steps Hs _ IH]; intros accepted sent hs p Hi; cbn [peer_accepted].
  - exists sent, hs. by rewrite app_nil_r.
  - destruct (out_inv_step _ _ _ s p Hs Hi) as (sent1 & hs1 & Hi1). rewrite (assoc_L (++)). by eapply IH.
Qed.

Lemma out_inv_start now reads writes epoll :
  out_inv [] [] [] (peer_step OtherConnect (Peer_new now reads writes epoll)).
Proof.
  split; cbn; try done.
  - apply (Link_new_inv now reads writes epoll).
  - by exists [].
  - by exists [].
Qed.

Lemma out_inv_served accepted sent hs p : out_inv accepted sent hs p → served accepted p.
Proof.
  intros [Hio Hsent Hread (rest & Hrec & _) (dropped & -> & Hdrop) Hreq Hans Hall _ _].
  destruct (frames_cut sent (io_wire (pr_io p)) Hsent) as (got & tail & Hg & Hw & Ht).
  { etrans; [by eexists|apply Hio]. }
  exists hs, rest, sent, got, tail. split_and!; [done..|by eexists|done|].
  intros Hc. pose proof (proj1 (io_stage_connected _) Hc) as H1.
  split_and!; [by apply Hio| |apply Hall; lia]. by rewrite Hdrop by lia.
Qed.

(** * Properties *)

(** What the client of a connection gets: in every run of a connection whose
    loop is first told to establish it, whatever its socket and the other
    threads do, the client has received whole frames and at most the beginning
    of one more. They are the frames that the other threads have sent, in the
    order in which the sends were accepted, each once and without a gap,
    interleaved with the answers to the client's heartbeats, in the order of the
    heartbeats, each once and without a gap. As long as the connection is up
    nothing is missing: every accepted frame and every answer has been received
    or is in the write buffer or in a queued task. *)
Theorem client_receives_frames (steps : list PeerStep) (now : Z) (reads : list read_result)
    (writes : list write_result) (epoll : list bool) :
  Forall sends_frames steps →
  let start := peer_step OtherConnect (Peer_new now reads writes epoll) in
  served (peer_accepted steps start) (run_peer steps start).
Proof.
  intros Hs start. destruct (out_inv_run steps [] [] [] start Hs (out_inv_start now reads writes epoll)) as (sent & hs & Hi).
  by eapply out_inv_served.
Qed.

(** ** Concrete runs *)

(** What the service sends is framed. *)
Lemma encoded_framed m payload data :
  m ≠ MessageType.heartbeat_ack → encode (MessageType.value m) payload = Some data → framed data.
Proof.
  intros Hm. rewrite encode_spec. destruct (Z.leb_spec (zlen payload) (MAX_FRAME_LENGTH - TYPE_FIELD_SIZE)); [|done].
  intros [= <-]. exists (MessageType.value m, payload). split_and!; [done| |by destruct m].
  split; [|done]. cbn. unfold u16_range. by destruct m.
Qed.

(** A client sends a heartbeat; the server tells it about another player; the
    socket takes the bytes in pieces. *)
Definition beating_reads : list read_result :=
  [ReadData x00 (drop 1 (frame_bytes (6, replicate 8 x07))); ReadAgain].
Definition beating_writes : list write_result := [Wrote 9; WriteAgain; Wrote 8; WriteAgain; Wrote 100].
Definition event_frame : Z * bytes := (104, [x00; x00; x00; x02]).
Definition beating_steps : list PeerStep :=
  [RunTask 0; RunEvent 1 EPOLLIN; OtherSend (frame_bytes event_frame); RunTask 2].
Definition beating_peer : Peer := peer_step OtherConnect (Peer_new 0 beating_reads beating_writes []).

Example beating_wire :
  io_wire (pr_io (run_peer (take 2 beating_steps) beating_peer)) = take 10 (frame_bytes (108, replicate 8 x07)) ∧
  io_wire (pr_io (run_peer beating_steps beating_peer)) =
    frame_bytes (108, replicate 8 x07) ++ take 5 (frame_bytes event_frame) ∧
  io_wire (pr_io (run_peer (beating_steps ++ [RunEvent 3 EPOLLOUT]) beating_peer)) =
    frame_bytes (108, replicate 8 x07) ++ frame_bytes event_frame.
Proof. vm_compute. done. Qed.

Lemma client_receives_frames_witness :
  Forall sends_frames beating_steps ∧
  ∃ sent hs : list (Z * bytes),
    (frame_bytes <$> filter (λ f, ¬ is_answer f) sent) ++ queued_chunks (pr_tasks (run_peer beating_steps beating_peer)) =
      [frame_bytes event_frame] ∧
    filter is_answer sent = answers hs.
Proof.
  assert (Hs : Forall sends_frames beating_steps).
  { repeat constructor. exists event_frame. split_and!; [done| |done]. split; vm_compute; try split; discriminate || done. }
  split; [exact Hs|].
  destruct (client_receives_frames beating_steps 0 beating_reads beating_writes [] Hs)
    as (hs & rest & sent & got & tail & _ & _ & _ & _ & _ & _ & _ & _ & H).
  destruct H as (_ & Ha & Hans); [vm_compute; reflexivity|].
  exists sent, hs. split; [etrans; [exact Ha|vm_compute; reflexivity]|exact Hans].
Defined.
