(* ===== verification/Network.v ===== *)
(** The service and its clients: the base loop of ServiceInvariant together with
    the I/O thread of every connection (IoThread.v), and what that composition
    promises each client. *)

From S2P Require Import Prelude Bytes Buffer Codec Protocol Connection Room RoomManager Session SessionManager RoomService.
From S2P Require Import ServiceInvariant Dispatch IoThread IoOutput.

(** * Definitions *)

(** A connection, and how many of its functors the base loop has run. *)
Record Client : Type := MkClient { cl_peer : Peer; cl_run : nat }.

(** The clients are those of all connections ever accepted; an object that is
    gone is missing in the world only. *)
Record Network : Type := MkNetwork {
  nw_world : World;
  nw_open : gset Conn;
  nw_clients : gmap Conn Client
}.
Definition nw_system (n : Network) : System := MkSystem (nw_world n) (nw_open n).

(** The tasks that the service has posted to the loop of [c]. *)
Definition tasks_of (c : Conn) (posted : list (Conn * LoopTask)) : list LoopTask :=
  (filter (λ x, x.1 = c) posted).*2.

(** What a handler that has turned the world [w] into [w'] has done to a
    connection. *)
Definition with_conn (conn : Connection) (p : Peer) : Peer :=
  MkPeer (on_conn (λ _, conn) (pr_io p)) (pr_tasks p) (pr_posted p) (pr_received p).
Definition catch_up (w w' : World) (c : Conn) (p : Peer) : Peer :=
  match w_conns w' !! c with
  | Some conn => queue_tasks (tasks_of c (drop (length (w_posted w)) (w_posted w'))) (with_conn conn p)
  | None => p
  end.
Definition catch_up_all (w w' : World) (clients : gmap Conn Client) : gmap Conn Client :=
  map_imap (λ c cl, Some (MkClient (catch_up w w' c (cl_peer cl)) (cl_run cl))) clients.

(** The functor of [c] that the base loop runs next, and that it has run. *)
Definition next_functor (c : Conn) (n : Network) : option Posting :=
  nw_clients n !! c ≫= λ cl, pr_posted (cl_peer cl) !! cl_run cl.
Definition functor_run (c : Conn) (clients : gmap Conn Client) : gmap Conn Client :=
  alter (λ cl, MkClient (cl_peer cl) (S (cl_run cl))) c clients.

(** The base loop does [w'], and takes no functor. *)
Definition handled (w' : World) (n : Network) : Network :=
  MkNetwork w' (nw_open n) (catch_up_all (nw_world n) w' (nw_clients n)).

(** What is not the service's doing: the loop of the connection, and the TCP
    server. *)
Definition own_step (s : PeerStep) : bool :=
  match s with OtherSend _ | OtherClose => false | _ => true end.

(** The steps of the base loop and of the loops of the connections, in any
    interleaving. The functors of one connection run in the order in which its
    loop has queued them. If [careful], no answer to a heartbeat closes a
    connection. *)
Inductive net_step {ho : HashOrder} (careful : bool) : Network → Network → Prop :=
| NetAddRoom room_id capacity n :
    u32_range room_id → u64_range capacity →
    net_step careful n (handled (service_add_room true room_id capacity (nw_world n)).2 n)
| NetAccept c now reads writes epoll n :
    nw_clients n !! c = None →
    net_step careful n
      (MkNetwork (set_conn c (Connection_new now) (nw_world n)) ({[c]} ∪ nw_open n)
        (<[c := MkClient (peer_step OtherConnect (Peer_new now reads writes epoll)) 0]> (nw_clients n)))
| NetOwn c cl s n :
    nw_clients n !! c = Some cl → c ∈ w_live (nw_world n) → own_step s = true →
    (careful = true → answer_fails s (cl_peer cl) = false) →
    let p := peer_step s (cl_peer cl) in
    net_step careful n
      (MkNetwork (set_conn c (io_conn (pr_io p)) (nw_world n)) (nw_open n) (<[c := MkClient p (cl_run cl)]> (nw_clients n)))
| NetEntropy rs n :
    net_step careful n (handled (set_random rs (nw_world n)) n)
| NetFrame c type payload now n :
    next_functor c n = Some (PostFrame type payload) →
    let w' := handle_frame_in_loop true now (Some c) type payload (nw_world n) in
    net_step careful n
      (MkNetwork w' (nw_open n) (functor_run c (catch_up_all (nw_world n) w' (nw_clients n))))
| NetClosed c now n :
    next_functor c n = Some PostClosed →
    let w' := handle_connection_closed true now (Some c) (nw_world n) in
    net_step careful n
      (MkNetwork w' (nw_open n ∖ {[c]}) (functor_run c (catch_up_all (nw_world n) w' (nw_clients n))))
| NetDestroyed c n :
    c ∉ nw_open n →
    net_step careful n
      (MkNetwork (MkWorld (w_service (nw_world n)) (delete c (w_conns (nw_world n))) (w_posted (nw_world n)) (w_random (nw_world n)))
        (nw_open n) (nw_clients n))
| NetTick expirations n :
    net_step careful n (handled (handle_tick true expirations (nw_world n)) n)
| NetTimeouts now n :
    net_step careful n (handled (handle_session_timeouts true now (nw_world n)) n).

(** A server starts without connections, empty or from a checkpoint. *)
Inductive net_reachable {ho : HashOrder} (careful : bool) : Network → Prop :=
| NetStart w :
    reachable (negb careful) (MkSystem w ∅) → w_conns w = ∅ → w_posted w = [] → net_reachable careful (MkNetwork w ∅ ∅)
| NetNext n n' : net_reachable careful n → net_step careful n n' → net_reachable careful n'.

(** ** Specification *)

(** The frames that the service has sent to [c]. *)
Definition sent_to (c : Conn) (n : Network) : list bytes := queued_chunks (tasks_of c (w_posted (nw_world n))).

(** The frames of [c] that the service has handled. *)
Definition handled_from (cl : Client) : list (Z * bytes) := frames_of (take (cl_run cl) (pr_posted (cl_peer cl))).

(** A handler changes the world by framed sends and by requests to close. *)
Inductive talks : World → World → Prop :=
| TalksQuiet w w' : w_conns w' = w_conns w → w_posted w' = w_posted w → talks w w'
| TalksSend c data w : framed data → talks w (connection_send c data w).2
| TalksClose c w : talks w (connection_request_close c w)
| TalksTrans w1 w2 w3 : talks w1 w2 → talks w2 w3 → talks w1 w3.

(** * Proofs *)

(** ** What the handlers do to the connections *)

#[export] Instance talks_preorder : PreOrder talks.
Proof. split; [intros w; by apply TalksQuiet|]. intros w1 w2 w3. apply TalksTrans. Qed.

Lemma talks_then w1 w2 w3 : talks w2 w3 → talks w1 w2 → talks w1 w3.
Proof. intros H23 H12. by etrans. Qed.

Lemma talks_frame connection type payload w :
  type ≠ MessageType.heartbeat_ack → talks w (send_frame connection type payload w).2.
Proof.
  intros Ht. unfold send_frame. destruct connection as [c|]; [|done].
  destruct (encode _ payload) as [frame|] eqn:He; [|done]. apply encoded_framed in He; [|done].
  pose proof (TalksSend c frame w He) as Hs. destruct (connection_send c frame w) as [[] w']; cbn in *; [done|].
  etrans; [exact Hs|apply TalksClose].
Qed.

Lemma talks_broadcast l type payload w :
  type ≠ MessageType.heartbeat_ack → talks w (broadcast_frame l type payload w).2.
Proof.
  intros Ht. unfold broadcast_frame. destruct (encode _ payload) as [frame|] eqn:He; [|done].
  apply encoded_framed in He; [|done]. generalize (bool_decide (type = MessageType.state_snapshot)) true. revert w.
  induction l as [|[c|] l IH]; intros w flag ans; cbn [broadcast_loop]; [done| |apply IH].
  pose proof (TalksSend c frame w He) as Hs. destruct (connection_send c frame w) as [sent w']; cbn in Hs.
  destruct flag; [destruct (connection_under_backpressure c w)|destruct sent; cbn [negb]];
    [apply IH|etrans; [exact Hs|apply IH]..|].
  etrans; [exact Hs|]. etrans; [apply TalksClose|apply IH].
Qed.

Lemma talks_error connection type code w : talks w (send_error connection type code w).2.
Proof. unfold send_error. case_match; [by apply talks_frame|done]. Qed.

Lemma talks_report connection type code w : talks w (report connection type code w).
Proof. unfold report. case_match; [apply talks_error|done]. Qed.

Lemma talks_ticks results w : talks w (broadcast_ticks results w).
Proof.
  revert w. induction results as [|r results IH]; intros w; cbn [broadcast_ticks]; [done|].
  case_match; [apply IH|]. case_match; [|apply IH]. eapply talks_then; [apply IH|by apply talks_broadcast].
Qed.

Lemma talks_rooms m w : talks w (set_rooms m w).
Proof. by apply TalksQuiet. Qed.
Lemma talks_sessions m w : talks w (set_sessions m w).
Proof. by apply TalksQuiet. Qed.
Lemma talks_random rs w : talks w (set_random rs w).
Proof. by apply TalksQuiet. Qed.

(** Sends at the end of a handler, and what precedes them. *)
Lemma talks_set_rooms w m w0 : talks w w0 → talks w (set_rooms m w0).
Proof. apply talks_then, talks_rooms. Qed.
Lemma talks_set_sessions w m w0 : talks w w0 → talks w (set_sessions m w0).
Proof. apply talks_then, talks_sessions. Qed.
Lemma talks_set_random w rs w0 : talks w w0 → talks w (set_random rs w0).
Proof. apply talks_then, talks_random. Qed.
Lemma talks_then_frame w connection type payload w0 :
  talks w w0 → type ≠ MessageType.heartbeat_ack → talks w (send_frame connection type payload w0).2.
Proof. intros Hw Ht. eapply talks_then; [by apply talks_frame|done]. Qed.
Lemma talks_then_broadcast w l type payload w0 :
  talks w w0 → type ≠ MessageType.heartbeat_ack → talks w (broadcast_frame l type payload w0).2.
Proof. intros Hw Ht. eapply talks_then; [by apply talks_broadcast|done]. Qed.
Lemma talks_then_error w connection type code w0 : talks w w0 → talks w (send_error connection type code w0).2.
Proof. apply talks_then, talks_error. Qed.
Lemma talks_then_report w connection type code w0 : talks w w0 → talks w (report connection type code w0).
Proof. apply talks_then, talks_report. Qed.
Lemma talks_pair {A} w (r : A * World) x w0 : r = (x, w0) → talks w r.2 → talks w w0.
Proof. by intros ->. Qed.

Create HintDb lw_talks.
#[local] Hint Resolve talks_set_rooms talks_set_sessions talks_set_random talks_then_frame talks_then_broadcast
  talks_then_error talks_then_report talks_ticks : lw_talks.
#[local] Hint Extern 1 (talks ?w ?w) => reflexivity : lw_talks.
#[local] Hint Extern 1 (_ ≠ MessageType.heartbeat_ack) => discriminate : lw_talks.
#[local] Hint Extern 3 (talks _ ?w0) =>
  match goal with E : ?r = (_, w0) |- _ => apply (talks_pair _ _ _ _ E) end : lw_talks.

(** Follows the branches of a handler; the calls that end in a world are kept as
    equations. *)
Ltac talk := repeat (step_match; cbn [fst snd]; eauto 10 with lw_talks nocore).

Section handlers.
Context {ho : HashOrder}.

Lemma talks_add_room room_id capacity w : talks w (service_add_room true room_id capacity w).2.
Proof. unfold service_add_room. cbn [negb]. destruct (add_room _ _ _). apply talks_rooms. Qed.

Lemma talks_join c payload w : talks w (handle_join c payload w).
Proof. unfold handle_join, finish_join, rollback_join. talk. Qed.

Lemma talks_resume now c payload w : talks w (handle_resume now c payload w).
Proof. unfold handle_resume. talk. Qed.

Lemma talks_lookup c type w : talks w (lookup_identity c type w).2.
Proof. unfold lookup_identity. talk. Qed.

#[local] Hint Extern 4 (talks ?w ?w0) =>
  match goal with E : lookup_identity _ _ w = (_, w0) |- _ => apply (talks_pair _ _ _ _ E), talks_lookup end : lw_talks.

Lemma talks_leave c payload w : talks w (handle_leave c payload w).
Proof. unfold handle_leave. talk. Qed.
Lemma talks_chat c payload w : talks w (handle_chat c payload w).
Proof. unfold handle_chat. talk. Qed.
Lemma talks_move c payload w : talks w (handle_move c payload w).
Proof. unfold handle_move. talk. Qed.
Lemma talks_attack c payload w : talks w (handle_attack c payload w).
Proof. unfold handle_attack. talk. Qed.

Lemma talks_request now c type payload w : talks w (handle_frame_in_loop true now c type payload w).
Proof.
  unfold handle_frame_in_loop. case_match; [done|].
  destruct (MessageType.of_value type) as [[]|]; try done;
    [apply talks_join|apply talks_leave|apply talks_chat|apply talks_move|apply talks_attack|apply talks_resume].
Qed.

Lemma talks_closed now c w : talks w (handle_connection_closed true now c w).
Proof. unfold handle_connection_closed. talk. Qed.

Lemma talks_tick expirations w : talks w (handle_tick true expirations w).
Proof.
  unfold handle_tick. cbn [negb]. case_match; [done|]. destruct (tick_rooms _ _) as [results rooms].
  eapply talks_then; [apply talks_ticks|apply talks_rooms].
Qed.

Lemma talks_timeouts now w : talks w (handle_session_timeouts true now w).
Proof.
  unfold handle_session_timeouts. cbn [negb]. generalize (expired_sessions now (w_sessions w)). intros expired.
  revert w. induction expired as [|item expired IH]; intros w; cbn [remove_expired]; [done|].
  repeat step_match; (eapply talks_then; [apply IH|]); eauto 10 with lw_talks nocore.
Qed.
End handlers.

(** ** A handler, seen from one connection *)

Lemma tasks_of_app c posted more : tasks_of c (posted ++ more) = tasks_of c posted ++ tasks_of c more.
Proof. unfold tasks_of. by rewrite filter_app, fmap_app. Qed.

Lemma tasks_of_posted c c' tasks : tasks_of c (pair c' <$> tasks) = if bool_decide (c' = c) then tasks else [].
Proof.
  unfold tasks_of. case_bool_decide as H; induction tasks as [|t tasks IH]; try done; cbn [fmap list_fmap].
  - by rewrite filter_cons_True, fmap_cons, IH.
  - by rewrite filter_cons_False.
Qed.

Lemma run_peer_app steps1 steps2 p : run_peer (steps1 ++ steps2) p = run_peer steps2 (run_peer steps1 p).
Proof. unfold run_peer. apply foldl_app. Qed.

Lemma peer_accepted_app steps1 steps2 p :
  peer_accepted (steps1 ++ steps2) p = peer_accepted steps1 p ++ peer_accepted steps2 (run_peer steps1 p).
Proof.
  revert p. induction steps1 as [|s steps1 IH]; intros p; [done|]. cbn [app peer_accepted]. by rewrite IH, <- (assoc_L (++)).
Qed.

Lemma with_conn_same p : queue_tasks [] (with_conn (io_conn (pr_io p)) p) = p.
Proof. destruct p as [[] ? ? ?]. unfold queue_tasks, with_conn, on_conn. cbn. by rewrite app_nil_r. Qed.

(** Sends and requests to close. *)
Definition talk_step (s : PeerStep) : Prop :=
  match s with OtherSend data => framed data | OtherClose => True | _ => False end.

(** The handler posts [more], and leaves the connection at [conn']. *)
Record hears (c : Conn) (conn conn' : Connection) (more : list (Conn * LoopTask)) (steps : list PeerStep) : Prop := {
  hr_steps : Forall talk_step steps;
  hr_peer : ∀ p, io_conn (pr_io p) = conn → run_peer steps p = queue_tasks (tasks_of c more) (with_conn conn' p);
  hr_accepted : ∀ p, io_conn (pr_io p) = conn → peer_accepted steps p = queued_chunks (tasks_of c more)
}.

Lemma hears_nothing c conn more : tasks_of c more = [] → hears c conn conn more [].
Proof. intros Hm. split; [done|..]; intros p <-; rewrite Hm; [by rewrite with_conn_same|done]. Qed.

Lemma hears_app c conn1 conn2 conn3 more1 more2 steps1 steps2 :
  hears c conn1 conn2 more1 steps1 → hears c conn2 conn3 more2 steps2 →
  hears c conn1 conn3 (more1 ++ more2) (steps1 ++ steps2).
Proof.
  intros [S1 P1 A1] [S2 P2 A2]. split; [by apply Forall_app|..]; intros p Hp; rewrite tasks_of_app.
  - rewrite run_peer_app, P1, P2 by done. unfold queue_tasks, with_conn, on_conn. cbn. by rewrite <- (assoc_L (++)).
  - rewrite peer_accepted_app, A1, P1, A2, queued_chunks_app by done. done.
Qed.

(** What every connection has been told between two worlds. *)
Definition told (c : Conn) (w w' : World) (more : list (Conn * LoopTask)) : Prop :=
  match w_conns w !! c with
  | None => w_conns w' !! c = None ∧ tasks_of c more = []
  | Some conn => ∃ conn' steps, w_conns w' !! c = Some conn' ∧ hears c conn conn' more steps
  end.

Lemma told_nothing c w w' more : w_conns w' !! c = w_conns w !! c → tasks_of c more = [] → told c w w' more.
Proof.
  intros Hc Hm. unfold told. destruct (w_conns w !! c) as [conn|] eqn:E; [|done]. exists conn, []. split; [done|]. by apply hears_nothing.
Qed.

Lemma told_send c data w :
  framed data → ∃ more, w_posted (connection_send c data w).2 = w_posted w ++ more ∧
    ∀ c', told c' w (connection_send c data w).2 more.
Proof.
  intros Hf. unfold connection_send. destruct (w_conns w !! c) as [conn|] eqn:Hc.
  2:{ exists []. rewrite app_nil_r. split; [done|]. intros c'. by apply told_nothing. }
  destruct (send data conn) as [[ok tasks] conn'] eqn:Hs. exists (pair c <$> tasks). split; [done|]. intros c'.
  destruct (decide (c = c')) as [<-|Hne].
  - unfold told. rewrite Hc. exists conn', [OtherSend data]. cbn. rewrite lookup_insert_eq. split; [done|].
    split; [by repeat constructor|..]; intros p <-; rewrite tasks_of_posted, bool_decide_true by done.
    + cbn. by rewrite Hs.
    + cbn. rewrite Hs. cbn. revert Hs. unfold send.
      case_bool_decide; [by intros [= <- <- _]|]. destruct (reserve_write_bytes _ _) as [[] ?]; by intros [= <- <- _].
  - apply told_nothing; [cbn; by rewrite lookup_insert_ne|]. by rewrite tasks_of_posted, bool_decide_false.
Qed.

Lemma talks_told w w' : talks w w' → ∃ more, w_posted w' = w_posted w ++ more ∧ ∀ c, told c w w' more.
Proof.
  induction 1 as [w w' Hc Hp|c data w Hf|c w|w1 w2 w3 _ (more1 & Hp1 & H1) _ (more2 & Hp2 & H2)].
  - exists []. rewrite app_nil_r. split; [done|]. intros c. apply told_nothing; [by rewrite Hc|done].
  - by apply told_send.
  - unfold connection_request_close. destruct (w_conns w !! c) as [conn|] eqn:Hc.
    2:{ exists []. rewrite app_nil_r. split; [done|]. intros c'. by apply told_nothing. }
    exists (pair c <$> request_close). split; [done|]. intros c'. destruct (decide (c = c')) as [<-|Hne].
    + unfold told. rewrite Hc. exists conn, [OtherClose]. split; [done|].
      split; [by repeat constructor|..]; intros p <-; rewrite tasks_of_posted, bool_decide_true by done; [|done].
      by destruct p as [[] ? ? ?].
    + apply told_nothing; [done|]. by rewrite tasks_of_posted, bool_decide_false.
  - exists (more1 ++ more2). rewrite Hp2, Hp1, <- (assoc_L (++)). split; [done|]. intros c. specialize (H1 c). specialize (H2 c).
    unfold told in *. destruct (w_conns w1 !! c) as [conn1|].
    + destruct H1 as (conn2 & steps1 & Hc2 & Hh1). rewrite Hc2 in H2. destruct H2 as (conn3 & steps2 & Hc3 & Hh2).
      exists conn3, (steps1 ++ steps2). split; [done|]. by eapply hears_app.
    + destruct H1 as [Hc2 Hm1]. rewrite Hc2 in H2. destruct H2 as [Hc3 Hm2]. split; [done|]. by rewrite tasks_of_app, Hm1, Hm2.
Qed.

(** A handler's effect on a client is a run of its connection. *)
Lemma catch_up_run w w' c p :
  talks w w' → (∀ conn, w_conns w !! c = Some conn → conn = io_conn (pr_io p)) →
  (∀ conn, w_conns w' !! c = Some conn → conn = io_conn (pr_io (catch_up w w' c p))) ∧
  pr_posted (catch_up w w' c p) = pr_posted p ∧
  ∃ steps, Forall talk_step steps ∧ catch_up w w' c p = run_peer steps p ∧
    queued_chunks (tasks_of c (w_posted w')) = queued_chunks (tasks_of c (w_posted w)) ++ peer_accepted steps p.
Proof.
  intros (more & Hp & Ht)%talks_told Hsync. specialize (Ht c). unfold told in Ht. unfold catch_up.
  rewrite Hp, drop_app_length, tasks_of_app, queued_chunks_app. destruct (w_conns w !! c) as [conn|].
  - destruct Ht as (conn' & steps & -> & [Hs Hpeer Hacc]). specialize (Hsync conn eq_refl). split_and!; [by intros ? [= ->]|done|].
    exists steps. split_and!; [done|by rewrite Hpeer|by rewrite Hacc].
  - destruct Ht as [-> ->]. split_and!; [done|done|]. exists []. done.
Qed.

(** ** The invariant *)

Record client_inv (careful : bool) (c : Conn) (w : World) (opened : gset Conn) (cl : Client) : Prop := {
  ni_out : ∃ sent hs, out_inv (queued_chunks (tasks_of c (w_posted w))) sent hs (cl_peer cl);
  ni_peer : peer_inv false (cl_peer cl);
  ni_sync : ∀ conn, w_conns w !! c = Some conn → conn = io_conn (pr_io (cl_peer cl));
  ni_run : (cl_run cl <= length (pr_posted (cl_peer cl)))%nat;
  ni_open : c ∈ opened ↔ closes_of (take (cl_run cl) (pr_posted (cl_peer cl))) = 0%nat;
  ni_last : careful = true → report_last (pr_posted (cl_peer cl))
}.

Record net_inv (careful : bool) (n : Network) : Prop := {
  nv_clients : ∀ c cl, nw_clients n !! c = Some cl → client_inv careful c (nw_world n) (nw_open n) cl;
  nv_others : ∀ c, nw_clients n !! c = None →
    w_conns (nw_world n) !! c = None ∧ tasks_of c (w_posted (nw_world n)) = [] ∧ c ∉ nw_open n
}.

Lemma talk_sends s : talk_step s → sends_frames s.
Proof. by destruct s. Qed.

Lemma talks_answered steps p : Forall talk_step steps → answers_sent steps p = true.
Proof. intros Hs. revert p. induction Hs as [|s steps Hs _ IH]; intros p; [done|]. cbn [answers_sent]. rewrite IH. by destruct s. Qed.

Lemma client_catch_up careful c w w' opened cl :
  talks w w' → client_inv careful c w opened cl →
  client_inv careful c w' opened (MkClient (catch_up w w' c (cl_peer cl)) (cl_run cl)).
Proof.
  intros Ht [(sent & hs & Hout) Hpeer Hsync Hrun Hopen Hlast].
  destruct (catch_up_run w w' c (cl_peer cl) Ht Hsync) as (Hsync' & Hposted & steps & Hs & Hc & Hq).
  split; cbn [cl_peer cl_run]; rewrite ?Hposted; try done.
  - rewrite Hq, Hc. eapply out_inv_run; [|exact Hout]. by eapply Forall_impl, talk_sends.
  - rewrite Hc. by apply (run_peer_inv false).
Qed.

Lemma handled_inv careful w' n : talks (nw_world n) w' → net_inv careful n → net_inv careful (handled w' n).
Proof.
  intros Ht [Hcl Hno]. split; cbn; intros c; unfold catch_up_all; rewrite map_lookup_imap.
  - intros cl (cl0 & H0 & [= <-])%bind_Some. apply client_catch_up; auto.
  - destruct (nw_clients n !! c) as [cl|] eqn:E; [done|]. intros _. destruct (Hno c E) as (Hc & Hp & Ho).
    destruct (talks_told _ _ Ht) as (more & Hm & Htold). specialize (Htold c). unfold told in Htold. rewrite Hc in Htold.
    destruct Htold as [Hc' Hmore]. rewrite Hm, tasks_of_app, Hp, Hmore. done.
Qed.

(** The base loop runs the next functor of [c]. *)
Definition run_next (c : Conn) (f : Posting) (n : Network) : Network :=
  MkNetwork (nw_world n) (match f with PostClosed => nw_open n ∖ {[c]} | _ => nw_open n end) (functor_run c (nw_clients n)).

Lemma next_handled careful c w' n :
  talks (nw_world n) w' → net_inv careful n → next_functor c (handled w' n) = next_functor c n.
Proof.
  intros Ht Hn. unfold next_functor. cbn. unfold catch_up_all. rewrite map_lookup_imap.
  destruct (nw_clients n !! c) as [cl|] eqn:E; [|done]. cbn.
  by destruct (catch_up_run _ w' c (cl_peer cl) Ht (ni_sync _ _ _ _ _ (nv_clients _ _ Hn c cl E))) as (_ & -> & _).
Qed.

Lemma run_next_inv careful c f n : net_inv careful n → next_functor c n = Some f → net_inv careful (run_next c f n).
Proof.
  intros [Hcl Hno] Hf. unfold next_functor in Hf. apply bind_Some in Hf as (cl & Hc & Hf).
  split; cbn; intros c'; unfold functor_run; (destruct (decide (c = c')) as [<-|Hne];
    [rewrite lookup_alter_eq, Hc|rewrite lookup_alter_ne by done]); try done.
  - intros cl' [= <-]. destruct (Hcl c cl Hc) as [Hout Hpeer Hsync Hrun Hopen Hlast]. split; cbn [cl_peer cl_run]; try done.
    + by apply lookup_lt_Some in Hf.
    + rewrite (take_S_r _ _ _ Hf), closes_of_app. destruct f as [type payload|].
      * change (closes_of [PostFrame type payload]) with 0%nat. by rewrite Nat.add_0_r.
      * change (closes_of [PostClosed]) with 1%nat. split; [set_solver|lia].
  - intros cl' Hc'. destruct (Hcl c' cl' Hc') as [Hout Hpeer Hsync Hrun Hopen Hlast]. split; try done.
    rewrite <- Hopen. destruct f; [done|]. set_solver.
  - intros Hc'. destruct (Hno c' Hc') as (? & ? & ?). split_and!; [done..|]. destruct f; [done|]. set_solver.
Qed.

Lemma peer_posts s p : ∃ more, pr_posted (peer_step s p) = pr_posted p ++ more.
Proof.
  destruct s; cbn [peer_step]; try (exists []; by rewrite app_nil_r).
  - exists []. rewrite app_nil_r. by destruct (send _ _) as [[]].
  - destruct (pr_tasks p); [exists []; by rewrite app_nil_r|]. by eexists.
  - destruct (io_event _ _ _) as [[]]. by eexists.
Qed.

Lemma own_inv careful c s w opened cl :
  own_step s = true → (careful = true → answer_fails s (cl_peer cl) = false) → client_inv careful c w opened cl →
  client_inv careful c (set_conn c (io_conn (pr_io (peer_step s (cl_peer cl)))) w) opened (MkClient (peer_step s (cl_peer cl)) (cl_run cl)).
Proof.
  intros Hs Hf [(sent & hs & Hout) Hpeer Hsync Hrun Hopen Hlast].
  destruct (peer_posts s (cl_peer cl)) as [more Hmore].
  split; cbn [cl_peer cl_run w_posted set_conn w_conns]; rewrite ?Hmore.
  - destruct (out_inv_step (queued_chunks (tasks_of c (w_posted w))) sent hs s (cl_peer cl)) as (sent' & hs' & H); [by destruct s|done|].
    replace (step_accepted s (cl_peer cl)) with (@nil bytes) in H by (by destruct s). rewrite app_nil_r in H. eauto.
  - by apply (peer_step_inv false).
  - rewrite lookup_insert_eq. by intros conn [= <-].
  - rewrite length_app. lia.
  - by rewrite take_app_le.
  - intros Hca. rewrite <- Hmore. apply (run_peer_report_last [s]); [done| |auto]. cbn [answers_sent]. by rewrite Hf.
Qed.

(** Another connection than [c] does not notice. *)
Lemma client_other careful c c' conn w opened opened' cl :
  c ≠ c' → (c' ∈ opened' ↔ c' ∈ opened) → client_inv careful c' w opened cl →
  client_inv careful c' (set_conn c conn w) opened' cl.
Proof.
  intros Hne Ho [Hout Hpeer Hsync Hrun Hopen Hlast]. split; cbn; try done.
  - by rewrite lookup_insert_ne.
  - by rewrite Ho.
Qed.

Lemma accepted_client_inv careful c now reads writes epoll w opened :
  tasks_of c (w_posted w) = [] → c ∈ opened →
  client_inv careful c (set_conn c (Connection_new now) w) opened
    (MkClient (peer_step OtherConnect (Peer_new now reads writes epoll)) 0).
Proof.
  intros Hp Ho. split; cbn [cl_peer cl_run w_posted set_conn w_conns]; rewrite ?Hp.
  - exists [], []. apply out_inv_start.
  - apply (peer_step_inv false), Peer_new_inv.
  - rewrite lookup_insert_eq. by intros conn [= <-].
  - lia.
  - done.
  - intros _. by exists [], 0%nat.
Qed.

Section runs.
Context {ho : HashOrder} (careful : bool).

Lemma net_step_inv n n' : net_step careful n n' → net_inv careful n → net_inv careful n'.
Proof.
  intros Hstep Hn. pose proof Hn as [Hcl Hno].
  destruct Hstep as [room_id capacity n _ _|c now reads writes epoll n Hnew|c cl s n Hc _ Hown Hf|rs n
    |c type payload now n Hf|c now n Hf|c n Hc|expirations n|now n].
  - apply handled_inv; [apply talks_add_room|done].
  - destruct (Hno c Hnew) as (Hconn & Hp & Ho). split; cbn; intros c'; (destruct (decide (c = c')) as [<-|Hne];
      [rewrite lookup_insert_eq|rewrite lookup_insert_ne by done]); try done.
    + intros cl [= <-]. apply accepted_client_inv; [done|set_solver].
    + intros cl Hcl'. apply (client_other _ c c' _ _ (nw_open n)); [done|set_solver|auto].
    + intros Hc'. destruct (Hno c' Hc') as (? & ? & ?). rewrite lookup_insert_ne by done. split_and!; [done..|set_solver].
  - split; cbn; intros c'; (destruct (decide (c = c')) as [<-|Hne]; [rewrite lookup_insert_eq|rewrite lookup_insert_ne by done]); try done.
    + intros cl' [= <-]. apply own_inv; auto.
    + intros cl' Hc'. apply (client_other _ c c' _ _ (nw_open n)); auto.
    + intros Hc'. destruct (Hno c' Hc') as (? & ? & ?). rewrite lookup_insert_ne by done. done.
  - apply handled_inv; [apply talks_random|done].
  - pose proof (talks_request now (Some c) type payload (nw_world n)) as Ht.
    apply (run_next_inv careful c (PostFrame type payload) (handled _ n)); [by apply handled_inv|].
    by rewrite (next_handled careful).
  - pose proof (talks_closed now (Some c) (nw_world n)) as Ht.
    apply (run_next_inv careful c PostClosed (handled _ n)); [by apply handled_inv|].
    by rewrite (next_handled careful).
  - split; cbn; intros c'.
    + intros cl' Hc'. destruct (Hcl c' cl' Hc') as [Hout Hpeer Hsync Hrun Hopen Hlast]. split; cbn; try done.
      intros conn [_ ?]%lookup_delete_Some. auto.
    + intros Hc'. destruct (Hno c' Hc') as (? & ? & ?). split_and!; [|done..]. by rewrite lookup_delete_None; right.
  - apply handled_inv; [apply talks_tick|done].
  - apply handled_inv; [apply talks_timeouts|done].
Qed.

Lemma net_reachable_inv n : net_reachable careful n → net_inv careful n.
Proof.
  induction 1 as [w _ Hc Hp|n n' _ IH Hstep]; [|by eapply net_step_inv].
  split; cbn; intros c; rewrite lookup_empty; [done|]. rewrite Hc, Hp, lookup_empty. intros _. split_and!; [done|done|set_solver].
Qed.

(** ** The service cannot tell *)

Lemma frames_before_close posted k type payload :
  report_last posted → posted !! k = Some (PostFrame type payload) → closes_of (take k posted) = 0%nat.
Proof.
  intros (fs & m & ->) Hk. assert (Hlt : (k < length fs)%nat).
  { destruct (decide (k < length fs)%nat) as [|Hge]; [done|exfalso].
    rewrite lookup_app_r, lookup_replicate in Hk by (rewrite length_fmap; lia). by destruct Hk. }
  rewrite take_app_le by (rewrite length_fmap; lia). by rewrite <- fmap_take, closes_of_frames.
Qed.

Lemma first_close posted k :
  (closes_of posted <= 1)%nat → posted !! k = Some PostClosed → closes_of (take k posted) = 0%nat.
Proof.
  intros Hone Hk. rewrite <- (take_drop_middle _ _ _ Hk), closes_of_app in Hone.
  unfold closes_of in Hone at 2. rewrite filter_cons_True, length_cons in Hone by done. lia.
Qed.

Lemma next_open c f n :
  net_inv careful n → next_functor c n = Some f → careful = true ∨ f = PostClosed → c ∈ nw_open n.
Proof.
  intros [Hcl _] (cl & Hc & Hf)%bind_Some Hor. destruct (Hcl c cl Hc) as [_ Hpeer _ _ Hopen Hlast]. apply Hopen.
  destruct f as [type payload|].
  - destruct Hor as [Hca|]; [|done]. by eapply frames_before_close; [apply Hlast|].
  - apply first_close; [|done]. rewrite (pi_closes _ _ Hpeer). apply Hpeer.
Qed.

Lemma net_step_refines n n' :
  careful = true → net_step careful n n' → net_inv careful n → system_inv false (nw_system n) →
  step false (nw_system n) (nw_system n').
Proof.
  intros Hca Hstep Hn [_ Hsub Hlive]. specialize (Hsub eq_refl). pose proof (λ c f, next_open c f n Hn) as Hnext. destruct Hn as [Hcl Hno].
  destruct Hstep as [room_id capacity n Hr Hcap|c now reads writes epoll n Hnew|c cl s n Hc Hl _ _|rs n
    |c type payload now n Hf|c now n Hf|c n Hc|expirations n|now n]; unfold nw_system; cbn [nw_world nw_open handled].
  - by apply StepAddRoom.
  - destruct (Hno c Hnew) as (Hconn & _ & Hopen). apply StepAccept; [by apply not_elem_of_dom|].
    intros Hb. by apply Hopen, Hsub.
  - by apply StepIo.
  - apply StepEntropy.
  - apply StepFrame; [|intros _; by eapply Hnext; [|left]]. apply Hlive. by eapply Hnext; [|left].
  - apply StepClosed. by eapply Hnext; [|right].
  - by apply StepDestroyed.
  - apply StepTick.
  - apply StepTimeouts.
Qed.

Lemma net_reachable_refines n : careful = true → net_reachable careful n → reachable false (nw_system n).
Proof.
  intros Hca. induction 1 as [w Hr Hc Hp|n n' Hr IH Hstep]; [by rewrite Hca in Hr|].
  eapply ReachStep; [exact IH|]. by apply net_step_refines; [..|apply net_reachable_inv|apply reachable_inv].
Qed.
End runs.

(** * Properties *)

(** C2: The server keeps its word to every client: in every state that the service
    and the loops of its connections reach together, in any interleaving and
    whatever the sockets do, what the service has handled of a client is a
    beginning of the requests among the frames that have been read from it, each
    once and in order; and what the client has received are whole frames and at
    most the beginning of one more, namely, in order, without a gap and each once,
    the frames that the service has sent to it, interleaved with the answers to
    its heartbeats. As long as the connection is up nothing is missing. And if no
    answer to a heartbeat closes a connection, the service goes through states
    of the transition system of ServiceInvariant only, without late frames, so
    that all that is proved of it there holds of the server with its clients. *)
Theorem network_serves_clients {ho : HashOrder} (careful : bool) (n : Network) :
  net_reachable careful n →
  (∀ c cl, nw_clients n !! c = Some cl →
    served (sent_to c n) (cl_peer cl) ∧ handled_from cl `prefix_of` frames_of (pr_posted (cl_peer cl))) ∧
  (careful = true → reachable false (nw_system n)).
Proof.
  intros Hr. split; [|intros Hca; by eapply net_reachable_refines]. intros c cl Hc.
  destruct (nv_clients _ _ (net_reachable_inv careful n Hr) c cl Hc) as [(sent & hs & Hout) _ _ _ _ _].
  split; [by eapply out_inv_served|]. unfold handled_from. exists (frames_of (drop (cl_run cl) (pr_posted (cl_peer cl)))).
  by rewrite <- frames_of_app, take_drop.
Qed.

(** ** A concrete run: a client joins *)

Section demo.
#[local] Instance network_order : HashOrder := canonical_order.

Definition own (c : Conn) (s : PeerStep) (n : Network) : Network :=
  match nw_clients n !! c with
  | Some cl =>
      let p := peer_step s (cl_peer cl) in
      MkNetwork (set_conn c (io_conn (pr_io p)) (nw_world n)) (nw_open n) (<[c := MkClient p (cl_run cl)]> (nw_clients n))
  | None => n
  end.
Definition frame_run (c : Conn) (type : Z) (payload : bytes) (now : Z) (n : Network) : Network :=
  let w' := handle_frame_in_loop true now (Some c) type payload (nw_world n) in
  MkNetwork w' (nw_open n) (functor_run c (catch_up_all (nw_world n) w' (nw_clients n))).

Definition network0 : Network := MkNetwork demo_empty ∅ ∅.
Definition network1 : Network := handled (service_add_room true 1 2 (nw_world network0)).2 network0.
Definition network2 : Network := handled (set_random demo_random (nw_world network1)) network1.
Definition network3 : Network :=
  MkNetwork (set_conn 7 (Connection_new 0) (nw_world network2)) ({[7]} ∪ nw_open network2)
    (<[7 := MkClient (peer_step OtherConnect (Peer_new 0 joining_reads [Wrote 5; WriteAgain; Wrote 1000] [])) 0]> (nw_clients network2)).
Definition network4 : Network := own 7 (RunEvent 2 EPOLLIN) (own 7 (RunEvent 1 EPOLLIN) (own 7 (RunTask 0) network3)).
Definition network5 : Network := frame_run 7 1 join_frame.2 3 network4.
Definition network6 : Network := own 7 (RunTask 4) network5.

(** The confirmation of the join, as the socket takes it in two pieces. *)
Example network_outcome :
  (λ cl, frames_of (pr_posted (cl_peer cl))) <$> nw_clients network4 !! 7 = Some [join_frame] ∧
  length (sent_to 7 network6) = 1%nat ∧
  (λ cl, io_wire (pr_io (cl_peer cl))) <$> nw_clients network6 !! 7 = Some (take 6 (concat (sent_to 7 network6))) ∧
  (λ cl, io_wire (pr_io (cl_peer cl))) <$> nw_clients (own 7 (RunEvent 5 EPOLLOUT) network6) !! 7 =
    Some (concat (sent_to 7 network6)).
Proof. vm_compute. done. Qed.

Definition quiet_at (c : Conn) (s : PeerStep) (n : Network) : bool :=
  match nw_clients n !! c with
  | Some cl => bool_decide (c ∈ w_live (nw_world n)) && own_step s && negb (answer_fails s (cl_peer cl))
  | None => false
  end.

Lemma own_reachable c s n : net_reachable true n → quiet_at c s n = true → net_reachable true (own c s n).
Proof.
  intros Hr Hq. unfold own, quiet_at in *. destruct (nw_clients n !! c) as [cl|] eqn:Hc; [|done]. to_prop.
  eapply NetNext; [exact Hr|]. by apply (NetOwn true c cl s n).
Qed.

Lemma network4_reachable : net_reachable true network4.
Proof.
  unfold network4. do 3 (apply own_reachable; [|vm_compute; reflexivity]).
  eapply NetNext; [|apply NetAccept; vm_compute; reflexivity].
  eapply NetNext; [|apply NetEntropy].
  eapply NetNext; [|apply NetAddRoom; split; (discriminate || reflexivity)].
  apply NetStart; [apply (ReachNew false 30000)|done..].
Qed.

Lemma network6_reachable : net_reachable true network6.
Proof.
  unfold network6. apply own_reachable; [|vm_compute; reflexivity].
  eapply NetNext; [apply network4_reachable|apply NetFrame; vm_compute; reflexivity].
Qed.

Definition network_client : Client := default (MkClient (Peer_new 0 [] [] []) 0) (nw_clients network6 !! 7).

Lemma network_serves_clients_witness :
  served (sent_to 7 network6) (cl_peer network_client) ∧
  [join_frame] `prefix_of` frames_of (pr_posted (cl_peer network_client)) ∧ reachable false (nw_system network6).
Proof.
  destruct (network_serves_clients true network6 network6_reachable) as [Hcl Hr].
  assert (Hc : nw_clients network6 !! 7 = Some network_client).
  { unfold network_client. destruct (nw_clients network6 !! 7) eqn:E; [reflexivity|].
    assert (Hs : bool_decide (is_Some (nw_clients network6 !! 7)) = true) by (vm_compute; reflexivity).
    rewrite E in Hs. vm_compute in Hs. discriminate. }
  destruct (Hcl 7 network_client Hc) as [Hserved Hhandled].
  assert (Hrun : handled_from network_client = [join_frame]) by (vm_compute; reflexivity).
  rewrite Hrun in Hhandled. split; [exact Hserved|]. split; [exact Hhandled|exact (Hr eq_refl)].
Defined.
End demo.
