(* ===== verification/EventLoop.v ===== *)
(** [src/src/event_loop.cpp]: the event loop as an object: its table of
    callbacks, the queue of functors, and the loop itself. Closures are the
    opaque types [CB] and [F]; a surrounding world, of which the loop is a part,
    says what invoking them does. Results of system calls are arguments. *)

From S2P Require Import Prelude Connection.

(** * Definitions *)

Record EventLoop (CB F : Type) : Type := MkEventLoop {
  epoll_fd_ : Z;
  wakeup_fd_ : Z;
  quit_ : bool;
  looping_ : bool;
  max_events_ : Z;
  callbacks_ : gmap Z CB;
  owner_thread_id_ : Z;
  pending_functors_ : list F
}.
Arguments MkEventLoop {CB F}.
Arguments epoll_fd_ {CB F}.
Arguments wakeup_fd_ {CB F}.
Arguments quit_ {CB F}.
Arguments looping_ {CB F}.
Arguments max_events_ {CB F}.
Arguments callbacks_ {CB F}.
Arguments owner_thread_id_ {CB F}.
Arguments pending_functors_ {CB F}.

(** [EAGAIN] and [EINTR] are told apart from the other errors. *)
Inductive wait_result : Type :=
| WaitEvents (events : list (Z * Z))
| WaitEintr
| WaitError.

Section event_loop.
Context {CB F : Type}.
Implicit Types (l : EventLoop CB F).

Definition set_callbacks (m : gmap Z CB) l : EventLoop CB F :=
  MkEventLoop (epoll_fd_ l) (wakeup_fd_ l) (quit_ l) (looping_ l) (max_events_ l) m
    (owner_thread_id_ l) (pending_functors_ l).
Definition set_pending_functors (fs : list F) l : EventLoop CB F :=
  MkEventLoop (epoll_fd_ l) (wakeup_fd_ l) (quit_ l) (looping_ l) (max_events_ l) (callbacks_ l)
    (owner_thread_id_ l) fs.
Definition set_looping (b : bool) l : EventLoop CB F :=
  MkEventLoop (epoll_fd_ l) (wakeup_fd_ l) (quit_ l) b (max_events_ l) (callbacks_ l)
    (owner_thread_id_ l) (pending_functors_ l).
Definition set_quit l : EventLoop CB F :=
  MkEventLoop (epoll_fd_ l) (wakeup_fd_ l) true (looping_ l) (max_events_ l) (callbacks_ l)
    (owner_thread_id_ l) (pending_functors_ l).

Definition valid l : bool := negb (epoll_fd_ l =? -1) && negb (wakeup_fd_ l =? -1).
Definition is_in_loop_thread (self : Z) l : bool := owner_thread_id_ l =? self.

(** [ctl] is the outcome of [epoll_ctl]; a callback may be empty. *)
Definition add_fd (self fd : Z) (callback : option CB) (ctl : bool) l : bool * EventLoop CB F :=
  if negb (valid l) || (fd <? 0) then (false, l)
  else match callback with
  | None => (false, l)
  | Some callback =>
      if negb (is_in_loop_thread self l) then (false, l)
      else if bool_decide (is_Some (callbacks_ l !! fd)) then (false, l)
      else if negb ctl then (false, l)
      else (true, set_callbacks (<[fd:=callback]> (callbacks_ l)) l)
  end.

Definition update_fd (self fd : Z) (ctl : bool) l : bool :=
  if negb (valid l) || (fd <? 0) then false
  else if negb (is_in_loop_thread self l) then false
  else if negb (bool_decide (is_Some (callbacks_ l !! fd))) then false
  else ctl.

Definition remove_fd (self fd : Z) (ctl : bool) l : bool * EventLoop CB F :=
  if negb (valid l) || (fd <? 0) then (false, l)
  else if negb (is_in_loop_thread self l) then (false, l)
  else if negb (bool_decide (is_Some (callbacks_ l !! fd))) then (false, l)
  else if negb ctl then (false, l)
  else (true, set_callbacks (delete fd (callbacks_ l)) l).

(** The constructor, run by thread [self]: [epoll_create1] and [eventfd] return
    a descriptor or -1, [ctl] is the outcome of registering the latter. *)
Definition EventLoop_new (self max_events epoll_fd event_fd : Z) (handle_wakeup : CB) (ctl : bool) :
    EventLoop CB F :=
  let l := MkEventLoop (-1) (-1) false false (if max_events =? 0 then 1 else max_events) ∅ self [] in
  let fds e w (l : EventLoop CB F) :=
    MkEventLoop e w (quit_ l) (looping_ l) (max_events_ l) (callbacks_ l)
      (owner_thread_id_ l) (pending_functors_ l) in
  if epoll_fd =? -1 then l
  else if event_fd =? -1 then l
  else
    let '(added, l) := add_fd self event_fd (Some handle_wakeup) ctl (fds epoll_fd event_fd l) in
    if negb added then fds (-1) (-1) l else l.

(** The destructor closes both descriptors. *)
Definition EventLoop_destroyed l : EventLoop CB F :=
  MkEventLoop (-1) (-1) (quit_ l) (looping_ l) (max_events_ l) (callbacks_ l)
    (owner_thread_id_ l) (pending_functors_ l).

(** The part of [queue_in_loop] under the mutex; [wakeup] follows. *)
Definition queue_in_loop (functor : option F) l : EventLoop CB F :=
  match functor with
  | None => l
  | Some f => set_pending_functors (pending_functors_ l ++ [f]) l
  end.

(** The swap under the mutex with which [do_pending_functors] begins. *)
Definition take_functors l : list F * EventLoop CB F :=
  (pending_functors_ l, set_pending_functors [] l).

(** ** The loop in its world *)

Context {W : Type} (get : W → EventLoop CB F) (upd : (EventLoop CB F → EventLoop CB F) → W → W).
Context (invoke : CB → Z → W → W) (call : F → W → W).

(** [run_in_loop]: at once in the loop thread, queued otherwise. *)
Definition run_in_loop (self : Z) (functor : option F) (w : W) : W :=
  match functor with
  | None => w
  | Some f => if is_in_loop_thread self (get w) then call f w else upd (queue_in_loop (Some f)) w
  end.

Definition do_pending_functors (w : W) : W :=
  let '(functors, _) := take_functors (get w) in
  foldl (λ w f, call f w) (upd (λ l, (take_functors l).2) w) functors.

(** The events of one [epoll_wait]. *)
Fixpoint dispatch (events : list (Z * Z)) (w : W) : W :=
  match events with
  | [] => w
  | (fd, event_type) :: events =>
      match callbacks_ (get w) !! fd with
      | None => dispatch events w
      | Some callback =>
          let w := invoke callback event_type w in
          if quit_ (get w) then w else dispatch events w
      end
  end.

(** The while loop, one [epoll_wait] result after the other; without a further
    result it blocks in [epoll_wait]. *)
Fixpoint iterate (waits : list wait_result) (w : W) : option bool * W :=
  if quit_ (get w) then (Some true, upd (set_looping false) w)
  else match waits with
  | [] => (None, w)
  | WaitEintr :: waits => iterate waits w
  | WaitError :: _ => (Some false, upd (set_looping false) w)
  | WaitEvents events :: waits => iterate waits (do_pending_functors (dispatch events w))
  end.

Definition loop (self : Z) (waits : list wait_result) (w : W) : option bool * W :=
  if negb (valid (get w)) then (Some false, w)
  else if negb (is_in_loop_thread self (get w)) then (Some false, w)
  else if looping_ (get w) then (Some false, w)
  else iterate waits (upd (set_looping true) w).

End event_loop.

Arguments EventLoop_new {CB F}.

(** * Proofs *)

Section event_loop_proofs.
Context {CB F : Type}.
Implicit Types (l : EventLoop CB F).

(** What registering, updating and removing do to the table. *)
Lemma add_fd_success self fd cb ctl l l' :
  add_fd self fd cb ctl l = (true, l') →
  ∃ callback, cb = Some callback ∧ valid l = true ∧ 0 <= fd ∧ owner_thread_id_ l = self ∧
    callbacks_ l !! fd = None ∧ ctl = true ∧ l' = set_callbacks (<[fd:=callback]> (callbacks_ l)) l.
Proof.
  unfold add_fd, is_in_loop_thread. intros H. branches_in H. to_prop.
  eexists. split_and!; try done; try lia.
  by apply eq_None_not_Some.
Qed.

Lemma add_fd_failure self fd cb ctl l l' : add_fd self fd cb ctl l = (false, l') → l' = l.
Proof. unfold add_fd. intros H. by branches_in H. Qed.

Lemma remove_fd_success self fd ctl l l' :
  remove_fd self fd ctl l = (true, l') →
  valid l = true ∧ 0 <= fd ∧ owner_thread_id_ l = self ∧ is_Some (callbacks_ l !! fd) ∧
    ctl = true ∧ l' = set_callbacks (delete fd (callbacks_ l)) l.
Proof.
  unfold remove_fd, is_in_loop_thread. intros H. branches_in H. to_prop.
  split_and!; try done; lia.
Qed.

Lemma remove_fd_failure self fd ctl l l' : remove_fd self fd ctl l = (false, l') → l' = l.
Proof. unfold remove_fd. intros H. by branches_in H. Qed.

End event_loop_proofs.
