(* ===== verification/LoopWakeup.v ===== *)
(** [src/src/event_loop.cpp]: posting work to a loop from any thread. The steps
    of the loop thread and of the posting threads interleave; the eventfd is a
    parameter with the documented behaviour of eventfd(2) and epoll(7). Shown:
    tasks run exactly once in the order of posting, the loop never blocks over a
    posted task, and a task runs after a bounded number of steps of the loop. *)

From S2P Require Import Prelude Connection EventLoop.

(** * The wake-up descriptor *)

Inductive write_reply : Type := WroteOne | WriteIntr | WriteFull.
Inductive read_reply : Type := ReadValue (value : Z) | ReadIntr | ReadEmpty.

(** An eventfd watched in edge-triggered mode: [wk_readable] is a counter above
    zero, [wk_ready] that [epoll_wait] would report it. *)
Class EventFd : Type := {
  wk : Type;
  wk_write : wk → write_reply * wk;
  wk_read : wk → read_reply * wk;
  wk_report : wk → wk;
  wk_readable : wk → bool;
  wk_ready : wk → bool
}.

(** eventfd(2): a write adds to the counter unless that is full or a signal
    comes in; reading until [EAGAIN] leaves it at zero. epoll(7): a write is
    reported; reporting does not change the counter. *)
Class EventFdLaws `{EventFd} : Prop := {
  write_one k k' : wk_write k = (WroteOne, k') → wk_readable k' = true ∧ wk_ready k' = true;
  write_intr k k' : wk_write k = (WriteIntr, k') → k' = k;
  write_full k k' : wk_write k = (WriteFull, k') → k' = k ∧ wk_readable k = true;
  read_empty k k' : wk_read k = (ReadEmpty, k') → wk_readable k' = false;
  report_readable k : wk_readable (wk_report k) = wk_readable k
}.

(** * Definitions *)

(** Where the loop thread is: at the test of [quit_]; in [epoll_wait]; handling
    the remaining events of a batch, [true] being the wake-up descriptor; about
    to swap the queue; running the functors taken; or returned. *)
Inductive loop_pc : Type :=
| PTest
| PWait
| PDispatch (events : list bool)
| PSwap
| PFunctors
| PReturned.

(** Threads that have pushed a functor or set [quit_], and still have to write
    the wake-up descriptor. The loop thread is thread 0. *)
Record LoopState `{EventFd} {F : Type} : Type := MkLoopState {
  ls_loop : EventLoop unit F;
  ls_wake : wk;
  ls_pc : loop_pc;
  ls_writers : gset nat;
  ls_current : list F;
  ls_executed : list F
}.
Arguments LoopState {_} F.
Arguments MkLoopState {_ F}.

Section wakeup.
Context `{EventFd} {F : Type}.
Implicit Types (s : LoopState F).

Definition at_pc (pc : loop_pc) s : LoopState F :=
  MkLoopState (ls_loop s) (ls_wake s) pc (ls_writers s) (ls_current s) (ls_executed s).
Definition with_wake (k : wk) s : LoopState F :=
  MkLoopState (ls_loop s) k (ls_pc s) (ls_writers s) (ls_current s) (ls_executed s).
Definition with_writers (ws : gset nat) s : LoopState F :=
  MkLoopState (ls_loop s) (ls_wake s) (ls_pc s) ws (ls_current s) (ls_executed s).
Definition with_loop (l : EventLoop unit F) s : LoopState F :=
  MkLoopState l (ls_wake s) (ls_pc s) (ls_writers s) (ls_current s) (ls_executed s).
Definition with_tasks (current executed : list F) s : LoopState F :=
  MkLoopState (ls_loop s) (ls_wake s) (ls_pc s) (ls_writers s) current executed.

(** One write of [wakeup]: the thread is done unless a signal came in. *)
Definition wakeup_write (i : nat) s : LoopState F :=
  let '(reply, k) := wk_write (ls_wake s) in
  match reply with
  | WriteIntr => with_wake k s
  | WroteOne | WriteFull => with_writers (ls_writers s ∖ {[i]}) (with_wake k s)
  end.

(** One read of [handle_wakeup], [events] being the rest of the batch. *)
Definition handle_wakeup_read (events : list bool) s : LoopState F :=
  let '(reply, k) := wk_read (ls_wake s) in
  match reply with
  | ReadValue _ | ReadIntr => with_wake k s
  | ReadEmpty => at_pc (if quit_ (ls_loop s) then PSwap else PDispatch events) (with_wake k s)
  end.

(** The loop thread calls out, so it may itself post or quit. *)
Definition calls_out (pc : loop_pc) : bool :=
  match pc with PDispatch _ | PFunctors => true | _ => false end.

(** Who makes a step: a thread that posts [f]; any thread doing something else;
    the loop thread, testing [quit_] or repeating a system call, or advancing. *)
Inductive actor : Type := Posts (f : F) | Other | LoopRetry | LoopProgress.

Inductive step : actor → LoopState F → LoopState F → Prop :=
| StepPush i f s :
    i ∉ ls_writers s → (i = 0%nat → calls_out (ls_pc s) = true) →
    step (Posts f) s (with_writers ({[i]} ∪ ls_writers s) (with_loop (queue_in_loop (Some f) (ls_loop s)) s))
| StepQuit i s :
    i ∉ ls_writers s → i ≠ 0%nat →
    step Other s (with_writers ({[i]} ∪ ls_writers s) (with_loop (set_quit (ls_loop s)) s))
| StepQuitHere s :
    0%nat ∉ ls_writers s → calls_out (ls_pc s) = true →
    step Other s (with_loop (set_quit (ls_loop s)) s)
| StepWakeup i s :
    i ∈ ls_writers s → step Other s (wakeup_write i s)
| StepTest s :
    ls_pc s = PTest →
    step LoopRetry s (at_pc (if quit_ (ls_loop s) then PReturned else PWait) s)
| StepWaitIntr s :
    ls_pc s = PWait → step LoopRetry s (at_pc PTest s)
| StepWait (events : list bool) s :
    ls_pc s = PWait → events ≠ [] → zlen events <= max_events_ (ls_loop s) →
    (true ∈ events → wk_ready (ls_wake s) = true) → NoDup (filter (eq true) events) →
    step LoopProgress s
      (at_pc (PDispatch events) (if bool_decide (true ∈ events) then with_wake (wk_report (ls_wake s)) s else s))
| StepCallback events s :
    ls_pc s = PDispatch (false :: events) → 0%nat ∉ ls_writers s →
    step LoopProgress s (at_pc (if quit_ (ls_loop s) then PSwap else PDispatch events) s)
| StepUnknown events s :
    ls_pc s = PDispatch (false :: events) → 0%nat ∉ ls_writers s →
    step LoopProgress s (at_pc (PDispatch events) s)
| StepRead events s :
    ls_pc s = PDispatch (true :: events) → 0%nat ∉ ls_writers s →
    step (match (wk_read (ls_wake s)).1 with ReadEmpty => LoopProgress | _ => LoopRetry end) s
      (handle_wakeup_read events s)
| StepBatchEnd s :
    ls_pc s = PDispatch [] → 0%nat ∉ ls_writers s →
    step LoopProgress s (at_pc PSwap s)
| StepSwap s :
    ls_pc s = PSwap → 0%nat ∉ ls_writers s →
    step LoopProgress s
      (at_pc PFunctors (with_loop (take_functors (ls_loop s)).2
        (with_tasks (take_functors (ls_loop s)).1 (ls_executed s) s)))
| StepFunctor f fs s :
    ls_pc s = PFunctors → ls_current s = f :: fs → 0%nat ∉ ls_writers s →
    step LoopProgress s (with_tasks fs (ls_executed s ++ [f]) s)
| StepFunctorsEnd s :
    ls_pc s = PFunctors → ls_current s = [] → 0%nat ∉ ls_writers s →
    step LoopProgress s (at_pc PTest s).

Inductive run : list actor → LoopState F → LoopState F → Prop :=
| run_nil s : run [] s s
| run_snoc tr a s1 s2 s3 : run tr s1 s2 → step a s2 s3 → run (tr ++ [a]) s1 s3.

(** A new loop whose thread is about to enter [loop]. *)
Definition LoopState_new (self max_events epoll_fd event_fd : Z) (k : wk) : LoopState F :=
  MkLoopState (set_looping true (EventLoop_new self max_events epoll_fd event_fd tt true))
    k PTest ∅ [] [].

Definition reachable s : Prop :=
  ∃ tr self m e w k, 0 <= m ∧ wk_readable k = false ∧ run tr (LoopState_new self m e w k) s.

Definition is_loop (a : actor) : bool :=
  match a with LoopRetry | LoopProgress => true | _ => false end.
Definition posted (tr : list actor) : list F :=
  omap (λ a, match a with Posts f => Some f | _ => None end) tr.
Definition progress (tr : list actor) : nat :=
  length (omap (λ a, match a with LoopProgress => Some tt | _ => None end) tr).

(** All tasks ever posted, in the order of posting. *)
Definition tasks s : list F := ls_executed s ++ ls_current s ++ pending_functors_ (ls_loop s).

(** How many advancing steps of the loop it takes at most to execute the task
    posted as number [n], when every batch has at most [m] events. *)
Definition steps_at (m n executed current : nat) (pc : loop_pc) : nat :=
  let swapped := (1 + (n - executed - current + 1))%nat in
  if decide (n < executed)%nat then 0%nat
  else if decide (n < executed + current)%nat then (n - executed + 1)%nat
  else match pc with
  | PSwap => swapped
  | PDispatch events => (length events + 1 + swapped)%nat
  | PWait | PTest => (1 + m + 1 + swapped)%nat
  | PFunctors => (current + 1 + (1 + m + 1 + swapped))%nat
  | PReturned => 0%nat
  end.
Definition steps_to (m n : nat) s : nat :=
  steps_at m n (length (ls_executed s)) (length (ls_current s)) (ls_pc s).

End wakeup.

(** * Proofs *)

Section wakeup_proofs.
Context `{EventFdLaws} {F : Type}.
Implicit Types (s : LoopState F).

(** The loop will return without waiting again. *)
Definition doomed s : Prop :=
  quit_ (ls_loop s) = true ∧
  match ls_pc s with PWait | PDispatch _ => False | _ => True end.

(** The batch being handled still contains the wake-up descriptor. *)
Definition reported s : Prop :=
  match ls_pc s with PDispatch events => true ∈ events | _ => False end.

(** The loop will wait before it looks at the queue. *)
Definition waits_first (pc : loop_pc) : Prop :=
  match pc with PWait | PFunctors | PTest => True | _ => False end.

Record loop_inv s : Prop := {
  li_events : 1 <= max_events_ (ls_loop s);
  li_current : ls_pc s ≠ PFunctors → ls_current s = [];
  li_batch : ∀ events, ls_pc s = PDispatch events →
    zlen events <= max_events_ (ls_loop s) ∧ NoDup (filter (eq true) events);
  li_readable : wk_readable (ls_wake s) = true → wk_ready (ls_wake s) = true ∨ reported s ∨ doomed s;
  li_pending : waits_first (ls_pc s) → pending_functors_ (ls_loop s) ≠ [] →
    ls_writers s ≠ ∅ ∨ wk_ready (ls_wake s) = true ∨ doomed s;
  li_quit : ls_pc s = PWait → quit_ (ls_loop s) = true →
    ls_writers s ≠ ∅ ∨ wk_ready (ls_wake s) = true
}.

Lemma LoopState_new_inv self m e w k :
  0 <= m → wk_readable k = false → loop_inv (LoopState_new self m e w k).
Proof.
  intros Hm Hk.
  assert (Hl : 1 <= (if m =? 0 then 1 else m)) by (destruct (Z.eqb_spec m 0); lia).
  unfold LoopState_new, EventLoop_new, add_fd. split; cbn; try done; [|congruence|].
  - by branches.
  - intros _. by branches.
Qed.

Lemma wakeup_write_inv i s : loop_inv s → loop_inv (wakeup_write i s).
Proof.
  intros [He Hc Hb Hr Hp Hq]. unfold wakeup_write.
  destruct (wk_write (ls_wake s)) as [[] k] eqn:Hw.
  - apply write_one in Hw as [Hk Hk']. split; cbn; auto.
  - apply write_intr in Hw as ->. by split.
  - apply write_full in Hw as [-> Hk]. specialize (Hr Hk).
    split; cbn; auto.
    + intros Hpc _. right. unfold reported in Hr. by destruct Hr as [Hr|[Hr|Hr]]; [left| |right];
        destruct (ls_pc s).
    + intros Hpc _. right. unfold reported, doomed in Hr. rewrite Hpc in Hr. tauto.
Qed.

Lemma batch_rest (event : bool) events (m : Z) :
  zlen (event :: events) <= m → zlen events <= m.
Proof. unfold zlen. cbn. lia. Qed.

Lemma filter_wake_tail (events : list bool) :
  NoDup (filter (eq true) (true :: events)) → true ∉ events.
Proof.
  rewrite filter_cons_True by done. intros [Hn _]%NoDup_cons Ht. apply Hn.
  by apply list_elem_of_filter.
Qed.

Lemma filter_other_tail (events : list bool) :
  NoDup (filter (eq true) (false :: events)) → NoDup (filter (eq true) events).
Proof. by rewrite filter_cons_False. Qed.

Lemma handle_wakeup_read_inv events s :
  ls_pc s = PDispatch (true :: events) → loop_inv s → loop_inv (handle_wakeup_read events s).
Proof.
  intros Hpc [He Hc Hb Hr Hp Hq]. unfold handle_wakeup_read.
  destruct (Hb _ Hpc) as [Hlen Hnd].
  destruct (wk_read (ls_wake s)) as [[v| |] k] eqn:Hw; [| |].
  1,2: split; cbn; auto; unfold reported; cbn; rewrite Hpc; [|done|done];
    intros _; right; left; apply elem_of_cons; by left.
  apply read_empty in Hw.
  destruct (quit_ (ls_loop s)) eqn:Hquit; split; cbn; auto; try done; try congruence;
    try (intros; apply Hc; congruence).
  intros ? [= <-]. split; [by eapply batch_rest|].
  rewrite filter_cons_True in Hnd by done. by apply NoDup_cons in Hnd as [_ ?].
Qed.

(** The clauses of the invariant once the place of the loop is known. *)
Ltac pc_cases Hpc :=
  split; cbn; auto; try done; try congruence;
  unfold doomed, reported in *; cbn in *; rewrite ?Hpc in *; cbn in *;
  try done; try congruence; try (intros; intuition congruence).

Lemma writers_grow (i : nat) (ws : gset nat) : {[i]} ∪ ws ≠ ∅.
Proof. set_solver. Qed.

Lemma loop_step_inv a s s' : step a s s' → loop_inv s → loop_inv s'.
Proof.
  destruct 1 as [i f s Hi Hi0|i s Hi Hi0|s Hi Ho|i s Hi|s Hpc|s Hpc|events s Hpc Hne Hlen Hready Hnd
    |events s Hpc Hz|events s Hpc Hz|events s Hpc Hz|s Hpc Hz|s Hpc Hz|f fs s Hpc Hcur Hz|s Hpc Hcur Hz];
    intros Hinv; [| | |by apply wakeup_write_inv| | | | | |by apply handle_wakeup_read_inv| | | |];
    destruct Hinv as [He Hc Hb Hr Hp Hq].
  - pose proof (writers_grow i (ls_writers s)). split; cbn; auto.
  - pose proof (writers_grow i (ls_writers s)). split; cbn; auto.
    intros Hk. destruct (Hr Hk) as [?|[?|[_ ?]]]; [by left|by right; left|right; right; by split].
  - split; cbn; auto.
    + intros Hk. destruct (Hr Hk) as [?|[?|[_ ?]]]; [by left|by right; left|right; right; by split].
    + intros Hpc _. right; right. split; [done|]. cbn. by destruct (ls_pc s).
    + intros Hpc _. by rewrite Hpc in Ho.
  - destruct (quit_ (ls_loop s)) eqn:Hquit; pc_cases Hpc.
  - pc_cases Hpc.
  - destruct (bool_decide_reflect (true ∈ events)) as [Hin|Hin]; pc_cases Hpc.
  - destruct (Hb _ Hpc) as [Hbl%batch_rest Hbn%filter_other_tail].
    destruct (quit_ (ls_loop s)) eqn:Hquit; pc_cases Hpc.
    intros Hk. rewrite elem_of_cons in Hr. intuition congruence.
  - destruct (Hb _ Hpc) as [Hbl%batch_rest Hbn%filter_other_tail]. pc_cases Hpc.
    intros Hk. rewrite elem_of_cons in Hr. intuition congruence.
  - pc_cases Hpc. intros Hk. rewrite elem_of_nil in Hr. tauto.
  - pc_cases Hpc.
  - pc_cases Hpc.
  - pc_cases Hpc.
Qed.

Lemma loop_run_inv tr s s' : run tr s s' → loop_inv s → loop_inv s'.
Proof. induction 1; eauto using loop_step_inv. Qed.

Lemma loop_reachable_inv s : reachable s → loop_inv s.
Proof.
  intros (tr & self & m & e & w & k & Hm & Hk & Hrun).
  eapply loop_run_inv; [exact Hrun|]. by apply LoopState_new_inv.
Qed.

(** ** Order *)

Lemma step_tasks a s s' : step a s s' → loop_inv s → tasks s' = tasks s ++ posted [a].
Proof.
  intros Hstep Hinv.
  assert (Hc := li_current _ Hinv). unfold tasks.
  destruct Hstep; cbn; rewrite ?app_nil_r; try done.
  - by rewrite !app_assoc.
  - unfold wakeup_write. by destruct (wk_write (ls_wake s)) as [[] k].
  - by destruct (bool_decide _).
  - unfold handle_wakeup_read. destruct (wk_read (ls_wake s)) as [[] k]; cbn; by rewrite app_nil_r.
  - by rewrite Hc by congruence.
  - rewrite <-app_assoc. match goal with Hcur : ls_current s = _ |- _ => by rewrite Hcur end.
Qed.

Lemma posted_app (tr tr' : list (actor (F:=F))) : posted (tr ++ tr') = posted tr ++ posted tr'.
Proof. apply omap_app. Qed.

Lemma run_tasks tr s s' : run tr s s' → loop_inv s → tasks s' = tasks s ++ posted tr.
Proof.
  induction 1 as [|tr a s1 s2 s3 Hrun IH Hstep]; intros Hinv; [by rewrite app_nil_r|].
  rewrite (step_tasks _ _ _ Hstep) by eauto using loop_run_inv.
  by rewrite IH, posted_app, app_assoc.
Qed.

(** ** Progress *)

(** As long as there is something to do, the loop thread can move. *)
Lemma loop_enabled s :
  loop_inv s → ls_writers s = ∅ → ls_pc s ≠ PReturned →
  ls_executed s ≠ tasks s ∨ quit_ (ls_loop s) = true →
  ∃ a s', is_loop a = true ∧ step a s s'.
Proof.
  intros Hinv Hw Hret Htodo.
  assert (H0w : 0%nat ∉ ls_writers s) by (rewrite Hw; apply not_elem_of_empty).
  destruct (ls_pc s) as [| |[|[] events]| | |] eqn:Hpc; try done.
  - eexists _, _. split; [|by apply StepTest]. done.
  - eexists _, _. split; [|apply (StepWait [true]); [done|done| |intros _|]]; [done| | |].
    + apply (li_events _ Hinv).
    + assert (Hp := li_pending _ Hinv). assert (Hq := li_quit _ Hinv).
      assert (Hcur := li_current _ Hinv ltac:(congruence)).
      unfold doomed, tasks in *. rewrite Hpc, Hw, Hcur in *. cbn in *.
      destruct Htodo as [Hne|Hqt]; [|by destruct (Hq eq_refl Hqt)].
      destruct (Hp I) as [?|[?|[_ []]]]; [|done|done].
      intros Hpend. apply Hne. by rewrite Hpend, app_nil_r.
    + apply NoDup_singleton.
  - eexists _, _. split; [|by apply StepBatchEnd]. done.
  - eexists _, _. split; [|by apply (StepRead events)]. by destruct (wk_read (ls_wake s)).1.
  - eexists _, _. split; [|by apply (StepCallback events)]. done.
  - eexists _, _. split; [|by apply StepSwap]. done.
  - destruct (ls_current s) as [|f fs] eqn:Hcur.
    + eexists _, _. split; [|by apply StepFunctorsEnd]. done.
    + eexists _, _. split; [|by apply (StepFunctor f fs)]. done.
Qed.

(** A batch may be cut short by [quit_]. *)
Lemma steps_after_event m n e (event : bool) events (b : bool) :
  (steps_at m n e 0 (if b then PSwap else PDispatch events) ≤
   steps_at m n e 0 (PDispatch (event :: events)) - 1)%nat.
Proof. destruct b; unfold steps_at; cbn; repeat case_decide; lia. Qed.

Lemma step_progress a s s' n :
  step a s s' → loop_inv s → (n < length (tasks s))%nat →
  let m := Z.to_nat (max_events_ (ls_loop s)) in
  (steps_to m n s' ≤ steps_to m n s - progress [a])%nat.
Proof.
  intros Hstep Hinv Hn m. assert (Hc := li_current _ Hinv).
  unfold tasks in Hn. rewrite !length_app in Hn. unfold steps_to.
  destruct Hstep as [i f s Hi Hi0|i s Hi Hi0|s Hi Ho|i s Hi|s Hpc|s Hpc|events s Hpc Hne Hlen Hready Hnd
    |events s Hpc Hz|events s Hpc Hz|events s Hpc Hz|s Hpc Hz|s Hpc Hz|f fs s Hpc Hcur Hz|s Hpc Hcur Hz];
    cbn; try lia;
    try (assert (Hcur : ls_current s = []) by (apply Hc; congruence); clear Hc).
  - unfold wakeup_write. destruct (wk_write (ls_wake s)) as [[] k]; cbn; lia.
  - rewrite Hpc, Hcur. unfold steps_at. destruct (quit_ (ls_loop s)); cbn; repeat case_decide; lia.
  - rewrite Hpc, Hcur. unfold steps_at; cbn; repeat case_decide; lia.
  - assert (Hl : (length events ≤ m)%nat) by (unfold zlen in Hlen; lia).
    destruct (bool_decide _); cbn; rewrite Hpc, Hcur; unfold steps_at; cbn; repeat case_decide; lia.
  - rewrite Hpc, Hcur. apply steps_after_event.
  - rewrite Hpc, Hcur. apply (steps_after_event m n _ false events false).
  - unfold handle_wakeup_read. destruct (wk_read (ls_wake s)) as [[v| |] k]; cbn; try lia.
    rewrite Hpc, Hcur. apply steps_after_event.
  - rewrite Hpc, Hcur. unfold steps_at; cbn; repeat case_decide; lia.
  - rewrite Hpc, Hcur in *. cbn in Hn. unfold steps_at; cbn; repeat case_decide; lia.
  - rewrite Hpc, Hcur in *. rewrite length_app. unfold steps_at. cbn. repeat case_decide; lia.
  - rewrite Hpc, Hcur. unfold steps_at; cbn; repeat case_decide; lia.
Qed.

Lemma step_max a s s' : step a s s' → max_events_ (ls_loop s') = max_events_ (ls_loop s).
Proof.
  destruct 1; cbn; try done.
  - unfold wakeup_write. by destruct (wk_write (ls_wake s)) as [[] k].
  - by destruct (bool_decide _).
  - unfold handle_wakeup_read. by destruct (wk_read (ls_wake s)) as [[] k].
Qed.

Lemma progress_app (tr tr' : list (actor (F:=F))) :
  progress (tr ++ tr') = (progress tr + progress tr')%nat.
Proof. unfold progress. by rewrite omap_app, length_app. Qed.

Lemma run_progress tr s s' n :
  run tr s s' → loop_inv s → (n < length (tasks s))%nat →
  let m := Z.to_nat (max_events_ (ls_loop s)) in
  max_events_ (ls_loop s') = max_events_ (ls_loop s) ∧
  (steps_to m n s' ≤ steps_to m n s - progress tr)%nat.
Proof.
  intros Hrun Hinv Hn m. induction Hrun as [s|tr a s1 s2 s3 Hrun IH Hstep]; [split; [done|cbn; lia]|].
  destruct (IH Hinv Hn) as [Hm Hle]. clear IH.
  assert (Hn2 : (n < length (tasks s2))%nat).
  { rewrite (run_tasks _ _ _ Hrun Hinv), length_app. lia. }
  pose proof (step_progress _ _ _ _ Hstep (loop_run_inv _ _ _ Hrun Hinv) Hn2) as Hs. cbn zeta in Hs.
  rewrite Hm in Hs. split; [by rewrite (step_max _ _ _ Hstep)|].
  subst m. rewrite progress_app. lia.
Qed.

(** ** What posting promises *)

(** C20: Tasks run in the order in which they were posted, each once: those executed,
    those taken and those queued are at any time exactly the tasks posted so
    far, whatever the threads do in between. *)
Theorem posted_tasks_in_order tr self m e w k s :
  0 <= m → wk_readable k = false → run tr (LoopState_new self m e w k) s →
  ls_executed s ++ ls_current s ++ pending_functors_ (ls_loop s) = posted tr.
Proof.
  intros Hm Hk Hrun. change (tasks s = posted tr).
  rewrite (run_tasks _ _ _ Hrun) by (by apply LoopState_new_inv).
  unfold LoopState_new, EventLoop_new, add_fd, tasks. cbn. by branches.
Qed.

(** C13: A posted task is never forgotten. In every reachable state with work left
    (a task not executed, or a request to quit), when no thread is in the middle
    of posting, the loop thread can move: it is not left blocked in
    [epoll_wait]. And the task posted as number [n] has been executed, or the
    loop has returned, as soon as the loop thread has advanced [steps_to] times,
    however its steps interleave with those of other threads. *)
Theorem posted_task_runs tr s s' n :
  reachable s → run tr s s' → (n < length (tasks s))%nat →
  (steps_to (Z.to_nat (max_events_ (ls_loop s))) n s ≤ progress tr →
   n < length (ls_executed s') ∨ ls_pc s' = PReturned)%nat ∧
  (ls_writers s' = ∅ → ls_pc s' ≠ PReturned →
   ls_executed s' ≠ tasks s' ∨ quit_ (ls_loop s') = true →
   ∃ a s'', is_loop a = true ∧ step a s' s'').
Proof.
  intros Hs%loop_reachable_inv Hrun Hn. split.
  - intros Hp. destruct (run_progress _ _ _ _ Hrun Hs Hn) as [_ Hle].
    assert (H0s : steps_to (Z.to_nat (max_events_ (ls_loop s))) n s' = 0%nat) by lia.
    unfold steps_to, steps_at in H0s. repeat case_decide; try lia.
    destruct (ls_pc s'); try lia. by right.
  - apply loop_enabled. by eapply loop_run_inv.
Qed.

End wakeup_proofs.

(** ** A concrete descriptor *)

(** A counter and whether a write has not been reported yet. *)
#[export] Instance SimFd : EventFd := {
  wk := N * bool;
  wk_write k := if (k.1 <? 2 ^ 64 - 2)%N then (WroteOne, (k.1 + 1, true)%N) else (WriteFull, k);
  wk_read k := if (k.1 =? 0)%N then (ReadEmpty, k) else (ReadValue (Z.of_N k.1), (0%N, k.2));
  wk_report k := (k.1, false);
  wk_readable k := negb (k.1 =? 0)%N;
  wk_ready k := k.2
}.

#[export] Instance SimFd_laws : EventFdLaws.
Proof.
  split.
  - intros [n r] k'. cbn. destruct (N.ltb_spec n (2 ^ 64 - 2)) as [Hn|Hn]; [|done].
    intros [= <-]. cbn. split; [|done]. apply negb_true_iff, N.eqb_neq. lia.
  - intros [n r] k'. cbn. by destruct (n <? _)%N.
  - intros [n r] k'. cbn. destruct (N.ltb_spec n (2 ^ 64 - 2)) as [Hn|Hn]; [done|].
    intros [= <-]. cbn. split; [done|]. apply negb_true_iff, N.eqb_neq. lia.
  - intros [n r] k'. cbn. destruct (N.eqb_spec n 0) as [->|Hn]; [|done]. by intros [= <-].
  - done.
Qed.

Lemma run_cons {F} a tr (s1 s2 s3 : LoopState F) : step a s1 s2 → run tr s2 s3 → run (a :: tr) s1 s3.
Proof.
  intros Hs Hrun. revert Hs. induction Hrun as [s|tr b s1' s2' s3' Hrun IH Hb]; intros Hs.
  - apply (run_snoc [] a s1 s1 s); [constructor|done].
  - apply (run_snoc (a :: tr) b s1 s2' s3'); [by apply IH|done].
Qed.

(** Thread 1 posts task 7 while the loop is about to wait; the loop is woken,
    drains the descriptor and runs the task. *)
Definition demo_start : LoopState nat := LoopState_new 9 1 3 4 (0%N, false).
Definition demo_posted : LoopState nat :=
  with_writers {[1%nat]} (with_loop (queue_in_loop (Some 7%nat) (ls_loop demo_start)) demo_start).
Definition demo_trace : list (actor (F:=nat)) :=
  [Other; LoopRetry; LoopProgress; LoopRetry; LoopProgress; LoopProgress; LoopProgress; LoopProgress].

Lemma demo_posts : run [Posts 7%nat] demo_start demo_posted.
Proof. eapply run_cons; [|constructor]. by apply (StepPush 1%nat 7%nat demo_start). Qed.

Ltac demo_side := first [by vm_compute | refine (bool_decide_unpack _ _); by vm_compute].

Lemma step_read {F} a events (s : LoopState F) :
  ls_pc s = PDispatch (true :: events) → 0%nat ∉ ls_writers s →
  a = match (wk_read (ls_wake s)).1 with ReadEmpty => LoopProgress | _ => LoopRetry end →
  step a s (handle_wakeup_read events s).
Proof. intros ?? ->. by apply StepRead. Qed.

Lemma demo_runs :
  ∃ s, run demo_trace demo_posted s ∧ ls_executed s = [7%nat] ∧ ls_pc s = PFunctors.
Proof.
  eexists. split.
  - eapply run_cons; [apply (StepWakeup 1%nat); demo_side|].
    eapply run_cons; [apply StepTest; demo_side|].
    eapply run_cons; [apply (StepWait [true]); first [demo_side|done|apply NoDup_singleton]|].
    eapply run_cons; [apply (step_read _ []); demo_side|].
    eapply run_cons; [apply (step_read _ []); demo_side|].
    eapply run_cons; [apply StepBatchEnd; demo_side|].
    eapply run_cons; [apply StepSwap; demo_side|].
    eapply run_cons; [apply (StepFunctor 7%nat []); demo_side|].
    constructor.
  - vm_compute. split; reflexivity.
Qed.

Lemma posted_tasks_in_order_witness :
  ls_executed demo_posted ++ ls_current demo_posted ++ pending_functors_ (ls_loop demo_posted) = [7%nat].
Proof.
  exact (posted_tasks_in_order [Posts 7%nat] 9 1 3 4 (0%N, false) demo_posted
           ltac:(lia) eq_refl demo_posts).
Defined.

Lemma posted_task_runs_witness : ∃ s, run demo_trace demo_posted s ∧ (0 < length (ls_executed s))%nat.
Proof.
  destruct demo_runs as (s & Hrun & Hex & Hpc). exists s. split; [done|].
  assert (Hreach : reachable demo_posted).
  { exists [Posts 7%nat], 9, 1, 3, 4, (0%N, false). split_and!; [lia|done|apply demo_posts]. }
  destruct (posted_task_runs demo_trace demo_posted s 0 Hreach Hrun) as [Hbound _].
  - vm_compute. lia.
  - destruct Hbound as [Hn|Hret]; [|exact Hn|congruence]. vm_compute. lia.
Defined.
