(* ===== verification/EventLoopThreads.v ===== *)
(** [src/src/event_loop_thread.cpp], [src/src/event_loop_thread_pool.cpp]: a
    thread that owns a loop and hands out its address, as a step relation
    between the starting and the started thread; and the pool that starts
    several and deals them out in turn. *)

From S2P Require Import Prelude EventLoop.

(** * One loop thread *)

Module LoopThread.

(** The starter is outside, in the condition wait of [start_loop], or has
    returned a loop; the worker has not been created, is constructing its loop,
    runs it, or is finished. *)
Inductive starter : Type := Outside | Waiting | Returned (result : option Z).
Inductive worker : Type := NotCreated | Constructing | Running (loop : Z) | Finished.

Record EventLoopThread : Type := MkEventLoopThread {
  loop_ : option Z;
  started_ : bool;
  start_failed_ : bool;
  et_starter : starter;
  et_worker : worker
}.

Definition EventLoopThread_new : EventLoopThread :=
  MkEventLoopThread None false false Outside NotCreated.

(** The predicate of the condition wait. *)
Definition start_done (t : EventLoopThread) : bool :=
  bool_decide (is_Some (loop_ t)) || start_failed_ t.

(** [start_loop] up to its wait: refused the second time. *)
Definition start_loop (t : EventLoopThread) : EventLoopThread :=
  if started_ t then MkEventLoopThread (loop_ t) true (start_failed_ t) (Returned None) (et_worker t)
  else MkEventLoopThread (loop_ t) true (start_failed_ t) Waiting Constructing.

(** [start_loop] after its wait; on failure it joins the thread first. *)
Definition start_loop_return (t : EventLoopThread) : EventLoopThread :=
  MkEventLoopThread (loop_ t) (started_ t) (start_failed_ t) (Returned (loop_ t)) (et_worker t).

(** [thread_func], cut at the critical sections; [loop] is the address of its
    local [EventLoop], [None] when that is not valid. *)
Definition thread_publish (loop : option Z) (t : EventLoopThread) : EventLoopThread :=
  match loop with
  | None => MkEventLoopThread (loop_ t) (started_ t) true (et_starter t) Finished
  | Some l => MkEventLoopThread (Some l) (started_ t) (start_failed_ t) (et_starter t) (Running l)
  end.
Definition thread_finish (t : EventLoopThread) : EventLoopThread :=
  MkEventLoopThread None (started_ t) (start_failed_ t) (et_starter t) Finished.

(** The destructor quits the loop it finds, and joins the thread. *)
Definition quit_request (t : EventLoopThread) : option Z := loop_ t.

(** [loop.loop()] returns only in the step [StepFinish]. *)
Inductive step : EventLoopThread → EventLoopThread → Prop :=
| StepStart t : et_starter t ≠ Waiting → step t (start_loop t)
| StepPublish t loop : et_worker t = Constructing → step t (thread_publish loop t)
| StepReturn t :
    et_starter t = Waiting → start_done t = true →
    (start_failed_ t = true → et_worker t = Finished) → step t (start_loop_return t)
| StepFinish t l : et_worker t = Running l → step t (thread_finish t).

Inductive reachable : EventLoopThread → Prop :=
| ReachNew : reachable EventLoopThread_new
| ReachStep t t' : reachable t → step t t' → reachable t'.

End LoopThread.

(** * The pool *)

Module LoopPool.

(** Loops are known by their address; [started_threads] are the threads owned. *)
Record EventLoopThreadPool : Type := MkEventLoopThreadPool {
  base_loop_ : option Z;
  thread_count_ : nat;
  started_ : bool;
  next_ : nat;
  loops_ : list Z
}.

Definition EventLoopThreadPool_new (base_loop : option Z) (thread_count : nat) : EventLoopThreadPool :=
  MkEventLoopThreadPool base_loop thread_count false 0 [].

(** The loop of [start]: thread [i] returns [threads i] from [start_loop]. *)
Fixpoint start_threads (threads : nat → option Z) (count i : nat) : option (list Z) :=
  match count with
  | O => Some []
  | S count =>
      match threads i with
      | None => None
      | Some loop => cons loop <$> start_threads threads count (S i)
      end
  end.

(** [base_valid] and [in_loop]: the two queries to the base loop. *)
Definition start (base_valid in_loop : bool) (threads : nat → option Z) (p : EventLoopThreadPool) :
    bool * EventLoopThreadPool :=
  match base_loop_ p with
  | None => (false, p)
  | Some _ =>
      if negb base_valid then (false, p)
      else if negb in_loop then (false, p)
      else if started_ p then (false, p)
      else match start_threads threads (thread_count_ p) 0 with
      | None => (false, p)
      | Some loops => (true, MkEventLoopThreadPool (base_loop_ p) (thread_count_ p) true 0 loops)
      end
  end.

Definition get_next_loop (in_loop : bool) (p : EventLoopThreadPool) : option Z * EventLoopThreadPool :=
  if negb (started_ p) then (None, p)
  else if negb in_loop then (None, p)
  else match loops_ p with
  | [] => (base_loop_ p, p)
  | _ :: _ =>
      let result := loops_ p !! next_ p in
      let next := S (next_ p) in
      (result, MkEventLoopThreadPool (base_loop_ p) (thread_count_ p) (started_ p)
                 (if (next =? length (loops_ p))%nat then 0%nat else next) (loops_ p))
  end.

Definition started (p : EventLoopThreadPool) : bool := started_ p.
Definition size (p : EventLoopThreadPool) : nat := length (loops_ p).

(** What [n] successive calls of the base thread return. *)
Fixpoint deal (n : nat) (p : EventLoopThreadPool) : list (option Z) :=
  match n with
  | O => []
  | S n => let '(loop, p) := get_next_loop true p in loop :: deal n p
  end.

End LoopPool.

(** * Proofs *)

Section thread_proofs.
Import LoopThread.

Record thread_inv (t : EventLoopThread) : Prop := {
  ti_waiting : et_starter t = Waiting → started_ t = true;
  ti_created : et_worker t ≠ NotCreated ↔ started_ t = true;
  ti_loop : ∀ l, loop_ t = Some l ↔ et_worker t = Running l;
  ti_failed : start_failed_ t = true → et_worker t = Finished ∧ loop_ t = None
}.

Lemma thread_reachable_inv t : reachable t → thread_inv t.
Proof.
  induction 1 as [|t t' Ht [Hw Hc Hl Hf] Hstep]; [by split|].
  destruct Hstep as [t Hs|t loop Hp|t Hs Hd Hj|t l Hr].
  - unfold start_loop. destruct (started_ t) eqn:Hst; split; cbn; try done.
    + intros l. rewrite Hl. destruct (et_worker t) eqn:He; try done.
      assert (false = true) by (apply Hc; congruence). done.
    + intros [Hwk _]%Hf. assert (false = true) by (apply Hc; congruence). done.
  - assert (Hst : started_ t = true) by (apply Hc; congruence).
    assert (Hnf : start_failed_ t = true → False) by (intros [? _]%Hf; congruence).
    destruct loop as [l|]; split; cbn; try done.
    + intros l'. split; congruence.
    + intros l'. rewrite Hl. by rewrite Hp.
    + intros _. split; [done|]. destruct (loop_ t) as [l|]; [|done].
      specialize (Hl l). destruct Hl as [Hl _]. specialize (Hl eq_refl). congruence.
  - by split.
  - assert (Hst : started_ t = true) by (apply Hc; congruence). by split.
Qed.

(** What [start_loop] returns: a loop that its thread is running, or null after
    the thread has reported a failure and ended. *)
Lemma start_loop_result t :
  reachable t → et_starter t = Waiting → start_done t = true →
  match et_starter (start_loop_return t) with
  | Returned (Some l) => et_worker t = Running l
  | Returned None => start_failed_ t = true ∧ et_worker t = Finished
  | _ => False
  end.
Proof.
  intros [Hw Hc Hl Hf]%thread_reachable_inv Hs Hd. cbn. unfold start_done in Hd.
  destruct (loop_ t) as [l|] eqn:He; [by apply Hl|]. cbn in Hd. by destruct (Hf Hd).
Qed.

(** The starter cannot miss the notification: it is enabled as soon as the
    thread has published its loop or its failure. *)
Lemma start_loop_enabled t loop :
  reachable t → et_starter t = Waiting → et_worker t = Constructing →
  ∃ t', step (thread_publish loop t) t' ∧ et_starter t' = Returned loop.
Proof.
  intros [Hw Hc Hl Hf]%thread_reachable_inv Hs Hk.
  exists (start_loop_return (thread_publish loop t)). split.
  - apply StepReturn; destruct loop; try done.
    + unfold start_done. cbn. by rewrite orb_true_r.
    + cbn. intros [Hc' _]%Hf. congruence.
  - destruct loop as [l|]; [done|]. cbn.
    destruct (loop_ t) as [l|]; [|done]. specialize (Hl l). destruct Hl as [Hl _].
    specialize (Hl eq_refl). congruence.
Qed.

(** A loop that returns before the starter has woken up takes its address away
    again, and the starter waits for ever. *)
Lemma early_return_blocks_starter t l :
  reachable t → et_starter t = Waiting → et_worker t = Running l →
  step t (thread_finish t) ∧ ∀ t', ¬ step (thread_finish t) t'.
Proof.
  intros [Hw Hc Hl Hf]%thread_reachable_inv Hs Hr. split; [by eapply StepFinish|].
  assert (Hnf : start_failed_ t = false).
  { destruct (start_failed_ t) eqn:E; [|done]. destruct (Hf eq_refl). congruence. }
  intros t' Hstep. inversion Hstep as [? Hs'|? ? Hp|? Hs' Hd|? ? Hp]; subst; cbn in *;
    unfold start_done in *; cbn in *; congruence.
Qed.

End thread_proofs.

Section pool_proofs.
Import LoopPool.

Lemma start_threads_spec threads count i loops :
  start_threads threads count i = Some loops ↔
  length loops = count ∧ ∀ k, (k < count)%nat → threads (i + k)%nat = loops !! k.
Proof.
  revert i loops. induction count as [|count IH]; intros i loops; cbn.
  - split; [intros [= <-]; split; [done|lia]|]. intros [Hl _]. by destruct loops.
  - destruct (threads i) as [l|] eqn:Ht.
    + rewrite fmap_Some. split.
      * intros (rest & [Hl Hr]%IH & ->). cbn. split; [lia|].
        intros [|k] Hk; [by rewrite Nat.add_0_r|]. cbn. rewrite <-Hr by lia. f_equal. lia.
      * intros [Hl Hr]. destruct loops as [|l' rest]; [done|]. exists rest.
        pose proof (Hr 0%nat ltac:(lia)) as H0. rewrite Nat.add_0_r, Ht in H0. injection H0 as ->.
        split; [|done]. apply IH. split; [cbn in Hl; lia|].
        intros k Hk. specialize (Hr (S k) ltac:(lia)). rewrite <-Nat.add_succ_comm in Hr. exact Hr.
    + split; [done|]. intros [Hl Hr]. pose proof (Hr 0%nat ltac:(lia)) as H0.
      rewrite Nat.add_0_r, Ht in H0. symmetry in H0. apply lookup_ge_None in H0. lia.
Qed.

Lemma deal_from base count next loops n :
  loops ≠ [] → (next < length loops)%nat →
  deal n (MkEventLoopThreadPool base count true next loops) =
    (λ i, loops !! ((next + i) mod length loops)%nat) <$> seq 0 n.
Proof.
  revert next. induction n as [|n IH]; intros next Hne Hlt; [done|].
  destruct loops as [|l rest] eqn:Hloops; [done|]. rewrite <-Hloops in *.
  cbn [deal]. unfold get_next_loop. cbn [started_ loops_ next_ negb]. rewrite Hloops, <-Hloops.
  cbn [seq fmap list_fmap]. rewrite Nat.add_0_r, Nat.mod_small by done. f_equal.
  rewrite <-fmap_S_seq, <-list_fmap_compose. cbn [base_loop_ thread_count_].
  destruct (Nat.eqb_spec (S next) (length loops)) as [He|He].
  - rewrite IH by (done || lia). apply list_fmap_ext. intros _ k _. cbn [compose].
    f_equal. rewrite <-Nat.add_succ_comm, He, Nat.add_0_l.
    by rewrite Nat.Div0.add_mod, Nat.Div0.mod_same, Nat.add_0_l, Nat.Div0.mod_mod.
  - rewrite IH by (done || lia). apply list_fmap_ext. intros _ k _. cbn [compose].
    f_equal. f_equal. lia.
Qed.

(** Starting the pool succeeds exactly when the base loop is usable, the pool
    has not been started and every thread hands out a loop; connections are
    then dealt out in turn: call number [i] returns the loop of thread [i]
    modulo the number of threads, or the base loop when there are none. *)
Theorem pool_deals_in_turn base count base_valid in_loop threads p' :
  let p := EventLoopThreadPool_new base count in
  (start base_valid in_loop threads p = (true, p') ↔
   is_Some base ∧ base_valid = true ∧ in_loop = true ∧
   ∃ loops, p' = MkEventLoopThreadPool base count true 0 loops ∧ length loops = count ∧
     ∀ k, (k < count)%nat → threads k = loops !! k) ∧
  (start base_valid in_loop threads p = (true, p') → ∀ n,
   start base_valid in_loop threads p' = (false, p') ∧
   deal n p' = (λ i, if (count =? 0)%nat then base else threads (i mod count)%nat) <$> seq 0 n).
Proof.
  intros p.
  assert (Hstart : start base_valid in_loop threads p = (true, p') ↔
    is_Some base ∧ base_valid = true ∧ in_loop = true ∧
    ∃ loops, p' = MkEventLoopThreadPool base count true 0 loops ∧
      start_threads threads count 0 = Some loops).
  { unfold start, p. cbn. destruct base as [b|]; [|split; [done|intros [[? ?] _]; done]].
    destruct base_valid, in_loop; cbn; try (split; [done|naive_solver]).
    destruct (start_threads threads count 0) as [loops|]; split; naive_solver. }
  split.
  - rewrite Hstart. setoid_rewrite start_threads_spec. done.
  - intros (Hb & -> & -> & loops & -> & Hs)%Hstart n. split; [by destruct Hb as [? ->]|].
    apply start_threads_spec in Hs as [Hl Hk].
    destruct (Nat.eqb_spec count 0) as [->|Hc].
    + destruct loops; [|done]. clear Hk. generalize 0%nat at 3 as i.
      induction n as [|n IH]; intros i; [done|]. cbn. f_equal. apply IH.
    + rewrite deal_from by (try (intros ->; cbn in Hl); lia).
      apply list_fmap_ext. intros _ i _. cbn. rewrite Hl.
      rewrite <-Hk; [done|]. by apply Nat.mod_upper_bound.
Qed.

Lemma pool_deals_in_turn_witness :
  deal 5 (MkEventLoopThreadPool (Some 1) 2 true 0 [10; 11]) =
    [Some 10; Some 11; Some 10; Some 11; Some 10].
Proof.
  pose (threads := λ i : nat, [10; 11] !! i).
  destruct (pool_deals_in_turn (Some 1) 2 true true threads (MkEventLoopThreadPool (Some 1) 2 true 0 [10; 11]))
    as [_ H].
  destruct (H eq_refl 5%nat) as [_ ->]. reflexivity.
Defined.

End pool_proofs.
