(* ===== verification/Files.v ===== *)
(** The files of the operating system, as the persistence code uses them: an
    interface of system calls with their documented behaviour, programs that
    make system calls one after the other and may be cut off by a crash between
    any two of them, and a small logic for what holds at every such cut. *)

From S2P Require Import Prelude.

(** * The interface *)

Abbreviation path := bytes (only parsing).

(** What a call returns: a result, [EINTR], [ENOENT] or another error. *)
Inductive reply (A : Type) : Type := Done (a : A) | Interrupted | NotFound | Failed.
Arguments Done {A}.
Arguments Interrupted {A}.
Arguments NotFound {A}.
Arguments Failed {A}.

(** [visible d p] is what opening [p] finds; [survives d p r] that a crash now
    may leave [r] under that name. The other predicates describe descriptors:
    open for appending to a file with known contents, open for reading with
    what is left to read, open on a directory. [on_disk d p c]: the contents
    [c] of the file [p] have been flushed. [interruptions] bounds the signals
    still to come before the next call that is not interrupted. *)
Class Files : Type := {
  disk : Type;
  sys_open_write : path → disk → reply Z * disk;
  sys_open_read : path → disk → reply Z * disk;
  sys_open_dir : path → disk → reply Z * disk;
  sys_write : Z → bytes → disk → reply Z * disk;
  sys_read : Z → Z → disk → reply bytes * disk;
  sys_fsync : Z → disk → reply unit * disk;
  sys_close : Z → disk → reply unit * disk;
  sys_rename : path → path → disk → reply unit * disk;
  sys_unlink : path → disk → reply unit * disk;
  visible : disk → path → option bytes;
  survives : disk → path → option bytes → Prop;
  writing : disk → Z → path → bytes → Prop;
  reading : disk → Z → bytes → Prop;
  directory : disk → Z → path → Prop;
  on_disk : disk → path → bytes → Prop;
  interruptions : disk → nat
}.

(** The directory of a path: path resolution of POSIX. *)
Inductive names_in : path → path → Prop :=
| NamesInCwd name : x2f ∉ name → names_in [x2e] name
| NamesInRoot name : x2f ∉ name → names_in [x2f] (x2f :: name)
| NamesIn dir name : dir ≠ [] → x2f ∉ name → names_in dir (dir ++ x2f :: name).

Section laws.
Context `{Files}.

(** Nothing new can be found under the name [q]. *)
Definition same_at (q : path) (d d' : disk) : Prop :=
  visible d' q = visible d q ∧ (∀ r, survives d' q r → survives d q r).
Definition others (p : path) (d d' : disk) : Prop := ∀ q, q ≠ p → same_at q d d'.
Definition quiet (d d' : disk) : Prop :=
  ∀ q, same_at q d d' ∧ (∀ c, on_disk d q c → on_disk d' q c).

(** open(2) with [O_CREAT|O_TRUNC], write(2), fsync(2), close(2), rename(2),
    unlink(2), read(2): a call affects the file it names and no other; rename
    replaces its target atomically, though the change of the directory is
    durable only after the directory has been flushed. *)
Class FilesLaws : Prop := {
  law_open_write p d :
    match sys_open_write p d with
    | (Done fd, d') => 0 <= fd ∧ writing d' fd p [] ∧ others p d d'
    | (_, d') => others p d d'
    end;
  law_write fd p c data d :
    writing d fd p c → data ≠ [] →
    match sys_write fd data d with
    | (Done n, d') => 0 <= n <= zlen data ∧ writing d' fd p (c ++ take (Z.to_nat n) data) ∧ others p d d'
    | (Interrupted, d') => writing d' fd p c ∧ others p d d' ∧ (interruptions d' < interruptions d)%nat
    | (_, d') => writing d' fd p c ∧ others p d d'
    end;
  law_fsync_file fd p c d :
    writing d fd p c →
    match sys_fsync fd d with
    | (Done _, d') => writing d' fd p c ∧ on_disk d' p c ∧ others p d d'
    | (Interrupted, d') => writing d' fd p c ∧ others p d d' ∧ (interruptions d' < interruptions d)%nat
    | (_, d') => writing d' fd p c ∧ others p d d'
    end;
  law_close_file fd p c d :
    writing d fd p c →
    others p d (sys_close fd d).2 ∧ (on_disk d p c → on_disk (sys_close fd d).2 p c);
  law_unlink p d : others p d (sys_unlink p d).2;
  law_rename p q d :
    p ≠ q →
    match sys_rename p q d with
    | (Done _, d') => ∀ c, on_disk d p c →
        on_disk d' q c ∧ visible d' q = Some c ∧ ∀ r, survives d' q r → survives d q r ∨ r = Some c
    | (_, d') => others p d d'
    end;
  law_open_dir p d :
    match sys_open_dir p d with
    | (Done fd, d') => 0 <= fd ∧ directory d' fd p ∧ quiet d d'
    | (_, d') => quiet d d'
    end;
  law_fsync_dir fd p d :
    directory d fd p →
    match sys_fsync fd d with
    | (Done _, d') => directory d' fd p ∧ quiet d d' ∧
        ∀ q c, names_in p q → on_disk d q c → ∀ r, survives d' q r → r = Some c
    | (Interrupted, d') => directory d' fd p ∧ quiet d d' ∧ (interruptions d' < interruptions d)%nat
    | (_, d') => directory d' fd p ∧ quiet d d'
    end;
  law_close_dir fd p d : directory d fd p → quiet d (sys_close fd d).2;
  law_open_read p d :
    match sys_open_read p d with
    | (Done fd, d') => 0 <= fd ∧ quiet d d' ∧ ∃ c, visible d p = Some c ∧ reading d' fd c
    | (NotFound, d') => visible d p = None ∧ quiet d d'
    | (_, d') => quiet d d'
    end;
  law_read fd c k d :
    reading d fd c → 0 < k →
    match sys_read fd k d with
    | (Done chunk, d') => zlen chunk <= k ∧ quiet d d' ∧ (chunk = [] → c = []) ∧
        ∃ rest, c = chunk ++ rest ∧ reading d' fd rest
    | (Interrupted, d') => reading d' fd c ∧ quiet d d' ∧ (interruptions d' < interruptions d)%nat
    | (_, d') => reading d' fd c ∧ quiet d d'
    end;
  law_close_read fd c d : reading d fd c → quiet d (sys_close fd d).2
}.

Lemma same_at_refl q d : same_at q d d.
Proof. by split. Qed.

Lemma same_at_trans q d1 d2 d3 : same_at q d1 d2 → same_at q d2 d3 → same_at q d1 d3.
Proof. intros [Hv Hs] [Hv' Hs']. split; [congruence|auto]. Qed.

Lemma quiet_refl d : quiet d d.
Proof. intros q. split; [apply same_at_refl|done]. Qed.

Lemma quiet_trans d1 d2 d3 : quiet d1 d2 → quiet d2 d3 → quiet d1 d3.
Proof.
  intros H12 H23 q. destruct (H12 q) as [? ?], (H23 q) as [? ?].
  split; [by eapply same_at_trans|auto].
Qed.

End laws.

(** * Programs that make system calls *)

(** A program is given the number of system calls that are made before the
    machine stops. It either returns, with the number of calls left over, or is
    cut off: then the disk is as the last call has left it. *)
Definition Sys `{Files} (A : Type) : Type := nat → disk → option A * (nat * disk).

Section programs.
Context `{Files}.

#[export] Instance Sys_ret : MRet Sys := λ A a n d, (Some a, (n, d)).
#[export] Instance Sys_bind : MBind Sys := λ A B f m n d,
  match m n d with
  | (Some a, (n', d')) => f a n' d'
  | (None, nd) => (None, nd)
  end.
Definition sys {A} (c : disk → A * disk) : Sys A := λ n d,
  match n with
  | O => (None, (0%nat, d))
  | S n => let '(a, d') := c d in (Some a, (n, d'))
  end.

(** [crashes P m I Q]: run from a disk with [P], [m] satisfies [I] wherever it
    is cut off, and [Q] of what it returns. *)
Definition crashes {A} (P : disk → Prop) (m : Sys A) (I : disk → Prop) (Q : A → disk → Prop) : Prop :=
  ∀ n d, P d → I (m n d).2.2 ∧ ∀ a, (m n d).1 = Some a → Q a (m n d).2.2.

(** [m] run from [d] returns [a], having made some number of calls. *)
Definition returns {A} (m : Sys A) (d : disk) (a : A) (d' : disk) : Prop :=
  ∃ n, ∀ k, m (n + k)%nat d = (Some a, (k, d')).

Lemma crashes_ret {A} (a : A) (P I : disk → Prop) Q :
  (∀ d, P d → I d ∧ Q a d) → crashes P (mret a) I Q.
Proof. intros HP n d Hd. cbn. destruct (HP d Hd). split; [done|]. by intros ? [= <-]. Qed.

Lemma crashes_bind {A B} (m : Sys A) (f : A → Sys B) P I Q R :
  crashes P m I Q → (∀ a, crashes (Q a) (f a) I R) → crashes P (m ≫= f) I R.
Proof.
  intros Hm Hf n d Hd. destruct (Hm n d Hd) as [HI HQ].
  unfold mbind, Sys_bind. destruct (m n d) as [[a|] [n' d']]; cbn in *; [|done].
  apply Hf. by apply HQ.
Qed.

Lemma crashes_sys {A} (c : disk → A * disk) (P I : disk → Prop) Q :
  (∀ d, P d → I d ∧ I (c d).2 ∧ Q (c d).1 (c d).2) → crashes P (sys c) I Q.
Proof.
  intros Hc n d Hd. destruct (Hc d Hd) as (HI & HI' & HQ).
  destruct n as [|n]; cbn; [done|]. destruct (c d) as [a d']; cbn in *. split; [done|].
  by intros ? [= <-].
Qed.

Lemma crashes_weaken {A} (m : Sys A) (P P' I I' : disk → Prop) Q Q' :
  crashes P m I Q → (∀ d, P' d → P d) → (∀ d, I d → I' d) → (∀ a d, Q a d → Q' a d) →
  crashes P' m I' Q'.
Proof.
  intros Hm HP HI HQ n d Hd. destruct (Hm n d (HP d Hd)) as [? HQ']. split; [auto|].
  intros a Ha. apply HQ. by apply HQ'.
Qed.

Lemma returns_ret {A} (a : A) d : returns (mret a) d a d.
Proof. by exists 0%nat. Qed.

Lemma returns_bind {A B} (m : Sys A) (f : A → Sys B) d a d1 b d2 :
  returns m d a d1 → returns (f a) d1 b d2 → returns (m ≫= f) d b d2.
Proof.
  intros [n Hm] [k Hf]. exists (n + k)%nat. intros j. unfold mbind, Sys_bind.
  by rewrite <-Nat.add_assoc, Hm, Hf.
Qed.

Lemma returns_sys {A} (c : disk → A * disk) d : returns (sys c) d (c d).1 (c d).2.
Proof. exists 1%nat. intros k. cbn. by destruct (c d). Qed.

(** A program that returns has one outcome. *)
Lemma returns_functional {A} (m : Sys A) d a d1 b d2 : returns m d a d1 → returns m d b d2 → a = b ∧ d1 = d2.
Proof.
  intros [n1 H1] [n2 H2]. specialize (H1 n2). specialize (H2 n1).
  rewrite Nat.add_comm in H2. rewrite H1 in H2. by injection H2.
Qed.

(** What returns satisfies what holds of every run. *)
Lemma crashes_returns {A} (m : Sys A) P I Q d a d' :
  crashes P m I Q → P d → returns m d a d' → I d' ∧ Q a d'.
Proof.
  intros Hm Hd [n Hn]. specialize (Hm (n + 0)%nat d Hd). rewrite Hn in Hm. cbn in Hm.
  destruct Hm as [HI HQ]. by split; [|apply HQ].
Qed.

End programs.
