(* ===== verification/SimFiles.v ===== *)
(** A concrete file system with the behaviour [Files] asks for: it shows that the
    laws can hold, and lets programs be run. It keeps the files under their
    names, what a crash may bring back under a name, which files have been
    flushed, the one open descriptor, and the faults of the next calls. *)

From S2P Require Import Prelude Files.

Inductive fault : Type := NoFault | Signal | Error.
Inductive handle : Type := HWrite (p : bytes) | HRead (rest : bytes) | HDir (p : bytes).

Record SimDisk : Type := MkSimDisk {
  sd_files : gmap bytes bytes;
  sd_lost : gmap bytes (list (option bytes));
  sd_flushed : gset bytes;
  sd_open : option handle;
  sd_faults : list fault
}.

Definition SimDisk_new (files : gmap bytes bytes) (faults : list fault) : SimDisk :=
  MkSimDisk files ∅ ∅ None faults.

(** Every call first meets the next fault. *)
Definition guarded {A} (call : SimDisk → reply A * SimDisk) (d : SimDisk) : reply A * SimDisk :=
  match sd_faults d with
  | [] => call d
  | f :: fs =>
      let d := MkSimDisk (sd_files d) (sd_lost d) (sd_flushed d) (sd_open d) fs in
      match f with NoFault => call d | Signal => (Interrupted, d) | Error => (Failed, d) end
  end.

Definition set_open (h : option handle) (d : SimDisk) : SimDisk :=
  MkSimDisk (sd_files d) (sd_lost d) (sd_flushed d) h (sd_faults d).

Definition sim_open_write (p : bytes) (d : SimDisk) : reply Z * SimDisk :=
  (Done 3, MkSimDisk (<[p:=[]]> (sd_files d)) (sd_lost d) (sd_flushed d ∖ {[p]}) (Some (HWrite p)) (sd_faults d)).
Definition sim_open_read (p : bytes) (d : SimDisk) : reply Z * SimDisk :=
  match sd_files d !! p with
  | None => (NotFound, d)
  | Some c => (Done 3, set_open (Some (HRead c)) d)
  end.
Definition sim_write (fd : Z) (data : bytes) (d : SimDisk) : reply Z * SimDisk :=
  match sd_open d with
  | Some (HWrite p) =>
      (Done (zlen data),
       MkSimDisk (<[p:=default [] (sd_files d !! p) ++ data]> (sd_files d)) (sd_lost d)
         (sd_flushed d ∖ {[p]}) (sd_open d) (sd_faults d))
  | _ => (Failed, d)
  end.
Definition sim_read (fd k : Z) (d : SimDisk) : reply bytes * SimDisk :=
  match sd_open d with
  | Some (HRead rest) =>
      (Done (take (Z.to_nat k) rest), set_open (Some (HRead (drop (Z.to_nat k) rest))) d)
  | _ => (Failed, d)
  end.
Definition sim_fsync (fd : Z) (d : SimDisk) : reply unit * SimDisk :=
  match sd_open d with
  | Some (HWrite p) =>
      (Done tt, MkSimDisk (sd_files d) (sd_lost d) ({[p]} ∪ sd_flushed d) (sd_open d) (sd_faults d))
  | Some (HDir _) => (Done tt, MkSimDisk (sd_files d) ∅ (sd_flushed d) (sd_open d) (sd_faults d))
  | _ => (Failed, d)
  end.
Definition sim_rename (p q : bytes) (d : SimDisk) : reply unit * SimDisk :=
  match sd_files d !! p with
  | None => (NotFound, d)
  | Some c =>
      (Done tt,
       MkSimDisk (<[q:=c]> (delete p (sd_files d)))
         (<[q:=sd_files d !! q :: default [] (sd_lost d !! q)]> (sd_lost d))
         (if bool_decide (p ∈ sd_flushed d) then {[q]} ∪ sd_flushed d else sd_flushed d ∖ {[q]})
         (sd_open d) (sd_faults d))
  end.
Definition sim_unlink (p : bytes) (d : SimDisk) : reply unit * SimDisk :=
  (Done tt, MkSimDisk (delete p (sd_files d)) (sd_lost d) (sd_flushed d) (sd_open d) (sd_faults d)).

#[export] Instance SimFiles : Files := {
  disk := SimDisk;
  sys_open_write p := guarded (sim_open_write p);
  sys_open_read p := guarded (sim_open_read p);
  sys_open_dir p := guarded (λ d, (Done 3, set_open (Some (HDir p)) d));
  sys_write fd data := guarded (sim_write fd data);
  sys_read fd k := guarded (sim_read fd k);
  sys_fsync fd := guarded (sim_fsync fd);
  sys_close fd d := (Done tt, set_open None d);
  sys_rename p q := guarded (sim_rename p q);
  sys_unlink p := guarded (sim_unlink p);
  visible d p := sd_files d !! p;
  survives d p r := r = sd_files d !! p ∨ r ∈ default [] (sd_lost d !! p);
  writing d fd p c := sd_open d = Some (HWrite p) ∧ sd_files d !! p = Some c;
  reading d fd c := sd_open d = Some (HRead c);
  directory d fd p := sd_open d = Some (HDir p);
  on_disk d p c := sd_files d !! p = Some c ∧ p ∈ sd_flushed d;
  interruptions d := length (sd_faults d)
}.

(** ** The laws *)

(** Cases on the next fault: none is left, none now, a signal, an error. *)
Ltac by_fault d := destruct d as [files lost flushed h [|[] faults]]; cbn in *.

#[export] Instance SimFiles_laws : FilesLaws.
Proof.
  split.
  - intros p d. by_fault d; try done.
    all: split_and!; [lia|done|by rewrite lookup_insert_eq|].
    all: intros q Hq; split; cbn; by rewrite lookup_insert_ne.
  - intros fd p c data d [Ho Hf] Hne. by_fault d; subst; [| |split_and!; (done || lia)|done].
    all: unfold sim_write; cbn; rewrite Hf; cbn; split_and!; try (by apply zlen_nonneg); try done.
    all: try (unfold zlen; rewrite lookup_insert_eq, take_ge by lia; done).
    all: intros q Hq; split; cbn; by rewrite lookup_insert_ne.
  - intros fd p c d [Ho Hf]. by_fault d; subst; [| |split_and!; (done || lia)|done].
    all: unfold sim_fsync; cbn; split_and!; try done; set_solver.
  - done.
  - intros p d. by_fault d; try done.
    all: intros q Hq; split; cbn; by rewrite lookup_delete_ne.
  - intros p q d Hpq. by_fault d; try done.
    all: unfold sim_rename; cbn; destruct (files !! p) as [c|] eqn:Hp; [|done]; cbn.
    all: intros c' [[= <-] Hfl]; rewrite !lookup_insert_eq, bool_decide_true by done.
    all: split_and!; [done|set_solver|done|]; cbn; intros r [->|Hr]; [by right|].
    all: apply elem_of_cons in Hr as [->|Hr]; left; [by left|by right].
  - intros p d. by_fault d; try done.
  - intros fd p d Ho. by_fault d; subst; [| |split_and!; (done || lia)|done].
    all: unfold sim_fsync; cbn; split_and!; [done| |].
    1,3: intros q; split; [|done]; split; [done|]; cbn; rewrite lookup_empty; cbn;
      intros r [Hr|Hr]; [by left|by apply elem_of_nil in Hr].
    all: intros q c _ [Hq _] r [->|Hr]; [done|]; rewrite lookup_empty in Hr; by apply elem_of_nil in Hr.
  - done.
  - intros p d. by_fault d; try done.
    all: unfold sim_open_read; cbn; destruct (files !! p) as [c|] eqn:Hp; [|done].
    all: cbn; split_and!; [lia|done|by exists c].
  - intros fd c k d Ho Hk. by_fault d; subst; [| |split_and!; (done || lia)|done].
    all: split_and!; [unfold zlen; rewrite length_take; lia|done| |
      exists (drop (Z.to_nat k) c); by rewrite take_drop].
    all: destruct c; [done|]; destruct (Z.to_nat k) eqn:E; [lia|done].
  - done.
Qed.
