(* ===== verification/CheckpointStore.v ===== *)
(** [src/src/checkpoint_store.cpp]: the file a checkpoint is committed to, and
    the background thread that commits. First the programs that read and write
    the file; then the object, whose critical sections are functions and whose
    threads are a step relation. *)

From S2P Require Import Prelude Checkpoint CheckpointCodec Files.

Module LD.
Inductive Loadstates : Type := success | not_found | invalid_state | io_error | decode_error.

#[global] Instance Loadstates_eq_dec : EqDecision Loadstates.
Proof. solve_decision. Defined.
End LD.

(** * Definitions *)

Definition READ_BUFFER_SIZE : Z := 8192.

(** The bytes after the last slash decide the directory. *)
Fixpoint find_last_of (c : byte) (s : bytes) : option nat :=
  match s with
  | [] => None
  | x :: s =>
      match find_last_of c s with
      | Some i => Some (S i)
      | None => if bool_decide (x = c) then Some 0%nat else None
      end
  end.
Definition parent_directory (p : bytes) : bytes :=
  match find_last_of x2f p with
  | None => [x2e]
  | Some O => [x2f]
  | Some position => take position p
  end.

(** ** Programs *)

Section programs.
Context `{Files}.

Fixpoint write_all (fd : Z) (data : bytes) (offset : nat) (n : nat) (d : disk) :
    option bool * (nat * disk) :=
  if (offset <? length data)%nat then
    match n with
    | O => (None, (0%nat, d))
    | S n =>
        let '(written, d) := sys_write fd (drop offset data) d in
        match written with
        | Done w =>
            if 0 <? w then write_all fd data (offset + Z.to_nat w) n d else (Some false, (n, d))
        | Interrupted => write_all fd data offset n d
        | _ => (Some false, (n, d))
        end
    end
  else (Some true, (n, d)).

Fixpoint sync_fd (fd : Z) (n : nat) (d : disk) : option bool * (nat * disk) :=
  match n with
  | O => (None, (0%nat, d))
  | S n =>
      let '(r, d) := sys_fsync fd d in
      match r with
      | Done _ => (Some true, (n, d))
      | Interrupted => sync_fd fd n d
      | _ => (Some false, (n, d))
      end
  end.

Definition remove_temporary_file (p : bytes) : Sys unit := _ ← sys (sys_unlink p); mret tt.

(** The last part of [commit_checkpoint]: from the rename on. *)
Definition replace_file (p temporary : bytes) : Sys bool :=
  renamed ← sys (sys_rename temporary p);
  match renamed with
  | Done _ =>
      opened ← sys (sys_open_dir (parent_directory p));
      match opened with
      | Done directory_fd =>
          directory_synced ← (sync_fd directory_fd : Sys bool);
          directory_closed ← sys (sys_close directory_fd);
          mret (directory_synced && match directory_closed with Done _ => true | _ => false end)
      | _ => mret false
      end
  | _ => _ ← remove_temporary_file temporary; mret false
  end.

Definition commit_checkpoint (p temporary : bytes) (checkpoint : ServerCheckpoint) : Sys bool :=
  match encode checkpoint with
  | Err _ => mret false
  | Ok data =>
      opened ← sys (sys_open_write temporary);
      match opened with
      | Done fd =>
          written ← (write_all fd data 0 : Sys bool);
          synced ← (if written : bool then sync_fd fd else mret false : Sys bool);
          if negb synced then
            _ ← sys (sys_close fd);
            _ ← remove_temporary_file temporary;
            mret false
          else
            closed ← sys (sys_close fd);
            match closed with
            | Done _ => replace_file p temporary
            | _ => _ ← remove_temporary_file temporary; mret false
            end
      | _ => mret false
      end
  end.

(** The reading loop of [load]. *)
Inductive read_end : Type := ReadAll (data : bytes) | ReadFailed | FileTooLarge.

Fixpoint read_all (fd : Z) (data : bytes) (n : nat) (d : disk) : option read_end * (nat * disk) :=
  match n with
  | O => (None, (0%nat, d))
  | S n =>
      let '(r, d) := sys_read fd READ_BUFFER_SIZE d in
      match r with
      | Done [] => (Some (ReadAll data), (n, d))
      | Done chunk =>
          if (MAX_CHECKPOINT_FILE_SIZE <? zlen chunk)
             || (MAX_CHECKPOINT_FILE_SIZE - zlen chunk <? zlen data)
          then (Some FileTooLarge, (n, d))
          else read_all fd (data ++ chunk) n d
      | Interrupted => read_all fd data n d
      | _ => (Some ReadFailed, (n, d))
      end
  end.

(** [load] after its test of the state: the file at [p]. *)
Definition load_file (p : bytes) : Sys (LD.Loadstates + ServerCheckpoint) :=
  opened ← sys (sys_open_read p);
  match opened with
  | NotFound => mret (inl LD.not_found)
  | Done fd =>
      r ← (read_all fd [] : Sys read_end);
      closed ← sys (sys_close fd);
      match r, closed with
      | ReadFailed, _ => mret (inl LD.io_error)
      | FileTooLarge, Done _ => mret (inl LD.decode_error)
      | ReadAll data, Done _ =>
          match decode data with
          | Ok checkpoint => mret (inr checkpoint)
          | Err _ => mret (inl LD.decode_error)
          end
      | _, _ => mret (inl LD.io_error)
      end
  | _ => mret (inl LD.io_error)
  end.

End programs.

(** ** The object *)

Record CheckpointStore : Type := MkCheckpointStore {
  path_ : bytes;
  temporary_path_ : bytes;
  valid_ : bool;
  started_ : bool;
  stopping_ : bool;
  writing_ : bool;
  pending_checkpoint_ : option ServerCheckpoint;
  last_submitted_generation_ : Z;
  last_committed_generation_ : Z;
  last_failed_generation_ : Z
}.

Record States : Type := MkStates {
  last_submitted_generation : Z;
  last_committed_generation : Z;
  last_failed_generation : Z
}.

(** [".tmp"] *)
Definition TMP : bytes := [x2e; x74; x6d; x70].

Definition CheckpointStore_new (p : bytes) : CheckpointStore :=
  MkCheckpointStore p (p ++ TMP) (negb (bool_decide (p = []))) false false false None 0 0 0.

Definition idle_before_start (s : CheckpointStore) : bool :=
  valid_ s && negb (started_ s) && negb (stopping_ s) && negb (writing_ s)
  && bool_decide (pending_checkpoint_ s = None).

Definition load `{Files} (s : CheckpointStore) : Sys ((LD.Loadstates * option ServerCheckpoint) * CheckpointStore) :=
  if negb (idle_before_start s) then mret ((LD.invalid_state, None), s)
  else
    r ← load_file (path_ s);
    match r with
    | inl e => mret ((e, None), s)
    | inr checkpoint =>
        let g := svc_generation checkpoint in
        mret ((LD.success, Some checkpoint),
              MkCheckpointStore (path_ s) (temporary_path_ s) (valid_ s) (started_ s) (stopping_ s)
                (writing_ s) (pending_checkpoint_ s) g g (last_failed_generation_ s))
    end.

(** [thread_created]: whether [std::thread] could be constructed. *)
Definition start (thread_created : bool) (s : CheckpointStore) : bool * CheckpointStore :=
  if negb (idle_before_start s) then (false, s)
  else if negb thread_created then (false, s)
  else (true, MkCheckpointStore (path_ s) (temporary_path_ s) (valid_ s) true (stopping_ s)
                (writing_ s) (pending_checkpoint_ s) (last_submitted_generation_ s)
                (last_committed_generation_ s) (last_failed_generation_ s)).

(** The critical section of [submit]; on success it notifies the thread. *)
Definition submit (checkpoint : ServerCheckpoint) (s : CheckpointStore) : bool * CheckpointStore :=
  let generation := svc_generation checkpoint in
  if negb (valid_ s) || negb (started_ s) || stopping_ s || (generation =? 0)
     || (generation <=? last_submitted_generation_ s) then (false, s)
  else (true, MkCheckpointStore (path_ s) (temporary_path_ s) (valid_ s) (started_ s) (stopping_ s)
                (writing_ s) (Some checkpoint) generation
                (last_committed_generation_ s) (last_failed_generation_ s)).

(** What [flush] waits for, and what it then returns. *)
Definition idle (s : CheckpointStore) : bool :=
  bool_decide (pending_checkpoint_ s = None) && negb (writing_ s).
Definition all_committed (s : CheckpointStore) : bool :=
  last_submitted_generation_ s =? last_committed_generation_ s.

(** [stop]: without a thread it only answers; otherwise it asks the thread to
    end, joins it, and resets the flags. *)
Definition stop_unstarted (s : CheckpointStore) : bool := valid_ s && all_committed s.
Definition stop_begin (s : CheckpointStore) : CheckpointStore :=
  MkCheckpointStore (path_ s) (temporary_path_ s) (valid_ s) (started_ s) true (writing_ s)
    (pending_checkpoint_ s) (last_submitted_generation_ s) (last_committed_generation_ s)
    (last_failed_generation_ s).
Definition stop_end (s : CheckpointStore) : bool * CheckpointStore :=
  (all_committed s,
   MkCheckpointStore (path_ s) (temporary_path_ s) (valid_ s) false false false
     (pending_checkpoint_ s) (last_submitted_generation_ s) (last_committed_generation_ s)
     (last_failed_generation_ s)).

Definition states (s : CheckpointStore) : States :=
  MkStates (last_submitted_generation_ s) (last_committed_generation_ s) (last_failed_generation_ s).

(** ** The thread *)

(** The critical sections of [thread_main]: its wait predicate, taking the
    pending checkpoint, and recording the outcome. *)
Definition task_ready (s : CheckpointStore) : bool :=
  stopping_ s || negb (bool_decide (pending_checkpoint_ s = None)).
Definition thread_take (s : CheckpointStore) : option (ServerCheckpoint * CheckpointStore) :=
  match pending_checkpoint_ s with
  | None => None
  | Some checkpoint =>
      Some (checkpoint,
            MkCheckpointStore (path_ s) (temporary_path_ s) (valid_ s) (started_ s) (stopping_ s)
              true None (last_submitted_generation_ s) (last_committed_generation_ s)
              (last_failed_generation_ s))
  end.
Definition thread_record (committed : bool) (checkpoint : ServerCheckpoint) (s : CheckpointStore) :
    CheckpointStore :=
  MkCheckpointStore (path_ s) (temporary_path_ s) (valid_ s) (started_ s) (stopping_ s)
    false (pending_checkpoint_ s) (last_submitted_generation_ s)
    (if committed then svc_generation checkpoint else last_committed_generation_ s)
    (if committed then last_failed_generation_ s else svc_generation checkpoint).

(** * Proofs about the programs *)

(** ** The directory of the file *)

Lemma find_last_of_spec c s :
  match find_last_of c s with
  | None => c ∉ s
  | Some i => ∃ l k, s = l ++ c :: k ∧ length l = i ∧ c ∉ k
  end.
Proof.
  induction s as [|x s IH]; cbn; [apply not_elem_of_nil|].
  destruct (find_last_of c s) as [i|].
  - destruct IH as (l & k & -> & <- & Hk). by exists (x :: l), k.
  - case_bool_decide as Hx.
    + subst. by exists [], s.
    + apply not_elem_of_cons. by split.
Qed.

(** The directory that is flushed is the one the file is in. *)
Lemma parent_directory_names p : names_in (parent_directory p) p.
Proof.
  unfold parent_directory. pose proof (find_last_of_spec x2f p) as Hp.
  destruct (find_last_of x2f p) as [i|]; [|by constructor].
  destruct Hp as (l & k & -> & <- & Hk). destruct l as [|x l]; [by constructor|].
  cbn [length]. rewrite take_app_length' by done. by constructor.
Qed.

Lemma temporary_differs p : p ++ TMP ≠ p.
Proof. intros E. apply (f_equal length) in E. rewrite length_app in E. cbn in E. lia. Qed.

(** ** Committing *)

Section commit_proofs.
Context `{FilesLaws}.

Lemma others_trans p d1 d2 d3 : others p d1 d2 → others p d2 d3 → others p d1 d3.
Proof. intros H12 H23 q Hq. eapply same_at_trans; eauto. Qed.

(** Writing and flushing leave every other name alone wherever they stop. *)
Lemma write_all_crashes fd p data offset d0 :
  (offset ≤ length data)%nat →
  crashes (λ d, others p d0 d ∧ writing d fd p (take offset data))
    (write_all fd data offset : Sys bool) (others p d0)
    (λ ok d, others p d0 d ∧ ∃ c, writing d fd p c ∧ (ok = true → c = data)).
Proof.
  intros Hoff n. revert offset Hoff. induction n as [|n IH]; intros offset Hoff d [Ho Hw]; cbn [write_all].
  - destruct (Nat.ltb_spec offset (length data)) as [Hlt|Hge]; cbn; [by split|].
    split; [done|]. intros a [= <-]. split; [done|]. eexists. split; [exact Hw|].
    intros _. by rewrite take_ge.
  - destruct (Nat.ltb_spec offset (length data)) as [Hlt|Hge]; cbn.
    + assert (Hne : drop offset data ≠ []).
      { intros E%(f_equal length). rewrite length_drop in E. cbn in E. lia. }
      pose proof (law_write fd p _ _ d Hw Hne) as Hlaw.
      destruct (sys_write fd (drop offset data) d) as [[w| | |] d']; cbn.
      * destruct Hlaw as (Hr & Hw' & Ho'). unfold zlen in Hr. rewrite length_drop in Hr.
        rewrite take_take_drop in Hw'.
        assert (Ho2 : others p d0 d') by (by eapply others_trans).
        destruct (Z.ltb_spec 0 w) as [Hpos|Hz].
        -- apply IH; [lia|]. by split.
        -- cbn. split; [done|]. intros a [= <-]. split; [done|]. eexists. by split.
      * destruct Hlaw as (Hw' & Ho' & _). apply IH; [done|]. split; [by eapply others_trans|done].
      * destruct Hlaw as (Hw' & Ho'). assert (Ho2 : others p d0 d') by (by eapply others_trans).
        split; [done|]. intros a [= <-]. split; [done|]. eexists. by split.
      * destruct Hlaw as (Hw' & Ho'). assert (Ho2 : others p d0 d') by (by eapply others_trans).
        split; [done|]. intros a [= <-]. split; [done|]. eexists. by split.
    + split; [done|]. intros a [= <-]. split; [done|]. eexists. split; [exact Hw|].
      intros _. by rewrite take_ge.
Qed.

Lemma sync_file_crashes fd p c d0 :
  crashes (λ d, others p d0 d ∧ writing d fd p c) (sync_fd fd : Sys bool) (others p d0)
    (λ ok d, others p d0 d ∧ writing d fd p c ∧ (ok = true → on_disk d p c)).
Proof.
  intros n. induction n as [|n IH]; intros d [Ho Hw]; cbn; [by split|].
  pose proof (law_fsync_file fd p c d Hw) as Hlaw.
  destruct (sys_fsync fd d) as [[[]| | |] d']; cbn.
  - destruct Hlaw as (Hw' & Hd & Ho'). assert (Ho2 : others p d0 d') by (by eapply others_trans).
    split; [done|]. by intros a [= <-].
  - destruct Hlaw as (Hw' & Ho' & _). apply IH. split; [by eapply others_trans|done].
  - destruct Hlaw as (Hw' & Ho'). assert (Ho2 : others p d0 d') by (by eapply others_trans).
    split; [done|]. by intros a [= <-].
  - destruct Hlaw as (Hw' & Ho'). assert (Ho2 : others p d0 d') by (by eapply others_trans).
    split; [done|]. by intros a [= <-].
Qed.

(** What may be found at [p] while [data] is being committed over [d0]. *)
Definition old_or_new (p data : bytes) (d0 d : disk) : Prop :=
  (visible d p = visible d0 p ∨ visible d p = Some data) ∧
  ∀ r, survives d p r → survives d0 p r ∨ r = Some data.
Definition only_new (p data : bytes) (d : disk) : Prop :=
  visible d p = Some data ∧ ∀ r, survives d p r → r = Some data.

Lemma others_old p tmp data d0 d : p ≠ tmp → others tmp d0 d → old_or_new p data d0 d.
Proof. intros Hp Ho. destruct (Ho p Hp) as [Hv Hs]. split; [by left|]. auto. Qed.

Lemma quiet_old p data d0 d d' : old_or_new p data d0 d → quiet d d' → old_or_new p data d0 d'.
Proof.
  intros [Hv Hs] Hq. destruct (Hq p) as [[Hv' Hs'] _].
  split; [by rewrite Hv'|]. auto.
Qed.

Lemma sync_dir_crashes fd p data d0 :
  crashes (λ d, directory d fd (parent_directory p) ∧ on_disk d p data ∧ visible d p = Some data ∧
                old_or_new p data d0 d)
    (sync_fd fd : Sys bool) (old_or_new p data d0)
    (λ ok d, directory d fd (parent_directory p) ∧ old_or_new p data d0 d ∧ (ok = true → only_new p data d)).
Proof.
  intros n. induction n as [|n IH]; intros d (Hdir & Hd & Hv & Hon); cbn; [by split|].
  pose proof (law_fsync_dir fd (parent_directory p) d Hdir) as Hlaw.
  destruct (sys_fsync fd d) as [[[]| | |] d']; cbn.
  - destruct Hlaw as (Hdir' & Hq & Hs). assert (Hon' := quiet_old _ _ _ _ _ Hon Hq).
    split; [done|]. intros a [= <-]. split_and!; [done|done|]. intros _. split.
    + destruct (Hq p) as [[Hv' _] _]. by rewrite Hv'.
    + apply Hs; [apply parent_directory_names|done].
  - destruct Hlaw as (Hdir' & Hq & _). apply IH. destruct (Hq p) as [[Hv' _] Hd'].
    split_and!; [done|by apply Hd'|by rewrite Hv'|by eapply quiet_old].
  - destruct Hlaw as (Hdir' & Hq). assert (Hon' := quiet_old _ _ _ _ _ Hon Hq).
    split; [done|]. by intros a [= <-].
  - destruct Hlaw as (Hdir' & Hq). assert (Hon' := quiet_old _ _ _ _ _ Hon Hq).
    split; [done|]. by intros a [= <-].
Qed.

(** Giving up: the temporary file is removed. *)
Lemma remove_crashes p data d0 :
  crashes (others (p ++ TMP) d0) (_ ← remove_temporary_file (p ++ TMP); mret false)
    (old_or_new p data d0) (λ ok d, old_or_new p data d0 d ∧ (ok = true → only_new p data d)).
Proof.
  assert (Hp : p ≠ p ++ TMP) by (intros E; by apply (temporary_differs p)).
  apply crashes_bind with (Q := λ _, others (p ++ TMP) d0).
  - eapply crashes_bind with (Q := λ _, others (p ++ TMP) d0).
    + apply crashes_sys. intros d Ho. pose proof (law_unlink (p ++ TMP) d).
      split_and!; [| |by eapply others_trans]; apply others_old with (p ++ TMP); try done.
      by eapply others_trans.
    + intros _. apply crashes_ret. intros d Ho. split; [by eapply others_old|done].
  - intros _. apply crashes_ret. intros d Ho. split_and!; [by eapply others_old|by eapply others_old|done].
Qed.

(** After the new file is complete on the disk: rename and flush the directory. *)
Lemma replace_crashes p data d0 :
  crashes (λ d, others (p ++ TMP) d0 d ∧ on_disk d (p ++ TMP) data)
    (replace_file p (p ++ TMP))
    (old_or_new p data d0) (λ ok d, old_or_new p data d0 d ∧ (ok = true → only_new p data d)).
Proof.
  assert (Hp : p ≠ p ++ TMP) by (intros E; by apply (temporary_differs p)). unfold replace_file.
  set (renamed_to d := on_disk d p data ∧ visible d p = Some data ∧ old_or_new p data d0 d).
  assert (Hquiet : ∀ d d', renamed_to d → quiet d d' → renamed_to d').
  { intros d d' (Hd & Hv & Hon) Hq. destruct (Hq p) as [[Hv' _] Hd'].
    split_and!; [by apply Hd'|by rewrite Hv'|by eapply quiet_old]. }
  apply crashes_bind with (Q := λ r d, match r with Done _ => renamed_to d | _ => others (p ++ TMP) d0 d end).
  { apply crashes_sys. intros d [Ho Hd]. split; [by eapply others_old|].
    pose proof (law_rename (p ++ TMP) p d (not_eq_sym Hp)) as Hlaw.
    destruct (sys_rename (p ++ TMP) p d) as [[u| | |] d']; cbn.
    - destruct (Hlaw data Hd) as (Hd' & Hv & Hs).
      assert (old_or_new p data d0 d').
      { split; [by right|]. intros r [Hr| ->]%Hs; [left|by right]. by apply (Ho p Hp). }
      by split.
    - assert (others (p ++ TMP) d0 d') by (by eapply others_trans). split; [by eapply others_old|done].
    - assert (others (p ++ TMP) d0 d') by (by eapply others_trans). split; [by eapply others_old|done].
    - assert (others (p ++ TMP) d0 d') by (by eapply others_trans). split; [by eapply others_old|done]. }
  intros [u| | |]; [|apply remove_crashes..].
  apply crashes_bind with
    (Q := λ r d, renamed_to d ∧ match r with Done fd => directory d fd (parent_directory p) | _ => True end).
  { apply crashes_sys. intros d Hd. pose proof (law_open_dir (parent_directory p) d) as Hlaw.
    destruct (sys_open_dir (parent_directory p) d) as [[fd| | |] d']; cbn.
    - destruct Hlaw as (_ & Hdir & Hq). pose proof (Hquiet _ _ Hd Hq) as Hd'.
      split_and!; [apply Hd|apply Hd'|done|done].
    - pose proof (Hquiet _ _ Hd Hlaw) as Hd'. split_and!; [apply Hd|apply Hd'|done|done].
    - pose proof (Hquiet _ _ Hd Hlaw) as Hd'. split_and!; [apply Hd|apply Hd'|done|done].
    - pose proof (Hquiet _ _ Hd Hlaw) as Hd'. split_and!; [apply Hd|apply Hd'|done|done]. }
  assert (Hfalse : ∀ P : disk → Prop, crashes (λ d, renamed_to d ∧ P d) (mret false)
    (old_or_new p data d0) (λ ok d, old_or_new p data d0 d ∧ (ok = true → only_new p data d))).
  { intros P. apply crashes_ret. intros d [Hd _]. split_and!; [apply Hd|apply Hd|done]. }
  intros [fd| | |]; [|apply Hfalse..].
  eapply crashes_bind.
  { eapply crashes_weaken; [apply (sync_dir_crashes fd p data d0)| |done|done].
    intros d [(Hd & Hv & Hon) Hdir]. by split_and!. }
  intros synced. apply crashes_bind with
    (Q := λ _ d, old_or_new p data d0 d ∧ (synced = true → only_new p data d)).
  - apply crashes_sys. intros d (Hdir & Hon & Hnew). pose proof (law_close_dir fd _ d Hdir) as Hq.
    pose proof (quiet_old _ _ _ _ _ Hon Hq) as Hon'. split_and!; [done|done|done|].
    intros [Hv Hs]%Hnew. destruct (Hq p) as [[Hv' Hs'] _]. split; [by rewrite Hv'|]. auto.
  - intros closed. apply crashes_ret. intros d [Hon Hnew]. split_and!; [done|done|].
    destruct synced; [|done]. intros _. by apply Hnew.
Qed.

(** A commit replaces the file atomically: wherever it is cut off, the file is
    the old one or the complete new one, both for who opens it and after a
    crash; and when it reports success, only the new one is left. *)
Lemma commit_crashes p cp d0 :
  crashes (eq d0) (commit_checkpoint p (p ++ TMP) cp)
    (λ d, d = d0 ∨ ∃ data, encode cp = Ok data ∧ old_or_new p data d0 d)
    (λ ok d, (d = d0 ∨ ∃ data, encode cp = Ok data ∧ old_or_new p data d0 d) ∧
             (ok = true → ∃ data, encode cp = Ok data ∧ only_new p data d)).
Proof.
  assert (Hp : p ≠ p ++ TMP) by (intros E; by apply (temporary_differs p)).
  unfold commit_checkpoint. destruct (encode cp) as [data|e] eqn:He.
  2: { apply crashes_ret. intros d <-. split_and!; [by left|by left|done]. }
  eapply crashes_weaken with (I := old_or_new p data d0)
    (Q := λ ok d, old_or_new p data d0 d ∧ (ok = true → only_new p data d));
    [|intros d Hd; exact Hd|by right; eauto|].
  2: { intros ok d [Hon Hnew]. split; [by right; eauto|]. intros Hok. eauto. }
  set (tmp := p ++ TMP) in *.
  assert (Hold : ∀ d, others tmp d0 d → old_or_new p data d0 d) by (intros d; by apply others_old).
  assert (Hfalse : crashes (others tmp d0) (mret false) (old_or_new p data d0)
    (λ ok d, old_or_new p data d0 d ∧ (ok = true → only_new p data d))).
  { apply crashes_ret. intros d Ho. split_and!; [by apply Hold|by apply Hold|done]. }
  apply crashes_bind with (Q := λ r d, others tmp d0 d ∧
    match r with Done fd => writing d fd tmp [] | _ => True end).
  { apply crashes_sys. intros d <-. pose proof (law_open_write tmp d0) as Hlaw.
    split; [apply Hold; intros q _; apply same_at_refl|].
    destruct (sys_open_write tmp d0) as [[fd| | |] d']; cbn; [|by split; [apply Hold|]..].
    destruct Hlaw as (_ & Hw & Ho). split; [by apply Hold|done]. }
  intros [fd| | |]; [|by eapply crashes_weaken; [apply Hfalse|intros d [? _]|..]..].
  eapply crashes_bind.
  { eapply crashes_weaken; [apply (write_all_crashes fd tmp data 0 d0); lia| |apply Hold|done].
    intros d [Ho Hw]. by split. }
  intros written. cbn beta.
  apply crashes_bind with (Q := λ synced d, others tmp d0 d ∧ ∃ c, writing d fd tmp c ∧
    (synced = true → c = data ∧ on_disk d tmp data)).
  { destruct written.
    - intros n d [Ho (c & Hw & Hc)]. rewrite (Hc eq_refl) in Hw.
      destruct (sync_file_crashes fd tmp data d0 n d (conj Ho Hw)) as [HI HQ]. split; [by apply Hold|].
      intros ok Hok. destruct (HQ ok Hok) as (Ho' & Hw' & Hd). split; [done|]. exists data.
      split; [done|]. intros Ht. split; [done|by apply Hd].
    - apply crashes_ret. intros d [Ho (c & Hw & _)]. split_and!; [by apply Hold|done|].
      exists c. by split. }
  assert (Hclose : ∀ synced d, (others tmp d0 d ∧ ∃ c, writing d fd tmp c ∧
      (synced = true → c = data ∧ on_disk d tmp data)) →
    old_or_new p data d0 d ∧ old_or_new p data d0 (sys_close fd d).2 ∧
    others tmp d0 (sys_close fd d).2 ∧ (synced = true → on_disk (sys_close fd d).2 tmp data)).
  { intros synced d [Ho (c & Hw & Hc)]. destruct (law_close_file fd tmp c d Hw) as [Ho' Hd].
    assert (others tmp d0 (sys_close fd d).2) by (by eapply others_trans).
    split_and!; [by apply Hold|by apply Hold|done|]. intros [-> Hdd]%Hc. by apply Hd. }
  intros synced. destruct synced; cbn [negb].
  - apply crashes_bind with (Q := λ _ d, others tmp d0 d ∧ on_disk d tmp data).
    + apply crashes_sys. intros d Hd. destruct (Hclose true d Hd) as (? & ? & ? & Hon).
      split_and!; [done|done|done|by apply Hon].
    + intros [u| | |]; [apply replace_crashes|..];
        (eapply crashes_weaken; [apply remove_crashes|by intros d [? _]|done|done]).
  - apply crashes_bind with (Q := λ _, others tmp d0).
    + apply crashes_sys. intros d Hd. by destruct (Hclose false d Hd) as (? & ? & ? & _).
    + intros _. apply remove_crashes.
Qed.

(** ** Commits return *)

Lemma write_all_returns fd p data offset c d :
  (offset ≤ length data)%nat → writing d fd p c →
  ∃ ok d', returns (write_all fd data offset : Sys bool) d ok d'.
Proof.
  remember (length data - offset)%nat as left eqn:Hleft.
  remember (interruptions d) as signals eqn:Hsig.
  revert left signals offset c d Hleft Hsig.
  refine (well_founded_induction lt_wf _ _). intros left IHl.
  refine (well_founded_induction lt_wf _ _). intros signals IHs offset c d Hleft Hsig Hoff Hw.
  destruct (Nat.ltb_spec offset (length data)) as [Hlt|Hge].
  - assert (Hne : drop offset data ≠ []).
    { intros E%(f_equal length). rewrite length_drop in E. cbn in E. lia. }
    assert (Hstep : ∀ m ok d', returns m (sys_write fd (drop offset data) d).2 ok d' →
      (∀ n, write_all fd data offset (S n) d = m n (sys_write fd (drop offset data) d).2) →
      ∃ ok d', returns (write_all fd data offset : Sys bool) d ok d').
    { intros m ok d' [n Hn] Hm. exists ok, d', (S n). intros k. cbn [Nat.add].
      by rewrite Hm, Hn. }
    pose proof (law_write fd p c _ d Hw Hne) as Hlaw.
    destruct (sys_write fd (drop offset data) d) as [[w| | |] d1] eqn:Hc; cbn [snd] in *.
    + destruct Hlaw as (Hr & Hw' & _). unfold zlen in Hr. rewrite length_drop in Hr.
      destruct (Z.ltb_spec 0 w) as [Hpos|Hz].
      * destruct (IHl (length data - (offset + Z.to_nat w))%nat ltac:(lia) (interruptions d1)
          (offset + Z.to_nat w)%nat (c ++ take (Z.to_nat w) (drop offset data)) d1
          eq_refl eq_refl ltac:(lia) Hw') as (ok & d' & Hret).
        apply (Hstep _ ok d' Hret). intros n. cbn [write_all]. rewrite (proj2 (Nat.ltb_lt _ _)) by done.
        by rewrite Hc, (proj2 (Z.ltb_lt _ _)) by done.
      * apply (Hstep (mret false) false d1); [apply returns_ret|]. intros n. cbn [write_all].
        rewrite (proj2 (Nat.ltb_lt _ _)) by done. by rewrite Hc, (proj2 (Z.ltb_ge _ _)) by done.
    + destruct Hlaw as (Hw' & _ & Hi). subst signals.
      destruct (IHs (interruptions d1) Hi offset c d1 Hleft eq_refl Hoff Hw') as (ok & d' & Hret).
      apply (Hstep _ ok d' Hret). intros n. cbn [write_all]. rewrite (proj2 (Nat.ltb_lt _ _)) by done. by rewrite Hc.
    + apply (Hstep (mret false) false d1); [apply returns_ret|]. intros n. cbn [write_all].
      rewrite (proj2 (Nat.ltb_lt _ _)) by done. by rewrite Hc.
    + apply (Hstep (mret false) false d1); [apply returns_ret|]. intros n. cbn [write_all].
      rewrite (proj2 (Nat.ltb_lt _ _)) by done. by rewrite Hc.
  - exists true, d, 0%nat. intros k. destruct k; cbn [Nat.add write_all]; by rewrite (proj2 (Nat.ltb_ge _ _)).
Qed.

(** Flushing ends as soon as no signal comes in, whatever is flushed. *)
Lemma sync_fd_returns (open_at : disk → Prop) fd d :
  (∀ d, open_at d → match sys_fsync fd d with
                    | (Interrupted, d') => open_at d' ∧ (interruptions d' < interruptions d)%nat
                    | _ => True
                    end) →
  open_at d → ∃ ok d', returns (sync_fd fd : Sys bool) d ok d'.
Proof.
  intros Hlaw. remember (interruptions d) as signals eqn:Hsig. revert signals d Hsig.
  refine (well_founded_induction lt_wf _ _). intros signals IH d -> Hd.
  pose proof (Hlaw d Hd) as Hr. destruct (sys_fsync fd d) as [[[]| | |] d1] eqn:Hc.
  2: { destruct Hr as [Hd1 Hi]. destruct (IH _ Hi d1 eq_refl Hd1) as (ok & d' & n & Hn).
       exists ok, d', (S n). intros k. cbn. by rewrite Hc, Hn. }
  all: eexists _, _; exists 1%nat; intros k; cbn; by rewrite Hc.
Qed.

Lemma returns_then {A B} (m : Sys A) (f : A → Sys B) d a d1 :
  returns m d a d1 → (∃ b d2, returns (f a) d1 b d2) → ∃ b d2, returns (m ≫= f) d b d2.
Proof. intros Hm (b & d2 & Hf). exists b, d2. by eapply returns_bind. Qed.

Lemma remove_returns p d : ∃ ok d', returns (_ ← remove_temporary_file p; mret false) d ok d'.
Proof.
  eapply returns_then; [eapply returns_bind; [apply returns_sys|apply returns_ret]|].
  eexists _, _. apply returns_ret.
Qed.

Lemma replace_returns p data d0 d :
  others (p ++ TMP) d0 d → on_disk d (p ++ TMP) data →
  ∃ ok d', returns (replace_file p (p ++ TMP)) d ok d'.
Proof.
  intros Ho Hd. unfold replace_file. eapply returns_then; [apply returns_sys|].
  destruct (sys_rename (p ++ TMP) p d) as [[u| | |] d1]; cbn [fst snd]; [|apply remove_returns..].
  eapply returns_then; [apply returns_sys|].
  pose proof (law_open_dir (parent_directory p) d1) as Hlaw.
  destruct (sys_open_dir (parent_directory p) d1) as [[fd| | |] d2]; cbn [fst snd];
    [|by eexists _, _; apply returns_ret..].
  destruct Hlaw as (_ & Hdir & _).
  destruct (sync_fd_returns (λ d, directory d fd (parent_directory p)) fd d2) as (ok & d3 & Hret);
    [|done|].
  { intros d' Hd'. pose proof (law_fsync_dir fd _ d' Hd') as Hl.
    destruct (sys_fsync fd d') as [[]]; tauto. }
  eapply returns_then; [exact Hret|]. eapply returns_then; [apply returns_sys|].
  eexists _, _. apply returns_ret.
Qed.

Lemma commit_returns p cp d : ∃ ok d', returns (commit_checkpoint p (p ++ TMP) cp) d ok d'.
Proof.
  unfold commit_checkpoint. destruct (encode cp) as [data|e]; [|by eexists _, _; apply returns_ret].
  set (tmp := p ++ TMP). eapply returns_then; [apply returns_sys|].
  pose proof (law_open_write tmp d) as Hlaw.
  destruct (sys_open_write tmp d) as [[fd| | |] d1]; cbn [fst snd];
    [|by eexists _, _; apply returns_ret..].
  destruct Hlaw as (_ & Hw & _).
  destruct (write_all_returns fd tmp data 0 [] d1 ltac:(lia) Hw) as (written & d2 & Hwr).
  eapply returns_then; [exact Hwr|]. cbn beta.
  destruct (crashes_returns _ _ _ _ _ _ _ (write_all_crashes fd tmp data 0 d1 ltac:(lia))
    (conj (λ q _, same_at_refl q d1) Hw) Hwr) as (_ & _ & c & Hc & Hcd).
  assert (Hsync : ∃ synced d3, returns (if written : bool then sync_fd fd else mret false : Sys bool) d2 synced d3 ∧
    (synced = true → others tmp d2 d3 ∧ on_disk d3 tmp data ∧ writing d3 fd tmp data)).
  { destruct written; [|by eexists _, _; split; [apply returns_ret|]].
    destruct (sync_fd_returns (λ d, writing d fd tmp c) fd d2) as (ok & d3 & Hret); [|done|].
    { intros d' Hd'. pose proof (law_fsync_file fd _ _ d' Hd') as Hl.
      destruct (sys_fsync fd d') as [[]]; tauto. }
    exists ok, d3. split; [done|]. intros ->. rewrite (Hcd eq_refl) in Hc.
    destruct (crashes_returns _ _ _ _ _ _ _ (sync_file_crashes fd tmp data d2)
      (conj (λ q _, same_at_refl q d2) Hc) Hret) as (_ & Ho & Hw3 & Hd3). auto. }
  destruct Hsync as (synced & d3 & Hs & Hsd). eapply returns_then; [exact Hs|].
  destruct synced; cbn [negb]; (eapply returns_then; [apply returns_sys|]); [|apply remove_returns].
  destruct (Hsd eq_refl) as (Ho & Hd & Hw3). destruct (law_close_file fd tmp data d3 Hw3) as [Ho' Hd'].
  destruct (sys_close fd d3) as [[u| | |] d4]; cbn [fst snd] in *; [|apply remove_returns..].
  apply (replace_returns p data d2 d4); [by eapply others_trans|by apply Hd'].
Qed.

(** ** Loading *)

Lemma read_all_crashes fd content data d0 :
  crashes (λ d, quiet d0 d ∧ ∃ rest, reading d fd rest ∧ content = data ++ rest)
    (read_all fd data : Sys read_end) (quiet d0)
    (λ r d, quiet d0 d ∧ (∃ rest, reading d fd rest) ∧
       match r with
       | ReadAll found => found = content
       | FileTooLarge => MAX_CHECKPOINT_FILE_SIZE < zlen content
       | ReadFailed => True
       end).
Proof.
  intros n. revert data. induction n as [|n IH]; intros data d [Hq (rest & Hr & Hc)]; cbn [read_all];
    [by split|].
  pose proof (law_read fd rest READ_BUFFER_SIZE d Hr eq_refl) as Hlaw.
  destruct (sys_read fd READ_BUFFER_SIZE d) as [[chunk| | |] d']; cbn.
  - destruct Hlaw as (Hlen & Hq' & Hend & rest' & Hrest & Hr').
    assert (Hq2 : quiet d0 d') by (by eapply quiet_trans).
    destruct chunk as [|b chunk].
    + cbn. split; [done|]. intros r [= <-]. split_and!; [done|by eexists|].
      by rewrite Hc, (Hend eq_refl), app_nil_r.
    + destruct (_ || _) eqn:Hbig.
      * cbn. split; [done|]. intros r [= <-]. split_and!; [done|by eexists|].
        rewrite Hc, Hrest, !zlen_app. pose proof (zlen_nonneg rest'). pose proof (zlen_nonneg data).
        apply orb_true_iff in Hbig as [Hb|Hb]; apply Z.ltb_lt in Hb; lia.
      * apply IH. split; [done|]. exists rest'. split; [done|]. by rewrite Hc, Hrest, app_assoc.
  - destruct Hlaw as (Hr' & Hq' & _). apply IH. split; [by eapply quiet_trans|by exists rest].
  - destruct Hlaw as (Hr' & Hq'). assert (quiet d0 d') by (by eapply quiet_trans).
    split; [done|]. intros r [= <-]. split_and!; [done|by eexists|done].
  - destruct Hlaw as (Hr' & Hq'). assert (quiet d0 d') by (by eapply quiet_trans).
    split; [done|]. intros r [= <-]. split_and!; [done|by eexists|done].
Qed.

Lemma read_all_returns fd rest data d :
  reading d fd rest → ∃ r d', returns (read_all fd data : Sys read_end) d r d'.
Proof.
  remember (length rest) as left eqn:Hleft. remember (interruptions d) as signals eqn:Hsig.
  revert left signals rest data d Hleft Hsig.
  refine (well_founded_induction lt_wf _ _). intros left IHl.
  refine (well_founded_induction lt_wf _ _). intros signals IHs rest data d Hleft Hsig Hr.
  assert (Hstep : ∀ m r d', returns m (sys_read fd READ_BUFFER_SIZE d).2 r d' →
    (∀ n, read_all fd data (S n) d = m n (sys_read fd READ_BUFFER_SIZE d).2) →
    ∃ r d', returns (read_all fd data : Sys read_end) d r d').
  { intros m r d' [n Hn] Hm. exists r, d', (S n). intros k. cbn [Nat.add]. by rewrite Hm, Hn. }
  pose proof (law_read fd rest READ_BUFFER_SIZE d Hr eq_refl) as Hlaw.
  destruct (sys_read fd READ_BUFFER_SIZE d) as [[chunk| | |] d1] eqn:Hc; cbn [snd] in *.
  - destruct Hlaw as (_ & _ & _ & rest' & Hrest & Hr').
    destruct chunk as [|b chunk].
    + apply (Hstep (mret (ReadAll data)) (ReadAll data) d1); [apply returns_ret|].
      intros n. cbn [read_all]. by rewrite Hc.
    + destruct ((MAX_CHECKPOINT_FILE_SIZE <? zlen (b :: chunk)) ||
        (MAX_CHECKPOINT_FILE_SIZE - zlen (b :: chunk) <? zlen data)) eqn:Hbig.
      * apply (Hstep (mret FileTooLarge) FileTooLarge d1); [apply returns_ret|].
        intros n. cbn [read_all]. by rewrite Hc, Hbig.
      * destruct (IHl (length rest') ltac:(subst; rewrite length_app; cbn; lia) (interruptions d1)
          rest' (data ++ b :: chunk) d1 eq_refl eq_refl Hr') as (r & d' & Hret).
        apply (Hstep _ r d' Hret). intros n. cbn [read_all]. by rewrite Hc, Hbig.
  - destruct Hlaw as (Hr' & _ & Hi). subst signals.
    destruct (IHs _ Hi rest data d1 Hleft eq_refl Hr') as (r & d' & Hret).
    apply (Hstep _ r d' Hret). intros n. cbn [read_all]. by rewrite Hc.
  - apply (Hstep (mret ReadFailed) ReadFailed d1); [apply returns_ret|].
    intros n. cbn [read_all]. by rewrite Hc.
  - apply (Hstep (mret ReadFailed) ReadFailed d1); [apply returns_ret|].
    intros n. cbn [read_all]. by rewrite Hc.
Qed.

Lemma decode_too_large data :
  MAX_CHECKPOINT_FILE_SIZE < zlen data → decode data = Err CK.too_large.
Proof. intros Hl. unfold decode. by rewrite (proj2 (Z.ltb_lt _ _) Hl). Qed.

(** What [load] makes of the file it finds. *)
Definition load_ok (p : bytes) (d : disk) (r : LD.Loadstates + ServerCheckpoint) : Prop :=
  match r with
  | inr cp => ∃ data, visible d p = Some data ∧ decode data = Ok cp
  | inl LD.not_found => visible d p = None
  | inl LD.decode_error => ∃ data e, visible d p = Some data ∧ decode data = Err e
  | inl LD.io_error => True
  | inl _ => False
  end.

Lemma load_file_outcome p d :
  ∃ r d', returns (load_file p) d r d' ∧ quiet d d' ∧ load_ok p d r.
Proof.
  unfold load_file. pose proof (law_open_read p d) as Hlaw.
  assert (Hret : ∀ (f : reply Z → Sys (LD.Loadstates + ServerCheckpoint)),
    (∃ r d', returns (f (sys_open_read p d).1) (sys_open_read p d).2 r d' ∧ quiet d d' ∧ load_ok p d r) →
    ∃ r d', returns (sys (sys_open_read p) ≫= f) d r d' ∧ quiet d d' ∧ load_ok p d r).
  { intros f (r & d' & Hf & Hq). exists r, d'. split; [|done].
    eapply returns_bind; [apply returns_sys|exact Hf]. }
  apply Hret. destruct (sys_open_read p d) as [[fd| | |] d1]; cbn [fst snd].
  2,4: by eexists _, _; split; [apply returns_ret|].
  2: by destruct Hlaw; eexists _, _; split; [apply returns_ret|].
  destruct Hlaw as (_ & Hq1 & content & Hv & Hr).
  destruct (read_all_returns fd content [] d1 Hr) as (r & d2 & Hread).
  destruct (crashes_returns _ _ _ _ _ _ _ (read_all_crashes fd content [] d1)
    (conj (quiet_refl d1) (ex_intro _ content (conj Hr eq_refl))) Hread) as (_ & Hq2 & [rest Hr2] & Hres).
  pose proof (law_close_read fd rest d2 Hr2) as Hq3.
  assert (Hq : quiet d (sys_close fd d2).2) by (eapply quiet_trans; [exact Hq1|by eapply quiet_trans]).
  eexists _, _. split.
  { eapply returns_bind; [exact Hread|]. eapply returns_bind; [apply returns_sys|].
    instantiate (2 := match r, (sys_close fd d2).1 with
      | ReadFailed, _ => inl LD.io_error
      | FileTooLarge, Done _ => inl LD.decode_error
      | ReadAll data, Done _ =>
          match decode data with Ok checkpoint => inr checkpoint | Err _ => inl LD.decode_error end
      | _, _ => inl LD.io_error
      end). destruct r, ((sys_close fd d2).1); try apply returns_ret.
    destruct (decode data); apply returns_ret. }
  split; [exact Hq|]. destruct r as [data| |]; [|done|].
  - subst data. destruct ((sys_close fd d2).1); [|done..].
    destruct (decode content) as [cp|e] eqn:E; [by exists content|by exists content, e].
  - destruct ((sys_close fd d2).1); [|done..]. exists content, CK.too_large. split; [done|].
    by apply decode_too_large.
Qed.

End commit_proofs.
