(* ===== verification/StoreThreads.v ===== *)
(** [src/src/checkpoint_store.cpp]: the threads of a checkpoint store. Clients
    submit, flush and stop while the background thread commits; condition
    variables are modelled with their sleepers, so that a lost notification
    would be a thread that sleeps for ever. Shown: what a crash can leave of the
    file at any moment, what a successful flush guarantees, and that the
    background thread always gets its work done. *)

From S2P Require Import Prelude Checkpoint CheckpointCodec Files SimFiles CheckpointStore.
From stdpp Require Import relations.
Open Scope Z_scope.

(** * Definitions *)

Section threads.
Context `{Files}.

(** Where the background thread is: not created; about to test its wait
    predicate; asleep; committing; about to record the outcome; about to notify
    the flushers; having left its loop; ended. *)
Inductive worker : Type :=
| WAbsent
| WTest
| WAsleep
| WCommit (checkpoint : ServerCheckpoint)
| WRecord (checkpoint : ServerCheckpoint) (committed : bool)
| WNotify
| WLeaving
| WEnded.

(** [ss_notifying] counts the clients between their critical section and
    [task_condition_.notify_one]; [ss_flushers] are the threads asleep in
    [flush]; [ss_accepted] are the checkpoints for which [submit] returned true. *)
Record StoreState : Type := MkStoreState {
  ss_store : CheckpointStore;
  ss_disk : disk;
  ss_worker : worker;
  ss_notifying : nat;
  ss_flushers : gset nat;
  ss_accepted : list ServerCheckpoint
}.
Implicit Types (s : StoreState).

Definition on_store (st : CheckpointStore) s : StoreState :=
  MkStoreState st (ss_disk s) (ss_worker s) (ss_notifying s) (ss_flushers s) (ss_accepted s).
Definition on_disk_now (d : disk) s : StoreState :=
  MkStoreState (ss_store s) d (ss_worker s) (ss_notifying s) (ss_flushers s) (ss_accepted s).
Definition on_worker (w : worker) s : StoreState :=
  MkStoreState (ss_store s) (ss_disk s) w (ss_notifying s) (ss_flushers s) (ss_accepted s).
Definition on_notifying (n : nat) s : StoreState :=
  MkStoreState (ss_store s) (ss_disk s) (ss_worker s) n (ss_flushers s) (ss_accepted s).
Definition on_flushers (f : gset nat) s : StoreState :=
  MkStoreState (ss_store s) (ss_disk s) (ss_worker s) (ss_notifying s) f (ss_accepted s).
Definition on_accepted (l : list ServerCheckpoint) s : StoreState :=
  MkStoreState (ss_store s) (ss_disk s) (ss_worker s) (ss_notifying s) (ss_flushers s) l.

(** A notification wakes the sleeping thread, which tests its predicate again. *)
Definition wake_worker s : StoreState :=
  match ss_worker s with WAsleep => on_worker WTest s | _ => s end.

(** [thread_main]'s wait: sleep, leave the loop, or take the checkpoint. *)
Definition worker_test s : StoreState :=
  if negb (task_ready (ss_store s)) then on_worker WAsleep s
  else match thread_take (ss_store s) with
  | None => on_worker WLeaving s
  | Some (checkpoint, st) => on_worker (WCommit checkpoint) (on_store st s)
  end.

(** Steps of the clients and of the background thread. *)
Inductive client_step : StoreState → StoreState → Prop :=
| ClientStart s st :
    start true (ss_store s) = (true, st) → client_step s (on_worker WTest (on_store st s))
| ClientSubmit checkpoint s st :
    submit checkpoint (ss_store s) = (true, st) →
    client_step s (on_notifying (S (ss_notifying s))
      (on_accepted (ss_accepted s ++ [checkpoint]) (on_store st s)))
| ClientSleep i s :
    i ∉ ss_flushers s → valid_ (ss_store s) = true → idle (ss_store s) = false →
    client_step s (on_flushers ({[i]} ∪ ss_flushers s) s)
| ClientStop s :
    started_ (ss_store s) = true →
    client_step s (on_notifying (S (ss_notifying s)) (on_store (stop_begin (ss_store s)) s))
| ClientJoin s :
    ss_worker s = WEnded →
    client_step s (on_flushers ∅ (on_worker WAbsent (on_store (stop_end (ss_store s)).2 s))).

Inductive worker_step : StoreState → StoreState → Prop :=
| WorkerNotified s n :
    ss_notifying s = S n → worker_step s (wake_worker (on_notifying n s))
| WorkerTest s :
    ss_worker s = WTest → worker_step s (worker_test s)
| WorkerCommit checkpoint ok d s :
    ss_worker s = WCommit checkpoint →
    returns (commit_checkpoint (path_ (ss_store s)) (temporary_path_ (ss_store s)) checkpoint) (ss_disk s) ok d →
    worker_step s (on_worker (WRecord checkpoint ok) (on_disk_now d s))
| WorkerRecord checkpoint ok s :
    ss_worker s = WRecord checkpoint ok →
    worker_step s (on_worker WNotify (on_store (thread_record ok checkpoint (ss_store s)) s))
| WorkerNotify s :
    ss_worker s = WNotify → worker_step s (on_flushers ∅ (on_worker WTest s))
| WorkerLeave s :
    ss_worker s = WLeaving → worker_step s (on_flushers ∅ (on_worker WEnded s)).

(** A store that has been constructed and has perhaps loaded a file. *)
Definition store_at (p : bytes) (generation : Z) : CheckpointStore :=
  MkCheckpointStore p (p ++ TMP) (negb (bool_decide (p = []))) false false false None generation generation 0.
Definition StoreState_new (p : bytes) (generation : Z) (d : disk) : StoreState :=
  MkStoreState (store_at p generation) d WAbsent 0 ∅ [].

Definition store_step s s' : Prop := client_step s s' ∨ worker_step s s'.

(** The disk if the machine stops now: as it is, or in the middle of a commit. *)
Definition crash_disk s (d : disk) : Prop :=
  d = ss_disk s ∨
  ∃ checkpoint n, ss_worker s = WCommit checkpoint ∧
    d = (commit_checkpoint (path_ (ss_store s)) (temporary_path_ (ss_store s)) checkpoint n (ss_disk s)).2.2.

End threads.

(** * Proofs *)

Section threads_proofs.
Context `{FilesLaws}.
Context (p : bytes) (generation : Z) (d0 : disk).
Implicit Types (s : StoreState).

(** What may be found under the name of the file: what was there in the
    beginning, as long as nothing has been committed; or a complete accepted
    checkpoint no older than the last one committed. *)
Definition found_ok (accepted : list ServerCheckpoint) (committed : Z) (initial : Prop) (r : option bytes) : Prop :=
  (committed = generation ∧ initial) ∨
  ∃ c data, c ∈ accepted ∧ encode c = Ok data ∧ r = Some data ∧ committed <= svc_generation c.
Definition disk_ok (accepted : list ServerCheckpoint) (committed : Z) (d : disk) : Prop :=
  found_ok accepted committed (visible d p = visible d0 p) (visible d p) ∧
  ∀ r, survives d p r → found_ok accepted committed (survives d0 p r) r.

(** The checkpoint being committed, if any. *)
Definition in_work (w : worker) : option ServerCheckpoint :=
  match w with WCommit c | WRecord c _ => Some c | _ => None end.

Record store_inv s : Prop := {
  st_path : path_ (ss_store s) = p ∧ temporary_path_ (ss_store s) = p ++ TMP;
  st_accepted : ∀ c, c ∈ ss_accepted s → generation < svc_generation c <= last_submitted_generation_ (ss_store s);
  st_last : match last (ss_accepted s) with
            | Some c => svc_generation c = last_submitted_generation_ (ss_store s)
            | None => last_submitted_generation_ (ss_store s) = generation
            end;
  st_unique : ∀ c c', c ∈ ss_accepted s → c' ∈ ss_accepted s → svc_generation c = svc_generation c' → c = c';
  st_committed : generation <= last_committed_generation_ (ss_store s) <= last_submitted_generation_ (ss_store s);
  st_pending : ∀ c, pending_checkpoint_ (ss_store s) = Some c →
    c ∈ ss_accepted s ∧ svc_generation c = last_submitted_generation_ (ss_store s) ∧
    last_committed_generation_ (ss_store s) < svc_generation c;
  st_working : ∀ c, in_work (ss_worker s) = Some c →
    c ∈ ss_accepted s ∧ last_committed_generation_ (ss_store s) < svc_generation c ∧
    ∀ c', pending_checkpoint_ (ss_store s) = Some c' → svc_generation c < svc_generation c';
  st_disk : disk_ok (ss_accepted s) (last_committed_generation_ (ss_store s)) (ss_disk s);
  st_recorded : ∀ c, ss_worker s = WRecord c true → ∃ data, encode c = Ok data ∧ only_new p data (ss_disk s);
  st_writing : writing_ (ss_store s) = bool_decide (is_Some (in_work (ss_worker s)));
  st_started : started_ (ss_store s) = negb (match ss_worker s with WAbsent => true | _ => false end);
  st_stopping : stopping_ (ss_store s) = true → started_ (ss_store s) = true;
  st_ended : ss_worker s = WLeaving ∨ ss_worker s = WEnded →
    stopping_ (ss_store s) = true ∧ pending_checkpoint_ (ss_store s) = None;
  st_unstarted : ss_worker s = WAbsent → pending_checkpoint_ (ss_store s) = None;
  st_asleep : ss_worker s = WAsleep → task_ready (ss_store s) = true → (0 < ss_notifying s)%nat;
  st_flushers : ss_flushers s ≠ ∅ →
    idle (ss_store s) = false ∨ ss_worker s = WNotify
}.

Lemma found_weaken l l' committed initial r :
  l ⊆ l' → found_ok l committed initial r → found_ok l' committed initial r.
Proof. intros Hl [Hi|(c & data & Hc & Hr)]; [by left|right]. exists c, data. split; [by apply Hl|done]. Qed.

Lemma disk_weaken l l' committed d : l ⊆ l' → disk_ok l committed d → disk_ok l' committed d.
Proof. intros Hl [Hv Hs]. split; [by eapply found_weaken|]. intros r Hr. eapply found_weaken; eauto. Qed.

(** While a newer checkpoint is being committed. *)
Lemma disk_commit l committed d d' c data :
  c ∈ l → committed < svc_generation c → encode c = Ok data →
  disk_ok l committed d → old_or_new p data d d' → disk_ok l committed d'.
Proof.
  intros Hc Hg He [Hv Hs] [Hv' Hs'].
  assert (Hnew : ∀ P, found_ok l committed P (Some data)).
  { intros P. right. exists c, data. split_and!; [done|done|done|lia]. }
  split.
  - destruct Hv' as [E|E]; rewrite E; [done|apply Hnew].
  - intros r Hr. destruct (Hs' r Hr) as [Hold| ->]; [by apply Hs|apply Hnew].
Qed.

(** After it has been committed. *)
Lemma disk_committed l d c data :
  c ∈ l → encode c = Ok data → only_new p data d → disk_ok l (svc_generation c) d.
Proof.
  intros Hc He [Hv Hs].
  assert (Hnew : ∀ P, found_ok l (svc_generation c) P (Some data)).
  { intros P. right. by exists c, data. }
  split; [rewrite Hv; apply Hnew|]. intros r ->%Hs. apply Hnew.
Qed.

Lemma StoreState_new_inv : store_inv (StoreState_new p generation d0).
Proof.
  split; cbn; try done; try lia; try (intros; set_solver).
  split; [by left|]. intros r Hr. by left.
Qed.

Lemma submit_success cp st st' :
  submit cp st = (true, st') →
  started_ st = true ∧ stopping_ st = false ∧ last_submitted_generation_ st < svc_generation cp ∧
  st' = MkCheckpointStore (path_ st) (temporary_path_ st) (valid_ st) (started_ st) (stopping_ st)
          (writing_ st) (Some cp) (svc_generation cp) (last_committed_generation_ st)
          (last_failed_generation_ st).
Proof. unfold submit. intros Hs. branches_in Hs. to_prop. split_and!; (done || lia). Qed.

Lemma start_success st st' :
  start true st = (true, st') →
  started_ st = false ∧ stopping_ st = false ∧ writing_ st = false ∧ pending_checkpoint_ st = None ∧
  st' = MkCheckpointStore (path_ st) (temporary_path_ st) (valid_ st) true (stopping_ st)
          (writing_ st) (pending_checkpoint_ st) (last_submitted_generation_ st)
          (last_committed_generation_ st) (last_failed_generation_ st).
Proof. unfold start, idle_before_start. intros Hs. branches_in Hs. to_prop. by split_and!. Qed.

Lemma absent_unstarted s : store_inv s → started_ (ss_store s) = false → ss_worker s = WAbsent.
Proof. intros Hi Hs. pose proof (st_started _ Hi) as E. rewrite Hs in E. by destruct (ss_worker s). Qed.

Lemma client_step_inv s s' : client_step s s' → store_inv s → store_inv s'.
Proof.
  intros Hstep Hi. pose proof (absent_unstarted s Hi) as Habs.
  destruct Hi as [Hp Hacc Hlast Huniq Hcom Hpend Hwork Hdisk Hrec Hwr Hst Hstop Hend Hun Hsl Hfl].
  destruct Hstep as [s st Hs|cp s st Hs|i s Hi Hv Hidle|s Hs|s Hs].
  - apply start_success in Hs as (Hs & Hns & Hnw & Hnp & ->). specialize (Habs Hs). rewrite Habs in *.
    split; cbn; try done; try (by intros [?|?]); try congruence.
    intros Hf. destruct (Hfl Hf) as [E|?]; [|done]. unfold idle in *. left. exact E.
  - apply submit_success in Hs as (Hs & Hns & Hg & ->).
    assert (Hnew : ∀ c, c ∈ ss_accepted s → svc_generation c < svc_generation cp).
    { intros c Hc%Hacc. lia. }
    assert (Hgen : generation <= last_submitted_generation_ (ss_store s)) by lia.
    split; cbn; try done.
    + intros c [Hc| ->%list_elem_of_singleton]%elem_of_app; [|lia]. pose proof (Hacc c Hc). lia.
    + by rewrite last_snoc.
    + intros c c' [Hc| ->%list_elem_of_singleton]%elem_of_app [Hc'| ->%list_elem_of_singleton]%elem_of_app E;
        try done; [by apply Huniq| |]; [pose proof (Hnew c Hc)|pose proof (Hnew c' Hc')]; lia.
    + lia.
    + intros c [= <-]. split_and!; [apply elem_of_app; right; by apply list_elem_of_singleton|done|lia].
    + intros c Hc. destruct (Hwork c Hc) as (Hin & Hlt & _).
      split_and!; [apply elem_of_app; by left|done|]. intros c' [= <-]. by apply Hnew.
    + eapply disk_weaken; [|exact Hdisk]. apply list_subseteq_app_l. reflexivity.
    + intros Hw. destruct (Hend Hw). congruence.
    + intros Hw. rewrite Hst, Hw in Hs. done.
    + intros. lia.
    + intros Hf. left. done.
  - split; cbn; try done. intros _. by left.
  - split; cbn; try done.
    + intros Hw. by destruct (Hend Hw).
    + intros. lia.
  - rewrite Hs in *. destruct (Hend (or_intror eq_refl)) as [Hst' Hp'].
    split; cbn; try done; try (by intros [?|?]).
Qed.

Lemma worker_test_inv s : ss_worker s = WTest → store_inv s → store_inv (worker_test s).
Proof.
  intros Hw [Hp Hacc Hlast Huniq Hcom Hpend Hwork Hdisk Hrec Hwr Hst Hstop Hend Hun Hsl Hfl].
  unfold worker_test, thread_take. rewrite Hw in *.
  destruct (task_ready (ss_store s)) eqn:Hready; cbn [negb].
  - destruct (pending_checkpoint_ (ss_store s)) as [c|] eqn:Hc.
    + split; cbn; try done; try (by intros [?|?]); try congruence.
      * intros c' [= <-]. destruct (Hpend c eq_refl) as (? & ? & ?). by split_and!.
      * intros Hf. by left.
    + unfold task_ready in Hready. rewrite Hc in Hready. cbn in Hready. rewrite orb_false_r in Hready.
      split; cbn; try done; try congruence.
      intros Hf. destruct (Hfl Hf) as [E|?]; [|done]. by left.
  - split; cbn; try done; try (by intros [?|?]); try congruence.
    intros Hf. destruct (Hfl Hf) as [E|?]; [|done]. by left.
Qed.

Lemma worker_step_inv s s' : worker_step s s' → store_inv s → store_inv s'.
Proof.
  intros Hstep Hi. destruct Hstep as [s n Hn|s Hw|c ok d s Hw Hret|c ok s Hw|s Hw|s Hw];
    [|by apply worker_test_inv| | | |];
    destruct Hi as [Hp Hacc Hlast Huniq Hcom Hpend Hwork Hdisk Hrec Hwr Hst Hstop Hend Hun Hsl Hfl].
  - unfold wake_worker. cbn. destruct (ss_worker s) eqn:Hw; split; cbn; rewrite ?Hw in *; try done;
      try (by intros [?|?]); try congruence.
    intros Hf. destruct (Hfl Hf) as [E|?]; [by left|done].
  - destruct Hp as [Hp1 Hp2]. rewrite Hp1, Hp2 in Hret. rewrite Hw in *.
    destruct (Hwork c eq_refl) as (Hin & Hlt & Hnext).
    destruct (crashes_returns _ _ _ _ _ _ _ (commit_crashes p c (ss_disk s)) eq_refl Hret) as [Hon [_ Hnew]].
    split; cbn; try done; try (by intros [?|?]); try congruence.
    + destruct Hon as [->|(data & He & Hon)]; [done|]. by eapply disk_commit.
    + intros c' [= <- ->]. by apply Hnew.
    + intros Hf. destruct (Hfl Hf) as [E|?]; [by left|done].
  - rewrite Hw in *. destruct (Hwork c eq_refl) as (Hin & Hlt & Hnext).
    pose proof (Hacc c Hin) as Hc.
    split; cbn; try done; try (by intros [?|?]); try congruence.
    + destruct ok; lia.
    + intros c' Hc'. destruct (Hpend c' Hc') as (? & ? & ?). pose proof (Hnext c' Hc').
      split_and!; [done|done|]. destruct ok; lia.
    + destruct ok; [|done]. destruct (Hrec c eq_refl) as (data & He & Hnew).
      by eapply disk_committed.
    + intros _. by right.
  - rewrite Hw in *. split; cbn; try done; try (by intros [?|?]); try congruence.
  - rewrite Hw in *. split; cbn; try done; try (by intros [?|?]); try congruence.
    intros _. by apply Hend; left.
Qed.

Lemma store_steps_inv s s' : rtc store_step s s' → store_inv s → store_inv s'.
Proof.
  induction 1 as [|s1 s2 s3 [Hs|Hs] _ IH]; [done|..]; intros Hi; apply IH;
    [by eapply client_step_inv|by eapply worker_step_inv].
Qed.

Lemma reachable_store_inv s : rtc store_step (StoreState_new p generation d0) s → store_inv s.
Proof. intros Hr. eapply store_steps_inv; [exact Hr|]. apply StoreState_new_inv. Qed.

(** What a crash leaves, also in the middle of a commit. *)
Lemma crash_disk_ok s d :
  store_inv s → crash_disk s d →
  disk_ok (ss_accepted s) (last_committed_generation_ (ss_store s)) d.
Proof.
  intros Hi [->|(c & n & Hw & ->)]; [apply (st_disk _ Hi)|].
  destruct (st_path _ Hi) as [-> ->]. pose proof (st_disk _ Hi) as Hd.
  destruct (st_working _ Hi c ltac:(by rewrite Hw)) as (Hin & Hlt & _).
  destruct (commit_crashes p c (ss_disk s) n (ss_disk s) eq_refl) as [[->|(data & He & Hon)] _]; [done|].
  by eapply disk_commit.
Qed.

(** C12: Whatever the threads have done and wherever the machine stops, between two
    system calls or in the middle of a commit, the file found afterwards is
    either the one from before, if no commit has succeeded since, or a complete
    accepted checkpoint at least as new as the last one reported as committed:
    it is never a partial file and a committed checkpoint is never lost. *)
Theorem crash_keeps_committed s d r :
  rtc store_step (StoreState_new p generation d0) s → crash_disk s d → survives d p r →
  (last_committed_generation_ (ss_store s) = generation ∧ survives d0 p r) ∨
  ∃ c data, c ∈ ss_accepted s ∧ encode c = Ok data ∧ r = Some data ∧
    last_committed_generation_ (ss_store s) <= svc_generation c <= last_submitted_generation_ (ss_store s).
Proof.
  intros Hi%reachable_store_inv Hc Hr.
  destruct (crash_disk_ok s d Hi Hc) as [_ [Hinit|(c & data & Hin & He & -> & Hg)]%(λ H, H r Hr)]; [by left|].
  right. exists c, data. destruct (st_accepted _ Hi c Hin). split_and!; (done || lia).
Qed.

Lemma durable_when_idle s c :
  store_inv s → idle (ss_store s) = true → all_committed (ss_store s) = true → last (ss_accepted s) = Some c →
  ∃ data, encode c = Ok data ∧ visible (ss_disk s) p = Some data ∧
    ∀ r, survives (ss_disk s) p r → r = Some data.
Proof.
  intros Hi Hidle Hall Hlast.
  apply Z.eqb_eq in Hall. pose proof (st_last _ Hi) as Hg. rewrite Hlast in Hg.
  assert (Hin : c ∈ ss_accepted s) by (by apply last_Some_elem_of).
  destruct (st_accepted _ Hi c Hin) as [Hgen _].
  assert (Honly : ∀ P r, found_ok (ss_accepted s) (last_committed_generation_ (ss_store s)) P r →
    ∃ data, encode c = Ok data ∧ r = Some data).
  { intros P r [[Hc _]|(c' & data & Hin' & He & -> & Hc)]; [lia|].
    destruct (st_accepted _ Hi c' Hin') as [_ Hle].
    assert (c' = c) as -> by (apply (st_unique _ Hi); [done|done|lia]). by exists data. }
  destruct (st_disk _ Hi) as [Hv Hs]. destruct (Honly _ _ Hv) as (data & He & Hd).
  exists data. split_and!; [done|done|]. intros r Hr.
  destruct (Honly _ _ (Hs r Hr)) as (data' & He' & ->). congruence.
Qed.

(** C21: When [flush] finds the thread idle and returns true, the last accepted
    checkpoint is safe: the file holds exactly its encoding, and no crash can
    bring anything else back. *)
Theorem flush_is_durable s c :
  rtc store_step (StoreState_new p generation d0) s →
  idle (ss_store s) = true → all_committed (ss_store s) = true → last (ss_accepted s) = Some c →
  ∃ data, encode c = Ok data ∧ visible (ss_disk s) p = Some data ∧
    ∀ r, survives (ss_disk s) p r → r = Some data.
Proof. intros Hi%reachable_store_inv. by apply durable_when_idle. Qed.

(** ** The work gets done *)

Definition worker_left (w : worker) : nat :=
  match w with
  | WAbsent | WAsleep | WEnded => 0 | WLeaving => 2 | WTest => 3
  | WNotify => 4 | WRecord _ _ => 5 | WCommit _ => 6
  end.
Definition work_left s : nat :=
  (4 * ss_notifying s + (match pending_checkpoint_ (ss_store s) with Some _ => 8 | None => 0 end) + worker_left (ss_worker s))%nat.

Lemma worker_step_less s s' : worker_step s s' → (work_left s' < work_left s)%nat.
Proof.
  destruct 1 as [s n Hn|s Hw|c ok d s Hw Hret|c ok s Hw|s Hw|s Hw]; unfold work_left.
  - unfold wake_worker. cbn. rewrite Hn. destruct (ss_worker s) eqn:Hw; cbn; rewrite ?Hw; cbn;
      destruct (pending_checkpoint_ _); lia.
  - unfold worker_test, thread_take. destruct (task_ready (ss_store s)); cbn; rewrite Hw; cbn;
      destruct (pending_checkpoint_ (ss_store s)) eqn:Hp; cbn; rewrite ?Hp; lia.
  - cbn. rewrite Hw. cbn. lia.
  - cbn. rewrite Hw. cbn. lia.
  - cbn. rewrite Hw. cbn. lia.
  - cbn. rewrite Hw. cbn. lia.
Qed.

Lemma worker_steps_end s : sn worker_step s.
Proof. apply (measure_ends _ work_left), worker_step_less. Qed.

Lemma worker_stuck s :
  store_inv s → ss_worker s ≠ WAbsent → nf worker_step s →
  ss_notifying s = 0%nat ∧ idle (ss_store s) = true ∧ ss_flushers s = ∅ ∧
  ss_worker s = (if stopping_ (ss_store s) then WEnded else WAsleep).
Proof.
  intros Hi Hw Hnf.
  assert (Hn : ss_notifying s = 0%nat).
  { destruct (ss_notifying s) as [|n] eqn:Hn; [done|]. destruct Hnf. eexists. by apply (WorkerNotified s n). }
  assert (Hfl : idle (ss_store s) = true → ss_worker s ≠ WNotify → ss_flushers s = ∅).
  { intros Hidle Hnw. destruct (decide (ss_flushers s = ∅)) as [|Hne]; [done|].
    destruct (st_flushers _ Hi Hne); congruence. }
  pose proof (st_writing _ Hi) as Hwr. unfold idle in *.
  destruct (ss_worker s) as [| | |c|c ok| | |] eqn:E; try done.
  - destruct Hnf. eexists. by apply WorkerTest.
  - assert (Hr : task_ready (ss_store s) = false).
    { destruct (task_ready (ss_store s)) eqn:Hr; [|done]. pose proof (st_asleep _ Hi E Hr). lia. }
    unfold task_ready in Hr. apply orb_false_iff in Hr as [Hst Hp%negb_false_iff].
    rewrite Hp, Hwr, Hst in *. by split_and!; [| |apply Hfl|].
  - destruct (st_path _ Hi) as [Hp1 Hp2].
    destruct (commit_returns p c (ss_disk s)) as (ok & d & Hret). destruct Hnf. eexists.
    apply (WorkerCommit c ok d s E). by rewrite Hp1, Hp2.
  - destruct Hnf. eexists. by apply (WorkerRecord c ok).
  - destruct Hnf. eexists. by apply WorkerNotify.
  - destruct Hnf. eexists. by apply WorkerLeave.
  - destruct (st_ended _ Hi (or_intror E)) as [-> Hp].
    rewrite bool_decide_true, Hwr in * by done. by split_and!; [| |apply Hfl|].
Qed.

(** C19: A store that has been started never stalls: in any reachable state the
    outstanding notifications and the background thread can only make finitely
    many steps on their own, and when they cannot make another, no notification
    is pending, everything submitted has been taken and its outcome recorded, no
    thread is left asleep in [flush], and the background thread has ended if it
    was asked to stop, and sleeps otherwise. So [flush] and [stop] return. *)
Theorem store_never_stalls s :
  rtc store_step (StoreState_new p generation d0) s → ss_worker s ≠ WAbsent →
  sn worker_step s ∧
  ∀ s', rtc worker_step s s' → nf worker_step s' →
    ss_notifying s' = 0%nat ∧ idle (ss_store s') = true ∧ ss_flushers s' = ∅ ∧
    ss_worker s' = (if stopping_ (ss_store s') then WEnded else WAsleep).
Proof.
  intros Hi%reachable_store_inv Hw. split; [apply worker_steps_end|].
  intros s' Hs Hnf. apply worker_stuck; [| |done].
  - eapply store_steps_inv; [|exact Hi]. eapply rtc_subrel; [|exact Hs]. by right.
  - clear Hnf Hi. induction Hs as [s|s1 s2 s3 Hs _ IH]; [done|]. apply IH.
    destruct Hs; cbn; try done.
    + unfold wake_worker. cbn. destruct (ss_worker s) eqn:E; cbn; congruence.
    + unfold worker_test. destruct (task_ready _); cbn; [|done].
      by destruct (thread_take _) as [[? ?]|].
Qed.

End threads_proofs.

(** ** A concrete run *)

Definition demo_path : bytes := [x61].
Definition demo_checkpoint : ServerCheckpoint := MkServerCheckpoint 1 [] [].
Definition demo_disk : disk := SimDisk_new ∅ [NoFault; Signal].

(** Start, submit, and the background thread takes, commits and records. *)
Definition demo_new : StoreState := StoreState_new demo_path 0 demo_disk.
Definition demo_started : StoreState := on_worker WTest (on_store (start true (ss_store demo_new)).2 demo_new).
Definition demo_submitted : StoreState :=
  on_notifying 1 (on_accepted [demo_checkpoint]
    (on_store (submit demo_checkpoint (ss_store demo_started)).2 demo_started)).
Definition demo_taken : StoreState := worker_test demo_submitted.
Definition demo_commit (n : nat) : option bool * (nat * disk) :=
  commit_checkpoint demo_path (demo_path ++ TMP) demo_checkpoint n demo_disk.
Definition demo_written : StoreState :=
  on_worker (WRecord demo_checkpoint true) (on_disk_now (demo_commit 9).2.2 demo_taken).
Definition demo_recorded : StoreState :=
  on_worker WNotify (on_store (thread_record true demo_checkpoint (ss_store demo_written)) demo_written).

Lemma demo_reaches_submitted : rtc store_step demo_new demo_submitted.
Proof.
  apply (rtc_l _ demo_new demo_started).
  { left. apply (ClientStart demo_new). by vm_compute. }
  apply rtc_once. left. apply (ClientSubmit demo_checkpoint demo_started). by vm_compute.
Qed.

Lemma demo_reaches_taken : rtc store_step demo_new demo_taken.
Proof.
  eapply rtc_r; [exact demo_reaches_submitted|]. right. by apply (WorkerTest demo_submitted).
Qed.

Lemma demo_reaches_recorded : rtc store_step demo_new demo_recorded.
Proof.
  eapply rtc_trans; [exact demo_reaches_taken|].
  eapply rtc_l.
  { right. apply (WorkerCommit demo_checkpoint true (demo_commit 9).2.2 demo_taken); [reflexivity|].
    exists 9%nat. intros k. vm_compute. reflexivity. }
  apply rtc_once. right. by apply (WorkerRecord demo_checkpoint true demo_written).
Qed.

(** The machine stops between the rename and the flush of the directory. *)
Lemma crash_keeps_committed_witness :
  let d := (demo_commit 6).2.2 in
  visible d demo_path ≠ None ∧ survives d demo_path None ∧
  ((last_committed_generation_ (ss_store demo_taken) = 0 ∧ survives demo_disk demo_path None) ∨
   ∃ c data, c ∈ ss_accepted demo_taken ∧ encode c = Ok data ∧ None = Some data ∧
     last_committed_generation_ (ss_store demo_taken) <= svc_generation c
       <= last_submitted_generation_ (ss_store demo_taken)).
Proof.
  intros d.
  assert (Hs : survives d demo_path None) by (right; apply (bool_decide_unpack _); by vm_compute).
  split; [by vm_compute|]. split; [exact Hs|].
  apply (crash_keeps_committed demo_path 0 demo_disk demo_taken d None demo_reaches_taken); [|exact Hs].
  right. exists demo_checkpoint, 6%nat. split; [reflexivity|]. reflexivity.
Defined.

Lemma flush_is_durable_witness :
  ∃ data, encode demo_checkpoint = Ok data ∧ visible (ss_disk demo_recorded) demo_path = Some data ∧
    ∀ r, survives (ss_disk demo_recorded) demo_path r → r = Some data.
Proof.
  apply (flush_is_durable demo_path 0 demo_disk demo_recorded demo_checkpoint demo_reaches_recorded);
    by vm_compute.
Defined.

Lemma store_never_stalls_witness :
  sn worker_step demo_submitted ∧
  ∀ s', rtc worker_step demo_submitted s' → nf worker_step s' →
    ss_notifying s' = 0%nat ∧ idle (ss_store s') = true ∧ ss_flushers s' = ∅ ∧
    ss_worker s' = (if stopping_ (ss_store s') then WEnded else WAsleep).
Proof.
  by apply (store_never_stalls demo_path 0 demo_disk demo_submitted); [apply demo_reaches_submitted|].
Defined.
