(* ===== verification/TickTimer.v ===== *)
(** [src/src/tick_timer.cpp]: a periodic timer whose descriptor is registered
    with a loop while it runs. The loop is passed in and out; results of system
    calls are arguments, a list of reads that runs out standing for [EAGAIN]. *)

From S2P Require Import Prelude Connection EventLoop.

Module TS.
Inductive States : Type := stopped | running.

#[global] Instance States_eq_dec : EqDecision States.
Proof. solve_decision. Defined.
End TS.

(** * Definitions *)

(** [has_loop_] and [has_callback_]: the pointer and the function are set. *)
Record TickTimer : Type := MkTickTimer {
  has_loop_ : bool;
  timer_fd_ : Z;
  interval_ms_ : Z;
  has_callback_ : bool;
  timer_state_ : TS.States
}.

Inductive timer_read : Type :=
| Expired (count : Z)
| TimerEintr
| TimerAgain
| TimerError.

Definition set_timer_state (s : TS.States) (t : TickTimer) : TickTimer :=
  MkTickTimer (has_loop_ t) (timer_fd_ t) (interval_ms_ t) (has_callback_ t) s.
Definition close_timer (t : TickTimer) : TickTimer :=
  MkTickTimer (has_loop_ t) (-1) (interval_ms_ t) (has_callback_ t) (timer_state_ t).

(** [it_interval] as seconds and nanoseconds. *)
Definition timer_interval (interval_ms : Z) : Z * Z :=
  (interval_ms / 1000, interval_ms mod 1000 * 1000000).

(** [expirations] is a 64-bit sum. *)
Fixpoint read_expirations_loop (reads : list timer_read) (expirations : Z) : bool * Z :=
  match reads with
  | [] => (true, expirations)
  | Expired value :: reads => read_expirations_loop reads (wrap64 (expirations + value))
  | TimerEintr :: reads => read_expirations_loop reads expirations
  | TimerAgain :: _ => (true, expirations)
  | TimerError :: _ => (false, expirations)
  end.
Definition read_expirations (reads : list timer_read) : bool * Z := read_expirations_loop reads 0.

Section tick_timer.
Context {CB F : Type}.
Implicit Types (l : EventLoop CB F) (t : TickTimer).

(** [fd]: what [timerfd_create] returns, when it is called. *)
Definition TickTimer_new (loop : option (EventLoop CB F)) (interval_ms : Z) (has_callback : bool) (fd : Z) :
    TickTimer :=
  let t := MkTickTimer (bool_decide (is_Some loop)) (-1) interval_ms has_callback TS.stopped in
  match loop with
  | None => t
  | Some l =>
      if negb (valid l) || (interval_ms =? 0) || negb has_callback then t
      else MkTickTimer true fd interval_ms has_callback TS.stopped
  end.

Definition timer_valid l t : bool :=
  if negb (has_loop_ t) || negb (valid l) || negb (has_callback_ t) then false
  else (0 <? interval_ms_ t) && negb (timer_fd_ t =? -1).

(** [armed], [disarmed]: the outcomes of the two [timerfd_settime]; [callback] is
    the closure that calls [handle_read]. *)
Definition timer_start (self : Z) (callback : CB) (armed ctl disarmed : bool) (reads : list timer_read)
    t l : bool * TickTimer * EventLoop CB F :=
  if bool_decide (timer_state_ t = TS.running) then (false, t, l)
  else if negb (has_loop_ t) || negb (has_callback_ t) || negb (is_in_loop_thread self l) then (false, t, l)
  else if negb armed then (false, t, l)
  else
    let '(added, l) := add_fd self (timer_fd_ t) (Some callback) ctl l in
    if negb added then
      if negb disarmed || negb (read_expirations reads).1 then (false, close_timer t, l)
      else (false, t, l)
    else (true, set_timer_state TS.running t, l).

Definition timer_stop (self : Z) (ctl disarmed : bool) (reads : list timer_read) t l :
    bool * TickTimer * EventLoop CB F :=
  if negb (has_loop_ t) || negb (is_in_loop_thread self l) then (false, t, l)
  else if bool_decide (timer_state_ t = TS.stopped) then (true, t, l)
  else
    let '(removed, l) := remove_fd self (timer_fd_ t) ctl l in
    if negb removed then (false, t, l)
    else if negb disarmed then (false, set_timer_state TS.stopped (close_timer t), l)
    else if negb (read_expirations reads).1 then (false, set_timer_state TS.stopped (close_timer t), l)
    else (true, set_timer_state TS.stopped t, l).

(** The destructor. *)
Definition timer_destroy (self : Z) (ctl disarmed : bool) (reads : list timer_read) t l :
    TickTimer * EventLoop CB F :=
  let '(t, l) :=
    if bool_decide (timer_state_ t = TS.running)
    then let '(_, t, l) := timer_stop self ctl disarmed reads t l in (t, l) else (t, l) in
  (if negb (timer_fd_ t =? -1) then close_timer t else t, l).

(** The expirations the tick callback is called with, if it is. *)
Definition timer_handle_read (events : Z) (reads : list timer_read) t : option Z :=
  if negb (bool_decide (timer_state_ t = TS.running)) || negb (has events EPOLLIN) then None
  else
    let '(ok, expirations) := read_expirations reads in
    if negb ok then None
    else if (0 <? expirations) && has_callback_ t then Some expirations else None.

End tick_timer.

(** What the owner of a timer may do with it, with the answers of the system. *)
Inductive timer_op : Type :=
| TStart (armed ctl disarmed : bool) (reads : list timer_read)
| TStop (ctl disarmed : bool) (reads : list timer_read).

Definition apply_timer_op {CB F} (self : Z) (callback : CB) (op : timer_op) (s : TickTimer * EventLoop CB F) :
    TickTimer * EventLoop CB F :=
  match op with
  | TStart armed ctl disarmed reads =>
      let '(_, t, l) := timer_start self callback armed ctl disarmed reads s.1 s.2 in (t, l)
  | TStop ctl disarmed reads =>
      let '(_, t, l) := timer_stop self ctl disarmed reads s.1 s.2 in (t, l)
  end.
Definition run_timer {CB F} (self : Z) (callback : CB) (ops : list timer_op) (s : TickTimer * EventLoop CB F) :=
  foldl (λ s op, apply_timer_op self callback op s) s ops.

(** * Proofs *)

(** The interval is a valid [timespec] of exactly that length, never zero. *)
Lemma timer_interval_spec ms :
  u64_range ms → 0 < ms →
  let '(sec, nsec) := timer_interval ms in
  0 <= sec < 2 ^ 63 ∧ 0 <= nsec < 1000000000 ∧ sec * 1000000000 + nsec = ms * 1000000 ∧
  (sec, nsec) ≠ (0, 0).
Proof.
  unfold timer_interval, u64_range. intros Hr Hp.
  pose proof (Z.div_mod ms 1000 ltac:(lia)). pose proof (Z.mod_pos_bound ms 1000 ltac:(lia)).
  split_and!; [by apply Z.div_pos; lia|apply Z.div_lt_upper_bound; lia|lia|lia|lia|].
  intros [= ? ?]. lia.
Qed.

(** The counts that are read before the descriptor is drained. *)
Fixpoint expirations_of (reads : list timer_read) : list Z :=
  match reads with
  | Expired value :: reads => value :: expirations_of reads
  | TimerEintr :: reads => expirations_of reads
  | _ => []
  end.

Lemma read_expirations_sum reads e :
  0 <= e < 2 ^ 64 →
  (read_expirations_loop reads e).2 = (e + foldr Z.add 0 (expirations_of reads)) mod 2 ^ 64.
Proof.
  revert e. induction reads as [|[v| | |] reads IH]; intros e He; cbn -[Z.pow];
    rewrite ?Z.add_0_r, ?Z.mod_small by done; auto.
  unfold wrap64. rewrite IH by (by apply Z.mod_pos_bound).
  rewrite Zplus_mod_idemp_l. f_equal. lia.
Qed.

(** What starting and stopping do to the loop. *)
Lemma timer_start_outcome {CB F} self callback armed ctl disarmed reads t (l : EventLoop CB F) ok t' l' :
  timer_start self callback armed ctl disarmed reads t l = (ok, t', l') →
  if ok then timer_state_ t = TS.stopped ∧ t' = set_timer_state TS.running t ∧
             0 <= timer_fd_ t ∧ callbacks_ l !! timer_fd_ t = None ∧
             l' = set_callbacks (<[timer_fd_ t:=callback]> (callbacks_ l)) l
  else l' = l ∧ (t' = t ∨ timer_state_ t = TS.stopped ∧ t' = close_timer t).
Proof.
  unfold timer_start. case_bool_decide as Hr; [intros [= <- <- <-]; by split; [|left]|].
  assert (Hs : timer_state_ t = TS.stopped) by (by destruct (timer_state_ t)).
  destruct (_ || _ || _); [intros [= <- <- <-]; by split; [|left]|].
  destruct armed; cbn [negb]; [|intros [= <- <- <-]; by split; [|left]].
  destruct (add_fd _ _ _ _ _) as [[] l1] eqn:Ha; cbn [negb].
  - intros [= <- <- <-]. by apply add_fd_success in Ha as (cb & [= <-] & _ & Hf & _ & Hn & _ & ->).
  - apply add_fd_failure in Ha as ->. destruct (_ || _); intros [= <- <- <-]; (split; [done|]); by auto.
Qed.

Lemma timer_stop_outcome {CB F} self ctl disarmed reads t (l : EventLoop CB F) ok t' l' :
  timer_stop self ctl disarmed reads t l = (ok, t', l') →
  (ok = true → timer_state_ t' = TS.stopped) ∧
  (t' = t ∧ l' = l ∧ (timer_state_ t = TS.stopped ∨ has_loop_ t = false ∨ is_in_loop_thread self l = false
                      ∨ (remove_fd self (timer_fd_ t) ctl l).1 = false) ∨
   timer_state_ t = TS.running ∧ timer_state_ t' = TS.stopped ∧ has_loop_ t' = has_loop_ t ∧
   l' = set_callbacks (delete (timer_fd_ t) (callbacks_ l)) l).
Proof.
  unfold timer_stop. destruct (negb _ || negb _) eqn:Hg.
  { intros [= <- <- <-]. split; [done|left]. split_and!; [done..|]. right. apply orb_true_iff in Hg.
    rewrite !negb_true_iff in Hg. tauto. }
  case_bool_decide as Hr; [intros [= <- <- <-]; split; [done|left]; by auto|].
  assert (Hs : timer_state_ t = TS.running) by (by destruct (timer_state_ t)).
  destruct (remove_fd _ _ _ _) as [[] l1] eqn:Ha; cbn [negb].
  - apply remove_fd_success in Ha as (_ & _ & _ & _ & _ & ->).
    destruct disarmed; cbn [negb]; [destruct (read_expirations reads).1; cbn [negb]|];
      intros [= <- <- <-]; (split; [done|by right]).
  - apply remove_fd_failure in Ha as ->. intros [= <- <- <-]. split; [done|left]. by auto 6.
Qed.

Section timer_proofs.
Context {CB F : Type} (self : Z) (callback : CB) (interval_ms : Z).
Implicit Types (l : EventLoop CB F) (t : TickTimer).

(** The timer [t] in the loop [l], whose other callbacks are [rest]: registered
    exactly while it runs. *)
Record timer_inv (rest : gmap Z CB) (t : TickTimer) (l : EventLoop CB F) : Prop := {
  tm_loop : has_loop_ t = true ∧ owner_thread_id_ l = self ∧ valid l = true;
  tm_fd : timer_fd_ t = -1 ∨ 0 <= timer_fd_ t ∧ rest !! timer_fd_ t = None;
  tm_callbacks : callbacks_ l =
    match timer_state_ t with TS.running => <[timer_fd_ t:=callback]> rest | TS.stopped => rest end;
  tm_running : timer_state_ t = TS.running → 0 <= timer_fd_ t
}.

Lemma timer_start_inv rest armed ctl disarmed reads t l :
  timer_inv rest t l →
  let '(ok, t', l') := timer_start self callback armed ctl disarmed reads t l in
  timer_inv rest t' l' ∧ (ok = true → timer_state_ t = TS.stopped ∧ timer_state_ t' = TS.running) ∧
  (ok = false → timer_state_ t' = timer_state_ t).
Proof.
  intros Hi. pose proof Hi as [(Hl & Ho & Hv) Hfd Hcb Hrun]. unfold timer_start.
  case_bool_decide as Hst; [by split_and!|].
  assert (Hs : timer_state_ t = TS.stopped) by (by destruct (timer_state_ t)). rewrite Hs in *.
  destruct (_ || _ || _); [by split_and!|]. destruct armed; cbn [negb]; [|by split_and!].
  destruct (add_fd self (timer_fd_ t) (Some callback) ctl l) as [[] l'] eqn:Hadd; cbn [negb].
  - apply add_fd_success in Hadd as (cb & [= <-] & _ & Hf & _ & Hnone & _ & ->).
    split_and!; [|done|done]. split; cbn; [done|done|by rewrite Hcb|done].
  - apply add_fd_failure in Hadd as ->.
    assert (Hclosed : timer_inv rest (close_timer t) l).
    { split; cbn; [done|by left|by rewrite Hs|by rewrite Hs]. }
    destruct (_ || _); by split_and!.
Qed.

Lemma timer_stop_inv rest ctl disarmed reads t l :
  timer_inv rest t l →
  let '(ok, t', l') := timer_stop self ctl disarmed reads t l in
  timer_inv rest t' l' ∧ (ok = true → timer_state_ t' = TS.stopped) ∧
  (timer_state_ t' = TS.running → timer_state_ t = TS.running ∧ l' = l).
Proof.
  intros Hi. pose proof Hi as [(Hl & Ho & Hv) Hfd Hcb Hrun]. unfold timer_stop.
  rewrite Hl. unfold is_in_loop_thread. rewrite Ho, Z.eqb_refl. cbn [negb orb].
  case_bool_decide as Hst; [by split_and!; [|intros _|congruence]|].
  assert (Hs : timer_state_ t = TS.running) by (by destruct (timer_state_ t)). rewrite Hs in *.
  destruct (remove_fd self (timer_fd_ t) ctl l) as [[] l'] eqn:Hrem; cbn [negb].
  - apply remove_fd_success in Hrem as (_ & Hf & _ & _ & _ & ->).
    destruct Hfd as [Hfd|[_ Hnone]]; [lia|].
    assert (Hrest : delete (timer_fd_ t) (callbacks_ l) = rest) by (by rewrite Hcb, delete_insert_id).
    assert (Hclosed : timer_inv rest (set_timer_state TS.stopped (close_timer t))
      (set_callbacks (delete (timer_fd_ t) (callbacks_ l)) l)).
    { split; cbn; [done|by left|done|done]. }
    destruct disarmed; cbn [negb]; [|by split_and!]. destruct (read_expirations reads).1; cbn [negb]; [|by split_and!].
    split_and!; [|done|done]. split; cbn; [done|by right|done|done].
  - apply remove_fd_failure in Hrem as ->. by split_and!.
Qed.

Lemma apply_timer_op_inv rest op s :
  timer_inv rest s.1 s.2 → timer_inv rest (apply_timer_op self callback op s).1 (apply_timer_op self callback op s).2.
Proof.
  destruct s as [t l]. intros Hi. destruct op as [armed ctl disarmed reads|ctl disarmed reads]; cbn.
  - pose proof (timer_start_inv rest armed ctl disarmed reads t l Hi) as Hs.
    destruct (timer_start _ _ _ _ _ _ _ _) as [[ok t'] l']. apply Hs.
  - pose proof (timer_stop_inv rest ctl disarmed reads t l Hi) as Hs.
    destruct (timer_stop _ _ _ _ _ _) as [[ok t'] l']. apply Hs.
Qed.

Lemma TickTimer_new_inv l has_callback fd :
  owner_thread_id_ l = self → valid l = true →
  (fd = -1 ∨ 0 <= fd ∧ callbacks_ l !! fd = None) →
  timer_inv (callbacks_ l) (TickTimer_new (Some l) interval_ms has_callback fd) l.
Proof.
  intros Ho Hv Hfd. unfold TickTimer_new. destruct (_ || _ || _); (split; cbn; try done).
  by left.
Qed.

(** However a timer is started and stopped and whatever the system answers, its
    descriptor is in the callback table of the loop exactly while the timer is
    running, and no other entry of the table is ever touched; a start that is
    refused leaves the state as it was, and a stop that succeeds leaves the
    timer stopped. *)
Theorem timer_registered_while_running l has_callback fd ops t' l' :
  owner_thread_id_ l = self → valid l = true → (fd = -1 ∨ 0 <= fd ∧ callbacks_ l !! fd = None) →
  run_timer self callback ops (TickTimer_new (Some l) interval_ms has_callback fd, l) = (t', l') →
  callbacks_ l' =
    match timer_state_ t' with
    | TS.running => <[timer_fd_ t':=callback]> (callbacks_ l)
    | TS.stopped => callbacks_ l
    end ∧
  (timer_state_ t' = TS.running → callbacks_ l !! timer_fd_ t' = None) ∧
  (∀ armed ctl disarmed reads ok t'' l'',
     timer_start self callback armed ctl disarmed reads t' l' = (ok, t'', l'') →
     timer_state_ t'' = if ok : bool then TS.running else timer_state_ t') ∧
  (∀ ctl disarmed reads t'' l'',
     timer_stop self ctl disarmed reads t' l' = (true, t'', l'') → timer_state_ t'' = TS.stopped).
Proof.
  intros Ho Hv Hfd Hrun.
  assert (Hi : timer_inv (callbacks_ l) t' l').
  { assert (Hgen : ∀ s, timer_inv (callbacks_ l) s.1 s.2 →
      timer_inv (callbacks_ l) (run_timer self callback ops s).1 (run_timer self callback ops s).2).
    { clear Hrun. unfold run_timer. induction ops as [|op ops IH]; intros s Hs; [done|]. cbn.
      apply IH. by apply apply_timer_op_inv. }
    specialize (Hgen (TickTimer_new (Some l) interval_ms has_callback fd, l)).
    rewrite Hrun in Hgen. apply Hgen. by apply TickTimer_new_inv. }
  split_and!; [apply (tm_callbacks _ _ _ Hi)| | |].
  - intros Hs. pose proof (tm_running _ _ _ Hi Hs). by destruct (tm_fd _ _ _ Hi) as [?|[_ ?]]; [lia|].
  - intros armed ctl disarmed reads ok t'' l'' E.
    pose proof (timer_start_inv _ armed ctl disarmed reads _ _ Hi) as Hs. rewrite E in Hs.
    destruct Hs as (_ & Ht & Hf). destruct ok; [by apply Ht|by apply Hf].
  - intros ctl disarmed reads t'' l'' E.
    pose proof (timer_stop_inv _ ctl disarmed reads _ _ Hi) as Hs. rewrite E in Hs. by apply Hs.
Qed.

End timer_proofs.

Lemma timer_registered_while_running_witness :
  let l : EventLoop nat nat := EventLoop_new 1 16 3 4 0%nat true in
  let s := run_timer 1 7%nat [TStart true true true []; TStop true true []; TStart true true true []]
             (TickTimer_new (Some l) 50 true 5, l) in
  timer_state_ s.1 = TS.running ∧ callbacks_ s.2 = <[5:=7%nat]> (callbacks_ l).
Proof.
  intros l s. split; [reflexivity|].
  refine (proj1 (timer_registered_while_running 1 7%nat 50 l true 5 _ s.1 s.2 eq_refl eq_refl _
    (surjective_pairing s))).
  right. split; [lia|reflexivity].
Defined.
