(* ===== verification/ShutdownSignal.v ===== *)
(** [src/src/shutdown_signal.cpp]: turning SIGINT and SIGTERM into the end of a
    loop. The signals are blocked for the thread and read from a descriptor that
    is registered with the loop. *)

From S2P Require Import Prelude Connection EventLoop.

Module SS_.
Inductive States : Type := stopped | running.

#[global] Instance States_eq_dec : EqDecision States.
Proof. solve_decision. Defined.
End SS_.

(** * Definitions *)

Definition SIGINT : Z := 2.
Definition SIGTERM : Z := 15.

Record ShutdownSignal : Type := MkShutdownSignal {
  sig_has_loop_ : bool;
  signal_fd_ : Z;
  mask_blocked_ : bool;
  sig_state_ : SS_.States
}.

Inductive signal_read : Type :=
| GotSignal (ssi_signo : Z)
| SignalEintr
| SignalAgain
| SignalError.

Definition set_sig_state (s : SS_.States) (t : ShutdownSignal) : ShutdownSignal :=
  MkShutdownSignal (sig_has_loop_ t) (signal_fd_ t) (mask_blocked_ t) s.

(** A list of reads that runs out stands for [EAGAIN]. *)
Fixpoint read_signals_loop (reads : list signal_read) (shutdown_requested : bool) : bool * bool :=
  match reads with
  | [] => (true, shutdown_requested)
  | GotSignal signo :: reads =>
      read_signals_loop reads
        (if (signo =? SIGINT) || (signo =? SIGTERM) then true else shutdown_requested)
  | SignalEintr :: reads => read_signals_loop reads shutdown_requested
  | SignalAgain :: _ => (true, shutdown_requested)
  | SignalError :: _ => (false, shutdown_requested)
  end.
Definition read_signals (reads : list signal_read) : bool * bool := read_signals_loop reads false.

Section shutdown_signal.
Context {CB F : Type}.
Implicit Types (l : EventLoop CB F) (t : ShutdownSignal).

(** [mask_built]: the three calls that fill the signal set; [blocked], [restored]:
    the two calls of [pthread_sigmask]; [fd]: the result of [signalfd]. *)
Definition ShutdownSignal_new (loop : option (EventLoop CB F)) (mask_built blocked : bool) (fd : Z)
    (restored : bool) : ShutdownSignal :=
  let t := MkShutdownSignal (bool_decide (is_Some loop)) (-1) false SS_.stopped in
  match loop with
  | None => t
  | Some l =>
      if negb (valid l) then t
      else if negb mask_built then t
      else if negb blocked then t
      else MkShutdownSignal true fd (if fd =? -1 then negb restored else true) SS_.stopped
  end.

Definition signal_valid l t : bool :=
  if negb (sig_has_loop_ t) || negb (valid l) then false
  else negb (signal_fd_ t =? -1) && mask_blocked_ t.

Definition signal_start (self : Z) (callback : CB) (ctl : bool) t l : bool * ShutdownSignal * EventLoop CB F :=
  if bool_decide (sig_state_ t = SS_.running) then (false, t, l)
  else if negb (signal_valid l t) || negb (is_in_loop_thread self l) then (false, t, l)
  else
    let '(added, l) := add_fd self (signal_fd_ t) (Some callback) ctl l in
    if negb added then (false, t, l) else (true, set_sig_state SS_.running t, l).

Definition signal_stop (self : Z) (ctl : bool) t l : bool * ShutdownSignal * EventLoop CB F :=
  if negb (sig_has_loop_ t) || negb (is_in_loop_thread self l) then (false, t, l)
  else if bool_decide (sig_state_ t = SS_.stopped) then (true, t, l)
  else
    let '(removed, l) := remove_fd self (signal_fd_ t) ctl l in
    if negb removed then (false, t, l) else (true, set_sig_state SS_.stopped t, l).

(** The callback, in the loop thread: [quit] sets the flag. *)
Definition signal_handle_read (events : Z) (reads : list signal_read) t l : EventLoop CB F :=
  if negb (bool_decide (sig_state_ t = SS_.running)) then l
  else if negb (has events EPOLLIN) then set_quit l
  else
    let '(ok, shutdown_requested) := read_signals reads in
    if negb ok then set_quit l
    else if shutdown_requested then set_quit l else l.

Definition signal_destroy (self : Z) (ctl restored : bool) t l : ShutdownSignal * EventLoop CB F :=
  let '(t, l) :=
    if bool_decide (sig_state_ t = SS_.running)
    then let '(_, t, l) := signal_stop self ctl t l in (t, l) else (t, l) in
  (MkShutdownSignal (sig_has_loop_ t) (-1) (mask_blocked_ t && negb restored) SS_.stopped, l).

End shutdown_signal.

(** * Proofs *)

(** The signals that are read before the descriptor is drained, and whether the
    reading ended well. *)
Fixpoint signals_of (reads : list signal_read) : list Z :=
  match reads with
  | GotSignal signo :: reads => signo :: signals_of reads
  | SignalEintr :: reads => signals_of reads
  | _ => []
  end.
Fixpoint drained (reads : list signal_read) : bool :=
  match reads with
  | GotSignal _ :: reads | SignalEintr :: reads => drained reads
  | SignalError :: _ => false
  | _ => true
  end.

Lemma read_signals_loop_spec reads b :
  read_signals_loop reads b =
    (drained reads, b || bool_decide (SIGINT ∈ signals_of reads ∨ SIGTERM ∈ signals_of reads)).
Proof.
  revert b. induction reads as [|[signo| | |] reads IH]; intros b; cbn;
    try (rewrite bool_decide_false by (rewrite !elem_of_nil; tauto); by rewrite orb_false_r); [|done].
  rewrite IH. f_equal.
  assert (E : bool_decide (SIGINT ∈ signo :: signals_of reads ∨ SIGTERM ∈ signo :: signals_of reads) =
    (signo =? SIGINT) || (signo =? SIGTERM) ||
    bool_decide (SIGINT ∈ signals_of reads ∨ SIGTERM ∈ signals_of reads)).
  { apply eq_bool_prop_intro. rewrite !orb_True, !bool_decide_spec, !elem_of_cons, !Is_true_true, !Z.eqb_eq.
    naive_solver. }
  rewrite E. by destruct b, (signo =? SIGINT), (signo =? SIGTERM).
Qed.

(** The loop is told to quit exactly when the manager is running and the event
    is an error, reading fails, or one of the signals read is SIGINT or SIGTERM,
    in whatever order and however often signals arrive; nothing else changes. *)
Lemma signal_handle_read_spec {CB F} events reads t (l : EventLoop CB F) :
  signal_handle_read events reads t l =
    if bool_decide (sig_state_ t = SS_.running) &&
       (negb (has events EPOLLIN) || negb (drained reads) ||
        bool_decide (SIGINT ∈ signals_of reads ∨ SIGTERM ∈ signals_of reads))
    then set_quit l else l.
Proof.
  unfold signal_handle_read, read_signals. rewrite read_signals_loop_spec. cbn [orb].
  case_bool_decide; cbn; [|done]. destruct (has events EPOLLIN); cbn; [|done].
  destruct (drained reads); cbn; done.
Qed.

(** What starting and stopping do to the loop. *)
Lemma signal_start_outcome {CB F} self callback ctl t (l : EventLoop CB F) ok t' l' :
  signal_start self callback ctl t l = (ok, t', l') →
  if ok then sig_state_ t = SS_.stopped ∧ t' = set_sig_state SS_.running t ∧
             0 <= signal_fd_ t ∧ callbacks_ l !! signal_fd_ t = None ∧
             l' = set_callbacks (<[signal_fd_ t:=callback]> (callbacks_ l)) l
  else t' = t ∧ l' = l.
Proof.
  unfold signal_start. case_bool_decide as Hr; [by intros [= <- <- <-]|].
  assert (Hs : sig_state_ t = SS_.stopped) by (by destruct (sig_state_ t)).
  destruct (_ || _); [by intros [= <- <- <-]|].
  destruct (add_fd _ _ _ _ _) as [[] l1] eqn:Ha; cbn [negb]; intros [= <- <- <-].
  - by apply add_fd_success in Ha as (cb & [= <-] & _ & Hf & _ & Hn & _ & ->).
  - by apply add_fd_failure in Ha as ->.
Qed.

Lemma signal_stop_outcome {CB F} self ctl t (l : EventLoop CB F) ok t' l' :
  signal_stop self ctl t l = (ok, t', l') →
  (ok = true → sig_state_ t' = SS_.stopped) ∧
  (t' = t ∧ l' = l ∨
   sig_state_ t = SS_.running ∧ t' = set_sig_state SS_.stopped t ∧
   l' = set_callbacks (delete (signal_fd_ t) (callbacks_ l)) l).
Proof.
  unfold signal_stop. destruct (_ || _); [intros [= <- <- <-]; by split; [|left]|].
  case_bool_decide as Hs; [intros [= <- <- <-]; by split; [|left]|].
  assert (Hr : sig_state_ t = SS_.running) by (by destruct (sig_state_ t)).
  destruct (remove_fd _ _ _ _) as [[] l1] eqn:Ha; cbn [negb]; intros [= <- <- <-].
  - apply remove_fd_success in Ha as (_ & _ & _ & _ & _ & ->). by split; [|right].
  - apply remove_fd_failure in Ha as ->. by split; [|left].
Qed.
