(* ===== verification/PersistenceService.v ===== *)
(** [src/src/persistence_service.cpp]: loading the last checkpoint at start-up,
    saving one periodically and at the end, with the numbering of generations;
    and the whole path of the data: rooms and sessions, checkpoint, background
    thread, file, crash, and back. The members [store_] and [timer_] and the
    room service are passed along with the object. *)

From S2P Require Import Prelude Bytes Checkpoint CheckpointCodec RoomStateMachine GameState Connection.
From S2P Require Import Room RoomManager Session SessionManager RoomService ServiceInvariant.
From S2P Require Import Files SimFiles CheckpointStore StoreThreads EventLoop TickTimer.
From stdpp Require Import relations.
Open Scope Z_scope.

Module PL.
Inductive Loadstates : Type :=
| restored | not_found | invalid_state | io_error | decode_error | restore_error.

#[global] Instance Loadstates_eq_dec : EqDecision Loadstates.
Proof. solve_decision. Defined.
End PL.

(** * Definitions *)

Definition U64_MAX : Z := 2 ^ 64 - 1.

(** [has_base_], [has_rooms_]: the two pointers are set. *)
Record PersistenceService : Type := MkPersistenceService {
  has_base_ : bool;
  has_rooms_ : bool;
  next_generation_ : Z;
  loaded_ : bool;
  psv_started_ : bool
}.

Definition PersistenceService_new (has_base has_rooms : bool) : PersistenceService :=
  MkPersistenceService has_base has_rooms 1 false false.

Definition set_loaded (next : Z) (ps : PersistenceService) : PersistenceService :=
  MkPersistenceService (has_base_ ps) (has_rooms_ ps) next true (psv_started_ ps).
Definition set_psv_started (b : bool) (ps : PersistenceService) : PersistenceService :=
  MkPersistenceService (has_base_ ps) (has_rooms_ ps) (next_generation_ ps) (loaded_ ps) b.

(** [in_loop]: the answer of [base_loop_->is_in_loop_thread()]. *)
Definition persist_load `{Files} {ho : HashOrder} (in_loop : bool) (now : Z) (ps : PersistenceService)
    (store : CheckpointStore) (service : RoomService) :
    Sys (PL.Loadstates * PersistenceService * CheckpointStore * RoomService) :=
  if negb (has_base_ ps) || negb (has_rooms_ ps) || negb in_loop then
    mret (PL.invalid_state, ps, store, service)
  else if loaded_ ps || psv_started_ ps then mret (PL.invalid_state, ps, store, service)
  else
    r ← load store;
    let '((state, checkpoint), store) := r in
    match state, checkpoint with
    | LD.not_found, _ => mret (PL.not_found, set_loaded 1 ps, store, service)
    | LD.invalid_state, _ => mret (PL.invalid_state, ps, store, service)
    | LD.io_error, _ => mret (PL.io_error, ps, store, service)
    | LD.decode_error, _ => mret (PL.decode_error, ps, store, service)
    | LD.success, None => mret (PL.invalid_state, ps, store, service)
    | LD.success, Some checkpoint =>
        if svc_generation checkpoint =? U64_MAX then mret (PL.invalid_state, ps, store, service)
        else
          let '(ok, service) := service_restore_checkpoint in_loop checkpoint now service in
          if ok : bool then mret (PL.restored, set_loaded (svc_generation checkpoint + 1) ps, store, service)
          else mret (PL.restore_error, ps, store, service)
    end.

(** [store_.stop()] once its thread has nothing to do: it ends at once. *)
Definition store_stop (store : CheckpointStore) : bool * CheckpointStore :=
  if negb (CheckpointStore.started_ store) then (stop_unstarted store, store)
  else stop_end (stop_begin store).

Definition persist_start {CB F} (self : Z) (callback : CB) (thread_created armed ctl disarmed : bool)
    (reads : list timer_read) (ps : PersistenceService) (store : CheckpointStore) (timer : TickTimer)
    (l : EventLoop CB F) : bool * PersistenceService * CheckpointStore * TickTimer * EventLoop CB F :=
  if negb (has_base_ ps) || negb (is_in_loop_thread self l) || negb (loaded_ ps)
     || negb (timer_valid l timer) then (false, ps, store, timer, l)
  else if psv_started_ ps then (false, ps, store, timer, l)
  else
    let '(ok, store) := start thread_created store in
    if negb ok then (false, ps, store, timer, l)
    else
      let '(ok, timer, l) := timer_start self callback armed ctl disarmed reads timer l in
      if negb ok then (false, ps, (store_stop store).2, timer, l)
      else (true, set_psv_started true ps, store, timer, l).

Definition save_now {ho : HashOrder} (in_loop : bool) (ps : PersistenceService) (store : CheckpointStore)
    (service : RoomService) : bool * PersistenceService * CheckpointStore :=
  if negb (has_base_ ps) || negb in_loop || negb (has_rooms_ ps) || negb (loaded_ ps)
     || negb (psv_started_ ps) then (false, ps, store)
  else if next_generation_ ps =? U64_MAX then (false, ps, store)
  else match service_make_checkpoint in_loop (next_generation_ ps) service with
  | None => (false, ps, store)
  | Some temp =>
      let '(ok, store) := submit temp store in
      if negb ok then (false, ps, store)
      else (true, MkPersistenceService (has_base_ ps) (has_rooms_ ps) (next_generation_ ps + 1)
                    (loaded_ ps) (psv_started_ ps), store)
  end.

(** The timer's callback; a failure is only logged. *)
Definition persist_handle_timer {ho : HashOrder} (in_loop : bool) (ps : PersistenceService) (store : CheckpointStore)
    (service : RoomService) : PersistenceService * CheckpointStore :=
  let '(_, ps, store) := save_now in_loop ps store service in (ps, store).

(** [stop] up to the wait in [store_.flush()], and from there on. *)
Definition persist_stop_begin {ho : HashOrder} {CB F} (self : Z) (ctl disarmed : bool) (reads : list timer_read)
    (ps : PersistenceService) (store : CheckpointStore) (service : RoomService) (timer : TickTimer)
    (l : EventLoop CB F) : option (bool * PersistenceService * CheckpointStore * TickTimer * EventLoop CB F) :=
  let in_loop := is_in_loop_thread self l in
  if negb (has_base_ ps) || negb in_loop then None
  else if negb (psv_started_ ps) then None
  else
    let '(stopped, timer, l) := timer_stop self ctl disarmed reads timer l in
    let '(saved, ps, store) := save_now in_loop ps store service in
    Some (stopped && saved, ps, store, timer, l).
Definition persist_stop_end (success : bool) (ps : PersistenceService) (store : CheckpointStore) :
    bool * PersistenceService * CheckpointStore :=
  let flushed := CheckpointStore.valid_ store && all_committed store in
  let '(stopped, store) := store_stop store in
  (success && flushed && stopped, set_psv_started false ps, store).

Definition persist_states (store : CheckpointStore) : CheckpointStore.States := states store.

(** ** The whole path of the data *)

Section path.
Context `{Files} {ho : HashOrder}.

(** The running server with the threads of its store; [pe_saved] are the
    checkpoints submitted, each with the service it was made from. *)
Record Persistent : Type := MkPersistent {
  pe_service : PersistenceService;
  pe_threads : StoreState;
  pe_system : System;
  pe_saved : list (ServerCheckpoint * RoomService)
}.

Definition pe_rooms (s : Persistent) : RoomService := w_service (sys_world (pe_system s)).

(** The server goes on, with late frames as well; the base thread saves; it flushes, starts or stops the
    store; the background thread works. *)
Inductive persist_step : Persistent → Persistent → Prop :=
| PersistServe s sys :
    step true (pe_system s) sys →
    persist_step s (MkPersistent (pe_service s) (pe_threads s) sys (pe_saved s))
| PersistSave s ps store checkpoint :
    save_now true (pe_service s) (ss_store (pe_threads s)) (pe_rooms s) = (true, ps, store) →
    pending_checkpoint_ store = Some checkpoint →
    persist_step s (MkPersistent ps
      (on_notifying (S (ss_notifying (pe_threads s)))
        (on_accepted (ss_accepted (pe_threads s) ++ [checkpoint]) (on_store store (pe_threads s))))
      (pe_system s) (pe_saved s ++ [(checkpoint, pe_rooms s)]))
| PersistClient s threads :
    client_step (pe_threads s) threads → ss_accepted threads = ss_accepted (pe_threads s) →
    persist_step s (MkPersistent (pe_service s) threads (pe_system s) (pe_saved s))
| PersistWorker s threads :
    worker_step (pe_threads s) threads →
    persist_step s (MkPersistent (pe_service s) threads (pe_system s) (pe_saved s)).

(** A server that has loaded generation [g] from the file at [p], or found none
    ([g] is then 0), and has been started. *)
Definition Persistent_new (p : bytes) (g : Z) (d : disk) (sys : System) : Persistent :=
  MkPersistent (MkPersistenceService true true (g + 1) true true) (StoreState_new p g d) sys [].

End path.

(** * Proofs *)

Section path_proofs.
Context `{FilesLaws} {ho : HashOrder}.
Context (p : bytes) (g : Z) (d0 : disk).
Implicit Types (s : Persistent).

(** A checkpoint together with the service it was made from. *)
Definition made_from (c : ServerCheckpoint) (svc : RoomService) : Prop :=
  0 < svc_generation c < U64_MAX ∧
  service_make_checkpoint true (svc_generation c) svc = Some c ∧
  ∃ opened, service_inv svc opened.

Record persist_inv s : Prop := {
  pi_store : rtc store_step (StoreState_new p g d0) (pe_threads s);
  pi_system : reachable true (pe_system s);
  pi_accepted : ss_accepted (pe_threads s) = (pe_saved s).*1;
  pi_saved : ∀ c svc, (c, svc) ∈ pe_saved s → made_from c svc;
  pi_next : next_generation_ (pe_service s) = last_submitted_generation_ (ss_store (pe_threads s)) + 1 ∧
            0 < next_generation_ (pe_service s) <= U64_MAX
}.

Lemma make_generation in_base gen svc c :
  service_make_checkpoint in_base gen svc = Some c → svc_generation c = gen ∧ gen ≠ 0 ∧ in_base = true.
Proof. unfold service_make_checkpoint. intros Hm. branches_in Hm. to_prop. by split_and!. Qed.

Lemma save_success ps store svc ps' store' :
  save_now true ps store svc = (true, ps', store') →
  ∃ c, service_make_checkpoint true (next_generation_ ps) svc = Some c ∧
    submit c store = (true, store') ∧ next_generation_ ps ≠ U64_MAX ∧
    next_generation_ ps' = next_generation_ ps + 1.
Proof.
  unfold save_now. intros Hs.
  destruct (_ || _ || _ || _ || _); [done|]. destruct (Z.eqb_spec (next_generation_ ps) U64_MAX) as [|Hne]; [done|].
  destruct (service_make_checkpoint _ _ _) as [c|]; [|done].
  destruct (submit c store) as [[] st] eqn:E; cbn in Hs; [|done].
  injection Hs as <- <-. by exists c.
Qed.

Lemma client_keeps_generation t t' :
  client_step t t' → ss_accepted t' = ss_accepted t →
  last_submitted_generation_ (ss_store t') = last_submitted_generation_ (ss_store t).
Proof.
  destruct 1 as [t st Ht|c t st Ht|i t Hi|t Ht|t Ht]; cbn; intros Ha; try done.
  - by apply start_success in Ht as (_ & _ & _ & _ & ->).
  - apply (f_equal length) in Ha. rewrite length_app in Ha. cbn in Ha. lia.
Qed.

Lemma worker_keeps_generation t t' :
  worker_step t t' →
  last_submitted_generation_ (ss_store t') = last_submitted_generation_ (ss_store t) ∧
  ss_accepted t' = ss_accepted t.
Proof.
  destruct 1; cbn; try done.
  - unfold wake_worker. cbn. by destruct (ss_worker _).
  - unfold worker_test, thread_take. destruct (task_ready _); cbn; [|done].
    by destruct (pending_checkpoint_ _).
Qed.

Lemma persist_step_inv s s' : persist_step s s' → persist_inv s → persist_inv s'.
Proof.
  intros Hstep [Hst Hsys Hacc Hsaved [Hnext Hpos]].
  destruct Hstep as [s sys Hs|s ps store c Hs Hc|s threads Hs Ha|s threads Hs].
  - split; cbn; try done. by eapply ReachStep.
  - apply save_success in Hs as (c' & Hmake & Hsub & Hmax & Hps).
    pose proof (make_generation _ _ _ _ Hmake) as (Hgen & _ & _).
    pose proof (submit_success _ _ _ Hsub) as (_ & _ & _ & Hstore).
    assert (c' = c) as -> by (rewrite Hstore in Hc; cbn in Hc; congruence).
    split; cbn; [|done| | |].
    + eapply rtc_r; [exact Hst|]. left. by apply ClientSubmit.
    + by rewrite Hacc, fmap_app.
    + intros c1 svc [Hin|[= -> ->]%list_elem_of_singleton]%elem_of_app; [by apply Hsaved|].
      destruct (reachable_inv _ _ Hsys) as [Hi _ _]. unfold made_from. rewrite Hgen.
      split_and!; [lia|lia|by rewrite <-Hgen, Hgen|by eexists].
    + rewrite Hstore. cbn. lia.
  - split; cbn; try done.
    + eapply rtc_r; [exact Hst|]. by left.
    + by rewrite Ha.
    + by rewrite (client_keeps_generation _ _ Hs Ha).
  - destruct (worker_keeps_generation _ _ Hs) as [Hg Ha]. split; cbn; try done.
    + eapply rtc_r; [exact Hst|]. by right.
    + by rewrite Ha.
    + by rewrite Hg.
Qed.

Lemma persist_steps_inv s s' : rtc persist_step s s' → persist_inv s → persist_inv s'.
Proof. induction 1; eauto using persist_step_inv. Qed.

Lemma Persistent_new_inv sys :
  0 <= g < U64_MAX → reachable true sys → persist_inv (Persistent_new p g d0 sys).
Proof. intros Hg Hs. split; cbn; try done; [|lia]. intros c svc Hc. by apply elem_of_nil in Hc. Qed.

(** ** Loading what was saved *)

(** What a fresh process makes of a file that holds such a checkpoint. *)
Lemma load_saved c svc data d timeout now :
  p ≠ [] → made_from c svc → encode c = Ok data → visible d p = Some data →
  let ps := PersistenceService_new true true in
  let service := RoomService_new timeout in
  ∃ r d', returns (persist_load true now ps (CheckpointStore_new p) service) d r d' ∧ quiet d d' ∧
    (r = (PL.io_error, ps, CheckpointStore_new p, service) ∨
     r = (PL.restored, set_loaded (svc_generation c + 1) ps, store_at p (svc_generation c),
          restarted svc service now)).
Proof.
  intros Hp (Hgen & Hmake & opened & Hi) He Hv ps service.
  assert (Hdec : decode data = Ok c).
  { apply decode_iff_encode. split; [|done].
    destruct (restart_outcome svc service opened (svc_generation c) now Hi ltac:(lia)) as [Hm _].
    rewrite Hm in Hmake. injection Hmake as E. rewrite <-E.
    eapply service_checkpoint_typed; [exact Hi|]. unfold u64_range, U64_MAX in *. lia. }
  assert (Hrestore : service_restore_checkpoint true c now service = (true, restarted svc service now)).
  { destruct (restart_outcome svc service opened (svc_generation c) now Hi ltac:(lia)) as [Hm Hr].
    rewrite Hm in Hmake. injection Hmake as E. by rewrite <-E at 1. }
  destruct (load_file_outcome p d) as (r & d' & Hret & Hq & Hok).
  assert (Hidle : idle_before_start (CheckpointStore_new p) = true).
  { unfold idle_before_start. cbn. by rewrite bool_decide_false. }
  unfold persist_load. cbn [has_base_ has_rooms_ loaded_ psv_started_ ps PersistenceService_new negb orb].
  unfold load. rewrite Hidle. cbn [negb].
  assert (Hr : r = inl LD.io_error ∨ r = inr c).
  { destruct r as [[]|c']; cbn in Hok; try done; [congruence|by left| |].
    - destruct Hok as (data' & e & Hv' & Hd'). congruence.
    - destruct Hok as (data' & Hv' & Hd'). right. congruence. }
  destruct Hr as [->| ->]; eexists _, d'.
  - split; [|split; [exact Hq|by left]]. eapply returns_bind.
    + eapply returns_bind; [exact Hret|]. cbn. apply returns_ret.
    + cbn. apply returns_ret.
  - split; [|split; [exact Hq|right; reflexivity]]. eapply returns_bind.
    + eapply returns_bind; [exact Hret|]. cbn. apply returns_ret.
    + cbn. destruct (Z.eqb_spec (svc_generation c) U64_MAX) as [|_]; [lia|].
      rewrite Hrestore. unfold store_at, CheckpointStore_new. cbn. apply returns_ret.
Qed.

(** Loading at start-up, whatever the file holds. *)
Lemma persist_load_outcome d timeout now :
  p ≠ [] →
  let ps := PersistenceService_new true true in
  let service := RoomService_new timeout in
  ∃ state ps' store' service' d',
    returns (persist_load true now ps (CheckpointStore_new p) service) d (state, ps', store', service') d' ∧
    match state with
    | PL.not_found => visible d p = None ∧ ps' = set_loaded 1 ps ∧ service' = service
    | PL.restored => ∃ data c, visible d p = Some data ∧ decode data = Ok c ∧
        service_restore_checkpoint true c now service = (true, service') ∧
        ps' = set_loaded (svc_generation c + 1) ps
    | _ => True
    end.
Proof.
  intros Hp ps service. destruct (load_file_outcome p d) as (r & d' & Hret & _ & Hok).
  assert (Hidle : idle_before_start (CheckpointStore_new p) = true).
  { unfold idle_before_start. cbn. by rewrite bool_decide_false. }
  unfold persist_load. cbn [has_base_ has_rooms_ loaded_ psv_started_ ps PersistenceService_new negb orb].
  unfold load. rewrite Hidle. cbn [negb].
  destruct r as [e|c].
  - destruct e; try done; eexists _, _, _, _, d';
      (split; [eapply returns_bind; [eapply returns_bind; [exact Hret|apply returns_ret]|cbn; apply returns_ret]|done]).
  - destruct Hok as (data & Hv & Hd).
    destruct (svc_generation c =? U64_MAX) eqn:Hmax;
      [|destruct (service_restore_checkpoint true c now service) as [[] service'] eqn:Hres];
      eexists _, _, _, _, d';
      (split; [eapply returns_bind; [eapply returns_bind; [exact Hret|apply returns_ret]|
               cbn; rewrite Hmax, ?Hres; apply returns_ret]|cbn]); [done| |done].
    by exists data, c.
Qed.

(** C3: Nothing reported as committed is ever lost. Let the server run, save and
    commit in any interleaving, and let the machine stop at any moment, also in
    the middle of a commit. If a checkpoint has been committed since the server
    was started, a new process that loads the file from what the crash has left
    restores the rooms and sessions exactly as they were when some checkpoint
    at least that new was made, with every player offline, in a consistent
    service, and numbers its own checkpoints from there; the only other outcome
    is that the operating system fails to read the file. *)
Theorem crash_recovery sys s d d' r timeout now :
  p ≠ [] → 0 <= g < U64_MAX → reachable true sys → rtc persist_step (Persistent_new p g d0 sys) s →
  g < last_committed_generation_ (ss_store (pe_threads s)) →
  crash_disk (pe_threads s) d → survives d p r → visible d' p = r →
  let ps := PersistenceService_new true true in
  let service := RoomService_new timeout in
  ∃ result d'', returns (persist_load true now ps (CheckpointStore_new p) service) d' result d'' ∧
    (result = (PL.io_error, ps, CheckpointStore_new p, service) ∨
     ∃ c svc, (c, svc) ∈ pe_saved s ∧
       last_committed_generation_ (ss_store (pe_threads s)) <= svc_generation c ∧
       result = (PL.restored, set_loaded (svc_generation c + 1) ps, store_at p (svc_generation c),
                 restarted svc service now) ∧
       service_inv (restarted svc service now) ∅).
Proof.
  intros Hp Hg Hsys Hrun Hcom Hcrash Hsurv Hv ps service.
  destruct (persist_steps_inv _ _ Hrun (Persistent_new_inv sys Hg Hsys)) as [Hst _ Hacc Hsaved _].
  apply reachable_store_inv in Hst.
  destruct (crash_disk_ok p g d0 _ _ Hst Hcrash) as [_ Hfound].
  destruct (Hfound r Hsurv) as [[Hc _]|(c & data & Hin & He & -> & Hle)]; [lia|].
  rewrite Hacc in Hin. apply list_elem_of_fmap in Hin as ([c' svc] & -> & Hin).
  pose proof (Hsaved _ _ Hin) as Hmade. cbn [fst] in *.
  destruct (load_saved c' svc data d' timeout now Hp Hmade He Hv) as (result & d'' & Hret & _ & Hres).
  exists result, d''. split; [exact Hret|]. destruct Hres as [->| ->]; [by left|right].
  exists c', svc. split_and!; try done. destruct Hmade as (_ & _ & opened & Hi).
  by eapply restarted_inv.
Qed.

(** C24: An orderly shutdown keeps everything: when [stop], having saved a last time
    and waited for the store to be idle, returns true, the file holds exactly
    the checkpoint of the last save, and no crash afterwards can bring back
    anything else. *)
Theorem stop_keeps_last_save sys s success ps store c svc :
  0 <= g < U64_MAX → reachable true sys → rtc persist_step (Persistent_new p g d0 sys) s →
  last (pe_saved s) = Some (c, svc) → idle (ss_store (pe_threads s)) = true →
  persist_stop_end success (pe_service s) (ss_store (pe_threads s)) = (true, ps, store) →
  success = true ∧ psv_started_ ps = false ∧
  service_make_checkpoint true (svc_generation c) svc = Some c ∧
  ∃ data, encode c = Ok data ∧ visible (ss_disk (pe_threads s)) p = Some data ∧
    ∀ r, survives (ss_disk (pe_threads s)) p r → r = Some data.
Proof.
  intros Hg Hsys Hrun Hlast Hidle Hstop.
  destruct (persist_steps_inv _ _ Hrun (Persistent_new_inv sys Hg Hsys)) as [Hst _ Hacc Hsaved _].
  unfold persist_stop_end in Hstop. destruct (store_stop _) as [stopped store'].
  injection Hstop as Hok <- <-. to_prop.
  split_and!; [done|done| |].
  - destruct (Hsaved c svc) as (_ & Hm & _); [by apply last_Some_elem_of|done].
  - eapply durable_when_idle; [by apply reachable_store_inv|done|done|].
    by rewrite Hacc, fmap_last, Hlast.
Qed.

End path_proofs.

(** ** A concrete run *)

Section demo.
#[local] Instance demo_order : HashOrder := canonical_order.

Definition persist_demo : Persistent := Persistent_new demo_path 0 demo_disk (System_new 30000).
Definition persist_demo_at (threads : StoreState) (saved : list (ServerCheckpoint * RoomService)) : Persistent :=
  MkPersistent (MkPersistenceService true true (1 + zlen saved) true true) threads (System_new 30000) saved.
Definition demo_saved : list (ServerCheckpoint * RoomService) := [(demo_checkpoint, RoomService_new 30000)].

(** Start, save once, and let the background thread commit. *)
Lemma persist_demo_runs : rtc persist_step persist_demo (persist_demo_at demo_recorded demo_saved).
Proof.
  apply (rtc_l _ _ (persist_demo_at demo_started [])).
  { apply (PersistClient persist_demo demo_started); [|done]. apply (ClientStart demo_new). by vm_compute. }
  apply (rtc_l _ _ (persist_demo_at demo_submitted demo_saved)).
  { apply (PersistSave (persist_demo_at demo_started []) (MkPersistenceService true true 2 true true)
      (submit demo_checkpoint (ss_store demo_started)).2 demo_checkpoint); by vm_compute. }
  apply (rtc_l _ _ (persist_demo_at demo_taken demo_saved)).
  { apply (PersistWorker (persist_demo_at demo_submitted demo_saved)). by apply (WorkerTest demo_submitted). }
  apply (rtc_l _ _ (persist_demo_at demo_written demo_saved)).
  { apply (PersistWorker (persist_demo_at demo_taken demo_saved)).
    apply (WorkerCommit demo_checkpoint true (demo_commit 9).2.2 demo_taken); [reflexivity|].
    exists 9%nat. intros k. vm_compute. reflexivity. }
  apply rtc_once. apply (PersistWorker (persist_demo_at demo_written demo_saved)).
  by apply (WorkerRecord demo_checkpoint true demo_written).
Qed.

Lemma crash_recovery_witness :
  let ps := PersistenceService_new true true in
  let service := RoomService_new 30000 in
  ∃ result d'', returns (persist_load true 7 ps (CheckpointStore_new demo_path) service)
                  (ss_disk demo_recorded) result d'' ∧
    (result = (PL.io_error, ps, CheckpointStore_new demo_path, service) ∨
     ∃ c svc, (c, svc) ∈ demo_saved ∧ 1 <= svc_generation c ∧
       result = (PL.restored, set_loaded (svc_generation c + 1) ps, store_at demo_path (svc_generation c),
                 restarted svc service 7) ∧
       service_inv (restarted svc service 7) ∅).
Proof.
  apply (crash_recovery demo_path 0 demo_disk (System_new 30000) (persist_demo_at demo_recorded demo_saved)
    (ss_disk demo_recorded) (ss_disk demo_recorded) (visible (ss_disk demo_recorded) demo_path) 30000 7);
    [done|by vm_compute|constructor|apply persist_demo_runs|by vm_compute|by left|by left|reflexivity].
Defined.

Lemma stop_keeps_last_save_witness :
  ∃ data, encode demo_checkpoint = Ok data ∧ visible (ss_disk demo_recorded) demo_path = Some data ∧
    ∀ r, survives (ss_disk demo_recorded) demo_path r → r = Some data.
Proof.
  apply (stop_keeps_last_save demo_path 0 demo_disk (System_new 30000) (persist_demo_at demo_recorded demo_saved)
    true (MkPersistenceService true true 2 true false) (stop_end (stop_begin (ss_store demo_recorded))).2
    demo_checkpoint (RoomService_new 30000));
    [by vm_compute|constructor|apply persist_demo_runs|reflexivity|by vm_compute|by vm_compute].
Defined.
End demo.
