(* ===== verification/TcpServer.v ===== *)
(** [src/src/tcp_server.cpp]: the listening socket, the table of connections,
    dealing accepted connections out to the loops, and taking them out of the
    table again. Results of system calls are arguments; tasks for the loops of
    the connections, which are other threads, are recorded in order. *)

From S2P Require Import Prelude Buffer Connection EventLoop EventLoopThreads.
Import LoopPool.

(** * Definitions *)

Record TcpServer : Type := MkTcpServer {
  base_ptr_ : option Z;
  thread_pool_ : EventLoopThreadPool;
  listen_fd_ : Z;
  listen_registered_ : bool;
  ts_started_ : bool;
  has_message_callback_ : bool;
  has_closed_callback_ : bool;
  connections_ : gmap Z Conn
}.

Definition TcpServer_new (base_loop : option Z) (thread_count : nat) : TcpServer :=
  MkTcpServer base_loop (EventLoopThreadPool_new base_loop thread_count) (-1) false false false false ∅.

Definition set_pool (p : EventLoopThreadPool) (t : TcpServer) : TcpServer :=
  MkTcpServer (base_ptr_ t) p (listen_fd_ t) (listen_registered_ t) (ts_started_ t)
    (has_message_callback_ t) (has_closed_callback_ t) (connections_ t).
Definition set_listen (fd : Z) (registered : bool) (t : TcpServer) : TcpServer :=
  MkTcpServer (base_ptr_ t) (thread_pool_ t) fd registered (ts_started_ t)
    (has_message_callback_ t) (has_closed_callback_ t) (connections_ t).
Definition set_ts_started (b : bool) (t : TcpServer) : TcpServer :=
  MkTcpServer (base_ptr_ t) (thread_pool_ t) (listen_fd_ t) (listen_registered_ t) b
    (has_message_callback_ t) (has_closed_callback_ t) (connections_ t).
Definition set_connections (m : gmap Z Conn) (t : TcpServer) : TcpServer :=
  MkTcpServer (base_ptr_ t) (thread_pool_ t) (listen_fd_ t) (listen_registered_ t) (ts_started_ t)
    (has_message_callback_ t) (has_closed_callback_ t) m.

(** The setters are refused once the server runs. *)
Definition set_message_callback (present : bool) (t : TcpServer) : TcpServer :=
  if ts_started_ t then t
  else MkTcpServer (base_ptr_ t) (thread_pool_ t) (listen_fd_ t) (listen_registered_ t) (ts_started_ t)
         present (has_closed_callback_ t) (connections_ t).
Definition set_connection_closed_callback (present : bool) (t : TcpServer) : TcpServer :=
  if ts_started_ t then t
  else MkTcpServer (base_ptr_ t) (thread_pool_ t) (listen_fd_ t) (listen_registered_ t) (ts_started_ t)
         (has_message_callback_ t) present (connections_ t).

(** The answers to [socket], [setsockopt], [bind], [listen] and the two [fcntl]. *)
Record listen_answers : Type := MkListenAnswers {
  la_socket : Z;
  la_setsockopt : bool;
  la_bind : bool;
  la_listen : bool;
  la_getfl : bool;
  la_setfl : bool
}.

Section listening.
Context {CB F : Type}.
Implicit Types (l : EventLoop CB F).

Definition close_listen_socket (self : Z) (ctl : bool) (t : TcpServer) l : TcpServer * EventLoop CB F :=
  let '(t, l) :=
    if listen_registered_ t
    then (set_listen (listen_fd_ t) false t, (remove_fd self (listen_fd_ t) ctl l).2) else (t, l) in
  (if negb (listen_fd_ t =? -1) then set_listen (-1) (listen_registered_ t) t else t, l).

Definition create_listen_socket (self : Z) (ctl : bool) (a : listen_answers) (t : TcpServer) l :
    bool * TcpServer * EventLoop CB F :=
  if negb (listen_fd_ t =? -1) || listen_registered_ t then (false, t, l)
  else
    let t := set_listen (la_socket a) (listen_registered_ t) t in
    if la_socket a =? -1 then (false, t, l)
    else if negb (la_setsockopt a) || negb (la_bind a) || negb (la_listen a) || negb (la_getfl a)
            || negb (la_setfl a)
    then let '(t, l) := close_listen_socket self ctl t l in (false, t, l)
    else (true, t, l).

Definition ts_start (self : Z) (callback : CB) (added removed : bool) (a : listen_answers)
    (threads : nat → option Z) (t : TcpServer) l : bool * TcpServer * EventLoop CB F :=
  if negb (bool_decide (is_Some (base_ptr_ t))) || negb (valid l) || negb (is_in_loop_thread self l)
     || ts_started_ t || negb (listen_fd_ t =? -1) || listen_registered_ t
     || negb (has_message_callback_ t) then (false, t, l)
  else
    let '(created, t, l) := create_listen_socket self removed a t l in
    if negb created then (false, t, l)
    else
      let '(ok, l) := add_fd self (listen_fd_ t) (Some callback) added l in
      if negb ok then let '(t, l) := close_listen_socket self removed t l in (false, t, l)
      else
        let t := set_listen (listen_fd_ t) true t in
        let '(ok, pool) := start (valid l) (is_in_loop_thread self l) threads (thread_pool_ t) in
        let t := set_pool pool t in
        if negb ok then let '(t, l) := close_listen_socket self removed t l in (false, t, l)
        else (true, set_ts_started true t, l).

End listening.

(** [accept] returns a descriptor, whose two [fcntl] may fail; the connection
    object made for it has the address [object]. *)
Inductive accept_result : Type :=
| Accepted (fd : Z) (getfl setfl : bool) (object : Conn)
| AcceptEintr
| AcceptAgain
| AcceptError.

(** The server with the connection objects it has made, each with its descriptor
    and its loop; the tasks posted to loops; the descriptors it has closed
    itself; and the connections it has reported closed to the service. *)
Record TcpWorld : Type := MkTcpWorld {
  tw_server : TcpServer;
  tw_objects : gmap Conn (Z * Z);
  tw_posted : list (Z * Conn * LoopTask);
  tw_closed : list Z;
  tw_reported : list Conn
}.

Definition on_server (f : TcpServer → TcpServer) (w : TcpWorld) : TcpWorld :=
  MkTcpWorld (f (tw_server w)) (tw_objects w) (tw_posted w) (tw_closed w) (tw_reported w).
Definition close_descriptor (fd : Z) (w : TcpWorld) : TcpWorld :=
  MkTcpWorld (tw_server w) (tw_objects w) (tw_posted w) (tw_closed w ++ [fd]) (tw_reported w).
Definition post_task (loop : Z) (c : Conn) (task : LoopTask) (w : TcpWorld) : TcpWorld :=
  MkTcpWorld (tw_server w) (tw_objects w) (tw_posted w ++ [(loop, c, task)]) (tw_closed w) (tw_reported w).
Definition new_object (c : Conn) (fd loop : Z) (w : TcpWorld) : TcpWorld :=
  MkTcpWorld (tw_server w) (<[c:=(fd, loop)]> (tw_objects w)) (tw_posted w) (tw_closed w) (tw_reported w).
Definition report_closed (c : Conn) (w : TcpWorld) : TcpWorld :=
  MkTcpWorld (tw_server w) (tw_objects w) (tw_posted w) (tw_closed w) (tw_reported w ++ [c]).

(** The accepting loop, after one [accept] that returned [fd]. *)
Definition accept_connection (fd : Z) (getfl setfl : bool) (object : Conn) (w : TcpWorld) : TcpWorld :=
  if negb getfl then close_descriptor fd w
  else if negb setfl then close_descriptor fd w
  else
    let '(io_loop, pool) := get_next_loop true (thread_pool_ (tw_server w)) in
    let w := on_server (set_pool pool) w in
    match io_loop with
    | None => close_descriptor fd w
    | Some io_loop =>
        if bool_decide (is_Some (connections_ (tw_server w) !! fd)) then close_descriptor fd w
        else
          let w := new_object object fd io_loop w in
          let w := on_server (λ t, set_connections (<[fd:=object]> (connections_ t)) t) w in
          post_task io_loop object ConnectEstablished w
    end.

Fixpoint accept_loop (accepts : list accept_result) (w : TcpWorld) : TcpWorld :=
  match accepts with
  | [] => w
  | Accepted fd getfl setfl object :: accepts => accept_loop accepts (accept_connection fd getfl setfl object w)
  | AcceptEintr :: accepts => accept_loop accepts w
  | AcceptAgain :: _ | AcceptError :: _ => w
  end.

Definition handle_accept (in_base : bool) (events : Z) (accepts : list accept_result) (w : TcpWorld) : TcpWorld :=
  let t := tw_server w in
  if negb (bool_decide (is_Some (base_ptr_ t))) || negb in_base then w
  else if negb (ts_started_ t) || negb (listen_registered_ t) || (listen_fd_ t =? -1) then w
  else if Z.land events EPOLLIN =? 0 then w
  else accept_loop accepts w.

(** [remove_connection] runs this in the base loop. An exception of the callback
    is caught, so it does not matter how it ends. *)
Definition remove_connection_in_loop (in_base : bool) (connection : ConnectionPtr) (w : TcpWorld) : TcpWorld :=
  let t := tw_server w in
  if negb (bool_decide (is_Some (base_ptr_ t))) || negb in_base then w
  else match connection with
  | None => w
  | Some c =>
      match tw_objects w !! c with
      | None => w
      | Some (fd, io_loop) =>
          match connections_ t !! fd with
          | None => w
          | Some c' =>
              if negb (c' =? c) then w
              else
                let w := if has_closed_callback_ t then report_closed c w else w in
                let w := on_server (λ t, set_connections (delete fd (connections_ t)) t) w in
                post_task io_loop c ConnectDestroyed w
          end
      end
  end.

Section tables.
Context {ho : HashOrder}.

Definition check_timeouts (in_base : bool) (timeout : Z) (w : TcpWorld) : TcpWorld :=
  let t := tw_server w in
  if negb (bool_decide (is_Some (base_ptr_ t))) || negb in_base then w
  else if negb (ts_started_ t) then w
  else if timeout <=? 0 then w
  else foldl (λ w c, match tw_objects w !! c with
                     | Some (_, io_loop) => foldl (λ w task, post_task io_loop c task w) w (check_timeout timeout)
                     | None => w
                     end) w (hash_values (connections_ t)).

(** The destructor, after closing the listening socket. *)
Definition destroy_connections (in_base : bool) (w : TcpWorld) : TcpWorld :=
  let t := tw_server w in
  if negb (bool_decide (is_Some (base_ptr_ t))) || negb in_base then w
  else
    let w := on_server (set_ts_started false) w in
    let w := foldl (λ w c, match tw_objects w !! c with
                           | Some (_, io_loop) => post_task io_loop c ConnectDestroyed w
                           | None => w
                           end) w (hash_values (connections_ t)) in
    on_server (set_connections ∅) w.

(** The destructor; the threads of the pool are ended by the destructors of their
    objects, see EventLoopThreads.v. *)
Definition ts_destroy {CB F} (self : Z) (ctl : bool) (w : TcpWorld) (l : EventLoop CB F) :
    TcpWorld * EventLoop CB F :=
  if negb (bool_decide (is_Some (base_ptr_ (tw_server w)))) || negb (is_in_loop_thread self l) then (w, l)
  else
    let '(t, l) := close_listen_socket self ctl (tw_server w) l in
    (destroy_connections true (on_server (λ _, t) w), l).

End tables.

(** ** Runs *)

(** The server with the descriptors in use in the process. The kernel hands out
    a descriptor that is not in use; an object has an address of its own; a loop
    that destroys a connection closes its descriptor. *)
Record TcpSystem : Type := MkTcpSystem { tcp_world : TcpWorld; tcp_fds : gset Z; tcp_destroyed : list Conn }.

Inductive tcp_step : TcpSystem → TcpSystem → Prop :=
| TcpAccept fd getfl setfl object w fds destroyed :
    fd ∉ fds → 0 <= fd → object ∉ dom (tw_objects w) →
    let w' := accept_connection fd getfl setfl object w in
    tcp_step (MkTcpSystem w fds destroyed)
      (MkTcpSystem w' (if bool_decide (is_Some (tw_objects w' !! object)) then {[fd]} ∪ fds else fds) destroyed)
| TcpRemove connection w fds destroyed :
    tcp_step (MkTcpSystem w fds destroyed)
      (MkTcpSystem (remove_connection_in_loop true connection w) fds destroyed)
| TcpDestroyed io_loop c fd w fds destroyed :
    (io_loop, c, ConnectDestroyed) ∈ tw_posted w → c ∉ destroyed → tw_objects w !! c = Some (fd, io_loop) →
    tcp_step (MkTcpSystem w fds destroyed) (MkTcpSystem w (fds ∖ {[fd]}) (destroyed ++ [c])).

(** The connections whose destruction has been posted, in order. *)
Definition destroy_posted (w : TcpWorld) : list Conn :=
  omap (λ x, match x with (_, c, ConnectDestroyed) => Some c | _ => None end) (tw_posted w).
Definition established_posted (w : TcpWorld) : list Conn :=
  omap (λ x, match x with (_, c, ConnectEstablished) => Some c | _ => None end) (tw_posted w).

Definition TcpSystem_new (t : TcpServer) (fds : gset Z) : TcpSystem :=
  MkTcpSystem (MkTcpWorld (set_connections ∅ t) ∅ [] [] []) fds [].

(** * Proofs *)

(** Starting: the listening socket is registered, or, if [epoll_ctl] allows, the
    loop is as it was. *)
Lemma remove_added {CB F} self fd cb (l : EventLoop CB F) :
  valid l = true → 0 <= fd → owner_thread_id_ l = self → callbacks_ l !! fd = None →
  remove_fd self fd true (set_callbacks (<[fd:=cb]> (callbacks_ l)) l) = (true, l).
Proof.
  intros Hv Hf Ho Hn. unfold remove_fd, is_in_loop_thread.
  change (valid (set_callbacks (<[fd:=cb]> (callbacks_ l)) l)) with (valid l). cbn.
  rewrite Hv, Ho, Z.eqb_refl, (proj2 (Z.ltb_ge fd 0) Hf), lookup_insert_eq. cbn.
  rewrite delete_insert_id by done. f_equal. by destruct l.
Qed.

Lemma create_listen_socket_outcome {CB F} self ctl a t (l : EventLoop CB F) ok t' l' :
  create_listen_socket self ctl a t l = (ok, t', l') →
  l' = l ∧ listen_registered_ t' = listen_registered_ t ∧ (ok = true → listen_registered_ t = false).
Proof.
  unfold create_listen_socket. destruct (_ || listen_registered_ t) eqn:Hg; [by intros [= <- <- <-]|].
  apply orb_false_iff in Hg as [_ Hr]. cbn. destruct (_ =? -1); [by intros [= <- <- <-]|].
  destruct (_ || _ || _ || _ || _); [|by intros [= <- <- <-]].
  unfold close_listen_socket. cbn. rewrite Hr. destruct (negb _); by intros [= <- <- <-].
Qed.

Lemma ts_start_outcome {CB F} self cb added removed a threads t (l : EventLoop CB F) ok t' l' :
  ts_start self cb added removed a threads t l = (ok, t', l') →
  if ok
  then listen_registered_ t = false ∧ listen_registered_ t' = true ∧ ts_started_ t' = true ∧ 0 <= listen_fd_ t' ∧
       callbacks_ l !! listen_fd_ t' = None ∧ l' = set_callbacks (<[listen_fd_ t':=cb]> (callbacks_ l)) l
  else removed = true → l' = l ∧ listen_registered_ t' = listen_registered_ t.
Proof.
  unfold ts_start. destruct (_ || _ || _ || _ || _ || listen_registered_ t || _) eqn:Hg; [by intros [= <- <- <-]|].
  to_prop. destruct (create_listen_socket _ _ _ _ _) as [[created t1] l1] eqn:Hc.
  apply create_listen_socket_outcome in Hc as (-> & Hreg & _).
  destruct created; cbn [negb]; [|by intros [= <- <- <-]].
  destruct (add_fd _ _ _ _ _) as [ok1 l2] eqn:Ha. destruct ok1; cbn [negb].
  - apply add_fd_success in Ha as (cb' & [= <-] & Hv & Hf & Ho & Hn & _ & ->).
    destruct (start _ _ _ _) as [[] pool]; cbn [negb].
    + intros [= <- <- <-]. cbn. split_and!; congruence || done.
    + unfold close_listen_socket. cbn. destruct removed.
      * rewrite remove_added by done. destruct (_ =? -1); cbn; intros [= <- <- <-] _; split; congruence || done.
      * destruct (_ =? -1); cbn; by intros [= <- <- <-].
  - apply add_fd_failure in Ha as ->. unfold close_listen_socket.
    replace (listen_registered_ t1) with false by congruence.
    destruct (negb _); intros [= <- <- <-] _; split; cbn; congruence || done.
Qed.

(** The loop stays with its thread. *)
Lemma close_listen_socket_owner {CB F} self ctl t (l : EventLoop CB F) :
  owner_thread_id_ (close_listen_socket self ctl t l).2 = owner_thread_id_ l.
Proof.
  assert (Ho : ∀ fd, owner_thread_id_ (remove_fd self fd ctl l).2 = owner_thread_id_ l)
    by (intros fd; unfold remove_fd; by repeat case_match).
  unfold close_listen_socket. destruct (listen_registered_ t); cbn; [apply Ho|done].
Qed.

Lemma ts_start_owner {CB F} self cb added removed a threads t (l : EventLoop CB F) ok t' l' :
  ts_start self cb added removed a threads t l = (ok, t', l') → owner_thread_id_ l' = owner_thread_id_ l.
Proof.
  unfold ts_start. destruct (_ || _ || _ || _ || _ || listen_registered_ t || _); [by intros [= <- <- <-]|].
  destruct (create_listen_socket _ _ _ _ _) as [[created t1] l1] eqn:Hc.
  apply create_listen_socket_outcome in Hc as (-> & _).
  destruct created; cbn [negb]; [|by intros [= <- <- <-]].
  destruct (add_fd _ _ _ _ _) as [ok1 l2] eqn:Ha.
  assert (E : owner_thread_id_ l2 = owner_thread_id_ l).
  { revert Ha. unfold add_fd. repeat case_match; by intros [= <- <-]. }
  destruct ok1; cbn [negb]; [destruct (start _ _ _ _) as [[] pool]; cbn [negb]|]; [by intros [= <- <- <-]|..];
    match goal with |- context [close_listen_socket self removed ?s l2] =>
      pose proof (close_listen_socket_owner self removed s l2) as Ho; destruct (close_listen_socket self removed s l2)
    end; intros [= <- <- <-]; cbn in Ho; congruence.
Qed.

(** Starting leaves the table of connections and the callbacks alone. *)
Definition same_clients (t t' : TcpServer) : Prop :=
  connections_ t' = connections_ t ∧ has_closed_callback_ t' = has_closed_callback_ t ∧ base_ptr_ t' = base_ptr_ t.

Lemma close_listen_socket_clients {CB F} self ctl t (l : EventLoop CB F) :
  same_clients t (close_listen_socket self ctl t l).1.
Proof. unfold close_listen_socket. destruct (listen_registered_ t); cbn; by destruct (negb _). Qed.

Lemma create_listen_socket_clients {CB F} self ctl a t (l : EventLoop CB F) :
  same_clients t (create_listen_socket self ctl a t l).1.2.
Proof.
  unfold create_listen_socket. destruct (_ || _); [done|]. destruct (_ =? -1); [done|].
  destruct (_ || _ || _ || _ || _); [|done].
  pose proof (close_listen_socket_clients self ctl (set_listen (la_socket a) (listen_registered_ t) t) l) as Hc.
  by destruct (close_listen_socket _ _ _ _).
Qed.

Lemma ts_start_clients {CB F} self cb added removed a threads t (l : EventLoop CB F) :
  same_clients t (ts_start self cb added removed a threads t l).1.2.
Proof.
  unfold ts_start. destruct (_ || _ || _ || _ || _ || _ || _); [done|].
  pose proof (create_listen_socket_clients self removed a t l) as (Hc & Hb & Hp).
  destruct (create_listen_socket _ _ _ _ _) as [[created t1] l1]. destruct created; cbn [negb]; [|done].
  cbn [fst snd] in *. destruct (add_fd _ _ _ _ _) as [ok l2]. destruct ok; cbn [negb].
  - destruct (start _ _ _ _) as [ok pool]. destruct ok; cbn [negb]; [done|].
    pose proof (close_listen_socket_clients self removed (set_pool pool (set_listen (listen_fd_ t1) true t1)) l2) as (? & ? & ?).
    destruct (close_listen_socket _ _ _ _). cbn [fst snd] in *. split_and!; cbn in *; congruence.
  - pose proof (close_listen_socket_clients self removed t1 l2) as (? & ? & ?).
    destruct (close_listen_socket _ _ _ _). cbn [fst snd] in *. split_and!; congruence.
Qed.

(** Serving clients leaves the listening socket alone. *)
Definition same_listening (t t' : TcpServer) : Prop :=
  listen_registered_ t' = listen_registered_ t ∧ listen_fd_ t' = listen_fd_ t ∧ ts_started_ t' = ts_started_ t ∧
  base_ptr_ t' = base_ptr_ t.

#[export] Instance same_listening_preorder : PreOrder same_listening.
Proof. split; [by intros t|]. intros t1 t2 t3 (? & ? & ? & ?) (? & ? & ? & ?). split_and!; congruence. Qed.

Lemma accept_connection_listening fd getfl setfl c w :
  same_listening (tw_server w) (tw_server (accept_connection fd getfl setfl c w)).
Proof.
  unfold accept_connection. destruct getfl, setfl; cbn [negb]; try done.
  destruct (get_next_loop _ _) as [[loop|] pool]; [|done]. by case_bool_decide.
Qed.

Lemma accept_loop_listening accepts w : same_listening (tw_server w) (tw_server (accept_loop accepts w)).
Proof.
  revert w. induction accepts as [|[fd getfl setfl c| | |] accepts IH]; intros w; cbn; try done.
  etrans; [apply accept_connection_listening|apply IH].
Qed.

Lemma handle_accept_listening b events accepts w :
  same_listening (tw_server w) (tw_server (handle_accept b events accepts w)).
Proof.
  unfold handle_accept. destruct (_ || _); [done|]. destruct (_ || _ || _); [done|]. destruct (_ =? 0); [done|].
  apply accept_loop_listening.
Qed.

Lemma foldl_keeps {A B} (proj : TcpWorld → B) (f : TcpWorld → A → TcpWorld) l w :
  (∀ w x, proj (f w x) = proj w) → proj (foldl f w l) = proj w.
Proof. intros Hf. revert w. induction l as [|x l IH]; intros w; cbn; [done|]. by rewrite IH, Hf. Qed.

Lemma check_timeouts_keeps `{HashOrder} b timeout w :
  tw_server (check_timeouts b timeout w) = tw_server w ∧ tw_objects (check_timeouts b timeout w) = tw_objects w.
Proof.
  unfold check_timeouts. destruct (_ || _); [done|]. destruct (negb _); [done|]. destruct (_ <=? _); [done|].
  split; apply foldl_keeps; intros w' c; destruct (tw_objects w' !! c) as [[fd io_loop]|]; try done; by apply foldl_keeps.
Qed.

Lemma check_timeouts_listening `{HashOrder} b timeout w :
  same_listening (tw_server w) (tw_server (check_timeouts b timeout w)).
Proof. by destruct (check_timeouts_keeps b timeout w) as [-> _]. Qed.

Lemma remove_connection_listening b connection w :
  same_listening (tw_server w) (tw_server (remove_connection_in_loop b connection w)).
Proof.
  unfold remove_connection_in_loop. destruct (_ || _); [done|]. destruct connection as [c|]; [|done].
  destruct (tw_objects w !! c) as [[fd io_loop]|]; [|done]. destruct (connections_ _ !! fd); [|done].
  destruct (negb _); [done|]. by destruct (has_closed_callback_ _).
Qed.

(** The destructor closes the listening socket, whether or not [epoll_ctl] lets
    it be taken out of the loop, and has every connection of the table closed by
    its own loop. *)
Lemma destroy_posts (l : list Conn) w :
  let w' := foldl (λ w c, match tw_objects w !! c with
                          | Some (_, io_loop) => post_task io_loop c ConnectDestroyed w
                          | None => w
                          end) w l in
  tw_server w' = tw_server w ∧ tw_objects w' = tw_objects w ∧ (∀ x, x ∈ tw_posted w → x ∈ tw_posted w') ∧
  ∀ c fd io_loop, c ∈ l → tw_objects w !! c = Some (fd, io_loop) → (io_loop, c, ConnectDestroyed) ∈ tw_posted w'.
Proof.
  revert w. induction l as [|c l IH]; intros w; cbn [foldl]; [by split_and!; [..|intros ??? ?%elem_of_nil]|].
  destruct (tw_objects w !! c) as [[fd io_loop]|] eqn:Hc.
  - destruct (IH (post_task io_loop c ConnectDestroyed w)) as (-> & -> & Hkeep & Hall). split_and!; [done..| |].
    + intros x Hx. apply Hkeep. cbn. apply elem_of_app. by left.
    + intros c' fd' io' [->|Hin]%elem_of_cons Hc'; [|by eapply Hall].
      apply Hkeep. cbn. apply elem_of_app. right. rewrite Hc in Hc'. injection Hc' as _ <-. by left.
  - destruct (IH w) as (-> & -> & Hkeep & Hall). split_and!; [done..|].
    intros c' fd' io' [->|Hin]%elem_of_cons Hc'; [congruence|by eapply Hall].
Qed.

Lemma ts_destroy_outcome `{HashOrder} {CB F} self ctl w (l : EventLoop CB F) :
  is_Some (base_ptr_ (tw_server w)) → is_in_loop_thread self l = true →
  let '(w', l') := ts_destroy self ctl w l in
  (ts_started_ (tw_server w') = false ∧ listen_fd_ (tw_server w') = -1 ∧
   listen_registered_ (tw_server w') = false ∧ connections_ (tw_server w') = ∅) ∧
  owner_thread_id_ l' = owner_thread_id_ l ∧
  ∀ fd c io_loop, connections_ (tw_server w) !! fd = Some c → tw_objects w !! c = Some (fd, io_loop) →
    (io_loop, c, ConnectDestroyed) ∈ tw_posted w'.
Proof.
  intros Hb Hin. unfold ts_destroy. rewrite bool_decide_true, Hin by done. cbn [negb orb].
  destruct (close_listen_socket_clients self ctl (tw_server w) l) as (Hc & _ & Hp).
  assert (Hl : listen_fd_ (close_listen_socket self ctl (tw_server w) l).1 = -1 ∧
    listen_registered_ (close_listen_socket self ctl (tw_server w) l).1 = false).
  { unfold close_listen_socket. destruct (listen_registered_ (tw_server w)) eqn:Hr; cbn;
      destruct (Z.eqb_spec (listen_fd_ (tw_server w)) (-1)) as [E|E]; cbn; rewrite ?Hr, ?E; auto. }
  pose proof (close_listen_socket_owner self ctl (tw_server w) l) as Ho.
  destruct (close_listen_socket _ _ _ _) as [t l']. cbn [fst snd] in *.
  destruct Hl as (Hf & Hr). unfold destroy_connections. cbn [tw_server on_server].
  rewrite Hp, bool_decide_true by done. cbn [negb orb].
  set (w1 := on_server (set_ts_started false) (on_server (λ _, t) w)).
  destruct (destroy_posts (hash_values (connections_ t)) w1) as (Es & Eo & _ & Hall).
  split_and!; cbn; rewrite ?Es; try done.
  intros fd c io_loop Hfd Hobj. eapply Hall; [|exact Hobj]. apply elem_of_hash_values. exists fd. by rewrite Hc.
Qed.

Section server_proofs.
Implicit Types (s : TcpSystem) (w : TcpWorld).

#[local] Arguments destroy_posted : simpl never.
#[local] Arguments established_posted : simpl never.

(** The two outcomes of an accepted descriptor, and of a removal. *)
Definition accepted_world (fd loop : Z) (c : Conn) (pool : EventLoopThreadPool) w : TcpWorld :=
  post_task loop c ConnectEstablished
    (on_server (λ t, set_connections (<[fd:=c]> (connections_ t)) t)
      (new_object c fd loop (on_server (set_pool pool) w))).
Definition removed_world (fd loop : Z) (c : Conn) w : TcpWorld :=
  post_task loop c ConnectDestroyed
    (on_server (λ t, set_connections (delete fd (connections_ t)) t)
      (if has_closed_callback_ (tw_server w) then report_closed c w else w)).

Definition same_tables w w' : Prop :=
  connections_ (tw_server w') = connections_ (tw_server w) ∧ tw_objects w' = tw_objects w ∧
  tw_posted w' = tw_posted w ∧ tw_reported w' = tw_reported w ∧
  has_closed_callback_ (tw_server w') = has_closed_callback_ (tw_server w) ∧
  base_ptr_ (tw_server w') = base_ptr_ (tw_server w).

Lemma accept_connection_outcome fd getfl setfl c w :
  same_tables w (accept_connection fd getfl setfl c w) ∨
  ∃ loop pool, connections_ (tw_server w) !! fd = None ∧
    accept_connection fd getfl setfl c w = accepted_world fd loop c pool w.
Proof.
  unfold accept_connection. destruct getfl, setfl; cbn [negb]; try (left; by split_and!).
  destruct (get_next_loop true (thread_pool_ (tw_server w))) as [[loop|] pool]; [|left; by split_and!].
  case_bool_decide as Hs; [left; by split_and!|]. right. exists loop, pool.
  split; [|done]. by apply eq_None_not_Some.
Qed.

Lemma remove_connection_outcome connection w :
  remove_connection_in_loop true connection w = w ∨
  ∃ c fd loop, connection = Some c ∧ tw_objects w !! c = Some (fd, loop) ∧
    connections_ (tw_server w) !! fd = Some c ∧
    remove_connection_in_loop true connection w = removed_world fd loop c w.
Proof.
  unfold remove_connection_in_loop. destruct (_ || _); [by left|].
  destruct connection as [c|]; [|by left]. destruct (tw_objects w !! c) as [[fd loop]|] eqn:Hc; [|by left].
  destruct (connections_ (tw_server w) !! fd) as [c'|] eqn:Hf; [|by left].
  destruct (Z.eqb_spec c' c) as [->|]; cbn [negb]; [|by left]. right. by exists c, fd, loop.
Qed.

Record tcp_inv s : Prop := {
  tc_table : ∀ fd c, connections_ (tw_server (tcp_world s)) !! fd = Some c →
    (∃ loop, tw_objects (tcp_world s) !! c = Some (fd, loop)) ∧ c ∉ destroy_posted (tcp_world s);
  tc_objects : ∀ c fd loop, tw_objects (tcp_world s) !! c = Some (fd, loop) →
    connections_ (tw_server (tcp_world s)) !! fd = Some c ∨ c ∈ destroy_posted (tcp_world s);
  tc_posted : NoDup (destroy_posted (tcp_world s));
  tc_posted_objects : ∀ c, c ∈ destroy_posted (tcp_world s) → c ∈ dom (tw_objects (tcp_world s));
  tc_destroyed : ∀ c, c ∈ tcp_destroyed s → c ∈ destroy_posted (tcp_world s);
  tc_fds : ∀ c fd loop, tw_objects (tcp_world s) !! c = Some (fd, loop) →
    c ∉ tcp_destroyed s → fd ∈ tcp_fds s;
  tc_unique : ∀ c c' fd loop loop', tw_objects (tcp_world s) !! c = Some (fd, loop) →
    tw_objects (tcp_world s) !! c' = Some (fd, loop') → c ∉ tcp_destroyed s → c' ∉ tcp_destroyed s → c = c';
  tc_established : NoDup (established_posted (tcp_world s)) ∧
    ∀ c, c ∈ established_posted (tcp_world s) ↔ c ∈ dom (tw_objects (tcp_world s));
  tc_reported : has_closed_callback_ (tw_server (tcp_world s)) = true →
    tw_reported (tcp_world s) = destroy_posted (tcp_world s)
}.

Lemma posted_in io_loop c w : (io_loop, c, ConnectDestroyed) ∈ tw_posted w → c ∈ destroy_posted w.
Proof. intros Hin. unfold destroy_posted. apply list_elem_of_omap. by eexists. Qed.

Lemma same_tables_inv w w' fds destroyed :
  same_tables w w' → tcp_inv (MkTcpSystem w fds destroyed) → tcp_inv (MkTcpSystem w' fds destroyed).
Proof.
  intros (Hc & Ho & Hp & Hr & Hcb & _) []. cbn in *.
  split; cbn; unfold destroy_posted, established_posted in *; rewrite ?Hc, ?Ho, ?Hp, ?Hr, ?Hcb; done.
Qed.

Lemma accepted_inv fd loop c pool w fds destroyed :
  fd ∉ fds → c ∉ dom (tw_objects w) → connections_ (tw_server w) !! fd = None →
  tcp_inv (MkTcpSystem w fds destroyed) →
  tcp_inv (MkTcpSystem (accepted_world fd loop c pool w) ({[fd]} ∪ fds) destroyed).
Proof.
  intros Hfd Hc Hnone [Htab Hobj Hpost Hpo Hdes Hfds Huniq [Hest Hest'] Hrep]. cbn in *.
  assert (Hd : destroy_posted (accepted_world fd loop c pool w) = destroy_posted w).
  { unfold destroy_posted. cbn. by rewrite omap_app, app_nil_r. }
  assert (He : established_posted (accepted_world fd loop c pool w) = established_posted w ++ [c]).
  { unfold established_posted. cbn. by rewrite omap_app. }
  assert (Hnc : tw_objects w !! c = None) by (by apply not_elem_of_dom).
  split; cbn; rewrite ?Hd, ?He; try done.
  - intros fd' c' [[<- <-]|[Hne Hl]]%lookup_insert_Some.
    + rewrite lookup_insert_eq. split; [by eexists|]. by intros ?%Hpo.
    + destruct (Htab _ _ Hl) as [[loop' Ho] Hn]. split; [|done]. exists loop'.
      rewrite lookup_insert_ne; [done|]. intros <-. congruence.
  - intros c' fd' loop' [[<- [= <- <-]]|[Hne Hl]]%lookup_insert_Some; [left; by rewrite lookup_insert_eq|].
    destruct (Hobj _ _ _ Hl) as [Ht|Ht]; [left|by right]. rewrite lookup_insert_ne; [done|]. intros <-. congruence.
  - intros c' Hin%Hpo. rewrite dom_insert. apply elem_of_union. by right.
  - intros c' fd' loop' [[<- [= <- <-]]|[Hne Hl]]%lookup_insert_Some Hn; [set_solver|].
    apply elem_of_union. right. by eapply Hfds.
  - intros c1 c2 fd' l1 l2 [[<- [= <- <-]]|[Hne Hl]]%lookup_insert_Some [[<- E]|[Hne' Hl']]%lookup_insert_Some Hn Hn';
      try done.
    + exfalso. apply Hfd. by eapply Hfds.
    + injection E as <- <-. exfalso. apply Hfd. by eapply Hfds.
    + by eapply Huniq.
  - split.
    + apply NoDup_app. split_and!; [done| |apply NoDup_singleton].
      intros x Hx ->%list_elem_of_singleton. by apply Hc, Hest'.
    + intros x. rewrite dom_insert, elem_of_app, elem_of_union, list_elem_of_singleton, elem_of_singleton, Hest'.
      tauto.
Qed.

Lemma removed_inv fd loop c w fds destroyed :
  tw_objects w !! c = Some (fd, loop) → connections_ (tw_server w) !! fd = Some c →
  tcp_inv (MkTcpSystem w fds destroyed) → tcp_inv (MkTcpSystem (removed_world fd loop c w) fds destroyed).
Proof.
  intros Hoc Hcf [Htab Hobj Hpost Hpo Hdes Hfds Huniq [Hest Hest'] Hrep]. cbn in *.
  assert (Hd : destroy_posted (removed_world fd loop c w) = destroy_posted w ++ [c]).
  { unfold destroy_posted, removed_world. cbn. rewrite omap_app. by destruct (has_closed_callback_ _). }
  assert (He : established_posted (removed_world fd loop c w) = established_posted w).
  { unfold established_posted, removed_world. cbn. rewrite omap_app.
    by destruct (has_closed_callback_ _); cbn; rewrite app_nil_r. }
  assert (Ho : tw_objects (removed_world fd loop c w) = tw_objects w)
    by (unfold removed_world; cbn; by destruct (has_closed_callback_ _)).
  assert (Hcon : connections_ (tw_server (removed_world fd loop c w)) = delete fd (connections_ (tw_server w)))
    by (unfold removed_world; cbn; by destruct (has_closed_callback_ _)).
  assert (Hcb : has_closed_callback_ (tw_server (removed_world fd loop c w)) = has_closed_callback_ (tw_server w))
    by (unfold removed_world; cbn; by destruct (has_closed_callback_ _) eqn:E).
  destruct (Htab fd c Hcf) as [_ Hnp].
  split; cbn [tcp_world tcp_fds tcp_destroyed]; rewrite ?Hd, ?He, ?Ho, ?Hcon, ?Hcb; try done.
  - intros fd' c' [Hne Hl]%lookup_delete_Some. destruct (Htab _ _ Hl) as [[loop' Ho'] Hn].
    split; [by exists loop'|]. rewrite elem_of_app, list_elem_of_singleton. intros [?| ->]; [done|]. congruence.
  - intros c' fd' loop' Hl. rewrite elem_of_app, list_elem_of_singleton.
    destruct (Hobj _ _ _ Hl) as [Ht|Ht]; [|by right; left].
    destruct (decide (fd' = fd)) as [->|Hne]; [right; right; congruence|left; by rewrite lookup_delete_ne].
  - apply NoDup_app. split_and!; [done| |apply NoDup_singleton].
    by intros x Hx ->%list_elem_of_singleton.
  - intros c' [Hin| ->%list_elem_of_singleton]%elem_of_app; [by apply Hpo|]. by apply elem_of_dom.
  - intros c' Hin%Hdes. apply elem_of_app. by left.
  - intros Hc. unfold removed_world. cbn. rewrite Hc. cbn. by rewrite Hrep.
Qed.

Lemma tcp_step_inv s s' : tcp_step s s' → tcp_inv s → tcp_inv s'.
Proof.
  destruct 1 as [fd getfl setfl c w fds destroyed Hfd Hpos Hc w'|connection w fds destroyed
    |loop c fd w fds destroyed Hin Hn Ho]; intros Hi.
  - subst w'. destruct (accept_connection_outcome fd getfl setfl c w) as [Hs|(loop & pool & Hnone & ->)].
    + pose proof Hs as (_ & Ho & _). rewrite Ho, bool_decide_false.
      * by eapply same_tables_inv.
      * by rewrite <-elem_of_dom.
    + rewrite bool_decide_true; [by apply accepted_inv|]. cbn. by rewrite lookup_insert_eq.
  - destruct (remove_connection_outcome connection w) as [->|(c & fd & loop & -> & Ho & Hf & ->)]; [done|].
    by apply removed_inv.
  - pose proof (posted_in _ _ _ Hin) as Hd.
    destruct Hi as [Htab Hobj Hpost Hpo Hdes Hfds Huniq Hest Hrep]. cbn in *. split; cbn; try done.
    + intros c' [Hc| ->%list_elem_of_singleton]%elem_of_app; [by apply Hdes|done].
    + intros c' fd' loop' Hc' Hn'. rewrite elem_of_app, list_elem_of_singleton in Hn'.
      apply elem_of_difference. split; [eapply Hfds; [exact Hc'|tauto]|].
      intros ->%elem_of_singleton. apply Hn'. right. eapply Huniq; [exact Hc'|exact Ho|tauto|done].
    + intros c1 c2 fd' l1 l2 H1 H2. rewrite !elem_of_app, !list_elem_of_singleton. intros ??.
      eapply Huniq; [exact H1|exact H2|tauto|tauto].
Qed.

Lemma TcpSystem_new_inv t fds : tcp_inv (TcpSystem_new t fds).
Proof.
  split; cbn; try done; try constructor; try constructor; try (by intros c ?%elem_of_nil).
  all: intros Hc; rewrite dom_empty in *; by (apply elem_of_nil in Hc || apply elem_of_empty in Hc).
Qed.

(** C17: Each connection is accepted, reported and destroyed once. In every run of
    accepts, close reports in any order and number, also repeated or stale ones
    for a descriptor that has been given to a newer connection, and destructions
    in the loops: every connection object is in the table or has been reported
    closed, never both, and is reported and sent to be destroyed at most once,
    in the same order; the table has one entry per object; and a descriptor that
    the kernel hands out is never still in the table, so no accepted client is
    turned away for that reason. *)
Theorem connections_closed_once t fds s :
  has_closed_callback_ t = true → rtc tcp_step (TcpSystem_new t fds) s →
  let w := tcp_world s in
  NoDup (tw_reported w) ∧ tw_reported w = destroy_posted w ∧ NoDup (established_posted w) ∧
  (∀ c, c ∈ established_posted w ↔ (∃ fd, connections_ (tw_server w) !! fd = Some c) ∨ c ∈ tw_reported w) ∧
  (∀ fd c, connections_ (tw_server w) !! fd = Some c → c ∉ tw_reported w ∧
     ∀ fd', connections_ (tw_server w) !! fd' = Some c → fd' = fd) ∧
  (∀ fd, fd ∉ tcp_fds s → connections_ (tw_server w) !! fd = None).
Proof.
  intros Hcb Hrun w.
  assert (Hi : tcp_inv s ∧ has_closed_callback_ (tw_server (tcp_world s)) = true).
  { assert (Hgen : ∀ s1, rtc tcp_step s1 s → tcp_inv s1 →
      has_closed_callback_ (tw_server (tcp_world s1)) = true →
      tcp_inv s ∧ has_closed_callback_ (tw_server (tcp_world s)) = true).
    { clear Hrun. intros s1 Hrun. induction Hrun as [s1|s1 s2 s3 Hs _ IH]; [done|]. intros Hi Hc.
      apply IH; [by eapply tcp_step_inv|]. destruct Hs as [fd getfl setfl c w1 fds1 d1 _ _ _ w'|connection w1 fds1 d1|]; cbn in *.
      - subst w'. destruct (accept_connection_outcome fd getfl setfl c w1) as [(_ & _ & _ & _ & E & _)|(loop & pool & _ & ->)];
          [by rewrite E|done].
      - destruct (remove_connection_outcome connection w1) as [->|(c & fd & loop & -> & _ & _ & ->)]; [done|].
        unfold removed_world. cbn. by rewrite Hc.
      - done. }
    apply (Hgen _ Hrun); [apply TcpSystem_new_inv|done]. }
  destruct Hi as [[Htab Hobj Hpost Hpo Hdes Hfds Huniq [Hest Hest'] Hrep] Hc].
  specialize (Hrep Hc). fold w in Htab, Hobj, Hpost, Hpo, Hfds, Huniq, Hest, Hest', Hrep.
  rewrite Hrep. split_and!; try done.
  - intros c. rewrite Hest', elem_of_dom. split.
    + intros [[fd loop] Ho]. destruct (Hobj _ _ _ Ho); [left; by eexists|by right].
    + intros [[fd Hf]|Hd]; [|by apply elem_of_dom, Hpo]. destruct (Htab _ _ Hf) as [[loop Ho] _]. by eexists.
  - intros fd c Hf. destruct (Htab _ _ Hf) as [[loop Ho] Hn]. split; [done|].
    intros fd' Hf'. destruct (Htab _ _ Hf') as [[loop' Ho'] _]. congruence.
  - intros fd Hfd. destruct (connections_ (tw_server w) !! fd) as [c|] eqn:Hf; [|done].
    destruct (Htab _ _ Hf) as [[loop Ho] Hn]. exfalso. apply Hfd. eapply Hfds; [exact Ho|].
    by intros ?%Hdes.
Qed.

End server_proofs.

(** A client comes and goes, is reported twice, and its descriptor is given to
    the next client. *)
Definition demo_server : TcpServer :=
  MkTcpServer (Some 1) (MkEventLoopThreadPool (Some 1) 1 true 0 [10]) 5 true true true true ∅.

Ltac tcp_side :=
  first [by vm_compute | refine (bool_decide_unpack _ _); by vm_compute
        | apply (list_elem_of_lookup_2 _ 1%nat); by vm_compute].

Lemma demo_server_runs :
  ∃ s, rtc tcp_step (TcpSystem_new demo_server {[5]}) s ∧
    tw_reported (tcp_world s) = [100] ∧ connections_ (tw_server (tcp_world s)) !! 7 = Some 101.
Proof.
  eexists. split.
  - eapply rtc_l; [apply (TcpAccept 7 true true 100); tcp_side|].
    eapply rtc_l; [apply (TcpRemove (Some 100))|]. eapply rtc_l; [apply (TcpRemove (Some 100))|].
    eapply rtc_l; [apply (TcpDestroyed 10 100 7); tcp_side|].
    eapply rtc_l; [apply (TcpAccept 7 true true 101); tcp_side|].
    eapply rtc_l; [apply (TcpRemove (Some 100))|]. apply rtc_refl.
  - by vm_compute.
Qed.

Lemma connections_closed_once_witness :
  ∃ s, rtc tcp_step (TcpSystem_new demo_server {[5]}) s ∧ tw_reported (tcp_world s) = [100] ∧
    NoDup (tw_reported (tcp_world s)).
Proof.
  destruct demo_server_runs as (s & Hrun & Hrep & _). exists s. split; [exact Hrun|]. split; [exact Hrep|].
  exact (proj1 (connections_closed_once demo_server {[5]} s eq_refl Hrun)).
Defined.
