(* ===== verification/ServerMain.v ===== *)
(** [src/main/server.cpp]: wiring the parts together, starting them in order
    with the roll-back of a failed start, running the base loop, and stopping
    everything. The callbacks and functors of the base loop are data, so that
    the loop of EventLoop.v runs the handlers of the other files. Results of
    system calls are arguments. *)

From Stdlib Require Import String.
From S2P Require Import Prelude Bytes Checkpoint CheckpointCodec Connection Room RoomManager Session SessionManager RoomService.
From S2P Require Import ServiceInvariant EventLoop EventLoopThreads Files SimFiles CheckpointStore StoreThreads.
From S2P Require Import TickTimer ShutdownSignal PersistenceService TcpServer.
Open Scope Z_scope.

(** * Definitions *)

Definition THREAD_COUNT : nat := 4.
Definition DEFAULT_ROOM_ID : Z := 1.
Definition DEFAULT_ROOM_CAPACITY : Z := 4.
Definition TICK_INTERVAL_MS : Z := 50.
Definition TIMEOUT_SCAN_INTERVAL_MS : Z := 1000.
Definition CONNECTION_TIMEOUT : Z := 10000.
Definition RECONNECT_TIMEOUT : Z := 30000.
Definition CHECKPOINT_INTERVAL_MS : Z := 5000.
Definition CHECKPOINT_PATH : bytes := String.list_byte_of_string "data/server.checkpoint".

(** The closures that are registered with the base loop, and those that other
    threads queue in it. *)
Inductive Callback : Type :=
| WakeupCallback | AcceptCallback | TickCallback | TimeoutCallback | SaveCallback | SignalCallback.
Inductive Functor : Type :=
| RemoveConnection (connection : Conn)
| HandleFrame (connection : Conn) (type : Z) (payload : bytes).

#[global] Instance Callback_eq_dec : EqDecision Callback.
Proof. solve_decision. Defined.

(** The local variables of [main]; [sv_store] and [sv_save_timer] are members of
    the persistence service. *)
Record Server : Type := MkServer {
  sv_loop : EventLoop Callback Functor;
  sv_signal : ShutdownSignal;
  sv_world : World;
  sv_persist : PersistenceService;
  sv_store : CheckpointStore;
  sv_save_timer : TickTimer;
  sv_tick_timer : TickTimer;
  sv_timeout_timer : TickTimer;
  sv_tcp : TcpWorld
}.

Definition set_sv_loop l sv : Server :=
  MkServer l (sv_signal sv) (sv_world sv) (sv_persist sv) (sv_store sv) (sv_save_timer sv)
    (sv_tick_timer sv) (sv_timeout_timer sv) (sv_tcp sv).
Definition set_sv_signal t l sv : Server :=
  MkServer l t (sv_world sv) (sv_persist sv) (sv_store sv) (sv_save_timer sv)
    (sv_tick_timer sv) (sv_timeout_timer sv) (sv_tcp sv).
Definition set_sv_world w sv : Server :=
  MkServer (sv_loop sv) (sv_signal sv) w (sv_persist sv) (sv_store sv) (sv_save_timer sv)
    (sv_tick_timer sv) (sv_timeout_timer sv) (sv_tcp sv).
Definition set_sv_persist ps store timer l sv : Server :=
  MkServer l (sv_signal sv) (sv_world sv) ps store timer
    (sv_tick_timer sv) (sv_timeout_timer sv) (sv_tcp sv).
Definition set_sv_tick t l sv : Server :=
  MkServer l (sv_signal sv) (sv_world sv) (sv_persist sv) (sv_store sv) (sv_save_timer sv)
    t (sv_timeout_timer sv) (sv_tcp sv).
Definition set_sv_timeout t l sv : Server :=
  MkServer l (sv_signal sv) (sv_world sv) (sv_persist sv) (sv_store sv) (sv_save_timer sv)
    (sv_tick_timer sv) t (sv_tcp sv).
Definition set_sv_tcp t l sv : Server :=
  MkServer l (sv_signal sv) (sv_world sv) (sv_persist sv) (sv_store sv) (sv_save_timer sv)
    (sv_tick_timer sv) (sv_timeout_timer sv) t.

(** ** Answers of the system *)

Record SetupAnswers : Type := MkSetupAnswers {
  sa_logger : bool;
  sa_epoll : Z; sa_event : Z; sa_wakeup : bool;
  sa_mask_built : bool; sa_blocked : bool; sa_signal : Z; sa_restored : bool;
  sa_directories : bool;
  sa_save : Z; sa_tick : Z; sa_timeout : Z;
  sa_now : Z;
  sa_random : list random_result
}.

(** [timerfd_settime] and [epoll_ctl] when a timer is started; the two of them
    and the reads that drain the descriptor when it is disarmed. *)
Record TimerAnswers : Type := MkTimerAnswers {
  ta_armed : bool;
  ta_added : bool;
  ta_removed : bool;
  ta_disarmed : bool;
  ta_reads : list timer_read
}.

Record StartAnswers : Type := MkStartAnswers {
  st_listen : listen_answers; st_added : bool; st_removed : bool; st_threads : nat → option Z;
  st_tick : TimerAnswers; st_timeout : TimerAnswers;
  st_thread_created : bool; st_save : TimerAnswers;
  st_signal : bool
}.

Record StopAnswers : Type := MkStopAnswers {
  so_timeout : TimerAnswers; so_tick : TimerAnswers; so_save : TimerAnswers; so_signal : bool
}.

(** The destructors at the end of [main]: the timers, the listening socket in
    [epoll_ctl], the signal descriptor, and restoring the signal mask. *)
Record ExitAnswers : Type := MkExitAnswers {
  ex_timeout : TimerAnswers; ex_listen : bool; ex_tick : TimerAnswers; ex_save : TimerAnswers;
  ex_signal : bool; ex_restored : bool
}.

(** What a callback or functor reads when it runs, and what other threads have
    done since the one before: functors they have queued in the base loop, and
    the connection objects they have changed. *)
Record EventAnswers : Type := MkEventAnswers {
  ea_reads : list timer_read;
  ea_signals : list signal_read;
  ea_accepts : list accept_result;
  ea_now : Z;
  ea_posted : list Functor;
  ea_changed : list (Conn * Connection)
}.

Section main.
Context `{Files} {ho : HashOrder} (self base_ptr : Z).

(** ** Construction *)

(** Up to the start of the TCP server; [None] is the exit with status 1. *)
Definition main_setup (a : SetupAnswers) : Sys (option Server) :=
  if negb (sa_logger a) then mret None
  else
    let base_loop := EventLoop_new self 1024 (sa_epoll a) (sa_event a) WakeupCallback (sa_wakeup a) in
    if negb (valid base_loop) then mret None
    else
      let shutdown_signal :=
        ShutdownSignal_new (Some base_loop) (sa_mask_built a) (sa_blocked a) (sa_signal a) (sa_restored a) in
      if negb (signal_valid base_loop shutdown_signal) then mret None
      else if negb (sa_directories a) then mret None
      else
        let room_service := RoomService_new RECONNECT_TIMEOUT in
        let save_timer := TickTimer_new (Some base_loop) CHECKPOINT_INTERVAL_MS true (sa_save a) in
        loaded ← persist_load (is_in_loop_thread self base_loop) (sa_now a) (PersistenceService_new true true)
                   (CheckpointStore_new CHECKPOINT_PATH) room_service;
        let '(load_state, persistence, store, room_service) := loaded in
        let world := MkWorld room_service ∅ [] (sa_random a) in
        let opened :=
          match load_state with
          | PL.restored => Some world
          | PL.not_found =>
              let '(added, world) :=
                service_add_room (is_in_loop_thread self base_loop) DEFAULT_ROOM_ID DEFAULT_ROOM_CAPACITY world in
              if negb added then None else Some world
          | _ => None
          end in
        match opened with
        | None => mret None
        | Some world =>
            let tick_timer := TickTimer_new (Some base_loop) TICK_INTERVAL_MS true (sa_tick a) in
            if negb (timer_valid base_loop tick_timer) then mret None
            else
              let server := TcpServer_new (Some base_ptr) THREAD_COUNT in
              let server := set_connection_closed_callback true (set_message_callback true server) in
              let timeout_timer := TickTimer_new (Some base_loop) TIMEOUT_SCAN_INTERVAL_MS true (sa_timeout a) in
              if negb (timer_valid base_loop timeout_timer) then mret None
              else mret (Some (MkServer base_loop shutdown_signal world persistence store save_timer
                                 tick_timer timeout_timer (MkTcpWorld server ∅ [] [] [])))
        end.

(** ** Starting and stopping one part *)

Definition start_server (a : StartAnswers) (sv : Server) : bool * Server :=
  let w := sv_tcp sv in
  let '(ok, t, l) :=
    ts_start self AcceptCallback (st_added a) (st_removed a) (st_listen a) (st_threads a) (tw_server w) (sv_loop sv) in
  (ok, set_sv_tcp (on_server (λ _, t) w) l sv).
Definition start_tick (a : TimerAnswers) (sv : Server) : bool * Server :=
  let '(ok, t, l) :=
    timer_start self TickCallback (ta_armed a) (ta_added a) (ta_disarmed a) (ta_reads a) (sv_tick_timer sv) (sv_loop sv) in
  (ok, set_sv_tick t l sv).
Definition start_timeout (a : TimerAnswers) (sv : Server) : bool * Server :=
  let '(ok, t, l) :=
    timer_start self TimeoutCallback (ta_armed a) (ta_added a) (ta_disarmed a) (ta_reads a)
      (sv_timeout_timer sv) (sv_loop sv) in
  (ok, set_sv_timeout t l sv).
Definition start_persist (created : bool) (a : TimerAnswers) (sv : Server) : bool * Server :=
  let '(ok, ps, store, t, l) :=
    persist_start self SaveCallback created (ta_armed a) (ta_added a) (ta_disarmed a) (ta_reads a)
      (sv_persist sv) (sv_store sv) (sv_save_timer sv) (sv_loop sv) in
  (ok, set_sv_persist ps store t l sv).
Definition start_signal (added : bool) (sv : Server) : bool * Server :=
  let '(ok, t, l) := signal_start self SignalCallback added (sv_signal sv) (sv_loop sv) in
  (ok, set_sv_signal t l sv).

Definition stop_tick (a : TimerAnswers) (sv : Server) : bool * Server :=
  let '(ok, t, l) := timer_stop self (ta_removed a) (ta_disarmed a) (ta_reads a) (sv_tick_timer sv) (sv_loop sv) in
  (ok, set_sv_tick t l sv).
Definition stop_timeout (a : TimerAnswers) (sv : Server) : bool * Server :=
  let '(ok, t, l) := timer_stop self (ta_removed a) (ta_disarmed a) (ta_reads a) (sv_timeout_timer sv) (sv_loop sv) in
  (ok, set_sv_timeout t l sv).
(** [flushed] is the store as the background thread leaves it when the wait in
    [flush] ends. *)
Definition stop_persist (flushed : CheckpointStore → CheckpointStore) (a : TimerAnswers) (sv : Server) : bool * Server :=
  match persist_stop_begin self (ta_removed a) (ta_disarmed a) (ta_reads a) (sv_persist sv) (sv_store sv)
          (w_service (sv_world sv)) (sv_save_timer sv) (sv_loop sv) with
  | None => (false, sv)
  | Some (success, ps, store, timer, l) =>
      let '(ok, ps, store) := persist_stop_end success ps (flushed store) in
      (ok, set_sv_persist ps store timer l sv)
  end.
Definition stop_signal (removed : bool) (sv : Server) : bool * Server :=
  let '(ok, t, l) := signal_stop self removed (sv_signal sv) (sv_loop sv) in
  (ok, set_sv_signal t l sv).

(** ** The order of starting and stopping *)

(** [false] is the exit with status 1, after the roll-back. *)
Definition start_all (flushed : CheckpointStore → CheckpointStore) (a : StartAnswers) (b : StopAnswers)
    (sv : Server) : bool * Server :=
  let '(ok, sv) := start_server a sv in
  if negb ok then (false, sv)
  else
    let '(ok, sv) := start_tick (st_tick a) sv in
    if negb ok then (false, sv)
    else
      let '(ok, sv) := start_timeout (st_timeout a) sv in
      if negb ok then let '(_, sv) := stop_tick (so_tick b) sv in (false, sv)
      else
        let '(ok, sv) := start_persist (st_thread_created a) (st_save a) sv in
        if negb ok then
          let '(_, sv) := stop_timeout (so_timeout b) sv in
          let '(_, sv) := stop_tick (so_tick b) sv in (false, sv)
        else
          let '(ok, sv) := start_signal (st_signal a) sv in
          if negb ok then
            let '(_, sv) := stop_timeout (so_timeout b) sv in
            let '(_, sv) := stop_tick (so_tick b) sv in
            let '(_, sv) := stop_persist flushed (so_save b) sv in (false, sv)
          else (true, sv).

(** After the loop: the exit status. *)
Definition stop_all (flushed : CheckpointStore → CheckpointStore) (loop_succeeded : bool) (b : StopAnswers)
    (sv : Server) : Z * Server :=
  let '(timeout_timer_stopped, sv) := stop_timeout (so_timeout b) sv in
  let '(tick_timer_stopped, sv) := stop_tick (so_tick b) sv in
  let '(persistence_service_stopped, sv) := stop_persist flushed (so_save b) sv in
  let '(shutdown_signal_stopped, sv) := stop_signal (so_signal b) sv in
  if negb loop_succeeded || negb timeout_timer_stopped || negb tick_timer_stopped
     || negb persistence_service_stopped || negb shutdown_signal_stopped
  then (1, sv) else (0, sv).

(** ** Leaving [main] *)

Definition destroy_timeout (a : TimerAnswers) (sv : Server) : Server :=
  let '(t, l) := timer_destroy self (ta_removed a) (ta_disarmed a) (ta_reads a) (sv_timeout_timer sv) (sv_loop sv) in
  set_sv_timeout t l sv.
Definition destroy_server (removed : bool) (sv : Server) : Server :=
  let '(tcp, l) := ts_destroy self removed (sv_tcp sv) (sv_loop sv) in
  set_sv_tcp tcp l sv.
Definition destroy_tick (a : TimerAnswers) (sv : Server) : Server :=
  let '(t, l) := timer_destroy self (ta_removed a) (ta_disarmed a) (ta_reads a) (sv_tick_timer sv) (sv_loop sv) in
  set_sv_tick t l sv.
(** The members of the persistence service: the timer, then the store, whose
    destructor stops its thread. *)
Definition destroy_persist (flushed : CheckpointStore → CheckpointStore) (a : TimerAnswers) (sv : Server) : Server :=
  let '(t, l) := timer_destroy self (ta_removed a) (ta_disarmed a) (ta_reads a) (sv_save_timer sv) (sv_loop sv) in
  set_sv_persist (sv_persist sv) (store_stop (flushed (sv_store sv))).2 t l sv.
Definition destroy_signal (removed restored : bool) (sv : Server) : Server :=
  let '(t, l) := signal_destroy self removed restored (sv_signal sv) (sv_loop sv) in
  set_sv_signal t l sv.

(** The local objects are destroyed in the reverse order of their declaration,
    whatever [main] returns once all of them have been made. *)
Definition exit_main (flushed : CheckpointStore → CheckpointStore) (a : ExitAnswers) (sv : Server) : Server :=
  let sv := destroy_timeout (ex_timeout a) sv in
  let sv := destroy_server (ex_listen a) sv in
  let sv := destroy_tick (ex_tick a) sv in
  let sv := destroy_persist flushed (ex_save a) sv in
  let sv := destroy_signal (ex_signal a) (ex_restored a) sv in
  set_sv_loop (EventLoop_destroyed (sv_loop sv)) sv.

(** ** The callbacks in the loop *)

Definition in_base (sv : Server) : bool := is_in_loop_thread self (sv_loop sv).

(** The other threads only know connections that have been accepted. *)
Definition connection_of (f : Functor) : Conn :=
  match f with RemoveConnection c | HandleFrame c _ _ => c end.
Definition exists_in (sv : Server) (c : Conn) : bool := bool_decide (is_Some (tw_objects (sv_tcp sv) !! c)).
Definition queue_functors (fs : list Functor) (sv : Server) : Server :=
  set_sv_loop (foldl (λ l f, queue_in_loop (Some f) l) (sv_loop sv)
    (filter (λ f, exists_in sv (connection_of f) = true) fs)) sv.
Definition change_connections (changed : list (Conn * Connection)) (sv : Server) : Server :=
  set_sv_world (foldl (λ w x, if bool_decide (x.1 ∈ w_live w) then set_conn x.1 x.2 w else w) (sv_world sv) changed) sv.
Definition others_act (a : EventAnswers) (sv : Server) : Server :=
  change_connections (ea_changed a) (queue_functors (ea_posted a) sv).

(** The connection objects that accepting has made. *)
Fixpoint accept_objects (accepts : list accept_result) : list Conn :=
  match accepts with
  | Accepted _ _ _ object :: accepts => object :: accept_objects accepts
  | _ :: accepts => accept_objects accepts
  | [] => []
  end.
Definition made_connections (accepts : list accept_result) (before after : TcpWorld) : list Conn :=
  filter (λ c, bool_decide (c ∈ dom (tw_objects after) ∧ c ∉ dom (tw_objects before)) = true) (accept_objects accepts).

Definition run_callback (a : EventAnswers) (callback : Callback) (events : Z) (sv : Server) : Server :=
  match callback with
  | WakeupCallback => sv
  | AcceptCallback =>
      let tcp := handle_accept (in_base sv) events (ea_accepts a) (sv_tcp sv) in
      let made := made_connections (ea_accepts a) (sv_tcp sv) tcp in
      let sv := set_sv_tcp tcp (sv_loop sv) sv in
      set_sv_world (foldl (λ w c, set_conn c (Connection_new (ea_now a)) w) (sv_world sv) made) sv
  | TickCallback =>
      match timer_handle_read events (ea_reads a) (sv_tick_timer sv) with
      | Some expirations => set_sv_world (handle_tick (in_base sv) expirations (sv_world sv)) sv
      | None => sv
      end
  | TimeoutCallback =>
      match timer_handle_read events (ea_reads a) (sv_timeout_timer sv) with
      | Some _ =>
          let sv := set_sv_tcp (check_timeouts (in_base sv) CONNECTION_TIMEOUT (sv_tcp sv)) (sv_loop sv) sv in
          set_sv_world (handle_session_timeouts (in_base sv) (ea_now a) (sv_world sv)) sv
      | None => sv
      end
  | SaveCallback =>
      match timer_handle_read events (ea_reads a) (sv_save_timer sv) with
      | Some _ =>
          let '(ps, store) :=
            persist_handle_timer (in_base sv) (sv_persist sv) (sv_store sv) (w_service (sv_world sv)) in
          set_sv_persist ps store (sv_save_timer sv) (sv_loop sv) sv
      | None => sv
      end
  | SignalCallback =>
      set_sv_loop (signal_handle_read events (ea_signals a) (sv_signal sv) (sv_loop sv)) sv
  end.

(** A removed connection is reported to the room service. *)
Definition run_functor (a : EventAnswers) (f : Functor) (sv : Server) : Server :=
  match f with
  | RemoveConnection c =>
      let tcp := remove_connection_in_loop (in_base sv) (Some c) (sv_tcp sv) in
      let reported := negb (bool_decide (tw_reported tcp = tw_reported (sv_tcp sv))) in
      let sv := set_sv_tcp tcp (sv_loop sv) sv in
      if reported then set_sv_world (handle_connection_closed (in_base sv) (ea_now a) (Some c) (sv_world sv)) sv else sv
  | HandleFrame c type payload =>
      set_sv_world (handle_frame_in_loop (in_base sv) (ea_now a) (Some c) type payload (sv_world sv)) sv
  end.

(** The loop runs in the server and a count of the calls made so far, which
    selects the answers of the next. *)
Definition main_loop (answers : nat → EventAnswers) (waits : list wait_result) (sv : Server) :
    option bool * (Server * nat) :=
  loop (λ w, sv_loop w.1) (λ f w, (set_sv_loop (f (sv_loop w.1)) w.1, w.2))
    (λ callback events w, (run_callback (answers w.2) callback events (others_act (answers w.2) w.1), S w.2))
    (λ f w, (run_functor (answers w.2) f (others_act (answers w.2) w.1), S w.2))
    self waits (sv, 0%nat).

End main.

(** * Specification *)

(** The descriptor under which a callback is registered, if it is. *)
Definition timer_registration (t : TickTimer) : option Z :=
  if bool_decide (timer_state_ t = TS.running) then Some (timer_fd_ t) else None.
Definition signal_registration (t : ShutdownSignal) : option Z :=
  if bool_decide (sig_state_ t = SS_.running) then Some (signal_fd_ t) else None.
Definition listen_registration (t : TcpServer) : option Z :=
  if listen_registered_ t then Some (listen_fd_ t) else None.
Definition registration (sv : Server) (callback : Callback) : option Z :=
  match callback with
  | WakeupCallback => Some (wakeup_fd_ (sv_loop sv))
  | AcceptCallback => listen_registration (tw_server (sv_tcp sv))
  | TickCallback => timer_registration (sv_tick_timer sv)
  | TimeoutCallback => timer_registration (sv_timeout_timer sv)
  | SaveCallback => timer_registration (sv_save_timer sv)
  | SignalCallback => signal_registration (sv_signal sv)
  end.

(** The base loop belongs to the main thread, and its table holds exactly the
    callbacks of the parts that run. *)
Record wired (self : Z) (sv : Server) : Prop := {
  wd_loop : owner_thread_id_ (sv_loop sv) = self ∧ valid (sv_loop sv) = true;
  wd_callbacks : ∀ fd cb, callbacks_ (sv_loop sv) !! fd = Some cb ↔ registration sv cb = Some fd;
  wd_descriptors : ∀ fd, is_Some (callbacks_ (sv_loop sv) !! fd) → 0 <= fd;
  wd_pointers : has_loop_ (sv_tick_timer sv) = true ∧ has_loop_ (sv_timeout_timer sv) = true ∧
    has_loop_ (sv_save_timer sv) = true ∧ sig_has_loop_ (sv_signal sv) = true ∧ has_base_ (sv_persist sv) = true
}.

(** Everything runs. *)
Record serving (self : Z) (sv : Server) : Prop := {
  sg_wired : wired self sv;
  sg_callbacks : ∀ cb, is_Some (registration sv cb);
  sg_started : ts_started_ (tw_server (sv_tcp sv)) = true ∧ psv_started_ (sv_persist sv) = true
}.

(** The timers, the signal descriptor and the persistence service are stopped.
    The TCP server need not be: [main] never stops it, its destructor does. *)
Definition quiescent (sv : Server) : Prop :=
  (∀ cb, cb ≠ WakeupCallback → cb ≠ AcceptCallback → registration sv cb = None) ∧
  psv_started_ (sv_persist sv) = false.

(** Nothing is started: neither yet, nor any more. *)
Definition idle_server (sv : Server) : Prop :=
  (∀ cb, cb ≠ WakeupCallback → registration sv cb = None) ∧ psv_started_ (sv_persist sv) = false.

(** [main] has given back what it held: descriptors, the listening socket, the
    table of connections, the thread of the store. *)
Record released (sv : Server) : Prop := {
  rl_timers : timer_fd_ (sv_tick_timer sv) = -1 ∧ timer_fd_ (sv_timeout_timer sv) = -1 ∧
    timer_fd_ (sv_save_timer sv) = -1;
  rl_signal : signal_fd_ (sv_signal sv) = -1 ∧ sig_state_ (sv_signal sv) = SS_.stopped;
  rl_tcp : let t := tw_server (sv_tcp sv) in
    ts_started_ t = false ∧ listen_fd_ t = -1 ∧ listen_registered_ t = false ∧ connections_ t = ∅;
  rl_store : CheckpointStore.started_ (sv_store sv) = false;
  rl_loop : valid (sv_loop sv) = false
}.
(** The connections that were still in the table are closed by their loops. *)
Definition connections_ended (sv sv' : Server) : Prop :=
  ∀ fd c io_loop, connections_ (tw_server (sv_tcp sv)) !! fd = Some c → tw_objects (sv_tcp sv) !! c = Some (fd, io_loop) →
    (io_loop, c, ConnectDestroyed) ∈ tw_posted (sv_tcp sv').

(** Where the rooms and sessions of a new server come from: the checkpoint file,
    or, if there is none, one empty room. *)
Definition opened_from `{Files} {ho : HashOrder} (d : disk) (a : SetupAnswers) (sv : Server) : Prop :=
  let service := RoomService_new RECONNECT_TIMEOUT in
  match visible d CHECKPOINT_PATH with
  | None =>
      service_add_room true DEFAULT_ROOM_ID DEFAULT_ROOM_CAPACITY (MkWorld service ∅ [] (sa_random a)) = (true, sv_world sv) ∧
      next_generation_ (sv_persist sv) = 1
  | Some data => ∃ c service',
      decode data = Ok c ∧ service_restore_checkpoint true c (sa_now a) service = (true, service') ∧
      sv_world sv = MkWorld service' ∅ [] (sa_random a) ∧
      next_generation_ (sv_persist sv) = svc_generation c + 1
  end.

(** Nobody has connected yet. *)
Definition no_clients (sv : Server) : Prop :=
  tw_objects (sv_tcp sv) = ∅ ∧ connections_ (tw_server (sv_tcp sv)) = ∅ ∧
  is_Some (base_ptr_ (tw_server (sv_tcp sv))) ∧
  has_closed_callback_ (tw_server (sv_tcp sv)) = true ∧ w_conns (sv_world sv) = ∅ ∧
  pending_functors_ (sv_loop sv) = [].

(** A server that has been set up, before anything is started. *)
Record set_up `{Files} {ho : HashOrder} (self : Z) (a : SetupAnswers) (d : disk) (sv : Server) : Prop := {
  su_wired : wired self sv;
  su_idle : idle_server sv;
  su_opened : opened_from d a sv;
  su_loop : quit_ (sv_loop sv) = false ∧ looping_ (sv_loop sv) = false;
  su_clients : no_clients sv
}.

(** * Proofs *)

Section main_proofs.
Context (self : Z).
Implicit Types (sv : Server) (l : EventLoop Callback Functor) (t : TickTimer).

(** What registering and removing keep of the loop. *)
Definition same_flags l l' : Prop :=
  wakeup_fd_ l' = wakeup_fd_ l ∧ quit_ l' = quit_ l ∧ looping_ l' = looping_ l ∧
  pending_functors_ l' = pending_functors_ l.

#[local] Instance same_flags_preorder : PreOrder same_flags.
Proof.
  split; [by intros l|]. intros l1 l2 l3 (? & ? & ? & ?) (? & ? & ? & ?). split_and!; congruence.
Qed.

(** What a step that is about one callback keeps. *)
Record only_about (cb : Callback) (sv sv' : Server) : Prop := {
  oa_registration : ∀ cb', cb' ≠ cb → registration sv' cb' = registration sv cb';
  oa_pointers : has_loop_ (sv_tick_timer sv') = has_loop_ (sv_tick_timer sv) ∧
    has_loop_ (sv_timeout_timer sv') = has_loop_ (sv_timeout_timer sv) ∧
    has_loop_ (sv_save_timer sv') = has_loop_ (sv_save_timer sv) ∧
    sig_has_loop_ (sv_signal sv') = sig_has_loop_ (sv_signal sv) ∧
    has_base_ (sv_persist sv') = has_base_ (sv_persist sv);
  oa_persist : cb ≠ SaveCallback → sv_persist sv' = sv_persist sv;
  oa_tcp : cb ≠ AcceptCallback → sv_tcp sv' = sv_tcp sv;
  oa_world : sv_world sv' = sv_world sv;
  oa_flags : same_flags (sv_loop sv) (sv_loop sv')
}.

(** The outcome of starting a part, and of stopping one. *)
Definition starts (cb : Callback) (ok : bool) (sv sv' : Server) : Prop :=
  wired self sv' ∧ only_about cb sv sv' ∧
  (if ok then is_Some (registration sv' cb) else registration sv' cb = registration sv cb).
Definition stops (cb : Callback) (removed ok : bool) (sv sv' : Server) : Prop :=
  wired self sv' ∧ only_about cb sv sv' ∧ (ok = true ∨ removed = true → registration sv' cb = None).

(** Nothing changes in the loop, or the callback is added, or removed. *)
Lemma wired_same cb sv sv' :
  wired self sv → only_about cb sv sv' → sv_loop sv' = sv_loop sv → registration sv' cb = registration sv cb →
  wired self sv'.
Proof.
  intros [Hl Hc Hd Hp] [Hr Hptr _ _ _ _] El Hcb. split; rewrite ?El; [done| |done|by destruct Hptr as (-> & -> & -> & -> & ->)].
  intros fd cb'. rewrite Hc. destruct (decide (cb' = cb)) as [->|Hne]; [by rewrite Hcb|by rewrite Hr].
Qed.

Lemma wired_add cb fd sv sv' :
  wired self sv → only_about cb sv sv' → 0 <= fd → callbacks_ (sv_loop sv) !! fd = None →
  sv_loop sv' = set_callbacks (<[fd:=cb]> (callbacks_ (sv_loop sv))) (sv_loop sv) →
  registration sv cb = None → registration sv' cb = Some fd → wired self sv'.
Proof.
  intros [Hl Hc Hd Hp] [Hother Hptr _ _ _ _] Hfd Hnone El Hold Hnew.
  split; rewrite ?El; [done| | |by destruct Hptr as (-> & -> & -> & -> & ->)]; cbn.
  - intros fd' cb'. destruct (decide (cb' = cb)) as [->|Hne].
    + rewrite Hnew, lookup_insert_Some. split.
      * intros [[-> _]|[_ Hin]]; [done|]. apply Hc in Hin. congruence.
      * intros [= ->]. by left.
    + rewrite Hother by done. rewrite <- Hc, lookup_insert_Some. split.
      * intros [[_ Hcb]|[_ Hin]]; [congruence|done].
      * intros Hin. right. split; [|done]. intros ->. congruence.
  - intros fd' [cb' [[<- _]|[_ Hin]]%lookup_insert_Some]; [done|]. apply Hd. by eexists.
Qed.

Lemma wired_remove cb fd sv sv' :
  wired self sv → only_about cb sv sv' → registration sv cb = Some fd →
  sv_loop sv' = set_callbacks (delete fd (callbacks_ (sv_loop sv))) (sv_loop sv) →
  registration sv' cb = None → wired self sv'.
Proof.
  intros [Hl Hc Hd Hp] [Hother Hptr _ _ _ _] Hold El Hnew.
  split; rewrite ?El; [done| | |by destruct Hptr as (-> & -> & -> & -> & ->)]; cbn.
  - intros fd' cb'. rewrite lookup_delete_Some. destruct (decide (cb' = cb)) as [->|Hne].
    + rewrite Hnew. split; [|done]. intros [Hdf Hin]. apply Hc in Hin. congruence.
    + rewrite Hother by done. rewrite <- Hc. split; [by intros [_ ?]|]. intros Hin. split; [|done].
      intros ->. apply Hc in Hold. congruence.
  - intros fd' [cb' [_ Hin]%lookup_delete_Some]. apply Hd. by eexists.
Qed.

(** A registered callback can be removed. *)
Lemma registered_removable cb fd sv :
  wired self sv → registration sv cb = Some fd → (remove_fd self fd true (sv_loop sv)).1 = true.
Proof.
  intros [[Ho Hv] Hc Hd _] Hr%Hc. assert (Hfd : 0 <= fd) by (apply Hd; by eexists).
  unfold remove_fd, is_in_loop_thread. rewrite Ho, Hv, Z.eqb_refl, Hr. cbn.
  by rewrite (proj2 (Z.ltb_ge fd 0)) by lia.
Qed.

(** ** Timers *)

Lemma timer_start_wired cb armed ctl disarmed reads t sv ok t' l' sv' :
  timer_start self cb armed ctl disarmed reads t (sv_loop sv) = (ok, t', l') →
  sv_loop sv' = l' → registration sv cb = timer_registration t → registration sv' cb = timer_registration t' →
  (same_flags (sv_loop sv) l' → has_loop_ t' = has_loop_ t → only_about cb sv sv') → wired self sv →
  starts cb ok sv sv'.
Proof.
  intros Hs El Hr Hr' Ho Hw. apply timer_start_outcome in Hs. unfold timer_registration in *. destruct ok.
  - destruct Hs as (Hst & -> & Hfd & Hnone & ->). rewrite Hst in Hr. cbn in Hr, Hr'.
    specialize (Ho ltac:(done) eq_refl). split_and!; [by eapply wired_add|done|]. rewrite Hr'. by eexists.
  - destruct Hs as [-> Ht]. assert (E : registration sv' cb = registration sv cb).
    { rewrite Hr, Hr'. by destruct Ht as [->|[Hst ->]]; [|cbn; rewrite Hst]. }
    assert (Hab : only_about cb sv sv') by (apply Ho; [done|by destruct Ht as [->|[_ ->]]]).
    split_and!; [by eapply wired_same|done..].
Qed.

Lemma timer_stop_wired cb ctl disarmed reads t sv ok t' l' sv' :
  timer_stop self ctl disarmed reads t (sv_loop sv) = (ok, t', l') →
  sv_loop sv' = l' → registration sv cb = timer_registration t → registration sv' cb = timer_registration t' →
  has_loop_ t = true →
  (same_flags (sv_loop sv) l' → has_loop_ t' = has_loop_ t → only_about cb sv sv') → wired self sv →
  stops cb ctl ok sv sv'.
Proof.
  intros Hs El Hr Hr' Hptr Ho Hw. apply timer_stop_outcome in Hs as [Hok Hs].
  unfold timer_registration in *.
  destruct Hs as [(-> & -> & Hwhy)|(Hrun & Hst & Hl & ->)].
  - specialize (Ho ltac:(done) eq_refl). split_and!; [eapply wired_same; [done|exact Ho|done|congruence]|done|].
    rewrite Hr'. intros [->| ->]; [by rewrite Hok|].
    destruct Hwhy as [->|[?|[Hin|Hrem]]]; [done|congruence| |].
    + unfold is_in_loop_thread in Hin. rewrite (proj1 (wd_loop _ _ Hw)), Z.eqb_refl in Hin. done.
    + case_bool_decide as Hst; [|done].
      pose proof (registered_removable cb _ sv Hw Hr). congruence.
  - rewrite Hrun in Hr. rewrite Hst in Hr'. cbn in Hr, Hr'.
    specialize (Ho ltac:(done) Hl). split_and!; [|done|done]. by apply (wired_remove cb (timer_fd_ t) sv).
Qed.

(** A step whose state differs in the parts of one callback is about it. *)
Ltac about_one :=
  let Hw := fresh in let Hp := fresh in
  intros Hw Hp; split; [intros []; cbn; destruct Hw; congruence|by split_and!|done|done|done|done].

Lemma start_tick_outcome a sv ok sv' :
  start_tick self a sv = (ok, sv') → wired self sv → starts TickCallback ok sv sv'.
Proof.
  unfold start_tick. destruct (timer_start _ _ _ _ _ _ _ _) as [[ok1 t] l] eqn:E. intros [= -> <-].
  eapply timer_start_wired; [done..|about_one].
Qed.

Lemma start_timeout_outcome a sv ok sv' :
  start_timeout self a sv = (ok, sv') → wired self sv → starts TimeoutCallback ok sv sv'.
Proof.
  unfold start_timeout. destruct (timer_start _ _ _ _ _ _ _ _) as [[ok1 t] l] eqn:E. intros [= -> <-].
  eapply timer_start_wired; [done..|about_one].
Qed.

Lemma stop_tick_outcome a sv ok sv' :
  stop_tick self a sv = (ok, sv') → wired self sv → stops TickCallback (ta_removed a) ok sv sv'.
Proof.
  unfold stop_tick. destruct (timer_stop _ _ _ _ _ _) as [[ok1 t] l] eqn:E. intros [= -> <-] Hw.
  eapply timer_stop_wired; [done..|apply Hw|about_one|done].
Qed.

Lemma stop_timeout_outcome a sv ok sv' :
  stop_timeout self a sv = (ok, sv') → wired self sv → stops TimeoutCallback (ta_removed a) ok sv sv'.
Proof.
  unfold stop_timeout. destruct (timer_stop _ _ _ _ _ _) as [[ok1 t] l] eqn:E. intros [= -> <-] Hw.
  eapply timer_stop_wired; [done..|apply Hw|about_one|done].
Qed.

Lemma start_signal_outcome added sv ok sv' :
  start_signal self added sv = (ok, sv') → wired self sv → starts SignalCallback ok sv sv'.
Proof.
  unfold start_signal. destruct (signal_start _ _ _ _ _) as [[ok1 t] l] eqn:E. intros [= -> <-] Hw.
  apply signal_start_outcome in E. destruct ok.
  - destruct E as (Hst & -> & Hfd & Hnone & ->).
    assert (Ho : only_about SignalCallback sv (set_sv_signal (set_sig_state SS_.running (sv_signal sv))
      (set_callbacks (<[signal_fd_ (sv_signal sv):=SignalCallback]> (callbacks_ (sv_loop sv))) (sv_loop sv)) sv))
      by (split; [by intros []|by split_and!|done|done|done|done]).
    split_and!; [|done|by eexists]. eapply wired_add; try done. cbn. unfold signal_registration. by rewrite Hst.
  - destruct E as [-> ->]. split_and!; [|split|]; try done. by destruct sv, Hw.
Qed.

Lemma stop_signal_outcome removed sv ok sv' :
  stop_signal self removed sv = (ok, sv') → wired self sv → 
  wired self sv' ∧ only_about SignalCallback sv sv' ∧ (ok = true → registration sv' SignalCallback = None).
Proof.
  unfold stop_signal. destruct (signal_stop _ _ _ _) as [[ok1 t] l] eqn:E. intros [= -> <-] Hw.
  apply signal_stop_outcome in E as [Hok [[-> ->]|(Hrun & -> & ->)]].
  - split_and!; [by destruct sv, Hw|by split|]. intros ->. cbn. unfold signal_registration. by rewrite Hok.
  - assert (Ho : only_about SignalCallback sv (set_sv_signal (set_sig_state SS_.stopped (sv_signal sv))
      (set_callbacks (delete (signal_fd_ (sv_signal sv)) (callbacks_ (sv_loop sv))) (sv_loop sv)) sv))
      by (split; [by intros []|by split_and!|done|done|done|done]).
    split_and!; [|done|done]. eapply wired_remove; try done. cbn. unfold signal_registration. by rewrite Hrun.
Qed.

(** A step that changes neither the loop nor a registration. *)
Lemma starts_refused cb sv sv' :
  wired self sv → only_about cb sv sv' → sv_loop sv' = sv_loop sv → registration sv' cb = registration sv cb →
  starts cb false sv sv'.
Proof. intros. split_and!; [by eapply wired_same|done..]. Qed.

Lemma start_server_outcome a sv ok sv' :
  start_server self a sv = (ok, sv') → wired self sv → ok = true ∨ st_removed a = true →
  registration sv AcceptCallback = None →
  starts AcceptCallback ok sv sv' ∧ (ok = true → ts_started_ (tw_server (sv_tcp sv')) = true).
Proof.
  unfold start_server. destruct (ts_start _ _ _ _ _ _ _ _) as [[ok1 t] l] eqn:E. intros [= -> <-] Hw Hok Hreg.
  apply ts_start_outcome in E.
  assert (Ho : same_flags (sv_loop sv) l →
    only_about AcceptCallback sv (set_sv_tcp (on_server (λ _, t) (sv_tcp sv)) l sv)).
  { intros Hwk. split; [intros []; cbn; destruct Hwk; congruence|by split_and!|done|done|done|done]. }
  assert (Hreg' : registration (set_sv_tcp (on_server (λ _, t) (sv_tcp sv)) l sv) AcceptCallback
    = listen_registration t) by done.
  unfold listen_registration in Hreg'. destruct ok.
  - destruct E as (Hr & Hr' & Hst & Hf & Hn & ->). specialize (Ho ltac:(done)). rewrite Hr' in Hreg'.
    split; [|done]. split_and!; [|done|by eexists].
    by apply (wired_add AcceptCallback (listen_fd_ t) sv).
  - destruct Hok as [|Hok]; [done|]. destruct (E Hok) as [-> Hr]. specialize (Ho ltac:(done)). split; [|done].
    apply starts_refused; auto. rewrite Hreg', Hreg.
    unfold registration, listen_registration in Hreg. rewrite Hr. clear -Hreg.
    by destruct (listen_registered_ (tw_server (sv_tcp sv))).
Qed.

Lemma start_server_clients a sv ok sv' :
  start_server self a sv = (ok, sv') →
  tw_objects (sv_tcp sv') = tw_objects (sv_tcp sv) ∧
  same_clients (tw_server (sv_tcp sv)) (tw_server (sv_tcp sv')).
Proof.
  unfold start_server.
  pose proof (ts_start_clients self AcceptCallback (st_added a) (st_removed a) (st_listen a) (st_threads a)
    (tw_server (sv_tcp sv)) (sv_loop sv)) as Hc.
  destruct (ts_start _ _ _ _ _ _ _ _) as [[ok1 t] l]. by intros [= <- <-].
Qed.

(** ** The persistence service *)

Lemma save_now_keeps `{HashOrder} b ps store svc ok ps' store' :
  save_now b ps store svc = (ok, ps', store') →
  has_base_ ps' = has_base_ ps ∧ psv_started_ ps' = psv_started_ ps.
Proof.
  unfold save_now. destruct (_ || _ || _ || _ || _); [by intros [= <- <- <-]|].
  destruct (_ =? _); [by intros [= <- <- <-]|]. destruct (service_make_checkpoint _ _ _); [|by intros [= <- <- <-]].
  destruct (submit _ _) as [[] st]; cbn; by intros [= <- <- <-].
Qed.

Lemma start_persist_outcome created a sv ok sv' :
  start_persist self created a sv = (ok, sv') → wired self sv →
  starts SaveCallback ok sv sv' ∧
  psv_started_ (sv_persist sv') = (if ok then true else psv_started_ (sv_persist sv)).
Proof.
  unfold start_persist, persist_start. intros Hs Hw.
  destruct (_ || _ || _ || negb (timer_valid _ _)); [injection Hs as <- <-; split; [|done];
    apply starts_refused; [done|split; [by intros []|by split_and!|done|done|done|done]|done..]|].
  destruct (psv_started_ _) eqn:Hst; [injection Hs as <- <-; split; [|done];
    apply starts_refused; [done|split; [by intros []|by split_and!|done|done|done|done]|done..]|].
  destruct (start created (sv_store sv)) as [[] store]; cbn [negb] in Hs;
    [|injection Hs as <- <-; split; [|done];
      apply starts_refused; [done|split; [by intros []|by split_and!|done|done|done|done]|done..]].
  destruct (timer_start _ _ _ _ _ _ _ _) as [[ok1 t] l] eqn:E.
  destruct ok1; cbn [negb] in Hs; injection Hs as <- <-; (split; [|done]);
    (eapply timer_start_wired; [done..|about_one|done]).
Qed.

Lemma stop_persist_outcome `{HashOrder} flushed a sv ok sv' :
  stop_persist self flushed a sv = (ok, sv') → wired self sv → psv_started_ (sv_persist sv) = true →
  stops SaveCallback (ta_removed a) ok sv sv' ∧ psv_started_ (sv_persist sv') = false.
Proof.
  unfold stop_persist, persist_stop_begin. intros Hs Hw Hst.
  destruct (wd_loop _ _ Hw) as [Ho _]. destruct (wd_pointers _ _ Hw) as (_ & _ & Hsave & _ & Hbase).
  unfold is_in_loop_thread in Hs. rewrite Hst, Hbase, Ho, Z.eqb_refl in Hs. cbn [negb orb] in Hs.
  destruct (timer_stop _ _ _ _ _ _) as [[stopped t] l] eqn:E.
  destruct (save_now _ _ _ _) as [[saved ps] store] eqn:Es. apply save_now_keeps in Es as [Hb _].
  unfold persist_stop_end in Hs. destruct (store_stop _) as [ended store']. injection Hs as Hok <-.
  split; [|done].
  pose proof (timer_stop_wired SaveCallback _ _ _ _ sv stopped t l
    (set_sv_persist (set_psv_started false ps) store' t l sv) E eq_refl eq_refl eq_refl Hsave) as Hstop.
  destruct Hstop as (Hwired & Hab & Hreg).
  - intros Hwk Hp. split; [intros []; cbn; destruct Hwk; congruence|cbn; split_and!; congruence|done|done|done|done].
  - done.
  - split_and!; [exact Hwired|exact Hab|].
    intros [->|Hrem]; apply Hreg; [left|by right]. by to_prop.
Qed.

(** ** The whole server *)

Section start.
Context `{HashOrder} (flushed : CheckpointStore → CheckpointStore).

Lemma start_all_serving a b sv sv' :
  start_all self flushed a b sv = (true, sv') → wired self sv → idle_server sv →
  serving self sv' ∧ sv_world sv' = sv_world sv ∧ same_flags (sv_loop sv) (sv_loop sv') ∧
  tw_objects (sv_tcp sv') = tw_objects (sv_tcp sv) ∧ same_clients (tw_server (sv_tcp sv)) (tw_server (sv_tcp sv')).
Proof.
  intros Hs Hw [Hreg Hps]. unfold start_all in Hs.
  destruct (start_server self a sv) as [[] sv1] eqn:E1; cbn [negb] in Hs; [|done].
  pose proof (start_server_clients _ _ _ _ E1) as Hclients.
  apply start_server_outcome in E1 as [(Hw1 & Ha1 & Hr1) Hst]; [|done|by left|by apply Hreg].
  destruct (start_tick self (st_tick a) sv1) as [[] sv2] eqn:E2; cbn [negb] in Hs; [|done].
  apply start_tick_outcome in E2 as (Hw2 & Ha2 & Hr2); [|done].
  destruct (start_timeout self (st_timeout a) sv2) as [[] sv3] eqn:E3; cbn [negb] in Hs;
    [|by destruct (stop_tick _ _ _)].
  apply start_timeout_outcome in E3 as (Hw3 & Ha3 & Hr3); [|done].
  destruct (start_persist self _ _ sv3) as [[] sv4] eqn:E4; cbn [negb] in Hs;
    [|by destruct (stop_timeout _ _ _) as [? ?], (stop_tick _ _ _)].
  apply start_persist_outcome in E4 as [(Hw4 & Ha4 & Hr4) Hp4]; [|done].
  destruct (start_signal self _ sv4) as [[] sv5] eqn:E5; cbn [negb] in Hs;
    [|by destruct (stop_timeout _ _ _) as [? ?], (stop_tick _ _ _) as [? ?], (stop_persist _ _ _ _)].
  apply start_signal_outcome in E5 as (Hw5 & Ha5 & Hr5); [|done]. injection Hs as <-.
  destruct Ha1, Ha2, Ha3, Ha4, Ha5. assert (Htcp : sv_tcp sv5 = sv_tcp sv1) by (by rewrite oa_tcp4, oa_tcp3, oa_tcp2, oa_tcp1).
  rewrite Htcp. split; [|split; [congruence|split; [by repeat (etrans; [eassumption|])|exact Hclients]]].
  split; [done| |].
  - intros []; [by eexists|..]; rewrite ?oa_registration4, ?oa_registration3, ?oa_registration2, ?oa_registration1 by done; done.
  - rewrite oa_tcp4, oa_tcp3, oa_tcp2, oa_tcp1, oa_persist4 by done. split; [by apply Hst|done].
Qed.

(** Follows a registration back to the step that settled it. *)
Ltac trace_registration :=
  repeat first
    [ done
    | match goal with
      | Ho : only_about _ ?s ?s' |- registration ?s' _ = None => rewrite (oa_registration _ _ _ Ho) by done
      | Hr : registration ?s' ?c = registration ?s ?c |- registration ?s' ?c = None => rewrite Hr
      | Hr : _ ∨ _ → registration ?s' ?c = None |- registration ?s' ?c = None => apply Hr; by auto
      | Hr : _ = true → registration ?s' ?c = None |- registration ?s' ?c = None => apply Hr; by auto
      | Hr : ∀ cb, cb ≠ WakeupCallback → registration ?s cb = None |- registration ?s _ = None => by apply Hr
      end ].
Ltac trace_persist :=
  repeat match goal with
    | Ho : only_about ?cb ?s ?s' |- context [sv_persist ?s'] => rewrite (oa_persist _ _ _ Ho) by done
    | Hp : psv_started_ (sv_persist ?s') = psv_started_ _ |- psv_started_ (sv_persist ?s') = _ => rewrite Hp
    end.
Ltac all_quiescent :=
  split; [intros [] ??; try done; trace_registration|trace_persist; try done; congruence].

Lemma start_all_failed a b sv sv' :
  start_all self flushed a b sv = (false, sv') → wired self sv → idle_server sv →
  st_removed a = true → ta_removed (so_tick b) = true → ta_removed (so_timeout b) = true →
  ta_removed (so_save b) = true →
  wired self sv' ∧ quiescent sv'.
Proof.
  intros Hs Hw [Hreg Hps] Ha Hb1 Hb2 Hb3. unfold start_all in Hs.
  destruct (start_server self a sv) as [ok1 sv1] eqn:E1.
  apply start_server_outcome in E1 as [(Hw1 & Ha1 & Hr1) _]; [|done|by right|by apply Hreg].
  destruct ok1; cbn [negb] in Hs; [|injection Hs as <-; split; [done|all_quiescent]].
  destruct (start_tick self (st_tick a) sv1) as [ok2 sv2] eqn:E2.
  apply start_tick_outcome in E2 as (Hw2 & Ha2 & Hr2); [|done].
  destruct ok2; cbn [negb] in Hs; [|injection Hs as <-; split; [done|all_quiescent]].
  destruct (start_timeout self (st_timeout a) sv2) as [ok3 sv3] eqn:E3.
  apply start_timeout_outcome in E3 as (Hw3 & Ha3 & Hr3); [|done].
  destruct ok3; cbn [negb] in Hs.
  2:{ destruct (stop_tick self (so_tick b) sv3) as [k1 sv4] eqn:E4. injection Hs as <-.
      apply stop_tick_outcome in E4 as (Hw4 & Ha4 & Hr4); [|done]. split; [done|all_quiescent]. }
  destruct (start_persist self _ _ sv3) as [ok4 sv4] eqn:E4.
  apply start_persist_outcome in E4 as [(Hw4 & Ha4 & Hr4) Hp4]; [|done].
  destruct ok4; cbn [negb] in Hs.
  2:{ destruct (stop_timeout self (so_timeout b) sv4) as [k1 sv5] eqn:E5.
      destruct (stop_tick self (so_tick b) sv5) as [k2 sv6] eqn:E6. injection Hs as <-.
      apply stop_timeout_outcome in E5 as (Hw5 & Ha5 & Hr5); [|done].
      apply stop_tick_outcome in E6 as (Hw6 & Ha6 & Hr6); [|done]. split; [done|all_quiescent]. }
  destruct (start_signal self _ sv4) as [ok5 sv5] eqn:E5.
  apply start_signal_outcome in E5 as (Hw5 & Ha5 & Hr5); [|done].
  destruct ok5; cbn [negb] in Hs; [done|].
  destruct (stop_timeout self (so_timeout b) sv5) as [k1 sv6] eqn:E6.
  destruct (stop_tick self (so_tick b) sv6) as [k2 sv7] eqn:E7.
  destruct (stop_persist self flushed (so_save b) sv7) as [k3 sv8] eqn:E8. injection Hs as <-.
  apply stop_timeout_outcome in E6 as (Hw6 & Ha6 & Hr6); [|done].
  apply stop_tick_outcome in E7 as (Hw7 & Ha7 & Hr7); [|done].
  apply stop_persist_outcome in E8 as [(Hw8 & Ha8 & Hr8) Hp8]; [|done|by trace_persist].
  split; [done|all_quiescent].
Qed.

Lemma stop_all_outcome b sv ok status sv' :
  stop_all self flushed ok b sv = (status, sv') → serving self sv →
  (status = 0 ∨ status = 1) ∧ wired self sv' ∧ sv_world sv' = sv_world sv ∧ sv_tcp sv' = sv_tcp sv ∧
  (status = 0 → ok = true ∧ quiescent sv').
Proof.
  intros Hs [Hw _ [_ Hst]]. unfold stop_all in Hs.
  destruct (stop_timeout self (so_timeout b) sv) as [k1 sv1] eqn:E1.
  destruct (stop_tick self (so_tick b) sv1) as [k2 sv2] eqn:E2.
  destruct (stop_persist self flushed (so_save b) sv2) as [k3 sv3] eqn:E3.
  destruct (stop_signal self (so_signal b) sv3) as [k4 sv4] eqn:E4.
  apply stop_timeout_outcome in E1 as (Hw1 & Ha1 & Hr1); [|done].
  apply stop_tick_outcome in E2 as (Hw2 & Ha2 & Hr2); [|done].
  apply stop_persist_outcome in E3 as [(Hw3 & Ha3 & Hr3) Hp3]; [|done|by trace_persist].
  apply stop_signal_outcome in E4 as (Hw4 & Ha4 & Hr4); [|done].
  assert (Hworld : sv_world sv4 = sv_world sv).
  { rewrite (oa_world _ _ _ Ha4), (oa_world _ _ _ Ha3), (oa_world _ _ _ Ha2). apply (oa_world _ _ _ Ha1). }
  assert (Htcp : sv_tcp sv4 = sv_tcp sv).
  { rewrite (oa_tcp _ _ _ Ha4), (oa_tcp _ _ _ Ha3), (oa_tcp _ _ _ Ha2) by done. by apply (oa_tcp _ _ _ Ha1). }
  destruct ok, k1, k2, k3, k4; cbn in Hs; injection Hs as <- <-; split_and!; auto; try done.
  intros _. split; [done|all_quiescent].
Qed.

(** The destructors work in the thread of the base loop. *)
Definition closable sv : Prop := owner_thread_id_ (sv_loop sv) = self ∧ is_Some (base_ptr_ (tw_server (sv_tcp sv))).

Lemma only_about_closable cb sv sv' :
  wired self sv' → only_about cb sv sv' → cb ≠ AcceptCallback → closable sv → closable sv'.
Proof.
  intros [[Ho _] _ _ _] Ha Hcb [_ Hb]. split; [done|]. by rewrite (oa_tcp _ _ _ Ha Hcb).
Qed.

Lemma start_server_closable a sv ok sv' : start_server self a sv = (ok, sv') → closable sv → closable sv'.
Proof.
  intros E [Ho Hb]. pose proof (start_server_clients _ _ _ _ E) as (_ & _ & _ & Hp).
  split; [|by rewrite Hp]. revert E. unfold start_server.
  destruct (ts_start _ _ _ _ _ _ _ _) as [[ok1 t] l] eqn:E. intros [= _ <-]. cbn. by rewrite (ts_start_owner _ _ _ _ _ _ _ _ _ _ _ E).
Qed.

(** Whatever happens while starting and stopping, the destructors can do their work. *)
Lemma start_all_closable a b sv ok sv' :
  start_all self flushed a b sv = (ok, sv') → wired self sv → idle_server sv → closable sv → closable sv'.
Proof.
  intros Hs Hw [Hreg Hps] Hc. unfold start_all in Hs.
  destruct (start_server self a sv) as [ok1 sv1] eqn:E1. pose proof (start_server_closable _ _ _ _ E1 Hc) as Hc1.
  destruct ok1; cbn [negb] in Hs; [|by injection Hs as _ <-].
  apply start_server_outcome in E1 as [(Hw1 & _ & _) _]; [|done|by left|by apply Hreg].
  destruct (start_tick self (st_tick a) sv1) as [ok2 sv2] eqn:E2.
  apply start_tick_outcome in E2 as (Hw2 & Ha2 & _); [|done]. apply (only_about_closable _ _ _ Hw2 Ha2) in Hc1; [|done].
  destruct ok2; cbn [negb] in Hs; [|by injection Hs as _ <-].
  destruct (start_timeout self (st_timeout a) sv2) as [ok3 sv3] eqn:E3.
  apply start_timeout_outcome in E3 as (Hw3 & Ha3 & _); [|done]. apply (only_about_closable _ _ _ Hw3 Ha3) in Hc1; [|done].
  destruct ok3; cbn [negb] in Hs.
  2:{ destruct (stop_tick self (so_tick b) sv3) as [k1 sv4] eqn:E4. injection Hs as _ <-.
      apply stop_tick_outcome in E4 as (Hw4 & Ha4 & _); [|done]. by eapply only_about_closable. }
  destruct (start_persist self _ _ sv3) as [ok4 sv4] eqn:E4.
  apply start_persist_outcome in E4 as [(Hw4 & Ha4 & _) Hp4]; [|done]. apply (only_about_closable _ _ _ Hw4 Ha4) in Hc1; [|done].
  destruct ok4; cbn [negb] in Hs.
  2:{ destruct (stop_timeout self (so_timeout b) sv4) as [k1 sv5] eqn:E5.
      destruct (stop_tick self (so_tick b) sv5) as [k2 sv6] eqn:E6. injection Hs as _ <-.
      apply stop_timeout_outcome in E5 as (Hw5 & Ha5 & _); [|done]. apply (only_about_closable _ _ _ Hw5 Ha5) in Hc1; [|done].
      apply stop_tick_outcome in E6 as (Hw6 & Ha6 & _); [|done]. by eapply only_about_closable. }
  destruct (start_signal self _ sv4) as [ok5 sv5] eqn:E5.
  apply start_signal_outcome in E5 as (Hw5 & Ha5 & _); [|done]. apply (only_about_closable _ _ _ Hw5 Ha5) in Hc1; [|done].
  destruct ok5; cbn [negb] in Hs; [by injection Hs as _ <-|].
  destruct (stop_timeout self (so_timeout b) sv5) as [k1 sv6] eqn:E6.
  destruct (stop_tick self (so_tick b) sv6) as [k2 sv7] eqn:E7.
  destruct (stop_persist self flushed (so_save b) sv7) as [k3 sv8] eqn:E8. injection Hs as _ <-.
  apply stop_timeout_outcome in E6 as (Hw6 & Ha6 & _); [|done]. apply (only_about_closable _ _ _ Hw6 Ha6) in Hc1; [|done].
  apply stop_tick_outcome in E7 as (Hw7 & Ha7 & _); [|done]. apply (only_about_closable _ _ _ Hw7 Ha7) in Hc1; [|done].
  apply stop_persist_outcome in E8 as [(Hw8 & Ha8 & _) _]; [|done|by trace_persist]. by eapply only_about_closable.
Qed.

(** ** Leaving [main] *)

Lemma timer_destroy_outcome ctl disarmed reads t l t' l' :
  timer_destroy self ctl disarmed reads t l = (t', l') →
  timer_fd_ t' = -1 ∧ owner_thread_id_ l' = owner_thread_id_ l ∧
  (timer_state_ t = TS.stopped → timer_state_ t' = TS.stopped).
Proof.
  assert (Hclose : ∀ t, timer_fd_ (if negb (timer_fd_ t =? -1) then close_timer t else t) = -1 ∧
    timer_state_ (if negb (timer_fd_ t =? -1) then close_timer t else t) = timer_state_ t).
  { intros t1. by destruct (Z.eqb_spec (timer_fd_ t1) (-1)). }
  unfold timer_destroy. case_bool_decide as Hst.
  - destruct (timer_stop _ _ _ _ _ _) as [[ok t1] l1] eqn:E. intros [= <- <-].
    destruct (Hclose t1) as [-> ->]. apply timer_stop_outcome in E as [_ [(-> & -> & _)|(_ & -> & _ & ->)]]; by split_and!.
  - intros [= <- <-]. by destruct (Hclose t) as [-> ->].
Qed.

Lemma signal_destroy_outcome ctl restored (t t' : ShutdownSignal) l l' :
  signal_destroy self ctl restored t l = (t', l') → signal_fd_ t' = -1 ∧ sig_state_ t' = SS_.stopped.
Proof. unfold signal_destroy. destruct (if bool_decide _ then _ else _) as [t1 l1]. by intros [= <- <-]. Qed.

Lemma store_stop_stopped store : CheckpointStore.started_ (store_stop store).2 = false.
Proof. unfold store_stop. by destruct (CheckpointStore.started_ store) eqn:E. Qed.

Lemma exit_main_outcome flushed' a sv :
  closable sv →
  released (exit_main self flushed' a sv) ∧ connections_ended sv (exit_main self flushed' a sv) ∧
  sv_world (exit_main self flushed' a sv) = sv_world sv ∧
  (quiescent sv → idle_server (exit_main self flushed' a sv)).
Proof.
  intros [Ho Hb]. unfold exit_main, destroy_timeout, destroy_server, destroy_tick, destroy_persist, destroy_signal.
  destruct (timer_destroy _ _ _ _ (sv_timeout_timer sv) _) as [t1 l1] eqn:E1.
  apply timer_destroy_outcome in E1 as (Hf1 & Ho1 & Hst1). cbn.
  assert (Hin : is_in_loop_thread self l1 = true) by (unfold is_in_loop_thread; by rewrite Ho1, Ho, Z.eqb_refl).
  pose proof (ts_destroy_outcome self (ex_listen a) (sv_tcp sv) l1 Hb Hin) as Hd.
  destruct (ts_destroy _ _ _ _) as [tcp l2]. destruct Hd as (Htcp & _ & Hended). cbn.
  destruct (timer_destroy _ _ _ _ (sv_tick_timer sv) _) as [t2 l3] eqn:E2.
  apply timer_destroy_outcome in E2 as (Hf2 & _ & Hst2). cbn.
  destruct (timer_destroy _ _ _ _ (sv_save_timer sv) _) as [t3 l4] eqn:E3.
  apply timer_destroy_outcome in E3 as (Hf3 & _ & Hst3). cbn.
  destruct (signal_destroy _ _ _ _ _) as [t4 l5] eqn:E4. apply signal_destroy_outcome in E4 as [Hf4 Hst4].
  split_and!; [|done|done|].
  - split; cbn; try done. apply store_stop_stopped.
  - intros [Hq Hps]. split; [|done].
    assert (Hstop : ∀ t t', timer_registration t = None → (timer_state_ t = TS.stopped → timer_state_ t' = TS.stopped) →
      timer_registration t' = None).
    { intros t t'. unfold timer_registration. intros Ht Hk. case_bool_decide as H1; [done|].
      rewrite Hk; [done|]. by destruct (timer_state_ t). }
    destruct Htcp as (_ & _ & Hl & _).
    intros []; cbn; try done; intros _; [by unfold listen_registration; rewrite Hl| | | |].
    + by apply (Hstop (sv_tick_timer sv)); [apply (Hq TickCallback)|].
    + by apply (Hstop (sv_timeout_timer sv)); [apply (Hq TimeoutCallback)|].
    + by apply (Hstop (sv_save_timer sv)); [apply (Hq SaveCallback)|].
    + unfold signal_registration. by rewrite Hst4.
Qed.

End start.

(** ** Construction *)

Lemma EventLoop_new_outcome e w ctl l :
  EventLoop_new self 1024 e w WakeupCallback ctl = l → valid l = true →
  owner_thread_id_ l = self ∧ quit_ l = false ∧ looping_ l = false ∧ pending_functors_ l = [] ∧ 0 <= wakeup_fd_ l ∧
  callbacks_ l = {[wakeup_fd_ l := WakeupCallback]}.
Proof.
  unfold EventLoop_new. intros <-. destruct (Z.eqb_spec e (-1)) as [|He]; [done|].
  destruct (Z.eqb_spec w (-1)) as [|Hw]; [done|].
  destruct (add_fd _ _ _ _ _) as [[] l] eqn:Ha; cbn [negb]; [|done].
  apply add_fd_success in Ha as (cb & [= <-] & _ & Hf & _ & _ & _ & ->). intros _. cbn. done.
Qed.

Lemma idle_server_wired l signal world ps store t1 t2 t3 server :
  owner_thread_id_ l = self → valid l = true → 0 <= wakeup_fd_ l →
  callbacks_ l = {[wakeup_fd_ l := WakeupCallback]} →
  sig_state_ signal = SS_.stopped → sig_has_loop_ signal = true → has_base_ ps = true → psv_started_ ps = false →
  (∀ t, t ∈ [t1; t2; t3] → timer_state_ t = TS.stopped ∧ has_loop_ t = true) →
  listen_registered_ (tw_server server) = false →
  let sv := MkServer l signal world ps store t1 t2 t3 server in wired self sv ∧ idle_server sv.
Proof.
  intros Ho Hv Hf Hc Hsig Hsl Hb Hps Ht Hlisten sv.
  assert (Hreg : ∀ cb, cb ≠ WakeupCallback → registration sv cb = None).
  { assert (Hts : ∀ t, t ∈ [t1; t2; t3] → timer_registration t = None).
    { intros t [Hst _]%Ht. unfold timer_registration. by rewrite Hst. }
    intros [] ?; cbn; try done; [unfold listen_registration; by rewrite Hlisten|..];
      try (apply Hts; set_solver). unfold signal_registration. by rewrite Hsig. }
  split; [|by split]. split; cbn.
  - done.
  - intros fd cb. rewrite Hc, lookup_singleton_Some. split.
    + by intros [<- <-].
    + intros Hr. destruct (decide (cb = WakeupCallback)) as [->|Hne]; [by injection Hr|]. by rewrite Hreg in Hr.
  - intros fd [cb Hin]. rewrite Hc in Hin. by apply lookup_singleton_Some in Hin as [<- _].
  - split_and!; try done; apply Ht; set_solver.
Qed.

Lemma TickTimer_new_stopped (l : EventLoop Callback Functor) ms b fd :
  timer_state_ (TickTimer_new (Some l) ms b fd) = TS.stopped ∧ has_loop_ (TickTimer_new (Some l) ms b fd) = true.
Proof. unfold TickTimer_new. by destruct (_ || _ || _). Qed.

Lemma ShutdownSignal_new_stopped (l : EventLoop Callback Functor) b1 b2 fd b3 :
  sig_state_ (ShutdownSignal_new (Some l) b1 b2 fd b3) = SS_.stopped ∧
  sig_has_loop_ (ShutdownSignal_new (Some l) b1 b2 fd b3) = true.
Proof. unfold ShutdownSignal_new. by destruct (negb (valid l)), (negb b1), (negb b2). Qed.

Section setup.
Context `{FilesLaws} {ho : HashOrder}.

(** A program that returns, and returns a server only when it is set up. *)
Definition sets_up (a : SetupAnswers) (d : disk) (m : Sys (option Server)) (d' : disk) : Prop :=
  ∃ r d'', returns m d' r d'' ∧ ∀ sv, r = Some sv → set_up self a d sv.

Lemma sets_up_none a d d' : sets_up a d (mret None) d'.
Proof. eexists _, _. split; [apply returns_ret|done]. Qed.

Lemma sets_up_bind {A} a d (m : Sys A) (f : A → Sys (option Server)) d1 x d2 :
  returns m d1 x d2 → sets_up a d (f x) d2 → sets_up a d (m ≫= f) d1.
Proof. intros Hm (r & d3 & Hr & Hsv). exists r, d3. split; [by eapply returns_bind|done]. Qed.

Lemma sets_up_server a d d' l signal world ps store t1 t2 t3 server :
  owner_thread_id_ l = self → valid l = true → 0 <= wakeup_fd_ l →
  callbacks_ l = {[wakeup_fd_ l := WakeupCallback]} → quit_ l = false → looping_ l = false →
  sig_state_ signal = SS_.stopped ∧ sig_has_loop_ signal = true → has_base_ ps = true → psv_started_ ps = false →
  (∀ t, t ∈ [t1; t2; t3] → timer_state_ t = TS.stopped ∧ has_loop_ t = true) →
  listen_registered_ (tw_server server) = false →
  let sv := MkServer l signal world ps store t1 t2 t3 server in
  opened_from d a sv → no_clients sv → sets_up a d (mret (Some sv)) d'.
Proof.
  intros Ho Hv Hf Hc Hq Hl [Hs1 Hs2] Hb Hps Ht Hlisten sv Hopen Hno.
  eexists _, _. split; [apply returns_ret|]. intros sv' [= <-].
  destruct (idle_server_wired l signal world ps store t1 t2 t3 server) as [Hw Hi]; try done.
Qed.

Lemma main_setup_outcome base_ptr a d : sets_up a d (main_setup self base_ptr a) d.
Proof.
  unfold main_setup. destruct (negb (sa_logger a)); [apply sets_up_none|].
  remember (EventLoop_new self 1024 (sa_epoll a) (sa_event a) WakeupCallback (sa_wakeup a)) as l eqn:El.
  destruct (valid l) eqn:Hv; cbn [negb]; [|apply sets_up_none].
  symmetry in El. apply EventLoop_new_outcome in El as (Ho & Hq & Hl & Hpend & Hf & Hc); [|done].
  destruct (negb (signal_valid _ _)); [apply sets_up_none|]. destruct (negb (sa_directories a)); [apply sets_up_none|].
  assert (Hin : is_in_loop_thread self l = true) by (unfold is_in_loop_thread; by rewrite Ho, Z.eqb_refl).
  rewrite Hin.
  destruct (persist_load_outcome CHECKPOINT_PATH d RECONNECT_TIMEOUT (sa_now a) ltac:(done))
    as (state & ps & store & service & d' & Hload & Hstate).
  eapply sets_up_bind; [exact Hload|]. clear Hload.
  assert (Htimers : ∀ t, t ∈ [TickTimer_new (Some l) CHECKPOINT_INTERVAL_MS true (sa_save a);
    TickTimer_new (Some l) TICK_INTERVAL_MS true (sa_tick a);
    TickTimer_new (Some l) TIMEOUT_SCAN_INTERVAL_MS true (sa_timeout a)] →
    timer_state_ t = TS.stopped ∧ has_loop_ t = true).
  { intros t. rewrite !elem_of_cons, elem_of_nil. intros [->|[->|[->|[]]]]; apply TickTimer_new_stopped. }
  destruct state; try apply sets_up_none.
  - destruct Hstate as (data & c & Hvis & Hdec & Hres & ->).
    destruct (negb (timer_valid _ _)); [apply sets_up_none|]. destruct (negb (timer_valid _ _)); [apply sets_up_none|].
    apply sets_up_server; try done; [apply ShutdownSignal_new_stopped|].
    unfold opened_from. rewrite Hvis. by exists c, service.
  - destruct Hstate as (Hvis & -> & ->).
    destruct (service_add_room _ _ _ _) as [[] world] eqn:Hadd; cbn [negb]; [|apply sets_up_none].
    destruct (negb (timer_valid _ _)); [apply sets_up_none|]. destruct (negb (timer_valid _ _)); [apply sets_up_none|].
    apply sets_up_server; try done; [apply ShutdownSignal_new_stopped| |].
    + unfold opened_from. by rewrite Hvis.
    + split_and!; try done. cbn. unfold service_add_room in Hadd. cbn [negb] in Hadd.
      destruct (add_room _ _ _) as [ok rooms]. by injection Hadd as _ <-.
Qed.

End setup.

(** ** The loop *)

(** What a callback or functor leaves alone: everything but the world of the
    room service, the tables of the TCP server and the checkpoint store. *)
Record same_parts (sv sv' : Server) : Prop := {
  sp_signal : sv_signal sv' = sv_signal sv;
  sp_timers : sv_tick_timer sv' = sv_tick_timer sv ∧ sv_timeout_timer sv' = sv_timeout_timer sv ∧
    sv_save_timer sv' = sv_save_timer sv;
  sp_persist : has_base_ (sv_persist sv') = has_base_ (sv_persist sv) ∧
    psv_started_ (sv_persist sv') = psv_started_ (sv_persist sv);
  sp_tcp : same_listening (tw_server (sv_tcp sv)) (tw_server (sv_tcp sv'));
  sp_loop : owner_thread_id_ (sv_loop sv') = owner_thread_id_ (sv_loop sv) ∧
    valid (sv_loop sv') = valid (sv_loop sv) ∧ callbacks_ (sv_loop sv') = callbacks_ (sv_loop sv) ∧
    wakeup_fd_ (sv_loop sv') = wakeup_fd_ (sv_loop sv)
}.

Lemma same_parts_serving sv sv' :
  same_parts sv sv' → serving self sv →
  serving self sv' ∧ (∀ cb, registration sv' cb = registration sv cb).
Proof.
  intros [Hs (H1 & H2 & H3) [Hb Hp] (Hl1 & Hl2 & Hl3 & _) (Ho & Hv & Hc & Hk)] [[[Hw1 Hw2] Hwc Hwd Hwp] Hcb [Ht Hps]].
  assert (Hreg : ∀ cb, registration sv' cb = registration sv cb).
  { intros []; cbn; unfold listen_registration; rewrite ?Hl1, ?Hl2; congruence. }
  split; [|done]. split; [split| |].
  - by rewrite Ho, Hv.
  - intros fd cb. by rewrite Hc, Hreg.
  - intros fd. rewrite Hc. apply Hwd.
  - rewrite H1, H2, H3, Hs, Hb. done.
  - intros cb. by rewrite Hreg.
  - split; congruence.
Qed.

#[local] Instance same_parts_preorder : PreOrder same_parts.
Proof.
  split; [by intros sv|]. intros s1 s2 s3 [? (? & ? & ?) [? ?] Ht (? & ? & ? & ?)] [? (? & ? & ?) [? ?] Ht' (? & ? & ? & ?)].
  split; [congruence|split_and!; congruence|split; congruence|by etrans|split_and!; congruence].
Qed.

Lemma queue_functors_loop (fs : list Functor) l :
  foldl (λ l f, queue_in_loop (Some f) l) l fs = set_pending_functors (pending_functors_ l ++ fs) l.
Proof.
  revert l. induction fs as [|f fs IH]; intros l; cbn [foldl].
  - rewrite app_nil_r. by destruct l.
  - rewrite IH. cbn. by rewrite <- (assoc_L (++)).
Qed.

Lemma others_act_parts a sv :
  same_parts sv (others_act a sv) ∧ quit_ (sv_loop (others_act a sv)) = quit_ (sv_loop sv).
Proof.
  unfold others_act, change_connections, queue_functors. rewrite queue_functors_loop. by split.
Qed.

Lemma run_callback_parts `{HashOrder} a cb events sv :
  same_parts sv (run_callback self a cb events sv) ∧
  (cb ≠ SignalCallback → quit_ (sv_loop (run_callback self a cb events sv)) = quit_ (sv_loop sv)).
Proof.
  assert (Hrefl : same_parts sv sv) by (by split).
  destruct cb; cbn.
  - done.
  - split; [|done]. split; try done. apply handle_accept_listening.
  - destruct (timer_handle_read _ _ _); [|done]. by split.
  - destruct (timer_handle_read _ _ _); [|done]. split; [|done]. split; try done. apply check_timeouts_listening.
  - destruct (timer_handle_read _ _ _); [|done]. unfold persist_handle_timer.
    destruct (save_now _ _ _ _) as [[ok ps] store] eqn:E. apply save_now_keeps in E as [? ?].
    split; [|done]. by split.
  - split; [|done]. rewrite signal_handle_read_spec. by destruct (_ && _).
Qed.

Lemma run_functor_parts `{HashOrder} a f sv :
  same_parts sv (run_functor self a f sv) ∧ quit_ (sv_loop (run_functor self a f sv)) = quit_ (sv_loop sv).
Proof.
  destruct f; cbn; [|by split].
  destruct (negb _); (split; [|done]); split; try done; apply remove_connection_listening.
Qed.

(** A callback, and a functor, after what the other threads have done. *)
Lemma invoke_parts `{HashOrder} a cb events sv :
  same_parts sv (run_callback self a cb events (others_act a sv)) ∧
  (cb ≠ SignalCallback → quit_ (sv_loop (run_callback self a cb events (others_act a sv))) = quit_ (sv_loop sv)).
Proof.
  destruct (others_act_parts a sv) as [Hp Hq], (run_callback_parts a cb events (others_act a sv)) as [Hp' Hq'].
  split; [by etrans|]. intros Hne. rewrite <- Hq. by apply Hq'.
Qed.

Lemma call_parts `{HashOrder} a f sv :
  same_parts sv (run_functor self a f (others_act a sv)) ∧
  quit_ (sv_loop (run_functor self a f (others_act a sv))) = quit_ (sv_loop sv).
Proof.
  destruct (others_act_parts a sv) as [Hp Hq], (run_functor_parts a f (others_act a sv)) as [Hp' Hq'].
  split; [by etrans|congruence].
Qed.

Section running.
Context `{HashOrder} (answers : nat → EventAnswers) (signal_fd : Z).
Implicit Types (w : Server * nat).

(** The loop as [main_loop] runs it. *)
Abbreviation base w := (sv_loop w.1).
Abbreviation on_base := (λ f w, (set_sv_loop (f (sv_loop w.1)) w.1, w.2)).
Abbreviation invoke := (λ callback events w, (run_callback self (answers w.2) callback events (others_act (answers w.2) w.1), S w.2)).
Abbreviation call := (λ f w, (run_functor self (answers w.2) f (others_act (answers w.2) w.1), S w.2)).
Abbreviation dispatch_events := (dispatch (λ w, base w) invoke).
Abbreviation pending := (do_pending_functors (λ w, base w) on_base call).

Definition runs w : Prop :=
  serving self w.1 ∧ registration w.1 SignalCallback = Some signal_fd ∧
  is_Some (base_ptr_ (tw_server (sv_tcp w.1))).

(** Whenever the signal descriptor is read, it yields a termination signal. *)
Definition termination (a : EventAnswers) : Prop :=
  SIGINT ∈ signals_of (ea_signals a) ∨ SIGTERM ∈ signals_of (ea_signals a).
Definition termination_pending : Prop := ∀ n, termination (answers n).

(** What makes the callback of the signal descriptor end the loop: an event that
    is not for reading, a read that fails, or one of the two signals. *)
Definition ends_loop (ev : Z) (a : EventAnswers) : Prop :=
  has ev EPOLLIN = false ∨ drained (ea_signals a) = false ∨ termination a.
(** Such an event among those of the signal descriptor, and the call, from the
    [n1]-th to before the [n2]-th, that it led to. *)
Definition ending (events : list (Z * Z)) (n1 n2 : nat) : Prop :=
  ∃ ev n, (signal_fd, ev) ∈ events ∧ (n1 <= n < n2)%nat ∧ ends_loop ev (answers n).

Lemma same_parts_runs w sv n : same_parts w.1 sv → runs w → runs (sv, n).
Proof.
  intros Hp (Hs & Hr & Hb). destruct (same_parts_serving _ _ Hp Hs) as [Hs' Hr'].
  split_and!; [done|by cbn [fst]; rewrite Hr'|]. destruct (sp_tcp _ _ Hp) as (_ & _ & _ & E). cbn [fst]. by rewrite E.
Qed.

(** The callback of the signal descriptor ends the loop exactly then. *)
Lemma signal_callback_quits a events sv :
  sig_state_ (sv_signal sv) = SS_.running → quit_ (sv_loop sv) = false →
  quit_ (sv_loop (run_callback self a SignalCallback events sv)) = true ↔ ends_loop events a.
Proof.
  intros Hr Hq. cbn. rewrite signal_handle_read_spec, Hr, bool_decide_true by done. cbn [andb].
  unfold ends_loop, termination. destruct (has events EPOLLIN); cbn; [|by split; [left|]].
  destruct (drained (ea_signals a)); cbn; [|by split; [right; left|]].
  case_bool_decide; cbn; [by split; [right; right|]|]. rewrite Hq. by split; [|intros [|[|]]].
Qed.

Lemma dispatch_outcome events w :
  runs w → quit_ (base w) = false →
  let w' := dispatch_events events w in
  runs w' ∧ (w.2 <= w'.2)%nat ∧ (quit_ (base w') = true → ending events w.2 w'.2) ∧
  (termination_pending → signal_fd ∈ events.*1 → quit_ (base w') = true).
Proof.
  revert w. induction events as [|[fd ev] events IH]; intros w Hw Hq.
  - split_and!; [done|done|by cbn in *; rewrite Hq|]. intros _ Hin. by apply elem_of_nil in Hin.
  - assert (Hskip : ∀ n1 n1' n2, ending events n1 n2 → (n1' <= n1)%nat → ending ((fd, ev) :: events) n1' n2).
    { intros n1 n1' n2 (ev1 & n & Hin & Hn & He) Hle. exists ev1, n. split_and!; [by right|lia|lia|done]. }
    cbn [dispatch fmap list_fmap fst]. pose proof Hw as ([[_ Hwc _ _] _ _] & Hreg & _).
    destruct (callbacks_ (base w) !! fd) as [cb|] eqn:Hcb.
    + apply Hwc in Hcb. destruct (invoke_parts (answers w.2) cb ev w.1) as [Hp Hquit].
      pose proof (same_parts_runs _ _ (S w.2) Hp Hw) as Hw1. cbn [fst snd] in *.
      set (sv1 := others_act (answers w.2) w.1) in *.
      destruct (quit_ (sv_loop (run_callback self (answers w.2) cb ev sv1))) eqn:Hq1.
      * assert (Hsig : cb = SignalCallback).
        { destruct (decide (cb = SignalCallback)) as [|Hne]; [done|]. specialize (Hquit Hne). congruence. }
        subst cb. assert (fd = signal_fd) as -> by congruence. cbn [snd].
        split_and!; [done|lia| |done]. intros _. exists ev, w.2. split_and!; [by left|lia|lia|].
        destruct (others_act_parts (answers w.2) w.1) as [[Hs _ _ _ _] Hq0].
        apply (signal_callback_quits _ ev sv1); [|by unfold sv1; rewrite Hq0|done].
        unfold sv1. rewrite Hs. cbn in Hcb. unfold signal_registration in Hcb. by case_bool_decide.
      * destruct (IH (_, S w.2) Hw1 Hq1) as (H1 & H2 & H3 & H4). cbn [snd] in *. split_and!; [done|lia| |].
        -- intros Hq'. apply (Hskip (S w.2)); [by apply H3|lia].
        -- intros Ht [->|Hin]%elem_of_cons; [|by apply H4].
           assert (cb = SignalCallback) as -> by (apply Hwc in Hcb, Hreg; congruence).
           destruct (others_act_parts (answers w.2) w.1) as [[Hs _ _ _ _] Hq0].
           assert (Hends : ends_loop ev (answers w.2)) by (right; right; apply Ht).
           apply (signal_callback_quits _ ev sv1) in Hends; [congruence| |by unfold sv1; rewrite Hq0].
           unfold sv1. rewrite Hs. cbn in Hreg. unfold signal_registration in Hreg. by case_bool_decide.
    + destruct (IH w Hw Hq) as (H1 & H2 & H3 & H4). split_and!; [done|done| |].
      * intros Hq'. apply (Hskip w.2); [by apply H3|lia].
      * intros Ht [->|Hin]%elem_of_cons; [|by apply H4]. apply Hwc in Hreg. congruence.
Qed.

Lemma calls_outcome fs w :
  runs w → let w' := foldl (λ w f, call f w) w fs in
  runs w' ∧ quit_ (base w') = quit_ (base w) ∧ (w.2 <= w'.2)%nat.
Proof.
  revert w. induction fs as [|f fs IH]; intros w Hw; [done|]. cbn [foldl].
  destruct (call_parts (answers w.2) f w.1) as [Hp Hq].
  destruct (IH (run_functor self (answers w.2) f (others_act (answers w.2) w.1), S w.2)) as (? & Hq' & Hn); [by eapply same_parts_runs|].
  split_and!; [done| |cbn in Hn; lia]. rewrite Hq'. exact Hq.
Qed.

Lemma pending_outcome w :
  runs w → runs (pending w) ∧ quit_ (base (pending w)) = quit_ (base w) ∧ (w.2 <= (pending w).2)%nat.
Proof.
  intros Hw. unfold do_pending_functors. cbn [take_functors fst snd].
  destruct (calls_outcome (pending_functors_ (base w)) (set_sv_loop (set_pending_functors [] (base w)) w.1, w.2)) as (? & Hq & Hn).
  - eapply same_parts_runs; [|done]. by split.
  - split_and!; [done| |exact Hn]. by rewrite Hq.
Qed.

Abbreviation iterations := (iterate (λ w, base w) on_base invoke call).

(** The events of the signal descriptor among the results of [epoll_wait]. *)
Definition signalled (waits : list wait_result) : Prop :=
  ∃ events, WaitEvents events ∈ waits ∧ signal_fd ∈ events.*1.

(** One of them ends the loop, in the first [n] calls. *)
Definition shutdown_seen (waits : list wait_result) (n : nat) : Prop :=
  ∃ events, WaitEvents events ∈ waits ∧ ending events 0 n.

Lemma shutdown_seen_weaken r waits n : shutdown_seen waits n → shutdown_seen (r :: waits) n.
Proof. intros (events & Hin & He). exists events. split; [by right|done]. Qed.

Lemma iterate_outcome waits w :
  runs w → quit_ (base w) = false →
  let '(result, w') := iterations waits w in
  runs w' ∧ (w.2 <= w'.2)%nat ∧
  (result = Some false → WaitError ∈ waits) ∧
  (result = Some true → shutdown_seen waits w'.2) ∧
  (WaitError ∈ waits ∨ termination_pending ∧ signalled waits → is_Some result).
Proof.
  revert w. induction waits as [|r waits IH]; intros w Hw Hq; cbn [iterate]; rewrite Hq.
  - split_and!; try done. intros [Hin|(_ & events & Hin & _)]; by apply elem_of_nil in Hin.
  - destruct r as [events| |].
    + destruct (dispatch_outcome events w Hw Hq) as (H1 & Hn1 & H2 & H3).
      destruct (pending_outcome _ H1) as (H4 & Hq4 & Hn4). set (w' := pending (dispatch_events events w)) in *.
      destruct (quit_ (base w')) eqn:Hq'.
      * assert (E : iterations waits w' = (Some true, on_base (set_looping false) w'))
          by (destruct waits; cbn [iterate]; by rewrite Hq').
        rewrite E. cbn [snd]. split_and!; [|lia|done| |by eexists].
        -- eapply same_parts_runs; [|exact H4]. by split.
        -- intros _. exists events. split; [by left|]. destruct H2 as (ev & n & Hin & Hn & He); [congruence|].
           exists ev, n. split_and!; [done|lia|lia|done].
      * specialize (IH w' H4 Hq'). destruct (iterations waits w') as [result w'']. destruct IH as (H5 & Hn5 & H6 & H7 & H8).
        split_and!; [done|lia|right; auto|by intros; apply shutdown_seen_weaken; auto|].
        intros [Hin|[Ht (ev & Hev & Hs)]]; apply H8.
        -- left. by apply elem_of_cons in Hin as [|].
        -- right. split; [done|]. apply elem_of_cons in Hev as [[= ->]|Hev]; [|by exists ev].
           rewrite H3 in Hq4 by done. congruence.
    + specialize (IH w Hw Hq). destruct (iterations waits w) as [result w'']. destruct IH as (H5 & Hn5 & H6 & H7 & H8).
      split_and!; [done|lia|right; auto|by intros; apply shutdown_seen_weaken; auto|].
      intros [Hin|[Ht (ev & Hev & Hs)]]; apply H8.
      * left. by apply elem_of_cons in Hin as [|].
      * right. split; [done|]. apply elem_of_cons in Hev as [|Hev]; [done|by exists ev].
    + cbn [snd]. split_and!; [|done|by left|done|by eexists].
      eapply same_parts_runs; [|exact Hw]. by split.
Qed.

End running.

(** ** The life of the process *)

Lemma default_room_reachable `{HashOrder} late random world :
  service_add_room true DEFAULT_ROOM_ID DEFAULT_ROOM_CAPACITY
    (MkWorld (RoomService_new RECONNECT_TIMEOUT) ∅ [] random) = (true, world) →
  reachable late (MkSystem world ∅).
Proof.
  intros Hadd. replace world with (service_add_room true DEFAULT_ROOM_ID DEFAULT_ROOM_CAPACITY
    (MkWorld (RoomService_new RECONNECT_TIMEOUT) ∅ [] random)).2 by (by rewrite Hadd).
  eapply ReachStep; [|by apply StepAddRoom].
  apply (ReachStep _ (System_new RECONNECT_TIMEOUT)); [constructor|]. apply (StepEntropy _ random).
Qed.

(** C18: Starting up, whatever the checkpoint file holds and the system answers,
    returns. A server that is set up has the rooms and sessions of the
    checkpoint file, or one empty room if there is none. When starting then
    succeeds, every part runs: its callback is in the table of the base loop
    under its own descriptor, and nothing else is; rooms and sessions are
    untouched. When any part fails to start, the code rolls back the timers, the
    signal descriptor and the persistence service but not the TCP server: if
    [epoll_ctl] lets the listening socket and the three timers be removed, those
    parts are left stopped, while the TCP server may still be listening. It
    is closed when [main] then leaves: the destructors give back the
    descriptors of the base loop, the timers and the signals, the listening
    socket and the background thread, whatever the system answers, and with the same four removals no part is left
    registered. *)
Theorem startup_serves `{FilesLaws} {ho : HashOrder} base_ptr a d :
  ∃ r d', returns (main_setup self base_ptr a) d r d' ∧
    ∀ sv, r = Some sv →
      opened_from d a sv ∧
      (visible d CHECKPOINT_PATH = None → ∀ late, reachable late (MkSystem (sv_world sv) ∅)) ∧
      ∀ flushed answers rollback started sv', start_all self flushed answers rollback sv = (started, sv') →
        if started then serving self sv' ∧ sv_world sv' = sv_world sv
        else
          (∀ flushed' leaving, released (exit_main self flushed' leaving sv')) ∧
          (st_removed answers = true → ta_removed (so_tick rollback) = true →
           ta_removed (so_timeout rollback) = true → ta_removed (so_save rollback) = true →
           wired self sv' ∧ quiescent sv' ∧ ∀ flushed' leaving, idle_server (exit_main self flushed' leaving sv')).
Proof.
  destruct (main_setup_outcome base_ptr a d) as (r & d' & Hret & Hsv). exists r, d'. split; [exact Hret|].
  intros sv [Hw Hi Ho _ Hno]%Hsv. split_and!; [done| |].
  - intros Hnone late. unfold opened_from in Ho. rewrite Hnone in Ho. destruct Ho as [Hadd _].
    by eapply default_room_reachable.
  - intros flushed answers rollback [] sv' Hs.
    + destruct (start_all_serving flushed _ _ _ _ Hs Hw Hi) as (? & ? & _ & _). done.
    + assert (Hc : closable sv') by (eapply start_all_closable; [done..|]; split; [apply Hw|apply Hno]).
      split; [intros; by apply exit_main_outcome|]. intros.
      destruct (start_all_failed flushed _ _ _ _ Hs Hw Hi) as [Hw' Hq]; [done..|].
      split_and!; [done..|]. intros. by apply exit_main_outcome.
Qed.

(** C16: A termination signal ends the server. A server that has been started runs
    its loop, whatever clients, timers and queued functors do meanwhile. The
    loop ends well only when the signal descriptor was reported and that event
    was not for reading, or reading it failed, or a SIGINT or SIGTERM was read;
    it ends badly only when [epoll_wait] failed; and it does end when
    [epoll_wait] fails, or when the descriptor is reported and the signals are
    there to be read. Until then, and when it ends, every part is in order.
    When stopping everything afterwards exits with status 0, the loop ended well
    and the timers, the signal descriptor and the persistence service are
    stopped; the TCP server is left to its destructor. When [main] is left,
    with either status, the descriptors of the base loop, the timers and the
    signals, the listening socket and the background thread are given back, every connection still in the table has
    its closing posted to its loop, rooms and sessions are as the loop left
    them, and after status 0 no part is left registered. *)
Theorem signal_ends_server `{Files} {ho : HashOrder} a d sv0 flushed answers rollback sv events signal_fd waits :
  set_up self a d sv0 → start_all self flushed answers rollback sv0 = (true, sv) →
  registration sv SignalCallback = Some signal_fd →
  let '(result, (sv', n)) := main_loop self events waits sv in
  serving self sv' ∧
  (result = Some true → shutdown_seen events signal_fd waits n) ∧
  (result = Some false → WaitError ∈ waits) ∧
  (WaitError ∈ waits ∨ termination_pending events ∧ signalled signal_fd waits → is_Some result) ∧
  ∀ ok b flushed status sv'', result = Some ok → stop_all self flushed ok b sv' = (status, sv'') →
    (status = 0 ∨ status = 1) ∧ (status = 0 → ok = true ∧ quiescent sv'') ∧
    ∀ flushed' leaving, let sv3 := exit_main self flushed' leaving sv'' in
      released sv3 ∧ connections_ended sv' sv3 ∧ sv_world sv3 = sv_world sv' ∧ (status = 0 → idle_server sv3).
Proof.
  intros [Hw Hi _ [Hq Hl] Hno] Hs Hsig.
  destruct (start_all_serving flushed _ _ _ _ Hs Hw Hi) as (Hsv & _ & (_ & Hq' & Hl' & _) & _ & (_ & _ & Hbase)).
  pose proof Hsv as [[[Ho Hv] _ _ _] _ _].
  assert (E : main_loop self events waits sv = iterate (λ w, sv_loop w.1)
    (λ f w, (set_sv_loop (f (sv_loop w.1)) w.1, w.2))
    (λ callback evs w, (run_callback self (events w.2) callback evs (others_act (events w.2) w.1), S w.2))
    (λ f w, (run_functor self (events w.2) f (others_act (events w.2) w.1), S w.2)) waits (set_sv_loop (set_looping true (sv_loop sv)) sv, 0%nat)).
  { unfold main_loop, loop. cbn [fst snd]. unfold is_in_loop_thread.
    by rewrite Hv, Ho, Z.eqb_refl, Hl', Hl. }
  pose proof (iterate_outcome events signal_fd waits (set_sv_loop (set_looping true (sv_loop sv)) sv, 0%nat)) as Hout.
  rewrite <- E in Hout. destruct (main_loop _ _ _ _) as [result [sv' n]].
  destruct Hout as ((H1 & _ & Hb) & _ & H2 & H3 & H4); [|cbn; congruence|].
  { apply (same_parts_runs _ (sv, 0%nat)); [by split|]. split_and!; [done..|]. cbn [fst]. rewrite Hbase. apply Hno. }
  cbn [fst snd] in *. split_and!; [done..|]. intros ok b flushed' status sv'' -> Hstop.
  destruct (stop_all_outcome flushed' b sv' ok status sv'' Hstop H1) as (Hst & Hw' & Eworld & Etcp & Hok).
  split_and!; [done..|]. intros flushed'' leaving.
  destruct (exit_main_outcome flushed'' leaving sv'') as (Hrel & Hend & Ew & Hidle); [split; [apply Hw'|by rewrite Etcp]|].
  split_and!; [done| |congruence|by intros Hz; apply Hidle, Hok].
  unfold connections_ended in *. by rewrite Etcp in Hend.
Qed.

End main_proofs.

(** ** A concrete run: an empty disk, and a system that grants everything *)

Section demo.
#[local] Instance demo_hash : HashOrder := canonical_order.

Definition main_answers : SetupAnswers := MkSetupAnswers true 3 4 true true true 5 true true 6 7 8 0 demo_random.
Definition timer_granted : TimerAnswers := MkTimerAnswers true true true true [].
Definition start_granted : StartAnswers :=
  MkStartAnswers (MkListenAnswers 9 true true true true true) true true (λ i, Some (100 + Z.of_nat i))
    timer_granted timer_granted true timer_granted true.
Definition stop_granted : StopAnswers := MkStopAnswers timer_granted timer_granted timer_granted true.
Definition exit_granted : ExitAnswers := MkExitAnswers timer_granted true timer_granted timer_granted true true.
Definition main_disk : disk := SimDisk_new ∅ [].

Definition main_runs (n : nat) : option (option Server) * (nat * disk) := main_setup 1 1 main_answers n main_disk.
Definition main_server : option Server := default None (main_runs 1).1.
Definition main_started (sv : Server) : bool * Server := start_all 1 (λ store, store) start_granted stop_granted sv.

(** The signal descriptor cannot be added to the loop. *)
Definition start_refused : StartAnswers :=
  MkStartAnswers (st_listen start_granted) true true (st_threads start_granted) timer_granted timer_granted true
    timer_granted false.
Definition main_refused (sv : Server) : bool * Server := start_all 1 (λ store, store) start_refused stop_granted sv.

Lemma main_runs_returns : returns (main_setup 1 1 main_answers) main_disk main_server (main_runs 1).2.2.
Proof. exists 1%nat. intros k. vm_compute. reflexivity. Qed.

Lemma main_starts :
  (λ sv, ((main_started sv).1, registration (main_started sv).2 SignalCallback)) <$> main_server = Some (true, Some 5).
Proof. vm_compute. reflexivity. Qed.

Lemma main_refuses :
  (λ sv, ((main_refused sv).1, listen_registered_ (tw_server (sv_tcp (main_refused sv).2)))) <$> main_server =
    Some (false, true).
Proof. vm_compute. reflexivity. Qed.

Lemma startup_serves_witness :
  ∃ sv, main_server = Some sv ∧ visible main_disk CHECKPOINT_PATH = None ∧
    reachable false (MkSystem (sv_world sv) ∅) ∧ (main_started sv).1 = true ∧ serving 1 (main_started sv).2 ∧
    (main_refused sv).1 = false ∧ listen_registered_ (tw_server (sv_tcp (main_refused sv).2)) = true ∧
    released (exit_main 1 (λ store, store) exit_granted (main_refused sv).2) ∧
    idle_server (exit_main 1 (λ store, store) exit_granted (main_refused sv).2).
Proof.
  destruct (startup_serves 1 1 main_answers main_disk) as (r & d' & Hret & Hsv).
  destruct (returns_functional _ _ _ _ _ _ Hret main_runs_returns) as [-> _].
  pose proof main_starts as Hok. pose proof main_refuses as Hno.
  destruct main_server as [sv|]; [|done]. injection Hok as Hok _. injection Hno as Hno Hlisten. exists sv.
  destruct (Hsv sv eq_refl) as (_ & Hreach & Hstart).
  pose proof (Hstart (λ store, store) start_granted stop_granted (main_started sv).1 (main_started sv).2
    (surjective_pairing _)) as Hyes. rewrite Hok in Hyes.
  specialize (Hstart (λ store, store) start_refused stop_granted (main_refused sv).1 (main_refused sv).2
    (surjective_pairing _)). rewrite Hno in Hstart. destruct Hstart as [Hrel Hidle].
  split_and!; [done|by vm_compute|by apply Hreach|done|apply Hyes|done..|apply Hrel|by apply Hidle].
Defined.

(** The loop wakes up for a tick, then for SIGTERM. *)
Definition main_events (n : nat) : EventAnswers := MkEventAnswers [Expired 1] [GotSignal SIGTERM] [] 50 [] [].
Definition main_waits : list wait_result := [WaitEvents [(7, EPOLLIN)]; WaitEintr; WaitEvents [(5, EPOLLIN); (7, EPOLLIN)]].

(** The last checkpoint is committed while [flush] waits for it. *)
Definition main_flushed (store : CheckpointStore) : CheckpointStore :=
  match thread_take store with
  | Some (checkpoint, store) => thread_record true checkpoint store
  | None => store
  end.
(** The outcome of the loop, the exit status, and the server when [main] is left. *)
Definition main_ends (waits : list wait_result) (sv : Server) : option (bool * Z * Server) :=
  let '(result, (sv', _)) := main_loop 1 main_events waits (main_started sv).2 in
  (λ ok, let '(status, sv'') := stop_all 1 main_flushed ok stop_granted sv' in
    (ok, status, exit_main 1 (λ store, store) exit_granted sv'')) <$> result.
Definition main_status (waits : list wait_result) : option (option (bool * Z)) :=
  (λ sv, fst <$> main_ends waits sv) <$> main_server.

(** Ended by the signal, by an error of [epoll_wait], and by neither. *)
Example main_statuses :
  main_status main_waits = Some (Some (true, 0)) ∧
  main_status [WaitEvents [(7, EPOLLIN)]; WaitError] = Some (Some (false, 1)) ∧
  main_status [WaitEvents [(7, EPOLLIN)]] = Some None.
Proof. vm_compute. done. Qed.

Lemma signal_ends_server_witness :
  ∃ sv0 sv, main_server = Some sv0 ∧
    (main_loop 1 main_events main_waits (main_started sv0).2).1 = Some true ∧
    main_ends main_waits sv0 = Some (true, 0, sv) ∧ released sv ∧ idle_server sv.
Proof.
  destruct (main_setup_outcome 1 1 main_answers main_disk) as (r & d' & Hret & Hsv).
  destruct (returns_functional _ _ _ _ _ _ Hret main_runs_returns) as [-> _].
  pose proof main_starts as Hok. pose proof (proj1 main_statuses) as Hends. unfold main_status in Hends.
  destruct main_server as [sv0|]; [|done]. injection Hok as Hok Hreg. injection Hends as Hends.
  specialize (Hsv sv0 eq_refl).
  pose proof (signal_ends_server 1 main_answers main_disk sv0 (λ store, store) start_granted stop_granted
    (main_started sv0).2 main_events 5 main_waits Hsv) as H.
  unfold main_ends in *. destruct (main_loop _ _ _ _) as [result [sv' n]] eqn:El.
  destruct H as (_ & _ & _ & _ & Hstop).
  - unfold main_started in *. by rewrite <- Hok, <- surjective_pairing.
  - exact Hreg.
  - destruct result as [ok|]; [|done]. cbn [option_fmap option_map fmap] in *.
    destruct (stop_all _ _ _ _ _) as [status sv''] eqn:E. injection Hends as -> ->.
    exists sv0. eexists. destruct (Hstop true stop_granted main_flushed 0 sv'' eq_refl E) as (_ & _ & Hexit).
    destruct (Hexit (λ store, store) exit_granted) as (Hrel & _ & _ & Hidle). rewrite El. cbn [fst snd fmap option_fmap option_map].
    rewrite E. split_and!; [done..|by apply Hidle].
Defined.
End demo.
