(* ===== verification/ServerLoop.v ===== *)
(** The running server refines the service: every state that the base loop of
    [main] reaches, with the callbacks, functors and tables of all its parts, is a
    state of the transition system of ServiceInvariant, whose open connections
    are those in the table of the TCP server. So what is proved of the service
    holds of the server: with [late = true] for every run of the I/O threads,
    with [late = false] for those in which no answer to a heartbeat closes a
    connection. *)

From stdpp Require Import sorting.
From S2P Require Import Prelude Buffer Codec Connection RoomManager SessionManager RoomService ServiceInvariant Dispatch IoThread.
From S2P Require Import EventLoop Files SimFiles TickTimer ShutdownSignal PersistenceService TcpServer ServerMain.
Open Scope Z_scope.

(** * Definitions *)

(** The connections that have been accepted and not been reported closed. *)
Definition open_connections (tcp : TcpWorld) : gset Conn := map_img (connections_ (tw_server tcp)).
Definition service_state (sv : Server) : System := MkSystem (sv_world sv) (open_connections (sv_tcp sv)).

(** The loop of a connection reports it closed after the last of its frames. *)
Definition before (f g : Functor) : Prop :=
  match f, g with
  | RemoveConnection c, HandleFrame c' _ _ => c ≠ c'
  | _, _ => True
  end.

(** What is posted, and what is accepted, in the first [n] calls. *)
Definition posted_before (answers : nat → EventAnswers) (n : nat) : list Functor :=
  concat ((λ i, ea_posted (answers i)) <$> seq 0 n).
Definition accepted_before (answers : nat → EventAnswers) (n : nat) : list Conn :=
  concat ((λ i, accept_objects (ea_accepts (answers i))) <$> seq 0 n).

(** The functors of a connection are those that a run of its I/O thread queues. *)
Definition functor_of (c : Conn) (posted : Posting) : Functor :=
  match posted with PostFrame type payload => HandleFrame c type payload | PostClosed => RemoveConnection c end.
(** With [late = true] any run; otherwise one in which no answer to a heartbeat
    closes the connection. *)
Definition queued_by_peer (late : bool) (c : Conn) (functors : list Functor) : Prop :=
  ∃ steps now reads writes epoll, let start := Peer_new now reads writes epoll in
    (late = false → answers_sent steps start = true) ∧ functors = functor_of c <$> pr_posted (run_peer steps start).

(** What the base loop gets from the I/O threads, in any interleaving, comes from
    such runs, and every connection object has an identity of its own. *)
Record peers_ok (late : bool) (answers : nat → EventAnswers) : Prop := {
  po_runs : ∀ n c, queued_by_peer late c (filter (λ f, connection_of f = c) (posted_before answers n));
  po_fresh : ∀ n, NoDup (accepted_before answers n)
}.

(** * Proofs *)

Lemma posted_before_S answers n : posted_before answers (S n) = posted_before answers n ++ ea_posted (answers n).
Proof. unfold posted_before. rewrite seq_S, fmap_app, concat_app. cbn. by rewrite app_nil_r. Qed.

Lemma accepted_before_S answers n :
  accepted_before answers (S n) = accepted_before answers n ++ accept_objects (ea_accepts (answers n)).
Proof. unfold accepted_before. rewrite seq_S, fmap_app, concat_app. cbn. by rewrite app_nil_r. Qed.

(** ** The order of the functors *)

Lemma sorted_if_unrelated (l : list Functor) :
  (∀ f g, f ∈ l → g ∈ l → before f g) → StronglySorted before l.
Proof.
  induction l as [|f l IH]; intros H; constructor.
  - apply IH. intros g h Hg Hh. apply H; by right.
  - apply Forall_forall. intros g Hg. apply H; [by left|by right].
Qed.

Lemma queued_by_peer_sorted c functors : queued_by_peer false c functors → StronglySorted before functors.
Proof.
  intros (steps & now & reads & writes & epoll & Hs & ->).
  destruct (run_peer_report_last steps _ (Peer_new_inv false now reads writes epoll) (Hs eq_refl)) as (fs & n & ->); [by exists [], 0%nat|].
  assert (Hfirst : ∀ f, f ∈ functor_of c <$> (posted_frame <$> fs) → ∃ type payload, f = HandleFrame c type payload).
  { intros f (x & -> & ([type payload] & -> & _)%list_elem_of_fmap)%list_elem_of_fmap. by eexists _, _. }
  assert (Hlast : ∀ f, f ∈ functor_of c <$> replicate n PostClosed → f = RemoveConnection c).
  { by intros f (x & -> & [-> _]%elem_of_replicate)%list_elem_of_fmap. }
  rewrite fmap_app. apply StronglySorted_app. split_and!.
  - by intros f g (type & payload & ->)%Hfirst ->%Hlast.
  - apply sorted_if_unrelated. by intros f g (type & payload & ->)%Hfirst (type' & payload' & ->)%Hfirst.
  - apply sorted_if_unrelated. by intros f g ->%Hlast ->%Hlast.
Qed.

(** Only functors of one connection are ordered. *)
Lemma sorted_by_connection (l : list Functor) :
  (∀ c, StronglySorted before (filter (λ f, connection_of f = c) l)) → StronglySorted before l.
Proof.
  induction l as [|f l IH]; intros H; constructor.
  - apply IH. intros c. specialize (H c). rewrite filter_cons in H. case_decide; [|done].
    by apply StronglySorted_inv in H as [H _].
  - apply Forall_forall. intros g Hg. specialize (H (connection_of f)). rewrite filter_cons_True in H by done.
    apply StronglySorted_inv in H as [_ H]. rewrite Forall_forall in H.
    destruct (decide (connection_of g = connection_of f)) as [E|E].
    + apply H, list_elem_of_filter. done.
    + destruct f, g; cbn in *; done || congruence.
Qed.

Lemma peers_order answers n : peers_ok false answers → StronglySorted before (posted_before answers n).
Proof. intros Hp. apply sorted_by_connection. intros c. by eapply queued_by_peer_sorted, (po_runs _ _ Hp). Qed.

Lemma elem_of_open tcp c : c ∈ open_connections tcp ↔ ∃ fd, connections_ (tw_server tcp) !! fd = Some c.
Proof. apply elem_of_map_img. Qed.

(** ** Accepting *)

(** An entry of the table is the descriptor of its object. *)
Definition table_ok (tcp : TcpWorld) : Prop :=
  ∀ fd c, connections_ (tw_server tcp) !! fd = Some c → ∃ loop, tw_objects tcp !! c = Some (fd, loop).

(** Accepting some of the objects [cs]. *)
Record accepts (cs : list Conn) (tcp tcp' : TcpWorld) : Prop := {
  ac_table : table_ok tcp → table_ok tcp';
  ac_grow : dom (tw_objects tcp) ⊆ dom (tw_objects tcp');
  ac_new : ∀ c, c ∈ dom (tw_objects tcp') → c ∈ dom (tw_objects tcp) ∨ c ∈ cs;
  ac_open : ∀ c, c ∈ open_connections tcp' ↔
    c ∈ open_connections tcp ∨ c ∈ dom (tw_objects tcp') ∧ c ∉ dom (tw_objects tcp);
  ac_server : base_ptr_ (tw_server tcp') = base_ptr_ (tw_server tcp) ∧
    has_closed_callback_ (tw_server tcp') = has_closed_callback_ (tw_server tcp)
}.

Lemma accepts_same cs tcp tcp' : same_tables tcp tcp' → accepts cs tcp tcp'.
Proof.
  intros (Hc & Ho & _ & _ & Hcb & Hb).
  split; unfold table_ok, open_connections; rewrite ?Hc, ?Ho; try done; [by left|]. tauto.
Qed.

Lemma accepts_trans cs1 cs2 t1 t2 t3 : accepts cs1 t1 t2 → accepts cs2 t2 t3 → accepts (cs1 ++ cs2) t1 t3.
Proof.
  intros [Ht Hg Hn Ho Hs] [Ht' Hg' Hn' Ho' Hs']. split.
  - auto.
  - by etrans.
  - intros c Hc. rewrite elem_of_app. destruct (Hn' c Hc) as [Hc'|?]; [|tauto]. destruct (Hn c Hc'); tauto.
  - intros c. rewrite Ho', Ho. specialize (Hg c). specialize (Hg' c).
    destruct (decide (c ∈ dom (tw_objects t2))); tauto.
  - split; etrans; [apply Hs'|apply Hs|apply Hs'|apply Hs].
Qed.

Lemma accept_connection_accepts fd getfl setfl c tcp :
  c ∉ dom (tw_objects tcp) → accepts [c] tcp (accept_connection fd getfl setfl c tcp).
Proof.
  intros Hc. destruct (accept_connection_outcome fd getfl setfl c tcp) as [Hs|(loop & pool & Hnone & ->)].
  { by apply accepts_same. }
  split; cbn; [| | | |done].
  - intros Ht fd' c' Hl. cbn in Hl |- *. apply lookup_insert_Some in Hl as [[<- <-]|[Hne Hl]].
    + exists loop. apply lookup_insert_eq.
    + destruct (Ht _ _ Hl) as [loop' Ho]. exists loop'. rewrite lookup_insert_ne; [done|].
      intros <-. apply Hc, elem_of_dom. by eexists.
  - rewrite dom_insert. apply union_subseteq_r.
  - intros c'. rewrite dom_insert, elem_of_union, elem_of_singleton, list_elem_of_singleton. tauto.
  - intros c'. rewrite !elem_of_open, dom_insert, elem_of_union, elem_of_singleton. cbn. split.
    + intros [fd' [[<- <-]|[Hne Hl]]%lookup_insert_Some]; [right; tauto|left; by exists fd'].
    + intros [[fd' Hl]|[[->|?] ?]]; [|by exists fd; apply lookup_insert_eq|done].
      exists fd'. rewrite lookup_insert_ne; [done|]. intros <-. congruence.
Qed.

Lemma accept_loop_accepts l tcp :
  NoDup (accept_objects l) → (∀ c, c ∈ accept_objects l → c ∉ dom (tw_objects tcp)) →
  accepts (accept_objects l) tcp (accept_loop l tcp).
Proof.
  revert tcp. induction l as [|[fd getfl setfl c| | |] l IH]; intros tcp Hnd Hfresh; cbn in *;
    try (by apply accepts_same); [|by apply IH].
  apply NoDup_cons in Hnd as [Hnin Hnd].
  pose proof (accept_connection_accepts fd getfl setfl c tcp (Hfresh c ltac:(by left))) as Ha.
  apply (accepts_trans [c] _ _ _ _ Ha), IH; [done|]. intros c' Hc' Hd.
  destruct (ac_new _ _ _ Ha c' Hd) as [?| ->%list_elem_of_singleton]; [|done]. by eapply Hfresh; [right|].
Qed.

Lemma handle_accept_accepts b events l tcp :
  NoDup (accept_objects l) → (∀ c, c ∈ accept_objects l → c ∉ dom (tw_objects tcp)) →
  accepts (accept_objects l) tcp (handle_accept b events l tcp).
Proof.
  intros. unfold handle_accept. destruct (_ || _); [by apply accepts_same|].
  destruct (_ || _ || _); [by apply accepts_same|]. destruct (_ =? 0); [by apply accepts_same|].
  by apply accept_loop_accepts.
Qed.

Section refinement.
Context {ho : HashOrder} (late : bool) (self : Z).
Implicit Types (sv : Server).

(** The objects that have been made become open connections of the service. *)
Lemma connections_reachable now made w opened :
  reachable late (MkSystem w opened) → NoDup made →
  (∀ c, c ∈ made → c ∉ w_live w ∧ c ∉ bound (w_service w)) →
  reachable late (MkSystem (foldl (λ w c, set_conn c (Connection_new now) w) w made) (list_to_set made ∪ opened)) ∧
  w_service (foldl (λ w c, set_conn c (Connection_new now) w) w made) = w_service w ∧
  w_live (foldl (λ w c, set_conn c (Connection_new now) w) w made) = list_to_set made ∪ w_live w.
Proof.
  revert w opened. induction made as [|c made IH]; intros w opened Hr Hnd Hfresh; cbn.
  - by rewrite !union_empty_l_L.
  - apply NoDup_cons in Hnd as [Hnin Hnd].
    assert (Hlive : w_live (set_conn c (Connection_new now) w) = {[c]} ∪ w_live w)
      by (unfold w_live; cbn; by rewrite dom_insert_L).
    destruct (IH (set_conn c (Connection_new now) w) ({[c]} ∪ opened)) as (H1 & Hs & H2).
    + eapply ReachStep; [exact Hr|]. apply StepAccept; apply Hfresh; by left.
    + done.
    + intros c' Hc'. destruct (Hfresh c' ltac:(by right)) as [Hl Hb]. split; [|exact Hb].
      rewrite Hlive, elem_of_union, elem_of_singleton. by intros [->|?].
    + rewrite Hlive in H2. rewrite (assoc_L (∪)), (comm_L (∪) _ {[c]}) in H1.
      rewrite (assoc_L (∪)), (comm_L (∪) _ {[c]}) in H2. by split_and!.
Qed.

(** The server with the functors [fs] still to be run, after [posted] has been
    posted and [accepted] accepted. *)
Record client_inv (fs posted : list Functor) (accepted : list Conn) (sv : Server) : Prop := {
  ci_reach : reachable late (service_state sv);
  ci_table : table_ok (sv_tcp sv);
  ci_live : w_live (sv_world sv) = dom (tw_objects (sv_tcp sv));
  ci_service : service_inv (w_service (sv_world sv)) (dom (tw_objects (sv_tcp sv)));
  ci_objects : ∀ c, c ∈ dom (tw_objects (sv_tcp sv)) → c ∈ accepted;
  ci_server : is_Some (base_ptr_ (tw_server (sv_tcp sv))) ∧ has_closed_callback_ (tw_server (sv_tcp sv)) = true;
  ci_sorted : late = false → StronglySorted before (fs ++ pending_functors_ (sv_loop sv));
  ci_queue : ∀ f, f ∈ fs ++ pending_functors_ (sv_loop sv) →
    f ∈ posted ∧ connection_of f ∈ dom (tw_objects (sv_tcp sv));
  ci_removed : late = false → ∀ c, c ∈ dom (tw_objects (sv_tcp sv)) →
    c ∈ open_connections (sv_tcp sv) ∨
    RemoveConnection c ∈ posted ∧ ∀ t p, HandleFrame c t p ∉ fs ++ pending_functors_ (sv_loop sv)
}.

Lemma client_inv_weaken fs posted accepted accepted' sv :
  client_inv fs posted accepted sv → (∀ c, c ∈ accepted → c ∈ accepted') → client_inv fs posted accepted' sv.
Proof. intros [] Hsub. split; try done. auto. Qed.

(** A change of the world by the service alone. *)
Lemma client_inv_world fs posted accepted sv w :
  client_inv fs posted accepted sv →
  (reachable late (service_state sv) → service_inv (w_service (sv_world sv)) (dom (tw_objects (sv_tcp sv))) →
   reachable late (MkSystem w (open_connections (sv_tcp sv))) ∧ w_live w = w_live (sv_world sv) ∧
   service_inv (w_service w) (dom (tw_objects (sv_tcp sv)))) →
  client_inv fs posted accepted (set_sv_world w sv).
Proof.
  intros [Hr ? Hlive Hservice ?????] Hw. destruct (Hw Hr Hservice) as (Hr' & Hl & Hi).
  split; try done. cbn. by rewrite Hl.
Qed.

(** ** The other threads *)

Lemma changed_reachable changed w opened :
  reachable late (MkSystem w opened) →
  let w' := foldl (λ w x, if bool_decide (x.1 ∈ w_live w) then set_conn x.1 x.2 w else w) w changed in
  reachable late (MkSystem w' opened) ∧ w_live w' = w_live w ∧ w_service w' = w_service w.
Proof.
  revert w. induction changed as [|[c conn] changed IH]; intros w Hr; [done|]. cbn -[set_conn].
  case_bool_decide as Hc; [|by apply IH].
  destruct (IH (set_conn c conn w)) as (H1 & H2 & H3); [by eapply ReachStep; [exact Hr|apply StepIo]|].
  split_and!; [done| |exact H3]. rewrite H2. by apply (op_live _ _ (set_conn_only c conn w Hc)).
Qed.

Lemma others_act_inv fs posted accepted a sv :
  client_inv fs posted accepted sv → (late = false → StronglySorted before (posted ++ ea_posted a)) →
  client_inv fs (posted ++ ea_posted a) accepted (others_act a sv).
Proof.
  intros Hi Hsort. unfold others_act.
  assert (Hq : client_inv fs (posted ++ ea_posted a) accepted (queue_functors (ea_posted a) sv)).
  { destruct Hi as [Hr Ht Hl Hsi Ho Hs Hsorted Hqueue Hrem]. unfold queue_functors. rewrite queue_functors_loop.
    set (new := filter _ (ea_posted a)).
    assert (Hnew : ∀ f, f ∈ new → f ∈ ea_posted a ∧ connection_of f ∈ dom (tw_objects (sv_tcp sv))).
    { intros f [Hf Hin]%list_elem_of_filter. unfold exists_in in Hf. apply bool_decide_eq_true in Hf.
      by rewrite elem_of_dom. }
    split; cbn; try done.
    - intros Hlate. specialize (Hsorted Hlate).
      apply Hsort, StronglySorted_app in Hlate as (Hcross & _ & Hpost).
      rewrite (assoc_L (++)). apply StronglySorted_app. split_and!; [|done|].
      + intros f g Hf Hg. apply Hcross; [by apply Hqueue|by apply Hnew].
      + clear -Hpost. subst new. induction Hpost as [|f l Hl IH Hf]; [constructor|].
        rewrite filter_cons. case_decide; [|done]. constructor; [done|].
        rewrite Forall_forall in Hf |- *. intros g [_ Hg]%list_elem_of_filter. by apply Hf.
    - intros f. rewrite (assoc_L (++)), !elem_of_app. intros [Hf|Hf].
      + rewrite <- elem_of_app in Hf. destruct (Hqueue f Hf). tauto.
      + destruct (Hnew f Hf). tauto.
    - intros Hlate c Hc. destruct (Hrem Hlate c Hc) as [?|[Hp Hn]]; [by left|right].
      apply Hsort, StronglySorted_app in Hlate as (Hcross & _ & Hpost).
      split; [apply elem_of_app; by left|]. intros t p. rewrite (assoc_L (++)), elem_of_app.
      intros [Hf|[Hf _]%Hnew]; [by eapply Hn|]. by specialize (Hcross _ _ Hp Hf). }
  unfold change_connections. apply client_inv_world; [done|]. intros Hr Hservice.
  destruct (changed_reachable (ea_changed a) _ _ Hr) as (? & ? & ->). done.
Qed.

(** ** Callbacks *)

Lemma in_base_serving sv : serving self sv → in_base self sv = true.
Proof.
  intros [[[Ho _] _ _ _] _ _]. unfold in_base, is_in_loop_thread. by rewrite Ho, Z.eqb_refl.
Qed.

Lemma in_base_tcp tcp sv : in_base self (set_sv_tcp tcp (sv_loop sv) sv) = in_base self sv.
Proof. done. Qed.

Lemma accept_inv fs posted accepted l now events b sv :
  client_inv fs posted accepted sv → NoDup (accepted ++ accept_objects l) →
  let tcp := handle_accept b events l (sv_tcp sv) in
  let made := made_connections l (sv_tcp sv) tcp in
  client_inv fs posted (accepted ++ accept_objects l)
    (set_sv_world (foldl (λ w c, set_conn c (Connection_new now) w) (sv_world sv) made)
       (set_sv_tcp tcp (sv_loop sv) sv)).
Proof.
  intros [Hr Ht Hl Hsi Ho Hs Hsorted Hqueue Hrem] Hnd tcp made.
  apply NoDup_app in Hnd as (_ & Hdisj & Hnd).
  assert (Ha : accepts (accept_objects l) (sv_tcp sv) tcp).
  { apply handle_accept_accepts; [done|]. intros c Hc Hd. by eapply Hdisj; [apply Ho|]. }
  destruct Ha as [Htab Hgrow Hnew Hopen [Hb Hcb]].
  assert (Hmade : ∀ c, c ∈ made ↔ c ∈ dom (tw_objects tcp) ∧ c ∉ dom (tw_objects (sv_tcp sv))).
  { intros c. unfold made, made_connections. rewrite list_elem_of_filter, bool_decide_eq_true. split; [tauto|].
    intros [Hc Hn]. split; [done|]. by destruct (Hnew c Hc). }
  destruct (connections_reachable now made (sv_world sv) (open_connections (sv_tcp sv))) as (Hr' & Hs' & Hl').
  - done.
  - by apply NoDup_filter.
  - intros c [_ Hn]%Hmade. rewrite Hl. split; [done|]. intros Hc. by apply Hn, (service_inv_bound _ _ Hsi).
  - assert (Hset : open_connections tcp = list_to_set made ∪ open_connections (sv_tcp sv)).
    { apply set_eq. intros c. rewrite Hopen, elem_of_union, elem_of_list_to_set, Hmade. tauto. }
    split; cbn [sv_world sv_tcp sv_loop set_sv_world set_sv_tcp].
    + unfold service_state. cbn. by rewrite Hset.
    + by apply Htab.
    + rewrite Hl', Hl. apply set_eq. intros c. rewrite elem_of_union, elem_of_list_to_set, Hmade. specialize (Hgrow c).
      destruct (decide (c ∈ dom (tw_objects (sv_tcp sv)))); tauto.
    + rewrite Hs'. by eapply opened_weaken.
    + intros c [?|?]%Hnew; apply elem_of_app; auto.
    + by rewrite Hb, Hcb.
    + done.
    + intros f Hf. destruct (Hqueue f Hf) as [? Hd]. split; [done|]. by apply Hgrow.
    + intros Hlate c Hc. destruct (decide (c ∈ dom (tw_objects (sv_tcp sv)))) as [Hd|Hd].
      * destruct (Hrem Hlate c Hd) as [?|?]; [left; apply Hopen; by left|by right].
      * left. apply Hopen. by right.
Qed.

(** A change of what the service knows nothing of. *)
Lemma client_inv_other fs posted accepted sv sv' :
  client_inv fs posted accepted sv → sv_world sv' = sv_world sv →
  connections_ (tw_server (sv_tcp sv')) = connections_ (tw_server (sv_tcp sv)) →
  tw_objects (sv_tcp sv') = tw_objects (sv_tcp sv) →
  base_ptr_ (tw_server (sv_tcp sv')) = base_ptr_ (tw_server (sv_tcp sv)) →
  has_closed_callback_ (tw_server (sv_tcp sv')) = has_closed_callback_ (tw_server (sv_tcp sv)) →
  pending_functors_ (sv_loop sv') = pending_functors_ (sv_loop sv) →
  client_inv fs posted accepted sv'.
Proof.
  intros [Hr Ht Hl Hsi Ho Hs Hsorted Hqueue Hrem] Ew Ec Eo Eb Ecb Ep.
  split; unfold service_state, table_ok, open_connections in *; rewrite ?Ew, ?Ec, ?Eo, ?Eb, ?Ecb, ?Ep; done.
Qed.

Lemma run_callback_inv fs posted accepted a cb events sv :
  client_inv fs posted accepted sv → serving self sv → NoDup (accepted ++ accept_objects (ea_accepts a)) →
  client_inv fs posted (accepted ++ accept_objects (ea_accepts a)) (run_callback self a cb events sv).
Proof.
  intros Hi Hsv Hnd.
  assert (Hw : client_inv fs posted (accepted ++ accept_objects (ea_accepts a)) sv).
  { eapply client_inv_weaken; [exact Hi|]. intros c Hc. apply elem_of_app. by left. }
  pose proof (in_base_serving sv Hsv) as Hb. destruct cb; cbn [run_callback].
  - done.
  - exact (accept_inv fs posted accepted (ea_accepts a) (ea_now a) events (in_base self sv) sv Hi Hnd).
  - destruct (timer_handle_read _ _ _) as [k|]; [|done]. rewrite Hb.
    apply client_inv_world; [done|]. intros Hr Hinv. split; [by eapply ReachStep; [exact Hr|apply StepTick]|].
    by destruct (quiet_inv _ _ _ Hinv (handle_tick_outcome (sv_world sv) _ k Hinv)).
  - destruct (timer_handle_read _ _ _); [|done].
    destruct (check_timeouts_keeps (in_base self sv) CONNECTION_TIMEOUT (sv_tcp sv)) as [Es Eo].
    rewrite in_base_tcp, Hb in *.
    apply client_inv_world.
    + eapply client_inv_other; [exact Hw|done|cbn; by rewrite Es|cbn; by rewrite Eo|cbn; by rewrite Es..|done].
    + cbn. unfold service_state. cbn. unfold open_connections. rewrite Es.
      rewrite Eo. intros Hr Hinv. split; [by eapply ReachStep; [exact Hr|apply StepTimeouts]|].
      by destruct (handle_timeouts_outcome (ea_now a) (sv_world sv) _ Hinv) as [(? & _) ?].
  - destruct (timer_handle_read _ _ _); [|done]. destruct (persist_handle_timer _ _ _ _) as [ps store].
    by eapply client_inv_other.
  - eapply client_inv_other; [exact Hw|done..|]. cbn. rewrite signal_handle_read_spec. by destruct (_ && _).
Qed.

(** ** Functors *)

Lemma client_inv_next f fs posted accepted sv :
  client_inv (f :: fs) posted accepted sv → client_inv fs posted accepted sv.
Proof.
  intros [Hr Ht Hl Hsi Ho Hs Hsorted Hqueue Hrem].
  split; try done.
  - intros Hlate. by apply Hsorted, StronglySorted_inv in Hlate as [? _].
  - intros g Hg. apply Hqueue. by right.
  - intros Hlate c Hc. destruct (Hrem Hlate c Hc) as [?|[? Hn]]; [by left|right]. split; [done|].
    intros t p Hin. eapply Hn. by right.
Qed.

(** Taking a connection out of the table. *)
Lemma removed_world_tables fd loop c tcp :
  let tcp' := removed_world fd loop c tcp in
  connections_ (tw_server tcp') = delete fd (connections_ (tw_server tcp)) ∧ tw_objects tcp' = tw_objects tcp ∧
  has_closed_callback_ (tw_server tcp') = has_closed_callback_ (tw_server tcp) ∧
  base_ptr_ (tw_server tcp') = base_ptr_ (tw_server tcp) ∧
  tw_reported tcp' = tw_reported tcp ++ (if has_closed_callback_ (tw_server tcp) then [c] else []).
Proof. unfold removed_world. destruct (has_closed_callback_ (tw_server tcp)) eqn:E; cbn; by rewrite ?E, ?app_nil_r. Qed.

Lemma removed_world_open fd loop c tcp :
  table_ok tcp → connections_ (tw_server tcp) !! fd = Some c →
  open_connections (removed_world fd loop c tcp) = open_connections tcp ∖ {[c]}.
Proof.
  intros Ht Hfd. apply set_eq. intros c'. rewrite elem_of_difference, elem_of_singleton, !elem_of_open.
  destruct (removed_world_tables fd loop c tcp) as (-> & _). split.
  - intros [fd' [Hne Hl]%lookup_delete_Some]. split; [by exists fd'|]. intros ->.
    destruct (Ht _ _ Hl) as [l1 H1], (Ht _ _ Hfd) as [l2 H2]. congruence.
  - intros [[fd' Hl] Hne]. exists fd'. apply lookup_delete_Some. split; [|done]. congruence.
Qed.

Lemma run_functor_inv f fs posted accepted a sv :
  client_inv (f :: fs) posted accepted sv → serving self sv →
  client_inv fs posted accepted (run_functor self a f sv).
Proof.
  intros Hi Hsv. pose proof (client_inv_next _ _ _ _ _ Hi) as Hw. pose proof (in_base_serving sv Hsv) as Hb.
  destruct Hi as [Hr Ht Hl Hsi Ho [Hbase Hcb] Hsorted Hqueue Hrem].
  destruct (Hqueue f ltac:(by left)) as [Hposted Hf].
  destruct f as [c|c t p]; cbn [run_functor connection_of] in *; rewrite Hb.
  - destruct (remove_connection_outcome (Some c) (sv_tcp sv)) as [->|(c' & fd & loop & [= <-] & Hoc & Hcf & ->)].
    { rewrite bool_decide_true by done. cbn [negb]. by eapply client_inv_other. }
    destruct (removed_world_tables fd loop c (sv_tcp sv)) as (Ec & Eo & Ecb & Eb & Er).
    pose proof (removed_world_open fd loop c (sv_tcp sv) Ht Hcf) as Eopen.
    rewrite Er, Hcb, bool_decide_false by (intros E; by apply (f_equal length) in E; rewrite length_app in E; cbn in E; lia).
    cbn [negb]. set (tcp' := removed_world fd loop c (sv_tcp sv)) in *.
    rewrite in_base_tcp, Hb.
    assert (Hopen : c ∈ open_connections (sv_tcp sv)) by (apply elem_of_open; by exists fd).
    destruct (closed_inv (sv_world sv) _ c (ea_now a) Hsi) as [Hsi' Hl']; [by rewrite Hl|].
    destruct Hw as [_ _ _ _ _ _ Hsorted' Hqueue' Hrem'].
    split; cbn [sv_world sv_tcp sv_loop set_sv_world set_sv_tcp]; try done.
    + unfold service_state. cbn [sv_world sv_tcp set_sv_world set_sv_tcp]. rewrite Eopen.
      eapply ReachStep; [exact Hr|]. by apply StepClosed.
    + intros fd' c'. rewrite Ec, Eo. intros [_ Hl0]%lookup_delete_Some. by apply Ht.
    + by rewrite Eo, Hl'.
    + rewrite Eo. eapply opened_weaken; [exact Hsi'|]. set_solver.
    + by rewrite Eo.
    + by rewrite Ecb, Eb.
    + by rewrite Eo.
    + intros Hlate c'. rewrite Eo, Eopen, elem_of_difference, elem_of_singleton. intros Hc'.
      destruct (decide (c' = c)) as [->|Hne]; [right|destruct (Hrem' Hlate c' Hc'); [by left|by right]].
      split; [done|]. intros t p Hin. apply Hsorted, StronglySorted_inv in Hlate as [_ Hall].
      rewrite Forall_forall in Hall. by apply (Hall _ Hin).
  - apply client_inv_world; [done|]. intros _ _.
    assert (Hopen : late = false → c ∈ open_connections (sv_tcp sv)).
    { intros Hlate. destruct (Hrem Hlate c Hf) as [?|[_ Hn]]; [done|]. destruct (Hn t p). by left. }
    assert (Hlive : c ∈ w_live (sv_world sv)) by (by rewrite Hl).
    split; [by eapply ReachStep; [exact Hr|apply StepFrame]|].
    by destruct (frame_inv (ea_now a) (sv_world sv) (dom (tw_objects (sv_tcp sv))) c t p) as [? ?].
Qed.

(** ** The loop *)

Section running.
Context (answers : nat → EventAnswers) (peers : peers_ok late answers).

(** The loop as [main_loop] runs it; [w.2] calls have been made. *)
Abbreviation get := (λ w : Server * nat, sv_loop w.1).
Abbreviation on_base := (λ f (w : Server * nat), (set_sv_loop (f (sv_loop w.1)) w.1, w.2)).
Abbreviation invoke := (λ callback events (w : Server * nat),
  (run_callback self (answers w.2) callback events (others_act (answers w.2) w.1), S w.2)).
Abbreviation call := (λ f (w : Server * nat), (run_functor self (answers w.2) f (others_act (answers w.2) w.1), S w.2)).

Definition refines (fs : list Functor) (w : Server * nat) : Prop :=
  client_inv fs (posted_before answers w.2) (accepted_before answers w.2) w.1 ∧ serving self w.1.

(** A call begins with what the other threads have done. *)
Lemma others_refine fs sv n :
  refines fs (sv, n) →
  client_inv fs (posted_before answers (S n)) (accepted_before answers n) (others_act (answers n) sv) ∧
  serving self (others_act (answers n) sv).
Proof.
  intros [Hi Hs]. cbn [fst snd] in *. split.
  - rewrite posted_before_S. apply others_act_inv; [done|]. intros Hlate. rewrite <- posted_before_S.
    apply peers_order. by rewrite <- Hlate.
  - eapply same_parts_serving; [apply others_act_parts|done].
Qed.

Lemma invoke_refines fs cb events w : refines fs w → refines fs (invoke cb events w).
Proof.
  destruct w as [sv n]. intros Hw. pose proof Hw as [_ Hs]. apply others_refine in Hw as [Hi Hs']. split; cbn [fst snd].
  - rewrite accepted_before_S. apply run_callback_inv; [done..|]. rewrite <- accepted_before_S. apply peers.
  - eapply same_parts_serving; [apply invoke_parts|done].
Qed.

Lemma call_refines f fs w : refines (f :: fs) w → refines fs (call f w).
Proof.
  destruct w as [sv n]. intros Hw. pose proof Hw as [_ Hs]. apply others_refine in Hw as [Hi Hs']. split; cbn [fst snd].
  - rewrite accepted_before_S. eapply client_inv_weaken; [by apply run_functor_inv|].
    intros c Hc. apply elem_of_app. by left.
  - eapply same_parts_serving; [apply call_parts|done].
Qed.

Lemma dispatch_refines events w : refines [] w → refines [] (dispatch get invoke events w).
Proof.
  revert w. induction events as [|[fd ev] events IH]; intros w Hw; [done|]. cbn [dispatch].
  destruct (callbacks_ _ !! fd) as [cb|]; [|by apply IH].
  pose proof (invoke_refines [] cb ev w Hw) as Hw1. cbv zeta. destruct (quit_ _); [done|by apply IH].
Qed.

Lemma calls_refine fs w : refines fs w → refines [] (foldl (λ w f, call f w) w fs).
Proof.
  revert w. induction fs as [|f fs IH]; intros w Hw; [done|]. cbn [foldl]. apply IH. by apply call_refines.
Qed.

(** Changing the flags of the loop. *)
Lemma on_base_refines fs g w :
  (∀ l, pending_functors_ (g l) = pending_functors_ l ∧ owner_thread_id_ (g l) = owner_thread_id_ l ∧
     valid (g l) = valid l ∧ callbacks_ (g l) = callbacks_ l ∧ wakeup_fd_ (g l) = wakeup_fd_ l) →
  refines fs w → refines fs (on_base g w).
Proof.
  intros Hg [Hi Hs]. destruct (Hg (sv_loop w.1)) as (? & ? & ? & ? & ?). split.
  - by eapply client_inv_other.
  - eapply same_parts_serving; [|exact Hs]. by split.
Qed.

Lemma pending_refines w : refines [] w → refines [] (do_pending_functors get on_base call w).
Proof.
  intros [[Hr Ht Hl Hsi Ho Hsv Hsorted Hqueue Hrem] Hs]. unfold do_pending_functors. cbn [take_functors fst snd].
  apply calls_refine. split; cbn [fst snd].
  - split; cbn [sv_world sv_tcp sv_loop set_sv_loop set_pending_functors pending_functors_]; rewrite ?app_nil_r; done.
  - eapply same_parts_serving; [|exact Hs]. by split.
Qed.

Lemma iterate_refines waits w : refines [] w → refines [] (iterate get on_base invoke call waits w).2.
Proof.
  revert w. induction waits as [|r waits IH]; intros w Hw; cbn [iterate]; destruct (quit_ _);
    try (by apply on_base_refines); [done|].
  destruct r as [events| |]; [|by apply IH|by apply on_base_refines].
  by apply IH, pending_refines, dispatch_refines.
Qed.

Lemma main_loop_refines waits sv :
  refines [] (sv, 0%nat) → refines [] (main_loop self answers waits sv).2.
Proof.
  intros Hw. unfold main_loop, loop. repeat (case_match; [done|]). by apply iterate_refines, on_base_refines.
Qed.

(** A server that has been started, before its loop runs: no session is bound. *)
Lemma opened_unbound `{Files} d a sv : opened_from d a sv → bound (w_service (sv_world sv)) = ∅.
Proof.
  intros Ho. apply dom_empty_iff_L. unfold opened_from in Ho. destruct (visible d CHECKPOINT_PATH).
  - destruct Ho as (c & service & _ & Hres & -> & _). revert Hres. cbn [w_service]. unfold service_restore_checkpoint.
    destruct (_ =? 0); [done|]. destruct (negb (identities_match _ _)); [done|]. cbn [negb].
    destruct (manager_restore_checkpoint _ _) as [[] rooms]; [|done]. cbn [negb].
    unfold session_restore_checkpoint. destruct (restore_sessions _ _ _); [|done]. by intros [= <-].
  - destruct Ho as [Hadd _]. revert Hadd. unfold service_add_room. cbn [negb].
    destruct (add_room _ _ _) as [ok rooms]. by intros [= _ <-].
Qed.

Lemma no_clients_refine sv :
  reachable late (MkSystem (sv_world sv) ∅) → bound (w_service (sv_world sv)) = ∅ → no_clients sv → serving self sv →
  refines [] (sv, 0%nat).
Proof.
  intros Hr Hbound (Ho & Hc & Hb & Hcb & Hw & Hp) Hs. split; [|done].
  pose proof (sy_service _ _ (reachable_inv _ _ Hr)) as Hsi. cbn [sys_world] in Hsi. rewrite Hbound in Hsi.
  split; unfold service_state, open_connections, table_ok, w_live; cbn [fst snd app]; rewrite ?Ho, ?Hc, ?Hp, ?Hw, ?dom_empty_L; try done.
  - intros _. constructor.
  - intros f. by intros ?%elem_of_nil.
Qed.

End running.

(** C4: The running server implements the service. From a server that has been set up
    from a reachable service and started, whatever the base loop is then woken up
    for, in whatever order the timers fire, and whatever its I/O threads queue
    meanwhile, interleaved in any way, each connection as in any run of IoThread:
    the rooms, sessions and connection objects are always a state of the
    service's transition system, in which frames of a connection may still run
    after it has been reported closed, with the connections in the table of the
    TCP server as its open connections. If moreover ([late = false]) no answer to
    a heartbeat closes a connection in those runs, it is a state of the system
    without such late frames, and a session is only ever bound to a connection
    that the TCP server has. *)
Theorem main_loop_refines_service `{Files} a d sv0 flushed starts rollback sv answers waits :
  set_up self a d sv0 → reachable late (MkSystem (sv_world sv0) ∅) →
  start_all self flushed starts rollback sv0 = (true, sv) → peers_ok late answers →
  let '(_, (sv', _)) := main_loop self answers waits sv in
  reachable late (service_state sv') ∧
  (late = false → ∀ c token, bindings_ (w_sessions (sv_world sv')) !! c = Some token →
    ∃ fd, connections_ (tw_server (sv_tcp sv')) !! fd = Some c).
Proof.
  intros [Hw Hi Hopen _ (Ho & Hc & Hb & Hcb & Hconns & Hp)] Hr Hs Hpeers.
  destruct (start_all_serving _ _ _ _ _ _ Hs Hw Hi) as (Hsv & Eworld & (_ & _ & _ & Ep) & Eo & (Ec & Ecb & Eb)).
  destruct (main_loop_refines answers Hpeers waits sv) as [[Hreach _ _ _ _ _ _ _ _] _].
  - apply no_clients_refine; [by rewrite Eworld|rewrite Eworld; by eapply opened_unbound|unfold no_clients; rewrite Eo, Ec, Ecb, Eb, Eworld, Ep; done|done].
  - destruct (main_loop self answers waits sv) as [result [sv' n]]. split; [exact Hreach|].
    intros Hlate c token Hbound. apply elem_of_open. destruct (reachable_inv _ _ Hreach) as [_ Hbound' _].
    apply (Hbound' Hlate). apply elem_of_dom. by eexists.
Qed.

End refinement.

(** ** A concrete run: a client connects and joins, and closes again *)

Section demo.
#[local] Instance loop_hash : HashOrder := canonical_order.

(** In the first call the client is accepted; before the second its frame is
    queued; before the fourth that it has been closed. *)
Definition play_answers (n : nat) : EventAnswers :=
  MkEventAnswers [Expired 1] [] (match n with 0%nat => [Accepted 20 true true 500; AcceptAgain] | _ => [] end) 50
    (match n with 1%nat => [HandleFrame 500 1 (demo_join [x41])] | 3%nat => [RemoveConnection 500] | _ => [] end) [].
Definition joining : list wait_result := [WaitEvents [(9, EPOLLIN)]; WaitEvents [(7, EPOLLIN)]].
Definition leaving : list wait_result := joining ++ [WaitEvents [(7, EPOLLIN)]].

(** In another run a heartbeat and the join arrive together, and the client is
    gone before the heartbeat can be answered. *)
Definition hasty_reads : list read_result :=
  [ReadData x00 (drop 1 (frame_bytes (6, replicate 8 x00) ++ frame_bytes join_frame)); ReadAgain].
Definition hasty_peer : Peer := Peer_new 0 hasty_reads [WriteError] [].
Definition hasty_steps : list PeerStep := [OtherConnect; RunTask 0; RunEvent 1 EPOLLIN].
Definition hasty_answers (n : nat) : EventAnswers :=
  MkEventAnswers [Expired 1] [] (match n with 0%nat => [Accepted 20 true true 500; AcceptAgain] | _ => [] end) 50
    (match n with 1%nat => [RemoveConnection 500; HandleFrame 500 1 (demo_join [x41])] | _ => [] end) [].

Definition play (answers : nat → EventAnswers) (waits : list wait_result) : option Server :=
  (λ sv, (main_loop 1 answers waits (main_started sv).2).2.1) <$> main_server.
Definition bound_clients (sv : Server) : list (Conn * Z) :=
  omap (λ x, if bool_decide (is_Some (bindings_ (w_sessions (sv_world sv)) !! x.2)) then Some (x.2, x.1) else None)
    (map_to_list (connections_ (tw_server (sv_tcp sv)))).

(** Answers whose functors are, after any number of calls, what the connection 500
    has queued in a run of its loop. *)
Lemma one_peer late answers steps reads writes :
  (∀ n, ∃ k, posted_before answers n = functor_of 500 <$> pr_posted (run_peer (take k steps) (Peer_new 0 reads writes [])) ∧
     (late = false → answers_sent (take k steps) (Peer_new 0 reads writes []) = true)) →
  (∀ n, accepted_before answers (S n) = [500]) → peers_ok late answers.
Proof.
  intros Hq Ha. split.
  - intros n c. destruct (Hq n) as (k & -> & Hk). destruct (decide (c = 500)) as [->|Hne].
    + exists (take k steps), 0, reads, writes, []. split; [done|].
      generalize (pr_posted (run_peer (take k steps) (Peer_new 0 reads writes []))).
      induction l as [|[] l IH]; [done|..]; cbn [fmap list_fmap functor_of]; by rewrite filter_cons_True, IH.
    + exists [], 0, [], [], []. split; [done|].
      generalize (pr_posted (run_peer (take k steps) (Peer_new 0 reads writes []))).
      induction l as [|[] l IH]; [done|..]; cbn [fmap list_fmap functor_of]; by rewrite filter_cons_False, IH by (cbn; congruence).
  - intros [|n]; [constructor|]. rewrite Ha. apply NoDup_singleton.
Qed.

Lemma play_peers : peers_ok false play_answers.
Proof.
  assert (Hp : ∀ n, posted_before play_answers (4 + n) = [HandleFrame 500 1 (demo_join [x41]); RemoveConnection 500]).
  { induction n as [|n IH]; [done|]. rewrite Nat.add_succ_r, posted_before_S, IH. done. }
  apply (one_peer false play_answers joining_steps joining_reads []).
  - intros [|[|[|[|n]]]]; [exists 0%nat|exists 0%nat|exists 4%nat|exists 4%nat|exists 7%nat]; [by vm_compute..|].
    change (S (S (S (S n)))) with (4 + n)%nat. rewrite Hp. by vm_compute.
  - induction n as [|n IH]; [done|]. rewrite accepted_before_S, IH. done.
Qed.

Lemma hasty_peers : peers_ok true hasty_answers.
Proof.
  assert (Hp : ∀ n, posted_before hasty_answers (2 + n) = [RemoveConnection 500; HandleFrame 500 1 (demo_join [x41])]).
  { induction n as [|n IH]; [done|]. rewrite Nat.add_succ_r, posted_before_S, IH. done. }
  apply (one_peer true hasty_answers hasty_steps hasty_reads [WriteError]).
  - intros [|[|n]]; [exists 0%nat|exists 0%nat|exists 3%nat]; [by split; [vm_compute|]..|].
    change (S (S n)) with (2 + n)%nat. rewrite Hp. by split; [vm_compute|].
  - induction n as [|n IH]; [done|]. rewrite accepted_before_S, IH. done.
Qed.

Example play_outcome :
  bound_clients <$> play play_answers joining = Some [(500, 20)] ∧ bound_clients <$> play play_answers leaving = Some [] ∧
  (λ sv, (size (sessions_ (w_sessions (sv_world sv))), (w_posted (sv_world sv)).*1)) <$> play play_answers leaving = Some (1%nat, [500]).
Proof. vm_compute. done. Qed.

(** The late join leaves a session bound to a connection that is in no table. *)
Example hasty_outcome :
  bound_clients <$> play hasty_answers joining = Some [] ∧
  (λ sv, bool_decide (is_Some (bindings_ (w_sessions (sv_world sv)) !! 500))) <$> play hasty_answers joining = Some true.
Proof. vm_compute. done. Qed.

(** What the concrete server needs, for either kind of run. *)
Lemma main_server_ready :
  ∃ sv0, main_server = Some sv0 ∧ set_up 1 main_answers main_disk sv0 ∧
    (∀ late, reachable late (MkSystem (sv_world sv0) ∅)) ∧
    start_all 1 (λ store, store) start_granted stop_granted sv0 = (true, (main_started sv0).2).
Proof.
  destruct (main_setup_outcome 1 1 main_answers main_disk) as (r & d' & Hret & Hsv).
  destruct (returns_functional _ _ _ _ _ _ Hret main_runs_returns) as [-> _].
  pose proof main_starts as Hok. destruct main_server as [sv0|]; [|done]. injection Hok as Hok _.
  specialize (Hsv sv0 eq_refl). exists sv0. split_and!; [done..| |].
  - intros late. destruct Hsv as [_ _ Ho _ _]. unfold opened_from in Ho.
    replace (visible main_disk CHECKPOINT_PATH) with (@None bytes) in Ho by (by vm_compute).
    destruct Ho as [Hadd _]. by eapply default_room_reachable.
  - unfold main_started in *. by rewrite <- Hok, <- surjective_pairing.
Qed.

Lemma main_loop_refines_service_witness :
  ∃ sv0, main_server = Some sv0 ∧
    reachable false (service_state (main_loop 1 play_answers joining (main_started sv0).2).2.1) ∧
    reachable true (service_state (main_loop 1 hasty_answers joining (main_started sv0).2).2.1).
Proof.
  destruct main_server_ready as (sv0 & Hsv0 & Hset & Hr & Hs). exists sv0. split; [done|].
  pose proof (main_loop_refines_service false 1 main_answers main_disk sv0 _ _ _ _ play_answers joining
    Hset (Hr false) Hs play_peers) as H1.
  pose proof (main_loop_refines_service true 1 main_answers main_disk sv0 _ _ _ _ hasty_answers joining
    Hset (Hr true) Hs hasty_peers) as H2.
  destruct (main_loop _ play_answers _ _) as [r1 [sv1 n1]], (main_loop _ hasty_answers _ _) as [r2 [sv2 n2]].
  by split; [apply H1|apply H2].
Defined.
End demo.
