(* ===== verification/Http.v ===== *)
(** [src/src/http.cpp]: parsing HTTP requests and building responses. A
    [std::string] is a list of bytes; the stream operations [getline] and [>>]
    are written out. *)

From S2P Require Import Prelude Bytes.
From Stdlib Require Import String DecimalN DecimalPos Decimal.
From stdpp Require Import list.

Open Scope Z_scope.

(** * Definitions *)

Definition CR : byte := x0d.
Definition LF : byte := x0a.
Definition SP : byte := x20.
Definition COLON : byte := x3a.
Definition CRLF : bytes := [CR; LF].
Definition HEADER_END : bytes := CRLF ++ CRLF.

(** [isspace] and [tolower] of the C locale. *)
Definition isspace (c : byte) : bool :=
  let n := byte_to_Z c in (n =? 32) || ((9 <=? n) && (n <=? 13)).
Definition tolower (c : byte) : byte :=
  let n := byte_to_Z c in if (65 <=? n) && (n <=? 90) then byte_of_Z (n + 32) else c.

Fixpoint drop_spaces (s : bytes) : bytes :=
  match s with
  | [] => []
  | c :: s' => if isspace c then drop_spaces s' else s
  end.
Definition trim (s : bytes) : bytes := reverse (drop_spaces (reverse (drop_spaces s))).

(** [std::string::find]: the first position at which [pattern] occurs. *)
Fixpoint starts_with (pattern s : bytes) : bool :=
  match pattern, s with
  | [], _ => true
  | p :: pattern, c :: s => bool_decide (p = c) && starts_with pattern s
  | _ :: _, [] => false
  end.
Fixpoint find_from (pattern s : bytes) (i : nat) : option nat :=
  if starts_with pattern s then Some i
  else match s with
  | [] => None
  | _ :: s => find_from pattern s (S i)
  end.
Definition find (pattern s : bytes) : option nat := find_from pattern s 0.

(** The lines [getline] returns until it fails: a last line without a newline
    counts unless it is empty. *)
Fixpoint lines_from (line s : bytes) : list bytes :=
  match s with
  | [] => if bool_decide (line = []) then [] else [line]
  | c :: s => if bool_decide (c = LF) then line :: lines_from [] s else lines_from (line ++ [c]) s
  end.
Definition lines (s : bytes) : list bytes := lines_from [] s.

Definition strip_cr (line : bytes) : bytes :=
  match last line with
  | Some c => if bool_decide (c = CR) then take (length line - 1) line else line
  | None => line
  end.

(** One [>>] into a string: the word, empty when nothing is left, and the rest. *)
Fixpoint take_word (s : bytes) : bytes * bytes :=
  match s with
  | [] => ([], [])
  | c :: s' => if isspace c then ([], s) else let '(w, rest) := take_word s' in (c :: w, rest)
  end.
Definition next_word (s : bytes) : bytes * bytes := take_word (drop_spaces s).

Record HttpRequest : Type := MkHttpRequest {
  method : bytes;
  path : bytes;
  version : bytes;
  headers : gmap bytes bytes;
  body : bytes;
  keep_alive : bool
}.
Definition HttpRequest_new : HttpRequest := MkHttpRequest [] [] [] ∅ [] false.

Definition http_header_complete (request_text : bytes) : bool :=
  bool_decide (is_Some (find HEADER_END request_text)).

(** The loop over the header lines. *)
Definition add_header (headers : gmap bytes bytes) (line : bytes) : gmap bytes bytes :=
  let line := strip_cr line in
  match find [COLON] line with
  | None => headers
  | Some pos => <[trim (take pos line) := trim (drop (pos + 1) line)]> headers
  end.

(** ["Connection"], ["keep-alive"], ["HTTP/1.1"] *)
Definition CONNECTION : bytes := [x43; x6f; x6e; x6e; x65; x63; x74; x69; x6f; x6e].
Definition KEEP_ALIVE : bytes := [x6b; x65; x65; x70; x2d; x61; x6c; x69; x76; x65].
Definition HTTP_1_1 : bytes := [x48; x54; x54; x50; x2f; x31; x2e; x31].

Definition wants_keep_alive (version : bytes) (headers : gmap bytes bytes) : bool :=
  match headers !! CONNECTION with
  | Some connection => bool_decide (tolower <$> connection = KEEP_ALIVE)
  | None => bool_decide (version = HTTP_1_1)
  end.

(** On failure the request keeps what has been parsed. *)
Definition parse_http_request (request_text : bytes) : bool * HttpRequest :=
  match find HEADER_END request_text with
  | None => (false, HttpRequest_new)
  | Some header_end =>
      let header_text := take header_end request_text in
      let body := drop (header_end + 4) request_text in
      match lines header_text with
      | [] => (false, MkHttpRequest [] [] [] ∅ body false)
      | line :: rest =>
          let '(method, s) := next_word (strip_cr line) in
          let '(path, s) := next_word s in
          let '(version, _) := next_word s in
          if bool_decide (method = []) || bool_decide (path = []) || bool_decide (version = [])
          then (false, MkHttpRequest method path version ∅ body false)
          else
            let headers := foldl add_header ∅ rest in
            (true, MkHttpRequest method path version headers body (wants_keep_alive version headers))
      end
  end.

(** ** Responses *)

(** [std::to_string] of an integer. *)
Fixpoint digits (d : Decimal.uint) : bytes :=
  match d with
  | Decimal.Nil => []
  | Decimal.D0 d => x30 :: digits d
  | Decimal.D1 d => x31 :: digits d
  | Decimal.D2 d => x32 :: digits d
  | Decimal.D3 d => x33 :: digits d
  | Decimal.D4 d => x34 :: digits d
  | Decimal.D5 d => x35 :: digits d
  | Decimal.D6 d => x36 :: digits d
  | Decimal.D7 d => x37 :: digits d
  | Decimal.D8 d => x38 :: digits d
  | Decimal.D9 d => x39 :: digits d
  end.
Definition to_string (n : Z) : bytes :=
  (if n <? 0 then [x2d] else []) ++ digits (N.to_uint (Z.abs_N n)).

(** Text written in the source. *)
Definition text (s : String.string) : bytes := String.list_byte_of_string s.
Arguments text s%_string_scope.

Definition reason_phrase (status_code : Z) : bytes :=
  if status_code =? 200 then text "OK"
  else if status_code =? 400 then text "Bad Request"
  else if status_code =? 404 then text "Not Found"
  else if status_code =? 405 then text "Method Not Allowed"
  else if status_code =? 431 then text "Request Header Fields Too Large"
  else if status_code =? 500 then text "Internal Server Error"
  else text "Unknown".

Definition build_http_response (status_code : Z) (body content_type : bytes) (keep_alive : bool) : bytes :=
  let response := text "HTTP/1.1 " in
  let response := response ++ to_string status_code in
  let response := response ++ text " " in
  let response := response ++ reason_phrase status_code in
  let response := response ++ CRLF in
  let response := response ++ text "Content-Type: " in
  let response := response ++ content_type in
  let response := response ++ CRLF in
  let response := response ++ text "Content-Length: " in
  let response := response ++ to_string (zlen body) in
  let response := response ++ CRLF in
  let response := response ++
    (if keep_alive then text "Connection: keep-alive" ++ CRLF else text "Connection: close" ++ CRLF) in
  let response := response ++ CRLF in
  response ++ body.

(** ** Specifications

    Lines as the protocol writes them: each followed by CRLF, the head closed by
    an empty line; and the head without its last CRLF, which is what the
    parser is given. *)
Definition encode_lines (ls : list bytes) : bytes := concat ((λ l, l ++ CRLF) <$> ls).
Definition message (ls : list bytes) (body : bytes) : bytes := encode_lines ls ++ CRLF ++ body.
Fixpoint join_lines (l : bytes) (ls : list bytes) : bytes :=
  match ls with
  | [] => l
  | l' :: ls => l ++ CRLF ++ join_lines l' ls
  end.

(** Text that is one line; text that is one word of a line. *)
Definition plain (l : bytes) : Prop := l ≠ [] ∧ CR ∉ l ∧ LF ∉ l.
Definition word (w : bytes) : Prop := w ≠ [] ∧ Forall (λ c, isspace c = false) w.
Definition header_ok (h : bytes * bytes) : Prop :=
  trim h.1 = h.1 ∧ trim h.2 = h.2 ∧ COLON ∉ h.1 ∧ CR ∉ h.1 ++ h.2 ∧ LF ∉ h.1 ++ h.2.

#[global] Instance plain_dec l : Decision (plain l).
Proof. unfold plain. apply _. Defined.
#[global] Instance word_dec w : Decision (word w).
Proof. unfold word. apply _. Defined.
#[global] Instance header_ok_dec h : Decision (header_ok h).
Proof. unfold header_ok. apply _. Defined.

(** A request as a client writes it. *)
Definition header_line (h : bytes * bytes) : bytes := h.1 ++ [COLON; SP] ++ h.2.
Definition print_request (method path version : bytes) (hs : list (bytes * bytes)) (body : bytes) : bytes :=
  message ((method ++ [SP] ++ path ++ [SP] ++ version) :: (header_line <$> hs)) body.

(** The table of the headers of a request: the last line with a name counts. *)
Definition header_table (hs : list (bytes * bytes)) : gmap bytes bytes :=
  foldl (λ t h, <[h.1 := h.2]> t) ∅ hs.

(** The number a decimal text denotes. *)
Definition push_digit (acc : Z) (c : byte) : Z := acc * 10 + (byte_to_Z c - 48).
Definition decimal (s : bytes) : Z := fold_left push_digit s 0.

(** The lines of the head of a response. *)
Definition response_head (status_code : Z) (length_of_body : Z) (content_type : bytes)
    (keep_alive : bool) : list bytes :=
  [text "HTTP/1.1 " ++ to_string status_code ++ text " " ++ reason_phrase status_code;
   text "Content-Type: " ++ content_type;
   text "Content-Length: " ++ to_string length_of_body;
   if keep_alive then text "Connection: keep-alive" else text "Connection: close"].

(** * Lemmas *)

(** ** The end of the head *)

Lemma find_from_shift pattern s i : find_from pattern s i = (Nat.add i) <$> find pattern s.
Proof.
  unfold find. revert i. induction s as [|c s IH]; intros i; cbn.
  - destruct starts_with; cbn; [|done]. f_equal. lia.
  - destruct starts_with; cbn; [f_equal; lia|].
    rewrite (IH (S i)), (IH 1%nat). destruct (find_from pattern s 0); cbn; [|done]. f_equal. lia.
Qed.

Lemma find_skip p pattern l s :
  p ∉ l → find (p :: pattern) (l ++ s) = (Nat.add (length l)) <$> find (p :: pattern) s.
Proof.
  induction l as [|c l IH]; intros Hp.
  - cbn [app length]. by destruct (find (p :: pattern) s).
  - apply not_elem_of_cons in Hp as [Hc Hl]. unfold find. cbn [app find_from starts_with].
    rewrite bool_decide_false by done. cbn [andb].
    rewrite find_from_shift, IH by done. fold (find (p :: pattern) s).
    by destruct (find (p :: pattern) s).
Qed.

Lemma find_header_end body : find HEADER_END (HEADER_END ++ body) = Some 0%nat.
Proof. reflexivity. Qed.

Lemma find_crlf l s :
  plain l → find HEADER_END (CRLF ++ l ++ s) = (Nat.add 2) <$> find HEADER_END (l ++ s).
Proof.
  intros (Hl & Hcr & _). destruct l as [|c l]; [done|].
  apply not_elem_of_cons in Hcr as [Hc _]. unfold find.
  change (CRLF ++ (c :: l) ++ s) with (CR :: LF :: c :: l ++ s).
  change ((c :: l) ++ s) with (c :: l ++ s).
  cbn [find_from starts_with HEADER_END CRLF app].
  rewrite (bool_decide_false (CR = c)) by done.
  rewrite (bool_decide_true (CR = CR)), (bool_decide_true (LF = LF)) by done.
  rewrite (bool_decide_false (CR = LF)) by done. cbn [andb].
  rewrite !find_from_shift. by destruct (find _ (l ++ s)).
Qed.

Lemma find_joined l ls body :
  Forall plain (l :: ls) →
  find HEADER_END (join_lines l ls ++ HEADER_END ++ body) = Some (length (join_lines l ls)).
Proof.
  revert l. induction ls as [|l' ls IH]; intros l Hls; cbn [join_lines].
  - apply Forall_cons in Hls as [(_ & Hcr & _) _].
    unfold HEADER_END at 1. cbn [CRLF app]. rewrite find_skip by done.
    change (CR :: [LF; CR; LF]) with HEADER_END. rewrite find_header_end. cbn. f_equal. lia.
  - apply Forall_cons in Hls as [(_ & Hcr & _) Hls].
    rewrite <- !(assoc_L (++)). unfold HEADER_END at 1. cbn [CRLF app]. rewrite find_skip by done.
    change (CR :: [LF; CR; LF]) with HEADER_END. change (CR :: LF :: ?x) with (CRLF ++ x).
    assert (∃ t, join_lines l' ls = l' ++ t) as [t Ht].
    { destruct ls; cbn; [exists []; by rewrite app_nil_r | by eexists]. }
    pose proof (IH l' Hls) as Hfind. rewrite Ht, <- (assoc_L (++)) in Hfind |- *.
    rewrite find_crlf by (by apply Forall_cons in Hls as [? _]).
    rewrite Hfind. cbn. f_equal. rewrite !length_app. cbn. rewrite !length_app. lia.
Qed.

Lemma message_joined l ls body : message (l :: ls) body = join_lines l ls ++ HEADER_END ++ body.
Proof.
  unfold message, encode_lines, HEADER_END. rewrite <- (assoc_L (++) CRLF).
  revert l. induction ls as [|l' ls IH]; intros l; cbn [fmap list_fmap concat join_lines].
  - by rewrite app_nil_r, <- !(assoc_L (++)).
  - specialize (IH l'). cbn [fmap list_fmap concat] in IH. by rewrite <- !(assoc_L (++)), <- IH, <- !(assoc_L (++)).
Qed.

(** ** The lines of the head *)

Lemma lines_from_line acc l s : LF ∉ l → lines_from acc (l ++ LF :: s) = (acc ++ l) :: lines s.
Proof.
  revert acc. induction l as [|c l IH]; intros acc Hl; cbn.
  - by rewrite app_nil_r.
  - apply not_elem_of_cons in Hl as [Hc Hl]. rewrite bool_decide_false by done.
    by rewrite IH, <- (assoc_L (++)).
Qed.

Lemma lines_from_last acc l : LF ∉ l → acc ++ l ≠ [] → lines_from acc l = [acc ++ l].
Proof.
  revert acc. induction l as [|c l IH]; intros acc Hl Hne; cbn.
  - rewrite app_nil_r in *. by rewrite bool_decide_false.
  - apply not_elem_of_cons in Hl as [Hc Hl]. rewrite bool_decide_false by done.
    rewrite IH; rewrite <- ?(assoc_L (++)); done.
Qed.

Lemma strip_cr_crlf l : strip_cr (l ++ [CR]) = l.
Proof.
  unfold strip_cr. rewrite last_snoc, bool_decide_true by done.
  rewrite length_app. cbn [length]. rewrite Nat.add_sub. by rewrite take_app_length.
Qed.

Lemma strip_cr_plain l : CR ∉ l → strip_cr l = l.
Proof.
  intros Hl. unfold strip_cr. destruct (last l) as [c|] eqn:E; [|done].
  rewrite bool_decide_false; [done|]. intros ->. apply last_Some_elem_of in E. done.
Qed.

Lemma lines_joined l ls : Forall plain (l :: ls) → strip_cr <$> lines (join_lines l ls) = l :: ls.
Proof.
  revert l. induction ls as [|l' ls IH]; intros l Hls; apply Forall_cons in Hls as [(Hne & Hcr & Hlf) Hls].
  - cbn [join_lines]. unfold lines. rewrite lines_from_last by done. cbn. by rewrite strip_cr_plain.
  - cbn [join_lines]. unfold lines, CRLF. cbn [app].
    rewrite (cons_middle CR), (assoc_L (++)), lines_from_line.
    + cbn [fmap list_fmap app]. by rewrite strip_cr_crlf, IH.
    + rewrite elem_of_app, list_elem_of_singleton. naive_solver.
Qed.

(** What the parser finds in a message: the end of its head and its lines. *)
Lemma message_head l ls body :
  Forall plain (l :: ls) →
  ∃ n, find HEADER_END (message (l :: ls) body) = Some n
     ∧ strip_cr <$> lines (take n (message (l :: ls) body)) = l :: ls
     ∧ drop (n + 4) (message (l :: ls) body) = body.
Proof.
  intros Hls. exists (length (join_lines l ls)). rewrite message_joined.
  rewrite find_joined by done. rewrite take_app_length, lines_joined by done.
  repeat split_and; [done..|]. rewrite drop_app_add. reflexivity.
Qed.

(** ** Words *)

Lemma take_word_app w c s :
  Forall (λ c, isspace c = false) w → isspace c = true → take_word (w ++ c :: s) = (w, c :: s).
Proof.
  intros Hw Hc. induction Hw as [|a w Ha Hw IH]; cbn [app take_word]; [by rewrite Hc|].
  by rewrite Ha, IH.
Qed.

Lemma take_word_all w : Forall (λ c, isspace c = false) w → take_word w = (w, []).
Proof. induction 1 as [|a w Ha Hw IH]; cbn; [done|]. by rewrite Ha, IH. Qed.

Lemma drop_spaces_word w s : word w → drop_spaces (w ++ s) = w ++ s.
Proof. intros [Hne Hw]. destruct Hw as [|c w Hc Hw]; cbn; [done|]. by rewrite Hc. Qed.

Lemma next_word_app w s : word w → next_word (w ++ SP :: s) = (w, SP :: s).
Proof.
  intros Hw. unfold next_word. rewrite drop_spaces_word by done. by apply take_word_app; [apply Hw|].
Qed.

Lemma next_word_space s : next_word (SP :: s) = next_word s.
Proof. done. Qed.

Lemma next_word_all w : word w → next_word w = (w, []).
Proof.
  intros Hw. unfold next_word. rewrite <- (app_nil_r w) at 1. rewrite drop_spaces_word by done.
  rewrite app_nil_r. apply take_word_all, Hw.
Qed.

Lemma word_not_in w c : word w → isspace c = true → c ∉ w.
Proof. intros [_ Hw] Hc Hin. rewrite Forall_forall in Hw. apply Hw in Hin. congruence. Qed.

Lemma request_line_plain m p v :
  word m → word p → word v → plain (m ++ [SP] ++ p ++ [SP] ++ v).
Proof.
  intros Hm Hp Hv. split_and!; [by destruct m as [|a m]; [destruct Hm|]| |];
    rewrite !elem_of_app, !list_elem_of_singleton; intros [?|[?|[?|[?|?]]]];
    solve [done | by eapply word_not_in; [| |eassumption]].
Qed.

(** ** Headers *)

Lemma header_line_plain h : header_ok h → plain (header_line h).
Proof.
  intros (_ & _ & _ & Hcr & Hlf). unfold header_line. rewrite elem_of_app in Hcr, Hlf.
  split_and!; [by destruct h.1| |]; rewrite !elem_of_app, !elem_of_cons, elem_of_nil;
    intros [?|[[?|[?|?]]|?]]; solve [done | naive_solver].
Qed.

Lemma find_colon k v : COLON ∉ k → find [COLON] (k ++ COLON :: v) = Some (length k).
Proof.
  intros Hk. rewrite find_skip by done. unfold find. cbn [find_from starts_with].
  rewrite bool_decide_true by done. destruct v; cbn; f_equal; lia.
Qed.

Lemma trim_space s : trim (SP :: s) = trim s.
Proof. done. Qed.

Lemma add_header_line t h : header_ok h → add_header t (header_line h) = <[h.1 := h.2]> t.
Proof.
  intros Hh. pose proof (header_line_plain h Hh) as (_ & Hcr & _).
  destruct Hh as (Hk & Hv & Hcolon & _). unfold add_header. rewrite strip_cr_plain by done.
  unfold header_line. cbn [app]. rewrite find_colon by done.
  rewrite take_app_length, drop_app_add. cbn [drop]. by rewrite trim_space, Hk, Hv.
Qed.

(** [add_header] only reads its line up to a carriage return at the end. *)
Lemma strip_cr_idem_header t line l :
  strip_cr line = l → CR ∉ l → add_header t line = add_header t l.
Proof. intros <- Hl. unfold add_header. by rewrite (strip_cr_plain (strip_cr line)). Qed.

Lemma add_headers rest hs t :
  Forall header_ok hs → strip_cr <$> rest = header_line <$> hs →
  foldl add_header t rest = foldl (λ t h, <[h.1 := h.2]> t) t hs.
Proof.
  intros Hhs. revert rest t. induction Hhs as [|h hs Hh Hhs IH]; intros [|line rest] t Heq; try done.
  cbn in Heq. injection Heq as Hl Hrest. cbn.
  rewrite (strip_cr_idem_header _ _ _ Hl) by apply (header_line_plain h Hh).
  rewrite add_header_line by done. by apply IH.
Qed.

(** ** Numbers *)

Lemma digits_acc d acc : fold_left push_digit (digits d) (Zpos acc) = Zpos (Pos.of_uint_acc d acc).
Proof.
  revert acc. induction d as [|d IH|d IH|d IH|d IH|d IH|d IH|d IH|d IH|d IH|d IH]; intros acc;
    [done|..]; cbn [digits fold_left Pos.of_uint_acc]; rewrite <- IH; f_equal;
    unfold push_digit; lazymatch goal with |- context [byte_to_Z ?c] =>
      let z := eval vm_compute in (byte_to_Z c) in change (byte_to_Z c) with z end; lia.
Qed.

Lemma digits_value d : decimal (digits d) = Z.of_N (N.of_uint d).
Proof.
  unfold decimal. induction d as [|d IH|d IH|d IH|d IH|d IH|d IH|d IH|d IH|d IH|d IH]; [done|..];
    cbn [digits fold_left]; [exact IH|..]; apply (digits_acc d).
Qed.

Lemma decimal_to_string n : 0 <= n → decimal (to_string n) = n.
Proof.
  intros Hn. unfold to_string. rewrite (proj2 (Z.ltb_ge n 0)) by lia. cbn [app].
  rewrite digits_value, DecimalN.Unsigned.of_to. lia.
Qed.

Lemma digits_plain d c : c ∈ digits d → 48 <= byte_to_Z c.
Proof.
  induction d; cbn [digits]; rewrite ?elem_of_nil, ?elem_of_cons;
    [done|..]; intros [->|?]; auto; vm_compute; done.
Qed.

Lemma to_string_not_in n c : byte_to_Z c < 45 → c ∉ to_string n.
Proof.
  intros Hc. unfold to_string. rewrite elem_of_app. intros [Hin|Hin%digits_plain]; [|lia].
  destruct (n <? 0); [|by apply elem_of_nil in Hin]. apply list_elem_of_singleton in Hin as ->. done.
Qed.

Lemma to_string_plain n : CR ∉ to_string n ∧ LF ∉ to_string n.
Proof. by split; apply to_string_not_in. Qed.

Lemma reason_phrase_plain c : CR ∉ reason_phrase c ∧ LF ∉ reason_phrase c.
Proof. unfold reason_phrase. repeat case_match; by apply (bool_decide_unpack _). Qed.

(** ** Responses *)

Lemma response_message c body ct ka :
  build_http_response c body ct ka = message (response_head c (zlen body) ct ka) body.
Proof.
  unfold build_http_response, message, encode_lines, response_head.
  cbn [fmap list_fmap concat]. destruct ka; by rewrite ?app_nil_r, <- !(assoc_L (++)).
Qed.

Lemma plain_text_app (t : String.string) l :
  plain (text t) → CR ∉ l → LF ∉ l → plain (text t ++ l).
Proof.
  intros (Hne & Hcr & Hlf) ??. split_and!; [by destruct (text t)|..]; rewrite elem_of_app; naive_solver.
Qed.

Lemma response_head_plain c n ct ka :
  CR ∉ ct → LF ∉ ct → Forall plain (response_head c n ct ka).
Proof.
  intros ??. destruct (to_string_plain c), (to_string_plain n), (reason_phrase_plain c).
  assert (CR ∉ text " " ∧ LF ∉ text " ") as [] by (by apply (bool_decide_unpack _)).
  unfold response_head. rewrite !Forall_cons, Forall_nil. split_and!; [| | | |done];
    lazymatch goal with |- context [text "Connection: close"] => by destruct ka; apply (bool_decide_unpack _) | |- _ => idtac end;
    apply plain_text_app; try (by apply (bool_decide_unpack _)); rewrite ?elem_of_app; naive_solver.
Qed.

(** * Properties *)

(** C38: A well-formed request survives parsing: the method, path and version of its
    first line, the table of its headers (the last line with a name counts,
    blanks around the value are dropped), the body after the empty line, and the
    keep-alive rule applied to them. *)
Theorem printed_request_parses m p v hs b :
  word m → word p → word v → Forall header_ok hs →
  parse_http_request (print_request m p v hs b)
  = (true, MkHttpRequest m p v (header_table hs) b (wants_keep_alive v (header_table hs))).
Proof.
  intros Hm Hp Hv Hhs. unfold print_request, parse_http_request.
  edestruct (message_head (m ++ [SP] ++ p ++ [SP] ++ v) (header_line <$> hs) b) as (n & Hn & Hlines & Hb).
  { constructor; [by apply request_line_plain|].
    apply Forall_fmap, (Forall_impl _ _ _ Hhs). intros h Hh. by apply header_line_plain. }
  rewrite Hn, Hb. destruct (lines _) as [|line rest]; [done|].
  cbn in Hlines. injection Hlines as Hline Hrest. rewrite Hline. cbn [app].
  rewrite next_word_app, next_word_space, next_word_app, next_word_space, next_word_all by done.
  rewrite !bool_decide_false by (by intros ->; destruct Hm, Hp, Hv). cbn [orb].
  by rewrite (add_headers rest hs).
Qed.

(** A response is framed so that its reader finds the body: the first empty line
    ends the head, whose lines are the status line, the content type, the length
    and the connection rule; the length line is the decimal size of exactly the
    bytes that follow. *)
Theorem response_framed c body ct ka :
  CR ∉ ct → LF ∉ ct →
  ∃ n, find HEADER_END (build_http_response c body ct ka) = Some n
     ∧ strip_cr <$> lines (take n (build_http_response c body ct ka)) = response_head c (zlen body) ct ka
     ∧ drop (n + 4) (build_http_response c body ct ka) = body
     ∧ decimal (to_string (zlen body)) = zlen body.
Proof.
  intros ??. rewrite response_message.
  edestruct (message_head _ _ body (response_head_plain c (zlen body) ct ka ltac:(done) ltac:(done)))
    as (n & ? & ? & ?).
  exists n. split_and!; [done..|]. apply decimal_to_string. unfold zlen. lia.
Qed.

(** * Witnesses *)

Lemma printed_request_parses_witness :
  let hs := [(text "Host", text "a b"); (text "Connection", text "Keep-Alive"); (text "Host", text "c")] in
  let r := parse_http_request (print_request (text "GET") (text "/x.html") HTTP_1_1 hs (text "body")) in
  r.1 = true ∧ path r.2 = text "/x.html" ∧ body r.2 = text "body" ∧ keep_alive r.2 = true
  ∧ headers r.2 !! text "Host" = Some (text "c").
Proof.
  cbv zeta. rewrite (printed_request_parses (text "GET") (text "/x.html") HTTP_1_1)
    by (by apply (bool_decide_unpack _)).
  cbn [fst snd path body keep_alive headers]. split_and!; by vm_compute.
Defined.

Lemma response_framed_witness :
  ∃ n, drop (n + 4) (build_http_response 404 (text "404 Not Found") (text "text/plain") false)
       = text "404 Not Found".
Proof.
  destruct (response_framed 404 (text "404 Not Found") (text "text/plain") false) as (n & _ & _ & H & _);
    [by apply (bool_decide_unpack _)..|].
  by exists n.
Defined.
