(* ===== verification/Router.v ===== *)
(** [src/src/router.cpp]: the response to an HTTP request, from the files below
    [www]. What the disk answers is a parameter: [stat_regular] is [stat] with
    [S_ISREG], [open_read] opens a file and reads it whole. *)

From Stdlib Require Import String.
From stdpp Require Import list.
From S2P Require Import Prelude Bytes Http.

Open Scope Z_scope.

(** * Definitions *)

(** What a C function sees of a string: the bytes before its first NUL. *)
Fixpoint c_str (s : bytes) : bytes :=
  match s with
  | [] => []
  | c :: s => if bool_decide (c = x00) then [] else c :: c_str s
  end.

(** [rfind] of one character. *)
Definition rfind (c : byte) (s : bytes) : option nat :=
  (λ i, length s - 1 - i)%nat <$> find [c] (reverse s).

Definition get_file_path (request_path : bytes) : bytes :=
  let path := if bool_decide (request_path = text "/") then text "/index.html" else request_path in
  text "www" ++ path.

Definition get_file_extension (file_path : bytes) : bytes :=
  match rfind x2e file_path with
  | None => []
  | Some pos => drop (pos + 1) file_path
  end.

Definition get_content_type (file_path : bytes) : bytes :=
  let ext := get_file_extension file_path in
  if bool_decide (ext = text "html") || bool_decide (ext = text "htm") then text "text/html; charset=utf-8"
  else if bool_decide (ext = text "css") then text "text/css; charset=utf-8"
  else if bool_decide (ext = text "js") then text "application/javascript; charset=utf-8"
  else if bool_decide (ext = text "txt") then text "text/plain; charset=utf-8"
  else if bool_decide (ext = text "jpg") || bool_decide (ext = text "jpeg") then text "image/jpeg"
  else if bool_decide (ext = text "png") then text "image/png"
  else if bool_decide (ext = text "gif") then text "image/gif"
  else text "application/octet-stream".

Definition PLAIN_TEXT : bytes := text "text/plain; charset=utf-8".
Definition line_of (t : bytes) : bytes := t ++ [LF].

Section Disk.
  Context (stat_regular : bytes → bool) (open_read : bytes → option bytes).

Definition is_regular_file (file_path : bytes) : bool := stat_regular (c_str file_path).
Definition read_file (file_path : bytes) : option bytes := open_read (c_str file_path).

Definition build_static_file_response (request_path : bytes) : bytes :=
  let file_path := get_file_path request_path in
  if negb (is_regular_file file_path) then
    build_http_response 404 (line_of (text "404 Not Found")) PLAIN_TEXT false
  else match read_file file_path with
  | None => build_http_response 500 (line_of (text "500 Internal Server Error")) PLAIN_TEXT false
  | Some body => build_http_response 200 body (get_content_type file_path) false
  end.

Definition build_response_by_request (request_text : bytes) : bytes :=
  let '(ok, request) := parse_http_request request_text in
  if negb ok then build_http_response 400 (line_of (text "400 Bad Request")) PLAIN_TEXT false
  else if negb (bool_decide (method request = text "GET")) then
    build_http_response 405 (line_of (text "405 Method Not Allowed")) PLAIN_TEXT false
  else if bool_decide (path request = text "/hello") then
    build_http_response 200 (line_of (text "hello from C++ WebServer")) PLAIN_TEXT false
  else build_static_file_response (path request).

(** * Specification *)

(** [response] is a framed response with this status, type and body. *)
Definition framed (response : bytes) (c : Z) (ct body : bytes) : Prop :=
  ∃ n, find HEADER_END response = Some n
     ∧ strip_cr <$> lines (take n response) = response_head c (zlen body) ct false
     ∧ drop (n + 4) response = body.

(** The answer for a file: its type and contents, or the error. *)
Definition file_answer (file_path response : bytes) : Prop :=
  match stat_regular (c_str file_path), open_read (c_str file_path) with
  | false, _ => framed response 404 PLAIN_TEXT (line_of (text "404 Not Found"))
  | true, None => framed response 500 PLAIN_TEXT (line_of (text "500 Internal Server Error"))
  | true, Some body => framed response 200 (get_content_type file_path) body
  end.

(** * Lemmas *)

Lemma content_type_plain p : CR ∉ get_content_type p ∧ LF ∉ get_content_type p.
Proof. unfold get_content_type. repeat case_match; by apply (bool_decide_unpack _). Qed.

Lemma response_is_framed c ct body :
  CR ∉ ct → LF ∉ ct → framed (build_http_response c body ct false) c ct body.
Proof.
  intros Hcr Hlf. unfold framed. rewrite response_message.
  exact (message_head _ _ body (response_head_plain c (zlen body) ct false Hcr Hlf)).
Qed.

Lemma plain_text_framed c body : framed (build_http_response c body PLAIN_TEXT false) c PLAIN_TEXT body.
Proof. by apply response_is_framed; apply (bool_decide_unpack _). Qed.

Lemma static_file_answer p : file_answer (get_file_path p) (build_static_file_response p).
Proof.
  unfold file_answer, build_static_file_response, is_regular_file, read_file.
  destruct stat_regular; cbn [negb]; [|apply plain_text_framed].
  destruct open_read; [|apply plain_text_framed].
  apply response_is_framed; apply content_type_plain.
Qed.

(** * Properties *)

(** C39: Every request text is answered, by a framed response that closes the
    connection, with the status its case asks for: 400 when it does not parse, 405
    when it is not a GET, the greeting for [/hello], and otherwise the contents
    of the file below [www] with the type of its extension, 404 when there is no
    such file and 500 when it cannot be read. *)
Theorem every_request_answered request :
  let response := build_response_by_request request in
  match parse_http_request request with
  | (false, _) => framed response 400 PLAIN_TEXT (line_of (text "400 Bad Request"))
  | (true, r) =>
      (method r ≠ text "GET" ∧ framed response 405 PLAIN_TEXT (line_of (text "405 Method Not Allowed")))
      ∨ (method r = text "GET" ∧ path r = text "/hello"
         ∧ framed response 200 PLAIN_TEXT (line_of (text "hello from C++ WebServer")))
      ∨ (method r = text "GET" ∧ path r ≠ text "/hello" ∧ file_answer (get_file_path (path r)) response)
  end.
Proof.
  cbv zeta. unfold build_response_by_request.
  destruct (parse_http_request request) as [[] r]; cbn [negb]; [|apply plain_text_framed].
  case_bool_decide as Hm; cbn [negb]; [|left; split; [done|apply plain_text_framed]].
  case_bool_decide as Hp; [right; left|right; right]; (do 2 (split; [done|])).
  - apply plain_text_framed.
  - apply static_file_answer.
Qed.

End Disk.

(** ** Extensions *)

Lemma extension_of p e : x2e ∉ e → get_file_extension (p ++ x2e :: e) = e.
Proof.
  intros He. unfold get_file_extension, rfind.
  rewrite reverse_app, reverse_cons, <- (assoc_L (++)).
  rewrite find_skip by (by rewrite elem_of_reverse).
  assert (find [x2e] ([x2e] ++ reverse p) = Some 0%nat) as -> by (by destruct (reverse p)).
  cbn [fmap option_fmap option_map]. rewrite length_reverse, length_app. cbn [length].
  replace (length p + S (length e) - 1 - (length e + 0) + 1)%nat with (length p + 1)%nat by lia.
  by rewrite drop_app_add.
Qed.

(** A page below [www] is served with its type; so is a file outside of it that a
    path with [..] names. *)
Definition demo_disk (p : bytes) : option bytes :=
  if bool_decide (p = text "www/index.html") then Some (text "home")
  else if bool_decide (p = text "www/../server.key") then Some (text "key") else None.
Definition demo_get (p : bytes) : bytes :=
  build_response_by_request (λ p, bool_decide (is_Some (demo_disk p))) demo_disk
    (print_request (text "GET") p HTTP_1_1 [] []).

Example index_page_served :
  demo_get (text "/") = build_http_response 200 (text "home") (text "text/html; charset=utf-8") false.
Proof. vm_compute. reflexivity. Qed.

Example parent_directory_served :
  demo_get (text "/../server.key")
  = build_http_response 200 (text "key") (text "application/octet-stream") false.
Proof. vm_compute. reflexivity. Qed.
