(* ===== verification/ThreadPool.v ===== *)
(** [src/src/thread_pool.cpp]: a fixed number of worker threads that take tasks
    from one queue. The threads interleave; a step is a critical section, the
    notification that follows one, the return of a task, or the destructor's
    join. Tasks are opaque. *)

From S2P Require Import Prelude.
From stdpp Require Import relations.
Open Scope Z_scope.

(** * Definitions *)

Section thread_pool.
Context {Task : Type}.

(** Where a worker is in [worker_loop]: about to test the predicate of [wait]
    (the mutex being free), asleep in it, in [task()], or returned. *)
Inductive worker : Type :=
| Testing
| Asleep
| Busy (task : Task)
| Exited.

(** [tp_notifies]: [add_task] calls that have released the mutex and not yet
    notified. [tp_notify_all]: the destructor has set [stop] and not yet
    notified; [tp_joined]: it has joined every worker. [tp_accepted], [tp_taken]
    and [tp_done] record the tasks that were queued, those that workers have
    taken from the queue and those that have returned. *)
Record ThreadPool : Type := MkThreadPool {
  workers : list worker;
  tasks : list Task;
  stop : bool;
  tp_notifies : nat;
  tp_notify_all : bool;
  tp_joined : bool;
  tp_accepted : list Task;
  tp_taken : list Task;
  tp_done : list Task
}.

Definition ThreadPool_new (thread_count : Z) : ThreadPool :=
  let thread_count := if thread_count <=? 0 then 1 else thread_count in
  MkThreadPool (replicate (Z.to_nat thread_count) Testing) [] false 0 false false [] [] [].

Definition set_worker (i : nat) (w : worker) (p : ThreadPool) : ThreadPool :=
  MkThreadPool (<[i:=w]> (workers p)) (tasks p) (stop p) (tp_notifies p) (tp_notify_all p) (tp_joined p)
    (tp_accepted p) (tp_taken p) (tp_done p).
Definition pop_task (t : Task) (ts : list Task) (p : ThreadPool) : ThreadPool :=
  MkThreadPool (workers p) ts (stop p) (tp_notifies p) (tp_notify_all p) (tp_joined p)
    (tp_accepted p) (tp_taken p ++ [t]) (tp_done p).
Definition finish_task (t : Task) (p : ThreadPool) : ThreadPool :=
  MkThreadPool (workers p) (tasks p) (stop p) (tp_notifies p) (tp_notify_all p) (tp_joined p)
    (tp_accepted p) (tp_taken p) (tp_done p ++ [t]).

(** [add_task] under the mutex; [notify_one] follows when it was accepted. *)
Definition add_task (t : Task) (p : ThreadPool) : ThreadPool :=
  if stop p then p
  else MkThreadPool (workers p) (tasks p ++ [t]) (stop p) (S (tp_notifies p)) (tp_notify_all p)
         (tp_joined p) (tp_accepted p ++ [t]) (tp_taken p) (tp_done p).

(** [notify_one] wakes the worker [i], if any is asleep. *)
Definition notified (p : ThreadPool) : ThreadPool :=
  MkThreadPool (workers p) (tasks p) (stop p) (pred (tp_notifies p)) (tp_notify_all p) (tp_joined p)
    (tp_accepted p) (tp_taken p) (tp_done p).

(** The destructor: under the mutex, [notify_all], the joins. *)
Definition begin_stop (p : ThreadPool) : ThreadPool :=
  MkThreadPool (workers p) (tasks p) true (tp_notifies p) true (tp_joined p)
    (tp_accepted p) (tp_taken p) (tp_done p).
Definition wake (w : worker) : worker := match w with Asleep => Testing | _ => w end.
Definition notify_all (p : ThreadPool) : ThreadPool :=
  MkThreadPool (wake <$> workers p) (tasks p) (stop p) (tp_notifies p) false (tp_joined p)
    (tp_accepted p) (tp_taken p) (tp_done p).
Definition joined (p : ThreadPool) : ThreadPool :=
  MkThreadPool (workers p) (tasks p) (stop p) (tp_notifies p) (tp_notify_all p) true
    (tp_accepted p) (tp_taken p) (tp_done p).

(** The critical section of [worker_loop] for worker [i]: wait, return or take. *)
Definition worker_test (i : nat) (p : ThreadPool) : ThreadPool :=
  if negb (stop p || negb (bool_decide (tasks p = []))) then set_worker i Asleep p
  else match tasks p with
  | [] => set_worker i Exited p
  | t :: ts => set_worker i (Busy t) (pop_task t ts p)
  end.

(** What happens by itself, without a further call: the workers, the
    notifications that are due, and the rest of the destructor. *)
Inductive work : ThreadPool → ThreadPool → Prop :=
| WorkTest i p : workers p !! i = Some Testing → work p (worker_test i p)
| WorkReturn i t p : workers p !! i = Some (Busy t) → work p (set_worker i Testing (finish_task t p))
| WorkNotifyOne i p : tp_notifies p ≠ 0%nat → workers p !! i = Some Asleep →
    work p (set_worker i Testing (notified p))
| WorkNotifyNone p : tp_notifies p ≠ 0%nat → Asleep ∉ workers p → work p (notified p)
| WorkNotifyAll p : tp_notify_all p = true → work p (notify_all p)
| WorkJoin p : stop p = true → tp_notify_all p = false → tp_joined p = false →
    Forall (λ w, w = Exited) (workers p) → work p (joined p).

(** Every step: a call of [add_task], the destructor's beginning, a spurious
    wake-up, or work. *)
Inductive pool_step : ThreadPool → ThreadPool → Prop :=
| PoolAdd t p : tp_joined p = false → pool_step p (add_task t p)
| PoolStop p : stop p = false → pool_step p (begin_stop p)
| PoolSpurious i p : workers p !! i = Some Asleep → pool_step p (set_worker i Testing p)
| PoolWork p p' : work p p' → pool_step p p'.

(** * The invariant *)

Definition in_hand (w : worker) : list Task := match w with Busy t => [t] | _ => [] end.
Definition testing (w : worker) : nat := match w with Testing => 1 | _ => 0 end.

(** The tasks leave the queue in the order in which they entered it; those taken
    are being run or finished; and no wake-up is lost: a worker only sleeps while
    the tasks in the queue are spoken for, by workers about to look or by
    notifications that are due. *)
Record pool_inv (p : ThreadPool) : Prop := {
  pv_workers : workers p ≠ [];
  pv_order : tp_accepted p = tp_taken p ++ tasks p;
  pv_taken : tp_taken p ≡ₚ tp_done p ++ (workers p ≫= in_hand);
  pv_exited : Exited ∈ workers p → stop p = true ∧ tasks p = [];
  pv_awake : Asleep ∈ workers p → stop p = false →
    (length (tasks p) <= tp_notifies p + sum_list_with testing (workers p))%nat;
  pv_stopping : Asleep ∈ workers p → stop p = true → tp_notify_all p = true
}.

Definition asleep (w : worker) : bool := match w with Asleep => true | _ => false end.

(** The work that is left, in steps. *)
Definition rank (w : worker) : nat := match w with Testing => 1 | Busy _ => 2 | Asleep | Exited => 0 end.
Definition work_left (p : ThreadPool) : nat :=
  2 * tp_notifies p + (if tp_notify_all p then S (length (workers p)) else 0) + 4 * length (tasks p)
  + sum_list_with rank (workers p) + (if tp_joined p then 0 else 1).

(** * Lemmas *)

Lemma worker_in_context ws i (w : worker) :
  ws !! i = Some w → ∃ l r, ws = l ++ w :: r ∧ ∀ w', <[i:=w']> ws = l ++ w' :: r.
Proof.
  intros Hi. exists (take i ws), (drop (S i) ws). split; [by rewrite take_drop_middle|].
  intros w'. apply insert_take_drop. by eapply lookup_lt_Some.
Qed.

Lemma sum_insert (f : worker → nat) ws i w w' :
  ws !! i = Some w → (sum_list_with f (<[i:=w']> ws) + f w = f w' + sum_list_with f ws)%nat.
Proof.
  intros (l & r & -> & Hins)%worker_in_context. rewrite Hins, !sum_list_with_app. cbn. lia.
Qed.

Lemma in_hand_insert ws i w w' :
  ws !! i = Some w → (<[i:=w']> ws ≫= in_hand) ++ in_hand w ≡ₚ in_hand w' ++ (ws ≫= in_hand).
Proof.
  intros (l & r & -> & Hins)%worker_in_context. rewrite Hins, !bind_app. cbn. solve_Permutation.
Qed.

Lemma elem_of_insert_other (ws : list worker) i (w' x : worker) : x ∈ <[i:=w']> ws → x = w' ∨ x ∈ ws.
Proof.
  intros (j & Hj)%list_elem_of_lookup. apply list_lookup_insert_Some in Hj as [(_ & -> & _)|[_ Hj]]; [by left|].
  right. by eapply list_elem_of_lookup_2.
Qed.

Lemma insert_not_nil (ws : list worker) i (w : worker) : ws ≠ [] → <[i:=w]> ws ≠ [].
Proof. by destruct ws, i. Qed.

Lemma set_worker_inv i w w' p :
  pool_inv p → workers p !! i = Some w → in_hand w' = in_hand w →
  (w' = Exited → stop p = true ∧ tasks p = []) →
  (w' = Asleep → stop p = false ∧ tasks p = []) →
  (w' = Testing ∨ testing w = 0%nat ∨ tasks p = []) →
  pool_inv (set_worker i w' p).
Proof.
  intros [Hne Hord Htk Hex Haw Hst] Hi Hhand Hx Ha Ht.
  assert (Hlen : Asleep ∈ <[i:=w']> (workers p) → stop p = false →
    (length (tasks p) <= tp_notifies p + sum_list_with testing (<[i:=w']> (workers p)))%nat).
  { intros [Hw|Hin]%elem_of_insert_other Hs.
    - destruct Ha as [_ ->]; [done|]. cbn. lia.
    - pose proof (sum_insert testing (workers p) i w w' Hi) as E. specialize (Haw Hin Hs).
      destruct Ht as [->|[Hw| ->]]; [|lia|cbn; lia]. cbn in E. destruct w; cbn in E; lia. }
  split; cbn; try done.
  - by apply insert_not_nil.
  - rewrite Htk. apply Permutation_app_head.
    pose proof (in_hand_insert (workers p) i w w' Hi) as E. rewrite Hhand in E.
    apply (Permutation_app_inv_r (in_hand w)). rewrite E. by rewrite (comm (++)).
  - intros [Hw|?]%elem_of_insert_other; auto.
  - intros [Hw|?]%elem_of_insert_other Hs; [|auto]. destruct Ha as [Hf _]; congruence.
Qed.

Lemma take_inv i t ts p :
  pool_inv p → workers p !! i = Some Testing → tasks p = t :: ts →
  pool_inv (set_worker i (Busy t) (pop_task t ts p)).
Proof.
  intros [Hne Hord Htk Hex Haw Hst] Hi Hts. split; cbn.
  - by apply insert_not_nil.
  - by rewrite Hord, Hts, <- (assoc_L (++)).
  - pose proof (in_hand_insert (workers p) i Testing (Busy t) Hi) as E. cbn in E.
    rewrite app_nil_r in E. rewrite E, Htk. solve_Permutation.
  - intros [|Hin]%elem_of_insert_other; [done|]. destruct (Hex Hin) as [_ Hnil]. congruence.
  - intros [|Hin]%elem_of_insert_other Hs; [done|]. specialize (Haw Hin Hs). rewrite Hts in Haw.
    pose proof (sum_insert testing (workers p) i Testing (Busy t) Hi) as E. cbn in E, Haw. lia.
  - intros [|Hin]%elem_of_insert_other Hs; [done|]. by apply Hst.
Qed.

Lemma pool_test_inv i p : pool_inv p → workers p !! i = Some Testing → pool_inv (worker_test i p).
Proof.
  intros Hp Hi. unfold worker_test. destruct (stop p) eqn:Hs; cbn [orb negb].
  - destruct (tasks p) as [|t ts] eqn:Hts; [|by apply take_inv].
    eapply set_worker_inv; try done; auto.
  - case_bool_decide as Hts; cbn [negb].
    + eapply set_worker_inv; try done; auto.
    + destruct (tasks p) as [|t ts] eqn:Hts'; [done|by apply take_inv].
Qed.

Lemma return_inv i t p :
  pool_inv p → workers p !! i = Some (Busy t) → pool_inv (set_worker i Testing (finish_task t p)).
Proof.
  intros [Hne Hord Htk Hex Haw Hst] Hi. split; cbn.
  - by apply insert_not_nil.
  - done.
  - pose proof (in_hand_insert (workers p) i (Busy t) Testing Hi) as E. cbn in E.
    rewrite Htk, <- E. solve_Permutation.
  - intros [|?]%elem_of_insert_other; auto. done.
  - intros [|Hin]%elem_of_insert_other Hs; [done|]. specialize (Haw Hin Hs).
    pose proof (sum_insert testing (workers p) i (Busy t) Testing Hi) as E. cbn in E. lia.
  - intros [|?]%elem_of_insert_other ?; auto. done.
Qed.

Lemma notified_inv i p :
  pool_inv p → tp_notifies p ≠ 0%nat → workers p !! i = Some Asleep → pool_inv (set_worker i Testing (notified p)).
Proof.
  intros [Hne Hord Htk Hex Haw Hst] Hn Hi. split; cbn.
  - by apply insert_not_nil.
  - done.
  - pose proof (in_hand_insert (workers p) i Asleep Testing Hi) as E. cbn in E.
    rewrite app_nil_r in E. by rewrite E.
  - intros [|?]%elem_of_insert_other; auto. done.
  - intros [|Hin]%elem_of_insert_other Hs; [done|]. specialize (Haw Hin Hs).
    pose proof (sum_insert testing (workers p) i Asleep Testing Hi) as E. cbn in E. lia.
  - intros [|?]%elem_of_insert_other ?; auto. done.
Qed.

Lemma wake_all_awake (ws : list worker) : Asleep ∉ wake <$> ws.
Proof. intros (w & Hw & _)%list_elem_of_fmap. by destruct w. Qed.

Lemma wake_in_hand (ws : list worker) : (wake <$> ws) ≫= in_hand = ws ≫= in_hand.
Proof. induction ws as [|w ws IH]; cbn; [done|]. rewrite IH. by destruct w. Qed.

Lemma work_inv p p' : work p p' → pool_inv p → pool_inv p'.
Proof.
  intros Hwork Hp. destruct Hwork as [i p Hi|i t p Hi|i p Hn Hi|p Hn Hno|p Ha|p Hs Ha Hj Hall].
  - by apply pool_test_inv.
  - by apply return_inv.
  - by apply notified_inv.
  - destruct Hp. by split; cbn.
  - destruct Hp as [Hne Hord Htk Hex Haw Hst]. split; cbn; try done.
    + by destruct (workers p).
    + by rewrite wake_in_hand.
    + intros (w & Hw & Hin)%list_elem_of_fmap. apply Hex. by destruct w.
    + intros Hin. by apply wake_all_awake in Hin.
    + intros Hin. by apply wake_all_awake in Hin.
  - destruct Hp. by split; cbn.
Qed.

Lemma pool_step_inv p p' : pool_step p p' → pool_inv p → pool_inv p'.
Proof.
  intros Hstep Hp. destruct Hstep as [t p Hj|p Hs|i p Hi|p p' Hw].
  - unfold add_task. destruct (stop p) eqn:Hs; [done|].
    destruct Hp as [Hne Hord Htk Hex Haw Hst]. split; cbn; try done.
    + by rewrite Hord, (assoc_L (++)).
    + intros Hin. destruct (Hex Hin). congruence.
    + intros Hin _. specialize (Haw Hin Hs). rewrite length_app. cbn. lia.
  - destruct Hp as [Hne Hord Htk Hex Haw Hst]. split; cbn; try done.
    intros Hin. by destruct (Hex Hin).
  - eapply set_worker_inv; try done; auto.
  - by eapply work_inv.
Qed.

Lemma ThreadPool_new_inv n : pool_inv (ThreadPool_new n).
Proof.
  assert (Hx : ∀ k (w : worker), w ∈ replicate k Testing → w = Testing) by (by intros k w [-> _]%elem_of_replicate).
  unfold ThreadPool_new. destruct (Z.leb_spec n 0); split; cbn -[replicate];
    try (by intros ?%Hx); try done.
  - destruct (Z.to_nat n) eqn:E; [lia|done].
  - generalize (Z.to_nat n). intros k. by induction k.
Qed.

Lemma reachable_pool n p : rtc pool_step (ThreadPool_new n) p → pool_inv p.
Proof.
  intros Hr. pose proof (ThreadPool_new_inv n) as Hi. induction Hr; eauto using pool_step_inv.
Qed.

(** ** The work ends *)

Lemma wake_rank (ws : list worker) : (sum_list_with rank (wake <$> ws) <= length ws + sum_list_with rank ws)%nat.
Proof. induction ws as [|[| | |] ws IH]; cbn; lia. Qed.

Lemma work_less p p' : work p p' → (work_left p' < work_left p)%nat.
Proof.
  destruct 1 as [i p Hi|i t p Hi|i p Hn Hi|p Hn Hno|p Ha|p Hs Ha Hj Hall]; unfold work_left.
  - pose proof (λ w, sum_insert rank (workers p) i Testing w Hi) as E. unfold worker_test.
    destruct (negb _); [|destruct (tasks p) as [|t ts] eqn:Hts]; cbn;
      rewrite length_insert, ?Hts; cbn.
    + specialize (E Asleep). cbn in E. lia.
    + specialize (E Exited). cbn in E. lia.
    + specialize (E (Busy t)). cbn in E. lia.
  - pose proof (sum_insert rank (workers p) i (Busy t) Testing Hi) as E. cbn in *. rewrite length_insert. lia.
  - pose proof (sum_insert rank (workers p) i Asleep Testing Hi) as E. cbn in *. rewrite length_insert. lia.
  - cbn. lia.
  - pose proof (wake_rank (workers p)). cbn. rewrite Ha. lia.
  - cbn. rewrite Hj. lia.
Qed.

Lemma work_keeps p p' : work p p' → tp_accepted p' = tp_accepted p ∧ stop p' = stop p.
Proof.
  destruct 1; cbn; try done. unfold worker_test.
  destruct (negb _); [|destruct (tasks p)]; done.
Qed.

Lemma worker_stuck_cases p :
  nf work p → tp_notifies p = 0%nat ∧ tp_notify_all p = false ∧
  Forall (λ w, w = Asleep ∨ w = Exited) (workers p).
Proof.
  intros Hnf. split_and!.
  - destruct (decide (tp_notifies p = 0%nat)) as [|Hn]; [done|]. destruct Hnf.
    destruct (decide (Exists (λ w, asleep w = true) (workers p))) as [He|He].
    + apply Exists_exists in He as (w & Hin & Hw). destruct w; try done.
      apply list_elem_of_lookup in Hin as [i Hi]. eexists. by eapply WorkNotifyOne.
    + eexists. apply WorkNotifyNone; [done|]. intros Hin. apply He, Exists_exists. by exists Asleep.
  - destruct (tp_notify_all p) eqn:Ha; [|done]. destruct Hnf. eexists. by apply WorkNotifyAll.
  - apply Forall_forall. intros w Hin. apply list_elem_of_lookup in Hin as [i Hi].
    destruct w as [| |t|]; auto; destruct Hnf; eexists; [by apply WorkTest|by eapply WorkReturn].
Qed.

Lemma stuck_done p :
  pool_inv p → nf work p →
  tasks p = [] ∧ tp_done p ≡ₚ tp_accepted p ∧
  (stop p = true → tp_joined p = true ∧ Forall (λ w, w = Exited) (workers p)).
Proof.
  intros [Hne Hord Htk Hex Haw Hst] Hnf.
  pose proof (worker_stuck_cases p Hnf) as (Hn & Ha & Hall).
  assert (Htasks : tasks p = []).
  { destruct (workers p) as [|w ws] eqn:Hw; [done|].
    apply Forall_cons in Hall as [[->| ->] Hws]; [|by apply Hex; left].
    destruct (stop p) eqn:Hs; [rewrite Hst in Ha by (done || by left); done|].
    specialize (Haw ltac:(by left) eq_refl). rewrite Hn in Haw.
    assert (Hz : sum_list_with testing (Asleep :: ws) = 0%nat).
    { cbn. clear -Hws. induction Hws as [|w ws [->| ->] _ IH]; cbn; done. }
    rewrite Hz in Haw. destruct (tasks p); cbn in Haw; [done|lia]. }
  split_and!; [done| |].
  - rewrite Hord, Htk, Htasks, app_nil_r.
    assert (workers p ≫= in_hand = []) as ->; [|by rewrite app_nil_r].
    clear -Hall. induction Hall as [|w ws [->| ->] _ IH]; cbn; done.
  - intros Hs. assert (Hout : Forall (λ w, w = Exited) (workers p)).
    { rewrite Forall_forall in Hall |- *. intros w Hin. destruct (Hall w Hin) as [->|]; [|done].
      rewrite Hst in Ha by done. done. }
    split; [|done]. destruct (tp_joined p) eqn:Hj; [done|]. destruct Hnf. eexists. by apply WorkJoin.
Qed.

(** * Properties *)

(** C37: Every task is executed exactly once. However calls of [add_task], the
    destructor, spurious wake-ups and the workers interleave, tasks are taken
    from the queue in the order in which they were accepted; left alone, the
    workers make finitely many steps, and when they cannot make another the
    queue is empty and the tasks that have returned are exactly the accepted
    ones; if the destructor has been called, it has joined every worker. *)
Theorem pool_runs_every_task n p :
  rtc pool_step (ThreadPool_new n) p →
  tp_accepted p = tp_taken p ++ tasks p ∧
  sn work p ∧
  ∀ p', rtc work p p' → nf work p' →
    tasks p' = [] ∧ tp_done p' ≡ₚ tp_accepted p ∧
    (stop p = true → tp_joined p' = true ∧ Forall (λ w, w = Exited) (workers p')).
Proof.
  intros Hp%reachable_pool. split_and!; [apply Hp|apply (measure_ends _ work_left), work_less|].
  intros p' Hw Hnf. clear n.
  assert (Hp' : pool_inv p' ∧ tp_accepted p' = tp_accepted p ∧ stop p' = stop p).
  { clear Hnf. induction Hw as [p|p1 p2 p3 H12 _ IH]; [done|].
    destruct (work_keeps _ _ H12) as [<- <-]. by apply IH, (work_inv _ _ H12). }
  destruct Hp' as (Hp' & <- & <-). by apply stuck_done.
Qed.

End thread_pool.
Arguments worker : clear implicits.
Arguments ThreadPool : clear implicits.

(** One worker takes the first of two tasks, then the destructor begins. *)
Definition demo_pool : ThreadPool nat := begin_stop (worker_test 0 (add_task 8%nat (add_task 7%nat (ThreadPool_new 1)))).

Lemma pool_runs_every_task_witness :
  tp_taken demo_pool = [7%nat] ∧ tasks demo_pool = [8%nat] ∧
  ∀ p', rtc work demo_pool p' → nf work p' →
    tp_done p' ≡ₚ [7%nat; 8%nat] ∧ tp_joined p' = true.
Proof.
  split_and!; [reflexivity..|]. intros p' Hw Hnf.
  destruct (pool_runs_every_task 1 demo_pool) as (_ & _ & H).
  - eapply rtc_l; [by apply (PoolAdd 7%nat)|]. eapply rtc_l; [by apply (PoolAdd 8%nat)|].
    eapply rtc_l; [by apply PoolWork, (WorkTest 0)|]. by apply rtc_once, PoolStop.
  - destruct (H p' Hw Hnf) as (_ & Hdone & Hstop). split; [exact Hdone|by apply Hstop].
Defined.
