(* ===== verification/Logger.v ===== *)
(** [src/src/logger.cpp]: the log file. Every method holds the mutex from end to
    end, so the calls of all threads are one sequence of operations. The stream
    is the standard library's: once it has failed it drops what it is given,
    and opening it while it is open makes it fail. The clock, the time zone and
    what the device accepts are arguments. *)

From Stdlib Require Import String.
From S2P Require Import Prelude Bytes.
Open Scope Z_scope.

(** * Definitions *)

(** [log_file]: whether it is open, whether the stream has failed, and the
    contents of the file. [std::endl] flushes, so nothing stays in the stream. *)
Record Logger : Type := MkLogger { log_is_open : bool; log_failed : bool; log_text : bytes }.

(** [struct tm]. *)
Record tm : Type := MkTm {
  tm_year : Z; tm_mon : Z; tm_mday : Z; tm_hour : Z; tm_min : Z; tm_sec : Z
}.

(** A number in [width] decimal digits. *)
Fixpoint padded (width : nat) (n : Z) : bytes :=
  match width with
  | O => []
  | S width => padded width (n / 10) ++ [byte_of_Z (48 + n mod 10)]
  end.
Definition quoted (s : string) : bytes := String.list_byte_of_string s.
Arguments quoted s%_string_scope.

(** [now] counts milliseconds. *)
Definition get_current_time (localtime : Z → tm) (now : Z) : bytes :=
  let t := localtime (now / 1000) in
  padded 4 (1900 + tm_year t) ++ quoted "-" ++ padded 2 (1 + tm_mon t) ++ quoted "-" ++ padded 2 (tm_mday t) ++
  quoted " " ++ padded 2 (tm_hour t) ++ quoted ":" ++ padded 2 (tm_min t) ++ quoted ":" ++ padded 2 (tm_sec t) ++
  quoted "." ++ padded 3 (now mod 1000).

Definition init (opened : bool) (l : Logger) : bool * Logger :=
  let l := if log_is_open l then MkLogger true true (log_text l)
           else MkLogger opened (negb opened) (log_text l) in
  (log_is_open l, l).

Definition log_line (localtime : Z → tm) (now : Z) (level message : bytes) : bytes :=
  quoted "[" ++ get_current_time localtime now ++ quoted "] " ++ quoted "[" ++ level ++ quoted "] " ++ message ++ [x0a].

(** The device takes the whole line, or fails after the first [k] bytes. *)
Definition write_log (localtime : Z → tm) (now : Z) (accepted : option nat) (level message : bytes) (l : Logger) : Logger :=
  if negb (log_is_open l) then l
  else if log_failed l then l
  else
    let line := log_line localtime now level message in
    match accepted with
    | None => MkLogger true false (log_text l ++ line)
    | Some k => MkLogger true true (log_text l ++ take k line)
    end.

Definition flush (l : Logger) : Logger := l.
Definition destroy_logger (l : Logger) : Logger :=
  if log_is_open l then MkLogger false (log_failed l) (log_text l) else l.

(** ** Runs *)

Inductive LogCall : Type :=
| CallInit (opened : bool)
| CallWrite (now : Z) (accepted : option nat) (level message : bytes)
| CallFlush.

Definition log_call (localtime : Z → tm) (call : LogCall) (l : Logger) : Logger :=
  match call with
  | CallInit opened => (init opened l).2
  | CallWrite now accepted level message => write_log localtime now accepted level message l
  | CallFlush => flush l
  end.
Definition log_run (localtime : Z → tm) (calls : list LogCall) (l : Logger) : Logger :=
  foldl (λ l call, log_call localtime call l) l calls.

(** ** Specification *)

(** The lines of the calls that come after the file has been opened. *)
Fixpoint lines_logged (localtime : Z → tm) (opened : bool) (calls : list LogCall) : list bytes :=
  match calls with
  | [] => []
  | CallInit ok :: calls => lines_logged localtime (opened || ok) calls
  | CallWrite now _ level message :: calls =>
      (if opened then [log_line localtime now level message] else []) ++ lines_logged localtime opened calls
  | CallFlush :: calls => lines_logged localtime opened calls
  end.

(** * Proofs *)

Lemma padded_length width n : length (padded width n) = width.
Proof. revert n. induction width as [|width IH]; intros n; [done|]. cbn. rewrite length_app, IH. cbn. lia. Qed.

Lemma time_length localtime now : length (get_current_time localtime now) = 23%nat.
Proof. unfold get_current_time. rewrite !length_app, !padded_length. done. Qed.

(** A failed stream stays as it is. *)
Lemma log_run_failed localtime calls text :
  log_run localtime calls (MkLogger true true text) = MkLogger true true text.
Proof. unfold log_run. induction calls as [|[] calls IH]; [done|..]; cbn; done. Qed.

Lemma log_run_from localtime calls l :
  log_failed l = false ∨ log_is_open l = false →
  ∃ k torn, log_text (log_run localtime calls l) = log_text l ++ concat (take k (lines_logged localtime (log_is_open l) calls)) ++ torn ∧
    (∃ line, line ∈ [] :: drop k (lines_logged localtime (log_is_open l) calls) ∧ torn `prefix_of` line) ∧
    (log_failed (log_run localtime calls l) = false → concat (take k (lines_logged localtime (log_is_open l) calls)) ++ torn = concat (lines_logged localtime (log_is_open l) calls)).
Proof.
  unfold log_run. revert l. induction calls as [|call calls IH]; intros l Hl.
  - exists 0%nat, []. rewrite !app_nil_r. split_and!; [done| |done]. exists []. split; [by left|done].
  - cbn [foldl]. destruct call as [ok|now accepted level message|]; cbn [log_call lines_logged].
    + destruct (log_is_open l) eqn:Ho; unfold init; rewrite Ho; cbn [snd orb].
      * pose proof (log_run_failed localtime calls (log_text l)) as Hf. unfold log_run in Hf. rewrite Hf. cbn [log_text log_failed].
        exists 0%nat, []. cbn. split_and!; [by rewrite app_nil_r| |done]. exists []. split; [by left|done].
      * destruct (IH (MkLogger ok (negb ok) (log_text l))) as (k & torn & H); [destruct ok; auto|]. by exists k, torn.
    + unfold write_log. destruct (log_is_open l) eqn:Ho; cbn [negb app].
      * destruct Hl as [Hl|]; [|done]. rewrite Hl. destruct accepted as [j|].
        -- pose proof (log_run_failed localtime calls (log_text l ++ take j (log_line localtime now level message))) as Hf.
           unfold log_run in Hf. rewrite Hf. cbn [log_text log_failed]. exists 0%nat, (take j (log_line localtime now level message)).
           split_and!; [done| |done]. exists (log_line localtime now level message). split; [cbn; by right; left|apply prefix_take].
        -- destruct (IH (MkLogger true false (log_text l ++ log_line localtime now level message))) as (k & torn & Ht & Hline & Hd); [by left|].
           exists (S k), torn. cbn [log_text log_is_open take drop concat] in *. rewrite Ht, <- !(assoc_L (++)).
           split_and!; [done|done|]. intros Hf. f_equal. by apply Hd.
      * rewrite <- Ho in *. destruct (IH l Hl) as (k & torn & H). exists k, torn. by rewrite Ho in *.
    + destruct (IH l Hl) as (k & torn & H). by exists k, torn.
Qed.

Lemma split_at_unique (c : byte) (xs ys xs' ys' : bytes) :
  c ∉ xs → c ∉ ys → xs ++ c :: xs' = ys ++ c :: ys' → xs = ys ∧ xs' = ys'.
Proof.
  revert ys. induction xs as [|x xs IH]; intros [|y ys] Hx Hy Heq; cbn in *.
  - by injection Heq.
  - injection Heq as -> _. destruct Hy. by left.
  - injection Heq as <- _. destruct Hx. by left.
  - injection Heq as <- Heq. rewrite not_elem_of_cons in Hx, Hy. destruct Hx, Hy. by destruct (IH ys) as [-> ->].
Qed.

(** * Properties *)

(** The log is made of whole lines: whatever the threads do and the device
    accepts, the file keeps what it held and goes on with the lines of the calls
    after it was opened, in order and each in one piece; only when the device
    fails is the rest missing, after at most one torn line. *)
Theorem log_whole_lines (localtime : Z → tm) (calls : list LogCall) (text : bytes) :
  let l := log_run localtime calls (MkLogger false false text) in
  let lines := lines_logged localtime false calls in
  ∃ k torn, log_text l = text ++ concat (take k lines) ++ torn ∧
    (∃ line, line ∈ [] :: drop k lines ∧ torn `prefix_of` line) ∧
    (log_failed l = false → log_text l = text ++ concat lines).
Proof.
  cbn zeta. destruct (log_run_from localtime calls (MkLogger false false text)) as (k & torn & Ht & Hline & Hd); [by left|].
  cbn [log_text log_is_open] in *. exists k, torn. split_and!; [done|done|]. intros Hf. by rewrite Ht, Hd.
Qed.

(** A line determines the time, level and message it was written for. *)
Theorem log_line_determined (localtime : Z → tm) now now' level level' message message' :
  x5d ∉ level → x5d ∉ level' →
  log_line localtime now level message = log_line localtime now' level' message' →
  get_current_time localtime now = get_current_time localtime now' ∧ level = level' ∧ message = message'.
Proof.
  intros Hl Hl' Heq. unfold log_line in Heq. apply app_inv_head in Heq.
  apply app_inj_1 in Heq as [Htime Heq]; [|by rewrite !time_length]. do 2 apply app_inv_head in Heq.
  apply split_at_unique in Heq as [-> Heq]; [|done..]. apply (app_inv_head (quoted " ")), app_inv_tail in Heq. done.
Qed.

Example log_demo :
  log_text (log_run (λ s, MkTm 125 0 2 3 4 (s mod 60))
    [CallWrite 1 None (quoted "INFO") (quoted "lost"); CallInit true;
     CallWrite 7045 None (quoted "INFO") (quoted "up"); CallWrite 8000 (Some 9%nat) (quoted "ERROR") (quoted "torn");
     CallWrite 9000 None (quoted "INFO") (quoted "lost")] (MkLogger false false [])) =
  quoted "[2025-01-02 03:04:07.045] [INFO] up" ++ [x0a] ++ quoted "[2025-01-".
Proof. vm_compute. done. Qed.
